(* ===== verification/_CoqProject ===== *)
-Q . S2P
Prelude.v
GoStrings.v
GoTime.v
Encoding.v
Json.v
JsonRoundTrip.v
JsonTree.v
Sha256.v
Credentials.v
CredentialFacts.v
CredentialVerify.v
CredentialProps.v
StoreRelations.v
StoreRelationFacts.v
ExactAuthority.v
ExactAuthorityFacts.v
Domain.v
DomainFacts.v
Engine.v
OpenBoundary.v
AccessProps.v
BoundaryProps.v
Session.v
SessionFacts.v
StoreSync.v
StoreSyncFacts.v
StoreObjects.v
StoreObjectFacts.v
LocalKey.v
LocalKeyFacts.v
Handlers.v
HandlerProps.v
Frames.v
FrameFacts.v
Effects.v
UseCases.v
UseCaseProps.v
Nodes.v
NodeProps.v
ScopeTokens.v
ScopeTokenFacts.v
ScopeAuthority.v
ScopeAuthorityProps.v
ScopeClient.v
ScopeClientProps.v
ScopeSync.v
ScopeSyncProps.v
Downstream.v
DownstreamProps.v
CommandLine.v
CommandLineProps.v
Bundle.v
BundleProps.v
Reachability.v
ReachabilityProps.v
Published.v
PublishedProps.v
RunControl.v
RunControlProps.v
PipeViews.v
PipeViewsProps.v
PipeClient.v
PipeClientProps.v
ScopeCommands.v
ScopeCommandsProps.v
