(* ===== verification/Prelude.v ===== *)
(** * Verification of tubo

    Tubo connects local services through named Pipes. The owner of a Pipe publishes it,
    mints one-time invites for it and runs a receiving boundary; a recipient redeems an
    invite for a short-lived Access Lease, renews the lease while the relationship is
    accepted, and opens the Pipe with the lease and a proof of possession of its key. An
    authorized open is served by a session that copies bytes between the carrier and the
    local target, or is forwarded to another Pipe. Members of a scope learn records of
    Pipes and Services from a pinned authority by snapshots that a lease-protected
    supervisor reconciles into the local store.

    ** The parts, their files and their models

    - Language and library: [Prelude] (errors with their sentinels, the result monad,
      tactics), [GoStrings] (strings as bytes, package strings), [GoTime] (instants with a
      zone offset, saturating durations, RFC 3339 printing and parsing), [Encoding]
      (base64url and base32 on bits), [Json] (encoding/json tokens, values, escaping and
      the strict scanner of accesslease/strict.go), [JsonRoundTrip], [JsonTree] (nested
      values and codecs of structs with their round trips), [Sha256], [Effects] (code with
      effects as functions on a world, and what such code can do to it).
    - internal/accesslease: [Credentials], with the modules [Lease] (accesslease.go),
      [Binding] (owner.go) and [Invite] (invite.go) and the functions of sign.go and
      strict.go. [CredentialFacts] has the wire forms and signing bodies,
      [CredentialVerify] the declarative acceptance conditions and minting,
      [CredentialProps] the properties.
    - internal/store/store.go: [StoreRelations] has revocations, redemptions and accepted
      relationships, [StoreRelationFacts] their invariants; [StoreSync] has records,
      freshness, authority snapshots, sync leases and reconciliation, [StoreSyncFacts]
      their properties; [StoreObjects] has services, pipes, sessions, connect leases and
      the tables of exact_connection.go, [StoreObjectFacts] their properties; scopes and
      memberships are in [ScopeClient], runs in [ScopeSync]. A table is a finite map from
      its primary key to its columns, times are the texts the columns hold, a transaction
      that fails leaves the tables as they were. The interleaving of processes is the
      sequence of the operations, each of which is one SQL transaction.
    - internal/exactauthority and internal/store/exactauthority_adapter.go:
      [ExactAuthority]. The class [AuthorityState] is the interface of state.go, the class
      [AuthorityStateLaws] what redemption and renewal rely on, and the store adapter is
      the instance [adapter_laws]. [ExactAuthorityFacts] says when an invite is redeemable.
    - internal/domain: [Domain], [DomainFacts] (references, validation, logical paths).
    - internal/engine: [Engine] (traversal state, forwarding).
    - internal/openauth, runtime/exact_authorizer.go and the first half of
      runtime/serve.go: [OpenBoundary]. [AccessProps] joins redemption, renewal and the
      open boundary; [BoundaryProps] has the properties of serving and traversal.
    - runtime/session.go, runtime/ownership.go and the hand-over at the end of serve:
      [Session] with the modules [Registry] and [Ownership]; [SessionFacts].
    - internal/localkey: [LocalKey], key files as programs over system calls;
      [LocalKeyFacts] runs them alone, interleaved, with failing calls, kills and crashes.
    - runtime/redemption_handler.go, renewal_handler.go, exact_redemption_client.go and
      exact_renewal.go: [Handlers]; [HandlerProps]. Their frames of protocol/frame.go as
      bytes: [Frames]; [FrameFacts].
    - internal/usecase: [UseCases], over records of ports for repositories, key files,
      clocks and carriers; [UseCaseProps]. [Nodes] is a world of two nodes in which the
      ports are the store adapters of store/usecaseports.go and the clients and handlers
      of the wire; [NodeProps] runs the use cases there.
    - Scopes: [ScopeTokens] has authority/token.go (module [Tokens]) and
      discovery/record.go (module [Records]), [ScopeTokenFacts] their round trips and
      verification. [ScopeAuthority] is the handler of runtime/authority.go with all its
      operations and the snapshot protocol; [ScopeAuthorityProps]. [ScopeClient] is
      runtime/client.go, the member's side; [ScopeClientProps] puts both together.
      [ScopeSync] is the controller of runtime/sync.go as a machine among processes that
      share its store; [ScopeSyncProps].
    - Opening a remote Pipe: [Downstream] has runtime/exact_access.go, exact_downstream.go,
      the local connections of runtime/pipe.go, the second half of serve up to the row of
      the session with servebookkeeping.go, and [setRunStatus] of relay_recovery.go;
      [DownstreamProps] puts the opening node and the receiving node of [Nodes] together.
    - internal/cli: [CommandLine] has the tree of commands of spec.go, the parser of
      parse.go, the global flags of operations.go, and Run and dispatch of app.go up to
      the call of a handler; [CommandLineProps] has the grammar of command lines.
      [RunControl] has the handlers that start, stop, restart and remove Pipes (app.go,
      operations.go, supervisor.go) with process identities and supervisors of the store,
      over a machine whose process table and registry of runs change at every instant;
      [RunControlProps]. [PipeViews] has the inventory of Pipes and its watcher
      (pipe_views.go); [PipeViewsProps]. [ScopeCommands] has the handlers of app.go that create
      services, Pipes and scopes, invite to a scope, join it and revoke, with the current scope
      of the store, over a node with its tables, key files and secrets; [ScopeCommandsProps].
    - internal/reachability and internal/node/host.go: [Bundle] is the bootstrap bundle with
      its bytes, [BundleProps]; [Reachability] has relay addresses, connections over a record
      of host operations and providers, [ReachabilityProps].
    - The scoped runtimes of runtime/pipe.go: [Published] has reachability's relay
      reservation, the publish grant, the publication of records and the status of the run,
      [PublishedProps]; [PipeClient] has the resolver of a remote record, the lease cache,
      local connections with their one retry and downstream carriers, [PipeClientProps].

    ** What the theorems show

    - Credentials: decoders accept only the canonical text; what is encoded is decoded
      unchanged; signed bytes determine the object and its kind; verification accepts
      exactly a declarative condition; what is minted verifies through its whole window.
    - Access: redemption reads and checks everything before it writes, for one recipient
      per invite; its lease opens the Pipe until it expires or is fenced; revocation and
      epochs are final; renewal continues an accepted relationship and nothing more.
    - The protocol: a run of an honest client against an honest handler ends with a lease,
      also over the bytes of the frames, and a handler grants or writes only for its own
      Pipe, key and challenge.
    - The journey: what was shared can be connected and then opened, over two stores, the
      wire and the tunnel ([share_then_open]); the use cases check before they write and
      repeat without effect.
    - Serving: nothing outside is touched before authorization; the engine's conditions on
      the next Pipe are the next receiver's; traversals are bounded and loop free; path
      resolution returns exactly the chains there are.
    - Sessions: an invariant over all interleavings of lifecycle steps, completion of a
      stop, integrity and termination of the copy loops, ownership of every session.
      [refused_carrier_never_ends] states a defect: a refused carrier that nobody closes.
    - Published Pipes: every record that is published verifies and supersedes the one before;
      ready means a held reservation that is due for renewal before it expires
      ([short_reservation_lapses]: with the ticks of the code that is not yet a renewal before
      the expiry for the shortest ones). Local Pipes of a scope: a connection is retried once
      at most, only with a newer record of the same Pipe, and never after an answer, and every
      stream is closed again but the one of the session, whatever other goroutines do to the
      shared resolver and leases meanwhile.
    - Reachability: a bundle is accepted exactly as the signed canonical bytes of a pinned
      root; relay and circuit addresses have the form the runtime relies on.
    - Processes: a process is signalled only when it is seen to be the recorded one; what is
      removed is stopped before; a start gives a ready run or cleans up
      ([degraded_run_replaced] and [rm_stale_refused] state two defects). The inventory shows
      each Pipe once and only verified records, at every poll those of the store at that
      instant; replaying the watcher's events gives it.
    - Key files: whatever processes do and however they die, the key path never holds
      anything but a complete key, and all that provision get the same one.
    - The store: histories of invites and revocations, definitions that persist.
    - Scopes: every request to an authority is authenticated before any effect; leases are
      handed out only for a reason; what an authority publishes was verified; a refreshed
      member knows exactly what its authority offers. Reconciliation is atomic and exact,
      counters never go back, sync leases are fenced by their token and exclusive up to a
      second ([sync_lease_exclusion] also shows the second to be lost: expiries are
      compared as text). A sync controller runs one term of ownership, refining a monitor,
      never disturbs a successor, and ends when cancelled.
    - The command line: a handler is reached exactly by the sentences of a grammar, with
      the meaning of their tokens, and every declared command has a handler.
    - Commands on scopes: who is invited can join and is then served by the authority; grants
      of an own scope are accepted; what is revoked stays revoked where access is checked,
      except that [revoke_takes_effect] also shows a revocation that misses the exact access
      to a Pipe of a scope.

    ** Parameters

    Ed25519 is the class [Ed25519]; the laws used are those of [Ed25519Laws]: sizes, and
    that what a key signed verifies. No unforgeability is assumed. The parsers of net/url
    and package net are the class [NetParsers]. Random bytes and the clock are arguments,
    or functions of the number of reads so far. Dialers, the downstream opener, the
    network between a member and its authority and the frames that arrive are arguments
    or records of operations ([Host], [PublishPorts], [Inventory], the class [Remote]); of
    an [Inventory] the one of the store, [store_inventory], is shown to have the laws. The
    address and peer libraries are the classes [Multiformats] and [Addressing], whose laws
    [AddressingLaws] are that the address of a component prints and parses as that component,
    for components without a path, and that the component of a peer names that peer; the operating system is the class
    [Machine], of which nothing is assumed but, for the bound on polls, that a poll takes
    100 milliseconds. Errors carry the sentinels that errors.Is can find and the
    constant part of their text. A driver error of the database is not modelled, except
    that unsigned parameters of 63 bits and more are refused and that every statement of
    the sync controller may fail.

    ** Bounds and fuel

    Integers are Z with their Go ranges as hypotheses where they matter (epochs below 2^64,
    or 2^63 where the database stores them); durations saturate like time.Duration, sums
    of durations in the sync controller wrap around. Loops over a text take fuel of one
    more than its length; each iteration consumes at least one byte, and
    [scan_loop_fuel], [group_spec] and [full_groups_bytes] show that it is enough; nesting
    of JSON values is bounded as in encoding/json. [ResolveLogicalPath] takes the hop limit
    as fuel and fails by itself at that bound. The request loops of a member make at most
    ten attempts, as in the code. The loops that wait fifteen seconds for a process take 151
    polls; [polls_suffice] shows that more make no difference when a poll takes 100
    milliseconds. A maintenance loop and a watcher run for the ticks that they are given.
    Calendar dates cover the years 0 to 9999, which RFC 3339
    can write.

    ** Not modelled

    The configuration but for the current scope, telemetry, path events, aliases and migrations of the store; the handlers
    of the command line that only read and print, and the installation of supervisors with
    launchd and systemd; opening a libp2p host, listeners, timers and signal handling of the
    runtimes. Concurrent connections of one local Pipe are not modelled each: what they do to
    the shared resolver and lease cache between the steps of one is the field [r_others] of
    [Remote]. The frames of the authority protocols are records of their
    fields, not bytes, and so are those of the tunnel in [Downstream] and [PipeClient]. The
    scope token authorizer is quarantined in the code (its constructor panics) and left out.
    Output formatting and the architecture checker are I/O or tooling. *)
From stdpp Require Export base tactics option list strings sets gmap.
From Stdlib Require Export ZArith Lia Ascii.

(** ** Errors

    A Go [error] is the list of sentinels that [errors.Is] finds in it and the
    constant text of its format string (interpolated arguments are dropped). *)
Inductive sentinel :=
  | ErrNotFound
  | ErrInviteRedeemed
  | ErrScopeSyncLeaseLost
  | ErrSnapshotRollback
  | ErrSnapshotAmbiguous
  | ErrHopLimitExceeded
  | ErrLoopDetected
  | ErrInvalidTargetKind
  | ErrMissingPipeTarget
  | ErrMissingServiceTarget
  | ErrInvalidPipeDefinition
  | ErrInvalidServiceDefinition
  | ErrReservationTooShort
  | ErrRuntimeClosed
  | ErrDuplicateSessionID
  | ErrInvalidSessionID
  | ErrEOF
  | ErrUnexpectedEOF
  | ErrNotExist
  | ErrExist
  | ErrLoop
  | ErrUnsafe
  | ErrInvalid
  | ErrMalformed
  | ErrOversized
  | ErrUnknownVersion
  | ErrDowngrade
  | ErrUnpinnedRoot
  | ErrDuplicateAddrs
  | ErrIdentityMismatch
  | ErrInvalidSignature
  | ErrNotYetValid
  | ErrExpired
  | ErrEmptyAddress
  | ErrInvalidValidity
  | ErrNoReachableAddress
  | ErrCanceled
  | ErrTransientSetup.

#[export] Instance sentinel_eq_dec : EqDecision sentinel.
Proof. solve_decision. Defined.

Record error := mkErr { err_is : list sentinel; err_text : string }.

#[export] Instance error_eq_dec : EqDecision error.
Proof. solve_decision. Defined.

(** [errors.New] and [fmt.Errorf] without a wrapped sentinel. *)
Definition errorf (text : string) : error := mkErr [] text.

(** A package level sentinel value returned as it is, or wrapped by [%w]. *)
Definition wrapf (s : sentinel) (text : string) : error := mkErr [s] text.

(** [fmt.Errorf("text: %w", e)]: the sentinels of [e] stay visible. *)
Definition wrap_err (text : string) (e : error) : error := mkErr (err_is e) text.

(** [errors.Is]. *)
Definition errors_Is (e : error) (s : sentinel) : bool := bool_decide (s ∈ err_is e).

(** ** Results of fallible code *)
Inductive res (A : Type) :=
  | Ok (a : A)
  | Fail (e : error).
Arguments Ok {A} a.
Arguments Fail {A} e.

#[export] Instance res_ret : MRet res := λ A a, Ok a.
#[export] Instance res_bind : MBind res := λ A B f m,
  match m with Ok a => f a | Fail e => Fail e end.
#[export] Instance res_fmap : FMap res := λ A B f m,
  match m with Ok a => Ok (f a) | Fail e => Fail e end.

(** [fmt.Errorf("prefix%w", err)] on the error of a call: its sentinels stay visible. *)
Definition prefixed (prefix : string) (e : error) : error := mkErr (err_is e) (prefix +:+ err_text e).
Definition with_prefix {A} (prefix : string) (m : res A) : res A :=
  match m with Ok a => Ok a | Fail e => Fail (prefixed prefix e) end.

(** [if cond { return ..., err }]. *)
Definition refuse (cond : bool) (e : error) : res unit :=
  if cond then Fail e else Ok tt.

(** [v, ok := ...; if !ok { return ..., err }]. *)
Definition need {A} (o : option A) (e : error) : res A :=
  match o with Some a => Ok a | None => Fail e end.

(** [if err := m; err != nil { return ..., e }]: the cause is replaced. *)
Definition relabel {A} (m : res A) (e : error) : res A :=
  match m with Ok a => Ok a | Fail _ => Fail e end.

Definition is_ok {A} (m : res A) : bool :=
  match m with Ok _ => true | Fail _ => false end.

Section res_facts.
Context {A B : Type}.
Implicit Types (m : res A) (f : A → res B).

Lemma Ok_inj (a a' : A) : Ok a = Ok a' → a = a'.
Proof. by intros [= ->]. Qed.

Lemma bind_ok m f b : m ≫= f = Ok b ↔ ∃ a, m = Ok a ∧ f a = Ok b.
Proof. destruct m; naive_solver. Qed.

Lemma bind_fail m f e :
  m ≫= f = Fail e ↔ m = Fail e ∨ ∃ a, m = Ok a ∧ f a = Fail e.
Proof. destruct m; naive_solver. Qed.

Lemma need_ok (o : option A) e a : need o e = Ok a ↔ o = Some a.
Proof. destruct o; naive_solver. Qed.

Lemma relabel_ok m e a : relabel m e = Ok a ↔ m = Ok a.
Proof. destruct m; naive_solver. Qed.
End res_facts.

Lemma refuse_ok c e u : refuse c e = Ok u ↔ c = false.
Proof. destruct c, u; naive_solver. Qed.

Lemma refuse_fail c e e' : refuse c e = Fail e' ↔ c = true ∧ e = e'.
Proof. destruct c; naive_solver. Qed.

Lemma is_ok_true {A} (m : res A) : is_ok m = true ↔ ∃ a, m = Ok a.
Proof. destruct m; naive_solver. Qed.

(** ** Lengths

    Go's [len] on strings (bytes) and slices, as an integer: the code compares
    it with constants far above what unary numerals can hold. *)
Definition slen (s : string) : Z := Z.of_nat (String.length s).
Definition llen {A} (l : list A) : Z := Z.of_nat (length l).

(** String equality as the code's [==]. *)
Definition seqb (a b : string) : bool := bool_decide (a = b).
Notation "a =s b" := (seqb a b) (at level 70).
Notation "a <>s b" := (negb (seqb a b)) (at level 70).

Lemma seqb_true a b : (a =s b) = true ↔ a = b.
Proof. unfold seqb. by rewrite bool_decide_eq_true. Qed.
Lemma seqb_false a b : (a =s b) = false ↔ a ≠ b.
Proof. unfold seqb. by rewrite bool_decide_eq_false. Qed.
Lemma seqb_refl a : (a =s a) = true.
Proof. by apply seqb_true. Qed.
Lemma seqb_spec a b : reflect (a = b) (a =s b).
Proof. apply bool_decide_reflect. Qed.

Lemma slen_nonneg s : (0 ≤ slen s)%Z.
Proof. unfold slen. lia. Qed.
Lemma llen_nonneg {A} (l : list A) : (0 ≤ llen l)%Z.
Proof. unfold llen. lia. Qed.
Lemma slen_zero s : (slen s = 0)%Z ↔ s = "".
Proof. unfold slen. destruct s; simpl; split; intros; try done; lia. Qed.
Lemma llen_zero {A} (l : list A) : (llen l = 0)%Z ↔ l = [].
Proof. unfold llen. destruct l; simpl; split; intros; try done; lia. Qed.

(** ** Boolean guards to propositions *)
Create HintDb tubo discriminated.
#[export] Hint Resolve slen_nonneg llen_nonneg seqb_refl : tubo.

Ltac bool_step :=
  match goal with
  | H : context [negb (negb _)] |- _ => rewrite negb_involutive in H
  | H : (_ || _) = false |- _ => apply orb_false_iff in H as [? ?]
  | H : (_ && _) = true |- _ => apply andb_true_iff in H as [? ?]
  | H : negb _ = false |- _ => apply negb_false_iff in H
  | H : negb _ = true |- _ => apply negb_true_iff in H
  | H : (_ =s _) = true |- _ => apply seqb_true in H
  | H : (_ =s _) = false |- _ => apply seqb_false in H
  | H : bool_decide _ = true |- _ => apply bool_decide_eq_true_1 in H
  | H : bool_decide _ = false |- _ => apply bool_decide_eq_false_1 in H
  | H : Z.ltb _ _ = true |- _ => apply Z.ltb_lt in H
  | H : Z.ltb _ _ = false |- _ => apply Z.ltb_ge in H
  | H : Z.leb _ _ = true |- _ => apply Z.leb_le in H
  | H : Z.leb _ _ = false |- _ => apply Z.leb_gt in H
  | H : Z.eqb _ _ = true |- _ => apply Z.eqb_eq in H
  | H : Z.eqb _ _ = false |- _ => apply Z.eqb_neq in H
  end.

(** [res_inv] turns every hypothesis [code = Ok v] into the facts that made
    each early return not happen. *)
Ltac res_step :=
  match goal with
  | H : Ok _ = Ok _ |- _ => injection H as H; try subst
  | H : Ok _ = Fail _ |- _ => discriminate H
  | H : Fail _ = Ok _ |- _ => discriminate H
  | H : mret _ = Ok _ |- _ => injection H as H; try subst
  | H : mbind _ _ = Ok _ |- _ => apply bind_ok in H as (? & ? & H)
  | H : refuse _ _ = Ok _ |- _ => apply refuse_ok in H
  | H : need _ _ = Ok _ |- _ => apply need_ok in H
  | H : relabel _ _ = Ok _ |- _ => apply relabel_ok in H
  | u : unit |- _ => destruct u
  end.

Ltac res_inv := repeat first [res_step | bool_step].

(** The other direction: [pass] goes over one early return of a computation that
    has to succeed, leaving its condition as the first goal. *)
Lemma pass_refuse {B} c e (f : unit → res B) b :
  c = false → f tt = Ok b → refuse c e ≫= f = Ok b.
Proof. by intros ->. Qed.
Lemma pass_need {A B} (o : option A) e (f : A → res B) a b :
  o = Some a → f a = Ok b → need o e ≫= f = Ok b.
Proof. by intros ->. Qed.
Lemma pass_relabel {A B} (m : res A) e (f : A → res B) a b :
  m = Ok a → f a = Ok b → relabel m e ≫= f = Ok b.
Proof. by intros ->. Qed.
Lemma pass_ok {A B} (m : res A) (f : A → res B) a b :
  m = Ok a → f a = Ok b → m ≫= f = Ok b.
Proof. by intros ->. Qed.

Ltac pass :=
  first [apply pass_refuse | eapply pass_need | eapply pass_relabel
        | eapply pass_ok
        | apply refuse_ok | apply need_ok | apply relabel_ok].

(** Decides the comparisons of string constants in the goal. *)
Ltac eval_seqb :=
  repeat match goal with
  | |- context [seqb ?a ?b] =>
      let v := eval vm_compute in (seqb a b) in
      match v with true => idtac | false => idtac end;
      change (seqb a b) with v
  end.

(** ** Lists *)
Lemma NoDup_snoc {A} (l : list A) x : NoDup (l ++ [x]) ↔ NoDup l ∧ x ∉ l.
Proof.
  rewrite NoDup_app. split.
  - intros (? & Hd & _). split; [done|]. intros Hx. by apply (Hd x Hx), list_elem_of_singleton.
  - intros [? ?]. split_and!; [done| |apply NoDup_singleton].
    intros y Hy Hy'. apply list_elem_of_singleton in Hy'. by subst.
Qed.

Lemma Forall_snoc {A} (P : A → Prop) l x : Forall P (l ++ [x]) ↔ Forall P l ∧ P x.
Proof. rewrite Forall_app, Forall_singleton. done. Qed.

Lemma llen_app {A} (l k : list A) : llen (l ++ k) = (llen l + llen k)%Z.
Proof. unfold llen. rewrite length_app. lia. Qed.

Lemma llen_cons {A} (x : A) l : llen (x :: l) = (1 + llen l)%Z.
Proof. unfold llen. simpl. lia. Qed.

(** Membership as the range loops of the code test it. *)
Definition mem_str (x : string) (l : list string) : bool := existsb (seqb x) l.

Lemma mem_str_true x l : mem_str x l = true ↔ x ∈ l.
Proof.
  unfold mem_str. rewrite existsb_exists. split.
  - intros (y & Hy & E). apply seqb_true in E. subst. by apply list_elem_of_In.
  - intros Hx. exists x. split; [by apply list_elem_of_In|apply seqb_refl].
Qed.

Lemma mem_str_false x l : mem_str x l = false ↔ x ∉ l.
Proof. rewrite <- mem_str_true. destruct (mem_str x l); naive_solver. Qed.

(** The duplicate scan with a [seen] set, as several handlers write it. *)
Fixpoint has_dup_from (seen : list string) (l : list string) : bool :=
  match l with
  | [] => false
  | x :: l => mem_str x seen || has_dup_from (x :: seen) l
  end.
Definition has_dup (l : list string) : bool := has_dup_from [] l.

Lemma has_dup_from_false seen l :
  has_dup_from seen l = false ↔ NoDup l ∧ ∀ x, x ∈ l → x ∉ seen.
Proof.
  revert seen. induction l as [|x l IH]; intros seen; simpl.
  { split; [intros _; split; [constructor|set_solver]|done]. }
  rewrite orb_false_iff, mem_str_false, IH, NoDup_cons. set_solver.
Qed.

Lemma has_dup_false l : has_dup l = false ↔ NoDup l.
Proof. unfold has_dup. rewrite has_dup_from_false. set_solver. Qed.

(** A decidable fact on a bounded range of integers, by evaluation. *)
Lemma forallb_range (P : Z → bool) n v :
  forallb P (seqZ 0 n) = true → (0 ≤ v < n)%Z → P v = true.
Proof. intros H Hv. rewrite forallb_forall in H. apply H, list_elem_of_In, elem_of_seqZ. lia. Qed.
