(* ===== verification/GoStrings.v ===== *)
(** * Go strings

    The functions of the packages [strings] and [regexp] that the program uses,
    on byte strings ([string] is a sequence of 8-bit characters, as in Go). *)
From S2P Require Import Prelude.

Abbreviation bytes_of := String.list_ascii_of_string.
Abbreviation of_bytes := String.string_of_list_ascii.

(** The code of a character, 0 to 255. *)
Definition code (c : ascii) : Z := Z.of_N (N_of_ascii c).
(** The character of a code (taken modulo 256). *)
Definition chr (z : Z) : ascii := ascii_of_N (Z.to_N (z mod 256)).

Definition in_range (c : ascii) (lo hi : Z) : bool := ((lo <=? code c) && (code c <=? hi))%Z.
Definition is_lower (c : ascii) : bool := in_range c 97 122.
Definition is_upper (c : ascii) : bool := in_range c 65 90.
Definition is_digit (c : ascii) : bool := in_range c 48 57.

(** [strings.HasPrefix]. *)
Definition HasPrefix (s p : string) : bool := String.prefix p s.

(** [strings.ContainsRune] for an ASCII rune, [strings.ContainsAny] for a set. *)
Definition ContainsChar (s : string) (c : ascii) : bool :=
  existsb (λ d, bool_decide (d = c)) (bytes_of s).
Definition ContainsAny (s : string) (cs : list ascii) : bool := existsb (ContainsChar s) cs.

(** [strings.Cut] on a one-character separator: the parts before and after the
    first occurrence, [None] when there is none. *)
Fixpoint cut_bytes (sep : ascii) (l : list ascii) : option (list ascii * list ascii) :=
  match l with
  | [] => None
  | c :: l =>
      if bool_decide (c = sep) then Some ([], l)
      else match cut_bytes sep l with
           | Some (a, b) => Some (c :: a, b)
           | None => None
           end
  end.
Definition Cut (s : string) (sep : ascii) : option (string * string) :=
  match cut_bytes sep (bytes_of s) with
  | Some (a, b) => Some (of_bytes a, of_bytes b)
  | None => None
  end.

(** [strings.Split] on a one-character separator (never empty). *)
Fixpoint split_bytes (sep : ascii) (l : list ascii) : list (list ascii) :=
  match l with
  | [] => [[]]
  | c :: l =>
      if bool_decide (c = sep) then [] :: split_bytes sep l
      else match split_bytes sep l with
           | w :: ws => (c :: w) :: ws
           | [] => [[c]]
           end
  end.
Definition Split (s : string) (sep : ascii) : list string :=
  of_bytes <$> split_bytes sep (bytes_of s).

(** [strings.Join]. *)
Fixpoint Join (parts : list string) (sep : string) : string :=
  match parts with
  | [] => ""
  | [p] => p
  | p :: ps => p +:+ sep +:+ Join ps sep
  end.

(** [filepath.Clean] and [filepath.Join] where the separator is a slash: [kept] has the
    elements so far, the last one first. *)
Fixpoint clean_elements (rooted : bool) (kept parts : list string) : list string :=
  match parts with
  | [] => rev kept
  | p :: parts =>
      if (p =s "") || (p =s ".") then clean_elements rooted kept parts
      else if p =s ".." then
        match kept with
        | [] => clean_elements rooted (if rooted then [] else [".."]) parts
        | q :: above => clean_elements rooted (if q =s ".." then ".." :: kept else above) parts
        end
      else clean_elements rooted (p :: kept) parts
  end.
Definition filepath_Clean (path : string) : string :=
  let rooted := HasPrefix path "/" in
  let body := Join (clean_elements rooted [] (Split path "/"%char)) "/" in
  if rooted then "/" +:+ body else if body =s "" then "." else body.
Fixpoint filepath_Join (parts : list string) : string :=
  match parts with
  | [] => ""
  | p :: rest => if p =s "" then filepath_Join rest else filepath_Clean (Join parts "/")
  end.
Example join_cleans :
  filepath_Join ["/home/a/"; "secrets"; "pipes"; "x.key"] = "/home/a/secrets/pipes/x.key" ∧
  filepath_Join [""; "a//b"; ".."; "./c"] = "a/c" ∧ filepath_Join ["/.."; "a"; ".."] = "/" ∧ filepath_Join ["a"; ".."; "..";  "b"] = "../b" ∧
  filepath_Join ["."; "a"; ".."] = "." ∧ filepath_Join [""; ""] = "".
Proof. by vm_compute. Qed.

(** [strings.ToLower] on ASCII text. *)
Definition lower_char (c : ascii) : ascii := if is_upper c then chr (code c + 32) else c.
Definition ToLower (s : string) : string := of_bytes (lower_char <$> bytes_of s).

(** [strings.TrimSpace]: the white space of [unicode.IsSpace] as its UTF-8 byte
    sequences, removed from both ends. *)
Definition space_seqs : list (list Z) :=
  [[9]; [10]; [11]; [12]; [13]; [32]; [194; 133]; [194; 160]; [225; 154; 128];
   [226; 128; 128]; [226; 128; 129]; [226; 128; 130]; [226; 128; 131];
   [226; 128; 132]; [226; 128; 133]; [226; 128; 134]; [226; 128; 135];
   [226; 128; 136]; [226; 128; 137]; [226; 128; 138]; [226; 128; 168];
   [226; 128; 169]; [226; 128; 175]; [226; 129; 159]; [227; 128; 128]]%Z.

Fixpoint strip_prefix (p l : list ascii) : option (list ascii) :=
  match p, l with
  | [], _ => Some l
  | a :: p, b :: l => if bool_decide (a = b) then strip_prefix p l else None
  | _, _ => None
  end.
Fixpoint strip_any (ps : list (list ascii)) (l : list ascii) : option (list ascii) :=
  match ps with
  | [] => None
  | p :: ps => match strip_prefix p l with Some r => Some r | None => strip_any ps l end
  end.
Fixpoint strip_all (fuel : nat) (ps : list (list ascii)) (l : list ascii) : list ascii :=
  match fuel with
  | O => l
  | S fuel => match strip_any ps l with Some r => strip_all fuel ps r | None => l end
  end.
Definition spaces : list (list ascii) := map (map chr) space_seqs.
Definition trim_left (l : list ascii) : list ascii := strip_all (length l) spaces l.
Definition trim_right (l : list ascii) : list ascii :=
  reverse (strip_all (length l) (map reverse spaces) (reverse l)).
Definition TrimSpace (s : string) : string := of_bytes (trim_right (trim_left (bytes_of s))).

(** [strings.TrimSpace(s) == ""]. *)
Definition blank (s : string) : bool := TrimSpace s =s "".

(** ** Facts *)
Lemma of_bytes_of s : of_bytes (bytes_of s) = s.
Proof. apply String.string_of_list_ascii_of_string. Qed.
Lemma bytes_of_of l : bytes_of (of_bytes l) = l.
Proof. apply String.list_ascii_of_string_of_list_ascii. Qed.

Lemma bytes_of_inj a b : bytes_of a = bytes_of b → a = b.
Proof. intros H. by rewrite <- (of_bytes_of a), H, of_bytes_of. Qed.
Lemma of_bytes_inj a b : of_bytes a = of_bytes b → a = b.
Proof. intros H. by rewrite <- (bytes_of_of a), H, bytes_of_of. Qed.

Lemma bytes_of_app a b : bytes_of (a +:+ b) = bytes_of a ++ bytes_of b.
Proof. induction a as [|c a IH]; simpl; [done|]. by rewrite IH. Qed.
Lemma of_bytes_app a b : of_bytes (a ++ b) = of_bytes a +:+ of_bytes b.
Proof. induction a as [|c a IH]; simpl; [done|]. by rewrite IH. Qed.

Lemma length_bytes_of s : length (bytes_of s) = String.length s.
Proof. induction s; simpl; congruence. Qed.
Lemma slen_bytes s : slen s = llen (bytes_of s).
Proof. unfold slen, llen. by rewrite length_bytes_of. Qed.
Lemma slen_of_bytes l : slen (of_bytes l) = llen l.
Proof. by rewrite slen_bytes, bytes_of_of. Qed.
Lemma slen_app a b : slen (a +:+ b) = (slen a + slen b)%Z.
Proof. rewrite !slen_bytes, bytes_of_app, llen_app. done. Qed.

Lemma string_app_inj_l (p a b : string) : p +:+ a = p +:+ b → a = b.
Proof.
  intros H. apply bytes_of_inj. apply (f_equal bytes_of) in H.
  rewrite !bytes_of_app in H. by apply app_inv_head in H.
Qed.

Lemma code_range c : (0 ≤ code c < 256)%Z.
Proof. unfold code. pose proof (N_ascii_bounded c). lia. Qed.
Lemma chr_code c : chr (code c) = c.
Proof.
  unfold chr. rewrite Z.mod_small by apply code_range.
  unfold code. rewrite N2Z.id. apply ascii_N_embedding.
Qed.
Lemma code_chr z : code (chr z) = (z mod 256)%Z.
Proof.
  unfold code, chr. pose proof (Z.mod_pos_bound z 256 eq_refl).
  rewrite N_ascii_embedding; lia.
Qed.
Lemma code_inj a b : code a = code b → a = b.
Proof. intros H. by rewrite <- (chr_code a), H, chr_code. Qed.

Lemma HasPrefix_spec s p : HasPrefix s p = true ↔ ∃ r, s = p +:+ r.
Proof.
  unfold HasPrefix. revert s. induction p as [|c p IH]; intros s; simpl.
  { split; [by exists s|]. by destruct s. }
  destruct s as [|d s]; simpl; [split; [done|by intros [r H]]|].
  destruct (ascii_dec c d) as [->|Hne].
  - rewrite IH. split; intros [r H]; exists r; [by rewrite H|by injection H].
  - split; [done|]. intros [r H]. by injection H as ->.
Qed.

Lemma ContainsChar_true s c : ContainsChar s c = true ↔ c ∈ bytes_of s.
Proof.
  unfold ContainsChar. rewrite existsb_exists. split.
  - intros (d & Hd & E). apply bool_decide_eq_true_1 in E. subst. by apply list_elem_of_In.
  - intros H. exists c. split; [by apply list_elem_of_In|by apply bool_decide_eq_true].
Qed.
Lemma ContainsChar_false s c : ContainsChar s c = false ↔ c ∉ bytes_of s.
Proof. rewrite <- ContainsChar_true. destruct (ContainsChar s c); naive_solver. Qed.

(** [Cut] finds the first separator: the first part has none. *)
Lemma cut_bytes_Some sep l a b :
  cut_bytes sep l = Some (a, b) ↔ l = a ++ sep :: b ∧ sep ∉ a.
Proof.
  revert a b. induction l as [|c l IH]; intros a b; simpl.
  { split; [done|]. intros [H _]. by destruct a. }
  case_bool_decide as Hc.
  - subst. split.
    + intros [= <- <-]. split; [done|set_solver].
    + intros [H Hn]. destruct a as [|d a]; simpl in *; [congruence|].
      injection H as -> _. set_solver.
  - destruct (cut_bytes sep l) as [[a' b']|] eqn:E.
    + destruct (proj1 (IH a' b') eq_refl) as [-> Hn]. split.
      * intros [= <- <-]. split; [done|]. set_solver.
      * intros [H Hn']. destruct a as [|d a]; simpl in H; [congruence|].
        injection H as <- H. f_equal.
        assert (Some (a', b') = Some (a, b)) as [= -> ->]; [|done].
        apply IH. split; [done|set_solver].
    + split; [done|]. intros [H Hn]. destruct a as [|d a]; simpl in H; [congruence|].
      injection H as <- H. assert (None = Some (a, b)) as ?; [|done].
      apply IH. split; [done|set_solver].
Qed.

Lemma Cut_Some s sep a b :
  Cut s sep = Some (a, b) ↔ s = a +:+ String sep b ∧ ContainsChar a sep = false.
Proof.
  unfold Cut. destruct (cut_bytes sep (bytes_of s)) as [[x y]|] eqn:E.
  - apply cut_bytes_Some in E as [E Hx]. split.
    + intros [= <- <-]. split.
      * apply bytes_of_inj. rewrite bytes_of_app. simpl. by rewrite !bytes_of_of.
      * apply ContainsChar_false. by rewrite bytes_of_of.
    + intros [Hs Ha]. apply (f_equal bytes_of) in Hs. rewrite bytes_of_app in Hs.
      simpl in Hs. apply ContainsChar_false in Ha.
      assert (cut_bytes sep (bytes_of s) = Some (bytes_of a, bytes_of b)) as H
        by (apply cut_bytes_Some; naive_solver).
      assert (cut_bytes sep (bytes_of s) = Some (x, y)) as H'
        by (apply cut_bytes_Some; naive_solver).
      rewrite H in H'. injection H' as <- <-. by rewrite !of_bytes_of.
  - split; [done|]. intros [Hs Ha]. apply (f_equal bytes_of) in Hs.
    rewrite bytes_of_app in Hs. simpl in Hs. apply ContainsChar_false in Ha.
    assert (cut_bytes sep (bytes_of s) = Some (bytes_of a, bytes_of b)) as H
      by (apply cut_bytes_Some; naive_solver).
    congruence.
Qed.

(** A blank string has no printable ASCII character at its front. *)
Lemma strip_prefix_Some p l r : strip_prefix p l = Some r ↔ l = p ++ r.
Proof.
  revert l. induction p as [|a p IH]; intros l; simpl; [naive_solver|].
  destruct l as [|b l]; [naive_solver|]. case_bool_decide; naive_solver.
Qed.
