(* ===== verification/GoTime.v ===== *)
(** * Go's [time] package, as the program uses it

    Instants with a zone offset, durations at 64 bits, the RFC 3339 layouts
    written to the database and to JSON, and the byte-wise comparison SQLite
    applies to the stored texts. *)
From S2P Require Import Prelude GoStrings.
Open Scope Z_scope.

(** [lia] sees quotients and remainders through their division equations. *)
Ltac Zify.zify_post_hook ::= Z.to_euclidean_division_equations.

(** ** Instants and durations *)

(** [time.Time]: nanoseconds since the Unix epoch and seconds east of UTC. *)
Record time := mkTime { unix_ns : Z; zone : Z }.

(** [time.Duration]: a signed 64-bit number of nanoseconds. *)
Definition duration := Z.
Definition Second : duration := 1000000000.
Definition Minute : duration := 60 * Second.
Definition max_duration : duration := 2 ^ 63 - 1.
Definition min_duration : duration := - 2 ^ 63.

(** The zero [time.Time] is January 1, year 1, 00:00:00 UTC. *)
Definition zero_time : time := mkTime (-62135596800 * Second) 0.
Definition IsZero (t : time) : bool := unix_ns t =? unix_ns zero_time.

Definition After (t u : time) : bool := unix_ns u <? unix_ns t.
Definition Before (t u : time) : bool := unix_ns t <? unix_ns u.
Definition Add (t : time) (d : duration) : time := mkTime (unix_ns t + d) (zone t).
Definition UTC (t : time) : time := mkTime (unix_ns t) 0.

(** [t.Sub(u)] saturates at the 64-bit bounds. *)
Definition Sub (t u : time) : duration :=
  Z.max min_duration (Z.min max_duration (unix_ns t - unix_ns u)).

(** ** Calendar

    Days are counted from January 1 of year 1. *)
Definition is_leap (y : Z) : bool :=
  (y mod 4 =? 0) && (negb (y mod 100 =? 0) || (y mod 400 =? 0)).

Definition year_start (y : Z) : Z :=
  let x := y - 1 in 365 * x + x / 4 - x / 100 + x / 400.

Definition year_day (d : Z) : Z * Z :=
  let n400 := d / 146097 in
  let d := d mod 146097 in
  let n100 := d / 36524 - d / 36524 / 4 in
  let d := d - 36524 * n100 in
  let n4 := d / 1461 in
  let d := d - 1461 * n4 in
  let n1 := d / 365 - d / 365 / 4 in
  (1 + 400 * n400 + 100 * n100 + 4 * n4 + n1, d - 365 * n1).

Definition month_start (leap : bool) (m : Z) : Z :=
  let l := if leap then 1 else 0 in
  if m <=? 1 then 0 else if m =? 2 then 31 else if m =? 3 then 59 + l
  else if m =? 4 then 90 + l else if m =? 5 then 120 + l else if m =? 6 then 151 + l
  else if m =? 7 then 181 + l else if m =? 8 then 212 + l else if m =? 9 then 243 + l
  else if m =? 10 then 273 + l else if m =? 11 then 304 + l else if m =? 12 then 334 + l
  else 365 + l.

Definition month_of (leap : bool) (yd : Z) : Z :=
  let l := if leap then 1 else 0 in
  if yd <? 31 then 1 else if yd <? 59 + l then 2 else if yd <? 90 + l then 3
  else if yd <? 120 + l then 4 else if yd <? 151 + l then 5 else if yd <? 181 + l then 6
  else if yd <? 212 + l then 7 else if yd <? 243 + l then 8 else if yd <? 273 + l then 9
  else if yd <? 304 + l then 10 else if yd <? 334 + l then 11 else 12.

(** Year, month and day of a day number, and back. *)
Definition civil (d : Z) : Z * Z * Z :=
  let '(y, yd) := year_day d in
  let m := month_of (is_leap y) yd in
  (y, m, yd - month_start (is_leap y) m + 1).

Definition days_of_civil (y m d : Z) : Z :=
  year_start y + month_start (is_leap y) m + d - 1.

Definition days_in (m y : Z) : Z :=
  month_start (is_leap y) (m + 1) - month_start (is_leap y) m.

(** Day number of the Unix epoch. *)
Definition epoch_day : Z := 719162.

(** ** Formatting: [time.RFC3339Nano] *)
Definition digit (n : Z) : ascii := chr (48 + n mod 10).
Definition pad2 (n : Z) : list ascii := [digit (n / 10); digit n].
Definition pad4 (n : Z) : list ascii :=
  [digit (n / 1000); digit (n / 100); digit (n / 10); digit n].

(** The fraction, nine digits with its trailing zeros removed, with its point. *)
Fixpoint digits (k : nat) (n : Z) : list ascii :=
  match k with
  | O => []
  | S k => digits k (n / 10) ++ [digit n]
  end.
Fixpoint trim_zeros_rev (l : list ascii) : list ascii :=
  match l with
  | c :: l => if bool_decide (c = "0"%char) then trim_zeros_rev l else c :: l
  | [] => []
  end.
Definition fraction (ns : Z) : list ascii :=
  if ns =? 0 then [] else "."%char :: reverse (trim_zeros_rev (reverse (digits 9 ns))).

(** The nineteen characters of the date and of the time of day. *)
Definition stamp (local_sec : Z) : list ascii :=
  let '(y, m, d) := civil (epoch_day + local_sec / 86400) in
  let s := local_sec mod 86400 in
  pad4 y ++ "-"%char :: pad2 m ++ "-"%char :: pad2 d ++ "T"%char ::
  pad2 (s / 3600) ++ ":"%char :: pad2 (s / 60 mod 60) ++ ":"%char :: pad2 (s mod 60).

Definition zone_suffix (z : Z) : list ascii :=
  if z =? 0 then ["Z"%char]
  else (if z <? 0 then "-"%char else "+"%char) ::
       pad2 (Z.abs z / 3600) ++ ":"%char :: pad2 (Z.abs z / 60 mod 60).

Definition local_ns (t : time) : Z := unix_ns t + zone t * Second.

Definition format_bytes (t : time) : list ascii :=
  stamp (local_ns t / Second) ++ fraction (local_ns t mod Second) ++ zone_suffix (zone t).

(** [t.Format(time.RFC3339Nano)]. *)
Definition RFC3339Nano (t : time) : string := of_bytes (format_bytes t).

Definition year_of (t : time) : Z :=
  let '(y, _, _) := civil (epoch_day + local_ns t / Second / 86400) in y.

(** The instants the four-digit layout can hold. *)
Definition in_years (t : time) : Prop := 0 ≤ year_of t ≤ 9999.

(** ** Parsing: [time.Parse(time.RFC3339Nano, _)] *)
Definition digit_val (c : ascii) : option Z :=
  if is_digit c then Some (code c - 48) else None.

Definition num2 (l : list ascii) : option (Z * list ascii) :=
  match l with
  | a :: b :: l => x ← digit_val a; y ← digit_val b; Some (10 * x + y, l)
  | _ => None
  end.

(** [getnum(value, false)]: one or two digits. *)
Definition num12 (l : list ascii) : option (Z * list ascii) :=
  match l with
  | a :: l =>
      x ← digit_val a;
      match l with
      | b :: l' => match digit_val b with Some y => Some (10 * x + y, l') | None => Some (x, l) end
      | [] => Some (x, [])
      end
  | [] => None
  end.

Definition num4 (l : list ascii) : option (Z * list ascii) :=
  '(a, l) ← num2 l; '(b, l) ← num2 l; Some (100 * a + b, l).

Definition expect (c : ascii) (l : list ascii) : option (list ascii) :=
  match l with d :: l => if bool_decide (d = c) then Some l else None | [] => None end.

Definition opt_guard (b : bool) : option unit := if b then Some tt else None.

(** Every digit of a fraction is consumed; only nine count. *)
Fixpoint take_digits (l : list ascii) : list Z * list ascii :=
  match l with
  | c :: l' =>
      match digit_val c with
      | Some x => let '(xs, r) := take_digits l' in (x :: xs, r)
      | None => ([], l)
      end
  | [] => ([], [])
  end.
Fixpoint scale9 (k : nat) (ds : list Z) : Z :=
  match k with
  | O => 0
  | S k' => match ds with
            | d :: ds => d * 10 ^ Z.of_nat k' + scale9 k' ds
            | [] => 0
            end
  end.
Definition parse_fraction (l : list ascii) : Z * list ascii :=
  match l with
  | p :: l' =>
      if bool_decide (p = "."%char) || bool_decide (p = ","%char) then
        match take_digits l' with
        | ([], _) => (0, l)
        | (ds, r) => (scale9 9 ds, r)
        end
      else (0, l)
  | [] => (0, l)
  end.

Definition parse_zone (l : list ascii) : option Z :=
  match l with
  | [c] => if bool_decide (c = "Z"%char) then Some 0 else None
  | s :: l =>
      '(h, l) ← num2 l; l ← expect ":"%char l; '(m, l) ← num2 l;
      _ ← opt_guard (h <=? 24); _ ← opt_guard (m <=? 60);
      _ ← opt_guard (bool_decide (l = []));
      if bool_decide (s = "+"%char) then Some ((h * 60 + m) * 60)
      else if bool_decide (s = "-"%char) then Some (- ((h * 60 + m) * 60))
      else None
  | [] => None
  end.

Definition parse_time_bytes (l : list ascii) : option time :=
  '(y, l) ← num4 l; l ← expect "-"%char l; '(mo, l) ← num2 l; l ← expect "-"%char l;
  '(d, l) ← num2 l; l ← expect "T"%char l; '(h, l) ← num12 l; l ← expect ":"%char l;
  '(mi, l) ← num2 l; l ← expect ":"%char l; '(s, l) ← num2 l;
  _ ← opt_guard ((1 <=? mo) && (mo <=? 12)); _ ← opt_guard ((1 <=? d) && (d <=? days_in mo y));
  _ ← opt_guard ((h <=? 23) && (mi <=? 59) && (s <=? 59));
  let '(ns, l) := parse_fraction l in
  z ← parse_zone l;
  let local := (days_of_civil y mo d - epoch_day) * 86400 + h * 3600 + mi * 60 + s in
  Some (mkTime ((local - z) * Second + ns) z).

Definition ParseTime (s : string) : option time := parse_time_bytes (bytes_of s).

(** ** Comparison of stored texts

    SQLite's BINARY collation: byte-wise, a proper prefix first. *)
Fixpoint bytes_lt (a b : list ascii) : bool :=
  match a, b with
  | [], [] => false
  | [], _ :: _ => true
  | _ :: _, [] => false
  | x :: a, y :: b => (code x <? code y) || ((code x =? code y) && bytes_lt a b)
  end.
Definition text_lt (a b : string) : bool := bytes_lt (bytes_of a) (bytes_of b).
Definition text_le (a b : string) : bool := negb (text_lt b a).

(** ** Calendar facts *)
Lemma is_leap_cases y :
  (is_leap y = true ∧ y mod 4 = 0 ∧ (y mod 100 ≠ 0 ∨ y mod 400 = 0)) ∨
  (is_leap y = false ∧ (y mod 4 ≠ 0 ∨ y mod 100 = 0 ∧ y mod 400 ≠ 0)).
Proof.
  unfold is_leap.
  destruct (Z.eqb_spec (y mod 4) 0), (Z.eqb_spec (y mod 100) 0), (Z.eqb_spec (y mod 400) 0);
    simpl; auto 6.
Qed.

Definition year_len (y : Z) : Z := if is_leap y then 366 else 365.

Lemma year_start_succ y : year_start (y + 1) = year_start y + year_len y.
Proof.
  unfold year_start, year_len.
  destruct (is_leap_cases y) as [(-> & H)|(-> & H)]; lia.
Qed.

Lemma year_start_mono y y' : y < y' → year_start y + year_len y ≤ year_start y'.
Proof.
  intros H. rewrite <- year_start_succ.
  replace y' with (y + 1 + Z.of_nat (Z.to_nat (y' - y - 1))) by lia.
  induction (Z.to_nat (y' - y - 1)) as [|n IH]; [rewrite Z.add_0_r; lia|].
  replace (y + 1 + Z.of_nat (S n)) with (y + 1 + Z.of_nat n + 1) by lia.
  rewrite (year_start_succ (y + 1 + _)). unfold year_len. case_match; lia.
Qed.

(** The cycle decomposition of [year_day] in terms of its four quotients. *)
Lemma year_day_split a b c e yd :
  0 ≤ b ≤ 3 → 0 ≤ c ≤ 24 → 0 ≤ e ≤ 3 →
  0 ≤ yd → yd < 366 →
  (yd = 365 → e = 3 ∧ (c = 24 → b = 3)) →
  let y := 1 + 400 * a + 100 * b + 4 * c + e in
  146097 * a + 36524 * b + 1461 * c + 365 * e + yd = year_start y + yd ∧ yd < year_len y.
Proof.
  intros Hb Hc He H0 H1 H2 y. subst y. unfold year_start, year_len.
  destruct (is_leap_cases (1 + 400 * a + 100 * b + 4 * c + e)) as [(-> & H)|(-> & H)];
    split; try lia.
Qed.

Lemma year_day_spec d y yd :
  year_day d = (y, yd) → d = year_start y + yd ∧ 0 ≤ yd < year_len y.
Proof.
  unfold year_day. intros [= <- <-].
  set (a := d / 146097). set (r := d mod 146097).
  set (b := r / 36524 - r / 36524 / 4).
  set (r1 := r - 36524 * b). set (c := r1 / 1461). set (r2 := r1 - 1461 * c).
  set (e := r2 / 365 - r2 / 365 / 4). set (yd := r2 - 365 * e).
  assert (0 ≤ r < 146097) by (subst r; lia).
  assert (0 ≤ b ≤ 3 ∧ 0 ≤ r1 ∧ r1 ≤ 36524 ∧ (r1 = 36524 → b = 3)) as (Hb & Hr1 & Hr1' & Hb3)
    by (subst b r1; lia).
  assert (0 ≤ c ≤ 24 ∧ 0 ≤ r2 ∧ r2 ≤ 1460 ∧ (c = 24 → r2 = 1460 → b = 3)) as (Hc & Hr2 & Hr2' & Hc24)
    by (subst c r2; lia).
  assert (0 ≤ e ≤ 3 ∧ 0 ≤ yd ≤ 365 ∧ (yd = 365 → e = 3)) as (He & Hyd & Hyd')
    by (subst e yd; lia).
  destruct (year_day_split a b c e yd) as [E L]; lia.
Qed.

(** Later instants have later years. *)
Lemma year_of_mono a b : zone a = zone b → unix_ns a ≤ unix_ns b → year_of a ≤ year_of b.
Proof.
  intros Hz Hle. unfold year_of, civil, local_ns. rewrite Hz.
  assert (Hd : epoch_day + (unix_ns a + zone b * Second) / Second / 86400
             ≤ epoch_day + (unix_ns b + zone b * Second) / Second / 86400) by (unfold Second; lia).
  destruct (year_day (_ + (unix_ns a + _) / _ / _)) as [ya da] eqn:Ea.
  destruct (year_day (_ + (unix_ns b + _) / _ / _)) as [yb db] eqn:Eb.
  apply year_day_spec in Ea as [Ea Ha], Eb as [Eb Hb].
  destruct (Z.le_gt_cases ya yb) as [|Hgt]; [done|]. pose proof (year_start_mono yb ya). lia.
Qed.

Lemma in_years_between a t b :
  zone a = zone t → zone t = zone b → unix_ns a ≤ unix_ns t ≤ unix_ns b → in_years a → in_years b → in_years t.
Proof.
  intros Hz Hz' [H1 H2] [Ha _] [_ Hb]. pose proof (year_of_mono a t Hz H1). pose proof (year_of_mono t b Hz' H2).
  unfold in_years. lia.
Qed.

Lemma month_of_spec (l : bool) yd m :
  0 ≤ yd < (if l then 366 else 365) → month_of l yd = m →
  1 ≤ m ≤ 12 ∧ month_start l m ≤ yd < month_start l (m + 1).
Proof.
  intros H <-. unfold month_of.
  destruct l; repeat case_match; unfold month_start; simpl; lia.
Qed.

Lemma month_start_mono (l : bool) m m' :
  1 ≤ m → m < m' → m' ≤ 13 → month_start l (m + 1) ≤ month_start l m'.
Proof. intros. unfold month_start. destruct l; repeat case_match; lia. Qed.

(** What [civil] computes: a valid date whose day number is the argument. *)
Lemma civil_spec n y m d :
  civil n = (y, m, d) →
  1 ≤ m ≤ 12 ∧ 1 ≤ d ≤ days_in m y ∧ days_of_civil y m d = n ∧
  year_start y ≤ n < year_start y + year_len y.
Proof.
  unfold civil. destruct (year_day n) as [y' yd] eqn:E. intros [= <- <- <-].
  apply year_day_spec in E as [-> Hyd].
  destruct (month_of_spec (is_leap y') yd _ Hyd eq_refl) as [Hm Hb].
  unfold days_in, days_of_civil. lia.
Qed.

Lemma days_in_bound m y : days_in m y ≤ 31.
Proof. unfold days_in, month_start. destruct (is_leap y); repeat case_match; lia. Qed.

(** Later days have lexicographically larger dates. *)
Lemma civil_lt n n' y m d y' m' d' :
  n < n' → civil n = (y, m, d) → civil n' = (y', m', d') →
  y < y' ∨ (y = y' ∧ (m < m' ∨ (m = m' ∧ d < d'))).
Proof.
  intros Hlt (Hm & Hd & Hn & Hy)%civil_spec (Hm' & Hd' & Hn' & Hy')%civil_spec.
  destruct (Z.lt_trichotomy y y') as [?|[->|Hgt]]; [by left| |].
  2: { pose proof (year_start_mono _ _ Hgt). lia. }
  right. split; [done|]. unfold days_of_civil, days_in in *.
  destruct (Z.lt_trichotomy m m') as [?|[->|Hgt]]; [by left|right; lia|].
  pose proof (month_start_mono (is_leap y') m' m). lia.
Qed.

(** ** Text order of time stamps *)
Lemma bytes_lt_irrefl a : bytes_lt a a = false.
Proof. induction a as [|x a IH]; simpl; [done|]. rewrite IH, Z.ltb_irrefl, Z.eqb_refl. done. Qed.

Lemma bytes_lt_app a b r s :
  length a = length b →
  bytes_lt (a ++ r) (b ++ s) = bytes_lt a b || (bool_decide (a = b) && bytes_lt r s).
Proof.
  revert b. induction a as [|x a IH]; intros [|y b] Hl; simpl in *; try done.
  rewrite IH by lia. destruct (Z.eqb_spec (code x) (code y)) as [E|E]; simpl.
  - apply code_inj in E. subst. rewrite Z.ltb_irrefl. simpl.
    f_equal. do 2 case_bool_decide; naive_solver.
  - rewrite !orb_false_r. rewrite bool_decide_eq_false_2 by (intros [= -> ->]; done).
    simpl. by rewrite orb_false_r.
Qed.

Lemma bytes_lt_cons x a b : bytes_lt (x :: a) (x :: b) = bytes_lt a b.
Proof. simpl. by rewrite Z.ltb_irrefl, Z.eqb_refl. Qed.

Lemma code_digit n : code (digit n) = 48 + n mod 10.
Proof. unfold digit. rewrite code_chr. pose proof (Z.mod_pos_bound n 10). lia. Qed.

Lemma pad2_lt n m : 0 ≤ n < 100 → 0 ≤ m < 100 → bytes_lt (pad2 n) (pad2 m) = (n <? m).
Proof. intros. unfold pad2. simpl. rewrite !code_digit. lia. Qed.
Lemma pad4_lt n m : 0 ≤ n < 10000 → 0 ≤ m < 10000 → bytes_lt (pad4 n) (pad4 m) = (n <? m).
Proof. intros. unfold pad4. simpl. rewrite !code_digit. lia. Qed.

(** Comparing fixed-width fields: the first difference decides. *)
Lemma field2_lt n m r s :
  0 ≤ n < 100 → 0 ≤ m < 100 →
  n < m ∨ (n = m ∧ bytes_lt r s = true) → bytes_lt (pad2 n ++ r) (pad2 m ++ s) = true.
Proof.
  intros Hn Hm H. rewrite bytes_lt_app by done. rewrite pad2_lt by done.
  destruct H as [H|[-> H]]; [by rewrite (proj2 (Z.ltb_lt _ _) H)|].
  by rewrite bool_decide_eq_true_2, H, orb_true_r.
Qed.
Lemma field4_lt n m r s :
  0 ≤ n < 10000 → 0 ≤ m < 10000 →
  n < m ∨ (n = m ∧ bytes_lt r s = true) → bytes_lt (pad4 n ++ r) (pad4 m ++ s) = true.
Proof.
  intros Hn Hm H. rewrite bytes_lt_app by done. rewrite pad4_lt by done.
  destruct H as [H|[-> H]]; [by rewrite (proj2 (Z.ltb_lt _ _) H)|].
  by rewrite bool_decide_eq_true_2, H, orb_true_r.
Qed.

Lemma length_stamp s : length (stamp s) = 19%nat.
Proof. unfold stamp. by destruct (civil _) as [[??]?]. Qed.

Definition stamp_year (local_sec : Z) : Z :=
  let '(y, _, _) := civil (epoch_day + local_sec / 86400) in y.

Lemma stamp_lt s s' :
  s < s' → 0 ≤ stamp_year s ≤ 9999 → 0 ≤ stamp_year s' ≤ 9999 →
  bytes_lt (stamp s) (stamp s') = true.
Proof.
  unfold stamp, stamp_year. intros Hlt.
  destruct (civil (epoch_day + s / 86400)) as [[y m] d] eqn:E.
  destruct (civil (epoch_day + s' / 86400)) as [[y' m'] d'] eqn:E'. intros Hy Hy'.
  pose proof (civil_spec _ _ _ _ E) as (Hm & Hd & _).
  pose proof (civil_spec _ _ _ _ E') as (Hm' & Hd' & _).
  pose proof (days_in_bound m y). pose proof (days_in_bound m' y').
  assert ((y, m, d) = (y', m', d') ∧ s mod 86400 < s' mod 86400 ∨
    (y < y' ∨ (y = y' ∧ (m < m' ∨ (m = m' ∧ d < d'))))) as Hcmp.
  { destruct (Z.lt_trichotomy (s / 86400) (s' / 86400)) as [Hl|[He|Hg]]; [right|left|lia].
    - eapply civil_lt; [|exact E|exact E']. lia.
    - rewrite <- He in E'. split; [congruence|lia]. }
  clear E E'.
  apply field4_lt; [lia|lia|]. destruct Hcmp as [[[= <- <- <-] Hs]|[?|[<- Hcmp]]].
  2: by left.
  all: right; split; [done|]; rewrite bytes_lt_cons.
  2: apply field2_lt; [lia|lia|]; destruct Hcmp as [?|[<- ?]]; [by left|right; split; [done|]];
     rewrite bytes_lt_cons; apply field2_lt; lia.
  do 2 (apply field2_lt; [lia|lia|]; right; split; [done|]; rewrite bytes_lt_cons).
  do 2 (apply field2_lt; [lia|lia|];
        match goal with |- ?a < ?b ∨ _ => destruct (decide (a = b)); [right|left; lia] end;
        split; [done|]; rewrite bytes_lt_cons).
  rewrite pad2_lt by lia. lia.
Qed.

Definition in_second (t : time) : Z := unix_ns t / Second.

Lemma format_utc t : zone t = 0 →
  format_bytes t = stamp (in_second t) ++ fraction (unix_ns t mod Second) ++ ["Z"%char].
Proof.
  intros Hz. unfold format_bytes, local_ns, in_second, zone_suffix. rewrite Hz.
  by rewrite Z.mul_0_l, Z.add_0_r, Z.eqb_refl.
Qed.

(** A text written in an earlier second sorts before one of a later second. *)
Lemma text_lt_of_second_lt a b :
  zone a = 0 → zone b = 0 → in_years a → in_years b →
  in_second a < in_second b → text_lt (RFC3339Nano a) (RFC3339Nano b) = true.
Proof.
  intros Ha Hb Hya Hyb Hlt. unfold text_lt, RFC3339Nano. rewrite !bytes_of_of.
  rewrite !format_utc by done. rewrite bytes_lt_app by (by rewrite !length_stamp).
  rewrite stamp_lt; [done|done| |].
  - unfold in_years, year_of, local_ns in Hya. by rewrite Ha, Z.mul_0_l, Z.add_0_r in Hya.
  - unfold in_years, year_of, local_ns in Hyb. by rewrite Hb, Z.mul_0_l, Z.add_0_r in Hyb.
Qed.

(** Hence text order bounds the instants up to one second. *)
Lemma second_le_of_text_le a b :
  zone a = 0 → zone b = 0 → in_years a → in_years b →
  text_le (RFC3339Nano a) (RFC3339Nano b) = true → in_second a ≤ in_second b.
Proof.
  intros Ha Hb Hya Hyb Hle. destruct (Z.le_gt_cases (in_second a) (in_second b)); [done|].
  unfold text_le in Hle. by rewrite text_lt_of_second_lt in Hle.
Qed.

(** ** Round trip of the layout *)
Lemma digit_val_digit n : digit_val (digit n) = Some (n mod 10).
Proof.
  unfold digit_val, is_digit, in_range. rewrite code_digit.
  pose proof (Z.mod_pos_bound n 10).
  rewrite (proj2 (Z.leb_le _ _)), (proj2 (Z.leb_le _ _)) by lia. simpl. f_equal. lia.
Qed.

Lemma num2_pad2 n r : 0 ≤ n < 100 → num2 (pad2 n ++ r) = Some (n, r).
Proof. intros. unfold pad2, num2; simpl. rewrite !digit_val_digit. simpl. do 2 f_equal. lia. Qed.
Lemma num12_pad2 n r : 0 ≤ n < 100 → num12 (pad2 n ++ r) = Some (n, r).
Proof. intros. unfold pad2, num12; simpl. rewrite !digit_val_digit. simpl. do 2 f_equal. lia. Qed.
Lemma decimal4 n :
  0 ≤ n < 10000 →
  100 * (10 * (n / 1000 mod 10) + n / 100 mod 10) + (10 * (n / 10 mod 10) + n mod 10) = n.
Proof.
  intros Hn.
  assert (n / 100 = n / 10 / 10) as -> by (rewrite Z.div_div; lia).
  assert (n / 1000 = n / 10 / 10 / 10) as -> by (rewrite !Z.div_div; lia).
  remember (n / 10) as a eqn:Ha. assert (n = 10 * a + n mod 10) by lia.
  remember (a / 10) as b eqn:Hb. assert (a = 10 * b + a mod 10) by lia.
  assert (0 ≤ b < 100) as Hbb by (subst; rewrite Z.div_div by lia; lia).
  assert (b = 10 * (b / 10 mod 10) + b mod 10) by (clear Ha Hb; lia). lia.
Qed.
Lemma num4_pad4 n r : 0 ≤ n < 10000 → num4 (pad4 n ++ r) = Some (n, r).
Proof.
  intros. unfold pad4, num4, num2; simpl. repeat (rewrite !digit_val_digit; simpl).
  do 2 f_equal. by apply decimal4.
Qed.
Lemma expect_cons c l : expect c (c :: l) = Some l.
Proof. unfold expect. by rewrite bool_decide_eq_true_2. Qed.

Definition dvals (l : list ascii) : list Z := map (λ c, code c - 48) l.

Lemma take_digits_app l c r :
  Forall (λ d, is_digit d = true) l → is_digit c = false →
  take_digits (l ++ c :: r) = (dvals l, c :: r).
Proof.
  intros Hl Hc. induction Hl as [|d l Hd _ IH]; simpl.
  - unfold digit_val. by rewrite Hc.
  - unfold digit_val at 1. rewrite Hd. by rewrite IH.
Qed.

Lemma length_digits k n : length (digits k n) = k.
Proof. revert n. induction k as [|k IH]; intros n; simpl; [done|]. rewrite length_app, IH. simpl. lia. Qed.

Lemma digits_are_digits k n : Forall (λ d, is_digit d = true) (digits k n).
Proof.
  revert n. induction k as [|k IH]; intros n; simpl; [constructor|].
  apply Forall_snoc. split; [apply IH|].
  unfold is_digit, in_range. rewrite code_digit. pose proof (Z.mod_pos_bound n 10). lia.
Qed.

Lemma scale9_snoc ds d k :
  length ds = k → scale9 (S k) (ds ++ [d]) = 10 * scale9 k ds + d.
Proof.
  revert k. induction ds as [|e ds IH]; intros k Hk; simpl in Hk; subst k.
  - simpl. lia.
  - cbn [app scale9]. cbn [scale9] in IH. rewrite (IH (length ds) eq_refl).
    rewrite Nat2Z.inj_succ, Z.pow_succ_r by lia. lia.
Qed.

Lemma scale9_digits k n : scale9 k (dvals (digits k n)) = n mod 10 ^ Z.of_nat k.
Proof.
  revert n. induction k as [|k IH]; intros n; [simpl; by rewrite Z.mod_1_r|].
  cbn [digits]. unfold dvals. rewrite map_app. cbn [map].
  rewrite scale9_snoc by (by rewrite length_map, length_digits).
  fold (dvals (digits k (n / 10))). rewrite IH, code_digit.
  rewrite Nat2Z.inj_succ, Z.pow_succ_r, Z.rem_mul_r by lia. lia.
Qed.

Lemma scale9_zeros k ds n : scale9 k (ds ++ replicate n 0) = scale9 k ds.
Proof.
  revert k. induction ds as [|d ds IH]; intros k; simpl.
  - revert k. induction n as [|n IH]; intros [|k]; simpl; try done.
    rewrite IH. by destruct k.
  - destruct k; simpl; [done|]. by rewrite IH.
Qed.

Lemma trim_zeros_rev_spec l :
  ∃ n, l = replicate n "0"%char ++ trim_zeros_rev l.
Proof.
  induction l as [|c l [n IH]]; [by exists 0%nat|]. simpl. case_bool_decide as Hc.
  - subst. exists (S n). simpl. by rewrite <- IH.
  - by exists 0%nat.
Qed.

Lemma trimmed_spec l : ∃ n, l = reverse (trim_zeros_rev (reverse l)) ++ replicate n "0"%char.
Proof.
  destruct (trim_zeros_rev_spec (reverse l)) as [n H]. exists n.
  rewrite <- (reverse_involutive l) at 1. rewrite H at 1. by rewrite reverse_app, reverse_replicate.
Qed.

Lemma parse_fraction_fraction ns r :
  0 ≤ ns < Second → parse_fraction (fraction ns ++ "Z"%char :: r) = (ns, "Z"%char :: r).
Proof.
  intros Hns. unfold fraction. destruct (Z.eqb_spec ns 0) as [->|Hne]; [done|].
  destruct (trimmed_spec (digits 9 ns)) as [n H].
  generalize dependent (reverse (trim_zeros_rev (reverse (digits 9 ns)))). intros q H.
  pose proof (digits_are_digits 9 ns) as Hd. rewrite H in Hd. apply Forall_app in Hd as [Hq _].
  pose proof (scale9_digits 9 ns) as Hs. rewrite Z.mod_small in Hs by (unfold Second in Hns; lia).
  rewrite H in Hs. unfold dvals in Hs. rewrite map_app in Hs.
  assert (map (λ c, code c - 48) (replicate n "0"%char) = replicate n 0) as E0
    by (clear; induction n; simpl; f_equal; done).
  rewrite E0, scale9_zeros in Hs.
  cbn -[scale9 take_digits]. rewrite take_digits_app by done. fold (dvals q) in Hs.
  destruct (dvals q) eqn:E; [simpl in Hs; lia|]. by rewrite Hs.
Qed.

(** Parsing what the program formats gives the instant back. *)
Lemma ParseTime_RFC3339Nano t :
  zone t = 0 → in_years t → ParseTime (RFC3339Nano t) = Some t.
Proof.
  intros Hz Hy. unfold ParseTime, RFC3339Nano. rewrite bytes_of_of, format_utc by done.
  unfold in_years, year_of, local_ns in Hy. rewrite Hz, Z.mul_0_l, Z.add_0_r in Hy.
  unfold parse_time_bytes, stamp, in_second. fold (in_second t) in *.
  destruct (civil (epoch_day + in_second t / 86400)) as [[y m] d] eqn:E.
  destruct (civil_spec _ _ _ _ E) as (Hm & Hd & Hdays & _). pose proof (days_in_bound m y).
  assert (0 ≤ unix_ns t mod Second < Second) as Hns by (unfold Second; lia).
  repeat (rewrite <- ?app_assoc; cbn [app mbind option_bind];
          first [rewrite expect_cons | rewrite num4_pad4 by lia | rewrite num2_pad2 by lia
                | rewrite num12_pad2 by lia]).
  cbn [app mbind option_bind].
  set (s := in_second t mod 86400) in *. assert (0 ≤ s < 86400) by lia.
  rewrite (proj2 (Z.leb_le 1 m)), (proj2 (Z.leb_le m 12)), (proj2 (Z.leb_le 1 d)),
    (proj2 (Z.leb_le d _)), (proj2 (Z.leb_le (s / 3600) 23)),
    (proj2 (Z.leb_le (s / 60 mod 60) 59)), (proj2 (Z.leb_le (s mod 60) 59)) by (clearbody s; lia).
  cbn [andb opt_guard mbind option_bind].
  rewrite parse_fraction_fraction by done. cbn -[Z.mul Z.div Z.modulo days_of_civil].
  rewrite Hdays. unfold in_second. destruct t as [ns z]; cbn [zone unix_ns] in *. subst z.
  rewrite bool_decide_eq_true_2 by done. cbn [mbind option_bind].
  do 2 f_equal. assert (s / 3600 * 3600 + s / 60 mod 60 * 60 + s mod 60 = s) as Hs
    by (clearbody s; lia).
  transitivity (((ns / Second / 86400) * 86400 + s) * Second + ns mod Second).
  - do 2 f_equal. lia.
  - subst s. unfold in_second, Second in *. cbn [unix_ns] in *. lia.
Qed.
