(* ===== verification/Encoding.v ===== *)
(** * Base32 and base64

    [encoding/base64].RawURLEncoding and [encoding/base32].StdEncoding without
    padding, as bit regrouping, and the canonical decoder of
    [internal/accesslease/sign.go]. *)
From S2P Require Import Prelude GoStrings.
Open Scope Z_scope.

(** ** Bits, most significant first *)
Fixpoint bits (k : nat) (z : Z) : list bool :=
  match k with
  | O => []
  | S k => Z.testbit z (Z.of_nat k) :: bits k z
  end.

Definition of_bits (l : list bool) : Z := fold_left (λ a (b : bool), 2 * a + Z.b2z b) l 0.

(** Groups of [k] bits; the last one is filled up with zeros. *)
Fixpoint group (k fuel : nat) (l : list bool) : list (list bool) :=
  match fuel with
  | O => []
  | S fuel =>
      match l with
      | [] => []
      | _ => let g := take k l in
             (g ++ replicate (k - length g) false) :: group k fuel (drop k l)
      end
  end.

(** Complete groups of [k] bits; what is left over is dropped. *)
Fixpoint full_groups (k fuel : nat) (l : list bool) : list (list bool) :=
  match fuel with
  | O => []
  | S fuel => if (k <=? length l)%nat then take k l :: full_groups k fuel (drop k l) else []
  end.

Definition byte_bits (l : list ascii) : list bool := concat (map (λ c, bits 8 (code c)) l).

Definition digits_of (k : nat) (l : list ascii) : list Z :=
  let b := byte_bits l in map of_bits (group k (length b) b).

(** ** Alphabets *)

(** The URL-safe base64 alphabet. *)
Definition b64_char (v : Z) : ascii :=
  if v <? 26 then chr (65 + v) else if v <? 52 then chr (97 + (v - 26))
  else if v <? 62 then chr (48 + (v - 52)) else if v =? 62 then "-"%char else "_"%char.

Definition b64_val (c : ascii) : option Z :=
  if is_upper c then Some (code c - 65) else if is_lower c then Some (code c - 97 + 26)
  else if is_digit c then Some (code c - 48 + 52)
  else if bool_decide (c = "-"%char) then Some 62
  else if bool_decide (c = "_"%char) then Some 63 else None.

Definition b32_char (v : Z) : ascii := if v <? 26 then chr (65 + v) else chr (50 + (v - 26)).

(** [base64.RawURLEncoding.EncodeToString]. *)
Definition base64_encode (data : string) : string :=
  of_bytes (map b64_char (digits_of 6 (bytes_of data))).

(** [base32.StdEncoding.WithPadding(base32.NoPadding).EncodeToString]. *)
Definition base32_encode (data : string) : string :=
  of_bytes (map b32_char (digits_of 5 (bytes_of data))).

Definition LF : ascii := chr 10.
Definition CR : ascii := chr 13.
Definition TAB : ascii := chr 9.
Definition NUL : ascii := chr 0.
Definition is_newline (c : ascii) : bool := bool_decide (c = LF) || bool_decide (c = CR).

(** [base64.RawURLEncoding.DecodeString]: new lines are skipped, a group of one
    character is an error, trailing bits are not checked. *)
Definition base64_decode (s : string) : option string :=
  ds ← mapM b64_val (List.filter (λ c, negb (is_newline c)) (bytes_of s));
  if Nat.eqb (length ds mod 4) 1 then None
  else let b := concat (map (bits 6) ds) in
       Some (of_bytes (map (λ g, chr (of_bits g)) (full_groups 8 (length b) b))).

(** ** [decodeCanonicalRawBase64URL] *)
Definition decodeCanonicalRawBase64URL (value : string) : res string :=
  _ ← refuse (value =s "") (errorf "accesslease: empty base64url value");
  _ ← refuse (ContainsAny value [CR; LF; TAB; " "%char])
        (errorf "accesslease: non-canonical base64url (whitespace)");
  _ ← refuse (ContainsChar value "="%char) (errorf "accesslease: padded base64url");
  data ← need (base64_decode value) (errorf "accesslease: invalid base64url");
  _ ← refuse (base64_encode data <>s value) (errorf "accesslease: non-canonical base64url");
  Ok data.

(** ** Bit facts *)
Lemma length_bits k z : length (bits k z) = k.
Proof. induction k; simpl; congruence. Qed.

Lemma fold_bits_app l a :
  fold_left (λ a (b : bool), 2 * a + Z.b2z b) l a = a * 2 ^ Z.of_nat (length l) + of_bits l.
Proof.
  unfold of_bits. revert a. induction l as [|b l IH]; intros a; [simpl; lia|].
  cbn [fold_left length]. rewrite IH, (IH (2 * 0 + Z.b2z b)), Nat2Z.inj_succ, Z.pow_succ_r by lia. lia.
Qed.

Lemma of_bits_cons b l : of_bits (b :: l) = Z.b2z b * 2 ^ Z.of_nat (length l) + of_bits l.
Proof. unfold of_bits at 1. cbn [fold_left]. by rewrite fold_bits_app. Qed.

Lemma of_bits_range l : 0 ≤ of_bits l < 2 ^ Z.of_nat (length l).
Proof.
  induction l as [|b l IH]; [done|]. rewrite of_bits_cons. cbn [length].
  rewrite Nat2Z.inj_succ, Z.pow_succ_r by lia. destruct b; simpl Z.b2z; lia.
Qed.

(** Reading back the bits of a number in range. *)
Lemma of_bits_bits k z : 0 ≤ z → of_bits (bits k z) = z mod 2 ^ Z.of_nat k.
Proof.
  intros Hz. induction k as [|k IH]; [simpl; by rewrite Z.mod_1_r|].
  cbn [bits]. rewrite of_bits_cons, length_bits, IH.
  rewrite Nat2Z.inj_succ, Z.pow_succ_r, (Z.mul_comm 2), Z.rem_mul_r by lia.
  rewrite Z.testbit_spec' by lia. lia.
Qed.

Lemma bits_of_bits l : bits (length l) (of_bits l) = l.
Proof.
  assert (∀ k z n, 0 ≤ z → (k ≤ n)%nat → bits k (z mod 2 ^ Z.of_nat n) = bits k z) as Hmod.
  { intros k z n Hz. induction k as [|k IH]; intros Hk; simpl; [done|].
    rewrite IH by lia. f_equal. apply Z.mod_pow2_bits_low. lia. }
  induction l as [|b l IH]; [done|]. cbn [length bits]. f_equal.
  - apply Z.b2z_inj. rewrite Z.testbit_spec' by lia. rewrite of_bits_cons.
    pose proof (of_bits_range l).
    rewrite Z.div_add_l, Z.div_small, Z.add_0_r by lia. by destruct b.
  - pose proof (of_bits_range l). rewrite <- (Hmod _ _ (length l)); [|apply of_bits_range|done].
    rewrite of_bits_cons, Z.add_comm, Z.mod_add, Z.mod_small by lia. done.
Qed.

Lemma length_byte_bits l : length (byte_bits l) = (8 * length l)%nat.
Proof.
  unfold byte_bits. induction l as [|c l IH]; [done|]. cbn [map concat].
  rewrite length_app, length_bits, IH. simpl. lia.
Qed.

(** Every group is [k] bits wide and together they are the input, zero-filled. *)
Lemma group_spec k fuel l :
  (0 < k)%nat → (length l ≤ fuel)%nat →
  Forall (λ g, length g = k) (group k fuel l) ∧
  ∃ n, (n < k)%nat ∧ concat (group k fuel l) = l ++ replicate n false.
Proof.
  intros Hk. revert l. induction fuel as [|fuel IH]; intros l Hl; simpl.
  { destruct l; simpl in Hl; [|lia]. split; [done|]. exists 0%nat. by split. }
  destruct l as [|b l]. { split; [done|]. exists 0%nat. by split. }
  destruct (IH (drop k (b :: l))) as [HF (n & Hn & HE)].
  { rewrite length_drop. simpl in *. lia. }
  set (x := b :: l) in *. split.
  - constructor; [|done]. rewrite length_app, length_replicate, length_take. lia.
  - cbn [concat]. rewrite HE. destruct (le_lt_dec k (length x)) as [Hx|Hx].
    + exists n. split; [done|]. rewrite length_take, Nat.min_l, Nat.sub_diag by done.
      cbn [replicate]. by rewrite app_nil_r, app_assoc, take_drop.
    + rewrite drop_ge in HE by lia.
      assert (group k fuel [] = []) as Hnil by (by destruct fuel).
      rewrite Hnil in HE. simpl in HE. destruct n as [|n]; [|done].
      exists (k - length x)%nat. split; [unfold x; simpl; lia|].
      rewrite take_ge, drop_ge by lia. by rewrite app_nil_r.
Qed.

Lemma full_groups_bytes l n fuel :
  (n < 8)%nat → (length l ≤ fuel)%nat →
  full_groups 8 fuel (byte_bits l ++ replicate n false) = map (λ c, bits 8 (code c)) l.
Proof.
  intros Hn. revert fuel. induction l as [|c l IH]; intros [|fuel] Hf; cbn [length] in Hf; try lia.
  - done.
  - simpl. rewrite length_replicate.
    destruct n as [|[|[|[|[|[|[|[|n]]]]]]]]; try done. lia.
  - unfold byte_bits. cbn [map concat]. fold (byte_bits l). rewrite <- app_assoc.
    unfold full_groups; fold full_groups.
    rewrite (proj2 (Nat.leb_le _ _)) by (rewrite length_app, length_bits; lia).
    rewrite take_app_length', drop_app_length' by (by rewrite length_bits).
    by rewrite IH by lia.
Qed.

Lemma byte_of_bits c : chr (of_bits (bits 8 (code c))) = c.
Proof.
  pose proof (code_range c). rewrite of_bits_bits by lia.
  change (2 ^ Z.of_nat 8) with 256. rewrite Z.mod_small by lia. apply chr_code.
Qed.

Lemma regroup_digits k l :
  (0 < k)%nat →
  ∃ n, (n < k)%nat ∧ concat (map (bits k) (digits_of k l)) = byte_bits l ++ replicate n false.
Proof.
  intros Hk. unfold digits_of.
  destruct (group_spec k (length (byte_bits l)) (byte_bits l)) as [HF (n & Hn & HE)]; [done|done|].
  exists n. split; [done|]. rewrite <- HE. clear HE. induction HF as [|g gs Hg _ IH]; [done|].
  cbn [map concat]. rewrite IH. f_equal. rewrite <- Hg. apply bits_of_bits.
Qed.

Lemma digits_of_range k l : (0 < k)%nat → Forall (λ d, 0 ≤ d < 2 ^ Z.of_nat k) (digits_of k l).
Proof.
  intros Hk. unfold digits_of.
  destruct (group_spec k (length (byte_bits l)) (byte_bits l)) as [HF _]; [done|done|].
  apply Forall_map. eapply Forall_impl; [exact HF|]. intros g <-. apply of_bits_range.
Qed.

(** ** Alphabet facts *)
Lemma code_chr_small z : 0 ≤ z < 256 → code (chr z) = z.
Proof. intros. rewrite code_chr. by apply Z.mod_small. Qed.

Definition b64_is_alnum (c : ascii) : bool := is_upper c || is_lower c || is_digit c.

Lemma b64_val_char v : 0 ≤ v < 64 → b64_val (b64_char v) = Some v.
Proof.
  intros Hv. pose proof (forallb_range
    (λ v, match b64_val (b64_char v) with Some w => w =? v | None => false end) 64 v eq_refl Hv) as H.
  simpl in H. destruct (b64_val (b64_char v)); [|done]. f_equal. lia.
Qed.

Lemma b32_char_inj v w : 0 ≤ v < 32 → 0 ≤ w < 32 → b32_char v = b32_char w → v = w.
Proof.
  intros Hv Hw H. apply (f_equal code) in H. unfold b32_char in H.
  destruct (Z.ltb_spec v 26), (Z.ltb_spec w 26); rewrite !code_chr_small in H by lia; lia.
Qed.

(** No alphabet character is white space or padding. *)
Definition b64_reserved (c : ascii) : bool :=
  existsb (λ d, bool_decide (c = d)) [CR; LF; TAB; " "%char; "="%char].

Lemma b64_char_plain v : 0 ≤ v < 64 → b64_reserved (b64_char v) = false.
Proof.
  intros Hv. apply negb_true_iff.
  exact (forallb_range (λ v, negb (b64_reserved (b64_char v))) 64 v eq_refl Hv).
Qed.

Lemma base64_chars data :
  Forall (λ c, b64_reserved c = false) (bytes_of (base64_encode data)).
Proof.
  unfold base64_encode. rewrite bytes_of_of. apply Forall_map.
  eapply Forall_impl; [by apply (digits_of_range 6); lia|]. intros d Hd. by apply b64_char_plain.
Qed.

Lemma reserved_absent data c :
  b64_reserved c = true → ContainsChar (base64_encode data) c = false.
Proof.
  intros Hc. apply ContainsChar_false. intros Hin.
  pose proof (base64_chars data) as H. rewrite Forall_forall in H. rewrite (H c Hin) in Hc. done.
Qed.

(** ** Base64 round trip *)
Lemma length_digits_of k l :
  (0 < k)%nat → (k * length (digits_of k l) < 8 * length l + k)%nat ∧
                (8 * length l ≤ k * length (digits_of k l))%nat.
Proof.
  intros Hk. destruct (regroup_digits k l Hk) as (n & Hn & HE).
  apply (f_equal length) in HE. rewrite length_app, length_byte_bits, length_replicate in HE.
  assert (length (concat (map (bits k) (digits_of k l))) = (k * length (digits_of k l))%nat) as E.
  { clear HE. induction (digits_of k l) as [|d ds IH]; [simpl; lia|].
    cbn [map concat length]. rewrite length_app, length_bits, IH. lia. }
  lia.
Qed.

Lemma base64_decode_encode data : base64_decode (base64_encode data) = Some data.
Proof.
  unfold base64_decode. pose proof (base64_chars data) as Hc.
  assert (List.filter (λ c, negb (is_newline c)) (bytes_of (base64_encode data)) =
          bytes_of (base64_encode data)) as ->.
  { induction Hc as [|c l Hc _ IH]; [done|]. simpl. rewrite IH.
    assert (is_newline c = false) as ->; [|done].
    unfold b64_reserved in Hc. simpl in Hc. unfold is_newline.
    repeat (apply orb_false_iff in Hc as [? Hc]). by rewrite H, H0. }
  unfold base64_encode. rewrite bytes_of_of.
  pose proof (digits_of_range 6 (bytes_of data)) as Hr. specialize (Hr ltac:(lia)).
  assert (mapM b64_val (map b64_char (digits_of 6 (bytes_of data))) =
          Some (digits_of 6 (bytes_of data))) as ->.
  { induction Hr as [|d ds Hd _ IH]; [done|]. simpl. rewrite b64_val_char by done. simpl.
    by rewrite IH. }
  cbn [mbind option_bind]. destruct (Nat.eqb_spec (length (digits_of 6 (bytes_of data)) mod 4) 1) as [E|_].
  { pose proof (length_digits_of 6 (bytes_of data)).
    pose proof (Nat.div_mod_eq (length (digits_of 6 (bytes_of data))) 4). lia. }
  destruct (regroup_digits 6 (bytes_of data)) as (n & Hn & HE); [lia|]. rewrite HE.
  rewrite full_groups_bytes; [|lia|rewrite length_app, length_byte_bits; lia].
  f_equal. rewrite map_map. erewrite map_ext by (intros; apply byte_of_bits).
  by rewrite map_id, of_bytes_of.
Qed.

Lemma base64_encode_inj a b : base64_encode a = base64_encode b → a = b.
Proof.
  intros H. pose proof (base64_decode_encode a) as Ha. rewrite H, base64_decode_encode in Ha.
  congruence.
Qed.

Lemma base64_encode_empty data : base64_encode data = "" ↔ data = "".
Proof.
  split; [|by intros ->]. intros H. apply base64_encode_inj. by rewrite H.
Qed.

(** The canonical decoder is the inverse of the encoder, and of nothing else. *)
Lemma decodeCanonical_spec value data :
  decodeCanonicalRawBase64URL value = Ok data ↔ value = base64_encode data ∧ data ≠ "".
Proof.
  unfold decodeCanonicalRawBase64URL. split.
  - intros H. res_inv. split; [congruence|]. intros ->. by simpl in *.
  - intros [-> Hd]. assert (base64_encode data ≠ "") as Hne by (by rewrite base64_encode_empty).
    apply seqb_false in Hne. rewrite Hne. cbn [refuse mbind res_bind].
    unfold ContainsAny. cbn [existsb].
    rewrite !reserved_absent by done. cbn [orb refuse mbind res_bind].
    rewrite base64_decode_encode. cbn [need mbind res_bind].
    by rewrite seqb_refl.
Qed.

(** ** Length of base64 and base32 texts *)
Lemma slen_base64 data : slen (base64_encode data) = (8 * slen data + 5) / 6.
Proof.
  rewrite !slen_bytes. unfold base64_encode. rewrite bytes_of_of. unfold llen. rewrite length_map.
  pose proof (length_digits_of 6 (bytes_of data)).
  pose proof (Z.div_mod (8 * Z.of_nat (length (bytes_of data)) + 5) 6).
  pose proof (Z.mod_pos_bound (8 * Z.of_nat (length (bytes_of data)) + 5) 6). lia.
Qed.

Lemma slen_base32 data : slen (base32_encode data) = (8 * slen data + 4) / 5.
Proof.
  rewrite !slen_bytes. unfold base32_encode. rewrite bytes_of_of. unfold llen. rewrite length_map.
  pose proof (length_digits_of 5 (bytes_of data)).
  pose proof (Z.div_mod (8 * Z.of_nat (length (bytes_of data)) + 4) 5).
  pose proof (Z.mod_pos_bound (8 * Z.of_nat (length (bytes_of data)) + 4) 5). lia.
Qed.

(** Base32 texts of the same bytes only. *)
Lemma base32_encode_inj a b : base32_encode a = base32_encode b → a = b.
Proof.
  intros H. unfold base32_encode in H. apply of_bytes_inj in H.
  assert (digits_of 5 (bytes_of a) = digits_of 5 (bytes_of b)) as E.
  { pose proof (digits_of_range 5 (bytes_of a)) as Ra. specialize (Ra ltac:(lia)).
    pose proof (digits_of_range 5 (bytes_of b)) as Rb. specialize (Rb ltac:(lia)).
    revert Rb H. generalize (digits_of 5 (bytes_of b)).
    induction Ra as [|x xs Hx _ IH]; intros [|y ys] Rb H; try done.
    injection H as H1 H2. inversion_clear Rb. f_equal; [by apply b32_char_inj|by apply IH]. }
  destruct (regroup_digits 5 (bytes_of a)) as (n & Hn & Ea); [lia|].
  destruct (regroup_digits 5 (bytes_of b)) as (m & Hm & Eb); [lia|].
  rewrite E, Eb in Ea. apply bytes_of_inj.
  assert (∀ l k, (k < 8)%nat →
    map (λ g, chr (of_bits g)) (full_groups 8 (S (length l)) (byte_bits l ++ replicate k false)) = l) as Hd.
  { intros l k Hk. rewrite full_groups_bytes by lia. rewrite map_map.
    erewrite map_ext by (intros; apply byte_of_bits). apply map_id. }
  assert (length (bytes_of a) = length (bytes_of b)) as El.
  { apply (f_equal length) in Ea.
    rewrite !length_app, !length_byte_bits, !length_replicate in Ea. lia. }
  rewrite <- (Hd (bytes_of a) n), <- (Hd (bytes_of b) m), El, Ea by lia. done.
Qed.
