(* ===== verification/Json.v ===== *)
(** * Flat JSON objects

    What the program uses of [encoding/json]: marshalling of flat structs, the
    token stream of a [json.Decoder] over a flat object, and the typed reading
    of scalar members; then the strict scanner of
    [internal/accesslease/strict.go] on top of it. *)
From S2P Require Import Prelude GoStrings GoTime Encoding.
Open Scope Z_scope.

Definition quote : ascii := chr 34.
Definition backslash : ascii := chr 92.
Definition ceq (a b : ascii) : bool := Z.eqb (code a) (code b).

(** ** UTF-8 *)
Definition is_cont (c : ascii) : bool := in_range c 128 191.

(** Number of bytes of the rune [utf8.DecodeRune] finds at the front, 0 when the
    first byte is not the start of a well-formed sequence. *)
Definition utf8_size (l : list ascii) : nat :=
  match l with
  | [] => 0%nat
  | a :: r =>
      if code a <? 128 then 1%nat
      else match r with
      | [] => 0%nat
      | b :: r =>
          if in_range a 194 223 then (if is_cont b then 2%nat else 0%nat)
          else match r with
          | [] => 0%nat
          | c :: r =>
              if in_range a 224 239 then
                (if in_range b (if code a =? 224 then 160 else 128)
                               (if code a =? 237 then 159 else 191) && is_cont c then 3%nat else 0%nat)
              else match r with
              | [] => 0%nat
              | d :: _ =>
                  if in_range a 240 244 then
                    (if in_range b (if code a =? 240 then 144 else 128)
                                   (if code a =? 244 then 143 else 191)
                        && is_cont c && is_cont d then 4%nat else 0%nat)
                  else 0%nat
              end
          end
      end
  end.

(** [utf8.AppendRune]. *)
Definition utf8_encode (r : Z) : list ascii :=
  if (r <? 0) || (1114111 <? r) || ((55296 <=? r) && (r <=? 57343)) then map chr [239; 191; 189]
  else if r <? 128 then [chr r]
  else if r <? 2048 then [chr (192 + r / 64); chr (128 + r mod 64)]
  else if r <? 65536 then
    [chr (224 + r / 4096); chr (128 + r / 64 mod 64); chr (128 + r mod 64)]
  else [chr (240 + r / 262144); chr (128 + r / 4096 mod 64);
        chr (128 + r / 64 mod 64); chr (128 + r mod 64)].

Definition replacement : list ascii := utf8_encode 65533.

(** ** Writing strings *)
Definition hex_digit (n : Z) : ascii := if n <? 10 then chr (48 + n) else chr (87 + n).
Definition u00 (c : ascii) : list ascii :=
  [backslash; "u"%char; "0"%char; "0"%char; hex_digit (code c / 16); hex_digit (code c mod 16)].

(** The bytes that need no escape ([htmlSafeSet]). *)
Definition html_safe (c : ascii) : bool :=
  (32 <=? code c) && (code c <? 128) &&
  negb (existsb (ceq c) [quote; backslash; "<"%char; ">"%char; "&"%char]).

Definition escape_ascii (c : ascii) : list ascii :=
  if html_safe c then [c]
  else if ceq c backslash || ceq c quote then [backslash; c]
  else if code c =? 8 then [backslash; "b"%char]
  else if code c =? 12 then [backslash; "f"%char]
  else if code c =? 10 then [backslash; "n"%char]
  else if code c =? 13 then [backslash; "r"%char]
  else if code c =? 9 then [backslash; "t"%char]
  else u00 c.

(** [appendString] with HTML escaping; [copy] bytes of a rune remain to be copied
    ([true]) or were already written as an escape ([false]). *)
Fixpoint escape (keep : bool) (copy : nat) (l : list ascii) : list ascii :=
  match l with
  | [] => []
  | c :: r =>
      match copy with
      | S k => if keep then c :: escape keep k r else escape keep k r
      | O =>
          if code c <? 128 then escape_ascii c ++ escape true 0 r
          else match utf8_size l with
          | O => backslash :: bytes_of "ufffd" ++ escape true 0 r
          | S k =>
              if bool_decide (take 3 l = map chr [226; 128; 168]) then
                backslash :: bytes_of "u2028" ++ escape false k r
              else if bool_decide (take 3 l = map chr [226; 128; 169]) then
                backslash :: bytes_of "u2029" ++ escape false k r
              else c :: escape true k r
          end
      end
  end.
Definition json_string (s : string) : list ascii := quote :: escape true 0 (bytes_of s) ++ [quote].

(** ** Writing numbers *)
Fixpoint strip_zeros (l : list ascii) : list ascii :=
  match l with
  | c :: r => match r with
              | [] => [c]
              | _ => if ceq c "0"%char then strip_zeros r else l
              end
  | [] => []
  end.
(** Decimal text of a number below 10^20, which holds every 64-bit integer. *)
Definition decimal (n : Z) : list ascii := strip_zeros (digits 20 n).
Definition json_int (n : Z) : list ascii :=
  if n <? 0 then "-"%char :: decimal (- n) else decimal n.

(** ** Writing flat structs *)
Inductive jval :=
  | VStr (s : string)
  | VInt (n : Z)
  | VBool (b : bool)
  | VTime (t : time).

(** [Time.MarshalJSON] refuses years and offsets its strict layout cannot hold. *)
Definition time_marshals (t : time) : bool :=
  (0 <=? year_of t) && (year_of t <=? 9999) && (Z.abs (zone t) <? 86400).

Definition json_value (v : jval) : res (list ascii) :=
  match v with
  | VStr s => Ok (json_string s)
  | VInt n => Ok (json_int n)
  | VBool b => Ok (bytes_of (if b then "true" else "false"))
  | VTime t => if time_marshals t then Ok (quote :: format_bytes t ++ [quote])
               else Fail (errorf "Time.MarshalJSON")
  end.

Fixpoint json_members (kvs : list (string * jval)) : res (list ascii) :=
  match kvs with
  | [] => Ok []
  | (k, v) :: r =>
      x ← json_value v; y ← json_members r;
      Ok (json_string k ++ ":"%char :: x ++ match r with [] => y | _ => ","%char :: y end)
  end.

(** [json.Marshal] of a struct with these members. *)
Definition Marshal (kvs : list (string * jval)) : res string :=
  body ← json_members kvs; Ok (of_bytes ("{"%char :: body ++ ["}"%char])).

(** A member with the option [omitempty]. *)
Definition omitempty (k s : string) : list (string * jval) :=
  if s =s "" then [] else [(k, VStr s)].

(** ** Reading tokens *)
Inductive token :=
  | TStr (s : string) (raw : list ascii)
  | TNum (raw : list ascii)
  | TBool (b : bool)
  | TNull
  | TDelim (c : ascii).

Definition is_ws (c : ascii) : bool := existsb (ceq c) [" "%char; TAB; CR; LF].
Fixpoint skip_ws (l : list ascii) : list ascii :=
  match l with c :: r => if is_ws c then skip_ws r else l | [] => [] end.

Definition hex_val (c : ascii) : option Z :=
  if is_digit c then Some (code c - 48)
  else if in_range c 97 102 then Some (code c - 87)
  else if in_range c 65 70 then Some (code c - 55) else None.
Definition hex4 (a b c d : ascii) : option Z :=
  w ← hex_val a; x ← hex_val b; y ← hex_val c; z ← hex_val d;
  Some (4096 * w + 256 * x + 16 * y + z).

Definition simple_escape (c : ascii) : option ascii :=
  if existsb (ceq c) [quote; backslash; "/"%char] then Some c
  else if ceq c "b"%char then Some (chr 8) else if ceq c "f"%char then Some (chr 12)
  else if ceq c "n"%char then Some (chr 10) else if ceq c "r"%char then Some (chr 13)
  else if ceq c "t"%char then Some (chr 9) else None.

(** The raw text of a string, up to its closing quote. *)
Fixpoint scan_string (l : list ascii) : option (list ascii * list ascii) :=
  match l with
  | [] => None
  | c :: r =>
      if ceq c quote then Some ([], r)
      else if code c <? 32 then None
      else if ceq c backslash then
        match r with
        | [] => None
        | e :: r' =>
            if ceq e "u"%char then
              match r' with
              | h1 :: h2 :: h3 :: h4 :: r'' =>
                  match hex4 h1 h2 h3 h4, scan_string r'' with
                  | Some _, Some (s, rest) => Some (c :: e :: h1 :: h2 :: h3 :: h4 :: s, rest)
                  | _, _ => None
                  end
              | _ => None
              end
            else match simple_escape e, scan_string r' with
                 | Some _, Some (s, rest) => Some (c :: e :: s, rest)
                 | _, _ => None
                 end
        end
      else match scan_string r with Some (s, rest) => Some (c :: s, rest) | None => None end
  end.

(** [unquote]: escapes resolved, ill-formed UTF-8 replaced by U+FFFD. *)
Fixpoint unquote (copy : nat) (l : list ascii) : list ascii :=
  match l with
  | [] => []
  | c :: r =>
      match copy with
      | S k => c :: unquote k r
      | O =>
          if ceq c backslash then
            match r with
            | [] => []
            | e :: r' =>
                if ceq e "u"%char then
                  match r' with
                  | h1 :: h2 :: h3 :: h4 :: r'' =>
                      match hex4 h1 h2 h3 h4 with
                      | None => []
                      | Some u =>
                          if (55296 <=? u) && (u <=? 57343) then
                            match r'' with
                            | b2 :: u2 :: g1 :: g2 :: g3 :: g4 :: r3 =>
                                match hex4 g1 g2 g3 g4 with
                                | Some v =>
                                    if ceq b2 backslash && ceq u2 "u"%char && (u <? 56320) &&
                                       (56320 <=? v) && (v <=? 57343) then
                                      utf8_encode ((u - 55296) * 1024 + (v - 56320) + 65536) ++ unquote 0 r3
                                    else replacement ++ unquote 0 r''
                                | None => replacement ++ unquote 0 r''
                                end
                            | _ => replacement ++ unquote 0 r''
                            end
                          else utf8_encode u ++ unquote 0 r''
                      end
                  | _ => []
                  end
                else match simple_escape e with
                     | Some x => x :: unquote 0 r'
                     | None => []
                     end
            end
          else match utf8_size l with
               | O => replacement ++ unquote 0 r
               | S k => c :: unquote k r
               end
      end
  end.

Fixpoint span_digits (l : list ascii) : list ascii * list ascii :=
  match l with
  | c :: r => if is_digit c then let '(d, rest) := span_digits r in (c :: d, rest) else ([], l)
  | [] => ([], [])
  end.

(** The longest prefix the number states of the scanner accept; once a point or
    an exponent was read a digit must follow. *)
Definition scan_int (l : list ascii) : option (list ascii * list ascii) :=
  match l with
  | c :: r =>
      if ceq c "0"%char then Some ([c], r)
      else if is_digit c then Some (span_digits l) else None
  | [] => None
  end.
Definition scan_frac (l : list ascii) : option (list ascii * list ascii) :=
  match l with
  | c :: r =>
      if ceq c "."%char then
        match span_digits r with ([], _) => None | (d, rest) => Some (c :: d, rest) end
      else Some ([], l)
  | [] => Some ([], [])
  end.
Definition scan_exp (l : list ascii) : option (list ascii * list ascii) :=
  match l with
  | c :: r =>
      if ceq c "e"%char || ceq c "E"%char then
        let '(sg, r) := match r with
                        | s :: r' => if ceq s "+"%char || ceq s "-"%char then ([s], r') else ([], r)
                        | [] => ([], r)
                        end in
        match span_digits r with ([], _) => None | (d, rest) => Some (c :: sg ++ d, rest) end
      else Some ([], l)
  | [] => Some ([], [])
  end.
Definition scan_number (l : list ascii) : option (list ascii * list ascii) :=
  let '(sg, l) := match l with
                  | c :: r => if ceq c "-"%char then ([c], r) else ([], l)
                  | [] => ([], l)
                  end in
  '(i, l) ← scan_int l; '(f, l) ← scan_frac l; '(e, l) ← scan_exp l;
  Some (sg ++ i ++ f ++ e, l).

(** [strconv.ParseFloat] reports a range error when the literal rounds to an
    infinity: at 2^1024 - 2^970 and above. *)
Definition dec_value (ds : list ascii) : Z := fold_left (λ a c, 10 * a + (code c - 48)) ds 0.
Definition float_limit : Z := 2 ^ 1024 - 2 ^ 970.
Definition float_overflows (raw : list ascii) : bool :=
  let raw := match raw with c :: r => if ceq c "-"%char then r else raw | [] => raw end in
  let '(i, r) := span_digits raw in
  let '(f, r) := match r with
                 | c :: r' => if ceq c "."%char then span_digits r' else ([], r)
                 | [] => ([], r)
                 end in
  let e := match r with
           | _ :: s :: r' =>
               if ceq s "-"%char then - dec_value r'
               else if ceq s "+"%char then dec_value r' else dec_value (s :: r')
           | _ => 0
           end in
  let m := dec_value (i ++ f) in
  let e := e - llen f in
  if m =? 0 then false
  else if 400 <? e then true
  else if 0 <=? e then float_limit <=? m * 10 ^ e
  else float_limit * 10 ^ (- e) <=? m.

Definition scan_literal (p : string) (t : token) (l : list ascii) : option (token * list ascii) :=
  r ← strip_prefix (bytes_of p) l; Some (t, r).

(** A [Token] where a value is allowed; the front is not white space. *)
Definition value_token (l : list ascii) : option (token * list ascii) :=
  match l with
  | [] => None
  | c :: r =>
      if ceq c "{"%char || ceq c "["%char then Some (TDelim c, r)
      else if ceq c quote then
        '(raw, rest) ← scan_string r; Some (TStr (of_bytes (unquote 0 raw)) raw, rest)
      else if ceq c "t"%char then scan_literal "true" (TBool true) l
      else if ceq c "f"%char then scan_literal "false" (TBool false) l
      else if ceq c "n"%char then scan_literal "null" TNull l
      else '(raw, rest) ← scan_number l;
           if float_overflows raw then None else Some (TNum raw, rest)
  end.

(** ** The decoder's state machine inside an object *)

(** [decoder.More]. *)
Definition More (l : list ascii) : bool :=
  match skip_ws l with
  | [] => false
  | c :: _ => negb (ceq c "]"%char || ceq c "}"%char)
  end.

Definition expect_delim (d : ascii) (l : list ascii) : option (list ascii) :=
  match skip_ws l with
  | c :: r => if ceq c d then Some r else None
  | [] => None
  end.

(** The key [Token]: at once after the opening brace, after a comma later on. *)
Definition key_token (first : bool) (l : list ascii) : option (string * list ascii) :=
  l ← (if first then Some l else expect_delim ","%char l);
  l ← expect_delim quote l;
  '(raw, rest) ← scan_string l; Some (of_bytes (unquote 0 raw), rest).

(** The value [Token] of a member. *)
Definition member_token (l : list ascii) : option (token * list ascii) :=
  l ← expect_delim ":"%char l; value_token (skip_ws l).

Definition is_delim (t : token) : bool := match t with TDelim _ => true | _ => false end.

(** ** [scanFlatObject] *)
Definition errStrict : error := errorf "accesslease: invalid encoding".

(** A Go map literal from member names to string bounds. *)
Definition bounds := list (string * Z).
Fixpoint assoc {A} (k : string) (m : list (string * A)) : option A :=
  match m with
  | [] => None
  | (k', v) :: m => if k =s k' then Some v else assoc k m
  end.

Definition over_bound (max : Z) (t : token) : bool :=
  match t with TStr s _ => max <? slen s | _ => false end.

(** The loop over the members; every round consumes input, so that one round
    more than there are bytes is enough ([scan_loop_fuel]). *)
Fixpoint scan_loop (allowed : bounds) (fuel : nat) (first : bool) (seen : list string)
    (l : list ascii) : res (list ascii) :=
  match fuel with
  | O => Fail errStrict
  | S fuel =>
      if More l then
        '(key, l) ← need (key_token first l) errStrict;
        _ ← refuse (mem_str key seen) (errorf "accesslease: duplicate key");
        max ← need (assoc key allowed) (errorf "accesslease: unknown field");
        '(v, l) ← need (member_token l) errStrict;
        _ ← refuse (is_delim v) (errorf "accesslease: nested value");
        _ ← refuse (over_bound max v) (errorf "accesslease: field exceeds bound");
        scan_loop allowed fuel false (key :: seen) l
      else Ok l
  end.

Definition scanFlatObject (data : string) (allowed : bounds) : res unit :=
  l ← need (expect_delim "{"%char (bytes_of data)) errStrict;
  l ← scan_loop allowed (S (length l)) true [] l;
  l ← need (expect_delim "}"%char l) errStrict;
  refuse (negb (bool_decide (skip_ws l = []))) (errorf "accesslease: trailing payload").

Definition ScanStrictFlat (data : string) (allowed : bounds) : res unit :=
  scanFlatObject data allowed.

(** ** [json.Unmarshal] of a flat object

    The members in order, each applied to the struct. *)
Fixpoint members_loop (fuel : nat) (first : bool) (l : list ascii)
    : option (list (string * token) * list ascii) :=
  match fuel with
  | O => None
  | S fuel =>
      if More l then
        '(key, l) ← key_token first l; '(v, l) ← member_token l;
        '(ms, l) ← members_loop fuel false l; Some ((key, v) :: ms, l)
      else Some ([], l)
  end.

Definition flat_members (data : string) : option (list (string * token)) :=
  l ← expect_delim "{"%char (bytes_of data);
  '(ms, l) ← members_loop (S (length l)) true l;
  l ← expect_delim "}"%char l;
  if bool_decide (skip_ws l = []) then Some ms else None.

(** [strconv.ParseUint] and [strconv.ParseInt] in base 10, 64 bits, on the text of
    a JSON number. *)
Definition all_digits (l : list ascii) : bool := bool_decide (l ≠ []) && forallb is_digit l.
Definition parse_uint (raw : list ascii) : option Z :=
  if all_digits raw && (dec_value raw <? 2 ^ 64) then Some (dec_value raw) else None.
Definition parse_int (raw : list ascii) : option Z :=
  match raw with
  | c :: r =>
      if ceq c "-"%char then
        if all_digits r && (dec_value r <=? 2 ^ 63) then Some (- dec_value r) else None
      else if all_digits raw && (dec_value raw <? 2 ^ 63) then Some (dec_value raw) else None
  | [] => None
  end.

(** Reading one member into a field of each type; [null] leaves the field as it
    is, [Some None]. *)
Definition read_str (t : token) : option (option string) :=
  match t with TStr s _ => Some (Some s) | TNull => Some None | _ => None end.
Definition read_int (t : token) : option (option Z) :=
  match t with TNum raw => n ← parse_int raw; Some (Some n) | TNull => Some None | _ => None end.
Definition read_uint (t : token) : option (option Z) :=
  match t with TNum raw => n ← parse_uint raw; Some (Some n) | TNull => Some None | _ => None end.
Definition read_bool (t : token) : option (option bool) :=
  match t with TBool b => Some (Some b) | TNull => Some None | _ => None end.
Definition read_time (t : token) : option (option time) :=
  match t with
  | TStr _ raw => t ← parse_time_bytes raw; Some (Some t)
  | TNull => Some None
  | _ => None
  end.

(** The field of a struct after all members named [k] were read into it, in order;
    any member of a wrong type makes [Unmarshal] fail. *)
Definition get {A} (read : token → option (option A)) (zero : A) (k : string)
    (ms : list (string * token)) : option A :=
  fold_left (λ acc m, a ← acc;
    if k =s m.1 then
      match read m.2 with Some (Some v) => Some v | Some None => Some a | None => None end
    else Some a) ms (Some zero).

(** ** Progress of the lexer *)
Lemma length_skip_ws l : (length (skip_ws l) ≤ length l)%nat.
Proof. induction l as [|c l IH]; simpl; [lia|]. case_match; simpl; lia. Qed.

Lemma expect_delim_Some d l r :
  expect_delim d l = Some r → skip_ws l = d :: r ∧ (length r < length l)%nat.
Proof.
  unfold expect_delim. pose proof (length_skip_ws l). destruct (skip_ws l) as [|c k] eqn:E; [done|].
  unfold ceq. destruct (Z.eqb_spec (code c) (code d)) as [Hc|]; [|done]. intros [= <-].
  apply code_inj in Hc. subst. simpl in *. split; [done|lia].
Qed.

Lemma scan_string_shorter l s r : scan_string l = Some (s, r) → (length r < length l)%nat.
Proof.
  revert s. induction l as [l IH] using (induction_ltof1 _ (@length ascii)). unfold ltof in IH.
  intros s. destruct l as [|c l]; [done|]. cbn [scan_string]. intros H.
  repeat case_match; simplify_eq; simpl in *; try lia.
  all: match goal with H : scan_string ?k = Some _ |- _ => apply IH in H; simpl in *; lia end.
Qed.

Lemma key_token_shorter first l k r : key_token first l = Some (k, r) → (length r < length l)%nat.
Proof.
  unfold key_token. intros H.
  destruct first; simpl in H.
  - destruct (expect_delim quote l) as [l1|] eqn:E; [|done]. simpl in H.
    apply expect_delim_Some in E as [_ E]. destruct (scan_string l1) as [[raw rest]|] eqn:E1; [|done].
    simplify_eq/=. apply scan_string_shorter in E1. lia.
  - destruct (expect_delim ","%char l) as [l0|] eqn:E0; [|done]. simpl in H.
    apply expect_delim_Some in E0 as [_ E0].
    destruct (expect_delim quote l0) as [l1|] eqn:E; [|done]. simpl in H.
    apply expect_delim_Some in E as [_ E]. destruct (scan_string l1) as [[raw rest]|] eqn:E1; [|done].
    simplify_eq/=. apply scan_string_shorter in E1. lia.
Qed.

Lemma span_digits_app l d r : span_digits l = (d, r) → l = d ++ r.
Proof.
  revert d r. induction l as [|c l IH]; intros d r; simpl; [by intros [= <- <-]|].
  destruct (is_digit c); [|by intros [= <- <-]].
  destruct (span_digits l) as [d' r'] eqn:E. intros [= <- <-]. simpl. f_equal. by apply IH.
Qed.

Lemma scan_int_app l d r : scan_int l = Some (d, r) → l = d ++ r.
Proof.
  unfold scan_int. destruct l as [|c l]; [done|]. repeat case_match; try done.
  - by intros [= <- <-].
  - intros [= H2]. by apply span_digits_app.
Qed.
Lemma scan_frac_app l d r : scan_frac l = Some (d, r) → l = d ++ r.
Proof.
  unfold scan_frac. destruct l as [|c l]; [by intros [= <- <-]|]. case_match; [|by intros [= <- <-]].
  destruct (span_digits l) as [[|x xs] rest] eqn:E; [done|]. apply span_digits_app in E.
  intros [= <- <-]. by rewrite E.
Qed.
Lemma scan_exp_app l d r : scan_exp l = Some (d, r) → l = d ++ r.
Proof.
  unfold scan_exp. destruct l as [|c l]; [by intros [= <- <-]|]. case_match; [|by intros [= <- <-]].
  destruct l as [|s l]; simpl; [done|]. destruct (ceq s "+" || ceq s "-").
  - destruct (span_digits l) as [[|x xs] rest] eqn:E; [done|]. apply span_digits_app in E.
    intros [= <- <-]. by rewrite E.
  - destruct (span_digits (s :: l)) as [[|x xs] rest] eqn:E; [done|]. apply span_digits_app in E.
    intros [= <- <-]. by rewrite E.
Qed.

Lemma scan_number_app l d r : scan_number l = Some (d, r) → l = d ++ r.
Proof.
  unfold scan_number.
  destruct (match l with
            | c :: r0 => if ceq c "-"%char then ([c], r0) else ([], l)
            | [] => ([], l) end) as [sg l1] eqn:E.
  assert (l = sg ++ l1) as -> by (destruct l; [|case_match]; by simplify_eq).
  destruct (scan_int l1) as [[i l2]|] eqn:E1; [|done].
  apply scan_int_app in E1 as ->. cbn [mbind option_bind].
  destruct (scan_frac l2) as [[f l3]|] eqn:E2; [|done].
  apply scan_frac_app in E2 as ->. cbn [mbind option_bind].
  destruct (scan_exp l3) as [[e l4]|] eqn:E3; [|done].
  apply scan_exp_app in E3 as ->. cbn [mbind option_bind]. intros [= <- <-].
  by rewrite !app_assoc.
Qed.

Lemma scan_literal_shorter p t t' l r :
  scan_literal p t l = Some (t', r) → (length r ≤ length l)%nat.
Proof.
  unfold scan_literal. destruct (strip_prefix (bytes_of p) l) as [k|] eqn:E; [|done].
  apply strip_prefix_Some in E as ->. intros [= _ <-]. rewrite length_app. lia.
Qed.

Lemma value_token_shorter l t r : value_token l = Some (t, r) → (length r ≤ length l)%nat.
Proof.
  unfold value_token. destruct l as [|c l]; [done|]. intros H.
  repeat match type of H with (if ?b then _ else _) = _ => destruct b end.
  1: simplify_eq; simpl; lia.
  - destruct (scan_string l) as [[raw rest]|] eqn:E; simplify_eq/=.
    apply scan_string_shorter in E. lia.
  - by apply scan_literal_shorter in H.
  - by apply scan_literal_shorter in H.
  - by apply scan_literal_shorter in H.
  - destruct (scan_number (c :: l)) as [[raw rest]|] eqn:E; [|done]. cbn [mbind option_bind] in H.
    case_match; simplify_eq. apply scan_number_app in E. rewrite E, length_app. lia.
Qed.

Lemma member_token_shorter l t r : member_token l = Some (t, r) → (length r < length l)%nat.
Proof.
  unfold member_token. destruct (expect_delim _ l) as [l1|] eqn:E; [|done]. simpl. intros H.
  apply expect_delim_Some in E as [_ E]. apply value_token_shorter in H.
  pose proof (length_skip_ws l1). lia.
Qed.

(** The bound on the rounds never decides the outcome. *)
Lemma scan_loop_fuel allowed f f' first seen l :
  (length l < f)%nat → (length l < f')%nat →
  scan_loop allowed f first seen l = scan_loop allowed f' first seen l.
Proof.
  revert f' first seen l. induction f as [|f IH]; intros [|f'] first seen l Hf Hf'; try lia.
  cbn [scan_loop]. destruct (More l); [|done].
  destruct (key_token first l) as [[k l1]|] eqn:Ek; [|done]. apply key_token_shorter in Ek.
  cbn [need mbind res_bind]. destruct (mem_str k seen); [done|]. cbn [refuse mbind res_bind].
  destruct (assoc k allowed); [|done]. cbn [need mbind res_bind].
  destruct (member_token l1) as [[v l2]|] eqn:Ev; [|done]. apply member_token_shorter in Ev.
  cbn [need mbind res_bind]. destruct (is_delim v); [done|]. cbn [refuse mbind res_bind].
  destruct (over_bound _ v); [done|]. cbn [refuse mbind res_bind]. apply IH; lia.
Qed.

(** ** What the strict scan guarantees *)
Definition member_ok (allowed : bounds) (m : string * token) : Prop :=
  ∃ max, assoc m.1 allowed = Some max ∧ is_delim m.2 = false ∧
         ∀ s raw, m.2 = TStr s raw → slen s ≤ max.

Lemma scan_loop_members allowed fuel first seen l r :
  scan_loop allowed fuel first seen l = Ok r →
  ∃ ms, members_loop fuel first l = Some (ms, r) ∧
        NoDup (map fst ms) ∧ (∀ k, k ∈ map fst ms → k ∉ seen) ∧ Forall (member_ok allowed) ms.
Proof.
  revert first seen l. induction fuel as [|fuel IH]; intros first seen l H; [done|].
  cbn [scan_loop members_loop] in *. destruct (More l).
  2:{ simplify_eq. exists []. split_and!; [done|constructor|set_solver|constructor]. }
  apply bind_ok in H as ([k l1] & Hk%need_ok & H). apply bind_ok in H as (u & Hs%refuse_ok & H).
  apply bind_ok in H as (max & Hm%need_ok & H). apply bind_ok in H as ([v l2] & Hv%need_ok & H).
  apply bind_ok in H as (u1 & Hd%refuse_ok & H). apply bind_ok in H as (u2 & Ho%refuse_ok & H).
  apply IH in H as (ms & Hms & Hnd & Hseen & HF). exists ((k, v) :: ms).
  rewrite Hk. cbn [mbind option_bind]. rewrite Hv. cbn [mbind option_bind].
  rewrite Hms. cbn [mbind option_bind map fst].
  apply mem_str_false in Hs. split_and!; [done| | |].
  - constructor; [|done]. intros Hin. by apply (Hseen k Hin), elem_of_cons; left.
  - intros k' [->|Hin]%elem_of_cons; [done|]. specialize (Hseen k' Hin). set_solver.
  - constructor; [|done]. exists max. simpl. split_and!; [done|done|].
    intros s raw ->. simpl in Ho. lia.
Qed.

Lemma scanFlatObject_members data allowed :
  scanFlatObject data allowed = Ok tt →
  ∃ ms, flat_members data = Some ms ∧ NoDup (map fst ms) ∧ Forall (member_ok allowed) ms.
Proof.
  unfold scanFlatObject, flat_members. intros H.
  apply bind_ok in H as (l & Hl%need_ok & H). apply bind_ok in H as (l1 & Hs & H).
  apply bind_ok in H as (l2 & Hl2%need_ok & H%refuse_ok).
  apply scan_loop_members in Hs as (ms & Hms & Hnd & _ & HF). exists ms.
  rewrite Hl. cbn [mbind option_bind]. rewrite Hms. cbn [mbind option_bind]. rewrite Hl2.
  cbn [mbind option_bind]. apply negb_false_iff in H. rewrite H. done.
Qed.

(** With unique names a field is read from its only member. *)
Lemma get_skip {A} (read : token → option (option A)) z k ms :
  k ∉ map fst ms → get read z k ms = Some z.
Proof.
  unfold get. induction ms as [|[k' t] ms IH]; [done|]. intros Hn. cbn [fold_left].
  cbn [mbind option_bind fst snd]. cbn [map fst] in Hn.
  rewrite (proj2 (seqb_false k k')) by set_solver. apply IH. set_solver.
Qed.

Lemma get_assoc {A} (read : token → option (option A)) z k ms :
  NoDup (map fst ms) →
  get read z k ms = match assoc k ms with
                    | Some t => match read t with
                                | Some (Some v) => Some v | Some None => Some z | None => None end
                    | None => Some z
                    end.
Proof.
  induction ms as [|[k' t] ms IH]; [done|]. intros [Hk Hnd]%NoDup_cons. cbn [assoc].
  destruct (k =s k') eqn:E.
  - apply seqb_true in E. subst k'. unfold get. cbn [fold_left mbind option_bind fst snd].
    rewrite seqb_refl. destruct (read t) as [[v|]|].
    + apply (get_skip read v k ms Hk).
    + apply (get_skip read z k ms Hk).
    + clear. induction ms as [|m ms IH]; [done|]. apply IH.
  - rewrite <- IH by done. unfold get. cbn [fold_left mbind option_bind fst snd]. by rewrite E.
Qed.

Lemma assoc_map {A B} (f : A → B) k m :
  assoc k (map (λ p, (p.1, f p.2)) m) = f <$> assoc k m.
Proof. induction m as [|[k' a] m IH]; simpl; [done|]. by case_match. Qed.
