(* ===== verification/JsonRoundTrip.v ===== *)
(** * What is marshalled is read back

    The text [Marshal] writes for a flat struct passes the strict scan and its
    members are read back as the values that were written. *)
From S2P Require Import Prelude GoStrings GoTime Encoding Json.
Open Scope Z_scope.

Definition ascii_bytes (l : list ascii) : Prop := Forall (λ c, code c < 128) l.
(** Text of seven-bit characters. *)
Definition ascii_text (s : string) : Prop := ascii_bytes (bytes_of s).
Definition ascii_textb (s : string) : bool := forallb (λ c, code c <? 128) (bytes_of s).
Lemma ascii_textb_true s : ascii_textb s = true → ascii_text s.
Proof.
  unfold ascii_textb, ascii_text, ascii_bytes. rewrite forallb_forall. intros H.
  apply Forall_forall. intros c Hc. apply list_elem_of_In in Hc. specialize (H c Hc). simpl in H. lia.
Qed.

Lemma ceq_true a b : ceq a b = true ↔ a = b.
Proof. unfold ceq. rewrite Z.eqb_eq. split; [apply code_inj|by intros ->]. Qed.
Lemma ceq_refl a : ceq a a = true.
Proof. by apply ceq_true. Qed.

(** ** Strings *)

(** A byte that stands for itself between the quotes. *)
Definition plain (c : ascii) : bool :=
  (32 <=? code c) && (code c <? 128) && negb (ceq c quote) && negb (ceq c backslash).

(** The three forms [escape_ascii] writes. *)
Definition escape_class (c : ascii) : bool :=
  match escape_ascii c with
  | [d] => plain c && ceq d c
  | [b; e] => ceq b backslash && negb (ceq e "u"%char) &&
              match simple_escape e with Some d => ceq d c | None => false end
  | [b; u; z1; z2; h1; h2] =>
      ceq b backslash && ceq u "u"%char &&
      match hex4 z1 z2 h1 h2 with Some v => v =? code c | None => false end
  | _ => false
  end.

Lemma escape_class_ascii c : code c < 128 → escape_class c = true.
Proof.
  intros Hc. rewrite <- (chr_code c). pose proof (code_range c).
  exact (forallb_range (λ v, escape_class (chr v)) 128 (code c) eq_refl ltac:(lia)).
Qed.

Lemma escape_cases c :
  code c < 128 →
  (escape_ascii c = [c] ∧ plain c = true) ∨
  (∃ e, escape_ascii c = [backslash; e] ∧ ceq e "u"%char = false ∧ simple_escape e = Some c) ∨
  (∃ z1 z2 h1 h2, escape_ascii c = [backslash; "u"%char; z1; z2; h1; h2] ∧
     hex4 z1 z2 h1 h2 = Some (code c)).
Proof.
  intros H%escape_class_ascii. unfold escape_class in H.
  destruct (escape_ascii c) as [|a [|b [|x [|y [|z [|w [|]]]]]]]; try done; repeat bool_step.
  - left. apply ceq_true in H0. by subst.
  - right; left. exists b. apply ceq_true in H. subst.
    destruct (simple_escape b) as [d|]; [|done]. apply ceq_true in H0. by subst.
  - right; right. exists x, y, z, w. apply ceq_true in H, H1. subst.
    destruct (hex4 x y z w); [|done]. bool_step. by subst.
Qed.

Lemma plain_facts c :
  plain c = true → ceq c quote = false ∧ (code c <? 32) = false ∧ ceq c backslash = false ∧ code c < 128.
Proof. unfold plain. intros H. repeat bool_step. split_and!; try done. lia. Qed.

Lemma scan_string_plain c l : plain c = true →
  scan_string (c :: l) = match scan_string l with Some (s, r) => Some (c :: s, r) | None => None end.
Proof.
  intros (H1 & H2 & H3 & _)%plain_facts. cbn [scan_string]. by rewrite H1, H2, H3.
Qed.

Lemma unquote_plain c l : plain c = true → unquote 0 (c :: l) = c :: unquote 0 l.
Proof.
  intros (H1 & H2 & H3 & H4)%plain_facts. cbn [unquote]. rewrite H3. unfold utf8_size.
  by rewrite (proj2 (Z.ltb_lt _ _) H4).
Qed.

Lemma scan_escape c l s r :
  code c < 128 → scan_string l = Some (s, r) →
  scan_string (escape_ascii c ++ l) = Some (escape_ascii c ++ s, r).
Proof.
  intros Hc Hl. destruct (escape_cases c Hc) as [[-> Hp]|[(e & -> & Hu & He)|(a & b & x & y & -> & Hx)]].
  - cbn [app]. by rewrite scan_string_plain, Hl.
  - cbn [app scan_string]. change (ceq backslash quote) with false.
    change (code backslash <? 32) with false. rewrite ceq_refl, Hu, He, Hl. done.
  - cbn [app scan_string]. change (ceq backslash quote) with false.
    change (code backslash <? 32) with false. rewrite !ceq_refl, Hx, Hl. done.
Qed.

Lemma unquote_escape c l :
  code c < 128 → unquote 0 (escape_ascii c ++ l) = c :: unquote 0 l.
Proof.
  intros Hc. destruct (escape_cases c Hc) as [[-> Hp]|[(e & -> & Hu & He)|(a & b & x & y & -> & Hx)]].
  - by apply unquote_plain.
  - cbn [app unquote]. rewrite ceq_refl, Hu, He. done.
  - cbn [app unquote]. rewrite !ceq_refl, Hx. pose proof (code_range c).
    rewrite (proj2 (Z.leb_gt 55296 (code c))) by lia. cbn [andb].
    unfold utf8_encode. rewrite (proj2 (Z.ltb_ge (code c) 0)), (proj2 (Z.ltb_ge 1114111 (code c))) by lia.
    rewrite (proj2 (Z.leb_gt 55296 (code c))) by lia. cbn [orb andb].
    rewrite (proj2 (Z.ltb_lt (code c) 128)) by lia. cbn [app]. by rewrite chr_code.
Qed.

Lemma escape_ascii_cons c l :
  code c < 128 → escape true 0 (c :: l) = escape_ascii c ++ escape true 0 l.
Proof. intros Hc. cbn [escape]. by rewrite (proj2 (Z.ltb_lt _ _) Hc). Qed.

Lemma scan_escaped l r :
  ascii_bytes l → scan_string (escape true 0 l ++ quote :: r) = Some (escape true 0 l, r).
Proof.
  intros H. induction H as [|c l Hc _ IH].
  - cbn [escape app scan_string]. by rewrite ceq_refl.
  - rewrite escape_ascii_cons by done. rewrite <- app_assoc. by apply scan_escape.
Qed.

Lemma unquote_escaped l : ascii_bytes l → unquote 0 (escape true 0 l) = l.
Proof.
  intros H. induction H as [|c l Hc _ IH]; [done|].
  rewrite escape_ascii_cons, unquote_escape, IH by done. done.
Qed.

Lemma scan_plain l r :
  Forall (λ c, plain c = true) l → scan_string (l ++ quote :: r) = Some (l, r).
Proof.
  intros H. induction H as [|c l Hc _ IH].
  - cbn [app scan_string]. by rewrite ceq_refl.
  - cbn [app]. by rewrite scan_string_plain, IH.
Qed.
Lemma unquote_plains l : Forall (λ c, plain c = true) l → unquote 0 l = l.
Proof. intros H. induction H as [|c l Hc _ IH]; [done|]. by rewrite unquote_plain, IH. Qed.

(** ** Numbers *)
Definition digit_list (l : list ascii) : Prop := Forall (λ c, is_digit c = true) l.

Lemma dec_value_snoc l c : dec_value (l ++ [c]) = 10 * dec_value l + (code c - 48).
Proof. unfold dec_value. by rewrite fold_left_app. Qed.

Lemma dec_value_digits k n : dec_value (digits k n) = n mod 10 ^ Z.of_nat k.
Proof.
  revert n. induction k as [|k IH]; intros n; [simpl; by rewrite Z.mod_1_r|].
  cbn [digits]. rewrite dec_value_snoc, IH, code_digit.
  rewrite Nat2Z.inj_succ, Z.pow_succ_r, Z.rem_mul_r by lia. lia.
Qed.

Lemma dec_value_cons0 c l : ceq c "0"%char = true → dec_value (c :: l) = dec_value l.
Proof. intros ->%ceq_true. done. Qed.

Lemma strip_zeros_spec l :
  l ≠ [] → digit_list l →
  dec_value (strip_zeros l) = dec_value l ∧ digit_list (strip_zeros l) ∧
  (length (strip_zeros l) ≤ length l)%nat ∧
  ∃ c r, strip_zeros l = c :: r ∧ (ceq c "0"%char = true → r = []).
Proof.
  intros Hne HF. induction HF as [|c l Hc HF IH]; [done|]. cbn [strip_zeros].
  destruct l as [|d l]; [split_and!; [done|by constructor|done|by exists c, []]|].
  destruct (ceq c "0") eqn:E.
  - destruct IH as (H1 & H2 & H3 & H4); [done|]. rewrite dec_value_cons0 by done.
    split_and!; [done|done| |done]. etrans; [exact H3|]. simpl. lia.
  - split_and!; [done|by constructor|done|]. exists c, (d :: l). split; [done|congruence].
Qed.

Lemma decimal_spec n :
  0 ≤ n < 10 ^ 20 →
  dec_value (decimal n) = n ∧ digit_list (decimal n) ∧
  (length (decimal n) ≤ 20)%nat ∧
  ∃ c r, decimal n = c :: r ∧ (ceq c "0"%char = true → r = []).
Proof.
  intros Hn. unfold decimal. pose proof (length_digits 20 n) as Hl.
  destruct (strip_zeros_spec (digits 20 n)) as (H1 & H2 & H3 & H4).
  - intros E. by rewrite E in Hl.
  - apply digits_are_digits.
  - rewrite dec_value_digits, Z.mod_small in H1 by done. rewrite Hl in H3. done.
Qed.

Lemma span_digits_all d r :
  digit_list d → (∀ c r', r = c :: r' → is_digit c = false) → span_digits (d ++ r) = (d, r).
Proof.
  intros Hd Hr. induction Hd as [|c d Hc _ IH]; cbn [app span_digits].
  - destruct r as [|c r]; [done|]. cbn [span_digits]. by rewrite (Hr c r).
  - by rewrite Hc, IH.
Qed.

(** What may follow a value: the end of the text or a separator. *)
Definition sep (r : list ascii) : Prop :=
  match r with [] => True | c :: _ => c = ","%char ∨ c = "}"%char ∨ c = "]"%char end.

Lemma sep_not_digit r c r' : sep r → r = c :: r' → is_digit c = false.
Proof. intros Hr ->. by destruct Hr as [->|[->| ->]]. Qed.

Lemma all_digits_true l : l ≠ [] → digit_list l → all_digits l = true.
Proof.
  intros Hne Hd. unfold all_digits. rewrite bool_decide_eq_true_2 by done. simpl.
  apply forallb_forall. intros x Hx. unfold digit_list in Hd. rewrite Forall_forall in Hd.
  by apply Hd, list_elem_of_In.
Qed.

Lemma digit_not c x : is_digit c = true → is_digit x = false → ceq c x = false.
Proof. intros Hc Hx. destruct (ceq c x) eqn:E; [|done]. apply ceq_true in E. congruence. Qed.

Lemma scan_int_decimal n r :
  0 ≤ n < 10 ^ 20 → (∀ c r', r = c :: r' → is_digit c = false) →
  scan_int (decimal n ++ r) = Some (decimal n, r).
Proof.
  intros Hn Hr. destruct (decimal_spec n Hn) as (_ & Hd & _ & c & k & E & Hz).
  unfold scan_int. rewrite E in *. cbn [app]. destruct (ceq c "0") eqn:Ec.
  - by rewrite Hz.
  - inversion_clear Hd as [|? ? Hc Hk]. rewrite Hc.
    change (c :: k ++ r) with ((c :: k) ++ r). rewrite span_digits_all; [done| |done].
    by constructor.
Qed.

Lemma scan_tail r :
  sep r → scan_frac r = Some ([], r) ∧ scan_exp r = Some ([], r).
Proof. destruct r as [|c r]; [done|]. by intros [->|[->| ->]]. Qed.

Lemma scan_number_decimal n r :
  0 ≤ n < 10 ^ 20 → sep r → scan_number (decimal n ++ r) = Some (decimal n, r).
Proof.
  intros Hn Hr. unfold scan_number.
  destruct (decimal_spec n Hn) as (_ & Hd & _ & c & k & E & _).
  assert ((match decimal n ++ r with
           | c :: r0 => if ceq c "-"%char then ([c], r0) else ([], decimal n ++ r)
           | [] => ([], decimal n ++ r) end) = ([], decimal n ++ r)) as ->.
  { rewrite E in *. cbn [app]. inversion_clear Hd. by rewrite digit_not. }
  rewrite scan_int_decimal by (done || by intros; eapply sep_not_digit).
  cbn [mbind option_bind]. destruct (scan_tail r Hr) as [-> H2]. cbn [mbind option_bind].
  rewrite H2. cbn [mbind option_bind app]. by rewrite app_nil_r.
Qed.

Lemma float_overflows_decimal n :
  0 ≤ n < 10 ^ 20 → float_overflows (decimal n) = false ∧ float_overflows ("-"%char :: decimal n) = false.
Proof.
  intros Hn. destruct (decimal_spec n Hn) as (Hv & Hd & _ & c & k & E & _).
  assert (span_digits (decimal n) = (decimal n, [])) as Hs.
  { rewrite <- (app_nil_r (decimal n)) at 1. by apply span_digits_all. }
  assert (∀ l, l = decimal n → (let '(i, r) := span_digits l in
    let '(f, r) := match r with
                   | c :: r' => if ceq c "."%char then span_digits r' else ([], r)
                   | [] => ([], r) end in
    let e := match r with
             | _ :: s :: r' => if ceq s "-"%char then - dec_value r'
                 else if ceq s "+"%char then dec_value r' else dec_value (s :: r')
             | _ => 0 end in
    let m := dec_value (i ++ f) in let e := e - llen f in
    if m =? 0 then false else if 400 <? e then true
    else if 0 <=? e then float_limit <=? m * 10 ^ e
    else float_limit * 10 ^ (- e) <=? m) = false) as H.
  { intros l ->. rewrite Hs. cbv zeta. rewrite app_nil_r, Hv.
    change (0 - llen []) with 0. cbn [Z.ltb Z.leb Z.compare]. rewrite Z.pow_0_r, Z.mul_1_r.
    assert (10 ^ 20 < float_limit) by (vm_compute; reflexivity).
    destruct (n =? 0); [done|]. apply Z.leb_gt. lia. }
  split; unfold float_overflows; cbv zeta.
  - rewrite E at 1. rewrite E in Hd. inversion_clear Hd.
    rewrite digit_not by done. by apply H.
  - rewrite ceq_refl. by apply H.
Qed.

(** ** Times *)
Definition time_text (l : list ascii) : Prop := Forall (λ c, plain c = true) l.

Lemma plain_digit n : plain (digit n) = true.
Proof.
  assert (code (digit n) = 48 + n mod 10) as E by apply code_digit.
  pose proof (Z.mod_pos_bound n 10). unfold plain, ceq. rewrite E.
  change (code quote) with 34. change (code backslash) with 92. lia.
Qed.

Lemma plain_pad2 n l : time_text l → time_text (pad2 n ++ l).
Proof. intros. repeat (constructor; [apply plain_digit|]). done. Qed.
Lemma plain_pad4 n l : time_text l → time_text (pad4 n ++ l).
Proof. intros. repeat (constructor; [apply plain_digit|]). done. Qed.
Lemma plain_digits k n : time_text (digits k n).
Proof.
  revert n. induction k as [|k IH]; intros n; [constructor|]. cbn [digits].
  apply Forall_snoc. split; [apply IH|apply plain_digit].
Qed.

Lemma plain_stamp s : time_text (stamp s).
Proof.
  unfold stamp. destruct (civil _) as [[y m] d].
  apply plain_pad4; constructor; [done|]. do 4 (apply plain_pad2; constructor; [done|]).
  rewrite <- (app_nil_r (pad2 _)). apply plain_pad2. constructor.
Qed.

Lemma plain_fraction ns : time_text (fraction ns).
Proof.
  unfold fraction. destruct (ns =? 0); constructor; [done|].
  destruct (trimmed_spec (digits 9 ns)) as [n H]. pose proof (plain_digits 9 ns) as HF.
  rewrite H in HF. by apply Forall_app in HF as [? _].
Qed.

Lemma length_fraction ns : (length (fraction ns) ≤ 10)%nat.
Proof.
  unfold fraction. destruct (ns =? 0); cbn [length]; [lia|].
  destruct (trimmed_spec (digits 9 ns)) as [n H]. apply (f_equal length) in H.
  rewrite length_digits, length_app in H. lia.
Qed.

Lemma format_utc_text t :
  zone t = 0 → time_text (format_bytes t) ∧ (length (format_bytes t) ≤ 30)%nat.
Proof.
  intros Hz. rewrite format_utc by done. split.
  - apply Forall_app. split; [apply plain_stamp|]. apply Forall_app. split; [apply plain_fraction|].
    by repeat constructor.
  - rewrite !length_app, length_stamp. pose proof (length_fraction (unix_ns t mod Second)).
    simpl. lia.
Qed.

(** ** Values and members *)
Definition val_token (v : jval) : token :=
  match v with
  | VStr s => TStr s (escape true 0 (bytes_of s))
  | VInt n => TNum (json_int n)
  | VBool b => TBool b
  | VTime t => TStr (of_bytes (format_bytes t)) (format_bytes t)
  end.

(** The values whose text is read back: seven-bit strings, 64-bit integers, UTC
    instants of the four-digit years. *)
Definition val_ok (v : jval) : Prop :=
  match v with
  | VStr s => ascii_text s
  | VInt n => - 2 ^ 63 ≤ n < 2 ^ 64
  | VBool _ => True
  | VTime t => zone t = 0 ∧ in_years t
  end.

Lemma value_token_int n r :
  - 2 ^ 63 ≤ n < 2 ^ 64 → sep r → value_token (json_int n ++ r) = Some (TNum (json_int n), r).
Proof.
  intros Hn Hr. unfold json_int. destruct (Z.ltb_spec n 0) as [Hneg|Hpos].
  - assert (0 ≤ - n < 10 ^ 20) as Hb by lia. unfold value_token. cbn [app].
    assert (scan_number ("-"%char :: decimal (- n) ++ r) = Some ("-"%char :: decimal (- n), r)) as E.
    { unfold scan_number. rewrite ceq_refl.
      rewrite scan_int_decimal by (done || by intros; eapply sep_not_digit).
      cbn [mbind option_bind]. destruct (scan_tail r Hr) as [-> H2]. cbn [mbind option_bind].
      rewrite H2. cbn [mbind option_bind app]. by rewrite app_nil_r. }
    change (ceq "-" "{" || ceq "-" "[") with false. change (ceq "-" quote) with false.
    change (ceq "-" "t") with false. change (ceq "-" "f") with false. change (ceq "-" "n") with false.
    rewrite E. cbn [mbind option_bind]. by rewrite (proj2 (float_overflows_decimal _ Hb)).
  - assert (0 ≤ n < 10 ^ 20) as Hb by lia.
    pose proof (scan_number_decimal n r Hb Hr) as E.
    destruct (decimal_spec n Hb) as (_ & Hd & _ & c & k & Ek & _).
    pose proof (proj1 (float_overflows_decimal _ Hb)) as Ef.
    rewrite Ek in *. unfold value_token. cbn [app] in *. inversion_clear Hd as [|? ? Hc _].
    rewrite !(digit_not c) by done. cbn [orb]. rewrite E. cbn [mbind option_bind]. by rewrite Ef.
Qed.

Lemma value_token_ok v x r :
  val_ok v → json_value v = Ok x → sep r → value_token (x ++ r) = Some (val_token v, r).
Proof.
  intros Hv Hx Hr. destruct v as [s|n|b|t]; cbn [json_value] in Hx.
  - injection Hx as <-. unfold json_string. cbn [app]. rewrite <- app_assoc. cbn [app].
    unfold value_token. change (ceq quote "{" || ceq quote "[") with false. rewrite ceq_refl.
    rewrite scan_escaped by done. cbn [mbind option_bind val_token].
    by rewrite unquote_escaped, of_bytes_of.
  - injection Hx as <-. by apply value_token_int.
  - injection Hx as <-. by destruct b.
  - destruct (time_marshals t); [|done]. apply Ok_inj in Hx as <-. destruct Hv as [Hz Hy].
    destruct (format_utc_text t Hz) as [Hp _]. cbn [val_token].
    generalize dependent (format_bytes t). intros b Hp. cbn [app]. rewrite <- app_assoc. cbn [app].
    unfold value_token. change (ceq quote "{" || ceq quote "[") with false. rewrite ceq_refl.
    rewrite scan_plain by done. cbn [mbind option_bind val_token]. by rewrite unquote_plains.
Qed.

Lemma json_value_front v x r :
  val_ok v → json_value v = Ok x → sep r → skip_ws (x ++ r) = x ++ r.
Proof.
  intros Hv Hx Hr. destruct v as [s|n|b|t]; cbn [json_value] in Hx.
  - by injection Hx as <-.
  - injection Hx as <-. unfold json_int. cbn [val_ok] in Hv. destruct (Z.ltb_spec n 0); [done|].
    destruct (decimal_spec n) as (_ & Hd & _ & c & k & E & _); [lia|]. rewrite E in *.
    inversion_clear Hd as [|? ? Hc _]. cbn [app skip_ws]. unfold is_ws. cbn [existsb].
    by rewrite !(digit_not c).
  - injection Hx as <-. by destruct b.
  - destruct (time_marshals t); [|done]. by apply Ok_inj in Hx as <-.
Qed.

Lemma time_marshals_ok t : zone t = 0 → in_years t → time_marshals t = true.
Proof. intros Hz Hy. unfold time_marshals, in_years in *. rewrite Hz. lia. Qed.

Lemma json_value_total v : val_ok v → ∃ x, json_value v = Ok x.
Proof.
  destruct v as [s|n|b|t]; simpl; [by eexists..|]. intros [Hz Hy].
  rewrite time_marshals_ok by done. by eexists.
Qed.

Lemma expect_delim_here d l : is_ws d = false → expect_delim d (d :: l) = Some l.
Proof. intros H. unfold expect_delim. cbn [skip_ws]. by rewrite H, ceq_refl. Qed.

(** One member, at the front of the text. *)
Lemma key_token_ok k r (first : bool) :
  ascii_text k →
  key_token first ((if first then [] else [","%char]) ++ json_string k ++ r) = Some (k, r).
Proof.
  intros Hk. unfold key_token, json_string.
  assert (expect_delim quote ((quote :: escape true 0 (bytes_of k) ++ [quote]) ++ r) =
          Some (escape true 0 (bytes_of k) ++ quote :: r)) as Eq.
  { cbn [app]. rewrite expect_delim_here by done. by rewrite <- app_assoc. }
  assert (scan_string (escape true 0 (bytes_of k) ++ quote :: r) =
          Some (escape true 0 (bytes_of k), r)) as Es by (by apply scan_escaped).
  destruct first; cbn [app mbind option_bind] in *.
  - rewrite Eq. cbn [mbind option_bind]. rewrite Es. cbn [mbind option_bind].
    by rewrite unquote_escaped, of_bytes_of.
  - rewrite expect_delim_here by done. cbn [mbind option_bind]. rewrite Eq. cbn [mbind option_bind]. rewrite Es.
    cbn [mbind option_bind]. by rewrite unquote_escaped, of_bytes_of.
Qed.

Lemma member_token_ok v x r :
  val_ok v → json_value v = Ok x → sep r →
  member_token (":"%char :: x ++ r) = Some (val_token v, r).
Proof.
  intros Hv Hx Hr. unfold member_token. rewrite expect_delim_here by done. cbn [mbind option_bind].
  rewrite (json_value_front v) by done. by apply value_token_ok.
Qed.

(** ** Objects *)
Definition kv_ok (kv : string * jval) : Prop := ascii_text kv.1 ∧ val_ok kv.2.
Definition kv_token (kv : string * jval) : string * token := (kv.1, val_token kv.2).

(** What [scan_loop] checks of a member. *)
Definition kv_allowed (allowed : bounds) (kv : string * jval) : Prop :=
  ∃ max, assoc kv.1 allowed = Some max ∧ over_bound max (val_token kv.2) = false.

Lemma json_members_total kvs : Forall kv_ok kvs → ∃ x, json_members kvs = Ok x.
Proof.
  intros H. induction H as [|[k v] kvs [Hk Hv] _ [y IH]]; [by eexists|].
  cbn [json_members]. destruct (json_value_total v Hv) as [x Hx]. rewrite Hx, IH. by eexists.
Qed.

Definition obj_tail (first : bool) (kvs : list (string * jval)) (body r : list ascii) : list ascii :=
  (if first then [] else match kvs with [] => [] | _ => [","%char] end) ++ body ++ "}"%char :: r.

Lemma obj_tail_sep kvs body r :
  (kvs = [] → body = []) → sep (obj_tail false kvs body r).
Proof.
  intros H. unfold obj_tail, sep. destruct kvs; [rewrite H by done|]; simpl; auto.
Qed.

Lemma json_members_nil body : json_members [] = Ok body → body = [].
Proof. by intros [= <-]. Qed.

Lemma More_member (first : bool) k r :
  More ((if first then [] else [","%char]) ++ json_string k ++ r) = true.
Proof. by destruct first. Qed.

Lemma More_end r : More ("}"%char :: r) = false.
Proof. done. Qed.

Lemma json_members_cons (first : bool) k v kvs x y r :
  obj_tail first ((k, v) :: kvs)
    (json_string k ++ ":"%char :: x ++ match kvs with [] => y | _ => ","%char :: y end) r =
  (if first then [] else [","%char]) ++ json_string k ++ ":"%char :: x ++ obj_tail false kvs y r.
Proof.
  unfold obj_tail. rewrite <- app_assoc. rewrite <- app_comm_cons, <- app_assoc.
  destruct first, kvs; reflexivity.
Qed.

Lemma members_loop_marshal fuel first kvs body r :
  Forall kv_ok kvs → json_members kvs = Ok body → (length kvs < fuel)%nat →
  members_loop fuel first (obj_tail first kvs body r) = Some (map kv_token kvs, "}"%char :: r).
Proof.
  intros HF. revert fuel first body. induction HF as [|[k v] kvs [Hk Hv] _ IH]; intros fuel first body Hb Hf.
  - apply json_members_nil in Hb as ->. destruct fuel as [|fuel]; [simpl in Hf; lia|].
    destruct first; done.
  - destruct fuel as [|fuel]; [simpl in Hf; lia|]. cbn [json_members] in Hb.
    apply bind_ok in Hb as (x & Hx & Hb). apply bind_ok in Hb as (y & Hy & Hb).
    apply Ok_inj in Hb as <-. rewrite json_members_cons. cbn [members_loop].
    rewrite More_member, key_token_ok by done. cbn [mbind option_bind].
    rewrite (member_token_ok v) by (done || apply obj_tail_sep; intros ->; by apply json_members_nil).
    cbn [mbind option_bind]. rewrite IH by (done || simpl in Hf; lia). done.
Qed.

Lemma scan_loop_marshal allowed fuel first seen kvs body r :
  Forall kv_ok kvs → Forall (kv_allowed allowed) kvs → NoDup (map fst kvs) →
  (∀ k, k ∈ map fst kvs → k ∉ seen) →
  json_members kvs = Ok body → (length kvs < fuel)%nat →
  scan_loop allowed fuel first seen (obj_tail first kvs body r) = Ok ("}"%char :: r).
Proof.
  intros HF. revert fuel first seen body.
  induction HF as [|[k v] kvs [Hk Hv] _ IH]; intros fuel first seen body HA Hnd Hseen Hb Hf.
  - apply json_members_nil in Hb as ->. destruct fuel as [|fuel]; [simpl in Hf; lia|].
    destruct first; done.
  - destruct fuel as [|fuel]; [simpl in Hf; lia|]. cbn [json_members] in Hb.
    apply bind_ok in Hb as (x & Hx & Hb). apply bind_ok in Hb as (y & Hy & Hb).
    apply Ok_inj in Hb as <-. rewrite json_members_cons. cbn [scan_loop].
    inversion_clear HA as [|? ? (max & Ha & Ho) HA']. cbn [map fst] in *.
    apply NoDup_cons in Hnd as [Hk' Hnd].
    rewrite More_member, key_token_ok by done. cbn [need mbind res_bind].
    rewrite (proj2 (mem_str_false k seen)) by (apply Hseen; left). cbn [refuse mbind res_bind].
    rewrite Ha. cbn [need mbind res_bind].
    rewrite (member_token_ok v) by (done || apply obj_tail_sep; intros ->; by apply json_members_nil).
    cbn [need mbind res_bind]. assert (is_delim (val_token v) = false) as -> by (by destruct v).
    cbn [refuse mbind res_bind snd] in *. rewrite Ho. cbn [refuse mbind res_bind].
    apply IH; [done|done| |done|simpl in Hf; lia]. set_solver.
Qed.

Lemma json_members_length kvs body : json_members kvs = Ok body → (length kvs ≤ length body)%nat.
Proof.
  revert body. induction kvs as [|[k v] kvs IH]; intros body Hb; [simpl; lia|].
  cbn [json_members] in Hb. apply bind_ok in Hb as (x & Hx & Hb).
  apply bind_ok in Hb as (y & Hy & Hb). apply Ok_inj in Hb as <-. apply IH in Hy.
  rewrite length_app. unfold json_string. cbn [length]. rewrite !length_app. cbn [length].
  destruct kvs; cbn [length] in *; lia.
Qed.

Lemma expect_open l : expect_delim "{"%char ("{"%char :: l) = Some l.
Proof. done. Qed.
Lemma expect_close : expect_delim "}"%char ["}"%char] = Some [].
Proof. done. Qed.

(** The strict scan accepts what [Marshal] wrote. *)
Lemma scanFlatObject_Marshal allowed kvs data :
  Forall kv_ok kvs → Forall (kv_allowed allowed) kvs → NoDup (map fst kvs) →
  Marshal kvs = Ok data → scanFlatObject data allowed = Ok tt.
Proof.
  intros HF HA Hnd H. unfold Marshal in H. apply bind_ok in H as (body & Hb & H).
  apply Ok_inj in H as <-. unfold scanFlatObject. rewrite bytes_of_of, expect_open.
  cbn [need mbind res_bind]. pose proof (json_members_length _ _ Hb).
  change (body ++ ["}"%char]) with (obj_tail true kvs body []).
  rewrite scan_loop_marshal; [|done|done|done|set_solver|done|unfold obj_tail; rewrite !length_app; simpl; lia].
  cbn [mbind res_bind]. by rewrite expect_close.
Qed.

(** And [flat_members] reads the values back. *)
Lemma flat_members_Marshal kvs data :
  Forall kv_ok kvs → Marshal kvs = Ok data → flat_members data = Some (map kv_token kvs).
Proof.
  intros HF H. unfold Marshal in H. apply bind_ok in H as (body & Hb & H).
  apply Ok_inj in H as <-. unfold flat_members. rewrite bytes_of_of, expect_open.
  cbn [mbind option_bind]. pose proof (json_members_length _ _ Hb).
  change (body ++ ["}"%char]) with (obj_tail true kvs body []).
  rewrite members_loop_marshal; [|done..|unfold obj_tail; rewrite !length_app; simpl; lia].
  cbn [mbind option_bind]. by rewrite expect_close.
Qed.

(** Reading back each type. *)
Lemma read_str_ok s : read_str (val_token (VStr s)) = Some (Some s).
Proof. done. Qed.
Lemma read_bool_ok b : read_bool (val_token (VBool b)) = Some (Some b).
Proof. done. Qed.
Lemma read_uint_ok n : 0 ≤ n < 2 ^ 64 → read_uint (val_token (VInt n)) = Some (Some n).
Proof.
  intros Hn. cbn [val_token read_uint]. unfold json_int, parse_uint.
  rewrite (proj2 (Z.ltb_ge n 0)) by lia.
  destruct (decimal_spec n) as (Hv & Hd & _ & c & k & E & _); [lia|].
  rewrite all_digits_true by (done || by rewrite E). rewrite Hv, (proj2 (Z.ltb_lt _ _)) by lia. done.
Qed.
Lemma read_int_ok n : - 2 ^ 63 ≤ n < 2 ^ 63 → read_int (val_token (VInt n)) = Some (Some n).
Proof.
  intros Hn. cbn [val_token read_int]. unfold json_int, parse_int.
  destruct (Z.ltb_spec n 0).
  - rewrite ceq_refl. destruct (decimal_spec (- n)) as (Hv & Hd & _ & c & k & E & _); [lia|].
    rewrite all_digits_true by (done || by rewrite E). rewrite Hv, (proj2 (Z.leb_le _ _)) by lia.
    cbn [andb mbind option_bind]. by rewrite Z.opp_involutive.
  - destruct (decimal_spec n) as (Hv & Hd & _ & c & k & E & _); [lia|].
    pose proof (all_digits_true (decimal n)) as Ha. rewrite E in *.
    inversion_clear Hd as [|? ? Hc Hk]. rewrite digit_not by done.
    rewrite Ha by (done || by constructor). rewrite Hv, (proj2 (Z.ltb_lt _ _)) by lia. done.
Qed.
Lemma read_time_ok t : zone t = 0 → in_years t → read_time (val_token (VTime t)) = Some (Some t).
Proof.
  intros Hz Hy. cbn [val_token read_time].
  pose proof (ParseTime_RFC3339Nano t Hz Hy) as H. unfold ParseTime, RFC3339Nano in H.
  rewrite bytes_of_of in H. by rewrite H.
Qed.
