(* ===== verification/JsonTree.v ===== *)
(** * JSON values

    What the program uses of [encoding/json] beyond flat objects: the text of nested
    values, the parser behind [json.Unmarshal] and [Decoder.Decode] with its nesting
    limit, and the reading of a value into a Go type, where a struct is read member by
    member into its fields. *)
From S2P Require Import Prelude GoStrings GoTime Encoding Json JsonRoundTrip.
Open Scope Z_scope.

(** A string keeps its raw text, which [time.Time] reads. *)
Inductive json :=
  | JNull
  | JBool (b : bool)
  | JNum (raw : list ascii)
  | JStr (s : string) (raw : list ascii)
  | JArr (l : list json)
  | JObj (l : list (string * json)).

(** ** Writing *)
Fixpoint show (j : json) : list ascii :=
  match j with
  | JNull => bytes_of "null"
  | JBool b => bytes_of (if b then "true" else "false")
  | JNum raw => raw
  | JStr _ raw => quote :: raw ++ [quote]
  | JArr l =>
      "["%char :: (fix elems l := match l with
                   | [] => []
                   | x :: r => show x ++ match r with [] => [] | _ => ","%char :: elems r end
                   end) l ++ ["]"%char]
  | JObj l =>
      "{"%char :: (fix membs l := match l with
                   | [] => []
                   | (k, x) :: r => json_string k ++ ":"%char :: show x
                                    ++ match r with [] => [] | _ => ","%char :: membs r end
                   end) l ++ ["}"%char]
  end.

(** ** Parsing *)
Section containers.
Context (value : list ascii → option (json * list ascii)).

(** After an opening bracket that is not closed at once, and after every comma; each
    round consumes input. *)
Fixpoint parse_elems (fuel : nat) (l : list ascii) : option (list json * list ascii) :=
  match fuel with
  | O => None
  | S fuel =>
      '(x, l) ← value (skip_ws l);
      match skip_ws l with
      | c :: r => if ceq c ","%char then '(xs, r) ← parse_elems fuel r; Some (x :: xs, r)
                  else if ceq c "]"%char then Some ([x], r) else None
      | [] => None
      end
  end.

Definition parse_member (l : list ascii) : option (string * json * list ascii) :=
  l ← expect_delim quote l; '(raw, l) ← scan_string l;
  l ← expect_delim ":"%char l; '(x, l) ← value (skip_ws l);
  Some (of_bytes (unquote 0 raw), x, l).

Fixpoint parse_members (fuel : nat) (l : list ascii) : option (list (string * json) * list ascii) :=
  match fuel with
  | O => None
  | S fuel =>
      '(k, x, l) ← parse_member l;
      match skip_ws l with
      | c :: r => if ceq c ","%char then '(xs, r) ← parse_members fuel r; Some ((k, x) :: xs, r)
                  else if ceq c "}"%char then Some ([(k, x)], r) else None
      | [] => None
      end
  end.

Definition parse_array (l : list ascii) : option (json * list ascii) :=
  match expect_delim "]"%char l with
  | Some r => Some (JArr [], r)
  | None => '(xs, r) ← parse_elems (length l) l; Some (JArr xs, r)
  end.

Definition parse_object (l : list ascii) : option (json * list ascii) :=
  match expect_delim "}"%char l with
  | Some r => Some (JObj [], r)
  | None => '(xs, r) ← parse_members (length l) l; Some (JObj xs, r)
  end.
End containers.

Definition literal (p : string) (j : json) (l : list ascii) : option (json * list ascii) :=
  r ← strip_prefix (bytes_of p) l; Some (j, r).

(** A value at the front of the text; [depth] more brackets may be opened. *)
Fixpoint parse (depth : nat) (l : list ascii) : option (json * list ascii) :=
  match l with
  | [] => None
  | c :: r =>
      if ceq c quote then
        '(raw, r) ← scan_string r; Some (JStr (of_bytes (unquote 0 raw)) raw, r)
      else if ceq c "t"%char then literal "true" (JBool true) l
      else if ceq c "f"%char then literal "false" (JBool false) l
      else if ceq c "n"%char then literal "null" JNull l
      else if ceq c "["%char then
        match depth with O => None | S depth => parse_array (parse depth) r end
      else if ceq c "{"%char then
        match depth with O => None | S depth => parse_object (parse depth) r end
      else '(raw, r) ← scan_number l; Some (JNum raw, r)
  end.

(** [maxNestingDepth] of the scanner. *)
Definition maxNestingDepth : nat := Z.to_nat 10000.

(** [Decoder.Decode] from a buffer: the value and what follows it. *)
Definition decode_value (l : list ascii) : option (json * list ascii) := parse maxNestingDepth (skip_ws l).

(** [json.Unmarshal]: nothing but white space may follow. *)
Definition parse_text (l : list ascii) : option json :=
  '(j, r) ← decode_value l; if bool_decide (skip_ws r = []) then Some j else None.

(** ** Reading into Go types

    [c_take strict j old] is the field after [j] was read into a field holding [old];
    [strict] is [DisallowUnknownFields]. *)
Record codec (A : Type) := mkCodec {
  c_zero : A;
  c_put : A → res json;
  c_take : bool → json → A → option A;
}.
Arguments mkCodec {A}. Arguments c_zero {A}. Arguments c_put {A}. Arguments c_take {A}.

Definition jstr (s : string) : json := JStr s (escape true 0 (bytes_of s)).

Definition string_codec : codec string :=
  mkCodec "" (λ s, Ok (jstr s))
    (λ _ j old, match j with JStr s _ => Some s | JNull => Some old | _ => None end).

Definition bool_codec : codec bool :=
  mkCodec false (λ b, Ok (JBool b))
    (λ _ j old, match j with JBool b => Some b | JNull => Some old | _ => None end).

Definition int_codec : codec Z :=
  mkCodec 0 (λ n, Ok (JNum (json_int n)))
    (λ _ j old, match j with JNum raw => parse_int raw | JNull => Some old | _ => None end).

Definition uint_codec : codec Z :=
  mkCodec 0 (λ n, Ok (JNum (json_int n)))
    (λ _ j old, match j with JNum raw => parse_uint raw | JNull => Some old | _ => None end).

Definition time_codec : codec time :=
  mkCodec zero_time
    (λ t, if time_marshals t then Ok (JStr (of_bytes (format_bytes t)) (format_bytes t))
          else Fail (errorf "Time.MarshalJSON"))
    (λ _ j old, match j with JStr _ raw => parse_time_bytes raw | JNull => Some old | _ => None end).

(** A slice; the empty one is nil, which is written [null]. An element is read into the
    element the slice held at its place, if any. *)
Fixpoint put_elems {A} (c : codec A) (l : list A) : res (list json) :=
  match l with [] => Ok [] | x :: r => j ← c_put c x; js ← put_elems c r; Ok (j :: js) end.
Fixpoint take_elems {A} (c : codec A) (strict : bool) (l : list json) (old : list A) : option (list A) :=
  match l with
  | [] => Some []
  | j :: r => x ← c_take c strict j (default (c_zero c) (head old));
              xs ← take_elems c strict r (tail old); Some (x :: xs)
  end.
Definition slice_codec {A} (c : codec A) : codec (list A) :=
  mkCodec [] (λ l, match l with [] => Ok JNull | _ => js ← put_elems c l; Ok (JArr js) end)
    (λ strict j old, match j with
                     | JArr l => take_elems c strict l old
                     | JNull => Some []
                     | _ => None
                     end).

(** A pointer: [null] resets it, a value is read into what it points to. *)
Definition pointer_codec {A} (c : codec A) : codec (option A) :=
  mkCodec None (λ p, match p with None => Ok JNull | Some a => c_put c a end)
    (λ strict j old, match j with
                     | JNull => Some None
                     | _ => a ← c_take c strict j (default (c_zero c) old); Some (Some a)
                     end).

(** *** Structs *)
Record field (A : Type) := mkField {
  f_type : Type;
  f_codec : codec f_type;
  f_name : string;
  f_get : A → f_type;
  f_set : f_type → A → A;
  (** [omitempty] *)
  f_omit : f_type → bool;
}.
Arguments mkField {A f_type}. Arguments f_type {A}. Arguments f_codec {A}. Arguments f_name {A}.
Arguments f_get {A}. Arguments f_set {A}. Arguments f_omit {A}.

Definition always {V} (_ : V) : bool := false.
Definition empty_str (s : string) : bool := s =s "".
Definition empty_int (n : Z) : bool := n =? 0.
Definition empty_slice {V} (l : list V) : bool := match l with [] => true | _ => false end.
Definition empty_ptr {V} (p : option V) : bool := match p with None => true | Some _ => false end.

(** [foldName]: upper case for letters, and the two runes beyond ASCII that fold to one. *)
Fixpoint fold_name (l : list ascii) : list ascii :=
  match l with
  | a :: r =>
      match r with
      | b :: r' =>
          if (code a =? 197) && (code b =? 191) then "S"%char :: fold_name r'
          else match r' with
               | c :: r'' =>
                   if (code a =? 226) && (code b =? 132) && (code c =? 170) then "K"%char :: fold_name r''
                   else (if is_lower a then chr (code a - 32) else a) :: fold_name r
               | [] => (if is_lower a then chr (code a - 32) else a) :: fold_name r
               end
      | [] => [if is_lower a then chr (code a - 32) else a]
      end
  | [] => []
  end.
Definition fold_eq (a b : string) : bool := bool_decide (fold_name (bytes_of a) = fold_name (bytes_of b)).

(** The field of a member: by its exact name, else by its folded name. *)
Definition find_field {A} (fs : list (field A)) (k : string) : option (field A) :=
  match List.find (λ f, f_name f =s k) fs with
  | Some f => Some f
  | None => List.find (λ f, fold_eq (f_name f) k) fs
  end.

Fixpoint put_fields {A} (fs : list (field A)) (a : A) : res (list (string * json)) :=
  match fs with
  | [] => Ok []
  | f :: fs =>
      if f_omit f (f_get f a) then put_fields fs a
      else j ← c_put (f_codec f) (f_get f a); ms ← put_fields fs a; Ok ((f_name f, j) :: ms)
  end.

Fixpoint take_members {A} (fs : list (field A)) (strict : bool) (ms : list (string * json)) (a : A)
    : option A :=
  match ms with
  | [] => Some a
  | (k, j) :: ms =>
      match find_field fs k with
      | Some f => v ← c_take (f_codec f) strict j (f_get f a); take_members fs strict ms (f_set f v a)
      | None => if strict then None else take_members fs strict ms a
      end
  end.

Definition struct_codec {A} (zero : A) (fs : list (field A)) : codec A :=
  mkCodec zero (λ a, ms ← put_fields fs a; Ok (JObj ms))
    (λ strict j a, match j with
                   | JObj ms => take_members fs strict ms a
                   | JNull => Some a
                   | _ => None
                   end).

(** [json.Marshal] and [json.Unmarshal] of a type. *)
Definition marshal {A} (c : codec A) (a : A) : res string := j ← c_put c a; Ok (of_bytes (show j)).
Definition unmarshal {A} (c : codec A) (s : string) : option A :=
  j ← parse_text (bytes_of s); c_take c false j (c_zero c).

(** ** Parsing what was written *)

(** The raw text of a string that reads as [s]. *)
Definition raw_ok (s : string) (raw : list ascii) : Prop :=
  (∀ r, scan_string (raw ++ quote :: r) = Some (raw, r)) ∧ of_bytes (unquote 0 raw) = s.

(** Values that are read back as they are, with at most [h] brackets open. *)
Inductive shown : nat → json → Prop :=
  | shown_null h : shown h JNull
  | shown_bool h b : shown h (JBool b)
  | shown_num h n : - 2 ^ 63 ≤ n < 2 ^ 64 → shown h (JNum (json_int n))
  | shown_str h s raw : raw_ok s raw → shown h (JStr s raw)
  | shown_arr h l : Forall (shown h) l → shown (S h) (JArr l)
  | shown_obj h l : Forall (λ kx, ascii_text kx.1 ∧ shown h kx.2) l → shown (S h) (JObj l).

Lemma shown_mono h h' j : shown h j → (h ≤ h')%nat → shown h' j.
Proof.
  revert h' j. induction h as [|h IH]; intros h' j Hj Hle; inversion Hj; subst; try by constructor.
  - destruct h' as [|h']; [lia|]. constructor. eapply Forall_impl; [done|]. intros x Hx. apply IH; [done|lia].
  - destruct h' as [|h']; [lia|]. constructor. eapply Forall_impl; [done|].
    intros [k x] [Hk Hx]. split; [done|]. apply IH; [done|lia].
Qed.

Lemma raw_escaped s : ascii_text s → raw_ok s (escape true 0 (bytes_of s)).
Proof.
  intros Hs. split; [intros r; by apply scan_escaped|]. by rewrite unquote_escaped, of_bytes_of.
Qed.

Lemma raw_plain l : Forall (λ c, plain c = true) l → raw_ok (of_bytes l) l.
Proof. intros Hl. split; [intros r; by apply scan_plain|]. by rewrite unquote_plains. Qed.

Definition show_elems : list json → list ascii :=
  fix elems l := match l with
  | [] => []
  | x :: r => show x ++ match r with [] => [] | _ => ","%char :: elems r end
  end.
Definition show_members : list (string * json) → list ascii :=
  fix membs l := match l with
  | [] => []
  | (k, x) :: r => json_string k ++ ":"%char :: show x ++ match r with [] => [] | _ => ","%char :: membs r end
  end.

Lemma show_arr l r : show (JArr l) ++ r = "["%char :: show_elems l ++ "]"%char :: r.
Proof. change (show (JArr l)) with ("["%char :: show_elems l ++ ["]"%char]). by rewrite <- app_comm_cons, <- app_assoc. Qed.
Lemma show_obj l r : show (JObj l) ++ r = "{"%char :: show_members l ++ "}"%char :: r.
Proof. change (show (JObj l)) with ("{"%char :: show_members l ++ ["}"%char]). by rewrite <- app_comm_cons, <- app_assoc. Qed.

(** The first byte of a number. *)
Lemma json_int_front n :
  - 2 ^ 63 ≤ n < 2 ^ 64 → ∃ c l, json_int n = c :: l ∧ (c = "-"%char ∨ is_digit c = true).
Proof.
  intros Hn. unfold json_int. destruct (Z.ltb_spec n 0); [by eexists _, _; split; [|left]|].
  destruct (decimal_spec n) as (_ & Hd & _ & c & k & E & _); [lia|]. rewrite E in *.
  inversion_clear Hd. exists c, k. by split; [|right].
Qed.

Lemma digit_front c :
  c = "-"%char ∨ is_digit c = true →
  is_ws c = false ∧ ceq c "]"%char = false ∧ ceq c "}"%char = false ∧ ceq c quote = false ∧
  ceq c "t"%char = false ∧ ceq c "f"%char = false ∧ ceq c "n"%char = false ∧ ceq c "["%char = false ∧ ceq c "{"%char = false.
Proof.
  intros [->|Hc]; [done|]. split_and!; try by apply digit_not.
  unfold is_ws. cbn [existsb]. by rewrite !(digit_not c).
Qed.

Lemma show_front h j r :
  shown h j → ∃ c l, show j ++ r = c :: l ∧ is_ws c = false ∧ ceq c "]"%char = false ∧ ceq c "}"%char = false.
Proof.
  intros Hj. inversion Hj as [|? []|? n Hn|? s raw|? l|? l]; subst; try by eexists _, _.
  destruct (json_int_front n Hn) as (c & l & E & Hc). exists c, (l ++ r). simpl. rewrite E.
  destruct (digit_front c Hc) as (? & ? & ? & _). done.
Qed.

Lemma skip_show h j r : shown h j → skip_ws (show j ++ r) = show j ++ r.
Proof. intros Hj. destruct (show_front h j r Hj) as (c & l & -> & Hc & _). cbn [skip_ws]. by rewrite Hc. Qed.

Lemma expect_other d c l : is_ws c = false → ceq c d = false → expect_delim d (c :: l) = None.
Proof. intros Hw Hc. unfold expect_delim. cbn [skip_ws]. by rewrite Hw, Hc. Qed.

Lemma show_nonempty h j : shown h j → (0 < length (show j))%nat.
Proof. intros Hj. destruct (show_front h j [] Hj) as (c & l & E & _). rewrite app_nil_r in E. rewrite E. simpl. lia. Qed.

Section containers_facts.
Context (value : list ascii → option (json * list ascii)) (h : nat).
Context (Hvalue : ∀ x r, shown h x → sep r → value (show x ++ r) = Some (x, r)).

Lemma parse_elems_show fuel xs r :
  Forall (shown h) xs → xs ≠ [] → (length xs ≤ fuel)%nat →
  parse_elems value fuel (show_elems xs ++ "]"%char :: r) = Some (xs, r).
Proof.
  intros HF. revert fuel. induction HF as [|x xs Hx HF IH]; intros fuel Hne Hf; [done|].
  destruct fuel as [|fuel]; [simpl in Hf; lia|]. simpl in Hf.
  cbn [parse_elems show_elems]. rewrite <- app_assoc, (skip_show h) by done.
  destruct xs as [|y xs].
  - cbn [app]. rewrite Hvalue; [|done|by right; right]. done.
  - rewrite <- app_comm_cons, Hvalue; [|done|by left]. cbn [mbind option_bind skip_ws]. 
    change (is_ws ","%char) with false. cbn iota. rewrite ceq_refl. rewrite IH; [done|done|lia].
Qed.

Lemma parse_member_show k x r :
  ascii_text k → shown h x → sep r →
  parse_member value (json_string k ++ ":"%char :: show x ++ r) = Some (k, x, r).
Proof.
  intros Hk Hx Hr. unfold parse_member, json_string. rewrite <- app_comm_cons, <- app_assoc. cbn [app].
  rewrite expect_delim_here by done. cbn [mbind option_bind].
  rewrite scan_escaped by done. cbn [mbind option_bind]. rewrite expect_delim_here by done.
  cbn [mbind option_bind]. rewrite (skip_show h), Hvalue by done. cbn [mbind option_bind].
  by rewrite unquote_escaped, of_bytes_of.
Qed.

Lemma parse_members_show fuel xs r :
  Forall (λ kx, ascii_text kx.1 ∧ shown h kx.2) xs → xs ≠ [] → (length xs ≤ fuel)%nat →
  parse_members value fuel (show_members xs ++ "}"%char :: r) = Some (xs, r).
Proof.
  intros HF. revert fuel. induction HF as [|[k x] xs [Hk Hx] HF IH]; intros fuel Hne Hf; [done|].
  destruct fuel as [|fuel]; [simpl in Hf; lia|]. simpl in Hf, Hk, Hx.
  cbn [parse_members show_members]. rewrite <- app_assoc, <- app_comm_cons, <- app_assoc.
  destruct xs as [|y xs].
  - cbn [app]. rewrite parse_member_show; [|done|done|by right; left]. done.
  - rewrite <- app_comm_cons, parse_member_show; [|done|done|by left]. cbn [mbind option_bind skip_ws].
    change (is_ws ","%char) with false. cbn iota. rewrite ceq_refl. rewrite IH; [done|done|lia].
Qed.

Lemma length_show_elems xs : Forall (shown h) xs → (length xs ≤ length (show_elems xs))%nat.
Proof.
  intros HF. induction HF as [|x xs Hx HF IH]; [simpl; lia|]. cbn [show_elems]. pose proof (show_nonempty h x Hx).
  rewrite length_app. destruct xs; cbn [length] in *; lia.
Qed.

Lemma length_show_members xs : (length xs ≤ length (show_members xs))%nat.
Proof.
  induction xs as [|[k x] xs IH]; [simpl; lia|]. cbn [show_members]. unfold json_string.
  destruct xs; repeat (rewrite length_app || cbn [length app] in * ); lia.
Qed.

Lemma parse_array_show xs r :
  Forall (shown h) xs → parse_array value (show_elems xs ++ "]"%char :: r) = Some (JArr xs, r).
Proof.
  intros HF. unfold parse_array. destruct xs as [|x xs]; [done|].
  assert (expect_delim "]"%char (show_elems (x :: xs) ++ "]"%char :: r) = None) as ->.
  { inversion_clear HF as [|? ? Hx _]. cbn [show_elems]. rewrite <- app_assoc.
    destruct (show_front h x ((match xs with [] => [] | _ => ","%char :: show_elems xs end) ++ "]"%char :: r) Hx)
      as (c & l & -> & Hw & Hc & _). by apply expect_other. }
  rewrite parse_elems_show; [done|done|done|]. rewrite length_app. pose proof (length_show_elems _ HF). lia.
Qed.

Lemma parse_object_show xs r :
  Forall (λ kx, ascii_text kx.1 ∧ shown h kx.2) xs →
  parse_object value (show_members xs ++ "}"%char :: r) = Some (JObj xs, r).
Proof.
  intros HF. unfold parse_object. destruct xs as [|[k x] xs]; [done|].
  assert (expect_delim "}"%char (show_members ((k, x) :: xs) ++ "}"%char :: r) = None) as -> by done.
  rewrite parse_members_show; [done|done|done|]. rewrite length_app.
  pose proof (length_show_members ((k, x) :: xs)). lia.
Qed.
End containers_facts.

Lemma parse_number n r depth :
  - 2 ^ 63 ≤ n < 2 ^ 64 → sep r → parse depth (json_int n ++ r) = Some (JNum (json_int n), r).
Proof.
  intros Hn Hr. pose proof (value_token_int n r Hn Hr) as Hv.
  destruct (json_int_front n Hn) as (c & l & E & Hc). rewrite E in *.
  destruct (digit_front c Hc) as (_ & _ & _ & Hq & Ht & Hf & Hnl & Ha & Ho).
  destruct depth; cbn [parse app] in *; rewrite Hq, Ht, Hf, Hnl, Ha, Ho;
    unfold value_token in Hv; rewrite Ho, Ha, Hq, Ht, Hf, Hnl in Hv; cbn [orb] in Hv;
    destruct (scan_number _) as [[raw rest]|]; cbn [mbind option_bind] in *; try done;
    destruct (float_overflows raw); simplify_eq; done.
Qed.

(** Parsing is the inverse of writing. *)
Lemma parse_show h j depth r :
  shown h j → (h ≤ depth)%nat → sep r → parse depth (show j ++ r) = Some (j, r).
Proof.
  revert j depth r. induction h as [|h IH]; intros j depth r Hj Hd Hr; inversion Hj as
    [|? []|? n Hn|? s raw [Hs Hu]|? l HF|? l HF]; subst; try (by destruct depth); try by apply parse_number.
  - destruct depth; cbn [show app parse]; rewrite ceq_refl, <- app_assoc; cbn [app]; by rewrite Hs.
  - destruct depth; cbn [show app parse]; rewrite ceq_refl, <- app_assoc; cbn [app]; by rewrite Hs.
  - destruct depth as [|depth]; [lia|]. rewrite show_arr. cbn [parse].
    change (ceq "[" quote) with false. change (ceq "[" "t") with false. change (ceq "[" "f") with false.
    change (ceq "[" "n") with false. cbn iota. rewrite ceq_refl.
    apply (parse_array_show _ h); [|done]. intros x r' Hx Hr'. apply IH; [done|lia|done].
  - destruct depth as [|depth]; [lia|]. rewrite show_obj. cbn [parse].
    change (ceq "{" quote) with false. change (ceq "{" "t") with false. change (ceq "{" "f") with false.
    change (ceq "{" "n") with false. change (ceq "{" "[") with false. cbn iota. rewrite ceq_refl.
    apply (parse_object_show _ h); [|done]. intros x r' Hx Hr'. apply IH; [done|lia|done].
Qed.

Lemma decode_show h j r :
  shown h j → (h ≤ maxNestingDepth)%nat → sep r → decode_value (show j ++ r) = Some (j, r).
Proof. intros Hj Hh Hr. unfold decode_value. rewrite (skip_show h) by done. by apply (parse_show h). Qed.

Lemma parse_text_show h j : shown h j → (h ≤ maxNestingDepth)%nat → parse_text (show j) = Some j.
Proof.
  intros Hj Hh. unfold parse_text. rewrite <- (app_nil_r (show j)), (decode_show h) by done. done.
Qed.

(** ** Reading what was put *)
Definition reads {A} (c : codec A) (h : nat) (a : A) : Prop :=
  ∃ j, c_put c a = Ok j ∧ shown h j ∧ ∀ strict, c_take c strict j (c_zero c) = Some a.

Lemma reads_mono {A} (c : codec A) h h' a : reads c h a → (h ≤ h')%nat → reads c h' a.
Proof. intros (j & Hp & Hs & Ht) Hh. exists j. split_and!; [done|by eapply shown_mono|done]. Qed.

Lemma reads_string h s : ascii_text s → reads string_codec h s.
Proof. intros Hs. exists (jstr s). split; [done|]. split; [|done]. constructor. by apply raw_escaped. Qed.

Lemma reads_bool h b : reads bool_codec h b.
Proof. exists (JBool b). split; [done|]. split; [constructor|done]. Qed.

Lemma reads_int h n : - 2 ^ 63 ≤ n < 2 ^ 63 → reads int_codec h n.
Proof.
  intros Hn. exists (JNum (json_int n)). split; [done|]. split; [constructor; lia|].
  intros strict. pose proof (read_int_ok n Hn) as E. cbn [val_token read_int] in E.
  cbn [c_take int_codec]. by destruct (parse_int _); simplify_eq/=.
Qed.

Lemma reads_uint h n : 0 ≤ n < 2 ^ 64 → reads uint_codec h n.
Proof.
  intros Hn. exists (JNum (json_int n)). split; [done|]. split; [constructor; lia|].
  intros strict. pose proof (read_uint_ok n Hn) as E. cbn [val_token read_uint] in E.
  cbn [c_take uint_codec]. by destruct (parse_uint _); simplify_eq/=.
Qed.

Lemma reads_time h t : zone t = 0 → in_years t → reads time_codec h t.
Proof.
  intros Hz Hy. exists (JStr (of_bytes (format_bytes t)) (format_bytes t)).
  cbn [c_put time_codec c_take]. rewrite time_marshals_ok by done. split; [done|].
  split; [constructor; by apply raw_plain, format_utc_text|]. intros _.
  pose proof (read_time_ok t Hz Hy) as E. cbn [val_token read_time] in E. by destruct (parse_time_bytes _); simplify_eq/=.
Qed.

Lemma put_elems_reads {A} (c : codec A) h l :
  Forall (reads c h) l →
  ∃ js, put_elems c l = Ok js ∧ Forall (shown h) js ∧ ∀ strict, take_elems c strict js [] = Some l.
Proof.
  induction 1 as [|a l (j & Hp & Hs & Ht) _ (js & Hps & Hss & Hts)]; [by exists []|].
  exists (j :: js). cbn [put_elems take_elems head tail]. rewrite Hp, Hps. split; [done|].
  split; [by constructor|]. intros strict. cbn [default]. by rewrite Ht, Hts.
Qed.

Lemma reads_slice {A} (c : codec A) h l : Forall (reads c h) l → reads (slice_codec c) (S h) l.
Proof.
  intros HF. destruct l as [|a l]; [exists JNull; split; [done|]; split; [constructor|done]|].
  destruct (put_elems_reads c h (a :: l) HF) as (js & Hp & Hs & Ht). exists (JArr js).
  cbn [c_put slice_codec c_take]. rewrite Hp. split; [done|]. split; [by constructor|done].
Qed.

Lemma reads_pointer {A} (c : codec A) h p :
  (∀ a, p = Some a → reads c h a ∧ c_put c a ≠ Ok JNull) → reads (pointer_codec c) h p.
Proof.
  intros Hp. destruct p as [a|]; [|exists JNull; split; [done|]; split; [constructor|done]].
  destruct (Hp a eq_refl) as [(j & Hj & Hs & Ht) Hn]. exists j. split; [done|]. split; [done|].
  intros strict. cbn [c_take pointer_codec c_zero default]. rewrite Ht. by destruct j.
Qed.

(** *** Structs *)
Record struct_shape {A} (zero : A) (fs : list (field A)) : Prop := {
  ss_find : Forall (λ f, find_field fs (f_name f) = Some f ∧ ascii_text (f_name f)) fs;
  ss_set : Forall (λ f, ∀ v a, f_get f (f_set f v a) = v) fs;
  ss_keep : ForallOrdPairs (λ f g, (∀ v a, f_get g (f_set f v a) = f_get g a) ∧
                                   (∀ v a, f_get f (f_set g v a) = f_get f a)) fs;
  ss_zero : Forall (λ f, f_get f zero = c_zero (f_codec f)) fs;
  ss_omit : Forall (λ f, ∀ v, f_omit f v = true → v = c_zero (f_codec f)) fs;
  ss_ext : ∀ a b, Forall (λ f, f_get f a = f_get f b) fs → a = b;
}.

Lemma ordpairs_middle {A} (R : A → A → Prop) l1 x l2 :
  ForallOrdPairs R (l1 ++ x :: l2) → Forall (λ y, R y x) l1 ∧ Forall (R x) l2.
Proof.
  induction l1 as [|y l1 IH]; cbn [app]; inversion 1 as [|? ? HF HP]; subst; [by split|].
  destruct (IH HP) as [H1 H2]. split; [|done]. constructor; [|done].
  by apply Forall_app in HF as [_ [? _]%Forall_cons].
Qed.

Lemma take_put_fields {A} (zero : A) fs h a strict :
  struct_shape zero fs →
  ∀ fs2 fs1 acc, fs = fs1 ++ fs2 →
  Forall (λ f, f_omit f (f_get f a) = true ∨ reads (f_codec f) h (f_get f a)) fs2 →
  Forall (λ f, f_get f acc = f_get f a) fs1 → Forall (λ f, f_get f acc = c_zero (f_codec f)) fs2 →
  ∃ ms, put_fields fs2 a = Ok ms ∧ Forall (λ kx, ascii_text kx.1 ∧ shown h kx.2) ms ∧
    take_members fs strict ms acc = Some a.
Proof.
  intros Hsh fs2. induction fs2 as [|f fs2 IH]; intros fs1 acc Hfs Hr H1 H2.
  { exists []. split; [done|]. split; [constructor|]. cbn [take_members]. f_equal.
    rewrite app_nil_r in Hfs. subst. by apply (ss_ext _ _ Hsh). }
  apply Forall_cons in Hr as [Hf Hr]. apply Forall_cons in H2 as [Hz H2].
  assert (Hin : f ∈ fs) by (rewrite Hfs; set_solver).
  assert (Hfs' : fs = (fs1 ++ [f]) ++ fs2) by (by rewrite <- app_assoc).
  pose proof (proj1 (Forall_forall _ _) (ss_find _ _ Hsh) f Hin) as [Hfind Hname].
  cbn [put_fields]. destruct (f_omit f (f_get f a)) eqn:Eo.
  - apply (IH (fs1 ++ [f]) acc Hfs' Hr); [|done]. apply Forall_app. split; [done|]. constructor; [|done].
    pose proof (proj1 (Forall_forall _ _) (ss_omit _ _ Hsh) f Hin _ Eo). congruence.
  - destruct Hf as [?|(j & Hp & Hs & Ht)]; [done|].
    pose proof (ss_keep _ _ Hsh) as Hk. rewrite Hfs in Hk. apply ordpairs_middle in Hk as [K1 K2].
    destruct (IH (fs1 ++ [f]) (f_set f (f_get f a) acc) Hfs' Hr) as (ms & Hms & Hss & Htm).
    + apply Forall_app. split; [|constructor; [|done]].
      * apply Forall_forall. intros g Hg. rewrite Forall_forall in H1, K1.
        destruct (K1 g Hg) as [_ ->]. by apply H1.
      * by apply (proj1 (Forall_forall _ _) (ss_set _ _ Hsh)).
    + apply Forall_forall. intros g Hg. rewrite Forall_forall in H2, K2.
      destruct (K2 g Hg) as [-> _]. by apply H2.
    + exists ((f_name f, j) :: ms). rewrite Hp, Hms. split; [done|]. split; [by constructor|].
      cbn [take_members]. rewrite Hfind, Hz, Ht. done.
Qed.

Lemma reads_struct {A} (zero : A) fs h a :
  struct_shape zero fs →
  Forall (λ f, f_omit f (f_get f a) = true ∨ reads (f_codec f) h (f_get f a)) fs →
  reads (struct_codec zero fs) (S h) a.
Proof.
  intros Hsh Hr.
  destruct (take_put_fields zero fs h a true Hsh fs [] zero eq_refl Hr (List.Forall_nil _) (ss_zero _ _ Hsh))
    as (ms & Hp & Hs & Ht).
  exists (JObj ms). cbn [c_put struct_codec c_take]. rewrite Hp. split; [done|]. split; [by constructor|].
  intros strict.
  destruct (take_put_fields zero fs h a strict Hsh fs [] zero eq_refl Hr (List.Forall_nil _) (ss_zero _ _ Hsh))
    as (ms' & Hp' & _ & Ht'). assert (ms' = ms) as -> by congruence. done.
Qed.

Lemma struct_not_null {A} (zero : A) fs a : c_put (struct_codec zero fs) a ≠ Ok JNull.
Proof. cbn [c_put struct_codec]. by destruct (put_fields fs a). Qed.

(** [json.Unmarshal] after [json.Marshal]. *)
Lemma unmarshal_marshal {A} (c : codec A) h a :
  reads c h a → (h ≤ maxNestingDepth)%nat → ∃ s, marshal c a = Ok s ∧ unmarshal c s = Some a.
Proof.
  intros (j & Hp & Hs & Ht) Hh. exists (of_bytes (show j)). unfold marshal, unmarshal. rewrite Hp. split; [done|].
  rewrite bytes_of_of, (parse_text_show h) by done. cbn [mbind option_bind]. apply Ht.
Qed.

Lemma maxNestingDepth_small h : (h ≤ 100)%nat → (h ≤ maxNestingDepth)%nat.
Proof. unfold maxNestingDepth. lia. Qed.

(** ** Codecs of records *)
Ltac solve_omit :=
  first [ discriminate | let v := fresh "v" in intros v;
          first [ apply seqb_true | by destruct v | let E := fresh in intros E; by apply Z.eqb_eq in E ] ].

(** Setters are written by projections or by a pattern. *)
Ltac solve_set := first [ reflexivity | intros ? []; reflexivity ].

Ltac solve_shape :=
  constructor;
  [ repeat (constructor; [split; [reflexivity|by apply ascii_textb_true]|]); constructor
  | repeat (constructor; [solve_set|]); constructor
  | repeat (constructor; [repeat (constructor; [split; solve_set|]); constructor|]); constructor
  | repeat (constructor; [reflexivity|]); constructor
  | repeat (constructor; [solve_omit|]); constructor
  | let a := fresh "a" in let b := fresh "b" in let HF := fresh in
    intros a b HF; rewrite !Forall_cons in HF; destruct a, b; cbn in HF; decompose [and] HF; subst; reflexivity ].

Lemma reads_texts h l : Forall ascii_text l → reads (slice_codec string_codec) (S h) l.
Proof. intros Hl. apply reads_slice. eapply Forall_impl; [exact Hl|]. intros s. apply reads_string. Qed.

Create HintDb codecs.
#[export] Hint Resolve reads_string reads_bool reads_int reads_uint reads_time reads_texts : codecs.

(** One field after the other. *)
Ltac solve_reads := repeat (constructor; [right; solve [eauto with codecs]|]); constructor.
