(* ===== verification/Sha256.v ===== *)
(** * SHA-256

    [crypto/sha256].Sum256 on byte strings, with 32-bit words as integers. *)
From S2P Require Import Prelude GoStrings.
Open Scope Z_scope.

Definition w32 (z : Z) : Z := z mod 2 ^ 32.
Definition rotr (n x : Z) : Z := Z.lor (Z.shiftr x n) (w32 (Z.shiftl x (32 - n))).
Definition not32 (x : Z) : Z := Z.lxor x (2 ^ 32 - 1).

Definition Ch (x y z : Z) : Z := Z.lxor (Z.land x y) (Z.land (not32 x) z).
Definition Maj (x y z : Z) : Z := Z.lxor (Z.lxor (Z.land x y) (Z.land x z)) (Z.land y z).
Definition Sigma0 (x : Z) : Z := Z.lxor (Z.lxor (rotr 2 x) (rotr 13 x)) (rotr 22 x).
Definition Sigma1 (x : Z) : Z := Z.lxor (Z.lxor (rotr 6 x) (rotr 11 x)) (rotr 25 x).
Definition sigma0 (x : Z) : Z := Z.lxor (Z.lxor (rotr 7 x) (rotr 18 x)) (Z.shiftr x 3).
Definition sigma1 (x : Z) : Z := Z.lxor (Z.lxor (rotr 17 x) (rotr 19 x)) (Z.shiftr x 10).

Definition round_constants : list Z :=
  [1116352408; 1899447441; 3049323471; 3921009573; 961987163; 1508970993; 2453635748; 2870763221;
   3624381080; 310598401; 607225278; 1426881987; 1925078388; 2162078206; 2614888103; 3248222580;
   3835390401; 4022224774; 264347078; 604807628; 770255983; 1249150122; 1555081692; 1996064986;
   2554220882; 2821834349; 2952996808; 3210313671; 3336571891; 3584528711; 113926993; 338241895;
   666307205; 773529912; 1294757372; 1396182291; 1695183700; 1986661051; 2177026350; 2456956037;
   2730485921; 2820302411; 3259730800; 3345764771; 3516065817; 3600352804; 4094571909; 275423344;
   430227734; 506948616; 659060556; 883997877; 958139571; 1322822218; 1537002063; 1747873779;
   1955562222; 2024104815; 2227730452; 2361852424; 2428436474; 2756734187; 3204031479; 3329325298].

Definition initial_hash : list Z :=
  [1779033703; 3144134277; 1013904242; 2773480762; 1359893119; 2600822924; 528734635; 1541459225].

(** The message schedule, newest word first: 48 words from the 16 of the block. *)
Fixpoint extend (n : nat) (ws : list Z) : list Z :=
  match n with
  | O => ws
  | S n =>
      let w i := nth i ws 0 in
      extend n (w32 (sigma1 (w 1%nat) + w 6%nat + sigma0 (w 14%nat) + w 15%nat) :: ws)
  end.

Definition round (st : list Z) (kw : Z * Z) : list Z :=
  match st with
  | [a; b; c; d; e; f; g; h] =>
      let t1 := h + Sigma1 e + Ch e f g + kw.1 + kw.2 in
      let t2 := Sigma0 a + Maj a b c in
      [w32 (t1 + t2); a; b; c; w32 (d + t1); e; f; g]
  | _ => st
  end.

Definition compress (st block : list Z) : list Z :=
  let ws := reverse (extend 48 (reverse block)) in
  zip_with (λ x y, w32 (x + y)) st (fold_left round (zip round_constants ws) st).

Fixpoint words (l : list Z) : list Z :=
  match l with
  | a :: b :: c :: d :: l => (((a * 256 + b) * 256 + c) * 256 + d) :: words l
  | _ => []
  end.

Fixpoint blocks (n : nat) (ws : list Z) : list (list Z) :=
  match n with O => [] | S n => take 16 ws :: blocks n (drop 16 ws) end.

Fixpoint big_endian (n : nat) (z : Z) : list Z :=
  match n with O => [] | S n => Z.shiftr z (8 * Z.of_nat n) mod 256 :: big_endian n z end.

(** One bit, zeros, and the bit length on 64 bits. *)
Definition pad (l : list Z) : list Z :=
  let zeros := Z.to_nat ((55 - llen l) mod 64) in
  l ++ [128] ++ replicate zeros 0 ++ big_endian 8 (8 * llen l).

Definition sha256 (s : string) : string :=
  let m := pad (map code (bytes_of s)) in
  let st := fold_left compress (blocks (length m / 64) (words m)) initial_hash in
  of_bytes (map chr (concat (map (big_endian 4) st))).

(** ** The digest has 32 bytes *)
Lemma length_big_endian n z : length (big_endian n z) = n.
Proof. induction n; simpl; congruence. Qed.

Lemma length_round st kw : length (round st kw) = length st.
Proof. unfold round. by destruct st as [|? [|? [|? [|? [|? [|? [|? [|? [|]]]]]]]]]. Qed.

Lemma length_compress st b : length (compress st b) = length st.
Proof.
  unfold compress. rewrite length_zip_with.
  assert (∀ kws st, length (fold_left round kws st) = length st) as ->; [|lia].
  intros kws. induction kws as [|kw kws IH]; intros st'; [done|]. cbn [fold_left].
  rewrite IH. apply length_round.
Qed.

Lemma slen_sha256 s : slen (sha256 s) = 32.
Proof.
  unfold sha256. rewrite slen_of_bytes. unfold llen. rewrite length_map. cbv zeta.
  set (bs := blocks _ _). clearbody bs.
  assert (∀ st, length st = 8%nat → length (fold_left compress bs st) = 8%nat) as H.
  { induction bs as [|b bs IH]; intros st Hst; [done|]. cbn [fold_left]. apply IH.
    by rewrite length_compress. }
  specialize (H initial_hash eq_refl).
  destruct (fold_left compress bs initial_hash) as [|? [|? [|? [|? [|? [|? [|? [|? [|]]]]]]]]]; done.
Qed.

(** Test vectors of FIPS 180-4. *)
Definition hex_text (s : string) : list Z := map code (bytes_of s).
Example sha256_abc :
  take 4 (hex_text (sha256 "abc")) = [186; 120; 22; 191].
Proof. vm_compute. reflexivity. Qed.
Example sha256_empty :
  take 4 (hex_text (sha256 "")) = [227; 176; 196; 66].
Proof. vm_compute. reflexivity. Qed.
Example sha256_two_blocks :
  take 4 (hex_text (sha256 "abcdbcdecdefdefgefghfghighijhijkijkljklmklmnlmnomnopnopq")) = [36; 141; 106; 97].
Proof. vm_compute. reflexivity. Qed.
