(* ===== verification/Credentials.v ===== *)
(** * Exact networking credentials

    [internal/accesslease]: keys, identifiers, possession proofs ([sign.go]), the
    bounded decoder ([strict.go]), the Access Lease ([accesslease.go]), the Owner
    Binding ([owner.go]) and the Exact Invite ([invite.go]).

    Ed25519 is an interface; entropy ([crypto/rand]) and the wall clock that
    replaces a zero [now] are arguments. *)
From S2P Require Import Prelude GoStrings GoTime Encoding Json JsonRoundTrip Sha256.
Open Scope Z_scope.

(** ** Ed25519 *)
Class Ed25519 := {
  PrivateKey : Type;
  (** [len] of the private key slice *)
  KeyLen : PrivateKey → Z;
  Public : PrivateKey → string;
  SignMsg : PrivateKey → string → string;
  VerifyMsg : string → string → string → bool;
}.

(** What RFC 8032 promises of key and signature sizes and of honest signatures. *)
Class Ed25519Laws `{Ed25519} : Prop := {
  Key_size k : KeyLen k = 64;
  Public_size k : slen (Public k) = 32;
  SignMsg_size k m : slen (SignMsg k m) = 64;
  VerifyMsg_SignMsg k m : VerifyMsg (Public k) m (SignMsg k m) = true;
}.

Definition PublicKeySize : Z := 32.
Definition PrivateKeySize : Z := 64.
Definition SignatureSize : Z := 64.

(** ** Constants *)
Definition Version : Z := 1.
Definition AccessLeaseType : string := "pipe.open.access".
Definition InviteType : string := "pipe.open.invite".
Definition OwnerBindingType : string := "exact.owner.binding".
Definition MaxBytes : Z := Z.shiftl 48 10.
Definition MaxFieldLen : Z := 4096.
Definition MaxRedemptionAddrLen : Z := 1024.
Definition MaxRedemptionProtocolLen : Z := 128.
Definition MaxPipeIDLen : Z := 256.
Definition MaxClockSkew : duration := 30 * Second.
Definition MaxTTL : duration := 10 * Minute.
Definition MaxRedemptionAddresses : Z := 8.

Definition nul : string := String NUL "".
Definition AccessLeaseSigningDomain : string := "tubo://access-lease/v1" +:+ nul.
Definition OwnerBindingSigningDomain : string := "tubo://exact-owner-binding/v1" +:+ nul.
Definition ExactInviteSigningDomain : string := "tubo://exact-invite/v1" +:+ nul.
Definition OpenProofPurpose : string := "tubo-open-v2".
Definition RedeemProofPurpose : string := "tubo-exact-redeem-v2".
Definition RenewProofPurpose : string := "tubo-exact-renew-v2".

(** ** Keys and identifiers ([sign.go]) *)
Definition PublicString (public : string) : string := base64_encode public.

Definition PublicFromString (value : string) : res string :=
  match decodeCanonicalRawBase64URL value with
  | Ok data => if slen data =? PublicKeySize then Ok data
               else Fail (errorf "accesslease: invalid Ed25519 public key")
  | Fail _ => Fail (errorf "accesslease: invalid Ed25519 public key")
  end.

Definition PipeIDFromOwner (owner : string) : string :=
  "pip_" +:+ ToLower (base32_encode (of_bytes (take 20 (bytes_of (sha256 owner))))).

Definition VerifyPipeOwner (pipeID owner : string) : bool :=
  if (pipeID =s "") || negb (slen owner =? PublicKeySize) then false
  else pipeID =s PipeIDFromOwner owner.

Definition validString (value : string) : bool := (0 <? slen value) && (slen value <=? MaxFieldLen).
Definition validNonEmpty (value : string) (max : Z) : bool := (0 <? slen value) && (slen value <=? max).

(** [rand.Read] into a buffer of the given size, or its error. *)
Definition entropy := res string.

Definition randomID (rnd : entropy) (prefix : string) : res string :=
  value ← rnd; Ok (prefix +:+ base32_encode value).
Definition NewJTI (rnd : entropy) : res string := randomID rnd "jti_".
Definition NewSessionID (rnd : entropy) : res string := randomID rnd "ses_".
Definition RandomChallenge (rnd : entropy) : res string := value ← rnd; Ok (base32_encode value).

Definition decodeSignature (signature : string) : res string :=
  match decodeCanonicalRawBase64URL signature with
  | Ok value => if slen value =? SignatureSize then Ok value
                else Fail (errorf "accesslease: invalid signature encoding")
  | Fail _ => Fail (errorf "accesslease: invalid signature encoding")
  end.

(** ** Possession proofs *)
Definition proof_message (purpose : string) (parts : list string) : string :=
  purpose +:+ nul +:+ Join parts nul.

Definition SignProof `{Ed25519} (private : PrivateKey) (purpose : string) (parts : list string) : string :=
  base64_encode (SignMsg private (proof_message purpose parts)).

Definition VerifyProof `{Ed25519} (public signature purpose : string) (parts : list string) : bool :=
  match decodeSignature signature with
  | Fail _ => false
  | Ok value => VerifyMsg public (proof_message purpose parts) value
  end.

Definition domainBytes (domain payload : string) : string := domain +:+ payload.

(** ** [decodeStrictJSON] *)
Definition decodeStrictJSON (encoded : string) (allowed : bounds) : res string :=
  _ ← refuse (MaxBytes <? slen encoded) (errorf "accesslease: encoded field exceeds bound");
  data ← relabel (decodeCanonicalRawBase64URL encoded) errStrict;
  _ ← refuse (MaxBytes <? slen data) (errorf "accesslease: payload exceeds byte bound");
  _ ← scanFlatObject data allowed;
  Ok data.

(** [base64.RawURLEncoding] of the marshalled members, bounded. *)
Definition encode_bounded (kvs : list (string * jval)) (e : error) : res string :=
  data ← Marshal kvs;
  let encoded := base64_encode data in
  _ ← refuse (MaxBytes <? slen encoded) e;
  Ok encoded.

(** Verification replaces a zero [now] by the wall clock, in UTC. *)
Definition effective_now (now wall : time) : time := UTC (if IsZero now then UTC wall else now).

(** ** The Access Lease *)
Module Lease.
Record AccessLease := mk {
  Version : Z; Type_ : string; Issuer : string; Subject : string; AudiencePipeID : string;
  JTI : string; IssuedAt : time; NotBefore : time; ExpiresAt : time; AccessEpoch : Z;
  Signature : string;
}.

Definition leaseAllowed : bounds :=
  [("audience_pipe_id", MaxPipeIDLen); ("version", MaxFieldLen); ("type", MaxFieldLen);
   ("issuer", MaxFieldLen); ("subject", MaxFieldLen); ("jti", MaxFieldLen);
   ("issued_at", MaxFieldLen); ("not_before", MaxFieldLen); ("expires_at", MaxFieldLen);
   ("access_epoch", MaxFieldLen); ("signature", MaxFieldLen)].

(** The members of [accessLeaseSigning]. *)
Definition accessLeaseSigning (l : AccessLease) : list (string * jval) :=
  [("version", VInt (Version l)); ("type", VStr (Type_ l)); ("issuer", VStr (Issuer l));
   ("subject", VStr (Subject l)); ("audience_pipe_id", VStr (AudiencePipeID l));
   ("jti", VStr (JTI l)); ("issued_at", VTime (IssuedAt l)); ("not_before", VTime (NotBefore l));
   ("expires_at", VTime (ExpiresAt l)); ("access_epoch", VInt (AccessEpoch l))].

Definition members (l : AccessLease) : list (string * jval) :=
  accessLeaseSigning l ++ [("signature", VStr (Signature l))].

Definition signingBody (l : AccessLease) : res string :=
  canonical ← Marshal (accessLeaseSigning l);
  Ok (domainBytes AccessLeaseSigningDomain canonical).

Definition with_issuer (l : AccessLease) (s : string) : AccessLease :=
  mk (Version l) (Type_ l) s (Subject l) (AudiencePipeID l) (JTI l) (IssuedAt l) (NotBefore l)
     (ExpiresAt l) (AccessEpoch l) (Signature l).
Definition with_signature (l : AccessLease) (s : string) : AccessLease :=
  mk (Version l) (Type_ l) (Issuer l) (Subject l) (AudiencePipeID l) (JTI l) (IssuedAt l) (NotBefore l)
     (ExpiresAt l) (AccessEpoch l) s.

Definition Sign `{Ed25519} (l : AccessLease) (private : PrivateKey) : res AccessLease :=
  let l := with_issuer l (PublicString (Public private)) in
  canonical ← signingBody l;
  Ok (with_signature l (PublicString (SignMsg private canonical))).

Definition NewAccessLease `{Ed25519} (rnd : entropy) (private : PrivateKey) (subject pipeID : string)
    (now : time) (lifetime : duration) (accessEpoch : Z) : res AccessLease :=
  _ ← refuse (negb (validString subject) || negb (validString pipeID) || (MaxPipeIDLen <? slen pipeID))
        (errorf "accesslease: invalid subject or pipe");
  _ ← relabel (PublicFromString subject)
        (errorf "accesslease: subject is not a canonical Ed25519 public key");
  _ ← refuse ((lifetime <=? 0) || (MaxTTL <? lifetime))
        (errorf "accesslease: lifetime outside allowed window");
  jti ← NewJTI rnd;
  let now := UTC now in
  Sign (mk Credentials.Version AccessLeaseType "" subject pipeID jti now now (Add now lifetime)
           accessEpoch "") private.

Definition Verify `{Ed25519} (wall : time) (l : AccessLease) (public subject pipeID : string)
    (now : time) : res unit :=
  _ ← refuse (negb (Version l =? Credentials.Version) || (Type_ l <>s AccessLeaseType))
        (errorf "accesslease: wrong kind or version");
  let wantIssuer := PublicString public in
  _ ← refuse ((Issuer l <>s wantIssuer) || negb (validString (Issuer l)) || negb (validString (Subject l))
              || negb (validString (AudiencePipeID l)) || negb (validString (JTI l))
              || negb (HasPrefix (JTI l) "jti_"))
        (errorf "accesslease: invalid identity or metadata");
  _ ← relabel (PublicFromString (Subject l))
        (errorf "accesslease: subject is not a canonical Ed25519 public key");
  _ ← refuse (MaxPipeIDLen <? slen (AudiencePipeID l)) (errorf "accesslease: pipe audience too long");
  _ ← refuse (IsZero (IssuedAt l) || IsZero (NotBefore l) || negb (After (ExpiresAt l) (IssuedAt l)))
        (errorf "accesslease: invalid lifetime");
  let now := effective_now now wall in
  _ ← refuse (After (IssuedAt l) (Add now MaxClockSkew))
        (errorf "accesslease: issued too far in future");
  _ ← refuse (After (NotBefore l) (Add now MaxClockSkew)) (errorf "accesslease: not yet valid");
  _ ← refuse (negb (After (ExpiresAt l) now)) (errorf "accesslease: expired");
  _ ← refuse (MaxTTL <? Sub (ExpiresAt l) (IssuedAt l)) (errorf "accesslease: max TTL exceeded");
  _ ← refuse ((subject <>s "") && (Subject l <>s subject)) (errorf "accesslease: subject mismatch");
  _ ← refuse ((pipeID <>s "") && (AudiencePipeID l <>s pipeID))
        (errorf "accesslease: pipe audience mismatch");
  signature ← decodeSignature (Signature l);
  canonical ← signingBody l;
  refuse (negb (VerifyMsg public canonical signature)) (errorf "accesslease: invalid signature").

Definition Encode (l : AccessLease) : res string :=
  encode_bounded (members l) (errorf "accesslease: exceeds bounded field").

(** [json.Unmarshal] into an [AccessLease]. *)
Definition unmarshal (ms : list (string * token)) : option AccessLease :=
  version ← get read_int 0 "version" ms;
  type ← get read_str "" "type" ms;
  issuer ← get read_str "" "issuer" ms;
  subject ← get read_str "" "subject" ms;
  pipe ← get read_str "" "audience_pipe_id" ms;
  jti ← get read_str "" "jti" ms;
  issued ← get read_time zero_time "issued_at" ms;
  not_before ← get read_time zero_time "not_before" ms;
  expires ← get read_time zero_time "expires_at" ms;
  epoch ← get read_uint 0 "access_epoch" ms;
  signature ← get read_str "" "signature" ms;
  Some (mk version type issuer subject pipe jti issued not_before expires epoch signature).

Definition Decode (encoded : string) : res AccessLease :=
  data ← decodeStrictJSON encoded leaseAllowed;
  need (ms ← flat_members data; unmarshal ms) errStrict.
End Lease.

(** ** The Owner Binding *)
Module Binding.
Record OwnerBinding := mk {
  Version : Z; Type_ : string; Owner : string; AuthorityKey : string; PipeID : string;
  RedemptionPeers : string; RedemptionProtocol : string; Epoch : Z; Signature : string;
}.

Definition ownerBindingAllowed : bounds :=
  [("pipe_id", MaxPipeIDLen); ("redemption_peers", MaxRedemptionAddrLen);
   ("redemption_protocol", MaxRedemptionProtocolLen); ("version", MaxFieldLen);
   ("type", MaxFieldLen); ("owner", MaxFieldLen); ("authority_key", MaxFieldLen);
   ("epoch", MaxFieldLen); ("signature", MaxFieldLen)].

Definition ownerBindingSigning (b : OwnerBinding) : list (string * jval) :=
  [("version", VInt (Version b)); ("type", VStr (Type_ b)); ("owner", VStr (Owner b));
   ("authority_key", VStr (AuthorityKey b)); ("pipe_id", VStr (PipeID b))] ++
  omitempty "redemption_peers" (RedemptionPeers b) ++
  omitempty "redemption_protocol" (RedemptionProtocol b) ++
  [("epoch", VInt (Epoch b))].

Definition members (b : OwnerBinding) : list (string * jval) :=
  ownerBindingSigning b ++ [("signature", VStr (Signature b))].

Definition signingBody (b : OwnerBinding) : res string :=
  canonical ← Marshal (ownerBindingSigning b);
  Ok (domainBytes OwnerBindingSigningDomain canonical).

Definition with_owner (b : OwnerBinding) (s : string) : OwnerBinding :=
  mk (Version b) (Type_ b) s (AuthorityKey b) (PipeID b) (RedemptionPeers b) (RedemptionProtocol b)
     (Epoch b) (Signature b).
Definition with_signature (b : OwnerBinding) (s : string) : OwnerBinding :=
  mk (Version b) (Type_ b) (Owner b) (AuthorityKey b) (PipeID b) (RedemptionPeers b)
     (RedemptionProtocol b) (Epoch b) s.

Definition Sign `{Ed25519} (b : OwnerBinding) (owner : PrivateKey) : res OwnerBinding :=
  let b := with_owner b (PublicString (Public owner)) in
  canonical ← signingBody b;
  Ok (with_signature b (PublicString (SignMsg owner canonical))).

Definition NewOwnerBinding `{Ed25519} (ownerPrivate : PrivateKey) (authorityKey pipeID : string)
    (epoch : Z) (redemptionPeers redemptionProtocol : string) : res OwnerBinding :=
  let owner := Public ownerPrivate in
  _ ← refuse (negb (slen owner =? PublicKeySize)) (errorf "accesslease: invalid owner key");
  _ ← refuse (negb (VerifyPipeOwner pipeID owner))
        (errorf "accesslease: owner cannot bind a foreign Pipe");
  _ ← refuse (negb (validString pipeID) || (MaxPipeIDLen <? slen pipeID))
        (errorf "accesslease: invalid pipe id");
  _ ← refuse (negb (slen authorityKey =? PublicKeySize)) (errorf "accesslease: invalid authority key");
  _ ← refuse ((MaxRedemptionAddresses <? llen (Split redemptionPeers ","%char))
              || (MaxRedemptionAddrLen <? slen redemptionPeers))
        (errorf "accesslease: redemption peers out of bounds");
  _ ← refuse ((redemptionProtocol <>s "") && (MaxRedemptionProtocolLen <? slen redemptionProtocol))
        (errorf "accesslease: redemption protocol out of bounds");
  Sign (mk Credentials.Version OwnerBindingType (PublicString owner) (PublicString authorityKey)
           pipeID redemptionPeers redemptionProtocol epoch "") ownerPrivate.

Definition VerifyOwnerBinding `{Ed25519} (b : OwnerBinding) : res string :=
  _ ← refuse (negb (Version b =? Credentials.Version) || (Type_ b <>s OwnerBindingType))
        (errorf "accesslease: wrong binding kind or version");
  _ ← refuse (negb (validString (Owner b)) || negb (validString (AuthorityKey b))
              || negb (validString (PipeID b)) || (MaxPipeIDLen <? slen (PipeID b)))
        (errorf "accesslease: invalid binding identity or metadata");
  _ ← refuse (MaxRedemptionAddrLen <? slen (RedemptionPeers b))
        (errorf "accesslease: redemption peers out of bounds");
  _ ← refuse ((RedemptionPeers b <>s "")
              && (MaxRedemptionAddresses <? llen (Split (RedemptionPeers b) ","%char)))
        (errorf "accesslease: too many redemption peers");
  _ ← refuse ((RedemptionProtocol b <>s "") && (MaxRedemptionProtocolLen <? slen (RedemptionProtocol b)))
        (errorf "accesslease: redemption protocol out of bounds");
  ownerPub ← PublicFromString (Owner b);
  authorityPub ← PublicFromString (AuthorityKey b);
  _ ← refuse (negb (slen authorityPub =? PublicKeySize)) (errorf "accesslease: invalid authority key");
  signature ← decodeSignature (Signature b);
  canonical ← signingBody b;
  _ ← refuse (negb (VerifyMsg ownerPub canonical signature))
        (errorf "accesslease: invalid owner binding signature");
  Ok ownerPub.

Record OwnerAuthority := mkAuthority {
  oa_Owner : string; oa_AuthorityKey : string; oa_PipeID : string; oa_Epoch : Z }.

Definition VerifyOwnerAuthority `{Ed25519} (b : OwnerBinding) (authorityKey : string)
    : res OwnerAuthority :=
  ownerPub ← VerifyOwnerBinding b;
  _ ← refuse (negb (VerifyPipeOwner (PipeID b) ownerPub))
        (errorf "accesslease: binding owner is not the Pipe owner");
  _ ← refuse ((authorityKey <>s "") && (AuthorityKey b <>s authorityKey))
        (errorf "accesslease: authority key does not match binding");
  Ok (mkAuthority (Owner b) (AuthorityKey b) (PipeID b) (Epoch b)).

Definition EncodeOwnerBinding (b : OwnerBinding) : res string :=
  encode_bounded (members b) (errorf "accesslease: owner binding exceeds bounded field").

Definition unmarshal (ms : list (string * token)) : option OwnerBinding :=
  version ← get read_int 0 "version" ms;
  type ← get read_str "" "type" ms;
  owner ← get read_str "" "owner" ms;
  authority ← get read_str "" "authority_key" ms;
  pipe ← get read_str "" "pipe_id" ms;
  peers ← get read_str "" "redemption_peers" ms;
  protocol ← get read_str "" "redemption_protocol" ms;
  epoch ← get read_uint 0 "epoch" ms;
  signature ← get read_str "" "signature" ms;
  Some (mk version type owner authority pipe peers protocol epoch signature).

Definition DecodeOwnerBinding (encoded : string) : res OwnerBinding :=
  data ← decodeStrictJSON encoded ownerBindingAllowed;
  need (ms ← flat_members data; unmarshal ms) errStrict.
End Binding.

(** ** The Exact Invite *)
Module Invite.
Import Binding (OwnerBinding).

Record ExactInvite := mk {
  Version : Z; Type_ : string; Issuer : string; AudiencePipeID : string; Binding : string;
  JTI : string; IssuedAt : time; NotBefore : time; ExpiresAt : time; AccessEpoch : Z;
  OneTime : bool; Signature : string;
}.

Definition inviteAllowed : bounds :=
  [("audience_pipe_id", MaxPipeIDLen); ("binding", MaxBytes); ("version", MaxFieldLen);
   ("type", MaxFieldLen); ("issuer", MaxFieldLen); ("jti", MaxFieldLen);
   ("issued_at", MaxFieldLen); ("not_before", MaxFieldLen); ("expires_at", MaxFieldLen);
   ("access_epoch", MaxFieldLen); ("one_time", MaxFieldLen); ("signature", MaxFieldLen)].

Definition inviteSigning (i : ExactInvite) : list (string * jval) :=
  [("version", VInt (Version i)); ("type", VStr (Type_ i)); ("issuer", VStr (Issuer i));
   ("audience_pipe_id", VStr (AudiencePipeID i)); ("binding", VStr (Binding i));
   ("jti", VStr (JTI i)); ("issued_at", VTime (IssuedAt i)); ("not_before", VTime (NotBefore i));
   ("expires_at", VTime (ExpiresAt i)); ("access_epoch", VInt (AccessEpoch i));
   ("one_time", VBool (OneTime i))].

Definition members (i : ExactInvite) : list (string * jval) :=
  inviteSigning i ++ [("signature", VStr (Signature i))].

Definition signingBody (i : ExactInvite) : res string :=
  canonical ← Marshal (inviteSigning i);
  Ok (domainBytes ExactInviteSigningDomain canonical).

Definition with_issuer (i : ExactInvite) (s : string) : ExactInvite :=
  mk (Version i) (Type_ i) s (AudiencePipeID i) (Binding i) (JTI i) (IssuedAt i) (NotBefore i)
     (ExpiresAt i) (AccessEpoch i) (OneTime i) (Signature i).
Definition with_signature (i : ExactInvite) (s : string) : ExactInvite :=
  mk (Version i) (Type_ i) (Issuer i) (AudiencePipeID i) (Binding i) (JTI i) (IssuedAt i)
     (NotBefore i) (ExpiresAt i) (AccessEpoch i) (OneTime i) s.

Definition Sign `{Ed25519} (i : ExactInvite) (private : PrivateKey) : res ExactInvite :=
  let i := with_issuer i (PublicString (Public private)) in
  canonical ← signingBody i;
  Ok (with_signature i (PublicString (SignMsg private canonical))).

Definition NewExactInvite `{Ed25519} (rnd : entropy) (private : PrivateKey)
    (bindingOwnerBinding : OwnerBinding) (pipeID : string) (now : time) (lifetime : duration)
    (accessEpoch : Z) : res ExactInvite :=
  let authority := Public private in
  bound ← Binding.VerifyOwnerAuthority bindingOwnerBinding (PublicString authority);
  _ ← refuse (negb (validString pipeID) || (MaxPipeIDLen <? slen pipeID)
              || (Binding.oa_PipeID bound <>s pipeID))
        (errorf "accesslease: binding pipe mismatch");
  bindingEncoded ← Binding.EncodeOwnerBinding bindingOwnerBinding;
  _ ← refuse ((lifetime <=? 0) || (MaxTTL <? lifetime))
        (errorf "accesslease: invite lifetime outside allowed window");
  jti ← NewJTI rnd;
  let now := UTC now in
  Sign (mk Credentials.Version InviteType "" pipeID bindingEncoded jti now now (Add now lifetime)
           accessEpoch true "") private.

Definition Verify `{Ed25519} (wall : time) (i : ExactInvite) (now : time) (pipeID : string) : res unit :=
  _ ← refuse (negb (Version i =? Credentials.Version) || (Type_ i <>s InviteType))
        (errorf "accesslease: wrong invite kind or version");
  _ ← refuse (negb (validString (Issuer i)) || negb (validString (AudiencePipeID i))
              || negb (validString (JTI i)) || negb (HasPrefix (JTI i) "jti_"))
        (errorf "accesslease: invalid invite identity or metadata");
  _ ← refuse (MaxPipeIDLen <? slen (AudiencePipeID i))
        (errorf "accesslease: invite pipe audience too long");
  _ ← refuse ((Binding i =s "") || (MaxBytes <? slen (Binding i)))
        (errorf "accesslease: invite missing owner binding");
  _ ← refuse (negb (OneTime i)) (errorf "accesslease: invite must be one-time");
  _ ← refuse (IsZero (IssuedAt i) || IsZero (NotBefore i) || negb (After (ExpiresAt i) (IssuedAt i)))
        (errorf "accesslease: invalid invite lifetime");
  let now := effective_now now wall in
  _ ← refuse (After (IssuedAt i) (Add now MaxClockSkew))
        (errorf "accesslease: invite issued too far in future");
  _ ← refuse (After (NotBefore i) (Add now MaxClockSkew)) (errorf "accesslease: invite not yet valid");
  _ ← refuse (negb (After (ExpiresAt i) now)) (errorf "accesslease: invite expired");
  _ ← refuse (MaxTTL <? Sub (ExpiresAt i) (IssuedAt i))
        (errorf "accesslease: invite max TTL exceeded");
  _ ← refuse ((pipeID <>s "") && (AudiencePipeID i <>s pipeID))
        (errorf "accesslease: invite pipe audience mismatch");
  binding ← relabel (Binding.DecodeOwnerBinding (Binding i))
        (errorf "accesslease: invite has invalid owner binding");
  ownerPub ← relabel (Binding.VerifyOwnerBinding binding)
        (errorf "accesslease: invite owner binding invalid");
  _ ← refuse (negb (VerifyPipeOwner (AudiencePipeID i) ownerPub))
        (errorf "accesslease: invite owner is not the Pipe owner");
  _ ← refuse (Binding.AuthorityKey binding <>s Issuer i)
        (errorf "accesslease: invite issuer not bound by owner");
  _ ← refuse (Binding.PipeID binding <>s AudiencePipeID i)
        (errorf "accesslease: invite binding pipe mismatch");
  signature ← decodeSignature (Signature i);
  canonical ← signingBody i;
  issuer ← PublicFromString (Issuer i);
  refuse (negb (VerifyMsg issuer canonical signature)) (errorf "accesslease: invalid invite signature").

Definition EncodeInvite (i : ExactInvite) : res string :=
  encode_bounded (members i) (errorf "accesslease: invite exceeds bounded field").

Definition unmarshal (ms : list (string * token)) : option ExactInvite :=
  version ← get read_int 0 "version" ms;
  type ← get read_str "" "type" ms;
  issuer ← get read_str "" "issuer" ms;
  pipe ← get read_str "" "audience_pipe_id" ms;
  binding ← get read_str "" "binding" ms;
  jti ← get read_str "" "jti" ms;
  issued ← get read_time zero_time "issued_at" ms;
  not_before ← get read_time zero_time "not_before" ms;
  expires ← get read_time zero_time "expires_at" ms;
  epoch ← get read_uint 0 "access_epoch" ms;
  one_time ← get read_bool false "one_time" ms;
  signature ← get read_str "" "signature" ms;
  Some (mk version type issuer pipe binding jti issued not_before expires epoch one_time signature).

Definition DecodeInvite (encoded : string) : res ExactInvite :=
  data ← decodeStrictJSON encoded inviteAllowed;
  need (ms ← flat_members data; unmarshal ms) errStrict.
End Invite.
