(* ===== verification/CredentialFacts.v ===== *)
(** * Facts about the exact networking credentials

    Canonical key and signature texts, strict decoding as the inverse of
    encoding, separation of the signing domains, what the signatures cover, and
    what each [Verify] accepts. *)
From S2P Require Import Prelude GoStrings GoTime Encoding Json JsonRoundTrip Sha256 Credentials.
Open Scope Z_scope.

(** ** Canonical texts *)
Lemma sized_nonempty s n : slen s = n → 0 < n → s ≠ "".
Proof. intros H Hn ->. unfold slen in H. simpl in H. lia. Qed.

Lemma PublicFromString_spec value p :
  PublicFromString value = Ok p ↔ value = PublicString p ∧ slen p = PublicKeySize.
Proof.
  unfold PublicFromString, PublicString. split.
  - destruct (decodeCanonicalRawBase64URL value) as [d|] eqn:E; [|done].
    apply decodeCanonical_spec in E as [-> Hd]. destruct (Z.eqb_spec (slen d) PublicKeySize); [|done].
    by intros [= <-].
  - intros [-> Hs]. rewrite (proj2 (decodeCanonical_spec _ p)).
    + by rewrite (proj2 (Z.eqb_eq _ _) Hs).
    + split; [done|]. by apply (sized_nonempty _ _ Hs).
Qed.

Lemma decodeSignature_spec text s :
  decodeSignature text = Ok s ↔ text = PublicString s ∧ slen s = SignatureSize.
Proof.
  unfold decodeSignature, PublicString. split.
  - destruct (decodeCanonicalRawBase64URL text) as [d|] eqn:E; [|done].
    apply decodeCanonical_spec in E as [-> Hd]. destruct (Z.eqb_spec (slen d) SignatureSize); [|done].
    by intros [= <-].
  - intros [-> Hs]. rewrite (proj2 (decodeCanonical_spec _ s)).
    + by rewrite (proj2 (Z.eqb_eq _ _) Hs).
    + split; [done|]. by apply (sized_nonempty _ _ Hs).
Qed.

Lemma slen_PublicString p n : slen p = n → slen (PublicString p) = (8 * n + 5) / 6.
Proof. intros <-. apply slen_base64. Qed.

Lemma validString_len s : 0 < slen s ≤ MaxFieldLen → validString s = true.
Proof. unfold validString. lia. Qed.

Lemma valid_public p : slen p = PublicKeySize → validString (PublicString p) = true.
Proof.
  intros H. apply validString_len. rewrite (slen_PublicString _ _ H). vm_compute. intuition congruence.
Qed.

(** ** Seven-bit texts *)
Lemma ascii_text_app a b : ascii_text a → ascii_text b → ascii_text (a +:+ b).
Proof. unfold ascii_text, ascii_bytes. rewrite bytes_of_app. intros. by apply Forall_app. Qed.

Lemma ascii_base64 d : ascii_text (base64_encode d).
Proof.
  unfold ascii_text, ascii_bytes, base64_encode. rewrite bytes_of_of. apply Forall_map.
  eapply Forall_impl; [by apply (digits_of_range 6); lia|]. intros v Hv.
  pose proof (forallb_range (λ v, code (b64_char v) <? 128) 64 v eq_refl ltac:(simpl in Hv; lia)) as H.
  simpl in H. simpl. lia.
Qed.

Lemma ascii_base32 d : ascii_text (base32_encode d).
Proof.
  unfold ascii_text, ascii_bytes, base32_encode. rewrite bytes_of_of. apply Forall_map.
  eapply Forall_impl; [by apply (digits_of_range 5); lia|]. intros v Hv.
  pose proof (forallb_range (λ v, code (b32_char v) <? 128) 32 v eq_refl ltac:(simpl in Hv; lia)) as H.
  simpl in H. simpl. lia.
Qed.

Lemma ascii_ToLower s : ascii_text s → ascii_text (ToLower s).
Proof.
  unfold ascii_text, ascii_bytes, ToLower. rewrite bytes_of_of. intros H.
  apply Forall_fmap. eapply Forall_impl; [exact H|]. intros c Hc. simpl in *. unfold lower_char.
  destruct (is_upper c) eqn:E; [|done]. unfold is_upper, in_range in E. repeat bool_step.
  rewrite code_chr_small; lia.
Qed.

Lemma ascii_PipeID owner : ascii_text (PipeIDFromOwner owner).
Proof.
  unfold PipeIDFromOwner. apply ascii_text_app; [by apply ascii_textb_true|].
  apply ascii_ToLower, ascii_base32.
Qed.

(** ** Pipe identifiers *)
Lemma slen_ToLower s : slen (ToLower s) = slen s.
Proof. unfold ToLower. rewrite slen_of_bytes, slen_bytes. unfold llen. by rewrite length_fmap. Qed.

Lemma slen_PipeID owner : slen (PipeIDFromOwner owner) = 36.
Proof.
  unfold PipeIDFromOwner. rewrite slen_app, slen_ToLower, slen_base32, slen_of_bytes.
  pose proof (slen_sha256 owner) as H. rewrite slen_bytes in H. unfold llen in *.
  rewrite length_take, Nat.min_l by lia. done.
Qed.

Definition is_b32 (c : ascii) : bool := is_upper c || in_range c 50 55.

Lemma lower_char_inj_b32 a b :
  is_b32 a = true → is_b32 b = true → lower_char a = lower_char b → a = b.
Proof.
  intros Ha Hb H. apply (f_equal code) in H. apply code_inj. revert Ha Hb H.
  unfold is_b32, lower_char, is_upper, in_range. pose proof (code_range a). pose proof (code_range b).
  destruct ((65 <=? code a) && (code a <=? 90)) eqn:Ea, ((65 <=? code b) && (code b <=? 90)) eqn:Eb;
    intros Ha Hb Hc; rewrite ?code_chr_small in Hc by lia; simpl in *; lia.
Qed.

Lemma base32_alphabet d : Forall (λ c, is_b32 c = true) (bytes_of (base32_encode d)).
Proof.
  unfold base32_encode. rewrite bytes_of_of. apply Forall_map.
  eapply Forall_impl; [by apply (digits_of_range 5); lia|]. intros v Hv.
  exact (forallb_range (λ v, is_b32 (b32_char v)) 32 v eq_refl ltac:(simpl in Hv; lia)).
Qed.

Lemma lower_base32_inj a b :
  ToLower (base32_encode a) = ToLower (base32_encode b) → a = b.
Proof.
  intros H. apply base32_encode_inj, bytes_of_inj. unfold ToLower in H. apply of_bytes_inj in H.
  pose proof (base32_alphabet a) as Ha. pose proof (base32_alphabet b) as Hb. revert Hb H.
  generalize (bytes_of (base32_encode b)). induction Ha as [|x xs Hx _ IH]; intros [|y ys] Hb H; try done.
  injection H as H1 H2. inversion_clear Hb. f_equal; [by apply lower_char_inj_b32|by apply IH].
Qed.

Lemma VerifyPipeOwner_true p owner :
  VerifyPipeOwner p owner = true ↔ p = PipeIDFromOwner owner ∧ slen owner = PublicKeySize.
Proof.
  unfold VerifyPipeOwner. destruct (p =s "") eqn:E; simpl.
  - apply seqb_true in E. subst. split; [done|]. intros [H _]. pose proof (slen_PipeID owner) as L.
    by rewrite <- H in L.
  - destruct (Z.eqb_spec (slen owner) PublicKeySize); simpl; [|naive_solver].
    rewrite seqb_true. naive_solver.
Qed.

(** Two owners of one Pipe exhibit a collision of the truncated digest. *)
Lemma PipeID_collision a b :
  PipeIDFromOwner a = PipeIDFromOwner b →
  take 20 (bytes_of (sha256 a)) = take 20 (bytes_of (sha256 b)).
Proof.
  unfold PipeIDFromOwner. intros H%string_app_inj_l. by apply lower_base32_inj, of_bytes_inj in H.
Qed.

(** ** Signing domains

    Every message a key of the system signs starts with one of these prefixes, each
    closed by its only NUL. *)
Definition signing_prefixes : list string :=
  [AccessLeaseSigningDomain; OwnerBindingSigningDomain; ExactInviteSigningDomain;
   OpenProofPurpose +:+ nul; RedeemProofPurpose +:+ nul; RenewProofPurpose +:+ nul].

Lemma prefix_split d m :
  d ∈ signing_prefixes →
  ∃ body, d = body +:+ nul ∧ Cut (d +:+ m) NUL = Some (body, m).
Proof.
  intros Hd. unfold signing_prefixes in Hd.
  assert (∀ body, d = body +:+ nul → ContainsChar body NUL = false →
    ∃ body, d = body +:+ nul ∧ Cut (d +:+ m) NUL = Some (body, m)) as H.
  { intros body Hb Hn. exists body. split; [done|]. apply Cut_Some. split; [|done].
    rewrite Hb. apply bytes_of_inj. rewrite !bytes_of_app, <- app_assoc. done. }
  repeat (apply elem_of_cons in Hd as [->|Hd]; [by eapply H|]).
  by apply elem_of_nil in Hd.
Qed.

Lemma prefixes_separate d1 d2 m1 m2 :
  d1 ∈ signing_prefixes → d2 ∈ signing_prefixes → d1 +:+ m1 = d2 +:+ m2 → d1 = d2 ∧ m1 = m2.
Proof.
  intros (b1 & E1 & C1)%(prefix_split _ m1) (b2 & E2 & C2)%(prefix_split _ m2) H.
  rewrite H, C2 in C1. injection C1 as <- <-. by subst.
Qed.

(** ** Strict decoding of what was encoded *)
Lemma base64_longer d : slen d ≤ slen (base64_encode d).
Proof. rewrite slen_base64. pose proof (slen_nonneg d). lia. Qed.

Lemma Marshal_nonempty kvs data : Marshal kvs = Ok data → data ≠ "".
Proof. unfold Marshal. intros H. res_inv. by destruct x. Qed.

Lemma decodeStrictJSON_encode allowed kvs e enc :
  Forall kv_ok kvs → Forall (kv_allowed allowed) kvs → NoDup (map fst kvs) →
  encode_bounded kvs e = Ok enc →
  ∃ data, decodeStrictJSON enc allowed = Ok data ∧ flat_members data = Some (map kv_token kvs).
Proof.
  intros HF HA Hnd H. unfold encode_bounded in H.
  apply bind_ok in H as (data & Hm & H). cbv zeta in H.
  apply bind_ok in H as (u & Hb%refuse_ok & H). apply Ok_inj in H as <-.
  exists data. split; [|by apply flat_members_Marshal].
  unfold decodeStrictJSON. pass; [done|].
  pass; [apply decodeCanonical_spec; split; [done|by eapply Marshal_nonempty]|].
  pass; [pose proof (base64_longer data); lia|].
  pass; [by eapply scanFlatObject_Marshal|done].
Qed.

Lemma decodeStrictJSON_inv encoded allowed data :
  decodeStrictJSON encoded allowed = Ok data →
  encoded = base64_encode data ∧ slen encoded ≤ MaxBytes ∧
  ∃ ms, flat_members data = Some ms ∧ NoDup (map fst ms) ∧ Forall (member_ok allowed) ms.
Proof.
  unfold decodeStrictJSON. intros H. res_inv.
  match goal with E : decodeCanonicalRawBase64URL _ = _ |- _ =>
    apply decodeCanonical_spec in E as [-> _] end.
  split_and!; [done|done|]. by apply scanFlatObject_members.
Qed.

(** The bound check on a string member. *)
Lemma kv_allowed_str allowed k s max :
  assoc k allowed = Some max → slen s ≤ max → kv_allowed allowed (k, VStr s).
Proof. intros Ha Hs. exists max. split; [done|]. simpl. lia. Qed.
Lemma kv_allowed_time allowed k t :
  assoc k allowed = Some MaxFieldLen → zone t = 0 → kv_allowed allowed (k, VTime t).
Proof.
  intros Ha Hz. exists MaxFieldLen. split; [done|]. cbn [snd val_token over_bound].
  rewrite slen_of_bytes. unfold llen. pose proof (format_utc_text t Hz) as [_ H].
  unfold MaxFieldLen. lia.
Qed.
Lemma kv_allowed_plain allowed k v :
  is_Some (assoc k allowed) → (match v with VInt _ | VBool _ => True | _ => False end) →
  kv_allowed allowed (k, v).
Proof. intros [max Ha] Hv. exists max. split; [done|]. by destruct v. Qed.

(** Fields as the wire form bounds them. *)
Definition text_field (max : Z) (s : string) : Prop := ascii_text s ∧ slen s ≤ max.
Definition time_field (t : time) : Prop := zone t = 0 ∧ in_years t.

Lemma NoDup_decide (l : list string) : bool_decide (NoDup l) = true → NoDup l.
Proof. apply bool_decide_eq_true_1. Qed.

(** Automation for member lists: one goal per member, each solved by its type. *)
Ltac solve_kv :=
  repeat apply Forall_cons_2; try apply Forall_nil_2;
  first [ split; [by apply ascii_textb_true|]; cbn [snd val_ok];
          first [done | lia | by match goal with H : text_field _ _ |- _ => apply H end]
        | eapply kv_allowed_str; [reflexivity|]; by match goal with H : text_field _ _ |- _ => apply H end
        | apply kv_allowed_time; [reflexivity|]; by match goal with H : time_field _ |- _ => apply H end
        | apply kv_allowed_plain; [by eexists|done] ].

(** Reading a field of a struct from its own members. *)
Lemma get_members {A} (read : token → option (option A)) z k kvs :
  NoDup (map fst kvs) →
  get read z k (map kv_token kvs) =
  match assoc k kvs with
  | Some v => match read (val_token v) with
              | Some (Some a) => Some a | Some None => Some z | None => None end
  | None => Some z
  end.
Proof.
  intros Hnd. rewrite get_assoc by (by rewrite map_map).
  change (map kv_token kvs) with (map (λ p : string * jval, (p.1, val_token p.2)) kvs).
  rewrite assoc_map. by destruct (assoc k kvs).
Qed.

(** ** Lease: round trip and coverage of the signature *)
Module LeaseFacts.
Import Lease.

(** The leases whose wire form is exact: seven-bit bounded texts, machine-width
    numbers, UTC instants. *)
Record wire_lease (l : AccessLease) : Prop := {
  wl_version : - 2 ^ 63 ≤ Version l < 2 ^ 63;
  wl_type : text_field MaxFieldLen (Type_ l);
  wl_issuer : text_field MaxFieldLen (Issuer l);
  wl_subject : text_field MaxFieldLen (Subject l);
  wl_pipe : text_field MaxPipeIDLen (AudiencePipeID l);
  wl_jti : text_field MaxFieldLen (JTI l);
  wl_issued : time_field (IssuedAt l);
  wl_not_before : time_field (NotBefore l);
  wl_expires : time_field (ExpiresAt l);
  wl_epoch : 0 ≤ AccessEpoch l < 2 ^ 64;
  wl_signature : text_field MaxFieldLen (Signature l);
}.

Lemma lease_wire_members l :
  wire_lease l → Forall kv_ok (members l) ∧ Forall (kv_allowed leaseAllowed) (members l).
Proof.
  intros [Hv Ht Hi Hs Hp Hj H1 H2 H3 He Hg]. split; unfold members, accessLeaseSigning; cbn [app].
  - solve_kv.
  - solve_kv.
Qed.

Lemma lease_members_nodup l : NoDup (map fst (members l)).
Proof. by apply NoDup_decide. Qed.

Lemma lease_unmarshal_members l : wire_lease l → unmarshal (map kv_token (members l)) = Some l.
Proof.
  intros [Hv Ht Hi Hs Hp Hj [H1 H1'] [H2 H2'] [H3 H3'] He Hg].
  unfold unmarshal. rewrite !get_members by apply lease_members_nodup.
  unfold members, accessLeaseSigning. cbn [app assoc]. eval_seqb. cbv iota.
  rewrite !read_str_ok, !read_time_ok, read_int_ok, read_uint_ok by done.
  by destruct l.
Qed.

Lemma Decode_Encode l e : wire_lease l → Encode l = Ok e → Decode e = Ok l.
Proof.
  intros Hw He. destruct (lease_wire_members l Hw) as [HF HA].
  destruct (decodeStrictJSON_encode leaseAllowed _ _ _ HF HA (lease_members_nodup l) He) as (d & Hd & Hm).
  unfold Decode. rewrite Hd. cbn [mbind res_bind]. rewrite Hm. cbn [mbind option_bind].
  by rewrite lease_unmarshal_members.
Qed.

Lemma lease_wire_signing l : wire_lease l → Forall kv_ok (accessLeaseSigning l).
Proof. intros H. destruct (lease_wire_members l H) as [F _]. by apply Forall_app in F as [? _]. Qed.

Lemma lease_unmarshal_signing l :
  wire_lease l → unmarshal (map kv_token (accessLeaseSigning l)) = Some (with_signature l "").
Proof.
  intros [Hv Ht Hi Hs Hp Hj [H1 H1'] [H2 H2'] [H3 H3'] He Hg].
  assert (NoDup (map fst (accessLeaseSigning l))) as Hnd by (by apply NoDup_decide).
  unfold unmarshal. rewrite !get_members by done.
  unfold accessLeaseSigning. cbn [app assoc]. eval_seqb. cbv iota.
  by rewrite !read_str_ok, !read_time_ok, read_int_ok, read_uint_ok by done.
Qed.

(** The signed bytes determine every signed field. *)
Lemma lease_signingBody_inj l l' b :
  wire_lease l → wire_lease l' → signingBody l = Ok b → signingBody l' = Ok b →
  with_signature l "" = with_signature l' "".
Proof.
  intros Hl Hl' (c & Hc & H)%bind_ok (c' & Hc' & H')%bind_ok.
  apply Ok_inj in H as <-. apply Ok_inj, string_app_inj_l in H' as ->.
  pose proof (flat_members_Marshal _ _ (lease_wire_signing l Hl) Hc) as M.
  rewrite (flat_members_Marshal _ _ (lease_wire_signing l' Hl') Hc') in M. apply (inj Some) in M.
  apply (inj Some). rewrite <- !lease_unmarshal_signing by done. by rewrite M.
Qed.
End LeaseFacts.

(** ** Owner Binding: the same *)
Module BindingFacts.
Import Binding.

Record wire_binding (b : OwnerBinding) : Prop := {
  wb_version : - 2 ^ 63 ≤ Version b < 2 ^ 63;
  wb_type : text_field MaxFieldLen (Type_ b);
  wb_owner : text_field MaxFieldLen (Owner b);
  wb_authority : text_field MaxFieldLen (AuthorityKey b);
  wb_pipe : text_field MaxPipeIDLen (PipeID b);
  wb_peers : text_field MaxRedemptionAddrLen (RedemptionPeers b);
  wb_protocol : text_field MaxRedemptionProtocolLen (RedemptionProtocol b);
  wb_epoch : 0 ≤ Epoch b < 2 ^ 64;
  wb_signature : text_field MaxFieldLen (Signature b);
}.

Lemma binding_wire_members b :
  wire_binding b →
  Forall kv_ok (members b) ∧ Forall (kv_allowed ownerBindingAllowed) (members b) ∧
  NoDup (map fst (members b)).
Proof.
  intros [Hv Ht Ho Ha Hp H1 H2 He Hg]. unfold members, ownerBindingSigning, omitempty.
  destruct (RedemptionPeers b =s ""), (RedemptionProtocol b =s ""); cbn [app];
    (split_and!; [solve_kv|solve_kv|by apply NoDup_decide]).
Qed.

Lemma binding_unmarshal_gen b kvs sig :
  wire_binding b → NoDup (map fst kvs) →
  (kvs = members b ∧ sig = Signature b ∨ kvs = ownerBindingSigning b ∧ sig = "") →
  unmarshal (map kv_token kvs) = Some (with_signature b sig).
Proof.
  intros [Hv Ht Ho Ha Hp H1 H2 He Hg] Hnd Hk. unfold unmarshal. rewrite !get_members by done.
  destruct Hk as [[-> ->]|[-> ->]]; unfold members, ownerBindingSigning, omitempty;
    destruct (RedemptionPeers b =s "") eqn:E1, (RedemptionProtocol b =s "") eqn:E2;
    cbn [app assoc]; eval_seqb; cbv iota;
    rewrite !read_str_ok, read_int_ok, read_uint_ok by done;
    rewrite ?seqb_true in *; unfold with_signature; rewrite ?E1, ?E2; done.
Qed.

Lemma DecodeOwnerBinding_Encode b e :
  wire_binding b → EncodeOwnerBinding b = Ok e → DecodeOwnerBinding e = Ok b.
Proof.
  intros Hw He. destruct (binding_wire_members b Hw) as (HF & HA & Hnd).
  destruct (decodeStrictJSON_encode ownerBindingAllowed _ _ _ HF HA Hnd He) as (d & Hd & Hm).
  unfold DecodeOwnerBinding. rewrite Hd. cbn [mbind res_bind]. rewrite Hm. cbn [mbind option_bind].
  rewrite (binding_unmarshal_gen b _ (Signature b)); [|done|done|by left]. by destruct b.
Qed.

Lemma binding_signingBody_inj b b' m :
  wire_binding b → wire_binding b' → signingBody b = Ok m → signingBody b' = Ok m →
  with_signature b "" = with_signature b' "".
Proof.
  intros Hb Hb' (c & Hc & H)%bind_ok (c' & Hc' & H')%bind_ok.
  apply Ok_inj in H as <-. apply Ok_inj, string_app_inj_l in H' as ->.
  destruct (binding_wire_members b Hb) as (HF & _ & Hnd), (binding_wire_members b' Hb') as (HF' & _ & Hnd').
  unfold members in HF, HF', Hnd, Hnd'. rewrite map_app in Hnd, Hnd'.
  apply Forall_app in HF as [HF _], HF' as [HF' _].
  apply NoDup_app in Hnd as [Hnd _], Hnd' as [Hnd' _].
  pose proof (flat_members_Marshal _ _ HF Hc) as M.
  rewrite (flat_members_Marshal _ _ HF' Hc') in M. apply (inj Some) in M. apply (inj Some).
  rewrite <- (binding_unmarshal_gen b (ownerBindingSigning b)), <- (binding_unmarshal_gen b' (ownerBindingSigning b'))
    by auto. by rewrite M.
Qed.
End BindingFacts.

(** ** Exact Invite: the same *)
Module InviteFacts.
Import Invite.

Record wire_invite (i : ExactInvite) : Prop := {
  wi_version : - 2 ^ 63 ≤ Version i < 2 ^ 63;
  wi_type : text_field MaxFieldLen (Type_ i);
  wi_issuer : text_field MaxFieldLen (Issuer i);
  wi_pipe : text_field MaxPipeIDLen (AudiencePipeID i);
  wi_binding : text_field MaxBytes (Binding i);
  wi_jti : text_field MaxFieldLen (JTI i);
  wi_issued : time_field (IssuedAt i);
  wi_not_before : time_field (NotBefore i);
  wi_expires : time_field (ExpiresAt i);
  wi_epoch : 0 ≤ AccessEpoch i < 2 ^ 64;
  wi_signature : text_field MaxFieldLen (Signature i);
}.

Lemma invite_wire_members i :
  wire_invite i → Forall kv_ok (members i) ∧ Forall (kv_allowed inviteAllowed) (members i).
Proof.
  intros [Hv Ht Hi Hp Hb Hj H1 H2 H3 He Hg]. split; unfold members, inviteSigning; cbn [app]; solve_kv.
Qed.

Lemma invite_members_nodup i : NoDup (map fst (members i)).
Proof. by apply NoDup_decide. Qed.

Lemma invite_unmarshal_gen i kvs sig :
  wire_invite i → 
  (kvs = members i ∧ sig = Signature i ∨ kvs = inviteSigning i ∧ sig = "") →
  unmarshal (map kv_token kvs) = Some (with_signature i sig).
Proof.
  intros [Hv Ht Hi Hp Hb Hj [H1 H1'] [H2 H2'] [H3 H3'] He Hg] Hk.
  assert (NoDup (map fst kvs)) as Hnd by (destruct Hk as [[-> _]|[-> _]]; by apply NoDup_decide).
  unfold unmarshal. rewrite !get_members by done.
  destruct Hk as [[-> ->]|[-> ->]]; unfold members, inviteSigning; cbn [app assoc]; eval_seqb; cbv iota;
    rewrite !read_str_ok, !read_time_ok, read_int_ok, read_uint_ok, read_bool_ok by done; done.
Qed.

Lemma DecodeInvite_Encode i e : wire_invite i → EncodeInvite i = Ok e → DecodeInvite e = Ok i.
Proof.
  intros Hw He. destruct (invite_wire_members i Hw) as (HF & HA).
  destruct (decodeStrictJSON_encode inviteAllowed _ _ _ HF HA (invite_members_nodup i) He) as (d & Hd & Hm).
  unfold DecodeInvite. rewrite Hd. cbn [mbind res_bind]. rewrite Hm. cbn [mbind option_bind].
  rewrite (invite_unmarshal_gen i _ (Signature i)); [|done|by left]. by destruct i.
Qed.

Lemma invite_signingBody_inj i i' m :
  wire_invite i → wire_invite i' → signingBody i = Ok m → signingBody i' = Ok m →
  with_signature i "" = with_signature i' "".
Proof.
  intros Hi Hi' (c & Hc & H)%bind_ok (c' & Hc' & H')%bind_ok.
  apply Ok_inj in H as <-. apply Ok_inj, string_app_inj_l in H' as ->.
  destruct (invite_wire_members i Hi) as (HF & _), (invite_wire_members i' Hi') as (HF' & _).
  unfold members in HF, HF'. apply Forall_app in HF as [HF _], HF' as [HF' _].
  pose proof (flat_members_Marshal _ _ HF Hc) as M.
  rewrite (flat_members_Marshal _ _ HF' Hc') in M. apply (inj Some) in M. apply (inj Some).
  rewrite <- (invite_unmarshal_gen i (inviteSigning i)), <- (invite_unmarshal_gen i' (inviteSigning i')) by auto.
  by rewrite M.
Qed.
End InviteFacts.
