(* ===== verification/CredentialVerify.v ===== *)
(** * What the credential verifiers accept

    Declarative acceptance conditions for leases, owner bindings and invites, the
    equivalence of [Verify] with them, and minting as the source of accepted
    credentials. *)
From S2P Require Import Prelude GoStrings GoTime Encoding Json JsonRoundTrip Sha256.
From S2P Require Import Credentials CredentialFacts.
Open Scope Z_scope.

(** ** Validity windows *)
Record in_window (issued not_before expires now : time) : Prop := {
  w_issued_set : IsZero issued = false;
  w_not_before_set : IsZero not_before = false;
  w_issued : unix_ns issued ≤ unix_ns now + MaxClockSkew;
  w_not_before : unix_ns not_before ≤ unix_ns now + MaxClockSkew;
  w_expires : unix_ns now < unix_ns expires;
  w_order : unix_ns issued < unix_ns expires;
  w_ttl : unix_ns expires - unix_ns issued ≤ MaxTTL;
}.

Lemma Sub_ttl e i : (MaxTTL <? Sub e i) = false ↔ unix_ns e - unix_ns i ≤ MaxTTL.
Proof.
  unfold Sub, max_duration, min_duration. assert (0 < MaxTTL < 2 ^ 63 - 1) by done. lia.
Qed.

(** Instants at which one window accepts are less than the lifetime bound and the
    clock skew apart. *)
Lemma window_span i n e t1 t2 :
  in_window i n e t1 → in_window i n e t2 → unix_ns t2 - unix_ns t1 < MaxTTL + MaxClockSkew.
Proof. intros [] []. lia. Qed.

(** The five time checks of a verifier, from a window. *)
Lemma window_checks i n e now :
  in_window i n e now ↔
  (IsZero i || IsZero n || negb (After e i)) = false ∧
  After i (Add now MaxClockSkew) = false ∧ After n (Add now MaxClockSkew) = false ∧
  negb (After e now) = false ∧ (MaxTTL <? Sub e i) = false.
Proof.
  rewrite Sub_ttl. unfold After, Add; cbn [unix_ns]. split.
  - intros [Hi Hn ? ? ? ? ?]. rewrite Hi, Hn. cbn [orb]. lia.
  - intros (H1 & H2 & H3 & H4 & H5). repeat bool_step. constructor; try done; lia.
Qed.

(** Reassembles guards that [res_inv] took apart. *)
Ltac by_checks :=
  repeat match goal with
         | |- _ ∧ _ => split
         | |- (_ || _) = false => apply orb_false_iff
         | |- negb _ = false => apply negb_false_iff
         end;
  first [assumption | apply Z.ltb_ge; assumption | apply Z.leb_gt; assumption].

(** Optional pins: an empty pin accepts anything. *)
Lemma pin_spec pin s : ((pin <>s "") && (s <>s pin)) = false ↔ (pin ≠ "" → s = pin).
Proof.
  rewrite andb_false_iff, !negb_false_iff, !seqb_true.
  destruct (decide (pin = "")); naive_solver.
Qed.

(** A signature text over some canonical bytes. *)
Definition signed_by `{Ed25519} (public : string) (body : res string) (signature : string) : Prop :=
  ∃ s m, signature = PublicString s ∧ slen s = SignatureSize ∧ body = Ok m ∧ VerifyMsg public m s = true.

Definition canonical_key (text : string) : Prop := ∃ p, text = PublicString p ∧ slen p = PublicKeySize.

(** ** Access Lease *)
Record lease_accepts `{Ed25519} (l : Lease.AccessLease) (public subject pipeID : string) (now : time) : Prop := {
  la_kind : Lease.Version l = Version ∧ Lease.Type_ l = AccessLeaseType;
  la_issuer : Lease.Issuer l = PublicString public ∧ validString (Lease.Issuer l) = true;
  la_subject : canonical_key (Lease.Subject l) ∧ validString (Lease.Subject l) = true;
  la_pipe : 0 < slen (Lease.AudiencePipeID l) ≤ MaxPipeIDLen;
  la_jti : validString (Lease.JTI l) = true ∧ HasPrefix (Lease.JTI l) "jti_" = true;
  la_window : in_window (Lease.IssuedAt l) (Lease.NotBefore l) (Lease.ExpiresAt l) now;
  la_pins : (subject ≠ "" → Lease.Subject l = subject) ∧ (pipeID ≠ "" → Lease.AudiencePipeID l = pipeID);
  la_signature : signed_by public (Lease.signingBody l) (Lease.Signature l);
}.

Lemma valid_pipe p :
  validString p = true ∧ (MaxPipeIDLen <? slen p) = false ↔ 0 < slen p ≤ MaxPipeIDLen.
Proof. unfold validString, MaxFieldLen, MaxPipeIDLen. lia. Qed.

Lemma lease_verify_spec `{Ed25519} wall l public subject pipeID now :
  Lease.Verify wall l public subject pipeID now = Ok tt ↔
  lease_accepts l public subject pipeID (effective_now now wall).
Proof.
  unfold Lease.Verify. split.
  - intros Hv. cbv zeta in Hv. res_inv.
    constructor; [done|split; done| | | | | |].
    + match goal with E : PublicFromString _ = _ |- _ => apply PublicFromString_spec in E as [? ?] end.
      split; [by eexists|done].
    + apply valid_pipe. split; [done|]. lia.
    + done.
    + apply window_checks. by_checks.
    + split; by apply pin_spec.
    + match goal with E : decodeSignature _ = _ |- _ => apply decodeSignature_spec in E as [? ?] end.
      by eexists _, _.
  - intros [[Hver Hty] [Hi Hi'] [(sp & Hs & Hsz) Hs'] Hp [Hj Hj'] Hw [Hps Hpp] (sg & m & Hsg & Hsz' & Hb & Hv)].
    apply window_checks in Hw as (W1 & W2 & W3 & W4 & W5). apply valid_pipe in Hp as [Hp1 Hp2].
    rewrite <- pin_spec in Hps, Hpp. cbv zeta.
    pass; [rewrite Hver, Hty, seqb_refl; done|].
    pass; [rewrite <- Hi, seqb_refl, Hi', Hs', Hp1, Hj, Hj'; done|].
    pass; [by apply PublicFromString_spec|].
    do 8 (pass; [done|]).
    pass; [by apply decodeSignature_spec|]. pass; [done|]. pass. by rewrite Hv.
Qed.

(** *** Minting *)
Section minting.
Context `{Ed25519Laws}.

Lemma signed_by_Sign k body m :
  body = Ok m → signed_by (Public k) body (PublicString (SignMsg k m)).
Proof.
  intros Hb. exists (SignMsg k m), m. split_and!; [done|apply SignMsg_size|done|].
  apply VerifyMsg_SignMsg.
Qed.

(** An identifier from sixteen random bytes. *)
Lemma jti_shape rnd jti :
  NewJTI rnd = Ok jti → (∀ v, rnd = Ok v → slen v = 16) →
  validString jti = true ∧ HasPrefix jti "jti_" = true ∧ slen jti = 30 ∧ ascii_text jti.
Proof.
  intros Hj Hr. unfold NewJTI, randomID in Hj. res_inv. specialize (Hr _ eq_refl).
  assert (slen ("jti_" +:+ base32_encode x) = 30) as Hl by (rewrite slen_app, slen_base32, Hr; done).
  split_and!; [|apply HasPrefix_spec; by eexists|done|].
  - apply validString_len. rewrite Hl. done.
  - apply ascii_text_app; [by apply ascii_textb_true|apply ascii_base32].
Qed.

(** Entropy of the size the code asks for. *)
Definition good_entropy (rnd : entropy) : Prop := ∀ v, rnd = Ok v → slen v = 16.

Lemma NewAccessLease_inv rnd k subject pipeID now lifetime epoch l :
  Lease.NewAccessLease rnd k subject pipeID now lifetime epoch = Ok l →
  ∃ jti m, NewJTI rnd = Ok jti ∧ 0 < lifetime ≤ MaxTTL ∧ canonical_key subject ∧
    validString subject = true ∧ 0 < slen pipeID ≤ MaxPipeIDLen ∧
    l = Lease.mk Version AccessLeaseType (PublicString (Public k)) subject pipeID jti (UTC now)
          (UTC now) (Add (UTC now) lifetime) epoch (PublicString (SignMsg k m)) ∧
    Lease.signingBody l = Ok m.
Proof.
  unfold Lease.NewAccessLease, Lease.Sign. intros Hl. cbv zeta in Hl. res_inv.
  match goal with E : PublicFromString _ = _ |- _ => apply PublicFromString_spec in E as [? ?] end.
  eexists _, _. split_and!; try done; try lia.
  - by eexists.
  - apply valid_pipe. by_checks.
Qed.

(** A freshly minted lease is accepted for its subject and Pipe from the clock skew
    before its issue up to its expiry. *)
Lemma minted_lease_accepts rnd k subject pipeID now lifetime epoch l t :
  Lease.NewAccessLease rnd k subject pipeID now lifetime epoch = Ok l →
  good_entropy rnd → IsZero now = false →
  unix_ns now - MaxClockSkew ≤ unix_ns t < unix_ns now + lifetime →
  lease_accepts l (Public k) subject pipeID t.
Proof.
  intros (jti & m & Hj & Hlt & Hs & Hsv & Hp & -> & Hb)%NewAccessLease_inv Hr Hz Ht.
  destruct (jti_shape _ _ Hj Hr) as (Hj1 & Hj2 & _).
  constructor; cbn [Lease.Version Lease.Type_ Lease.Issuer Lease.Subject Lease.AudiencePipeID
    Lease.JTI Lease.IssuedAt Lease.NotBefore Lease.ExpiresAt Lease.Signature]; try done.
  - split; [done|]. by apply valid_public, Public_size.
  - constructor; try done; unfold Add, UTC; cbn [unix_ns]; lia.
  - by apply signed_by_Sign.
Qed.
End minting.

(** ** Owner Binding *)
Record binding_accepts `{Ed25519} (b : Binding.OwnerBinding) (owner : string) : Prop := {
  ba_kind : Binding.Version b = Version ∧ Binding.Type_ b = OwnerBindingType;
  ba_owner : Binding.Owner b = PublicString owner ∧ slen owner = PublicKeySize;
  ba_authority : canonical_key (Binding.AuthorityKey b);
  ba_pipe : 0 < slen (Binding.PipeID b) ≤ MaxPipeIDLen;
  ba_peers : slen (Binding.RedemptionPeers b) ≤ MaxRedemptionAddrLen ∧
             (Binding.RedemptionPeers b ≠ "" →
              llen (Split (Binding.RedemptionPeers b) ","%char) ≤ MaxRedemptionAddresses);
  ba_protocol : slen (Binding.RedemptionProtocol b) ≤ MaxRedemptionProtocolLen;
  ba_signature : signed_by owner (Binding.signingBody b) (Binding.Signature b);
}.

Lemma optional_bound s n : 0 ≤ n → ((s <>s "") && (n <? slen s)) = false ↔ slen s ≤ n.
Proof.
  intros Hn. destruct (s =s "") eqn:E; cbn [negb andb].
  - apply seqb_true in E. subst. change (slen "") with 0. split; [lia|done].
  - apply Z.ltb_ge.
Qed.
Lemma optional_count s n :
  ((s <>s "") && (n <? llen (Split s ","%char))) = false ↔ (s ≠ "" → llen (Split s ","%char) ≤ n).
Proof.
  destruct (s =s "") eqn:E; cbn [negb andb].
  - apply seqb_true in E. subst. naive_solver.
  - apply seqb_false in E. rewrite Z.ltb_ge. naive_solver.
Qed.

Lemma canonical_key_valid text : canonical_key text → validString text = true.
Proof. intros (p & -> & Hp). by apply valid_public. Qed.

Lemma binding_verify_spec `{Ed25519} b owner :
  Binding.VerifyOwnerBinding b = Ok owner ↔ binding_accepts b owner.
Proof.
  unfold Binding.VerifyOwnerBinding. split.
  - intros Hv. res_inv. repeat match goal with E : PublicFromString _ = _ |- _ =>
      apply PublicFromString_spec in E as [? ?] end.
    match goal with E : decodeSignature _ = _ |- _ => apply decodeSignature_spec in E as [? ?] end.
    constructor; try done.
    + by eexists.
    + apply valid_pipe. by_checks.
    + split; [lia|]. by apply optional_count.
    + by apply optional_bound.
    + by eexists _, _.
  - intros [[Hv Ht] [Ho Hos] Ha Hp [Hr1 Hr2] Hpr (sg & m & Hsg & Hsz & Hb & Hvf)].
    pose proof (canonical_key_valid _ Ha) as Ha'. destruct Ha as (ap & Ha & Haz).
    apply valid_pipe in Hp as [Hp1 Hp2]. apply optional_count in Hr2. apply optional_bound in Hpr; [|done].
    pass; [rewrite Hv, Ht, seqb_refl; done|].
    pass; [rewrite Ha', Hp1, Hp2, Ho, valid_public; done|].
    pass; [by apply Z.ltb_ge|]. pass; [done|]. pass; [done|].
    pass; [by apply PublicFromString_spec|]. pass; [by apply PublicFromString_spec|].
    pass; [rewrite Haz; done|]. pass; [by apply decodeSignature_spec|]. pass; [done|].
    pass; [by rewrite Hvf|done].
Qed.

Lemma owner_authority_spec `{Ed25519} b key oa :
  Binding.VerifyOwnerAuthority b key = Ok oa ↔
  (∃ owner, binding_accepts b owner ∧ VerifyPipeOwner (Binding.PipeID b) owner = true) ∧
  (key ≠ "" → Binding.AuthorityKey b = key) ∧
  oa = Binding.mkAuthority (Binding.Owner b) (Binding.AuthorityKey b) (Binding.PipeID b) (Binding.Epoch b).
Proof.
  unfold Binding.VerifyOwnerAuthority. split.
  - intros Hv. res_inv. split_and!; [|by apply pin_spec|done].
    eexists. split; [by apply binding_verify_spec|done].
  - intros ((owner & Hb & Hp) & Hk & ->). apply binding_verify_spec in Hb. rewrite <- pin_spec in Hk.
    pass; [done|]. pass; [by rewrite Hp|]. pass; [done|]. done.
Qed.

Section binding_minting.
Context `{Ed25519Laws}.

(** The binding an owner makes is accepted as that owner's, for that key. *)
Lemma minted_binding_authority k authority pipeID epoch peers protocol b :
  Binding.NewOwnerBinding k authority pipeID epoch peers protocol = Ok b →
  binding_accepts b (Public k) ∧ VerifyPipeOwner (Binding.PipeID b) (Public k) = true ∧
  Binding.AuthorityKey b = PublicString authority ∧ Binding.Epoch b = epoch.
Proof.
  unfold Binding.NewOwnerBinding, Binding.Sign. intros Hb. cbv zeta in Hb. res_inv.
  split_and!; try done.
  constructor; cbn [Binding.with_signature Binding.with_owner Binding.Version Binding.Type_
    Binding.Owner Binding.AuthorityKey Binding.PipeID Binding.RedemptionPeers
    Binding.RedemptionProtocol Binding.Epoch Binding.Signature].
  - done.
  - split; [done|]. apply Public_size.
  - by eexists.
  - apply valid_pipe. by_checks.
  - split; [assumption|]. by intros _.
  - by apply optional_bound.
  - by apply signed_by_Sign.
Qed.
End binding_minting.

Lemma key_field p : slen p = PublicKeySize → text_field MaxFieldLen (PublicString p).
Proof.
  intros Hp. split; [apply ascii_base64|]. rewrite (slen_PublicString _ _ Hp). by vm_compute.
Qed.
Lemma signature_field s : slen s = SignatureSize → text_field MaxFieldLen (PublicString s).
Proof.
  intros Hp. split; [apply ascii_base64|]. rewrite (slen_PublicString _ _ Hp). by vm_compute.
Qed.
Lemma const_field s : (ascii_textb s && (slen s <=? MaxFieldLen)) = true → text_field MaxFieldLen s.
Proof. intros Hs. bool_step. split; [by apply ascii_textb_true|lia]. Qed.

(** An accepted binding with seven-bit redemption data has an exact wire form. *)
Lemma accepted_binding_wire `{Ed25519} b owner :
  binding_accepts b owner → VerifyPipeOwner (Binding.PipeID b) owner = true →
  ascii_text (Binding.RedemptionPeers b) → ascii_text (Binding.RedemptionProtocol b) →
  0 ≤ Binding.Epoch b < 2 ^ 64 → BindingFacts.wire_binding b.
Proof.
  intros [[Hv Ht] [Ho Hos] (ap & Ha & Haz) Hp [Hr1 Hr2] Hpr (sg & m & Hsg & Hsz & _)] Hpo Hr Hpt He.
  apply VerifyPipeOwner_true in Hpo as [Hpo _].
  constructor; rewrite ?Hv, ?Ht, ?Ho, ?Ha, ?Hsg.
  - done.
  - by apply const_field.
  - by apply key_field.
  - by apply key_field.
  - split; [rewrite Hpo; apply ascii_PipeID|lia].
  - by split.
  - by split.
  - done.
  - by apply signature_field.
Qed.

(** ** Exact Invite *)
Record invite_accepts `{Ed25519} (i : Invite.ExactInvite) (now : time) (pipeID : string)
    (b : Binding.OwnerBinding) (owner issuer : string) : Prop := {
  ia_kind : Invite.Version i = Version ∧ Invite.Type_ i = InviteType ∧ Invite.OneTime i = true;
  ia_issuer : Invite.Issuer i = PublicString issuer ∧ slen issuer = PublicKeySize;
  ia_pipe : 0 < slen (Invite.AudiencePipeID i) ≤ MaxPipeIDLen;
  ia_jti : validString (Invite.JTI i) = true ∧ HasPrefix (Invite.JTI i) "jti_" = true;
  ia_window : in_window (Invite.IssuedAt i) (Invite.NotBefore i) (Invite.ExpiresAt i) now;
  ia_pin : pipeID ≠ "" → Invite.AudiencePipeID i = pipeID;
  ia_binding : 0 < slen (Invite.Binding i) ≤ MaxBytes ∧
               Binding.DecodeOwnerBinding (Invite.Binding i) = Ok b ∧ binding_accepts b owner;
  ia_owner : Invite.AudiencePipeID i = PipeIDFromOwner owner;
  ia_bound : Binding.AuthorityKey b = Invite.Issuer i ∧ Binding.PipeID b = Invite.AudiencePipeID i;
  ia_signature : signed_by issuer (Invite.signingBody i) (Invite.Signature i);
}.

Lemma binding_text s : ((s =s "") || (MaxBytes <? slen s)) = false ↔ 0 < slen s ≤ MaxBytes.
Proof.
  rewrite orb_false_iff, seqb_false, <- slen_zero. pose proof (slen_nonneg s). lia.
Qed.

Lemma invite_verify_sound `{Ed25519} wall i now pipeID :
  Invite.Verify wall i now pipeID = Ok tt →
  ∃ b owner issuer, invite_accepts i (effective_now now wall) pipeID b owner issuer.
Proof.
  unfold Invite.Verify. intros Hv. cbv zeta in Hv. res_inv.
  repeat match goal with
  | E : PublicFromString _ = _ |- _ => apply PublicFromString_spec in E as [? ?]
  | E : decodeSignature _ = _ |- _ => apply decodeSignature_spec in E as [? ?]
  | E : Binding.VerifyOwnerBinding _ = _ |- _ => apply binding_verify_spec in E
  | E : VerifyPipeOwner _ _ = true |- _ => apply VerifyPipeOwner_true in E as [? ?]
  end.
  eexists _, _, _. constructor; try done.
  - apply valid_pipe. by_checks.
  - apply window_checks. by_checks.
  - by apply pin_spec.
  - split_and!; [..|done|done]; apply binding_text; apply orb_false_iff; split; by_checks || by apply seqb_false.
  - by eexists _, _.
Qed.

Lemma invite_verify_complete `{Ed25519} wall i now pipeID b owner issuer :
  invite_accepts i (effective_now now wall) pipeID b owner issuer →
  Invite.Verify wall i now pipeID = Ok tt.
Proof.
  intros [(Hv & Ht & Ho) [Hi Hiz] Hp [Hj Hj'] Hw Hpin (Hbt & Hbd & Hba) Hown [Hk Hkp]
          (sg & m & Hsg & Hsz & Hb & Hvf)].
  apply window_checks in Hw as (W1 & W2 & W3 & W4 & W5). apply valid_pipe in Hp as [Hp1 Hp2].
  rewrite <- pin_spec in Hpin. apply binding_text in Hbt.
  assert (slen owner = PublicKeySize) as Hos by apply Hba.
  assert (VerifyPipeOwner (Invite.AudiencePipeID i) owner = true) as Hvo by (by apply VerifyPipeOwner_true).
  unfold Invite.Verify. cbv zeta.
  pass; [rewrite Hv, Ht, seqb_refl; done|].
  pass; [rewrite Hi, valid_public, Hp1, Hj, Hj'; done|].
  pass; [done|]. pass; [done|]. pass; [by rewrite Ho|]. do 6 (pass; [done|]).
  pass; [done|]. pass; [by apply binding_verify_spec|]. pass; [by rewrite Hvo|].
  pass; [by rewrite Hk, seqb_refl|]. pass; [by rewrite Hkp, seqb_refl|].
  pass; [by apply decodeSignature_spec|]. pass; [done|]. pass; [by apply PublicFromString_spec|].
  pass. by rewrite Hvf.
Qed.

Section invite_minting.
Context `{Ed25519Laws}.

Lemma NewExactInvite_inv rnd k b pipeID now lifetime epoch i :
  Invite.NewExactInvite rnd k b pipeID now lifetime epoch = Ok i →
  ∃ owner enc jti m, binding_accepts b owner ∧ VerifyPipeOwner (Binding.PipeID b) owner = true ∧
    Binding.AuthorityKey b = PublicString (Public k) ∧ Binding.PipeID b = pipeID ∧
    0 < slen pipeID ≤ MaxPipeIDLen ∧
    Binding.EncodeOwnerBinding b = Ok enc ∧ 0 < lifetime ≤ MaxTTL ∧ NewJTI rnd = Ok jti ∧
    i = Invite.mk Version InviteType (PublicString (Public k)) pipeID enc jti (UTC now) (UTC now)
          (Add (UTC now) lifetime) epoch true (PublicString (SignMsg k m)) ∧
    Invite.signingBody i = Ok m.
Proof.
  unfold Invite.NewExactInvite, Invite.Sign. intros Hi. cbv zeta in Hi. res_inv.
  match goal with E : Binding.VerifyOwnerAuthority _ _ = _ |- _ =>
    apply owner_authority_spec in E as ((owner & Hb & Hp) & Hk & ->) end.
  cbn [Binding.oa_PipeID] in *. eexists owner, _, _, _. split_and!; try done; try lia.
  - apply Hk. intros E. pose proof (canonical_key_valid (PublicString (Public k))) as Hv.
    rewrite E in Hv. discriminate Hv. rewrite <- E. exists (Public k). split; [done|apply Public_size].
  - apply valid_pipe. by_checks.
Qed.

(** An encoded binding is within the bound and not empty. *)
Lemma encoded_bounds b e : Binding.EncodeOwnerBinding b = Ok e → 0 < slen e ≤ MaxBytes.
Proof.
  unfold Binding.EncodeOwnerBinding, encode_bounded. intros He. cbv zeta in He. res_inv.
  split; [|lia]. pose proof (base64_longer x) as Hl.
  match goal with E : Marshal _ = Ok _ |- _ => apply Marshal_nonempty in E end.
  assert (slen x ≠ 0) by (by rewrite slen_zero). pose proof (slen_nonneg x). lia.
Qed.

Lemma minted_invite_accepts rnd k b pipeID now lifetime epoch i t :
  Invite.NewExactInvite rnd k b pipeID now lifetime epoch = Ok i →
  good_entropy rnd → IsZero now = false →
  ascii_text (Binding.RedemptionPeers b) → ascii_text (Binding.RedemptionProtocol b) →
  0 ≤ Binding.Epoch b < 2 ^ 64 →
  unix_ns now - MaxClockSkew ≤ unix_ns t < unix_ns now + lifetime →
  ∃ owner, invite_accepts i t pipeID b owner (Public k).
Proof.
  intros (owner & enc & jti & m & Hb & Hpo & Hk & Hpp & Hpl & He & Hlt & Hj & -> & Hs)%NewExactInvite_inv
    Hr Hz Hap Hat Hep Ht.
  destruct (jti_shape _ _ Hj Hr) as (Hj1 & Hj2 & _). exists owner.
  constructor; cbn [Invite.Version Invite.Type_ Invite.Issuer Invite.AudiencePipeID Invite.Binding
    Invite.JTI Invite.IssuedAt Invite.NotBefore Invite.ExpiresAt Invite.OneTime Invite.Signature]; try done.
  - split; [done|apply Public_size].
  - constructor; try done; unfold Add, UTC; cbn [unix_ns]; lia.
  - split_and!; [by eapply encoded_bounds..| |done].
    apply BindingFacts.DecodeOwnerBinding_Encode; [|done]. by eapply accepted_binding_wire.
  - apply VerifyPipeOwner_true in Hpo as [Hpo _]. congruence.
  - by apply signed_by_Sign.
Qed.
End invite_minting.

(** ** A law-abiding key scheme for concrete runs

    A key is a byte string; its public form and its signatures are digests. It has
    the sizes and the correctness of Ed25519, not its secrecy. *)
Module SampleKeys.
(** A text cut or padded to 32 bytes, and a checksum of 32 bytes. *)
Definition fixed32 (s : string) : string := of_bytes (take 32 (bytes_of s ++ replicate 32 "."%char)).
Definition checksum (m : string) : string :=
  of_bytes (replicate 32 (chr (fold_left (λ a c, (31 * a + code c) mod 256) (bytes_of m) 0))).

Lemma slen_fixed32 s : slen (fixed32 s) = 32.
Proof.
  unfold fixed32. rewrite slen_bytes, bytes_of_of. unfold llen.
  rewrite length_take, length_app, length_replicate. lia.
Qed.
Lemma slen_checksum m : slen (checksum m) = 32.
Proof. unfold checksum. by rewrite slen_bytes, bytes_of_of. Qed.

#[export] Instance keys : Ed25519 := {
  PrivateKey := string;
  KeyLen _ := 64;
  Public k := fixed32 k;
  SignMsg k m := fixed32 k +:+ checksum m;
  VerifyMsg p m s := s =s (p +:+ checksum m);
}.
#[export] Instance keys_laws : Ed25519Laws.
Proof.
  constructor.
  - done.
  - intros k. apply slen_fixed32.
  - intros k m. cbn [SignMsg keys]. by rewrite slen_app, slen_fixed32, slen_checksum.
  - intros k m. apply seqb_refl.
Qed.

Definition owner_key : string := "owner".
Definition authority_key : string := "authority".
Definition recipient : string := Eval vm_compute in PublicString (fixed32 "recipient").
Definition pipe : string := Eval vm_compute in PipeIDFromOwner (fixed32 owner_key).
Definition rnd16 : entropy := Ok "0123456789abcdef".
(** 2023-11-14T22:13:20Z. *)
Definition noon : time := mkTime (1700000000 * Second) 0.

Definition sample_lease : res Lease.AccessLease := Eval vm_compute in
  Lease.NewAccessLease rnd16 authority_key recipient pipe noon (5 * Minute) 7.
Definition sample_binding : res Binding.OwnerBinding := Eval vm_compute in
  Binding.NewOwnerBinding owner_key (fixed32 authority_key) pipe 7 "peer-a,peer-b" "/tubo/redeem/1".
Definition sample_invite : res Invite.ExactInvite := Eval vm_compute in
  (b ← sample_binding; Invite.NewExactInvite rnd16 authority_key b pipe noon (5 * Minute) 7).
End SampleKeys.
