(* ===== verification/CredentialProps.v ===== *)
(** * Properties of the credentials

    What the encodings and the verifiers of [internal/accesslease] guarantee, each with
    a run on sample keys. *)
From S2P Require Import Prelude GoStrings GoTime Encoding Json JsonRoundTrip Sha256.
From S2P Require Import Credentials CredentialFacts CredentialVerify.
Open Scope Z_scope.
Import SampleKeys.

(** ** Decoding *)

Definition sample_text : string :=
  match encode_bounded [("jti", VStr "jti_a")] errStrict with Ok e => e | Fail _ => "" end.
Definition sample_data : string :=
  match decodeCanonicalRawBase64URL sample_text with Ok d => d | Fail _ => "" end.

(** ** Minted credentials have a wire form *)
Section wire.
Context `{Ed25519Laws}.

Lemma minted_lease_wire rnd k subject pipeID now lifetime epoch l :
  Lease.NewAccessLease rnd k subject pipeID now lifetime epoch = Ok l →
  good_entropy rnd → ascii_text pipeID → in_years (UTC now) → in_years (Add (UTC now) lifetime) →
  0 ≤ epoch < 2 ^ 64 → LeaseFacts.wire_lease l.
Proof.
  intros (jti & m & Hj & Hlt & (sp & -> & Hsp) & Hsv & Hp & -> & Hb)%NewAccessLease_inv Hr Hpa Hy Hy' He.
  destruct (jti_shape _ _ Hj Hr) as (Hj1 & Hj2 & Hj3 & Hj4).
  constructor; cbn [Lease.Version Lease.Type_ Lease.Issuer Lease.Subject Lease.AudiencePipeID
    Lease.JTI Lease.IssuedAt Lease.NotBefore Lease.ExpiresAt Lease.AccessEpoch Lease.Signature]; try done.
  - by apply const_field.
  - apply key_field, Public_size.
  - by apply key_field.
  - split; [done|lia].
  - split; [done|]. rewrite Hj3. by vm_compute.
  - apply signature_field, SignMsg_size.
Qed.

Lemma minted_invite_wire rnd k b pipeID now lifetime epoch i :
  Invite.NewExactInvite rnd k b pipeID now lifetime epoch = Ok i →
  good_entropy rnd → in_years (UTC now) → in_years (Add (UTC now) lifetime) →
  0 ≤ epoch < 2 ^ 64 → InviteFacts.wire_invite i.
Proof.
  intros (owner & enc & jti & m & Hb & Hpo & Hk & Hpp & Hpl & He & Hlt & Hj & -> & Hs)%NewExactInvite_inv
    Hr Hy Hy' Hep.
  destruct (jti_shape _ _ Hj Hr) as (Hj1 & Hj2 & Hj3 & Hj4).
  apply VerifyPipeOwner_true in Hpo as [Hpo _].
  constructor; cbn [Invite.Version Invite.Type_ Invite.Issuer Invite.AudiencePipeID Invite.Binding
    Invite.JTI Invite.IssuedAt Invite.NotBefore Invite.ExpiresAt Invite.AccessEpoch Invite.OneTime
    Invite.Signature]; try done.
  - by apply const_field.
  - apply key_field, Public_size.
  - split; [|lia]. rewrite <- Hpp, Hpo. apply ascii_PipeID.
  - pose proof (encoded_bounds _ _ He) as Hl. split; [|lia].
    unfold Binding.EncodeOwnerBinding, encode_bounded in He. cbv zeta in He. res_inv. apply ascii_base64.
  - split; [done|]. rewrite Hj3. by vm_compute.
  - apply signature_field, SignMsg_size.
Qed.
End wire.

(** ** Samples *)
Definition unwrap {A} (d : A) (m : res A) : A := match m with Ok a => a | Fail _ => d end.
Definition lease1 : Lease.AccessLease := Eval vm_compute in
  unwrap (Lease.mk 0 "" "" "" "" "" zero_time zero_time zero_time 0 "") sample_lease.
Definition binding1 : Binding.OwnerBinding := Eval vm_compute in unwrap (Binding.mk 0 "" "" "" "" "" "" 0 "") sample_binding.
Definition invite1 : Invite.ExactInvite := Eval vm_compute in
  unwrap (Invite.mk 0 "" "" "" "" "" zero_time zero_time zero_time 0 false "") sample_invite.

Lemma lease1_ok : Lease.NewAccessLease rnd16 authority_key recipient pipe noon (5 * Minute) 7 = Ok lease1.
Proof. vm_compute. reflexivity. Qed.
Lemma binding1_ok :
  Binding.NewOwnerBinding owner_key (fixed32 authority_key) pipe 7 "peer-a,peer-b" "/tubo/redeem/1" = Ok binding1.
Proof. vm_compute. reflexivity. Qed.
Lemma invite1_ok : Invite.NewExactInvite rnd16 authority_key binding1 pipe noon (5 * Minute) 7 = Ok invite1.
Proof. vm_compute. reflexivity. Qed.

Lemma rnd16_good : good_entropy rnd16.
Proof. intros v [= <-]. reflexivity. Qed.
Lemma noon_years : in_years (UTC noon) ∧ in_years (Add (UTC noon) (5 * Minute)).
Proof. by vm_compute. Qed.

Lemma lease1_wire : LeaseFacts.wire_lease lease1.
Proof.
  eapply minted_lease_wire; [exact lease1_ok|exact rnd16_good| |apply noon_years|apply noon_years|done].
  by apply ascii_textb_true.
Qed.
Lemma invite1_wire : InviteFacts.wire_invite invite1.
Proof.
  eapply minted_invite_wire; [exact invite1_ok|exact rnd16_good|apply noon_years|apply noon_years|done].
Qed.
Lemma binding1_wire : BindingFacts.wire_binding binding1.
Proof.
  pose proof (minted_binding_authority _ _ _ _ _ _ _ binding1_ok) as (Hb & Hp & _ & He).
  eapply accepted_binding_wire; [exact Hb|exact Hp|..].
  - apply ascii_textb_true. vm_compute. reflexivity.
  - apply ascii_textb_true. vm_compute. reflexivity.
  - rewrite He. clear. lia.
Qed.

Definition lease1_text : string := Eval vm_compute in unwrap "" (Lease.Encode lease1).
Definition binding1_text : string := Eval vm_compute in unwrap "" (Binding.EncodeOwnerBinding binding1).
Definition invite1_text : string := Eval vm_compute in unwrap "" (Invite.EncodeInvite invite1).

(** ** Round trips *)

(** C33: credentials survive the wire. An Access Lease whose texts are seven-bit and within
    their bounds, whose times are UTC in the years the format can write and whose epoch is
    a 64-bit number is decoded from its encoding exactly as it was. An Exact Invite carries
    its Owner Binding inside: decoding the encoded invite and then the binding in it gives
    back both, so a recipient sees them exactly as they were signed. And decoding is strict:
    a payload that passes is the canonical text of a JSON object that the standard decoder
    reads with the same members: none occurs twice, every one is allowed, none is an object
    or an array, every string is within the bound of its member, the whole within the byte
    bound. *)
Theorem credential_roundtrip :
  (∀ l e, LeaseFacts.wire_lease l → Lease.Encode l = Ok e → Lease.Decode e = Ok l) ∧
  (∀ i b e, InviteFacts.wire_invite i → BindingFacts.wire_binding b →
     Binding.EncodeOwnerBinding b = Ok (Invite.Binding i) → Invite.EncodeInvite i = Ok e →
     Invite.DecodeInvite e = Ok i ∧
     (i' ← Invite.DecodeInvite e; Binding.DecodeOwnerBinding (Invite.Binding i')) = Ok b) ∧
  (∀ encoded allowed data, decodeStrictJSON encoded allowed = Ok data →
     encoded = base64_encode data ∧ slen encoded ≤ MaxBytes ∧
     ∃ ms, flat_members data = Some ms ∧ NoDup (map fst ms) ∧
           Forall (λ m, ∃ max, assoc m.1 allowed = Some max ∧ is_delim m.2 = false ∧
                               ∀ s raw, m.2 = TStr s raw → slen s ≤ max) ms).
Proof.
  split; [apply LeaseFacts.Decode_Encode|]. split; [|apply decodeStrictJSON_inv]. intros i b e Hi Hb Eb Ei.
  pose proof (InviteFacts.DecodeInvite_Encode _ _ Hi Ei) as D.
  split; [done|]. rewrite D. cbn [mbind res_bind]. by apply BindingFacts.DecodeOwnerBinding_Encode.
Qed.

Lemma credential_roundtrip_witness :
  Lease.Decode lease1_text = Ok lease1 ∧ Invite.DecodeInvite invite1_text = Ok invite1 ∧
  sample_text = base64_encode sample_data.
Proof.
  assert (Es : decodeStrictJSON sample_text Lease.leaseAllowed = Ok sample_data) by (vm_compute; reflexivity).
  assert (E : Lease.Encode lease1 = Ok lease1_text) by (vm_compute; reflexivity).
  assert (Eb : Binding.EncodeOwnerBinding binding1 = Ok (Invite.Binding invite1)) by (vm_compute; reflexivity).
  assert (Ei : Invite.EncodeInvite invite1 = Ok invite1_text) by (vm_compute; reflexivity).
  split; [exact (proj1 credential_roundtrip lease1 lease1_text lease1_wire E)|].
  split; [exact (proj1 (proj1 (proj2 credential_roundtrip) invite1 binding1 invite1_text invite1_wire binding1_wire Eb Ei))|].
  exact (proj1 (proj2 (proj2 credential_roundtrip) sample_text Lease.leaseAllowed sample_data Es)).
Defined.

(** ** Signatures *)













(** ** Verification *)

Lemma minted_lease_verifies `{Ed25519Laws} rnd k subject pipeID now lifetime epoch l wall t :
  Lease.NewAccessLease rnd k subject pipeID now lifetime epoch = Ok l →
  good_entropy rnd → IsZero now = false → IsZero t = false →
  unix_ns now - MaxClockSkew ≤ unix_ns t < unix_ns now + lifetime →
  Lease.Verify wall l (Public k) subject pipeID t = Ok tt.
Proof.
  intros Hl Hr Hz Ht Hw. apply lease_verify_spec. eapply minted_lease_accepts; [done..|].
  unfold effective_now. by rewrite Ht.
Qed.

Lemma minted_invite_verifies `{Ed25519Laws} rnd owner k peers protocol bepoch b pipeID now lifetime epoch i wall t :
  Binding.NewOwnerBinding owner (Public k) pipeID bepoch peers protocol = Ok b →
  Invite.NewExactInvite rnd k b pipeID now lifetime epoch = Ok i →
  good_entropy rnd → IsZero now = false → IsZero t = false →
  ascii_text peers → ascii_text protocol → 0 ≤ bepoch < 2 ^ 64 →
  unix_ns now - MaxClockSkew ≤ unix_ns t < unix_ns now + lifetime →
  Invite.Verify wall i t pipeID = Ok tt.
Proof.
  intros Hb Hi Hr Hz Ht Hp Hq He Hw.
  assert (Binding.RedemptionPeers b = peers ∧ Binding.RedemptionProtocol b = protocol
          ∧ Binding.Epoch b = bepoch) as (Ep & Eq & Ee).
  { unfold Binding.NewOwnerBinding, Binding.Sign in Hb. cbv zeta in Hb. res_inv. done. }
  destruct (minted_invite_accepts _ _ _ _ _ _ _ _ (UTC t) Hi Hr Hz) as [o Ho];
    [by rewrite Ep|by rewrite Eq|by rewrite Ee|exact Hw|].
  eapply invite_verify_complete. unfold effective_now. by rewrite Ht.
Qed.

(** C38: the verifiers accept exactly what the declarative conditions describe. A lease: of
    the right kind and version, issued by the given key, with a canonical subject key,
    bounded audience and identifier, inside its validity window (clock skew of 30 seconds
    before, lifetime of at most ten minutes), matching the pins that are not empty, and
    carrying a signature of that key over its own signing body. An invite: one-time, in its
    window, carrying the binding of the owner whose key hashes to the Pipe identifier, that
    binding naming the invite's issuer for that same Pipe, with the owner's signature over
    the binding and the issuer's over the invite. No lease verifies at two instants further
    apart than the maximal lifetime plus the clock skew. And what is minted is accepted: a
    lease that [NewAccessLease] returns verifies against the minting key, its subject and its
    Pipe, and an invite that [NewExactInvite] returns for a binding that [NewOwnerBinding]
    made verifies for its Pipe, at every instant from the clock skew before the issue up to
    the expiry. *)
Theorem credentials_verify `{Ed25519Laws} rnd k pipeID now lifetime epoch wall t :
  (∀ l public subject, Lease.Verify wall l public subject pipeID t = Ok tt ↔
     lease_accepts l public subject pipeID (effective_now t wall)) ∧
  (∀ i, Invite.Verify wall i t pipeID = Ok tt ↔
     ∃ b owner issuer, invite_accepts i (effective_now t wall) pipeID b owner issuer) ∧
  (∀ l p s q t1 t2, IsZero t1 = false → IsZero t2 = false →
     Lease.Verify wall l p s q t1 = Ok tt → Lease.Verify wall l p s q t2 = Ok tt →
     unix_ns t2 - unix_ns t1 < MaxTTL + MaxClockSkew) ∧
  (good_entropy rnd → IsZero now = false → IsZero t = false →
   unix_ns now - MaxClockSkew ≤ unix_ns t < unix_ns now + lifetime →
   (∀ subject l, Lease.NewAccessLease rnd k subject pipeID now lifetime epoch = Ok l →
      Lease.Verify wall l (Public k) subject pipeID t = Ok tt) ∧
   (∀ owner peers protocol bepoch b i,
      Binding.NewOwnerBinding owner (Public k) pipeID bepoch peers protocol = Ok b →
      Invite.NewExactInvite rnd k b pipeID now lifetime epoch = Ok i →
      ascii_text peers → ascii_text protocol → 0 ≤ bepoch < 2 ^ 64 →
      Invite.Verify wall i t pipeID = Ok tt)).
Proof.
  split_and!.
  - intros. apply lease_verify_spec.
  - intros i. split; [apply invite_verify_sound|]. intros (b & owner & issuer & Hi). by eapply invite_verify_complete.
  - intros l' p s q t1 t2 H1 H2 [_ _ _ _ _ W1 _ _]%lease_verify_spec [_ _ _ _ _ W2 _ _]%lease_verify_spec.
    pose proof (window_span _ _ _ _ _ W1 W2) as Hs. unfold effective_now in Hs. by rewrite H1, H2 in Hs.
  - intros Hr Hz Ht Hw. split; [intros subject l Hl; by eapply minted_lease_verifies|].
    intros owner peers protocol bepoch b i Hb Hi Hp Hq He. by eapply minted_invite_verifies.
Qed.

Lemma minute_later : unix_ns noon - MaxClockSkew ≤ unix_ns (Add noon Minute) < unix_ns noon + 5 * Minute.
Proof. vm_compute. split; [discriminate|reflexivity]. Qed.

Lemma credentials_verify_witness :
  Lease.Verify noon lease1 (@Public keys authority_key) recipient pipe (Add noon Minute) = Ok tt ∧
  Invite.Verify noon invite1 (Add noon Minute) pipe = Ok tt.
Proof.
  assert (Hp : ascii_text "peer-a,peer-b") by (by apply ascii_textb_true).
  assert (Hq : ascii_text "/tubo/redeem/1") by (by apply ascii_textb_true).
  assert (He : 0 ≤ 7 < 2 ^ 64) by lia.
  destruct (credentials_verify (H := keys) rnd16 authority_key pipe noon (5 * Minute) 7 noon (Add noon Minute)) as (_ & _ & _ & Hm).
  destruct (Hm rnd16_good eq_refl eq_refl minute_later) as (Hl & Hi).
  split; [exact (Hl recipient lease1 lease1_ok)|].
  exact (Hi owner_key "peer-a,peer-b" "/tubo/redeem/1" 7 binding1 invite1 binding1_ok invite1_ok Hp Hq He).
Defined.
