(* ===== verification/StoreRelations.v ===== *)
(** * Revocations, redemptions and accepted relationships

    The tables of [internal/store/store.go] that decide who may open a Pipe:
    [revocations], [invite_redemptions] and [accepted_exact_relationships], with
    every operation on them.

    A table is a finite map from its primary key. An operation returns its Go
    results and the database after it; a transaction that returns an error is
    rolled back. Times are the texts the columns hold. *)
From S2P Require Import Prelude GoStrings GoTime.
Open Scope Z_scope.

Record revocation_row := mkRevocation { rv_revoked_at : string; rv_epoch : Z }.

(** The column [kind] of [invite_redemptions]. *)
Inductive redemption_kind := KindScoped | KindExact.
#[export] Instance redemption_kind_eq_dec : EqDecision redemption_kind.
Proof. solve_decision. Defined.

Record redemption_row := mkRedemption {
  rd_redeemed_at : string; rd_session : string; rd_client : string; rd_kind : redemption_kind }.

Record relationship_row := mkRelationship {
  rl_invite : string; rl_epoch : Z; rl_accepted_at : string; rl_updated_at : string }.

Record relations := mkRelations {
  (** by scope, subject type and subject JTI *)
  revocations : gmap (string * string * string) revocation_row;
  (** by invite JTI and Pipe *)
  invite_redemptions : gmap (string * string) redemption_row;
  (** by Pipe and recipient *)
  accepted : gmap (string * string) relationship_row;
}.

Definition no_relations : relations := mkRelations ∅ ∅ ∅.

Definition set_revocations (d : relations) (m : gmap (string * string * string) revocation_row) :=
  mkRelations m (invite_redemptions d) (accepted d).
Definition set_redemptions (d : relations) (m : gmap (string * string) redemption_row) :=
  mkRelations (revocations d) m (accepted d).
Definition set_accepted (d : relations) (m : gmap (string * string) relationship_row) :=
  mkRelations (revocations d) (invite_redemptions d) m.

(** A transaction: its effect is kept only when it commits. *)
Definition in_tx {D A} (f : D → res (A * D)) (d : D) : res A * D :=
  match f d with
  | Ok (a, d') => (Ok a, d')
  | Fail e => (Fail e, d)
  end.

(** [database/sql] refuses unsigned parameters with the high bit set. *)
Definition sql_uint (n : Z) : res Z :=
  need (if n <? 2 ^ 63 then Some n else None) (errorf "uint64 values with high bit set are not supported").

(** ** Revocations *)

(** [SELECT epoch FROM revocations WHERE ...]. *)
Definition select_epoch (d : relations) (scope subjectType subjectJTI : string) : option Z :=
  rv_epoch <$> revocations d !! (scope, subjectType, subjectJTI).

Definition is_epoch_subject (subjectType : string) : bool :=
  (subjectType =s "pipe-access") || (subjectType =s "pipe-publish").

Definition revoke_tx (now : time) (scope subjectType subjectJTI : string) (epoch : Z)
    (d : relations) : res (unit * relations) :=
  let existing := select_epoch d scope subjectType subjectJTI in
  _ ← refuse (match existing with Some e => epoch <? e | None => false end)
        (errorf "revocation epoch rollback");
  _ ← (if is_epoch_subject subjectType then
         refuse (match existing with Some e => epoch <? e | None => false end)
           (errorf "revocation epoch rollback")
       else Ok tt);
  bound ← sql_uint epoch;
  let row := mkRevocation (RFC3339Nano (UTC now)) bound in
  let key := (scope, subjectType, subjectJTI) in
  (* ON CONFLICT DO UPDATE ... WHERE excluded.epoch >= revocations.epoch *)
  let m := match existing with
           | Some e => if e <=? bound then <[key := row]> (revocations d) else revocations d
           | None => <[key := row]> (revocations d)
           end in
  Ok (tt, set_revocations d m).

Definition Revoke (now : time) (scope subjectType subjectJTI : string) (epoch : Z) (d : relations)
    : res unit * relations :=
  if blank scope || blank subjectType || blank subjectJTI || (8192 <? slen scope)
     || (128 <? slen subjectType) || (8192 <? slen subjectJTI)
  then (Fail (errorf "invalid revocation"), d)
  else if epoch =? 0 then (Fail (errorf "invalid revocation epoch"), d)
  else in_tx (revoke_tx now scope subjectType subjectJTI epoch) d.

Definition RevocationEpoch (d : relations) (scope subjectType subjectJTI : string) : res Z :=
  Ok (default 0 (select_epoch d scope subjectType subjectJTI)).

Definition IsRevoked (d : relations) (scope subjectType subjectJTI : string) : res bool :=
  Ok (bool_decide (is_Some (revocations d !! (scope, subjectType, subjectJTI)))).

Record Revocation := mkRevocationView {
  rev_Scope : string; rev_SubjectType : string; rev_SubjectJTI : string;
  rev_RevokedAt : time; rev_Epoch : Z }.

(** Rows in the order of the query, which SQL leaves open. *)
Definition Revocations (d : relations) (scope : string) (subjectJTIs : list string)
    : res (list Revocation) :=
  if llen subjectJTIs =? 0 then Ok []
  else if 256 <? llen subjectJTIs then Fail (errorf "too many revocation subjects")
  else
    let rows := List.filter (λ kv, (kv.1.1.1 =s scope) && mem_str kv.1.2 subjectJTIs)
                  (map_to_list (revocations d)) in
    (fix scan l := match l with
       | [] => Ok []
       | (key, row) :: l =>
           at_ ← need (ParseTime (rv_revoked_at row)) (errorf "parsing time");
           out ← scan l;
           Ok (mkRevocationView key.1.1 key.1.2 key.2 at_ (rv_epoch row) :: out)
       end) rows.

(** ** One-time redemption *)
Definition redemption_input_bad (jti pipeID sessionID clientPublic : string) : bool :=
  blank jti || blank pipeID || blank sessionID || blank clientPublic.

(** [INSERT ... ON CONFLICT(jti,pipe_id) DO NOTHING], with the rows affected. *)
Definition insert_redemption (d : relations) (jti pipeID : string) (row : redemption_row)
    : Z * relations :=
  match invite_redemptions d !! (jti, pipeID) with
  | None => (1, set_redemptions d (<[(jti, pipeID) := row]> (invite_redemptions d)))
  | Some _ => (0, d)
  end.

Definition RedeemInvite (now : time) (jti pipeID sessionID clientPublic : string) (d : relations)
    : res bool * relations :=
  if redemption_input_bad jti pipeID sessionID clientPublic
  then (Fail (errorf "invalid invite redemption"), d)
  else
    let '(affected, d) := insert_redemption d jti pipeID
           (mkRedemption (RFC3339Nano (UTC now)) sessionID clientPublic KindScoped) in
    if affected =? 1 then (Ok true, d)
    else match invite_redemptions d !! (jti, pipeID) with
         | None => (Fail (errorf "sql: no rows in result set"), d)
         | Some row =>
             if rd_client row <>s clientPublic
             then (Fail (wrapf ErrInviteRedeemed "invite already redeemed by another client"), d)
             else (Ok false, d)
         end.

Definition RedemptionCount (d : relations) (jti pipeID : string) : res Z :=
  Ok (match invite_redemptions d !! (jti, pipeID) with Some _ => 1 | None => 0 end).

(** [INSERT ... ON CONFLICT(pipe_id,recipient_public) DO UPDATE]: the first
    acceptance time stays. *)
Definition upsert_accepted (d : relations) (pipeID clientPublic jti : string) (epoch : Z) (at_ : string)
    : relations :=
  let accepted_at := match accepted d !! (pipeID, clientPublic) with
                     | Some r => rl_accepted_at r | None => at_ end in
  set_accepted d (<[(pipeID, clientPublic) := mkRelationship jti epoch accepted_at at_]> (accepted d)).

Definition redeem_accept_tx (jti pipeID sessionID clientPublic : string) (accessEpoch : Z) (now : time)
    (d : relations) : res (bool * relations) :=
  let at_ := RFC3339Nano (UTC now) in
  let '(affected, d) := insert_redemption d jti pipeID
         (mkRedemption at_ sessionID clientPublic KindExact) in
  if affected =? 1 then
    bound ← sql_uint accessEpoch;
    Ok (true, upsert_accepted d pipeID clientPublic jti bound at_)
  else
    row ← need (invite_redemptions d !! (jti, pipeID)) (errorf "sql: no rows in result set");
    _ ← refuse (rd_client row <>s clientPublic)
          (wrapf ErrInviteRedeemed "invite already redeemed by another client");
    Ok (true, d).

Definition RedeemInviteAndAccept (jti pipeID sessionID clientPublic : string) (accessEpoch : Z)
    (now : time) (d : relations) : res bool * relations :=
  if redemption_input_bad jti pipeID sessionID clientPublic
  then (Fail (errorf "invalid invite redemption"), d)
  else in_tx (redeem_accept_tx jti pipeID sessionID clientPublic accessEpoch now) d.

(** ** Lookups *)
Definition AcceptedRelationship (d : relations) (pipeID clientPublic : string)
    : res (option (string * Z)) :=
  if blank pipeID || blank clientPublic then Fail (errorf "invalid accepted relationship lookup")
  else Ok ((λ r, (rl_invite r, rl_epoch r)) <$> accepted d !! (pipeID, clientPublic)).

(** [SELECT pipe_id ... LIMIT 1]: one of the matching rows. *)
Definition pipe_where (p : redemption_row → bool) (d : relations) (jti : string) : option string :=
  (λ kv, kv.1.2) <$>
    head (List.filter (λ kv, (kv.1.1 =s jti) && p kv.2) (map_to_list (invite_redemptions d))).

Definition RedemptionPipeForInvite (d : relations) (jti : string) : res (option string) :=
  if blank jti then Fail (errorf "invalid redemption lookup")
  else Ok (pipe_where (λ _, true) d jti).

Definition is_exact (r : redemption_row) : bool := bool_decide (rd_kind r = KindExact).

Definition ExactRedemptionPipeForInvite (d : relations) (jti : string) : res (option string) :=
  if blank jti then Fail (errorf "invalid exact redemption lookup")
  else Ok (pipe_where is_exact d jti).

Inductive invite_family := FamilyExact (scope : string) | FamilyScoped.

Definition ResolveRevokeInvite (d : relations) (jti : string) : res invite_family :=
  pipe ← ExactRedemptionPipeForInvite d jti;
  match pipe with
  | Some pipeID => Ok (FamilyExact pipeID)
  | None => Ok FamilyScoped
  end.

(** ** The operations as steps *)
Inductive rel_op :=
  | OpRevoke (now : time) (scope subjectType subjectJTI : string) (epoch : Z)
  | OpRedeem (now : time) (jti pipeID sessionID clientPublic : string)
  | OpAccept (now : time) (jti pipeID sessionID clientPublic : string) (accessEpoch : Z).

Definition exec (o : rel_op) (d : relations) : relations :=
  match o with
  | OpRevoke now s t j e => (Revoke now s t j e d).2
  | OpRedeem now j p ss c => (RedeemInvite now j p ss c d).2
  | OpAccept now j p ss c e => (RedeemInviteAndAccept j p ss c e now d).2
  end.

(** The epochs of the operations are unsigned 64-bit numbers. *)
Definition op_ok (o : rel_op) : Prop :=
  match o with
  | OpRevoke _ _ _ _ e | OpAccept _ _ _ _ _ e => 0 ≤ e < 2 ^ 64
  | OpRedeem _ _ _ _ _ => True
  end.

Inductive rel_step : relations → relations → Prop :=
  | rel_step_op o d : op_ok o → rel_step d (exec o d).

Definition run (os : list rel_op) (d : relations) : relations := fold_left (λ d o, exec o d) os d.
