(* ===== verification/StoreRelationFacts.v ===== *)
(** * Facts about revocations and redemptions

    Epochs never go back, a redemption is for ever one client's, the accepted
    relationships are exactly those some exact redemption established. *)
From S2P Require Import Prelude GoStrings GoTime StoreRelations.
Open Scope Z_scope.

Lemma in_tx_fail {D A} (f : D → res (A * D)) d e d' : in_tx f d = (Fail e, d') → d' = d.
Proof. unfold in_tx. destruct (f d) as [[a x]|]; naive_solver. Qed.
Lemma in_tx_ok {D A} (f : D → res (A * D)) d a d' : in_tx f d = (Ok a, d') → f d = Ok (a, d').
Proof. unfold in_tx. destruct (f d) as [[b x]|]; naive_solver. Qed.

Lemma sql_uint_ok n m : sql_uint n = Ok m ↔ m = n ∧ n < 2 ^ 63.
Proof. unfold sql_uint. rewrite need_ok. destruct (Z.ltb_spec n (2 ^ 63)); naive_solver lia. Qed.

(** ** Revocation *)
Definition epoch_of (d : relations) (k : string * string * string) : Z :=
  default 0 (rv_epoch <$> revocations d !! k).


Lemma revoke_tx_ok now scope st jti epoch d d' :
  revoke_tx now scope st jti epoch d = Ok (tt, d') →
  d' = set_revocations d
         (<[(scope, st, jti) := mkRevocation (RFC3339Nano (UTC now)) epoch]> (revocations d)) ∧
  (∀ e, select_epoch d scope st jti = Some e → e ≤ epoch) ∧ epoch < 2 ^ 63.
Proof.
  unfold revoke_tx. intros H. cbv zeta in H.
  apply bind_ok in H as (u & H1%refuse_ok & H). apply bind_ok in H as (u2 & _ & H).
  apply bind_ok in H as (b & Hb & H). apply sql_uint_ok in Hb as [-> Hb].
  apply Ok_inj in H. injection H as <-.
  destruct (select_epoch d scope st jti) as [e|]; [|naive_solver]. apply Z.ltb_ge in H1.
  rewrite (proj2 (Z.leb_le _ _)) by lia. naive_solver.
Qed.

Lemma Revoke_cases now scope st jti epoch d :
  (∃ e, Revoke now scope st jti epoch d = (Fail e, d)) ∨
  (Revoke now scope st jti epoch d =
     (Ok tt, set_revocations d
        (<[(scope, st, jti) := mkRevocation (RFC3339Nano (UTC now)) epoch]> (revocations d))) ∧
   epoch ≠ 0 ∧ epoch < 2 ^ 63 ∧ ∀ e, select_epoch d scope st jti = Some e → e ≤ epoch).
Proof.
  unfold Revoke. destruct (blank scope || _ || _ || _ || _ || _); [left; by eexists|].
  destruct (Z.eqb_spec epoch 0); [left; by eexists|].
  destruct (in_tx _ d) as [[[]|e] d'] eqn:E.
  - right. apply in_tx_ok, revoke_tx_ok in E as (-> & He & Hb). done.
  - left. exists e. by rewrite (in_tx_fail _ _ _ _ E).
Qed.

(** ** Redemption *)
Definition redemption_of (d : relations) (jti pipe : string) : option redemption_row :=
  invite_redemptions d !! (jti, pipe).

Lemma RedeemInvite_cases now jti pipe ss client d :
  let row := mkRedemption (RFC3339Nano (UTC now)) ss client KindScoped in
  (∃ e, RedeemInvite now jti pipe ss client d = (Fail e, d)) ∨
  (redemption_of d jti pipe = None ∧
   RedeemInvite now jti pipe ss client d =
     (Ok true, set_redemptions d (<[(jti, pipe) := row]> (invite_redemptions d)))) ∨
  (∃ r, redemption_of d jti pipe = Some r ∧ rd_client r = client ∧
        RedeemInvite now jti pipe ss client d = (Ok false, d)).
Proof.
  intros row. unfold RedeemInvite, insert_redemption, redemption_of.
  destruct (redemption_input_bad _ _ _ _); [left; by eexists|].
  destruct (invite_redemptions d !! (jti, pipe)) as [r|] eqn:E; [|by right; left].
  cbn [Z.eqb]. rewrite E. destruct (rd_client r =s client) eqn:Ec; cbn [negb].
  - apply seqb_true in Ec. right; right. by exists r.
  - left. by eexists.
Qed.

Lemma Accept_cases jti pipe ss client epoch now d :
  let at_ := RFC3339Nano (UTC now) in
  let row := mkRedemption at_ ss client KindExact in
  (∃ e, RedeemInviteAndAccept jti pipe ss client epoch now d = (Fail e, d)) ∨
  (redemption_of d jti pipe = None ∧ epoch < 2 ^ 63 ∧
   RedeemInviteAndAccept jti pipe ss client epoch now d =
     (Ok true, upsert_accepted
        (set_redemptions d (<[(jti, pipe) := row]> (invite_redemptions d))) pipe client jti epoch at_)) ∨
  (∃ r, redemption_of d jti pipe = Some r ∧ rd_client r = client ∧
        RedeemInviteAndAccept jti pipe ss client epoch now d = (Ok true, d)).
Proof.
  intros at_ row. unfold RedeemInviteAndAccept.
  destruct (redemption_input_bad _ _ _ _); [left; by eexists|].
  destruct (in_tx _ d) as [[b|e] d'] eqn:E.
  2:{ left. exists e. by rewrite (in_tx_fail _ _ _ _ E). }
  right. apply in_tx_ok in E. unfold redeem_accept_tx, insert_redemption in E. fold at_ row in E.
  unfold redemption_of. destruct (invite_redemptions d !! (jti, pipe)) as [r|] eqn:Er.
  - right. cbn [Z.eqb] in E. rewrite Er in E. res_inv. exists r. simplify_eq. done.
  - left. cbn [Z.eqb] in E. apply bind_ok in E as (b' & Hb & E). apply sql_uint_ok in Hb as [-> Hb].
    apply Ok_inj in E. simplify_eq. done.
Qed.

(** Another client is refused and nothing changes. *)
Lemma Accept_other_client jti pipe ss client epoch now d r :
  redemption_input_bad jti pipe ss client = false →
  redemption_of d jti pipe = Some r → rd_client r ≠ client →
  ∃ e, RedeemInviteAndAccept jti pipe ss client epoch now d = (Fail e, d) ∧
       errors_Is e ErrInviteRedeemed = true.
Proof.
  intros Hb Hr Hc. unfold RedeemInviteAndAccept, in_tx, redeem_accept_tx, insert_redemption, redemption_of in *.
  rewrite Hb, Hr. cbn [Z.eqb]. rewrite Hr. cbn [need mbind res_bind].
  rewrite (proj2 (seqb_false _ _) Hc). cbn. eexists. done.
Qed.

(** ** Steps keep what was recorded *)
Lemma exec_revocations o d k row :
  revocations d !! k = Some row →
  ∃ row', revocations (exec o d) !! k = Some row' ∧ rv_epoch row ≤ rv_epoch row'.
Proof.
  intros Hk. destruct o as [now s t j e|now j p ss c|now j p ss c e]; cbn [exec].
  - destruct (Revoke_cases now s t j e d) as [[er ->]|(-> & _ & _ & He)]; [by exists row|].
    cbn [snd set_revocations revocations]. destruct (decide (k = (s, t, j))) as [->|Hne].
    + rewrite lookup_insert_eq. eexists. split; [done|]. apply He.
      unfold select_epoch. by rewrite Hk.
    + rewrite lookup_insert_ne by done. by exists row.
  - destruct (RedeemInvite_cases now j p ss c d) as [[er ->]|[[_ ->]|(r & _ & _ & ->)]]; by exists row.
  - destruct (Accept_cases j p ss c e now d) as [[er ->]|[(_ & _ & ->)|(r & _ & _ & ->)]]; by exists row.
Qed.

Lemma exec_redemptions o d j p r :
  redemption_of d j p = Some r → redemption_of (exec o d) j p = Some r.
Proof.
  unfold redemption_of. intros Hk. destruct o as [now s t jj e|now jj pp ss c|now jj pp ss c e]; cbn [exec].
  - destruct (Revoke_cases now s t jj e d) as [[er ->]|(-> & _)]; done.
  - destruct (RedeemInvite_cases now jj pp ss c d) as [[er ->]|[[Hn ->]|(r' & _ & _ & ->)]]; try done.
    cbn. rewrite lookup_insert_ne; [done|]. intros [= -> ->]. unfold redemption_of in Hn. congruence.
  - destruct (Accept_cases jj pp ss c e now d) as [[er ->]|[(Hn & _ & ->)|(r' & _ & _ & ->)]]; try done.
    cbn. rewrite lookup_insert_ne; [done|]. intros [= -> ->]. unfold redemption_of in Hn. congruence.
Qed.

Lemma exec_accepted o d k row :
  accepted d !! k = Some row → is_Some (accepted (exec o d) !! k).
Proof.
  intros Hk. destruct o as [now s t jj e|now jj pp ss c|now jj pp ss c e]; cbn [exec].
  - destruct (Revoke_cases now s t jj e d) as [[er ->]|(-> & _)]; by eexists.
  - destruct (RedeemInvite_cases now jj pp ss c d) as [[er ->]|[[Hn ->]|(r' & _ & _ & ->)]]; by eexists.
  - destruct (Accept_cases jj pp ss c e now d) as [[er ->]|[(Hn & _ & ->)|(r' & _ & _ & ->)]];
      [by eexists| |by eexists].
    cbn. destruct (decide (k = (pp, c))) as [->|Hne].
    + rewrite lookup_insert_eq. by eexists.
    + rewrite lookup_insert_ne by done. by eexists.
Qed.

(** Along any run. *)
Lemma steps_revocations d d' k row :
  rtc rel_step d d' → revocations d !! k = Some row →
  ∃ row', revocations d' !! k = Some row' ∧ rv_epoch row ≤ rv_epoch row'.
Proof.
  intros Hs. revert row. induction Hs as [d|d d1 d2 Hstep _ IH]; intros row Hk; [by exists row|].
  destruct Hstep as [o d _]. apply (exec_revocations o) in Hk as (r1 & Hk & Hle).
  destruct (IH _ Hk) as (r2 & H2 & Hle2). exists r2. split; [done|lia].
Qed.

Lemma steps_redemptions d d' j p r :
  rtc rel_step d d' → redemption_of d j p = Some r → redemption_of d' j p = Some r.
Proof.
  intros Hs. induction Hs as [d|d d1 d2 Hstep _ IH]; [done|].
  intros Hk. destruct Hstep as [o d _]. by apply IH, exec_redemptions.
Qed.

(** Stored revocation epochs are positive. *)
Definition epochs_positive (d : relations) : Prop :=
  ∀ k row, revocations d !! k = Some row → 0 < rv_epoch row.

Lemma exec_epochs_positive o d : op_ok o → epochs_positive d → epochs_positive (exec o d).
Proof.
  intros Ho Hp. destruct o as [now s t j e|now j p ss c|now j p ss c e]; cbn [exec].
  - destruct (Revoke_cases now s t j e d) as [[er ->]|(-> & Hz & _)]; [done|].
    intros k row. cbn [snd set_revocations revocations]. destruct (decide (k = (s, t, j))) as [->|Hne].
    + rewrite lookup_insert_eq. intros [= <-]. cbn in *. lia.
    + rewrite lookup_insert_ne by done. apply Hp.
  - destruct (RedeemInvite_cases now j p ss c d) as [[er ->]|[[_ ->]|(r & _ & _ & ->)]]; done.
  - destruct (Accept_cases j p ss c e now d) as [[er ->]|[(_ & _ & ->)|(r & _ & _ & ->)]]; done.
Qed.

Lemma steps_epochs_positive d d' : rtc rel_step d d' → epochs_positive d → epochs_positive d'.
Proof.
  intros Hs. induction Hs as [|d d1 d2 Hstep _ IH]; [done|]. destruct Hstep as [o d Ho].
  intros H. by apply IH, exec_epochs_positive.
Qed.

Lemma steps_epoch_mono d d' k :
  rtc rel_step d d' → epochs_positive d → epoch_of d k ≤ epoch_of d' k.
Proof.
  intros Hs Hp. pose proof (steps_epochs_positive _ _ Hs Hp) as Hp'. unfold epoch_of.
  destruct (revocations d !! k) as [row|] eqn:E; cbn [fmap option_fmap option_map default].
  - destruct (steps_revocations _ _ _ _ Hs E) as (row' & -> & Hle). done.
  - destruct (revocations d' !! k) as [row'|] eqn:E'; [|done]. cbn. specialize (Hp' _ _ E'). lia.
Qed.

(** ** The invariant of reachable databases *)
Record rel_inv (d : relations) : Prop := {
  (** an exact redemption is backed by a relationship *)
  inv_exact : ∀ j p r, redemption_of d j p = Some r → rd_kind r = KindExact →
                is_Some (accepted d !! (p, rd_client r));
  (** a relationship comes from an exact redemption of its invite by its recipient *)
  inv_rel : ∀ p c row, accepted d !! (p, c) = Some row →
              ∃ r, redemption_of d (rl_invite row) p = Some r ∧ rd_client r = c ∧ rd_kind r = KindExact;
}.

Lemma rel_inv_empty : rel_inv no_relations.
Proof. constructor; unfold redemption_of; cbn; intros *; by rewrite lookup_empty. Qed.

Lemma exec_inv o d : rel_inv d → rel_inv (exec o d).
Proof.
  intros [HE HR]. destruct o as [now s t jj e|now jj pp ss c|now jj pp ss c e]; cbn [exec].
  - destruct (Revoke_cases now s t jj e d) as [[er ->]|(-> & _)]; by constructor.
  - destruct (RedeemInvite_cases now jj pp ss c d) as [[er ->]|[[Hn ->]|(r' & _ & _ & ->)]]; [by constructor| |by constructor].
    unfold redemption_of in *. constructor; unfold redemption_of; cbn.
    + intros j p r. destruct (decide ((j, p) = (jj, pp))) as [->|Hne].
      * rewrite lookup_insert_eq. by intros [= <-].
      * rewrite lookup_insert_ne by done. apply HE.
    + intros p c' row Hrow. destruct (HR _ _ _ Hrow) as (r & Hr & ? & ?). exists r.
      rewrite lookup_insert_ne; [done|]. intros [= -> ->]. congruence.
  - destruct (Accept_cases jj pp ss c e now d) as [[er ->]|[(Hn & _ & ->)|(r' & _ & _ & ->)]]; [by constructor| |by constructor].
    unfold redemption_of in *. constructor; unfold redemption_of; cbn.
    + intros j p r. destruct (decide ((j, p) = (jj, pp))) as [[= -> ->]|Hne].
      * rewrite lookup_insert_eq. intros [= <-] _. cbn. rewrite lookup_insert_eq. by eexists.
      * rewrite lookup_insert_ne by done. intros Hr Hk. destruct (HE _ _ _ Hr Hk) as [row Hrow].
        destruct (decide ((p, rd_client r) = (pp, c))) as [->|Hne']; [rewrite lookup_insert_eq|
          rewrite lookup_insert_ne by done]; by eexists.
    + intros p c' row. destruct (decide ((p, c') = (pp, c))) as [[= -> ->]|Hne].
      * rewrite lookup_insert_eq. intros [= <-]. cbn. rewrite lookup_insert_eq. by eexists.
      * rewrite lookup_insert_ne by done. intros Hrow. destruct (HR _ _ _ Hrow) as (r & Hr & ? & ?).
        exists r. rewrite lookup_insert_ne; [done|]. intros [= -> ->]. congruence.
Qed.

Lemma steps_inv d d' : rtc rel_step d d' → rel_inv d → rel_inv d'.
Proof.
  intros Hs. induction Hs as [|d d1 d2 Hstep _ IH]; [done|]. destruct Hstep as [o d _].
  intros H. by apply IH, exec_inv.
Qed.

(** ** Classification of invites *)
Lemma pipe_where_Some p d j pipe :
  pipe_where p d j = Some pipe → ∃ r, redemption_of d j pipe = Some r ∧ p r = true.
Proof.
  unfold pipe_where. destruct (head _) as [[[j' pp] r]|] eqn:E; [|done]. intros [= <-].
  apply head_Some_elem_of, list_elem_of_In, filter_In in E as [Hin Hp].
  apply andb_true_iff in Hp as [Hj Hp]. cbn in Hj. apply seqb_true in Hj. subst.
  exists r. split; [|done]. by apply elem_of_map_to_list, list_elem_of_In.
Qed.

Lemma pipe_where_None p d j :
  pipe_where p d j = None ↔ ∀ pipe r, redemption_of d j pipe = Some r → p r = false.
Proof.
  unfold pipe_where. split.
  - intros H pipe r Hr. destruct (p r) eqn:Hp; [|done].
    assert (((j, pipe), r) ∈ List.filter (λ kv, (kv.1.1 =s j) && p kv.2) (map_to_list (invite_redemptions d))) as Hin.
    { apply list_elem_of_In, filter_In. split.
      - apply list_elem_of_In, elem_of_map_to_list, Hr.
      - cbn. by rewrite seqb_refl, Hp. }
    destruct (List.filter _ _); [by apply elem_of_nil in Hin|done].
  - intros H. destruct (head _) as [[[j' pp] r]|] eqn:E; [|done].
    apply head_Some_elem_of, list_elem_of_In, filter_In in E as [Hin Hp].
    apply andb_true_iff in Hp as [Hj Hp]. cbn in Hj, Hp. apply seqb_true in Hj. subst.
    rewrite (H pp r) in Hp; [done|]. by apply elem_of_map_to_list, list_elem_of_In.
Qed.

(** ** Properties *)
Lemma reachable_positive d : rtc rel_step no_relations d → epochs_positive d.
Proof. intros H. apply (steps_epochs_positive _ _ H). by intros k row. Qed.

(** Revocations only accumulate. *)
Lemma revocations_monotone d d' scope subjectType jti :
  rtc rel_step no_relations d → rtc rel_step d d' →
  (IsRevoked d scope subjectType jti = Ok true → IsRevoked d' scope subjectType jti = Ok true) ∧
  (∀ n n', RevocationEpoch d scope subjectType jti = Ok n → RevocationEpoch d' scope subjectType jti = Ok n' →
           n ≤ n') ∧
  (∀ now epoch n, RevocationEpoch d scope subjectType jti = Ok n → 0 ≤ epoch < n →
     ∃ e, Revoke now scope subjectType jti epoch d = (Fail e, d)).
Proof.
  intros H0 H. split_and!.
  - unfold IsRevoked. intros [= [row Hr]%bool_decide_eq_true_1].
    destruct (steps_revocations _ _ _ _ H Hr) as (row' & Hr' & _).
    f_equal. apply bool_decide_eq_true_2. by exists row'.
  - unfold RevocationEpoch, select_epoch. intros n n' [= <-] [= <-].
    by apply (steps_epoch_mono d d' (scope, subjectType, jti)), reachable_positive.
  - unfold RevocationEpoch. intros now epoch n [= <-] Hlt.
    destruct (Revoke_cases now scope subjectType jti epoch d) as [?|(_ & Hz & _ & He)]; [done|exfalso].
    destruct (select_epoch d scope subjectType jti) as [e|] eqn:E; cbn in Hlt.
    + specialize (He e eq_refl). lia.
    + lia.
Qed.

(** A small history: a Pipe's access epoch is set, an exact invite is redeemed, then the
    invite is revoked. *)
Definition history : list rel_op :=
  [OpRevoke zero_time "pip_a" "pipe-access" "pip_a" 3;
   OpAccept zero_time "jti_1" "pip_a" "ses_1" "alice" 3;
   OpRedeem zero_time "jti_2" "pip_a" "ses_2" "bob";
   OpRevoke zero_time "pip_a" "exact.invite" "jti_1" 1].

Lemma run_reachable os : Forall op_ok os → ∀ d, rtc rel_step d (run os d).
Proof.
  induction 1 as [|o os Ho _ IH]; intros d; [constructor|]. eapply rtc_l; [by apply rel_step_op|]. apply IH.
Qed.
Lemma history_ok : Forall op_ok history.
Proof. repeat constructor; cbn; lia. Qed.
Definition after (n : nat) : relations := run (take n history) no_relations.
Lemma after_reachable n : rtc rel_step no_relations (after n).
Proof. apply run_reachable, Forall_take, history_ok. Qed.
Lemma after_later n : rtc rel_step (after n) (after 4).
Proof.
  assert (after 4 = run (drop n history) (after n)) as ->.
  { unfold after, run. rewrite <- fold_left_app. by rewrite take_drop. }
  apply run_reachable, Forall_drop, history_ok.
Qed.

(** An invite is redeemed once and for good. *)
Lemma redemption_once d d' jti pipe r now ss client epoch :
  redemption_of d jti pipe = Some r → rtc rel_step d d' →
  redemption_input_bad jti pipe ss client = false →
  redemption_of d' jti pipe = Some r ∧
  (rd_client r ≠ client →
     (∃ e, RedeemInvite now jti pipe ss client d' = (Fail e, d') ∧ errors_Is e ErrInviteRedeemed = true) ∧
     (∃ e, RedeemInviteAndAccept jti pipe ss client epoch now d' = (Fail e, d')
           ∧ errors_Is e ErrInviteRedeemed = true)) ∧
  (rd_client r = client →
     RedeemInvite now jti pipe ss client d' = (Ok false, d') ∧
     RedeemInviteAndAccept jti pipe ss client epoch now d' = (Ok true, d')).
Proof.
  intros Hr H Hb. apply (steps_redemptions _ _ _ _ _ H) in Hr. split_and!; [done| |].
  - intros Hc. split; [|by apply (Accept_other_client _ _ _ _ _ _ _ r)].
    unfold RedeemInvite, insert_redemption, redemption_of in *. rewrite Hb, Hr. cbn [Z.eqb].
    rewrite Hr, (proj2 (seqb_false _ _) Hc). by eexists.
  - intros <-. unfold RedeemInvite, RedeemInviteAndAccept, in_tx, redeem_accept_tx, insert_redemption, redemption_of in *.
    rewrite Hb, Hr. cbn [Z.eqb]. rewrite Hr. cbn [need mbind res_bind]. by rewrite seqb_refl.
Qed.

(** Redemptions and accepted relationships agree. *)
Lemma relations_consistent d jti pipe client :
  rtc rel_step no_relations d → blank jti = false →
  (∀ r, redemption_of d jti pipe = Some r → rd_kind r = KindExact → is_Some (accepted d !! (pipe, rd_client r))) ∧
  (∀ row, accepted d !! (pipe, client) = Some row →
     ∃ r, redemption_of d (rl_invite row) pipe = Some r ∧ rd_client r = client ∧ rd_kind r = KindExact) ∧
  (∀ p, ResolveRevokeInvite d jti = Ok (FamilyExact p) →
     ∃ r, redemption_of d jti p = Some r ∧ rd_kind r = KindExact) ∧
  (ResolveRevokeInvite d jti = Ok FamilyScoped → ∀ p r, redemption_of d jti p = Some r → rd_kind r = KindScoped).
Proof.
  intros H Hb. destruct (steps_inv _ _ H rel_inv_empty) as [HE HR].
  unfold ResolveRevokeInvite, ExactRedemptionPipeForInvite. rewrite Hb. cbn [mbind res_bind].
  split_and!; [apply HE|apply HR| |].
  - intros p. destruct (pipe_where is_exact d jti) as [q|] eqn:E; [|done]. intros [= ->].
    apply pipe_where_Some in E as (r & ? & Hx). exists r. split; [done|]. by apply bool_decide_eq_true_1 in Hx.
  - destruct (pipe_where is_exact d jti) as [q|] eqn:E; [done|]. intros _ p r Hr.
    rewrite pipe_where_None in E. apply E in Hr. unfold is_exact in Hr.
    apply bool_decide_eq_false_1 in Hr. by destruct (rd_kind r).
Qed.

(** C25: the history of invites and revocations in a store, over any sequence of operations.
    An invite is redeemed once and for good: every later state has the same redemption, any
    other client is refused with [ErrInviteRedeemed] and nothing is written, by the scoped
    and by the exact operation, and the same client asking again is answered without a
    second write. Revocations only accumulate: a revoked subject stays revoked, the epoch of
    a subject never decreases, and a revocation below the stored epoch is refused without
    effect. Exact redemptions and accepted relationships agree: every exactly redeemed
    invite has a relationship for its Pipe and client, every relationship comes from an
    exact redemption of its invite by its recipient, and the classification used when an
    invite is revoked answers with a Pipe exactly when the invite was redeemed exactly. *)
Theorem relations_history d d' :
  rtc rel_step no_relations d → rtc rel_step d d' →
  (∀ jti pipe r now ss client epoch, redemption_of d jti pipe = Some r → redemption_input_bad jti pipe ss client = false →
     redemption_of d' jti pipe = Some r ∧
     (rd_client r ≠ client →
        (∃ e, RedeemInvite now jti pipe ss client d' = (Fail e, d') ∧ errors_Is e ErrInviteRedeemed = true) ∧
        (∃ e, RedeemInviteAndAccept jti pipe ss client epoch now d' = (Fail e, d')
              ∧ errors_Is e ErrInviteRedeemed = true)) ∧
     (rd_client r = client →
        RedeemInvite now jti pipe ss client d' = (Ok false, d') ∧
        RedeemInviteAndAccept jti pipe ss client epoch now d' = (Ok true, d'))) ∧
  (∀ scope subjectType jti,
     (IsRevoked d scope subjectType jti = Ok true → IsRevoked d' scope subjectType jti = Ok true) ∧
     (∀ n n', RevocationEpoch d scope subjectType jti = Ok n → RevocationEpoch d' scope subjectType jti = Ok n' → n ≤ n') ∧
     (∀ now epoch n, RevocationEpoch d scope subjectType jti = Ok n → 0 ≤ epoch < n →
        ∃ e, Revoke now scope subjectType jti epoch d = (Fail e, d))) ∧
  (∀ jti pipe client, blank jti = false →
     (∀ r, redemption_of d jti pipe = Some r → rd_kind r = KindExact → is_Some (accepted d !! (pipe, rd_client r))) ∧
     (∀ row, accepted d !! (pipe, client) = Some row →
        ∃ r, redemption_of d (rl_invite row) pipe = Some r ∧ rd_client r = client ∧ rd_kind r = KindExact) ∧
     (∀ p, ResolveRevokeInvite d jti = Ok (FamilyExact p) →
        ∃ r, redemption_of d jti p = Some r ∧ rd_kind r = KindExact) ∧
     (ResolveRevokeInvite d jti = Ok FamilyScoped → ∀ p r, redemption_of d jti p = Some r → rd_kind r = KindScoped)).
Proof.
  intros H0 H. split_and!; intros; [by apply (redemption_once d)|by apply revocations_monotone|by apply relations_consistent].
Qed.

Lemma relations_history_witness :
  (∃ e, RedeemInviteAndAccept "jti_1" "pip_a" "ses_9" "mallory" 3 zero_time (after 4) = (Fail e, after 4)
        ∧ errors_Is e ErrInviteRedeemed = true) ∧
  (∃ e, Revoke zero_time "pip_a" "pipe-access" "pip_a" 2 (after 2) = (Fail e, after 2)) ∧
  is_Some (accepted (after 2) !! ("pip_a", "alice")).
Proof.
  assert (Hr : redemption_of (after 2) "jti_1" "pip_a"
               = Some (mkRedemption (RFC3339Nano (UTC zero_time)) "ses_1" "alice" KindExact)) by (vm_compute; reflexivity).
  destruct (relations_history (after 2) (after 4) (after_reachable 2) (after_later 2)) as (H1 & H2 & H3). split_and!.
  - destruct (H1 "jti_1" "pip_a" _ zero_time "ses_9" "mallory" 3 Hr eq_refl) as (_ & H & _).
    destruct H as [_ H]; [discriminate|exact H].
  - destruct (H2 "pip_a" "pipe-access" "pip_a") as (_ & _ & H). apply (H zero_time 2 3); [reflexivity|lia].
  - destruct (H3 "jti_1" "pip_a" "alice" eq_refl) as (H & _). exact (H _ Hr eq_refl).
Defined.
