(* ===== verification/ExactAuthority.v ===== *)
(** * The Exact Authority

    [internal/exactauthority]: the owner-local key lifecycle, redemption of an
    exact invite and renewal of accepted access, against the state interface of
    [state.go]; and the store adapter of [internal/store/exactauthority_adapter.go]
    that implements it. *)
From S2P Require Import Prelude GoStrings GoTime Encoding Json JsonRoundTrip Sha256.
From S2P Require Import Credentials CredentialFacts CredentialVerify StoreRelations StoreRelationFacts.
Open Scope Z_scope.

(** ** The state interface ([state.go]) *)
Class AuthorityState (S : Type) := {
  as_IsRevoked : S → string → string → res bool;
  as_RevocationEpoch : S → string → string → res Z;
  as_RedeemInviteAndAccept : S → string → string → string → string → Z → time → res bool * S;
  as_AcceptedRelationship : S → string → string → res (option (string * Z));
}.

(** What an implementation promises: [grows] is how its state may evolve, and
    [redeemed_by] who holds an invite. *)
Class AuthorityStateLaws (S : Type) `{AuthorityState S} := {
  grows : S → S → Prop;
  good_state : S → Prop;
  redeemed_by : S → string → string → option string;
  grows_preorder :: PreOrder grows;
  grows_good s s' : grows s s' → good_state s → good_state s';
  grows_redeemed s s' j p c : grows s s' → redeemed_by s j p = Some c → redeemed_by s' j p = Some c;
  grows_revoked s s' j t :
    grows s s' → as_IsRevoked s j t = Ok true → as_IsRevoked s' j t = Ok true;
  grows_epoch s s' p t n n' :
    grows s s' → good_state s → as_RevocationEpoch s p t = Ok n → as_RevocationEpoch s' p t = Ok n' → n ≤ n';
  redeem_grows s j p ss c e now : 0 ≤ e < 2 ^ 64 → grows s (as_RedeemInviteAndAccept s j p ss c e now).2;
  redeem_refused s j p ss c e now r s' :
    as_RedeemInviteAndAccept s j p ss c e now = (r, s') → r ≠ Ok true → s' = s;
  redeem_holds s j p ss c e now s' :
    as_RedeemInviteAndAccept s j p ss c e now = (Ok true, s') → redeemed_by s' j p = Some c;
}.

(** ** Keys ([exactauthority.go]) *)
Section keys.
Context `{Ed25519}.

Record Authority := mkAuth {
  Private : PrivateKey;
  AuthBinding : Binding.OwnerBinding;
  AuthOwner : Binding.OwnerAuthority;
}.

Definition validPipeIDComponent (pipeID : string) : bool :=
  HasPrefix pipeID "pip_" && negb (ContainsAny pipeID ["/"%char; backslash]) && (slen pipeID <=? MaxPipeIDLen).

(** The arguments of [filepath.Join]. *)
Definition KeyPath (secretsDir pipeID : string) : res (list string) :=
  if (secretsDir =s "") || negb (validPipeIDComponent pipeID)
  then Fail (errorf "exactauthority: invalid key path")
  else Ok [secretsDir; "exact-authorities"; pipeID +:+ ".key"].

Definition fromBinding (private : PrivateKey) (binding : Binding.OwnerBinding) : res Authority :=
  _ ← refuse (negb (KeyLen private =? PrivateKeySize)) (errorf "exactauthority: invalid private key");
  let authorityKey := PublicString (Public private) in
  owner ← Binding.VerifyOwnerAuthority binding authorityKey;
  _ ← refuse (Binding.oa_AuthorityKey owner =s Binding.oa_Owner owner)
        (errorf "exactauthority: authority key must be dedicated and distinct from owner");
  Ok (mkAuth private binding owner).

Record LocalOwnerWorkflow := mkWorkflow {
  w_KeyPath : string; w_PipeID : string; w_Epoch : Z;
  w_RedemptionPeers : string; w_RedemptionProtocol : string }.

(** [provision] stands for [localkey.Provision] on the key file. *)
Definition Provision (provision : string → res PrivateKey) (w : LocalOwnerWorkflow)
    (ownerPrivate : PrivateKey) : res Authority :=
  let ownerPublic := Public ownerPrivate in
  _ ← refuse (negb (VerifyPipeOwner (w_PipeID w) ownerPublic))
        (errorf "exactauthority: owner cannot provision authority for foreign Pipe");
  private ← provision (w_KeyPath w);
  binding ← Binding.NewOwnerBinding ownerPrivate (Public private) (w_PipeID w) (w_Epoch w)
              (w_RedemptionPeers w) (w_RedemptionProtocol w);
  fromBinding private binding.

Record Loader := mkLoader { l_KeyPath : string; l_Binding : Binding.OwnerBinding }.

(** [load] stands for [localkey.Load] on the key file. *)
Definition Load (load : string → res PrivateKey) (l : Loader) : res Authority :=
  private ← load (l_KeyPath l);
  fromBinding private (l_Binding l).
End keys.

Arguments Authority {_}.

(** ** Redemption ([redeem.go]) *)
Section redeem.
Context `{Ed25519} {S : Type} `{AuthorityState S}.

(** Steps 2 to 9 and 6B: they only read the state. *)
Definition redeem_checks (load : string → res PrivateKey) (wall now : time)
    (encodedInvite recipientPublic serverChallenge challengeProof : string) (loader : Loader) (st : S)
    : res (Invite.ExactInvite * Authority) :=
  invite ← Invite.DecodeInvite encodedInvite;
  binding ← relabel (Binding.DecodeOwnerBinding (Invite.Binding invite))
      (errorf "exactauthority: redeeming invite has invalid owner binding");
  _ ← relabel (Binding.VerifyOwnerBinding binding)
      (errorf "exactauthority: redeeming invite owner binding invalid");
  ownerPub ← relabel (PublicFromString (Binding.Owner binding))
      (errorf "exactauthority: redeeming invite invalid owner key");
  _ ← refuse (negb (VerifyPipeOwner (Invite.AudiencePipeID invite) ownerPub))
      (errorf "exactauthority: redeeming invite owner is not the Pipe owner");
  _ ← refuse (Binding.AuthorityKey binding <>s Invite.Issuer invite)
      (errorf "exactauthority: redeeming invite issuer not bound by owner");
  _ ← refuse (Binding.PipeID binding <>s Invite.AudiencePipeID invite)
      (errorf "exactauthority: redeeming invite binding pipe mismatch");
  auth ← relabel (Load load loader)
      (errorf "exactauthority: redeeming invite authority key unavailable");
  _ ← Invite.Verify wall invite now (Invite.AudiencePipeID invite);
  _ ← refuse (negb (Invite.OneTime invite)) (errorf "exactauthority: invite must be one-time");
  recipientPubKey ← relabel (PublicFromString recipientPublic)
      (errorf "exactauthority: invalid recipient public key");
  _ ← refuse (serverChallenge =s "") (errorf "exactauthority: missing server challenge");
  _ ← refuse (negb (VerifyProof recipientPubKey challengeProof RedeemProofPurpose
                      [Invite.JTI invite; Invite.AudiencePipeID invite; serverChallenge]))
      (errorf "exactauthority: invalid challenge proof in redemption");
  revoked ← relabel (as_IsRevoked st (Invite.JTI invite) "exact.invite")
      (errorf "exactauthority: revocation state unavailable");
  _ ← refuse revoked (errorf "exactauthority: invite revoked");
  currentEpoch ← relabel (as_RevocationEpoch st (Invite.AudiencePipeID invite) "pipe-access")
      (errorf "exactauthority: epoch state unavailable");
  _ ← refuse (negb (currentEpoch =? Invite.AccessEpoch invite))
      (errorf "exactauthority: invite epoch stale");
  Ok (invite, auth).

(** Step 11: the lifetime of the first lease. *)
Definition cap_ttl (l : duration) : duration := if (l <=? 0) || (MaxTTL <? l) then MaxTTL else l.

Definition bootstrap_lifetime (leaseLifetime : duration) (expires now : time) : duration :=
  let l := cap_ttl leaseLifetime in
  let lifetime := Sub expires now in
  let l := if (lifetime <? l) && (0 <? lifetime) then lifetime else l in
  if l <=? 0 then MaxTTL else l.

(** [deps] says that neither the revocation state nor the redemption store is nil;
    the two entropies are those of the session identifier and of the lease. *)
Definition RedeemExactInvite (load : string → res PrivateKey) (wall : time)
    (rnd_session rnd_jti : entropy) (now : time)
    (encodedInvite recipientPublic serverChallenge challengeProof : string) (loader : Loader)
    (deps : bool) (leaseLifetime : duration) (st : S) : res Lease.AccessLease * S :=
  if negb deps then
    (Fail (errorf "exactauthority: redemption requires revocation and redemption state"), st)
  else match redeem_checks load wall now encodedInvite recipientPublic serverChallenge
               challengeProof loader st with
  | Fail e => (Fail e, st)
  | Ok (invite, auth) =>
      match NewSessionID rnd_session with
      | Fail e => (Fail e, st)
      | Ok sessionID =>
          match as_RedeemInviteAndAccept st (Invite.JTI invite) (Invite.AudiencePipeID invite)
                  sessionID recipientPublic (Invite.AccessEpoch invite) now with
          | (Fail _, st) => (Fail (errorf "exactauthority: redemption persistence failed"), st)
          | (Ok false, st) => (Fail (errorf "exactauthority: invite already redeemed by another"), st)
          | (Ok true, st) =>
              (Lease.NewAccessLease rnd_jti (Private auth) recipientPublic
                 (Invite.AudiencePipeID invite) now
                 (bootstrap_lifetime leaseLifetime (Invite.ExpiresAt invite) now)
                 (Invite.AccessEpoch invite), st)
          end
      end
  end.

Definition NewAccessLeaseForReissuance (rnd : entropy) (auth : Authority)
    (recipientPublic pipeID : string) (now : time) (leaseLifetime : duration) (accessEpoch : Z)
    : res Lease.AccessLease :=
  Lease.NewAccessLease rnd (Private auth) recipientPublic pipeID now (cap_ttl leaseLifetime) accessEpoch.

(** ** Renewal ([renew.go]) *)
Definition RenewAcceptedAccess (load : string → res PrivateKey) (rnd : entropy) (now : time)
    (pipeID recipientPublic ownerBindingEncoded serverChallenge challengeProof : string)
    (loader : Loader) (deps : bool) (leaseLifetime : duration) (st : S) : res Lease.AccessLease :=
  _ ← refuse (negb deps)
      (errorf "exactauthority: renewal requires revocation and accepted-binding state");
  _ ← refuse ((pipeID =s "") || (MaxPipeIDLen <? slen pipeID))
      (errorf "exactauthority: renewing invalid pipe id");
  recipientPubKey ← relabel (PublicFromString recipientPublic)
      (errorf "exactauthority: renewing invalid recipient public key");
  binding ← relabel (Binding.DecodeOwnerBinding ownerBindingEncoded)
      (errorf "exactauthority: renewing binding invalid");
  _ ← relabel (Binding.VerifyOwnerBinding binding)
      (errorf "exactauthority: renewing binding owner signature invalid");
  _ ← refuse (Binding.PipeID binding <>s pipeID)
      (errorf "exactauthority: renewing binding pipe mismatch");
  ownerPub ← relabel (PublicFromString (Binding.Owner binding))
      (errorf "exactauthority: renewing binding invalid owner key");
  _ ← refuse (negb (VerifyPipeOwner pipeID ownerPub))
      (errorf "exactauthority: renewing binding owner is not the Pipe owner");
  auth ← relabel (Load load loader) (errorf "exactauthority: renewing authority key unavailable");
  _ ← refuse (Binding.AuthorityKey binding <>s PublicString (Public (Private auth)))
      (errorf "exactauthority: renewing binding authority mismatch");
  relationship ← relabel (as_AcceptedRelationship st pipeID recipientPublic)
      (errorf "exactauthority: renewal accepted state unavailable");
  '(jti, acceptedEpoch) ← need relationship (errorf "exactauthority: no accepted binding for renewal");
  revoked ← relabel (as_IsRevoked st jti "exact.invite")
      (errorf "exactauthority: renewal revocation state unavailable");
  _ ← refuse revoked (errorf "exactauthority: accepted relationship revoked");
  currentEpoch ← relabel (as_RevocationEpoch st pipeID "pipe-access")
      (errorf "exactauthority: renewal epoch state unavailable");
  _ ← refuse (negb (currentEpoch =? acceptedEpoch)) (errorf "exactauthority: renewal epoch stale");
  _ ← refuse (serverChallenge =s "") (errorf "exactauthority: missing renewal challenge");
  _ ← refuse (negb (VerifyProof recipientPubKey challengeProof RenewProofPurpose
                      [pipeID; serverChallenge]))
      (errorf "exactauthority: invalid renewal possession proof");
  NewAccessLeaseForReissuance rnd auth recipientPublic pipeID now leaseLifetime acceptedEpoch.
End redeem.

(** ** The store adapter *)

(** [ExactAuthorityRevocationState] of a scope, normally the PipeID. *)
Definition ExactAuthorityRevocationState (scope : string) : AuthorityState relations := {|
  as_IsRevoked d jti subjectType := IsRevoked d scope subjectType jti;
  as_RevocationEpoch d pipeID subjectType := RevocationEpoch d scope subjectType pipeID;
  as_RedeemInviteAndAccept d jti pipeID sessionID clientPublic accessEpoch now :=
    RedeemInviteAndAccept jti pipeID sessionID clientPublic accessEpoch now d;
  as_AcceptedRelationship d pipeID clientPublic := AcceptedRelationship d pipeID clientPublic;
|}.

Definition NewExactAuthorityRevocationStateFromOwner `{Ed25519} (ownerPrivate : PrivateKey)
    : AuthorityState relations :=
  ExactAuthorityRevocationState (PipeIDFromOwner (Public ownerPrivate)).

(** [ExactEpochAdapter.PipeAccessEpoch]. *)
Definition PipeAccessEpoch (d : relations) (pipeID : string) : res Z :=
  RevocationEpoch d pipeID "pipe-access" pipeID.

(** The adapter keeps the promises of the interface. *)
Definition holder (d : relations) (j p : string) : option string := rd_client <$> redemption_of d j p.

Lemma steps_holder s s' j p c : rtc rel_step s s' → holder s j p = Some c → holder s' j p = Some c.
Proof.
  unfold holder. intros Hg. destruct (redemption_of s j p) as [r|] eqn:E; [|done].
  by rewrite (steps_redemptions _ _ _ _ _ Hg E).
Qed.

Lemma steps_IsRevoked s s' scope j t :
  rtc rel_step s s' → IsRevoked s scope t j = Ok true → IsRevoked s' scope t j = Ok true.
Proof.
  unfold IsRevoked. intros Hg [= Hr%bool_decide_eq_true_1].
  destruct Hr as [row Hr]. destruct (steps_revocations _ _ _ _ Hg Hr) as (row' & Hr' & _).
  f_equal. apply bool_decide_eq_true_2. by exists row'.
Qed.

Lemma steps_RevocationEpoch s s' scope p t n n' :
  rtc rel_step s s' → epochs_positive s →
  RevocationEpoch s scope t p = Ok n → RevocationEpoch s' scope t p = Ok n' → n ≤ n'.
Proof.
  intros Hg Hgood. unfold RevocationEpoch, select_epoch.
  intros [= <-] [= <-]. by apply (steps_epoch_mono s s' (scope, t, p)).
Qed.

Lemma Accept_steps s j p ss c e now :
  0 ≤ e < 2 ^ 64 → rtc rel_step s (RedeemInviteAndAccept j p ss c e now s).2.
Proof. intros He. apply rtc_once. exact (rel_step_op (OpAccept now j p ss c e) s He). Qed.

Lemma Accept_refused s j p ss c e now r s' :
  RedeemInviteAndAccept j p ss c e now s = (r, s') → r ≠ Ok true → s' = s.
Proof.
  intros Hr Hne.
  destruct (Accept_cases j p ss c e now s) as [[er E]|[(_ & _ & E)|(row & _ & _ & E)]];
    rewrite E in Hr; by simplify_eq.
Qed.

Lemma Accept_holder s j p ss c e now s' :
  RedeemInviteAndAccept j p ss c e now s = (Ok true, s') → holder s' j p = Some c.
Proof.
  intros Hr. unfold holder.
  destruct (Accept_cases j p ss c e now s) as [[er E]|[(_ & _ & E)|(row & Hrow & Hc & E)]];
    rewrite E in Hr; simplify_eq.
  - unfold redemption_of. cbn. by rewrite lookup_insert_eq.
  - by rewrite Hrow.
Qed.

#[export] Instance adapter_laws (scope : string)
    : @AuthorityStateLaws relations (ExactAuthorityRevocationState scope) :=
  @Build_AuthorityStateLaws relations (ExactAuthorityRevocationState scope)
    (rtc rel_step) epochs_positive holder _ steps_epochs_positive steps_holder
    (λ s s' j t, steps_IsRevoked s s' scope j t)
    (λ s s' p t, steps_RevocationEpoch s s' scope p t)
    Accept_steps Accept_refused Accept_holder.
