(* ===== verification/ExactAuthorityFacts.v ===== *)
(** * Correctness of redemption and renewal

    Proved against the state interface, for every implementation that keeps its
    laws; the store adapter is one. *)
From S2P Require Import Prelude GoStrings GoTime Encoding Json JsonRoundTrip Sha256.
From S2P Require Import Credentials CredentialFacts CredentialVerify StoreRelations StoreRelationFacts ExactAuthority.
Open Scope Z_scope.

(** ** Lifetimes *)
Lemma cap_ttl_range l : 0 < cap_ttl l ≤ MaxTTL.
Proof. unfold cap_ttl. assert (0 < MaxTTL) by done. destruct (_ || _) eqn:E; lia. Qed.

Lemma bootstrap_lifetime_range l e now :
  0 < bootstrap_lifetime l e now ≤ MaxTTL ∧
  (unix_ns now < unix_ns e → unix_ns now + bootstrap_lifetime l e now ≤ unix_ns e).
Proof.
  unfold bootstrap_lifetime. pose proof (cap_ttl_range l) as Hc. set (c := cap_ttl l) in *. clearbody c.
  unfold Sub, max_duration, min_duration. assert (0 < MaxTTL < 2 ^ 63 - 1) by done.
  destruct ((_ <? c) && _) eqn:E; destruct (_ <=? 0) eqn:E2; split; lia.
Qed.

Lemma effective_now_set now wall : IsZero now = false → effective_now now wall = UTC now.
Proof. unfold effective_now. by intros ->. Qed.

(** ** The loaded authority *)
Lemma fromBinding_ok `{Ed25519} k b a :
  fromBinding k b = Ok a →
  Private a = k ∧ AuthBinding a = b ∧
  (∃ owner, binding_accepts b owner ∧ VerifyPipeOwner (Binding.PipeID b) owner = true) ∧
  Binding.AuthorityKey b ≠ Binding.Owner b ∧
  (PublicString (Public k) ≠ "" → Binding.AuthorityKey b = PublicString (Public k)).
Proof.
  unfold fromBinding. intros Hf. cbv zeta in Hf. res_inv.
  match goal with E : Binding.VerifyOwnerAuthority _ _ = _ |- _ =>
    apply owner_authority_spec in E as (Ho & Hk & ->) end.
  cbn in *. done.
Qed.

Section authority_facts.
Context `{Ed25519Laws} {S : Type} `{AuthorityStateLaws S}.
Implicit Types (st : S).

Lemma PublicString_nonempty (k : PrivateKey) : PublicString (Public k) ≠ "".
Proof.
  intros E. apply (proj1 (base64_encode_empty _)) in E. pose proof (Public_size k) as Hs. rewrite E in Hs. done.
Qed.

(** The issuer of every lease minted with a loaded key is the bound one. *)
Lemma Load_issuer load l a :
  Load load l = Ok a →
  Binding.AuthorityKey (l_Binding l) = PublicString (Public (Private a)) ∧ AuthBinding a = l_Binding l.
Proof.
  unfold Load. intros Hl. res_inv. apply fromBinding_ok in Hl as (-> & -> & _ & _ & Hk).
  split; [|done]. apply Hk, PublicString_nonempty.
Qed.

(** ** Redemption *)
Record redeemable load wall now enc recipient challenge proof loader st
    (invite : Invite.ExactInvite) (auth : Authority) : Prop := {
  rd_decoded : Invite.DecodeInvite enc = Ok invite;
  rd_accepted : ∃ b owner issuer,
    invite_accepts invite (effective_now now wall) (Invite.AudiencePipeID invite) b owner issuer;
  rd_loaded : Load load loader = Ok auth;
  rd_recipient : ∃ key, recipient = PublicString key ∧ slen key = PublicKeySize ∧
    VerifyProof key proof RedeemProofPurpose
      [Invite.JTI invite; Invite.AudiencePipeID invite; challenge] = true;
  rd_challenge : challenge ≠ "";
  rd_not_revoked : as_IsRevoked st (Invite.JTI invite) "exact.invite" = Ok false;
  rd_epoch : as_RevocationEpoch st (Invite.AudiencePipeID invite) "pipe-access" =
               Ok (Invite.AccessEpoch invite);
}.

Lemma redeem_checks_ok load wall now enc recipient challenge proof loader st invite auth :
  redeem_checks load wall now enc recipient challenge proof loader st = Ok (invite, auth) →
  redeemable load wall now enc recipient challenge proof loader st invite auth.
Proof.
  unfold redeem_checks. intros Hc. res_inv. simplify_eq.
  match goal with E : PublicFromString recipient = _ |- _ => apply PublicFromString_spec in E as [-> ?] end.
  match goal with E : Invite.Verify _ _ _ _ = _ |- _ => apply invite_verify_sound in E end.
  constructor; try done. by eexists.
Qed.

Lemma redeem_cases load wall rs rj now enc recipient challenge proof loader deps life st r st' :
  RedeemExactInvite load wall rs rj now enc recipient challenge proof loader deps life st = (r, st') →
  ((∃ e, r = Fail e) ∧ st' = st) ∨
  (∃ invite auth ss,
     redeem_checks load wall now enc recipient challenge proof loader st = Ok (invite, auth) ∧
     as_RedeemInviteAndAccept st (Invite.JTI invite) (Invite.AudiencePipeID invite) ss recipient
       (Invite.AccessEpoch invite) now = (Ok true, st') ∧
     r = Lease.NewAccessLease rj (Private auth) recipient (Invite.AudiencePipeID invite) now
           (bootstrap_lifetime life (Invite.ExpiresAt invite) now) (Invite.AccessEpoch invite)).
Proof.
  unfold RedeemExactInvite. destruct deps; cbn [negb]; [|naive_solver].
  destruct (redeem_checks _ _ _ _ _ _ _ _ _) as [[invite auth]|e] eqn:E; [|naive_solver].
  destruct (NewSessionID rs) as [ss|e]; [|naive_solver].
  destruct (as_RedeemInviteAndAccept _ _ _ _ _ _ _) as [[[]|e] st1] eqn:Er.
  - intros [= <- <-]. right. by exists invite, auth, ss.
  - intros [= <- <-]. left. split; [by eexists|]. by apply (redeem_refused _ _ _ _ _ _ _ _ _ Er).
  - intros [= <- <-]. left. split; [by eexists|]. by apply (redeem_refused _ _ _ _ _ _ _ _ _ Er).
Qed.

(** The lease of a successful redemption. *)
Lemma redeemed_lease load wall rs rj now enc recipient challenge proof loader deps life st lease st' :
  RedeemExactInvite load wall rs rj now enc recipient challenge proof loader deps life st = (Ok lease, st') →
  IsZero now = false →
  ∃ invite auth,
    redeemable load wall now enc recipient challenge proof loader st invite auth ∧
    redeemed_by st' (Invite.JTI invite) (Invite.AudiencePipeID invite) = Some recipient ∧
    Lease.Subject lease = recipient ∧
    Lease.AudiencePipeID lease = Invite.AudiencePipeID invite ∧
    Lease.AccessEpoch lease = Invite.AccessEpoch invite ∧
    Lease.Issuer lease = PublicString (Public (Private auth)) ∧
    unix_ns (Lease.IssuedAt lease) = unix_ns now ∧
    unix_ns now < unix_ns (Lease.ExpiresAt lease) ≤ unix_ns (Invite.ExpiresAt invite) ∧
    unix_ns (Lease.ExpiresAt lease) - unix_ns now ≤ MaxTTL.
Proof.
  intros Hr Hz. destruct (redeem_cases _ _ _ _ _ _ _ _ _ _ _ _ _ _ _ Hr) as
    [[[e ?] _]|(invite & auth & ss & Hc & Hrd & Hl)]; [done|].
  apply redeem_checks_ok in Hc. exists invite, auth.
  symmetry in Hl. apply NewAccessLease_inv in Hl as (jti & m & _ & _ & _ & _ & _ & -> & _).
  destruct (rd_accepted _ _ _ _ _ _ _ _ _ _ _ Hc) as (b & owner & issuer & Hi).
  rewrite effective_now_set in Hi by done.
  pose proof (w_expires _ _ _ _ (ia_window _ _ _ _ _ _ Hi)) as Hexp. cbn [UTC unix_ns] in Hexp.
  destruct (bootstrap_lifetime_range life (Invite.ExpiresAt invite) now) as [Hb Hb'].
  split; [done|]. split; [by eapply redeem_holds|]. cbn. split_and!; try done; lia.
Qed.

(** ** Renewal *)
Lemma renew_ok load rnd now pipe recipient enc challenge proof loader deps life st lease :
  RenewAcceptedAccess load rnd now pipe recipient enc challenge proof loader deps life st = Ok lease →
  ∃ jti epoch key auth b,
    as_AcceptedRelationship st pipe recipient = Ok (Some (jti, epoch)) ∧
    as_IsRevoked st jti "exact.invite" = Ok false ∧
    as_RevocationEpoch st pipe "pipe-access" = Ok epoch ∧
    recipient = PublicString key ∧ challenge ≠ "" ∧
    VerifyProof key proof RenewProofPurpose [pipe; challenge] = true ∧
    Load load loader = Ok auth ∧ Binding.DecodeOwnerBinding enc = Ok b ∧
    Binding.PipeID b = pipe ∧ Binding.AuthorityKey b = PublicString (Public (Private auth)) ∧
    (∃ owner, binding_accepts b owner ∧ pipe = PipeIDFromOwner owner) ∧
    Lease.Subject lease = recipient ∧ Lease.AudiencePipeID lease = pipe ∧
    Lease.AccessEpoch lease = epoch ∧ Lease.Issuer lease = PublicString (Public (Private auth)) ∧
    unix_ns (Lease.IssuedAt lease) = unix_ns now ∧
    unix_ns now < unix_ns (Lease.ExpiresAt lease) ≤ unix_ns now + MaxTTL.
Proof.
  unfold RenewAcceptedAccess, NewAccessLeaseForReissuance. intros Hr.
  repeat first [bool_step | match goal with
    | Hr : mbind _ _ = Ok lease |- _ => apply bind_ok in Hr as (? & ? & Hr)
    | Hr : (let '(_, _) := ?p in _) = Ok lease |- _ => destruct p
    | E : refuse _ _ = Ok _ |- _ => apply refuse_ok in E
    | E : relabel _ _ = Ok _ |- _ => apply relabel_ok in E
    | E : need _ _ = Ok _ |- _ => apply need_ok in E
    end]. subst.
  repeat match goal with
  | E : PublicFromString _ = _ |- _ => apply PublicFromString_spec in E as [? ?]
  | E : VerifyPipeOwner _ _ = true |- _ => apply VerifyPipeOwner_true in E as [? ?]
  | E : Binding.VerifyOwnerBinding _ = _ |- _ => apply binding_verify_spec in E
  end.
  apply NewAccessLease_inv in Hr as (jt & m & _ & _ & _ & _ & _ & -> & _).
  pose proof (cap_ttl_range life).
  eexists _, _, _, _, _. cbn. split_and!; try done; try lia.
  match goal with Hb : binding_accepts ?b ?o |- _ => exists o; split; [done|];
    destruct (ba_owner _ _ Hb) as [Ho _] end.
  match goal with E : Binding.Owner ?b = PublicString ?x, E' : Binding.Owner ?b = PublicString ?y |- _ =>
    rewrite E in E'; apply base64_encode_inj in E'; subst end. done.
Qed.
End authority_facts.
