(* ===== verification/Domain.v ===== *)
(** * Domain model

    [internal/domain]: references ([ref.go]), the specifications and their
    validation ([model.go]) and the logical path of a Pipe ([graph.go]).

    [net/url].Parse and [net].SplitHostPort are arguments of the validation of
    service targets. *)
From S2P Require Import Prelude GoStrings GoTime.
Open Scope Z_scope.

(** ** References *)
Definition KindService : string := "service".
Definition KindPipe : string := "pipe".
Definition KindRun : string := "run".
Definition KindSession : string := "session".
Definition KindRelay : string := "relay".
Definition KindAuthority : string := "authority".
Definition KindGateway : string := "gateway".

Definition resource_kinds : list string :=
  [KindService; KindPipe; KindRun; KindSession; KindRelay; KindAuthority; KindGateway].

(** The regular expression [^[a-z0-9][a-z0-9@._-]{0,62}$]. *)
Definition name_head (c : ascii) : bool := is_lower c || is_digit c.
Definition name_tail (c : ascii) : bool :=
  name_head c || existsb (λ d, bool_decide (c = d)) ["@"; "."; "_"; "-"]%char.
Definition resourceNamePattern (s : string) : bool :=
  match bytes_of s with
  | [] => false
  | c :: r => name_head c && forallb name_tail r && (llen r <=? 62)
  end.

Record Ref := mkRef { Kind : string; Name : string }.
#[export] Instance Ref_eq_dec : EqDecision Ref.
Proof. solve_decision. Defined.

Definition RefString (r : Ref) : string :=
  if (Kind r =s "") && (Name r =s "") then "" else Kind r +:+ String "/"%char (Name r).

Definition RefValidate (r : Ref) : res unit :=
  _ ← refuse (negb (mem_str (Kind r) resource_kinds)) (errorf "unsupported resource kind");
  refuse (negb (resourceNamePattern (Name r))) (errorf "invalid name").

Definition RequireKind (r : Ref) (kind : string) : res unit :=
  _ ← RefValidate r;
  refuse (Kind r <>s kind) (errorf "resource has wrong kind").

Definition NewRef (kind name : string) : res Ref :=
  let ref := mkRef kind (TrimSpace name) in
  _ ← RefValidate ref; Ok ref.

Definition ParseRef (raw : string) : res Ref :=
  match Cut (TrimSpace raw) "/"%char with
  | Some (kind, name) =>
      if ContainsChar name "/"%char
      then Fail (errorf "resource reference must be <kind>/<name>")
      else NewRef kind name
  | None => Fail (errorf "resource reference must be <kind>/<name>")
  end.

(** ** Scopes *)
Record Scope := mkScope { Cluster : string; Namespace : string }.
Definition ScopeString (s : Scope) : string := Cluster s +:+ String "/"%char (Namespace s).
Definition ScopeValidate (s : Scope) : res unit :=
  _ ← refuse (negb (resourceNamePattern (Cluster s))) (errorf "invalid cluster name");
  refuse (negb (resourceNamePattern (Namespace s))) (errorf "invalid namespace name").

(** ** Services *)
Definition ServiceHTTP : string := "http".
Definition ServiceTCP : string := "tcp".
Definition ServiceUnix : string := "unix".

Record ServiceSpec := mkService {
  svc_Ref : Ref; svc_Kind : string; svc_Target : string; svc_Description : string;
  svc_Metadata : list (string * string) }.

(** What the code reads of a parsed URL. *)
Record URL := mkURL { Scheme : string; Host : string }.

Class NetParsers := {
  url_Parse : string → option URL;
  SplitHostPort : string → option (string * string);
}.

Definition ServiceValidate `{NetParsers} (s : ServiceSpec) : res unit :=
  _ ← RequireKind (svc_Ref s) KindService;
  let target := TrimSpace (svc_Target s) in
  _ ← refuse (target =s "") (errorf "service target is required");
  if svc_Kind s =s ServiceHTTP then
    match url_Parse target with
    | Some u => refuse ((Host u =s "") || ((Scheme u <>s "http") && (Scheme u <>s "https")))
                  (errorf "service requires an http:// or https:// target")
    | None => Fail (errorf "service requires an http:// or https:// target")
    end
  else if svc_Kind s =s ServiceTCP then
    match url_Parse target with
    | Some u =>
        _ ← refuse ((Scheme u <>s "tcp") || (Host u =s ""))
              (errorf "service requires a tcp://host:port target");
        _ ← need (SplitHostPort (Host u)) (errorf "service tcp target");
        Ok tt
    | None => Fail (errorf "service requires a tcp://host:port target")
    end
  else if svc_Kind s =s ServiceUnix then
    refuse (negb (HasPrefix target "unix:///")) (errorf "service requires a unix:///path target")
  else Fail (errorf "service has unsupported kind").

(** ** Pipes *)
Definition IngressLocal : string := "local".
Definition IngressTubo : string := "tubo".
Definition IngressHTTPRoute : string := "http-route".
Definition VisibilityPrivate : string := "private".
Definition VisibilityUnlisted : string := "unlisted".
Definition VisibilityDiscoverable : string := "discoverable".
Definition AccessInviteOnly : string := "invite_only".
Definition AccessMembers : string := "members".
Definition AccessPublic : string := "public".

Record PipeIngress := mkIngress {
  in_Kind : string; in_Listen : string; in_Host : string; in_Path : string; in_Protocol : string }.

Record PipeSpec := mkPipe {
  p_Ref : Ref; p_PipeID : string; p_Scope : option Scope; p_Ingress : PipeIngress; p_Target : Ref;
  p_Visibility : string; p_Access : string; p_AllowReexport : bool;
  p_CreatedAt : time; p_UpdatedAt : time }.

Definition PipeValidate (p : PipeSpec) : res unit :=
  _ ← RequireKind (p_Ref p) KindPipe;
  _ ← RefValidate (p_Target p);
  _ ← refuse ((Kind (p_Target p) <>s KindService) && (Kind (p_Target p) <>s KindPipe))
        (errorf "pipe target must be service/... or pipe/...");
  _ ← refuse (bool_decide (p_Target p = p_Ref p)) (errorf "pipe cannot target itself");
  _ ← match p_Scope p with Some s => ScopeValidate s | None => Ok tt end;
  let ingress := in_Kind (p_Ingress p) in
  _ ← (if ingress =s IngressLocal then
         refuse (blank (in_Listen (p_Ingress p))) (errorf "pipe local ingress requires listen")
       else if ingress =s IngressTubo then Ok tt
       else if ingress =s IngressHTTPRoute then
         refuse (blank (in_Host (p_Ingress p))) (errorf "pipe HTTP route ingress requires host")
       else Fail (errorf "pipe has unsupported ingress"));
  _ ← refuse (negb (mem_str (p_Visibility p) [VisibilityPrivate; VisibilityUnlisted; VisibilityDiscoverable]))
        (errorf "pipe has unsupported visibility");
  _ ← refuse (negb (mem_str (p_Access p) [AccessInviteOnly; AccessMembers; AccessPublic]))
        (errorf "pipe has unsupported access policy");
  refuse ((p_Visibility p =s VisibilityDiscoverable) && (ingress <>s IngressTubo))
    (errorf "pipe is discoverable but has no Tubo ingress").

Definition IsPublished (p : PipeSpec) : bool :=
  (in_Kind (p_Ingress p) =s IngressTubo) && (p_Visibility p <>s VisibilityPrivate).

(** ** Accepted remote Pipes *)
Record RemotePipeBinding := mkRemoteBinding {
  RemotePipeID : string; AuthorityPublic : string; OwnerBindingText : string; Locator : string;
  RecipientPublic : string; Source : string; rb_CreatedAt : time; rb_UpdatedAt : time }.

Definition missing_or_over (s : string) (max : Z) : bool := (s =s "") || (max <? slen s).

Definition RemotePipeBindingValidate (b : RemotePipeBinding) : res unit :=
  _ ← refuse (negb (HasPrefix (RemotePipeID b) "pip_") || (256 <? slen (RemotePipeID b)))
        (errorf "remote pipe binding invalid remote pipe id");
  _ ← refuse (missing_or_over (AuthorityPublic b) 4096)
        (errorf "remote pipe binding invalid authority public key");
  _ ← refuse (missing_or_over (OwnerBindingText b) (Z.shiftl 48 10))
        (errorf "remote pipe binding invalid owner binding");
  _ ← refuse (missing_or_over (Locator b) 4096) (errorf "remote pipe binding invalid locator");
  _ ← refuse (missing_or_over (RecipientPublic b) 4096)
        (errorf "remote pipe binding invalid recipient public key");
  refuse (missing_or_over (Source b) 64) (errorf "remote pipe binding invalid source").

Record AccessLeaseCache := mkLeaseCache {
  c_RemotePipeID : string; c_AccessLease : string; c_ExpiresAt : time }.

(** ** Logical paths ([graph.go]) *)
Definition DefaultMaxPipeHops : Z := 8.

Record LogicalPath := mkPath { Pipes : list Ref; Terminal : Ref }.

Section resolve.
Context `{NetParsers} (loadPipe : Ref → res PipeSpec) (loadService : Ref → res ServiceSpec).

(** The hop loop: [hops] iterations are left. *)
Fixpoint resolve_loop (hops : nat) (visited : list string) (pipes : list Ref) (current : Ref)
    : res LogicalPath :=
  match hops with
  | O => Fail (errorf "pipe path exceeds maximum hops")
  | S hops =>
      _ ← refuse (mem_str (RefString current) visited) (errorf "pipe graph cycle detected");
      let visited := RefString current :: visited in
      pipe ← loadPipe current;
      _ ← PipeValidate pipe;
      let pipes := pipes ++ [p_Ref pipe] in
      if Kind (p_Target pipe) =s KindPipe then resolve_loop hops visited pipes (p_Target pipe)
      else if Kind (p_Target pipe) =s KindService then
        service ← loadService (p_Target pipe);
        _ ← ServiceValidate service;
        Ok (mkPath pipes (svc_Ref service))
      else Fail (errorf "pipe has invalid target")
  end.

(** [loaders] says that neither loader is nil. *)
Definition ResolveLogicalPath (loaders : bool) (start : Ref) (maxHops : Z) : res LogicalPath :=
  _ ← RequireKind start KindPipe;
  let maxHops := if maxHops <=? 0 then DefaultMaxPipeHops else maxHops in
  _ ← refuse (negb loaders) (errorf "pipe and service loaders are required");
  resolve_loop (Z.to_nat maxHops) [] [] start.

(** ** Specification of a path

    The keys looked up, the Pipes found under them and the Service at the end. *)
Inductive Chain : Ref → list Ref → list Ref → Ref → Prop :=
  | chain_service r pipe service :
      loadPipe r = Ok pipe → PipeValidate pipe = Ok tt → Kind (p_Target pipe) = KindService →
      loadService (p_Target pipe) = Ok service → ServiceValidate service = Ok tt →
      Chain r [r] [p_Ref pipe] (svc_Ref service)
  | chain_pipe r pipe keys pipes terminal :
      loadPipe r = Ok pipe → PipeValidate pipe = Ok tt → Kind (p_Target pipe) = KindPipe →
      Chain (p_Target pipe) keys pipes terminal →
      Chain r (r :: keys) (p_Ref pipe :: pipes) terminal.
End resolve.

(** ** Facts about references *)
Lemma name_tail_plain c : name_tail c = true → 45 ≤ code c ≤ 122.
Proof.
  unfold name_tail, name_head, is_lower, is_digit, in_range. cbn [existsb]. intros Hc.
  repeat (apply orb_true_iff in Hc as [Hc|Hc]); repeat bool_step; try lia; try done.
  all: subst; vm_compute; intuition congruence.
Qed.

Lemma name_head_tail c : name_head c = true → name_tail c = true.
Proof. unfold name_tail. by intros ->. Qed.

Lemma pattern_chars s : resourceNamePattern s = true → bytes_of s ≠ [] ∧ Forall (λ c, name_tail c = true) (bytes_of s).
Proof.
  unfold resourceNamePattern. destruct (bytes_of s) as [|c r]; [done|]. intros Hp. repeat bool_step.
  split; [done|]. constructor; [by apply name_head_tail|].
  apply Forall_forall. intros x Hx. rewrite forallb_forall in H1. apply H1. by apply list_elem_of_In.
Qed.
