(* ===== verification/DomainFacts.v ===== *)
(** * Facts about references and logical paths *)
From S2P Require Import Prelude GoStrings GoTime Domain.
Open Scope Z_scope.

(** ** Printing and parsing references *)

(** No white space sequence starts, or ends, with a printable ASCII byte. *)
Definition printable (c : ascii) : bool := (33 <=? code c) && (code c <=? 126).

Definition clash (c : ascii) (ps : list (list ascii)) : bool :=
  existsb (λ p, match p with d :: _ => Z.eqb (code d) (code c) | [] => true end) ps.

Lemma spaces_no_clash c :
  printable c = true → clash c spaces = false ∧ clash c (map reverse spaces) = false.
Proof.
  intros Hc. unfold printable in Hc. repeat bool_step.
  pose proof (forallb_range (λ v, (v <? 33) || (126 <? v) ||
    (negb (clash (chr v) spaces) && negb (clash (chr v) (map reverse spaces)))) 256 (code c) eq_refl
    (code_range c)) as Hr. cbv beta in Hr.
  rewrite chr_code in Hr. rewrite (proj2 (Z.ltb_ge (code c) 33)), (proj2 (Z.ltb_ge 126 (code c))) in Hr by lia.
  cbn [orb] in Hr. repeat bool_step. done.
Qed.

Lemma strip_any_clash c l ps : clash c ps = false → strip_any ps (c :: l) = None.
Proof.
  intros Hc. induction ps as [|p ps IH]; [done|]. unfold clash in Hc. cbn [existsb] in Hc.
  apply orb_false_iff in Hc as [Hp Hc]. cbn [strip_any]. destruct p as [|d p]; [done|].
  cbn [strip_prefix]. rewrite bool_decide_eq_false_2.
  - by apply IH.
  - intros ->. by rewrite Z.eqb_refl in Hp.
Qed.

Lemma strip_all_clash fuel c l ps : clash c ps = false → strip_all fuel ps (c :: l) = c :: l.
Proof. intros Hc. destruct fuel; [done|]. cbn [strip_all]. by rewrite strip_any_clash. Qed.

Lemma TrimSpace_id s :
  Forall (λ c, printable c = true) (bytes_of s) → TrimSpace s = s.
Proof.
  intros HF. unfold TrimSpace, trim_left, trim_right. apply bytes_of_inj. rewrite bytes_of_of.
  destruct (bytes_of s) as [|c l] eqn:E; [done|].
  assert (strip_all (length (c :: l)) spaces (c :: l) = c :: l) as ->.
  { apply strip_all_clash. inversion_clear HF. by apply spaces_no_clash. }
  assert (∃ d k, reverse (c :: l) = d :: k ∧ printable d = true) as (d & k & Ed & Hd).
  { destruct (reverse (c :: l)) as [|d k] eqn:Er.
    - apply (f_equal length) in Er. rewrite length_reverse in Er. done.
    - exists d, k. split; [done|]. rewrite Forall_forall in HF. apply HF.
      apply elem_of_reverse. rewrite Er. by left. }
  rewrite Ed. rewrite strip_all_clash by (by apply spaces_no_clash).
  by rewrite <- Ed, reverse_involutive.
Qed.

Lemma kind_chars k : k ∈ resource_kinds → Forall (λ c, printable c = true ∧ c ≠ "/"%char) (bytes_of k) ∧ k ≠ "".
Proof.
  intros Hk. assert (forallb (λ k, forallb (λ c, printable c && negb (bool_decide (c = "/"%char))) (bytes_of k)
    && (k <>s "")) resource_kinds = true) as H by (vm_compute; reflexivity).
  rewrite forallb_forall in H. apply list_elem_of_In in Hk. specialize (H k Hk). cbv beta in H.
  apply andb_true_iff in H as [Hall Hne]. rewrite forallb_forall in Hall. split; [|by repeat bool_step].
  apply Forall_forall. intros c Hc. apply list_elem_of_In in Hc. specialize (Hall c Hc).
  repeat bool_step. done.
Qed.

Lemma tail_printable c : name_tail c = true → printable c = true ∧ c ≠ "/"%char.
Proof.
  intros Hc. pose proof (name_tail_plain c Hc). split; [unfold printable; lia|]. intros ->. done.
Qed.

Lemma RefValidate_ok r :
  RefValidate r = Ok tt ↔ Kind r ∈ resource_kinds ∧ resourceNamePattern (Name r) = true.
Proof.
  unfold RefValidate. split.
  - intros H. res_inv. by rewrite mem_str_true in *.
  - intros [Hk Hn]. pass; [by rewrite (proj2 (mem_str_true _ _) Hk)|]. pass. by rewrite Hn.
Qed.

(** A valid reference is read back from its text. *)
Lemma ParseRef_String r : RefValidate r = Ok tt → ParseRef (RefString r) = Ok r.
Proof.
  intros Hv. pose proof Hv as [Hk Hn]%RefValidate_ok. destruct (kind_chars _ Hk) as [HK Hne].
  destruct (pattern_chars _ Hn) as [_ HN].
  assert (Forall (λ c, printable c = true) (bytes_of (Name r))) as HNp.
  { eapply Forall_impl; [exact HN|]. intros c Hc. by apply tail_printable. }
  assert (RefString r = Kind r +:+ String "/"%char (Name r)) as HS.
  { unfold RefString. by rewrite (proj2 (seqb_false _ _) Hne). }
  assert (TrimSpace (RefString r) = RefString r) as HT.
  { apply TrimSpace_id. rewrite HS, bytes_of_app. apply Forall_app. split.
    - eapply Forall_impl; [exact HK|]. naive_solver.
    - cbn. constructor; [done|done]. }
  unfold ParseRef. rewrite HT. rewrite (proj2 (Cut_Some _ _ (Kind r) (Name r))).
  2:{ split; [done|]. apply ContainsChar_false. intros Hin. rewrite Forall_forall in HK.
      by destruct (HK _ Hin). }
  rewrite (proj2 (ContainsChar_false (Name r) "/"%char)).
  2:{ intros Hin. rewrite Forall_forall in HN. by destruct (tail_printable _ (HN _ Hin)). }
  unfold NewRef. rewrite TrimSpace_id by done. destruct r as [k n]. cbn in *. by rewrite Hv.
Qed.

(** Different valid references have different texts. *)
Lemma RefString_inj r r' :
  RefValidate r = Ok tt → RefValidate r' = Ok tt → RefString r = RefString r' → r = r'.
Proof.
  intros Hr Hr' E. pose proof (ParseRef_String r Hr) as P. rewrite E, (ParseRef_String r' Hr') in P. congruence.
Qed.

(** ** Logical paths *)
Section paths.
Context `{NetParsers} (loadPipe : Ref → res PipeSpec) (loadService : Ref → res ServiceSpec).
Local Abbreviation loop := (resolve_loop loadPipe loadService).
Local Abbreviation chain := (Chain loadPipe loadService).

Lemma chain_head r keys pipes t : chain r keys pipes t → ∃ ks, keys = r :: ks.
Proof. destruct 1; eauto. Qed.

Lemma chain_lengths r keys pipes t : chain r keys pipes t → length keys = length pipes ∧ (1 ≤ length keys)%nat.
Proof. induction 1; simpl in *; lia. Qed.

(** Soundness: a result is a chain without a repeated key, within the hop budget. *)
Lemma resolve_loop_sound hops visited acc r path :
  loop hops visited acc r = Ok path →
  ∃ keys pipes, chain r keys pipes (Terminal path) ∧ Pipes path = acc ++ pipes ∧
    (length keys ≤ hops)%nat ∧ NoDup (map RefString keys) ∧
    (∀ k, k ∈ map RefString keys → k ∉ visited).
Proof.
  revert visited acc r. induction hops as [|hops IH]; intros visited acc r Hl; [done|].
  cbn [resolve_loop] in Hl. apply bind_ok in Hl as (u & Hv%refuse_ok & Hl). apply mem_str_false in Hv.
  cbv zeta in Hl. apply bind_ok in Hl as (pipe & Hp & Hl). apply bind_ok in Hl as ([] & Hval & Hl).
  destruct (Kind (p_Target pipe) =s KindPipe) eqn:Ek.
  - apply seqb_true in Ek. apply IH in Hl as (keys & pipes & Hc & Hp' & Hlen & Hnd & Hdis).
    exists (r :: keys), (p_Ref pipe :: pipes). split_and!.
    + by eapply chain_pipe.
    + by rewrite Hp', <- app_assoc.
    + simpl. lia.
    + cbn [map]. constructor; [|done]. intros Hin. apply (Hdis _ Hin). by left.
    + cbn [map]. intros k [->|Hk]%elem_of_cons; [done|]. specialize (Hdis k Hk). set_solver.
  - destruct (Kind (p_Target pipe) =s KindService) eqn:Es; [|done]. apply seqb_true in Es.
    apply bind_ok in Hl as (svc & Hs & Hl). apply bind_ok in Hl as ([] & Hsv & Hl).
    apply Ok_inj in Hl as <-. exists [r], [p_Ref pipe]. split_and!.
    + by eapply chain_service.
    + done.
    + simpl. lia.
    + apply NoDup_singleton.
    + cbn [map]. by intros k ->%list_elem_of_singleton.
Qed.

(** Completeness: every such chain is found. *)
Lemma resolve_loop_complete r keys pipes t :
  chain r keys pipes t →
  ∀ hops visited acc, (length keys ≤ hops)%nat → NoDup (map RefString keys) →
    (∀ k, k ∈ map RefString keys → k ∉ visited) →
    loop hops visited acc r = Ok (mkPath (acc ++ pipes) t).
Proof.
  induction 1 as [r pipe svc Hp Hv Hk Hs Hsv|r pipe keys pipes t Hp Hv Hk Hc IH];
    intros hops visited acc Hlen Hnd Hdis.
  - destruct hops as [|hops]; [simpl in Hlen; lia|]. cbn [resolve_loop].
    pass; [apply mem_str_false, Hdis; by left|]. cbv zeta. pass; [done|]. pass; [done|].
    rewrite Hk. change (KindService =s KindPipe) with false. rewrite seqb_refl.
    pass; [done|]. pass; [done|]. done.
  - destruct hops as [|hops]; [simpl in Hlen; lia|]. cbn [resolve_loop map] in *.
    apply NoDup_cons in Hnd as [Hr Hnd].
    pass; [apply mem_str_false, Hdis; by left|]. cbv zeta. pass; [done|]. pass; [done|].
    rewrite Hk, seqb_refl. rewrite IH.
    + by rewrite <- app_assoc.
    + simpl in Hlen. lia.
    + done.
    + intros k Hin. specialize (Hdis k ltac:(by right)). set_solver.
Qed.

Definition hop_budget (maxHops : Z) : Z := if maxHops <=? 0 then DefaultMaxPipeHops else maxHops.

Lemma hop_budget_pos m : 0 < hop_budget m.
Proof. unfold hop_budget, DefaultMaxPipeHops. destruct (Z.leb_spec m 0); lia. Qed.

Lemma resolve_spec start maxHops path :
  ResolveLogicalPath loadPipe loadService true start maxHops = Ok path ↔
  RequireKind start KindPipe = Ok tt ∧
  ∃ keys, chain start keys (Pipes path) (Terminal path) ∧
    NoDup (map RefString keys) ∧ llen keys ≤ hop_budget maxHops.
Proof.
  unfold ResolveLogicalPath. fold (hop_budget maxHops). pose proof (hop_budget_pos maxHops). split.
  - intros Hr. apply bind_ok in Hr as ([] & Hk & Hr). cbv zeta in Hr. cbn [negb refuse mbind res_bind] in Hr.
    apply resolve_loop_sound in Hr as (keys & pipes & Hc & -> & Hlen & Hnd & _).
    split; [done|]. exists keys. split_and!; [done|done|]. unfold llen. lia.
  - intros (Hk & keys & Hc & Hnd & Hlen). pass; [done|]. cbv zeta. pass; [done|].
    destruct path as [ps t]. cbn [Pipes Terminal] in Hc.
    rewrite (resolve_loop_complete _ _ _ _ Hc); [done| |done|set_solver].
    unfold llen in Hlen. lia.
Qed.
End paths.
