(* ===== verification/Engine.v ===== *)
(** * The Pipe traversal engine

    [internal/engine/engine.go]: traversal state, the reading of it from the wire,
    and the forwarding of one hop. Connections and carriers are opaque values that
    the injected dialer and opener produce. *)
From S2P Require Import Prelude GoStrings GoTime Domain DomainFacts.
Open Scope Z_scope.

Record TraversalState := mkTraversal {
  VisitedIDs : list string; Remaining : Z; MaxHops : Z }.

Definition NewTraversal (pipeID : string) : TraversalState :=
  mkTraversal [pipeID] DefaultMaxPipeHops DefaultMaxPipeHops.

Definition err_hops : error := wrapf ErrHopLimitExceeded "hop limit exceeded".
Definition err_loop : error := wrapf ErrLoopDetected "pipe traversal loop detected".

Definition Advance (s : TraversalState) (pipeID : string) : res TraversalState :=
  _ ← refuse (Remaining s <=? 0) err_hops;
  _ ← refuse (mem_str pipeID (VisitedIDs s)) err_loop;
  Ok (mkTraversal (VisitedIDs s ++ [pipeID]) (Remaining s - 1) (MaxHops s)).

Definition FromWire (visited : list string) (hopLimit : Z) : res TraversalState :=
  _ ← refuse ((hopLimit <=? 0) || (DefaultMaxPipeHops <? hopLimit)) err_hops;
  _ ← refuse (has_dup visited) err_loop;
  _ ← refuse (hopLimit <=? llen visited) err_hops;
  Ok (mkTraversal visited (hopLimit - llen visited) hopLimit).

(** [errors.Join(sentinel, err)]. *)
Definition join_err (s : sentinel) (e : error) : error := mkErr (s :: err_is e) (err_text e).

Section engine.
Context `{NetParsers} {Conn Carrier : Type}.

Record Engine := mkEngine {
  resolveService : Ref → res ServiceSpec;
  resolvePipe : Ref → res PipeSpec;
  dialService : ServiceSpec → res Conn }.

Definition DownstreamOpener := PipeSpec → TraversalState → res (Carrier * string).

Inductive ForwardResult :=
  | ToService (conn : Conn)
  | ToPipe (carrier : Carrier) (sessionID : string).

Definition ResolvePath (e : Engine) (start : Ref) (maxHops : Z) : res LogicalPath :=
  ResolveLogicalPath (resolvePipe e) (resolveService e) true start maxHops.

Definition forwardServiceTarget (e : Engine) (target : Ref) : res ForwardResult :=
  match resolveService e target with
  | Fail err => Fail (join_err ErrMissingServiceTarget err)
  | Ok svc =>
      match ServiceValidate svc with
      | Fail err => Fail (join_err ErrInvalidServiceDefinition err)
      | Ok _ => conn ← dialService e svc; Ok (ToService conn)
      end
  end.

Definition forwardPipeTarget (e : Engine) (target : Ref) (state : TraversalState)
    (openDownstream : option DownstreamOpener) : res ForwardResult :=
  match resolvePipe e target with
  | Fail err => Fail (join_err ErrMissingPipeTarget err)
  | Ok nextSpec =>
      match PipeValidate nextSpec with
      | Fail err => Fail (join_err ErrInvalidPipeDefinition err)
      | Ok _ =>
          _ ← refuse (mem_str (p_PipeID nextSpec) (VisitedIDs state)) err_loop;
          _ ← refuse (Remaining state <? 1) err_hops;
          match openDownstream with
          | None => Fail (errorf "downstream opener required for pipe target")
          | Some f => '(carrier, sessionID) ← f nextSpec state; Ok (ToPipe carrier sessionID)
          end
      end
  end.

Definition Forward (e : Engine) (current : PipeSpec) (state : TraversalState)
    (openDownstream : option DownstreamOpener) : res ForwardResult :=
  if Kind (p_Target current) =s KindService then forwardServiceTarget e (p_Target current)
  else if Kind (p_Target current) =s KindPipe then
    forwardPipeTarget e (p_Target current) state openDownstream
  else Fail (wrapf ErrInvalidTargetKind "invalid target kind in pipe spec").
End engine.

Arguments Engine : clear implicits.
Arguments DownstreamOpener : clear implicits.
Arguments ForwardResult : clear implicits.

(** ** Traversals

    The states the receiving side can hold: read from the wire, then advanced. *)
Inductive Traversal : TraversalState → Prop :=
  | trav_wire visited hopLimit s : FromWire visited hopLimit = Ok s → Traversal s
  | trav_advance s id s' : Traversal s → Advance s id = Ok s' → Traversal s'.

Record traversal_inv (s : TraversalState) : Prop := {
  ti_nodup : NoDup (VisitedIDs s);
  ti_budget : llen (VisitedIDs s) + Remaining s = MaxHops s;
  ti_max : 0 < MaxHops s ≤ DefaultMaxPipeHops;
  ti_remaining : 0 ≤ Remaining s;
}.

Lemma FromWire_ok visited hopLimit s :
  FromWire visited hopLimit = Ok s ↔
  s = mkTraversal visited (hopLimit - llen visited) hopLimit ∧
  0 < hopLimit ≤ DefaultMaxPipeHops ∧ NoDup visited ∧ llen visited < hopLimit.
Proof.
  unfold FromWire. split.
  - intros Hf. res_inv. rewrite <- has_dup_false. split_and!; try done; lia.
  - intros (-> & Hh & Hnd & Hlen). pass; [lia|]. pass; [by apply has_dup_false|]. pass; [lia|]. done.
Qed.

Lemma Advance_ok s id s' :
  Advance s id = Ok s' ↔
  s' = mkTraversal (VisitedIDs s ++ [id]) (Remaining s - 1) (MaxHops s) ∧
  0 < Remaining s ∧ id ∉ VisitedIDs s.
Proof.
  unfold Advance. split.
  - intros Ha. res_inv. rewrite mem_str_false in *. split_and!; try done; lia.
  - intros (-> & Hr & Hn). pass; [lia|]. pass; [by apply mem_str_false|]. done.
Qed.

Lemma traversal_holds s : Traversal s → traversal_inv s.
Proof.
  induction 1 as [visited hopLimit s Hf|s id s' _ IH Ha].
  - apply FromWire_ok in Hf as (-> & Hh & Hnd & Hlen). constructor; cbn; try done; lia.
  - apply Advance_ok in Ha as (-> & Hr & Hn). destruct IH as [Hnd Hb Hm Hp].
    constructor; cbn [VisitedIDs Remaining MaxHops]; [by apply NoDup_snoc| |done|lia].
    rewrite llen_app, llen_cons. change (llen (@nil string)) with 0. lia.
Qed.

(** A refused advance says why. *)
Lemma Advance_refused s id e :
  Advance s id = Fail e →
  (errors_Is e ErrHopLimitExceeded = true ∧ Remaining s ≤ 0) ∨
  (errors_Is e ErrLoopDetected = true ∧ id ∈ VisitedIDs s ∧ 0 < Remaining s).
Proof.
  unfold Advance. destruct (Z.leb_spec (Remaining s) 0); cbn; [intros [= <-]; by left|].
  destruct (mem_str id (VisitedIDs s)) eqn:E; cbn; [|done]. intros [= <-]. right.
  apply mem_str_true in E. done.
Qed.
