(* ===== verification/OpenBoundary.v ===== *)
(** * The receiving boundary

    [internal/openauth] (the open-authorization contract),
    [internal/runtime/exact_authorizer.go] (the exact authorizer behind it) and the
    decision part of [internal/runtime/serve.go]: the bounded checks on the frames,
    the authorization, the choice of the target. *)
From S2P Require Import Prelude GoStrings GoTime Encoding Json JsonRoundTrip Sha256.
From S2P Require Import Credentials CredentialFacts CredentialVerify StoreRelations StoreRelationFacts.
From S2P Require Import ExactAuthority ExactAuthorityFacts Domain DomainFacts Engine.
Open Scope Z_scope.

(** ** The contract *)
Definition MaxLeaseBytes : Z := Z.shiftl 48 10.

Record OpenRequest := mkOpenRequest {
  or_PipeID : string; or_ClientPublic : string; or_Challenge : string;
  or_ChallengeProof : string; or_AccessLease : string; or_Now : time }.

Record Authorization := mkAuthorization {
  au_PipeID : string; au_Subject : string; au_Issuer : string; au_LeaseID : string;
  au_ExpiresAt : time; au_AccessEpoch : Z }.

Definition OpenAuthorizer := OpenRequest → res Authorization.

Definition denied : error := errorf "authorization denied".

(** ** The exact authorizer *)
Record ExactOpenAuthorizer := mkExactAuthorizer { ea_leasePublic : string; ea_pipeID : string }.

(** [has_state] says that the revocation state is not nil. *)
Definition NewExactOpenAuthorizer (leasePublic pipeID : string) (has_state : bool) : res ExactOpenAuthorizer :=
  if has_state then Ok (mkExactAuthorizer leasePublic pipeID)
  else Fail (errorf "exact open authorizer requires revocation state").

Definition AuthorizeOpen `{Ed25519} {S} `{AuthorityState S} (wall : time) (a : ExactOpenAuthorizer)
    (st : S) (req : OpenRequest) : res Authorization :=
  lease ← relabel (Lease.Decode (or_AccessLease req)) denied;
  _ ← relabel (Lease.Verify wall lease (ea_leasePublic a) (or_ClientPublic req) (or_PipeID req) (or_Now req))
        denied;
  let wantIssuer := PublicString (ea_leasePublic a) in
  _ ← refuse (Lease.Issuer lease <>s wantIssuer) denied;
  clientPub ← relabel (PublicFromString (or_ClientPublic req)) denied;
  _ ← refuse (negb (VerifyProof clientPub (or_ChallengeProof req) OpenProofPurpose
                      [or_Challenge req; or_PipeID req])) denied;
  revoked ← relabel (as_IsRevoked st (Lease.JTI lease) "access-lease") denied;
  _ ← refuse revoked denied;
  currentEpoch ← relabel (as_RevocationEpoch st (or_PipeID req) "pipe-access") denied;
  _ ← refuse (Lease.AccessEpoch lease <? currentEpoch) denied;
  Ok (mkAuthorization (or_PipeID req) (or_ClientPublic req) (Lease.Issuer lease) (Lease.JTI lease)
        (Lease.ExpiresAt lease) (Lease.AccessEpoch lease)).

(** The lazy wrapper: what it has cached, and the outcome of loading the key now
    ([KeyPath] and [localkey.Load]). *)
Definition LazyAuthorizeOpen `{Ed25519} (load_now : res PrivateKey) (wall : time) (pipeID : string)
    (cached : option ExactOpenAuthorizer) (d : relations) (req : OpenRequest)
    : res Authorization * option ExactOpenAuthorizer :=
  let cached :=
    match cached with
    | Some a => Some a
    | None =>
        match load_now with
        | Ok private =>
            match NewExactOpenAuthorizer (Public private) pipeID true with
            | Ok a => Some a | Fail _ => None end
        | Fail _ => None
        end
    end in
  match cached with
  | None => (Fail (errorf "authorization denied: no open authorizer"), None)
  | Some a =>
      (@AuthorizeOpen _ relations (ExactAuthorityRevocationState pipeID) wall a d req, Some a)
  end.

(** ** Frames *)
Record ClientHello := mkClientHello {
  ch_Version : string; ch_ClientPublic : string; ch_Capabilities : list string }.
Record OpenPipe := mkOpenPipe {
  op_PipeID : string; op_ChallengeProof : string; op_AccessLease : string;
  op_VisitedPipeIDs : list string; op_HopLimit : Z }.

Definition boundedStrings (limit : Z) (values : list string) : bool :=
  forallb (λ v, slen v <=? limit) values.

(** [openError]: the code of the refusal on the wire. *)
Definition openError (code message : string) : error := errorf (code +:+ ": " +:+ message).

Definition hello_checks (hello : ClientHello) : res unit :=
  refuse ((ch_Version hello <>s "2.0") || (64 <? llen (ch_Capabilities hello))
          || negb (boundedStrings 8192 (ch_ClientPublic hello :: ch_Capabilities hello)))
    (errorf "protocol mismatch or field exceeds limit").

(** The duplicate and self scan over the visited Pipes. *)
Fixpoint visited_loop (self : string) (seen : list string) (ids : list string) : bool :=
  match ids with
  | [] => false
  | id :: ids => mem_str id seen || (id =s self) || visited_loop self (id :: seen) ids
  end.

Definition open_checks (self : string) (open : OpenPipe) : res unit :=
  _ ← refuse (negb (boundedStrings 8192 (op_PipeID open :: op_ChallengeProof open :: op_VisitedPipeIDs open))
              || (MaxLeaseBytes <? slen (op_AccessLease open)))
        (openError "invalid_input" "open field exceeds limit");
  _ ← refuse (op_PipeID open <>s self) (openError "not_found" "pipe_id mismatch");
  _ ← refuse ((op_HopLimit open <=? 0) || (DefaultMaxPipeHops <? op_HopLimit open)
              || (op_HopLimit open <=? llen (op_VisitedPipeIDs open)))
        (openError "hop_limit_exceeded" "logical hop limit exceeded");
  refuse (visited_loop self [] (op_VisitedPipeIDs open)) (openError "loop_detected" "repeated pipe_id").

Definition open_request (clientPublic challenge : string) (open : OpenPipe) (now : time) : OpenRequest :=
  mkOpenRequest (op_PipeID open) clientPublic challenge (op_ChallengeProof open) (op_AccessLease open) now.

Definition authorizeOpenOnly (authorizer : option OpenAuthorizer) (clientPublic challenge : string)
    (open : OpenPipe) (now : time) : res Authorization :=
  authorizer ← need authorizer (errorf "authorization denied: no open authorizer");
  auth ← relabel (authorizer (open_request clientPublic challenge open now)) denied;
  _ ← refuse ((au_PipeID auth <>s op_PipeID open) || (au_Subject auth <>s clientPublic)
              || IsZero (au_ExpiresAt auth) || negb (After (au_ExpiresAt auth) now))
        (errorf "authorization denied: invalid authorization result");
  Ok auth.

Section serve.
Context `{NetParsers} {Conn Carrier : Type}.

(** What the serve path does to the outside while it decides. *)
Inductive event :=
  | Dialed (svc : ServiceSpec)
  | Forwarded (state : TraversalState).

Inductive target :=
  | TargetConn (conn : Conn)
  | TargetCarrier (carrier : Carrier).

Definition authorizeOpen (authorizer : option OpenAuthorizer) (dial : ServiceSpec → res Conn)
    (service : ServiceSpec) (clientPublic challenge : string) (open : OpenPipe) (now : time)
    : res (Authorization * Conn) * list event :=
  match authorizeOpenOnly authorizer clientPublic challenge open now with
  | Fail e => (Fail e, [])
  | Ok auth =>
      match dial service with
      | Fail _ => (Fail (errorf "target_unreachable: local target unavailable"), [Dialed service])
      | Ok conn => (Ok (auth, conn), [Dialed service])
      end
  end.

(** [serve] from the client hello to the selected target. *)
Definition serve (spec : PipeSpec) (service : ServiceSpec) (authorizer : option OpenAuthorizer)
    (dial : ServiceSpec → res Conn) (engine : Engine Conn)
    (opener : option (DownstreamOpener Carrier)) (hello : ClientHello) (challenge : string)
    (open : OpenPipe) (now : time) : res (Authorization * target) * list event :=
  match (_ ← hello_checks hello; open_checks (p_PipeID spec) open) with
  | Fail e => (Fail e, [])
  | Ok _ =>
      match authorizeOpenOnly authorizer (ch_ClientPublic hello) challenge open now with
      | Fail _ => (Fail (openError "authorization_denied" "authorization denied"), [])
      | Ok auth =>
          if Kind (p_Target spec) =s KindPipe then
            match FromWire (op_VisitedPipeIDs open) (op_HopLimit open) with
            | Fail _ => (Fail (openError "hop_limit_exceeded" "invalid traversal state"), [])
            | Ok state =>
                match Advance state (p_PipeID spec) with
                | Fail e => if errors_Is e ErrLoopDetected
                            then (Fail (openError "loop_detected" "repeated pipe_id"), [])
                            else (Fail (openError "hop_limit_exceeded" "logical hop limit exceeded"), [])
                | Ok state =>
                    match Forward engine spec state opener with
                    | Fail _ => (Fail (openError "target_unreachable" "pipe target unavailable"), [Forwarded state])
                    | Ok (ToService conn) => (Ok (auth, TargetConn conn), [Forwarded state])
                    | Ok (ToPipe carrier _) => (Ok (auth, TargetCarrier carrier), [Forwarded state])
                    end
                end
            end
          else
            match dial service with
            | Fail _ => (Fail (openError "target_unreachable" "local target unavailable"), [Dialed service])
            | Ok conn => (Ok (auth, TargetConn conn), [Dialed service])
            end
      end
  end.
End serve.

(** ** The authorizer accepts exactly the current leases *)
Section authorizer.
Context `{Ed25519} {S : Type} `{AuthorityState S}.

Record authorized (a : ExactOpenAuthorizer) (st : S) (req : OpenRequest) (now : time)
    (lease : Lease.AccessLease) : Prop := {
  az_lease : Lease.Decode (or_AccessLease req) = Ok lease;
  az_accepts : lease_accepts lease (ea_leasePublic a) (or_ClientPublic req) (or_PipeID req) now;
  az_client : ∃ key, or_ClientPublic req = PublicString key ∧ slen key = PublicKeySize ∧
    VerifyProof key (or_ChallengeProof req) OpenProofPurpose [or_Challenge req; or_PipeID req] = true;
  az_not_revoked : as_IsRevoked st (Lease.JTI lease) "access-lease" = Ok false;
  az_epoch : ∃ epoch, as_RevocationEpoch st (or_PipeID req) "pipe-access" = Ok epoch ∧
    epoch ≤ Lease.AccessEpoch lease;
}.

Definition authorization_of (req : OpenRequest) (lease : Lease.AccessLease) : Authorization :=
  mkAuthorization (or_PipeID req) (or_ClientPublic req) (Lease.Issuer lease) (Lease.JTI lease)
    (Lease.ExpiresAt lease) (Lease.AccessEpoch lease).

Lemma AuthorizeOpen_spec wall a st req auth :
  AuthorizeOpen wall a st req = Ok auth ↔
  ∃ lease, authorized a st req (effective_now (or_Now req) wall) lease ∧ auth = authorization_of req lease.
Proof.
  unfold AuthorizeOpen. split.
  - intros Ha. cbv zeta in Ha. res_inv. eexists. split; [|reflexivity].
    match goal with E : PublicFromString _ = _ |- _ => apply PublicFromString_spec in E as [? ?] end.
    constructor; [done|by eapply lease_verify_spec|by eexists| |eexists; by split].
    by match goal with E : as_IsRevoked _ _ _ = Ok ?b, E' : ?b = false |- _ => rewrite E, E' end.
  - intros (lease & [Hl Ha (key & Hk & Hks & Hp) Hr (epoch & He & Hle)] & ->). cbv zeta.
    pass; [done|]. pass; [by apply lease_verify_spec|].
    pass; [by rewrite (proj1 (la_issuer _ _ _ _ _ Ha)), seqb_refl|].
    pass; [by apply PublicFromString_spec|]. pass; [by rewrite Hp|]. pass; [done|]. pass; [done|].
    pass; [done|]. pass; [by apply Z.ltb_ge|]. done.
Qed.
End authorizer.

(** ** Agreement of the forwarding side with the next receiver *)
Lemma visited_loop_false self seen ids :
  visited_loop self seen ids = false ↔
  NoDup ids ∧ (self ∉ ids) ∧ (∀ x, x ∈ ids → x ∉ seen).
Proof.
  revert seen. induction ids as [|id ids IH]; intros seen; cbn [visited_loop].
  { split; [intros _; split_and!; [constructor|set_solver|set_solver]|done]. }
  rewrite !orb_false_iff, mem_str_false, seqb_false, IH, NoDup_cons. set_solver.
Qed.

(** The open frame the forwarding side sends for its traversal state. *)
Definition downstream_open (next proof lease : string) (s : TraversalState) : OpenPipe :=
  mkOpenPipe next proof lease (VisitedIDs s)
    (if MaxHops s <=? 0 then DefaultMaxPipeHops else MaxHops s).

(** The hop and loop conditions of a receiver. *)
Definition receiver_hops_ok (self : string) (open : OpenPipe) : Prop :=
  0 < op_HopLimit open ≤ DefaultMaxPipeHops ∧ llen (op_VisitedPipeIDs open) < op_HopLimit open ∧
  NoDup (op_VisitedPipeIDs open) ∧ self ∉ op_VisitedPipeIDs open.

Lemma open_checks_hops self open :
  open_checks self open = Ok tt → op_PipeID open = self ∧ receiver_hops_ok self open.
Proof.
  unfold open_checks, receiver_hops_ok. intros Hc. res_inv.
  match goal with E : visited_loop _ _ _ = false |- _ => apply visited_loop_false in E as (? & ? & _) end.
  split_and!; try done; lia.
Qed.

(** The traversal state behind an accepted open. *)
Lemma accepted_traversal self open :
  receiver_hops_ok self open →
  ∃ s, FromWire (op_VisitedPipeIDs open) (op_HopLimit open) = Ok s ∧
    Advance s self = Ok (mkTraversal (op_VisitedPipeIDs open ++ [self])
                           (op_HopLimit open - llen (op_VisitedPipeIDs open) - 1) (op_HopLimit open)).
Proof.
  intros (Hh & Hl & Hnd & Hs). eexists. split; [by apply FromWire_ok|].
  apply Advance_ok. cbn. split_and!; [done|lia|done].
Qed.

(** What the engine checks before it opens the next Pipe is what that Pipe checks. *)
Lemma forward_condition self open next proof lease s :
  receiver_hops_ok self open →
  s = mkTraversal (op_VisitedPipeIDs open ++ [self])
        (op_HopLimit open - llen (op_VisitedPipeIDs open) - 1) (op_HopLimit open) →
  (mem_str next (VisitedIDs s) = false ∧ (Remaining s <? 1) = false) ↔
  receiver_hops_ok next (downstream_open next proof lease s).
Proof.
  intros (Hh & Hl & Hnd & Hs) ->. unfold receiver_hops_ok, downstream_open.
  cbn [VisitedIDs Remaining MaxHops op_HopLimit op_VisitedPipeIDs].
  rewrite mem_str_false, Z.ltb_ge, (proj2 (Z.leb_gt _ _)) by lia.
  rewrite NoDup_snoc, llen_app, llen_cons. change (llen (@nil string)) with 0.
  split; [intros [Hn Hr]|intros (_ & Hr & _ & Hn)]; split_and!; try done; lia.
Qed.
