(* ===== verification/AccessProps.v ===== *)
(** * Properties of access control

    Redemption, renewal and open authorization together: proved against the interface of
    the authority state, run on the store and the sample keys. *)
From S2P Require Import Prelude GoStrings GoTime Encoding Json JsonRoundTrip Sha256.
From S2P Require Import Credentials CredentialFacts CredentialVerify CredentialProps.
From S2P Require Import StoreRelations StoreRelationFacts ExactAuthority ExactAuthorityFacts.
From S2P Require Import Domain DomainFacts Engine OpenBoundary.
Open Scope Z_scope.
Import SampleKeys.

(** ** Decoded epochs are 64-bit numbers *)
Lemma dec_value_nonneg l : all_digits l = true → 0 ≤ dec_value l.
Proof.
  unfold all_digits. intros H. apply andb_true_iff in H as [_ H]. revert H.
  induction l as [|c l IH] using rev_ind; [done|]. rewrite forallb_app, dec_value_snoc. intros H.
  apply andb_true_iff in H as [Hl Hc]. specialize (IH Hl). cbn [forallb] in Hc.
  unfold is_digit, in_range in Hc. lia.
Qed.

Lemma get_keeps {A} (P : A → Prop) (read : token → option (option A)) z k ms a :
  P z → (∀ t v, read t = Some (Some v) → P v) → get read z k ms = Some a → P a.
Proof.
  intros Hz Hr. unfold get.
  assert (Hgen : ∀ ms acc, (∀ x, acc = Some x → P x) →
    fold_left (λ acc m, a ← acc;
      if k =s m.1 then
        match read m.2 with Some (Some v) => Some v | Some None => Some a | None => None end
      else Some a) ms acc = Some a → P a).
  { clear ms. induction ms as [|m ms IH]; intros acc Hacc; cbn [fold_left]; [apply Hacc|]. apply IH.
    intros x. destruct acc as [y|]; [|done]. specialize (Hacc y eq_refl). cbn [mbind option_bind].
    destruct (k =s m.1); [|naive_solver]. destruct (read m.2) as [[v|]|] eqn:E; naive_solver. }
  apply Hgen. naive_solver.
Qed.

Lemma read_uint_range t v : read_uint t = Some (Some v) → 0 ≤ v < 2 ^ 64.
Proof.
  destruct t; try done. cbn [read_uint]. unfold parse_uint.
  destruct (all_digits raw && (dec_value raw <? 2 ^ 64)) eqn:E; [|done]. intros [= <-].
  apply andb_true_iff in E as [Hd Hl]. apply dec_value_nonneg in Hd. lia.
Qed.

Lemma decoded_invite_epoch e i : Invite.DecodeInvite e = Ok i → 0 ≤ Invite.AccessEpoch i < 2 ^ 64.
Proof.
  unfold Invite.DecodeInvite. intros (d & _ & H)%bind_ok. apply need_ok, bind_Some in H as (ms & _ & H).
  unfold Invite.unmarshal in H.
  repeat match type of H with mbind _ _ = Some _ =>
    let E := fresh "E" in apply bind_Some in H as (? & E & H) end.
  injection H as <-. cbn [Invite.AccessEpoch].
  match goal with E : get read_uint _ _ _ = Some _ |- _ => apply (get_keeps (λ n, 0 ≤ n < 2 ^ 64)) in E; [done|lia|] end.
  apply read_uint_range.
Qed.

(** ** A run on the store *)

(** The Pipe's access epoch is 7, the epoch of the sample invite. *)
Definition d7 : relations := (Revoke noon pipe "pipe-access" pipe 7 no_relations).2.
Definition load1 (path : string) : res string :=
  if path =s "pip.key" then Ok authority_key else Fail (errorf "no such key").
Definition loader1 : Loader := mkLoader "pip.key" binding1.
Definition redeem_proof (private challenge : string) : string :=
  SignProof (H := keys) private RedeemProofPurpose [Invite.JTI invite1; Invite.AudiencePipeID invite1; challenge].
Local Abbreviation redeem1 st :=
  (RedeemExactInvite (H := keys) (H0 := ExactAuthorityRevocationState pipe) load1 noon rnd16 rnd16 noon
     invite1_text (PublicString (@Public keys "recipient")) "challenge" (redeem_proof "recipient" "challenge") loader1
     true (5 * Minute) st).
Definition lease2 : Lease.AccessLease := Eval vm_compute in
  unwrap (Lease.mk 0 "" "" "" "" "" zero_time zero_time zero_time 0 "") (redeem1 d7).1.
Definition d8 : relations :=
  (RedeemInviteAndAccept (Invite.JTI invite1) pipe (unwrap "" (NewSessionID rnd16)) recipient 7 noon d7).2.

Lemma unwrap_ok {A} (d : A) (m : res A) : is_ok m = true → m = Ok (unwrap d m).
Proof. by destruct m. Qed.

Lemma redeem1_ok : redeem1 d7 = (Ok lease2, d8).
Proof. vm_cast_no_check (eq_refl (Ok lease2, d8)). Qed.

(** ** Redemption *)
Section authority.
Context `{Ed25519Laws} {S : Type} `{AuthorityStateLaws S}.
Implicit Types (st : S).

(** C3: redemption checks everything before it writes anything. If the state after
    [RedeemExactInvite] differs from the state before, then the invite decoded and
    verified, it was neither revoked nor of another epoch than the current one, the
    authority key loaded and matched the owner's binding, the recipient proved possession
    of its key for this invite, this Pipe and this challenge, and the only change is that
    the invite is now held by that recipient. *)
Theorem redeem_checks_first load wall rs rj now enc rcp challenge proof loader deps life st r st' :
  RedeemExactInvite load wall rs rj now enc rcp challenge proof loader deps life st = (r, st') →
  st' ≠ st →
  ∃ invite auth,
    redeemable load wall now enc rcp challenge proof loader st invite auth ∧
    redeemed_by st' (Invite.JTI invite) (Invite.AudiencePipeID invite) = Some rcp ∧
    ∃ ss, (as_RedeemInviteAndAccept st (Invite.JTI invite) (Invite.AudiencePipeID invite) ss rcp
             (Invite.AccessEpoch invite) now).2 = st'.
Proof.
  intros Hr Hne. destruct (redeem_cases _ _ _ _ _ _ _ _ _ _ _ _ _ _ _ Hr) as
    [[_ ?]|(invite & auth & ss & Hc & Hrd & _)]; [done|].
  exists invite, auth. split; [by apply redeem_checks_ok|]. split; [by eapply redeem_holds|].
  exists ss. by rewrite Hrd.
Qed.

(** The lease of a successful redemption is for the redeeming key, the Pipe and epoch of the
    invite, and expires with it at the latest. *)
Lemma redeem_sound load wall rs rj now enc rcp challenge proof loader deps life st lease st' :
  RedeemExactInvite load wall rs rj now enc rcp challenge proof loader deps life st = (Ok lease, st') →
  IsZero now = false →
  ∃ invite auth,
    redeemable load wall now enc rcp challenge proof loader st invite auth ∧
    redeemed_by st' (Invite.JTI invite) (Invite.AudiencePipeID invite) = Some rcp ∧
    Lease.Subject lease = rcp ∧
    Lease.AudiencePipeID lease = Invite.AudiencePipeID invite ∧
    Lease.AccessEpoch lease = Invite.AccessEpoch invite ∧
    Lease.Issuer lease = PublicString (Public (Private auth)) ∧
    unix_ns (Lease.IssuedAt lease) = unix_ns now ∧
    unix_ns now < unix_ns (Lease.ExpiresAt lease) ≤ unix_ns (Invite.ExpiresAt invite) ∧
    unix_ns (Lease.ExpiresAt lease) - unix_ns now ≤ MaxTTL.
Proof. apply redeemed_lease. Qed.

(** An invite gives access to one key only: if the same encoded invite is redeemed
    successfully twice, at any times, by any callers, with any state change the store
    allows in between, both redemptions were for the same recipient key. *)
Lemma one_recipient load wall rs rj now enc rcp ch pf loader deps life st l st1
    load' wall' rs' rj' now' rcp' ch' pf' loader' deps' life' st2 l' st3 :
  RedeemExactInvite load wall rs rj now enc rcp ch pf loader deps life st = (Ok l, st1) →
  grows st1 st2 →
  RedeemExactInvite load' wall' rs' rj' now' enc rcp' ch' pf' loader' deps' life' st2 = (Ok l', st3) →
  rcp = rcp'.
Proof.
  intros R1 Hg R3.
  destruct (redeem_cases _ _ _ _ _ _ _ _ _ _ _ _ _ _ _ R1) as [[[e ?] _]|(i & auth & ss & Hc & Hrd & _)]; [done|].
  destruct (redeem_cases _ _ _ _ _ _ _ _ _ _ _ _ _ _ _ R3) as [[[e ?] _]|(i' & auth' & ss' & Hc' & Hrd' & _)]; [done|].
  apply redeem_checks_ok, rd_decoded in Hc. apply redeem_checks_ok, rd_decoded in Hc'.
  assert (i' = i) as -> by congruence. apply redeem_holds in Hrd.
  pose proof (redeem_grows st2 (Invite.JTI i) (Invite.AudiencePipeID i) ss' rcp' (Invite.AccessEpoch i) now'
                (decoded_invite_epoch _ _ Hc)) as Hg'.
  rewrite Hrd' in Hg'. apply redeem_holds in Hrd'.
  apply (grows_redeemed _ _ _ _ _ Hg), (grows_redeemed _ _ _ _ _ Hg') in Hrd. cbn in Hrd. congruence.
Qed.

(** Revoking an invite is final: in every later state redeeming it fails and leaves
    the state as it is, and renewal fails for every relationship that came from it. *)
Lemma revoked_invite_dead load wall rs rj now enc rcp ch pf loader deps life invite st st' :
  Invite.DecodeInvite enc = Ok invite →
  as_IsRevoked st (Invite.JTI invite) "exact.invite" = Ok true → grows st st' →
  (∃ e, RedeemExactInvite load wall rs rj now enc rcp ch pf loader deps life st' = (Fail e, st')) ∧
  (∀ pipeID epoch bnd,
     as_AcceptedRelationship st' pipeID rcp = Ok (Some (Invite.JTI invite, epoch)) →
     ∃ e, RenewAcceptedAccess load rj now pipeID rcp bnd ch pf loader deps life st' = Fail e).
Proof.
  intros Hd Hr Hg. pose proof (grows_revoked _ _ _ _ Hg Hr) as Hr'. split.
  - destruct (RedeemExactInvite _ _ _ _ _ _ _ _ _ _ _ _ st') as [r st3] eqn:E.
    destruct (redeem_cases _ _ _ _ _ _ _ _ _ _ _ _ _ _ _ E) as [[[e ->] ->]|(i & auth & ss & Hc & _)]; [by eexists|].
    apply redeem_checks_ok in Hc as [Hdec _ _ _ _ Hnr _]. congruence.
  - intros pipeID epoch bnd Ha.
    destruct (RenewAcceptedAccess _ _ _ _ _ _ _ _ _ _ _ _) as [l|e] eqn:E; [|by eexists].
    apply renew_ok in E as (jti & ep & key & auth & b & Ha' & Hnr & _). congruence.
Qed.

(** C6: an invite serves one key, and none once it is revoked. If the same encoded invite is
    redeemed successfully twice, at any times, by any callers, with any state change the
    store allows in between, both redemptions were for the same recipient key. And after its
    revocation, in every later state, redeeming it fails and leaves the state as it is, and
    renewal fails for every relationship that came from it. *)
Theorem invite_fate load wall rs rj now enc rcp ch pf loader deps life st l st1 :
  (∀ load' wall' rs' rj' now' rcp' ch' pf' loader' deps' life' st2 l' st3,
     RedeemExactInvite load wall rs rj now enc rcp ch pf loader deps life st = (Ok l, st1) →
     grows st1 st2 →
     RedeemExactInvite load' wall' rs' rj' now' enc rcp' ch' pf' loader' deps' life' st2 = (Ok l', st3) →
     rcp = rcp') ∧
  (∀ invite st',
     Invite.DecodeInvite enc = Ok invite →
     as_IsRevoked st (Invite.JTI invite) "exact.invite" = Ok true → grows st st' →
     (∃ e, RedeemExactInvite load wall rs rj now enc rcp ch pf loader deps life st' = (Fail e, st')) ∧
     (∀ pipeID epoch bnd,
        as_AcceptedRelationship st' pipeID rcp = Ok (Some (Invite.JTI invite, epoch)) →
        ∃ e, RenewAcceptedAccess load rj now pipeID rcp bnd ch pf loader deps life st' = Fail e)).
Proof. split; intros; [by eapply one_recipient|by eapply revoked_invite_dead]. Qed.

(** C7: a renewed lease continues an accepted relationship and nothing more: renewal
    returns a lease only if the Pipe and the recipient have one whose invite is not
    revoked and whose epoch is the current one, the recipient proved possession of its
    key for this Pipe and this challenge, and the binding presented is the Pipe owner's
    for the loaded key; the lease has the recipient, the Pipe and the epoch of that
    relationship and lives at most the maximal lifetime from now. *)
Theorem renewal_sound load rnd now pipeID rcp enc challenge proof loader deps life st lease :
  RenewAcceptedAccess load rnd now pipeID rcp enc challenge proof loader deps life st = Ok lease →
  ∃ jti epoch key auth b,
    as_AcceptedRelationship st pipeID rcp = Ok (Some (jti, epoch)) ∧
    as_IsRevoked st jti "exact.invite" = Ok false ∧
    as_RevocationEpoch st pipeID "pipe-access" = Ok epoch ∧
    rcp = PublicString key ∧ challenge ≠ "" ∧
    VerifyProof key proof RenewProofPurpose [pipeID; challenge] = true ∧
    Load load loader = Ok auth ∧ Binding.DecodeOwnerBinding enc = Ok b ∧
    Binding.PipeID b = pipeID ∧ Binding.AuthorityKey b = PublicString (Public (Private auth)) ∧
    (∃ owner, binding_accepts b owner ∧ pipeID = PipeIDFromOwner owner) ∧
    Lease.Subject lease = rcp ∧ Lease.AudiencePipeID lease = pipeID ∧
    Lease.AccessEpoch lease = epoch ∧ Lease.Issuer lease = PublicString (Public (Private auth)) ∧
    unix_ns (Lease.IssuedAt lease) = unix_ns now ∧
    unix_ns now < unix_ns (Lease.ExpiresAt lease) ≤ unix_ns now + MaxTTL.
Proof. apply renew_ok. Qed.
End authority.

(** *** Witnesses *)
Lemma d7_changes : d8 ≠ d7.
Proof.
  intros E. assert (Hd : bool_decide (is_Some (accepted d8 !! (pipe, recipient))) = true) by (vm_compute; reflexivity).
  rewrite E in Hd. vm_compute in Hd. discriminate Hd.
Qed.

Lemma redeem_checks_first_witness :
  ∃ invite auth, redeemable (S := relations) (H1 := ExactAuthorityRevocationState pipe)
    load1 noon noon invite1_text (PublicString (@Public keys "recipient")) "challenge" (redeem_proof "recipient" "challenge") loader1 d7 invite auth.
Proof.
  destruct (redeem_checks_first (H := keys) (H1 := ExactAuthorityRevocationState pipe) load1 noon rnd16 rnd16 noon
              invite1_text (PublicString (@Public keys "recipient")) "challenge" (redeem_proof "recipient" "challenge") loader1 true (5 * Minute)
              d7 (Ok lease2) d8 redeem1_ok d7_changes) as (invite & auth & R & _).
  exists invite, auth. exact R.
Defined.

Lemma redeem_sound_witness :
  ∃ invite : Invite.ExactInvite, unix_ns (Lease.ExpiresAt lease2) ≤ unix_ns (Invite.ExpiresAt invite)
    ∧ Lease.Subject lease2 = PublicString (@Public keys "recipient").
Proof.
  destruct (redeem_sound (H := keys) (H1 := ExactAuthorityRevocationState pipe) load1 noon rnd16 rnd16 noon
              invite1_text (PublicString (@Public keys "recipient")) "challenge" (redeem_proof "recipient" "challenge") loader1 true (5 * Minute)
              d7 lease2 d8 redeem1_ok eq_refl) as (invite & auth & _ & _ & Hs & _ & _ & _ & _ & [_ Ht] & _).
  exists invite. split; [exact Ht|exact Hs].
Defined.

Lemma redeem_again : (redeem1 d8).1 = Ok (unwrap lease2 (redeem1 d8).1).
Proof. apply unwrap_ok. vm_compute. reflexivity. Qed.

Definition revoked : relations := (Revoke noon pipe "exact.invite" (Invite.JTI invite1) 1 d8).2.

Lemma invite1_decodes : Invite.DecodeInvite invite1_text = Ok invite1.
Proof. vm_compute. reflexivity. Qed.

Lemma invite_fate_witness :
  is_ok (redeem1 d8).1 = true ∧
  PublicString (@Public keys "recipient") = PublicString (@Public keys "recipient") ∧
  ∃ e, redeem1 revoked = (Fail e, revoked).
Proof.
  assert (E : redeem1 d8 = (Ok (unwrap lease2 (redeem1 d8).1), (redeem1 d8).2)).
  { rewrite <- redeem_again. apply surjective_pairing. }
  assert (Hr : IsRevoked revoked pipe "exact.invite" (Invite.JTI invite1) = Ok true) by (vm_compute; reflexivity).
  split; [rewrite redeem_again; reflexivity|]. split.
  - exact (proj1 (invite_fate (H := keys) (H1 := ExactAuthorityRevocationState pipe)
           load1 noon rnd16 rnd16 noon invite1_text (PublicString (@Public keys "recipient")) "challenge" (redeem_proof "recipient" "challenge")
           loader1 true (5 * Minute) d7 lease2 d8)
           load1 noon rnd16 rnd16 noon (PublicString (@Public keys "recipient")) "challenge" (redeem_proof "recipient" "challenge")
           loader1 true (5 * Minute) d8 _ _ redeem1_ok (rtc_refl _ _) E).
  - exact (proj1 (proj2 (invite_fate (H := keys) (H1 := ExactAuthorityRevocationState pipe)
           load1 noon rnd16 rnd16 noon invite1_text (PublicString (@Public keys "recipient")) "challenge"
           (redeem_proof "recipient" "challenge") loader1 true (5 * Minute) revoked lease2 d8) invite1 revoked
           invite1_decodes Hr (rtc_refl _ _))).
Defined.

Definition renew_proof : string := SignProof (H := keys) "recipient" RenewProofPurpose [pipe; "challenge"].
Local Abbreviation renew1 :=
  (RenewAcceptedAccess (H := keys) (H0 := ExactAuthorityRevocationState pipe) load1 rnd16 noon pipe
     (PublicString (@Public keys "recipient")) binding1_text "challenge" renew_proof loader1 true (5 * Minute) d8).
Definition lease3 : Lease.AccessLease := Eval vm_compute in unwrap lease2 renew1.

Lemma renew1_ok : renew1 = Ok lease3.
Proof. vm_compute. reflexivity. Qed.

Lemma renewal_sound_witness : Lease.Subject lease3 = PublicString (@Public keys "recipient").
Proof.
  destruct (renewal_sound (H := keys) (H1 := ExactAuthorityRevocationState pipe) load1 rnd16 noon pipe
              (PublicString (@Public keys "recipient")) binding1_text "challenge" renew_proof loader1 true (5 * Minute)
              d8 lease3 renew1_ok) as (jti & epoch & key & auth & b & _ & _ & _ & _ & _ & _ & _ & _ & _ & _ & _ & Hs & _).
  exact Hs.
Defined.

(** ** Opening *)

(** C8: the exact authorizer authorizes an open exactly when the presented text decodes to
    a lease that verifies for the pinned key, the client and the Pipe of the request, the
    client proved possession of its key for this challenge and Pipe, the lease is not
    revoked and its epoch is not below the current one; the authorization then repeats the
    request's Pipe and client and the lease's issuer, identifier, expiry and epoch. *)
Theorem authorize_open_exact `{Ed25519} {S} `{AuthorityState S} wall a (st : S) req auth :
  AuthorizeOpen wall a st req = Ok auth ↔
  ∃ lease, authorized a st req (effective_now (or_Now req) wall) lease ∧ auth = authorization_of req lease.
Proof. apply AuthorizeOpen_spec. Qed.

(** Raising a Pipe's access epoch shuts out every older lease for good. After
    [Revoke] stored an epoch for the Pipe, no state of the store reachable from there
    authorizes an open of that Pipe with a lease of a lower epoch; and a lease whose
    identifier was revoked is never authorized again. *)
Lemma epoch_fence `{Ed25519} wall a now pipeID epoch d d1 d2 req auth :
  rtc rel_step no_relations d → 0 ≤ epoch < 2 ^ 64 → or_PipeID req = pipeID →
  Revoke now pipeID "pipe-access" pipeID epoch d = (Ok tt, d1) → rtc rel_step d1 d2 →
  @AuthorizeOpen _ _ (ExactAuthorityRevocationState pipeID) wall a d2 req = Ok auth →
  epoch ≤ au_AccessEpoch auth ∧ IsRevoked d1 pipeID "access-lease" (au_LeaseID auth) = Ok false.
Proof.
  intros H0 He Hp Hrv Hs Ha.
  assert (R1 : rtc rel_step no_relations d1).
  { eapply rtc_r; [exact H0|]. replace d1 with (exec (OpRevoke now pipeID "pipe-access" pipeID epoch) d) by (cbn; by rewrite Hrv).
    by apply rel_step_op. }
  apply AuthorizeOpen_spec in Ha as (lease & [_ _ _ Hnr (cur & Hcur & Hle)] & ->). cbn [au_AccessEpoch au_LeaseID authorization_of].
  split.
  - rewrite Hp in Hcur. eapply Z.le_trans; [|exact Hle].
    eapply (steps_RevocationEpoch d1 d2 pipeID pipeID "pipe-access" epoch cur); [done|by apply reachable_positive| |exact Hcur].
    destruct (Revoke_cases now pipeID "pipe-access" pipeID epoch d) as [[e E]|(E & _)]; rewrite E in Hrv; [done|].
    injection Hrv as <-. unfold RevocationEpoch, select_epoch. cbn [revocations set_revocations].
    by rewrite lookup_insert_eq.
  - destruct (IsRevoked d1 pipeID "access-lease" (Lease.JTI lease)) as [[]|] eqn:E; [|done|done].
    apply (steps_IsRevoked _ _ _ _ _ Hs) in E. cbn in Hnr. congruence.
Qed.

(** Decisions on a possession proof that was signed for it. *)
Lemma VerifyProof_SignProof `{Ed25519Laws} k purpose parts :
  VerifyProof (Public k) (SignProof k purpose parts) purpose parts = true.
Proof.
  unfold VerifyProof, SignProof.
  rewrite (proj2 (decodeSignature_spec _ (SignMsg k (proof_message purpose parts)))).
  - apply VerifyMsg_SignMsg.
  - split; [done|apply SignMsg_size].
Qed.

(** C2: redeeming an invite leads to an open connection. The lease a redemption returned,
    encoded, opens its Pipe: the exact authorizer that pins the authority's key authorizes
    the recipient's request with a fresh proof at every instant up to the lease's expiry,
    in every state in which the lease is not revoked and the epoch has not moved past it. *)
Theorem redeemed_lease_opens `{Ed25519Laws} {S} `{AuthorityStateLaws S}
    load wall rs rj now enc k ch pf loader deps life (st st' st2 : S) auth lease text wall' ch' t epoch :
  RedeemExactInvite load wall rs rj now enc (PublicString (Public k)) ch pf loader deps life st = (Ok lease, st') →
  Load load loader = Ok auth →
  good_entropy rj → IsZero now = false → in_years (UTC now) → in_years (Lease.ExpiresAt lease) →
  Lease.Encode lease = Ok text → IsZero t = false →
  unix_ns now - MaxClockSkew ≤ unix_ns t < unix_ns (Lease.ExpiresAt lease) →
  as_IsRevoked st2 (Lease.JTI lease) "access-lease" = Ok false →
  as_RevocationEpoch st2 (Lease.AudiencePipeID lease) "pipe-access" = Ok epoch → epoch ≤ Lease.AccessEpoch lease →
  let pipeID := Lease.AudiencePipeID lease in
  let req := mkOpenRequest pipeID (PublicString (Public k)) ch' (SignProof k OpenProofPurpose [ch'; pipeID]) text t in
  AuthorizeOpen wall' (mkExactAuthorizer (Public (Private auth)) pipeID) st2 req
  = Ok (authorization_of req lease).
Proof.
  intros Hr Hload Hrj Hz Hy Hy' Henc Ht Hw Hnr Hep Hle pipeID req.
  destruct (redeem_cases _ _ _ _ _ _ _ _ _ _ _ _ _ _ _ Hr) as [[[e ?] _]|(invite & auth' & ss & Hc & _ & Hl)]; [done|].
  pose proof (redeem_checks_ok _ _ _ _ _ _ _ _ _ _ _ Hc) as [Hdec (b & owner & issuer & Hi) Hload' _ _ _ _].
  assert (auth' = auth) as -> by congruence. symmetry in Hl.
  destruct (NewAccessLease_inv _ _ _ _ _ _ _ _ Hl) as (jti & m & _ & _ & _ & _ & _ & El & _).
  assert (Ep : Lease.AudiencePipeID lease = Invite.AudiencePipeID invite) by (by rewrite El).
  assert (Ex : Lease.ExpiresAt lease = Add (UTC now) (bootstrap_lifetime life (Invite.ExpiresAt invite) now)) by (by rewrite El).
  clear El. rewrite Ex in Hy', Hw. cbn [Add UTC unix_ns] in Hw.
  assert (Hwire : LeaseFacts.wire_lease lease).
  { eapply minted_lease_wire; [exact Hl|done| |done|done|by eapply decoded_invite_epoch].
    rewrite (ia_owner _ _ _ _ _ _ Hi). apply ascii_PipeID. }
  apply AuthorizeOpen_spec. exists lease. split; [|done].
  constructor; cbn [or_AccessLease or_ClientPublic or_PipeID or_Challenge or_ChallengeProof or_Now ea_leasePublic req].
  - by apply LeaseFacts.Decode_Encode.
  - unfold pipeID. rewrite Ep. eapply minted_lease_accepts; [exact Hl|done|done|].
    unfold effective_now. rewrite Ht. cbn [UTC unix_ns]. lia.
  - exists (Public k). split; [done|]. split; [apply Public_size|apply VerifyProof_SignProof].
  - done.
  - exists epoch. by split.
Qed.

Definition lease2_text : string := Eval vm_compute in unwrap "" (Lease.Encode lease2).
Local Abbreviation open2 :=
  (mkOpenRequest (Lease.AudiencePipeID lease2) (PublicString (@Public keys "recipient")) "challenge-2"
    (SignProof (H := keys) "recipient" OpenProofPurpose ["challenge-2"; Lease.AudiencePipeID lease2]) lease2_text
    (Add noon Minute)).

Definition owner1 : Binding.OwnerAuthority := Eval vm_compute in
  unwrap (Binding.mkAuthority "" "" "" 0)
    (Binding.VerifyOwnerAuthority (H := keys) binding1 (PublicString (@Public keys authority_key))).
Definition auth1 : @Authority keys := @mkAuth keys authority_key binding1 owner1.
Lemma auth1_ok : Load (H := keys) load1 loader1 = Ok auth1.
Proof. vm_cast_no_check (eq_refl (Ok auth1)). Qed.

Lemma redeemed_lease_opens_witness :
  AuthorizeOpen (H := keys) (H0 := ExactAuthorityRevocationState pipe) noon
    (mkExactAuthorizer (@Public keys (Private auth1)) (Lease.AudiencePipeID lease2)) d8 open2
  = Ok (authorization_of open2 lease2).
Proof.
  assert (Hy : in_years (UTC noon)) by apply noon_years.
  assert (Hy' : in_years (Lease.ExpiresAt lease2)) by (vm_compute; split; discriminate).
  assert (He : Lease.Encode lease2 = Ok lease2_text) by (vm_compute; reflexivity).
  assert (Ht : unix_ns noon - MaxClockSkew ≤ unix_ns (Add noon Minute) < unix_ns (Lease.ExpiresAt lease2))
    by (vm_compute; split; [discriminate|reflexivity]).
  assert (Hn : @as_IsRevoked _ (ExactAuthorityRevocationState pipe) d8 (Lease.JTI lease2) "access-lease" = Ok false) by (vm_compute; reflexivity).
  assert (Hp : @as_RevocationEpoch _ (ExactAuthorityRevocationState pipe) d8 (Lease.AudiencePipeID lease2) "pipe-access" = Ok 7) by (vm_compute; reflexivity).
  assert (Hl : 7 ≤ Lease.AccessEpoch lease2) by (vm_compute; discriminate).
  exact (redeemed_lease_opens (H := keys) (H1 := ExactAuthorityRevocationState pipe)
           load1 noon rnd16 rnd16 noon invite1_text "recipient" "challenge" (redeem_proof "recipient" "challenge")
           loader1 true (5 * Minute) d7 d8 d8 auth1 lease2 lease2_text noon "challenge-2" (Add noon Minute) 7
           redeem1_ok auth1_ok rnd16_good eq_refl Hy Hy' He eq_refl Ht Hn Hp Hl).
Defined.

Local Abbreviation open7 :=
  (mkOpenRequest pipe (PublicString (@Public keys "recipient")) "challenge-2"
     (SignProof (H := keys) "recipient" OpenProofPurpose ["challenge-2"; pipe]) lease2_text (Add noon Minute)).
Local Abbreviation authorization7 :=
  (mkAuthorization pipe (PublicString (@Public keys "recipient")) (Lease.Issuer lease2) (Lease.JTI lease2)
     (Lease.ExpiresAt lease2) 7).
Local Abbreviation authorizer7 := (mkExactAuthorizer (@Public keys authority_key) pipe).

Lemma epoch_fence_witness :
  7 ≤ au_AccessEpoch authorization7 ∧ IsRevoked d7 pipe "access-lease" (au_LeaseID authorization7) = Ok false.
Proof.
  assert (E : Revoke noon pipe "pipe-access" pipe 7 no_relations = (Ok tt, d7))
    by vm_cast_no_check (eq_refl (Ok tt, d7)).
  assert (Hs : rtc rel_step d7 d7) by constructor.
  assert (Hp : or_PipeID open7 = pipe) by exact (eq_refl pipe).
  assert (Hr : 0 ≤ 7 < 2 ^ 64) by lia.
  assert (Ha : AuthorizeOpen (H := keys) (H0 := ExactAuthorityRevocationState pipe) noon authorizer7 d7 open7
               = Ok authorization7) by (vm_compute; reflexivity).
  exact (epoch_fence (H := keys) noon authorizer7 noon pipe 7 no_relations d7 d7 open7 authorization7
           (rtc_refl _ _) Hr Hp E Hs Ha).
Defined.
