(* ===== verification/BoundaryProps.v ===== *)
(** * Properties of the receiving boundary, the traversal and the domain model *)
From S2P Require Import Prelude GoStrings GoTime Encoding Json JsonRoundTrip Sha256.
From S2P Require Import Credentials CredentialFacts CredentialVerify StoreRelations StoreRelationFacts.
From S2P Require Import ExactAuthority ExactAuthorityFacts Domain DomainFacts Engine OpenBoundary.
Open Scope Z_scope.

(** ** No effect without authorization *)
Section serve_facts.
Context `{NetParsers} {Conn Carrier : Type}.

(** A binding of an authorization to an open. *)
Definition bound_to (clientPublic : string) (open : OpenPipe) (now : time) (auth : Authorization) : Prop :=
  au_PipeID auth = op_PipeID open ∧ au_Subject auth = clientPublic ∧
  IsZero (au_ExpiresAt auth) = false ∧ unix_ns now < unix_ns (au_ExpiresAt auth).

Lemma authorizeOpenOnly_ok authorizer clientPublic challenge open now auth :
  authorizeOpenOnly authorizer clientPublic challenge open now = Ok auth →
  ∃ f, authorizer = Some f ∧ f (open_request clientPublic challenge open now) = Ok auth ∧
       bound_to clientPublic open now auth.
Proof.
  unfold authorizeOpenOnly, bound_to, After. intros Ha. res_inv. by eexists.
Qed.

(** The bounds of the two frames of a client. *)
Definition field_bounded (v : string) : Prop := slen v ≤ 8192.
Record hello_bounded (hello : ClientHello) : Prop := {
  hb_version : ch_Version hello = "2.0";
  hb_count : llen (ch_Capabilities hello) ≤ 64;
  hb_public : field_bounded (ch_ClientPublic hello);
  hb_capabilities : Forall field_bounded (ch_Capabilities hello);
}.
Record open_bounded (open : OpenPipe) : Prop := {
  ob_pipe : field_bounded (op_PipeID open);
  ob_proof : field_bounded (op_ChallengeProof open);
  ob_visited : Forall field_bounded (op_VisitedPipeIDs open);
  ob_lease : slen (op_AccessLease open) ≤ 48 * 1024;
}.

Lemma boundedStrings_true l : boundedStrings 8192 l = true ↔ Forall field_bounded l.
Proof.
  unfold boundedStrings, field_bounded. rewrite forallb_forall, Forall_forall. split; intros Hl x Hx.
  - apply list_elem_of_In in Hx. apply Hl in Hx. lia.
  - apply list_elem_of_In in Hx. apply Hl in Hx. lia.
Qed.

Lemma hello_checks_ok hello : hello_checks hello = Ok tt ↔ hello_bounded hello.
Proof.
  unfold hello_checks. rewrite refuse_ok, !orb_false_iff, !negb_false_iff, seqb_true, Z.ltb_ge, boundedStrings_true,
    Forall_cons. split; [intros [[? ?] [? ?]]; by constructor|intros []; done].
Qed.

Lemma open_checks_ok self open :
  open_checks self open = Ok tt ↔ open_bounded open ∧ op_PipeID open = self ∧ receiver_hops_ok self open.
Proof.
  unfold open_checks. split.
  - intros Hc. pose proof (open_checks_hops self open Hc) as [Hp Hh]. split; [|done].
    apply bind_ok in Hc as (u & Hb%refuse_ok & _). rewrite orb_false_iff, negb_false_iff, boundedStrings_true, !Forall_cons in Hb.
    destruct Hb as [(? & ? & ?) Hl%Z.ltb_ge]. by constructor.
  - intros ([H1 H2 H3 H4] & Hp & Hh & Hl & Hn & Hs). pass.
    { apply orb_false_iff. split; [|by apply Z.ltb_ge]. apply negb_false_iff, boundedStrings_true. by rewrite !Forall_cons. }
    pass; [by rewrite Hp, seqb_refl|]. pass; [lia|]. apply refuse_ok, visited_loop_false. set_solver.
Qed.

(** C24: the receiving side touches nothing outside before it has authorized the open: if
    [serve] dials a service or forwards to another Pipe, or returns a target, then the
    frames were within their bounds (version 2.0, at most 64 capabilities, every field of
    the two frames at most 8192 bytes and the lease at most 48 KiB) and for this Pipe, the
    hop and loop conditions held, and the injected authorizer returned an authorization
    bound to exactly this Pipe and client that expires in the future; and it dials or
    forwards at most once. *)
Theorem serve_authorized_first spec service authorizer dial engine (opener : option (DownstreamOpener Carrier))
    hello challenge open now r evs :
  serve (Conn := Conn) spec service authorizer dial engine opener hello challenge open now = (r, evs) →
  (length evs ≤ 1)%nat ∧
  (evs ≠ [] ∨ is_ok r = true →
   hello_bounded hello ∧ open_bounded open ∧ op_PipeID open = p_PipeID spec ∧ receiver_hops_ok (p_PipeID spec) open ∧
   ∃ f auth, authorizer = Some f ∧ f (open_request (ch_ClientPublic hello) challenge open now) = Ok auth ∧
     bound_to (ch_ClientPublic hello) open now auth ∧
     (∀ a t, r = Ok (a, t) → a = auth)).
Proof.
  unfold serve. destruct (_ ← hello_checks hello; _) as [u|e] eqn:Ec.
  2:{ intros [= <- <-]. split; [simpl; lia|]. by intros [?|?]. }
  destruct (authorizeOpenOnly _ _ _ _ _) as [auth|e] eqn:Ea.
  2:{ intros [= <- <-]. split; [simpl; lia|]. by intros [?|?]. }
  apply authorizeOpenOnly_ok in Ea as (f & Hf & Hr & Hb).
  apply bind_ok in Ec as ([] & Hh%hello_checks_ok & Hc). destruct u. apply open_checks_ok in Hc as (Hb' & Hp & Hc).
  intros Hs. split.
  - repeat case_match; simplify_eq; simpl; lia.
  - intros _. split_and!; [done..|]. exists f, auth. split_and!; [done..|].
    intros a t ->. repeat case_match; by simplify_eq.
Qed.

(** The engine's own conditions on the next Pipe. *)
Lemma forwardPipeTarget_cases (e : Engine Conn) target next s :
  resolvePipe e target = Ok next → PipeValidate next = Ok tt →
  (mem_str (p_PipeID next) (VisitedIDs s) = false ∧ (Remaining s <? 1) = false ∧
   ∀ f : DownstreamOpener Carrier, forwardPipeTarget e target s (Some f) = ('(c, sid) ← f next s; Ok (ToPipe c sid))) ∨
  (¬ (mem_str (p_PipeID next) (VisitedIDs s) = false ∧ (Remaining s <? 1) = false) ∧
   ∃ err, (errors_Is err ErrLoopDetected = true ∨ errors_Is err ErrHopLimitExceeded = true) ∧
   ∀ f : DownstreamOpener Carrier, forwardPipeTarget e target s (Some f) = Fail err).
Proof.
  intros Hn Hv. unfold forwardPipeTarget. rewrite Hn, Hv.
  destruct (mem_str (p_PipeID next) (VisitedIDs s)); [|destruct (Remaining s <? 1)].
  - right. split; [by intros [? _]|]. exists err_loop. by split; [left|].
  - right. split; [by intros [_ ?]|]. exists err_hops. by split; [right|].
  - by left.
Qed.

(** An engine that forwards to the next Pipe never sends an open that Pipe would refuse
    for hops or loops, and never withholds one it would accept. *)
Lemma forward_agrees_with_receiver (e : Engine Conn) target self open next proof lease :
  open_checks self open = Ok tt → resolvePipe e target = Ok next → PipeValidate next = Ok tt →
  field_bounded (p_PipeID next) → field_bounded proof → slen lease ≤ 48 * 1024 →
  ∃ s0 s, FromWire (op_VisitedPipeIDs open) (op_HopLimit open) = Ok s0 ∧ Advance s0 self = Ok s ∧
    if is_ok (open_checks (p_PipeID next) (downstream_open (p_PipeID next) proof lease s)) then
      ∀ f : DownstreamOpener Carrier, forwardPipeTarget e target s (Some f) = ('(c, sid) ← f next s; Ok (ToPipe c sid))
    else
      ∃ err, (errors_Is err ErrLoopDetected = true ∨ errors_Is err ErrHopLimitExceeded = true) ∧
      ∀ f : DownstreamOpener Carrier, forwardPipeTarget e target s (Some f) = Fail err.
Proof.
  intros ([Hb1 _ Hb3 _] & Hp & Hc)%open_checks_ok Hn Hv Hi Hpr Hle. destruct (accepted_traversal _ _ Hc) as (s0 & H0 & H1).
  exists s0. eexists. split; [done|]. split; [done|].
  set (s := mkTraversal _ _ _). pose proof (forward_condition self open (p_PipeID next) proof lease s Hc eq_refl) as Hf.
  assert (Hbd : open_bounded (downstream_open (p_PipeID next) proof lease s)).
  { constructor; cbn; try done. apply Forall_app. split; [done|]. rewrite <- Hp. by repeat constructor. }
  destruct (open_checks _ _) as [[]|err] eqn:Eo; cbn [is_ok].
  - apply open_checks_ok in Eo as (_ & _ & Hr%Hf).
    by destruct (forwardPipeTarget_cases e target next s Hn Hv) as [(_ & _ & ?)|[? _]].
  - destruct (forwardPipeTarget_cases e target next s Hn Hv) as [(Hm & Hr & _)|[_ ?]]; [|done].
    assert (Ok tt = Fail err); [|done]. rewrite <- Eo. symmetry. apply open_checks_ok. split; [done|]. split; [done|]. by apply Hf.
Qed.
End serve_facts.

Definition sample_open : OpenPipe := mkOpenPipe "pip_b" "" "" ["pip_a"] 3.

(** A Pipe to a local service, with an authorizer that grants an hour. *)
#[local] Instance no_parsers : NetParsers := { url_Parse _ := None; SplitHostPort _ := None }.
Definition web : ServiceSpec := mkService (mkRef KindService "web") ServiceTCP "tcp://127.0.0.1:80" "" [].
Definition pipe_b : PipeSpec :=
  mkPipe (mkRef KindPipe "b") "pip_b" None (mkIngress IngressTubo "" "" "" "") (mkRef KindService "web")
    VisibilityPrivate AccessInviteOnly false zero_time zero_time.
Definition grant (req : OpenRequest) : res Authorization :=
  Ok (mkAuthorization (or_PipeID req) (or_ClientPublic req) "" "jti_x" (Add (or_Now req) (60 * Minute)) 1).
Definition hello1 : ClientHello := mkClientHello "2.0" "client" [].
Definition engine1 : Engine nat :=
  mkEngine (λ _, Fail (errorf "none")) (λ _, Fail (errorf "none")) (λ _, Fail (errorf "none")).
Definition served := serve (Conn := nat) (Carrier := nat) pipe_b web (Some grant) (λ _, Ok 80%nat) engine1 None
                       hello1 "challenge" sample_open zero_time.

Lemma serve_authorized_witness :
  served.2 = [Dialed web] ∧ hello_bounded hello1 ∧ open_bounded sample_open.
Proof.
  assert (E : served = (served.1, served.2)) by apply surjective_pairing.
  split; [vm_compute; reflexivity|].
  destruct (proj2 (serve_authorized_first pipe_b web (Some grant) (λ _, Ok 80%nat) engine1 None
            hello1 "challenge" sample_open zero_time served.1 served.2 E)) as (Hh & Ho & _).
  - right. vm_compute. reflexivity.
  - exact (conj Hh Ho).
Defined.

(** ** Traversals *)

(** C30: on its whole way through chained Pipes a request never visits a Pipe twice and
    visits at most eight: every traversal state that arises from an open frame and
    successful advances lists pairwise different Pipes, and their number plus the hops
    left is the hop limit of the frame. And an engine that forwards to the next Pipe never
    sends an open that Pipe would refuse for hops or loops, and never withholds one it would
    accept: for the state that a receiver builds from an open it accepted, forwarding to the
    next Pipe is what the opener of that Pipe returns if the next Pipe accepts the open frame
    made from that state, and otherwise fails with a loop or hop-limit error whatever the
    opener is, so the opener is not used. (The identifier of the next Pipe, the proof and the
    lease are within the bounds of a frame.) *)
Theorem traversal_bounded `{NetParsers} {Conn Carrier : Type} :
  (∀ s, Traversal s →
     NoDup (VisitedIDs s) ∧ llen (VisitedIDs s) + Remaining s = MaxHops s ∧ 0 ≤ Remaining s ∧
     llen (VisitedIDs s) ≤ 8) ∧
  (∀ (e : Engine Conn) target self open next proof lease,
     open_checks self open = Ok tt → resolvePipe e target = Ok next → PipeValidate next = Ok tt →
     field_bounded (p_PipeID next) → field_bounded proof → slen lease ≤ 48 * 1024 →
     ∃ s0 s, FromWire (op_VisitedPipeIDs open) (op_HopLimit open) = Ok s0 ∧ Advance s0 self = Ok s ∧
       if is_ok (open_checks (p_PipeID next) (downstream_open (p_PipeID next) proof lease s)) then
         ∀ f : DownstreamOpener Carrier,
           forwardPipeTarget e target s (Some f) = ('(c, sid) ← f next s; Ok (ToPipe c sid))
       else
         ∃ err, (errors_Is err ErrLoopDetected = true ∨ errors_Is err ErrHopLimitExceeded = true) ∧
         ∀ f : DownstreamOpener Carrier, forwardPipeTarget e target s (Some f) = Fail err).
Proof.
  split; [|apply forward_agrees_with_receiver].
  intros s [Hn Hb Hm Hr]%traversal_holds. unfold DefaultMaxPipeHops in Hm. split_and!; try done; lia.
Qed.

(** An engine whose next Pipe is [pipe_c]. *)
Definition pipe_c : PipeSpec :=
  mkPipe (mkRef KindPipe "c") "pip_c" None (mkIngress IngressTubo "" "" "" "") (mkRef KindService "web")
    VisibilityPrivate AccessInviteOnly false zero_time zero_time.
Definition engine2 : Engine nat :=
  mkEngine (λ _, Fail (errorf "none")) (λ _, Ok pipe_c) (λ _, Fail (errorf "none")).

Lemma traversal_bounded_witness :
  NoDup ["pip_a"; "pip_b"] ∧
  ∃ s0 s, FromWire ["pip_a"] 3 = Ok s0 ∧ Advance s0 "pip_b" = Ok s ∧
    if is_ok (open_checks "pip_c" (downstream_open "pip_c" "" "" s)) then
      ∀ f : DownstreamOpener nat,
        forwardPipeTarget engine2 (p_Ref pipe_c) s (Some f) = ('(c, sid) ← f pipe_c s; Ok (ToPipe c sid))
    else
      ∃ err, (errors_Is err ErrLoopDetected = true ∨ errors_Is err ErrHopLimitExceeded = true) ∧
      ∀ f : DownstreamOpener nat, forwardPipeTarget engine2 (p_Ref pipe_c) s (Some f) = Fail err.
Proof.
  split.
  - apply (proj1 (traversal_bounded (Conn := nat) (Carrier := nat)) (mkTraversal ["pip_a"; "pip_b"] 1 3)).
    apply (trav_advance (mkTraversal ["pip_a"] 2 3) "pip_b"); [|reflexivity].
    by apply (trav_wire ["pip_a"] 3).
  - apply (proj2 (traversal_bounded (Conn := nat) (Carrier := nat)) engine2 (p_Ref pipe_c) "pip_b" sample_open pipe_c "" "");
      vm_compute; first [reflexivity|discriminate].
Defined.

(** ** Paths *)

(** C31: [ResolveLogicalPath] returns a path exactly when there is one: a chain of valid
    Pipes from the start, each the target of the one before, ending at a valid Service,
    that looks up no reference twice and is not longer than the hop limit (eight when none
    is given); and the path it returns lists that chain. The loop always ends. *)
Theorem resolve_refines_chain `{NetParsers} loadPipe loadService start maxHops path :
  ResolveLogicalPath loadPipe loadService true start maxHops = Ok path ↔
  RequireKind start KindPipe = Ok tt ∧
  ∃ keys, Chain loadPipe loadService start keys (Pipes path) (Terminal path) ∧
    NoDup (map RefString keys) ∧ llen keys ≤ (if maxHops <=? 0 then 8 else maxHops).
Proof. apply resolve_spec. Qed.
