(* ===== verification/Session.v ===== *)
(** * Sessions

    [internal/runtime/session.go] and [ownership.go]: the session registry, the
    lifecycle of a session (admission of work, stop, completion) as atomic steps
    that goroutines interleave, and the two copy directions of the data plane; and
    the end of [serve] ([serve.go]) that hands a carrier over to a session. *)
From S2P Require Import Prelude GoStrings GoTime.
Open Scope Z_scope.

(** ** The registry *)
Module Registry.
(** A session pump is known by the address of its allocation. *)
Definition pump := nat.
Record t := mk { closed : bool; sessions : gmap string pump }.

Definition newSessionRegistry : t := mk false ∅.

Definition get (r : t) (id : string) : option pump := if closed r then None else sessions r !! id.

Definition register (r : t) (id : string) (p : pump) : res unit * t :=
  if id =s "" then (Fail (wrapf ErrInvalidSessionID "invalid session ID"), r)
  else if closed r then (Fail (wrapf ErrRuntimeClosed "runtime closed"), r)
  else match sessions r !! id with
       | Some _ => (Fail (wrapf ErrDuplicateSessionID "duplicate session ID"), r)
       | None => (Ok tt, mk (closed r) (<[id := p]> (sessions r)))
       end.

Definition remove (r : t) (id : string) (p : pump) : t :=
  if bool_decide (sessions r !! id = Some p) then mk (closed r) (delete id (sessions r)) else r.

Definition close (r : t) : list pump * t :=
  if closed r then ([], r) else (map snd (map_to_list (sessions r)), mk true ∅).
End Registry.

(** ** Ownership of sessions ([ownership.go]) *)
Module Ownership.
Definition runtime_closed : res unit := Fail (wrapf ErrRuntimeClosed "runtime closed").

Record PipeRuntime := mkPipe { pr_closed : bool; pr_err : bool; registry : Registry.t }.

(** [pr_err] is [ctx.Err() != nil]. A session that is not registered is dropped. *)
Definition NewSession (p : PipeRuntime) (id : string) (sp : Registry.pump) : res unit * PipeRuntime :=
  if pr_closed p || pr_err p then (runtime_closed, p)
  else let '(r, reg) := Registry.register (registry p) id sp in
       (r, mkPipe (pr_closed p) (pr_err p) reg).

(** The sessions [Close] goes on to stop. *)
Definition ClosePipe (p : PipeRuntime) : list Registry.pump * PipeRuntime :=
  if pr_closed p then ([], p)
  else let '(sessions, reg) := Registry.close (registry p) in (sessions, mkPipe true true reg).

Definition newPipeRuntime : PipeRuntime := mkPipe false false Registry.newSessionRegistry.

Record NodeRuntime := mkNode { nr_closed : bool; nr_err : bool; pipes : gset nat }.

Definition NewPipeRuntime (n : NodeRuntime) (addr : nat) : res PipeRuntime * NodeRuntime :=
  if nr_closed n || nr_err n then (Fail (wrapf ErrRuntimeClosed "runtime closed"), n)
  else (Ok newPipeRuntime, mkNode (nr_closed n) (nr_err n) ({[addr]} ∪ pipes n)).

Definition removePipe (n : NodeRuntime) (addr : nat) : NodeRuntime :=
  mkNode (nr_closed n) (nr_err n) (pipes n ∖ {[addr]}).

(** The pipe runtimes [Close] goes on to close. *)
Definition CloseNode (n : NodeRuntime) : list nat * NodeRuntime :=
  if nr_closed n then ([], n) else (elements (pipes n), mkNode true true (pipes n)).

(** What happens to a pipe runtime and its sessions, in any order: [created] are the
    sessions [NewSession] returned (each a fresh allocation), [removed] the ones whose
    own stop unregistered them, [handed] the ones [Close] took over to stop. *)
Record owned := mkOwned {
  pipe : PipeRuntime;
  created : gset Registry.pump;
  removed : gset Registry.pump;
  handed : gset Registry.pump;
}.

Definition initial : owned := mkOwned newPipeRuntime ∅ ∅ ∅.

Inductive own_step : owned → owned → Prop :=
  | own_new o id sp p' :
      sp ∉ created o → NewSession (pipe o) id sp = (Ok tt, p') →
      own_step o (mkOwned p' ({[sp]} ∪ created o) (removed o) (handed o))
  | own_remove o id sp :
      Registry.sessions (registry (pipe o)) !! id = Some sp →
      own_step o (mkOwned (mkPipe (pr_closed (pipe o)) (pr_err (pipe o))
                             (Registry.remove (registry (pipe o)) id sp))
                    (created o) ({[sp]} ∪ removed o) (handed o))
  | own_late_remove o id sp :
      Registry.sessions (registry (pipe o)) !! id ≠ Some sp →
      own_step o (mkOwned (mkPipe (pr_closed (pipe o)) (pr_err (pipe o))
                             (Registry.remove (registry (pipe o)) id sp))
                    (created o) (removed o) (handed o))
  | own_cancel o :
      own_step o (mkOwned (mkPipe (pr_closed (pipe o)) true (registry (pipe o)))
                    (created o) (removed o) (handed o))
  | own_close o l p' :
      ClosePipe (pipe o) = (l, p') →
      own_step o (mkOwned p' (created o) (removed o) (list_to_set l ∪ handed o)).
End Ownership.

(** ** The lifecycle *)
Inductive SessionState := StateActive | StateClosing | StateClosed.

Inductive terminal := Closed | Reset.

(** Carriers are known by the address of their allocation. *)
Definition carrier := nat.

(** How far [completeStop] has come, with the carrier it took over. *)
Inductive closer :=
  | NoCloser
  | Began (active : option carrier)          (* after beginStop *)
  | Cancelled (active : option carrier)      (* contexts cancelled *)
  | CarrierDone                              (* carrier closed or reset *)
  | TargetDone                               (* target closed, waiting for workDone *)
  | Drained                                  (* workDone seen, to be removed *)
  | Finished.                                (* stopDone closed *)

(** The fields below [phase] are not in the Go struct: they record the terminal
    actions taken on the carrier and the target, whether the session is still in the
    registry, the last carrier installed, the goroutines between a successful
    [admitWork] and their [finishWork], and whether a panic was raised. *)
Record sessionPump := mkPump {
  state : SessionState;
  stopping : bool;
  cancelled : bool;
  activeCarrier : option carrier;
  targetConn : bool;
  workCount : Z;
  workClosed : bool;
  completedCleanly : bool;
  phase : closer;
  carrierEnds : list (carrier * terminal);
  targetCloses : nat;
  registered : bool;
  installed : option carrier;
  workers : nat;
  panicked : bool;
}.

Definition newSessionPump (target : bool) : sessionPump :=
  mkPump StateActive false false None target 0 false false NoCloser [] 0 true None 0 false.

Definition SetActiveCarrier (c : carrier) (sp : sessionPump) : bool * sessionPump :=
  if stopping sp || cancelled sp then (false, sp)
  else (true, mkPump (state sp) (stopping sp) (cancelled sp) (Some c) (targetConn sp) (workCount sp)
                (workClosed sp) (completedCleanly sp) (phase sp) (carrierEnds sp) (targetCloses sp)
                (registered sp) (Some c) (workers sp) (panicked sp)).

Definition acceptDispatch (sp : sessionPump) : bool := negb (stopping sp) && negb (cancelled sp).

Definition admitWork (sp : sessionPump) : bool * sessionPump :=
  if stopping sp || cancelled sp then (false, sp)
  else (true, mkPump (state sp) (stopping sp) (cancelled sp) (activeCarrier sp) (targetConn sp)
                (workCount sp + 1) (workClosed sp) (completedCleanly sp) (phase sp) (carrierEnds sp)
                (targetCloses sp) (registered sp) (installed sp) (S (workers sp)) (panicked sp)).

(** Closing a closed channel panics; [workClosed] is what prevents it. *)
Definition closeWorkDoneLocked (sp : sessionPump) : sessionPump :=
  if stopping sp && (workCount sp =? 0) && negb (workClosed sp) then
    mkPump (state sp) (stopping sp) (cancelled sp) (activeCarrier sp) (targetConn sp) (workCount sp)
      true (completedCleanly sp) (phase sp) (carrierEnds sp) (targetCloses sp) (registered sp)
      (installed sp) (workers sp) (panicked sp)
  else sp.

Definition finishWork (sp : sessionPump) : sessionPump :=
  let n := workCount sp - 1 in
  let sp := mkPump (state sp) (stopping sp) (cancelled sp) (activeCarrier sp) (targetConn sp) n
              (workClosed sp) (completedCleanly sp) (phase sp) (carrierEnds sp) (targetCloses sp)
              (registered sp) (installed sp) (pred (workers sp)) (panicked sp || (n <? 0)) in
  if n <? 0 then sp else closeWorkDoneLocked sp.

Definition beginStop (sp : sessionPump) : bool * sessionPump :=
  if stopping sp then (false, sp)
  else (true, closeWorkDoneLocked
                (mkPump StateClosed true (cancelled sp) None (targetConn sp) (workCount sp)
                   (workClosed sp) (completedCleanly sp) (Began (activeCarrier sp)) (carrierEnds sp)
                   (targetCloses sp) (registered sp) (installed sp) (workers sp) (panicked sp))).

Definition set_phase (sp : sessionPump) (cancelled : bool) (ph : closer)
    (ends : list (carrier * terminal)) (targets : nat) (reg : bool) : sessionPump :=
  mkPump (state sp) (stopping sp) cancelled (activeCarrier sp) (targetConn sp) (workCount sp)
    (workClosed sp) (completedCleanly sp) ph ends targets reg (installed sp) (workers sp)
    (panicked sp).

(** The next action of [completeStop]; [None] while it waits or when it is over. *)
Definition completeStop (sp : sessionPump) : option sessionPump :=
  match phase sp with
  | NoCloser | Finished => None
  | Began a => Some (set_phase sp true (Cancelled a) (carrierEnds sp) (targetCloses sp) (registered sp))
  | Cancelled a =>
      let ends := match a with
                  | Some c => carrierEnds sp ++ [(c, if completedCleanly sp then Closed else Reset)]
                  | None => carrierEnds sp
                  end in
      Some (set_phase sp (cancelled sp) CarrierDone ends (targetCloses sp) (registered sp))
  | CarrierDone =>
      let closes := if targetConn sp then S (targetCloses sp) else targetCloses sp in
      Some (set_phase sp (cancelled sp) TargetDone (carrierEnds sp) closes (registered sp))
  | TargetDone =>
      if workClosed sp
      then Some (set_phase sp (cancelled sp) Drained (carrierEnds sp) (targetCloses sp) (registered sp))
      else None
  | Drained =>
      Some (set_phase sp (cancelled sp) Finished (carrierEnds sp) (targetCloses sp) false)
  end.

(** [completedCleanly.Store(cleanA && cleanB)] at the end of [pumpCarrier]. *)
Definition pumped (cleanA cleanB : bool) (sp : sessionPump) : sessionPump :=
  mkPump (state sp) (stopping sp) (cancelled sp) (activeCarrier sp) (targetConn sp) (workCount sp)
    (workClosed sp) (cleanA && cleanB) (phase sp) (carrierEnds sp) (targetCloses sp) (registered sp)
    (installed sp) (workers sp) (panicked sp).

(** The parent context of the session is cancelled. *)
Definition cancel_ctx (sp : sessionPump) : sessionPump :=
  mkPump (state sp) (stopping sp) true (activeCarrier sp) (targetConn sp) (workCount sp)
    (workClosed sp) (completedCleanly sp) (phase sp) (carrierEnds sp) (targetCloses sp)
    (registered sp) (installed sp) (workers sp) (panicked sp).

(** Interleavings of the goroutines that share a session: its handler installs a
    carrier, workers are admitted, record how the pump ended and finish, anyone may
    stop it ([Stop], [requestStop]), its parent may cancel it. Every step is one
    critical section or one action outside the mutex. *)
Inductive step : sessionPump → sessionPump → Prop :=
  | st_carrier sp sp' c : SetActiveCarrier c sp = (true, sp') → step sp sp'
  | st_admit sp sp' : admitWork sp = (true, sp') → step sp sp'
  | st_finish sp : (0 < workers sp)%nat → step sp (finishWork sp)
  | st_pumped sp cleanA cleanB : (0 < workers sp)%nat → step sp (pumped cleanA cleanB sp)
  | st_stop sp sp' : beginStop sp = (true, sp') → step sp sp'
  | st_complete sp sp' : completeStop sp = Some sp' → step sp sp'
  | st_cancel sp : step sp (cancel_ctx sp).

(** ** The copy loops *)
Inductive read_err := NoErr | EOF | ReadErr.
Record read := mkRead { r_data : list ascii; r_err : read_err }.
(** Bytes accepted by one [Write] and whether it reported an error. *)
Record write := mkWrite { w_n : nat; w_err : bool }.

Inductive copy_event := Wrote (data : list ascii) | HalfClosed | StopRequested.

(** [writeAllToTarget] and [writeAllToCarrier] against the outcomes of the writer;
    [None] when the outcomes run out, that is while the writer blocks. *)
Fixpoint writeAll (ws : list write) (p : list ascii) : option (bool * list ascii * list write) :=
  match p with
  | [] => Some (true, [], ws)
  | _ =>
      match ws with
      | [] => None
      | w :: ws =>
          let n := Nat.min (w_n w) (length p) in
          if w_err w then Some (Nat.leb (length p) n, take n p, ws)
          else match writeAll ws (drop n p) with
               | Some (ok, out, ws) => Some (ok, take n p ++ out, ws)
               | None => None
               end
      end
  end.

(** One direction: the bytes counted, what was done, and whether it ended cleanly. *)
Fixpoint copy (rs : list read) (ws : list write) (half_close : bool) (count : Z)
    : option (bool * Z * list copy_event) :=
  match rs with
  | [] => None
  | r :: rs =>
      let tail (ws : list write) (count : Z) (done : list copy_event) :=
        match r_err r with
        | EOF => Some (true, count, done ++ (if half_close then [HalfClosed] else []))
        | ReadErr => Some (false, count, done ++ [StopRequested])
        | NoErr => match copy rs ws half_close count with
                   | Some (clean, count, evs) => Some (clean, count, done ++ evs)
                   | None => None
                   end
        end in
      match r_data r with
      | [] => tail ws count []
      | data =>
          match writeAll ws data with
          | None => None
          | Some (false, out, _) => Some (false, count, [Wrote out; StopRequested])
          | Some (true, out, ws) => tail ws (count + llen data) [Wrote out]
          end
      end
  end.

(** ** Handing a carrier over ([serve.go]) *)
Inductive serve_result := Transferred | ServeErr | ServeOk.

(** What [handle] does to the raw stream after [serve] returned. *)
Definition handle (r : serve_result) : option terminal :=
  match r with Transferred => None | ServeErr => Some Reset | ServeOk => Some Closed end.

(** The end of [serve]: [created] is the outcome of [NewSession], [c] the wrapped
    stream. Both a refused and an installed carrier end in the same sentinel. *)
Definition serve_transfer (created : bool) (c : carrier) (sp : sessionPump)
    : serve_result * sessionPump :=
  if created then (Transferred, (SetActiveCarrier c sp).2) else (ServeErr, sp).
