(* ===== verification/SessionFacts.v ===== *)
(** * Properties of sessions

    The lifecycle invariant of a session over every interleaving of its goroutines,
    what a finished session has done, progress of a stop, ownership of the sessions of
    a pipe runtime, and the integrity of the copy loops. *)
From S2P Require Import Prelude GoStrings GoTime Session.
Open Scope Z_scope.

(** ** The lifecycle invariant *)

(** Closing has taken over the carrier that was installed last, if any, and terminates
    it once. *)
Definition closer_inv (sp : sessionPump) : Prop :=
  match phase sp with
  | NoCloser => activeCarrier sp = installed sp ∧ carrierEnds sp = []
  | Began a | Cancelled a => a = installed sp ∧ carrierEnds sp = []
  | _ => match installed sp with
         | Some c => ∃ t, carrierEnds sp = [(c, t)]
         | None => carrierEnds sp = []
         end
  end.

Definition target_inv (sp : sessionPump) : Prop :=
  targetCloses sp = match phase sp with
                    | NoCloser | Began _ | Cancelled _ | CarrierDone => 0%nat
                    | _ => if targetConn sp then 1%nat else 0%nat
                    end.

Definition drained_inv (sp : sessionPump) : Prop :=
  match phase sp with
  | Drained => workCount sp = 0 ∧ registered sp = true
  | Finished => workCount sp = 0 ∧ registered sp = false
  | _ => registered sp = true
  end.

Record session_inv (sp : sessionPump) : Prop := {
  inv_panic : panicked sp = false;
  inv_count : workCount sp = Z.of_nat (workers sp);
  inv_closed : workClosed sp = stopping sp && (workCount sp =? 0);
  inv_phase : stopping sp = match phase sp with NoCloser => false | _ => true end;
  inv_state : state sp = if stopping sp then StateClosed else StateActive;
  inv_closer : closer_inv sp;
  inv_target : target_inv sp;
  inv_drained : drained_inv sp;
}.

Lemma new_inv target : session_inv (newSessionPump target).
Proof. by constructor. Qed.

Ltac session_cases sp :=
  destruct sp as [st sg cn ac tc wc wd cc ph ce tg rg ins wk pk];
  unfold closer_inv, target_inv, drained_inv in *; simpl in *; subst.

Ltac session_done :=
  constructor; unfold closer_inv, target_inv, drained_inv; simpl; try done; naive_solver lia.

Lemma carrier_inv sp c sp' :
  session_inv sp → SetActiveCarrier c sp = (true, sp') → session_inv sp'.
Proof.
  intros [P C W HP S K T D]. unfold SetActiveCarrier. destruct (stopping sp || cancelled sp) eqn:E; [done|].
  intros [= <-]. apply orb_false_iff in E as [E1 E2]. session_cases sp. destruct ph; try done. session_done.
Qed.

Lemma admit_inv sp sp' : session_inv sp → admitWork sp = (true, sp') → session_inv sp'.
Proof.
  intros [P C W HP S K T D]. unfold admitWork. destruct (stopping sp || cancelled sp) eqn:E; [done|].
  intros [= <-]. apply orb_false_iff in E as [E1 E2]. session_cases sp. destruct ph; try done. session_done.
Qed.

Lemma finish_inv sp : session_inv sp → (0 < workers sp)%nat → session_inv (finishWork sp).
Proof.
  intros [P C W HP S K T D] Hw. unfold finishWork, closeWorkDoneLocked. session_cases sp.
  destruct wk as [|wk]; [lia|].
  replace (Z.of_nat (S wk) - 1) with (Z.of_nat wk) by lia.
  rewrite (proj2 (Z.ltb_ge (Z.of_nat wk) 0)) by lia.
  rewrite (proj2 (Z.eqb_neq (Z.of_nat (S wk)) 0)) by lia. rewrite andb_false_r. simpl.
  destruct ph; simpl; try (destruct wk as [|wk]; simpl; session_done).
  all: exfalso; lia.
Qed.

Lemma stop_inv sp sp' : session_inv sp → beginStop sp = (true, sp') → session_inv sp'.
Proof.
  intros [P C W HP S K T D]. unfold beginStop, closeWorkDoneLocked. destruct (stopping sp) eqn:E; [done|].
  intros [= <-]. session_cases sp. destruct ph; try done. simpl.
  destruct (_ =? _) eqn:Ez; simpl; constructor; simpl; try done; by rewrite ?Ez.
Qed.

Lemma complete_inv sp sp' : session_inv sp → completeStop sp = Some sp' → session_inv sp'.
Proof.
  intros [P C W HP S K T D]. unfold completeStop, set_phase. session_cases sp.
  destruct ph as [|a|a| | | |]; simpl in *; try done.
  - intros [= <-]. session_done.
  - intros [= <-]. destruct K as [-> ->]. destruct ins; session_done.
  - intros [= <-]. destruct tc; session_done.
  - destruct (_ =? _) eqn:Ez; [|done]. intros [= <-]. bool_step. session_done.
  - intros [= <-]. session_done.
Qed.

Lemma step_inv sp sp' : session_inv sp → step sp sp' → session_inv sp'.
Proof.
  intros I H. destruct H;
    eauto using carrier_inv, admit_inv, finish_inv, stop_inv, complete_inv;
    destruct I; session_cases sp; session_done.
Qed.

Lemma steps_session_inv sp sp' : rtc step sp sp' → session_inv sp → session_inv sp'.
Proof. induction 1; eauto using step_inv. Qed.

Lemma reachable_inv target sp : rtc step (newSessionPump target) sp → session_inv sp.
Proof. intros H. eapply steps_session_inv; [done|]. apply new_inv. Qed.

(** ** Admission is fenced *)
Definition ends_prefix (sp sp' : sessionPump) : Prop :=
  (stopping sp = true → stopping sp' = true ∧ (workers sp' ≤ workers sp)%nat
                        ∧ installed sp' = installed sp) ∧
  (phase sp = Finished → phase sp' = Finished ∧ carrierEnds sp' = carrierEnds sp).

Lemma step_fence sp sp' : session_inv sp → step sp sp' → ends_prefix sp sp'.
Proof.
  intros I Hs. apply inv_phase in I. unfold ends_prefix. destruct Hs as [sp sp' c H|sp sp' H|sp H|sp a b H|sp sp' H|sp sp' H|sp].
  - unfold SetActiveCarrier in H. destruct (stopping sp) eqn:E; [done|].
    destruct (cancelled sp); simplify_eq; simpl; naive_solver.
  - unfold admitWork in H. destruct (stopping sp) eqn:E; [done|].
    destruct (cancelled sp); simplify_eq; simpl; naive_solver.
  - unfold finishWork, closeWorkDoneLocked. simpl.
    repeat case_match; simpl; split; naive_solver lia.
  - simpl. naive_solver.
  - unfold beginStop in H. destruct (stopping sp) eqn:E; [done|]. simplify_eq.
    unfold closeWorkDoneLocked. simpl. repeat case_match; simpl; split; naive_solver.
  - unfold completeStop, set_phase in H. repeat case_match; simplify_eq; simpl; naive_solver.
  - simpl. naive_solver.
Qed.

Lemma steps_fence sp sp' : session_inv sp → rtc step sp sp' → ends_prefix sp sp'.
Proof.
  intros I H. revert I. induction H as [|sp sp1 sp2 Hs _ IH]; intros I.
  { unfold ends_prefix. naive_solver. }
  specialize (IH (step_inv _ _ I Hs)). apply step_fence in Hs; [|done].
  destruct Hs as [A B], IH as [A' B']. split.
  - intros E. destruct (A E) as (E1 & ? & ?). destruct (A' E1) as (? & ? & ?). split_and!; [done|lia|congruence].
  - intros E. destruct (B E) as [E1 ?]. destruct (B' E1) as [? ?]. split; congruence.
Qed.

(** ** A stop makes progress *)
Definition remaining (ph : closer) : nat :=
  match ph with
  | NoCloser => 6 | Began _ => 5 | Cancelled _ => 4 | CarrierDone => 3
  | TargetDone => 2 | Drained => 1 | Finished => 0
  end.

Lemma complete_next sp :
  session_inv sp → stopping sp = true → phase sp ≠ Finished →
  (∃ sp', completeStop sp = Some sp' ∧ remaining (phase sp) = S (remaining (phase sp'))
          ∧ stopping sp' = true ∧ workers sp' = workers sp)
  ∨ (phase sp = TargetDone ∧ (0 < workers sp)%nat).
Proof.
  intros [P C W HP S K T D] Hs Hf. rewrite Hs in *. unfold completeStop, set_phase.
  destruct (phase sp) eqn:Eph; try done; try (left; eexists; split_and!; [reflexivity|done..]).
  destruct (workClosed sp).
  - left. eexists. split_and!; [reflexivity|done..].
  - right. split; [done|]. symmetry in W. simpl in W. bool_step. lia.
Qed.

Lemma stop_finishes sp :
  session_inv sp → stopping sp = true → workers sp = 0%nat →
  ∃ sp', rtc (λ a b, completeStop a = Some b) sp sp' ∧ phase sp' = Finished.
Proof.
  remember (remaining (phase sp)) as n eqn:En. revert sp En.
  induction n as [|n IH]; intros sp En I Hs Hw.
  { exists sp. split; [constructor|]. by destruct (phase sp). }
  destruct (complete_next sp I Hs) as [(sp' & E & Er & Hs' & Hw')|[_ ?]]; [by intros E; rewrite E in En| |lia].
  destruct (IH sp') as (sp'' & ? & ?); [lia|by eapply complete_inv|done|congruence|].
  exists sp''. split; [by eapply rtc_l|done].
Qed.

(** ** Ownership *)
Import Ownership.

Definition sessions_of (o : owned) : gmap string Registry.pump :=
  Registry.sessions (registry (pipe o)).

Record own_inv (o : owned) : Prop := {
  own_all : ∀ sp, sp ∈ created o ↔
    ((∃ id, sessions_of o !! id = Some sp) ∨ sp ∈ removed o ∨ sp ∈ handed o);
  own_once : ∀ id id' sp, sessions_of o !! id = Some sp → sessions_of o !! id' = Some sp → id = id';
  own_live : ∀ id sp, sessions_of o !! id = Some sp → (sp ∉ removed o) ∧ (sp ∉ handed o);
  own_split : removed o ## handed o;
  own_closed : Registry.closed (registry (pipe o)) = pr_closed (pipe o);
  own_empty : pr_closed (pipe o) = true → sessions_of o = ∅;
}.

Lemma own_initial : own_inv initial.
Proof. constructor; set_solver. Qed.

Lemma own_new_inv o id sp p' :
  own_inv o → sp ∉ created o → NewSession (pipe o) id sp = (Ok tt, p') →
  own_inv (mkOwned p' ({[sp]} ∪ created o) (removed o) (handed o)).
Proof.
  intros [A N L S C E] Hn. unfold NewSession, Registry.register, sessions_of in *.
  destruct (pr_closed (pipe o) || pr_err (pipe o)) eqn:Eg; [done|]. bool_step.
  destruct (id =s ""); [done|]. rewrite C, H.
  destruct (_ !! id) eqn:El; [done|]. intros [= <-].
  assert (Hfresh : ∀ i, Registry.sessions (registry (pipe o)) !! i ≠ Some sp).
  { intros i Hi. apply Hn, A. left. by exists i. }
  constructor; unfold sessions_of; simpl; try done.
  - intros x. rewrite elem_of_union, elem_of_singleton, A. split.
    + intros [->|[(i & Hi)|?]]; [left; exists id; by simplify_map_eq| |by right].
      left. exists i. rewrite lookup_insert_ne; [done|]. intros ->. congruence.
    + intros [(i & Hi)|?]; [|by right; right].
      destruct (decide (i = id)) as [->|]; simplify_map_eq; [by left|right; left; by exists i].
  - intros i j x. destruct (decide (i = id)) as [->|], (decide (j = id)) as [->|]; simplify_map_eq; naive_solver.
  - intros i x Hi. destruct (decide (i = id)) as [->|]; simplify_map_eq; [set_solver|by eapply L].
Qed.

Lemma own_remove_inv o id sp :
  own_inv o → Registry.sessions (registry (pipe o)) !! id = Some sp →
  own_inv (mkOwned (mkPipe (pr_closed (pipe o)) (pr_err (pipe o))
                      (Registry.remove (registry (pipe o)) id sp))
             (created o) ({[sp]} ∪ removed o) (handed o)).
Proof.
  intros [A N L S C E] Hl. unfold sessions_of in *.
  assert (Er : Registry.remove (registry (pipe o)) id sp
               = Registry.mk (Registry.closed (registry (pipe o)))
                   (delete id (Registry.sessions (registry (pipe o))))).
  { unfold Registry.remove. by rewrite bool_decide_eq_true_2. }
  rewrite Er. destruct (L _ _ Hl) as [Hr Hh].
  constructor; unfold sessions_of; simpl; try done; [| | |set_solver|].
  - intros x. rewrite A, elem_of_union, elem_of_singleton. split.
    + intros [(i & Hi)|?]; [|naive_solver].
      destruct (decide (i = id)) as [->|]; [by simplify_eq; right; left; left|].
      left. exists i. by simplify_map_eq.
    + intros [(i & Hi)|[[->|?]|?]]; [|left; by exists id|naive_solver..].
      apply lookup_delete_Some in Hi as [_ Hi]. left. by exists i.
  - intros i j x Hi Hj. apply lookup_delete_Some in Hi as [_ Hi], Hj as [_ Hj]. by eapply N.
  - intros i x Hi. apply lookup_delete_Some in Hi as [Hne Hi]. destruct (L _ _ Hi). split; [|done].
    intros [->%elem_of_singleton|?]%elem_of_union; [|done]. apply Hne. by eapply N.
  - intros Hc. by rewrite (E Hc) in Hl.
Qed.

Lemma own_close_inv o l p' :
  own_inv o → ClosePipe (pipe o) = (l, p') →
  own_inv (mkOwned p' (created o) (removed o) (list_to_set l ∪ handed o)).
Proof.
  intros [A N L S C E]. unfold ClosePipe, Registry.close, sessions_of in *.
  destruct (pr_closed (pipe o)) eqn:Ec.
  { intros [= <- <-]. constructor; unfold sessions_of; try done; set_solver. }
  rewrite C. intros [= <- <-].
  assert (Hl : ∀ x, x ∈ (list_to_set (map snd (map_to_list (Registry.sessions (registry (pipe o)))))
                          : gset Registry.pump)
                    ↔ ∃ id, Registry.sessions (registry (pipe o)) !! id = Some x).
  { intros x. rewrite elem_of_list_to_set, list_elem_of_fmap. split.
    - intros ([i y] & -> & Hi%elem_of_map_to_list). by exists i.
    - intros (i & Hi). exists (i, x). split; [done|]. by apply elem_of_map_to_list. }
  constructor; unfold sessions_of; simpl; try done.
  - intros x. rewrite A, elem_of_union, Hl. setoid_rewrite lookup_empty. naive_solver.
  - apply elem_of_disjoint. intros x Hx. rewrite elem_of_union, Hl. intros [(i & Hi)|?]; [|set_solver].
    destruct (L _ _ Hi). done.
Qed.

Lemma own_step_inv o o' : own_inv o → own_step o o' → own_inv o'.
Proof.
  intros I H. destruct H as [o id sp p' Hn H|o id sp H|o id sp H|o|o l p' H].
  - by eapply own_new_inv.
  - by apply own_remove_inv.
  - replace (Registry.remove _ _ _) with (registry (pipe o)).
    + by destruct I; constructor.
    + unfold Registry.remove. by rewrite bool_decide_eq_false_2.
  - by destruct I; constructor.
  - by apply own_close_inv.
Qed.

Lemma own_steps_inv o : rtc own_step initial o → own_inv o.
Proof.
  intros H. apply (rtc_ind_r own_inv initial) in H; [done|apply own_initial|].
  intros x y _ Hs I. by eapply own_step_inv.
Qed.

(** ** The copy loops *)
Definition written (evs : list copy_event) : list ascii :=
  mjoin (map (λ e, match e with Wrote d => d | _ => [] end) evs).

(** The bytes the source delivers up to and with its first error. *)
Fixpoint delivered (rs : list read) : list ascii :=
  match rs with
  | [] => []
  | r :: rs => r_data r ++ match r_err r with NoErr => delivered rs | _ => [] end
  end.

(** How the source ends, if it does. *)
Fixpoint ending (rs : list read) : read_err :=
  match rs with
  | [] => NoErr
  | r :: rs => match r_err r with NoErr => ending rs | e => e end
  end.

Lemma writeAll_spec ws p ok out ws' :
  writeAll ws p = Some (ok, out, ws') → (out `prefix_of` p) ∧ (ok = true → out = p).
Proof.
  revert p ok out ws'. induction ws as [|w ws IH]; intros [|b p] ok out ws'; cbn [writeAll];
    try (by intros [= <- <- <-]); try done.
  generalize (b :: p) as q. intros q. destruct (w_err w).
  - intros [= <- <- <-]. split; [apply prefix_take|]. intros E%Nat.leb_le. by apply take_ge.
  - destruct (writeAll ws (drop _ q)) as [[[ok' out'] ws'']|] eqn:E; [|done]. intros [= <- <- <-].
    apply IH in E as [Hp Heq]. split.
    + destruct Hp as [k Hk]. exists k. by rewrite <- app_assoc, <- Hk, take_drop.
    + intros H. rewrite (Heq H). apply take_drop.
Qed.

Lemma written_app a b : written (a ++ b) = written a ++ written b.
Proof. unfold written. by rewrite map_app, join_app. Qed.

Lemma written_one d e : (if e is Wrote _ then False else True) → written [Wrote d; e] = d.
Proof. unfold written. simpl. destruct e; [done|by rewrite !app_nil_r..]. Qed.

Definition copy_ok (rs : list read) (hc : bool) (c : Z) (r : bool * Z * list copy_event) : Prop :=
  let '(clean, n, evs) := r in
  (written evs `prefix_of` delivered rs) ∧
  (clean = true → ending rs = EOF ∧ written evs = delivered rs ∧ n = c + llen (delivered rs)
     ∧ (StopRequested ∉ evs) ∧ (hc = true → last evs = Some HalfClosed)) ∧
  (clean = false → last evs = Some StopRequested ∧ (HalfClosed ∉ evs)).

(** What follows a chunk that was read and, if not empty, written. *)
Lemma copy_tail_ok rs ws hc c c' data err dn r :
  (∀ ws c r, copy rs ws hc c = Some r → copy_ok rs hc c r) →
  match err with
  | NoErr => match copy rs ws hc c' with
             | Some (clean, count, evs) => Some (clean, count, dn ++ evs)
             | None => None
             end
  | EOF => Some (true, c', dn ++ (if hc then [HalfClosed] else []))
  | ReadErr => Some (false, c', dn ++ [StopRequested])
  end = Some r →
  written dn = data → c' = c + llen data → StopRequested ∉ dn → HalfClosed ∉ dn →
  copy_ok (mkRead data err :: rs) hc c r.
Proof.
  destruct r as [[clean n] evs]. intros IH H Hw Hc Hs Hh. unfold copy_ok. cbn [delivered ending r_data r_err].
  destruct err.
  - destruct (copy rs ws hc c') as [[[clean' n'] evs']|] eqn:E; [|done]. injection H as <- <- <-.
    apply IH in E as (Hp & Ht & Hf). rewrite written_app, Hw. split_and!.
    + by apply prefix_app.
    + intros Hcl. destruct (Ht Hcl) as (? & -> & ? & ? & Hl). rewrite llen_app.
      split_and!; [done|done|lia|set_solver|]. intros Hhc. rewrite last_app. by rewrite (Hl Hhc).
    + intros Hcl. destruct (Hf Hcl) as [Hl ?]. rewrite last_app, Hl. set_solver.
  - injection H as <- <- <-. rewrite written_app, Hw, app_nil_r.
    replace (written (if hc then _ else _)) with (@nil ascii) by (by destruct hc).
    rewrite app_nil_r. split_and!; [done| |done]. intros _.
    split_and!; [done..| |]; [destruct hc; set_solver|]. intros ->. by rewrite last_snoc.
  - injection H as <- <- <-. rewrite written_app, Hw, app_nil_r. cbn. rewrite app_nil_r.
    split_and!; [done|done|]. intros _. rewrite last_snoc. set_solver.
Qed.

Lemma copy_spec rs ws hc c r : copy rs ws hc c = Some r → copy_ok rs hc c r.
Proof.
  revert ws c r. induction rs as [|[data err] rs IH]; intros ws c r; [done|].
  cbn [copy r_data r_err]. destruct data as [|b data].
  { intros H. eapply copy_tail_ok; [exact IH|exact H|done|rewrite Z.add_0_r; done|set_solver|set_solver]. }
  destruct (writeAll ws (b :: data)) as [[[[] out] ws']|] eqn:E; [| |done];
    apply writeAll_spec in E as [Hp Heq].
  - intros H. rewrite (Heq eq_refl) in H. eapply copy_tail_ok; [exact IH|exact H| |done|set_solver|set_solver].
    unfold written. simpl. by rewrite app_nil_r.
  - intros [= <-]. unfold copy_ok. rewrite written_one by done. split_and!; [|done|].
    + cbn [delivered r_data]. by apply prefix_app_r.
    + intros _. split; [done|set_solver].
Qed.

(** ** A copy ends

    Enough outcomes of a writer that accepts at least one byte per call: one per byte
    left, which is what each call of [Write] can at worst consume. *)
Definition progressing (ws : list write) : Prop := Forall (λ w, (0 < w_n w)%nat) ws.

Lemma writeAll_total ws p :
  progressing ws → (length p ≤ length ws)%nat →
  ∃ ok out ws', writeAll ws p = Some (ok, out, ws') ∧ progressing ws'
                ∧ (ok = true → (length ws - length p ≤ length ws')%nat).
Proof.
  revert p. induction ws as [|w ws IH]; intros [|b p] Hw Hl; cbn [writeAll]; simpl in Hl; try lia;
    try (by do 3 eexists; split_and!; [done..|simpl; lia]).
  inversion Hw as [|? ? Hn Hw']; subst. set (q := b :: p).
  assert (Hq : length q = S (length p)) by done. destruct (w_err w).
  { do 3 eexists. split_and!; [done..|]. simpl. lia. }
  destruct (IH (drop (w_n w `min` length q) q) Hw') as (ok & out & ws' & -> & Hp & Ho).
  { rewrite length_drop. lia. }
  do 3 eexists. split_and!; [done..|]. intros H. specialize (Ho H). rewrite length_drop in Ho. simpl. lia.
Qed.

Lemma copy_total rs ws hc c :
  progressing ws → (length (delivered rs) ≤ length ws)%nat → ending rs ≠ NoErr →
  is_Some (copy rs ws hc c).
Proof.
  revert ws c. induction rs as [|[data err] rs IH]; intros ws c Hw Hl He; [done|].
  cbn [copy r_data r_err delivered ending] in *. rewrite length_app in Hl.
  destruct (writeAll_total ws data Hw) as (ok & out & ws' & E & Hp & Ho); [lia|].
  destruct data as [|b data].
  - destruct err; [|by eexists..]. destruct (IH ws c) as [[[]] ->]; [done|simpl in *; lia|done|by eexists].
  - rewrite E. destruct ok; [|by eexists]. specialize (Ho eq_refl).
    destruct err; [|by eexists..]. destruct (IH ws' (c + llen (b :: data))) as [[[? ?] ?] ->]; [done|lia|done|by eexists].
Qed.

(** ** Properties *)
Lemma ends_installed sp c t : session_inv sp → (c, t) ∈ carrierEnds sp → installed sp = Some c.
Proof.
  intros [_ _ _ _ _ K _ _] H. unfold closer_inv in K.
  assert (Hc : carrierEnds sp = [] ∨ ∃ c' t', installed sp = Some c' ∧ carrierEnds sp = [(c', t')]).
  { destruct (phase sp), (installed sp) as [c'|]; naive_solver. }
  destruct Hc as [E|(c' & t' & -> & E)]; rewrite E in H; set_solver.
Qed.

(** A stop that began completes. As long as it is not complete the closer either
    has a next action, of which at most five are left, or waits for a worker that was
    admitted before; and when no worker is left it runs to the end by itself. *)
Lemma stop_completes target sp :
  rtc step (newSessionPump target) sp → stopping sp = true →
  (remaining (phase sp) ≤ 5)%nat ∧
  (phase sp = Finished ∨ (∃ sp', completeStop sp = Some sp' ∧ (remaining (phase sp') < remaining (phase sp))%nat)
   ∨ (phase sp = TargetDone ∧ (0 < workers sp)%nat))
  ∧ (workers sp = 0%nat → ∃ sp', rtc (λ a b, completeStop a = Some b) sp sp' ∧ phase sp' = Finished).
Proof.
  intros H Hs. apply reachable_inv in H. split_and!; [| |by apply stop_finishes].
  { apply inv_phase in H. rewrite Hs in H. destruct (phase sp); simpl; by try lia. }
  assert (Hf : phase sp = Finished ∨ phase sp ≠ Finished) by (destruct (phase sp); by (left + right)).
  destruct Hf as [?|Hf]; [by left|right].
  destruct (complete_next sp H Hs Hf) as [(sp1 & ? & ? & _)|?]; [left; exists sp1; split; [done|lia]|by right].
Qed.

(** C28: whatever goroutines do to a session in whatever order, it never panics, its
    work count is the number of admitted workers, the channel the closer waits on is
    closed exactly when the session is stopping without workers, nothing is admitted
    and no carrier is installed after the stop began; and once the stop is complete no
    worker is left, the session is unregistered, its target was closed once, the carrier
    installed last was closed or reset once, and no later step changes any of this. A stop
    that began completes: as long as it is not complete the closer either has a next action,
    of which at most five are left, or waits for a worker that was admitted before; and when
    no worker is left it runs to the end by itself. *)
Theorem session_lifecycle target sp sp' :
  rtc step (newSessionPump target) sp → rtc step sp sp' →
  (panicked sp = false ∧ workCount sp = Z.of_nat (workers sp)
   ∧ workClosed sp = stopping sp && (workCount sp =? 0)) ∧
  (stopping sp = true →
     stopping sp' = true ∧ (workers sp' ≤ workers sp)%nat ∧ installed sp' = installed sp
     ∧ (admitWork sp).1 = false) ∧
  (phase sp = Finished →
     workers sp = 0%nat ∧ registered sp = false ∧ targetCloses sp = (if targetConn sp then 1 else 0)%nat
     ∧ map fst (carrierEnds sp) = option_list (installed sp)
     ∧ phase sp' = Finished ∧ carrierEnds sp' = carrierEnds sp) ∧
  (stopping sp = true →
     (remaining (phase sp) ≤ 5)%nat ∧
     (phase sp = Finished ∨ (∃ sp1, completeStop sp = Some sp1 ∧ (remaining (phase sp1) < remaining (phase sp))%nat)
      ∨ (phase sp = TargetDone ∧ (0 < workers sp)%nat))
     ∧ (workers sp = 0%nat → ∃ sp1, rtc (λ a b, completeStop a = Some b) sp sp1 ∧ phase sp1 = Finished)).
Proof.
  intros H H'. assert (I := reachable_inv _ _ H). destruct (steps_fence _ _ I H') as [F F'].
  destruct I as [P C W HP S K T D]. split_and!; [done..| | |by apply (stop_completes target)].
  - intros E. destruct (F E) as (? & ? & ?). unfold admitWork. by rewrite E.
  - intros E. unfold closer_inv, target_inv, drained_inv in *. rewrite E in *.
    destruct D as [D ?], (F' eq_refl) as [? ?]. split_and!; try done; [lia|].
    destruct (installed sp); [destruct K as [t ->]; done|by rewrite K].
Qed.

Definition busy_session : sessionPump := (admitWork (SetActiveCarrier 7%nat (newSessionPump true)).2).2.
Definition stopped_session : sessionPump := (beginStop busy_session).2.

Lemma busy_reachable : rtc step (newSessionPump true) busy_session.
Proof. eapply rtc_l; [by eapply (st_carrier _ _ 7%nat)|]. eapply rtc_l; [by apply st_admit|constructor]. Qed.
Lemma stopped_reachable : rtc step (newSessionPump true) stopped_session.
Proof. eapply rtc_r; [apply busy_reachable|by apply st_stop]. Qed.

Definition advance_stop (sp : sessionPump) : sessionPump := default sp (completeStop sp).
Definition finished_session : sessionPump :=
  Nat.iter 5 advance_stop (finishWork (pumped true true stopped_session)).

Lemma advance_steps sp : rtc step sp (advance_stop sp).
Proof.
  unfold advance_stop. destruct (completeStop sp) eqn:E; [|constructor].
  eapply rtc_l; [by apply st_complete|constructor].
Qed.

Lemma finished_steps : rtc step stopped_session finished_session.
Proof.
  eapply rtc_l; [apply (st_pumped _ true true); by apply Nat.ltb_lt|].
  eapply rtc_l; [apply st_finish; by apply Nat.ltb_lt|]. unfold finished_session.
  generalize (finishWork (pumped true true stopped_session)) as sp. generalize 5%nat as n. intros n sp.
  induction n as [|n IH]; [constructor|]. simpl. etrans; [apply IH|apply advance_steps].
Qed.

Lemma session_lifecycle_witness :
  phase finished_session = Finished ∧ carrierEnds finished_session = [(7%nat, Closed)] ∧
  workers finished_session = 0%nat ∧ registered finished_session = false ∧
  ∃ sp', completeStop stopped_session = Some sp' ∧ (remaining (phase sp') < 5)%nat.
Proof.
  assert (R : rtc step (newSessionPump true) finished_session).
  { etrans; [apply stopped_reachable|apply finished_steps]. }
  destruct (session_lifecycle true finished_session finished_session R (rtc_refl _ _)) as (_ & _ & H & _).
  destruct (session_lifecycle true stopped_session stopped_session stopped_reachable (rtc_refl _ _)) as (_ & _ & _ & Hs).
  destruct (H eq_refl) as (? & ? & _). split_and!; try done.
  destruct (Hs eq_refl) as [_ [[Hd|[Hd|[Hd _]]] _]]; [discriminate Hd|exact Hd|discriminate Hd].
Defined.

(** Two chunks, the second delivered together with the end of the stream, to a writer
    that first takes one byte and then reports an error after having taken the rest. *)
Definition sample_reads : list read :=
  [mkRead ["a"; "b"]%char NoErr; mkRead [] NoErr; mkRead ["c"]%char EOF].
Definition sample_writes : list write := [mkWrite 1 false; mkWrite 1 true; mkWrite 9 false].

(** C29: a data-plane copy never reorders, duplicates or invents bytes: what it writes is
    a prefix of what it read. If it ends cleanly it wrote everything up to the end of
    the stream, counted exactly those bytes, did not stop the session and, if the
    writer supports it, half-closed it last; otherwise it stopped the session and did
    not half-close. And it ends: if the source ends and the writer takes at least one
    byte per call, as many write calls as there are bytes are enough for it to return. *)
Theorem copy_correct rs ws half_close count :
  (∀ clean n evs, copy rs ws half_close count = Some (clean, n, evs) →
     (written evs `prefix_of` delivered rs) ∧
     (clean = true → ending rs = EOF ∧ written evs = delivered rs ∧ n = count + llen (delivered rs)
        ∧ (StopRequested ∉ evs) ∧ (half_close = true → last evs = Some HalfClosed)) ∧
     (clean = false → last evs = Some StopRequested ∧ (HalfClosed ∉ evs))) ∧
  (Forall (λ w, (0 < w_n w)%nat) ws → (length (delivered rs) ≤ length ws)%nat → ending rs ≠ NoErr →
     is_Some (copy rs ws half_close count)).
Proof. split; [|apply copy_total]. intros clean n evs Hc. exact (copy_spec _ _ _ _ _ Hc). Qed.

Lemma copy_correct_witness :
  copy sample_reads sample_writes true 0 = Some (true, 3, [Wrote ["a"; "b"]; Wrote ["c"]; HalfClosed]%char)
  ∧ written [Wrote ["a"; "b"]; Wrote ["c"]; HalfClosed]%char = delivered sample_reads.
Proof.
  destruct (copy_correct sample_reads sample_writes true 0) as [Hc _]. split; [reflexivity|].
  apply (Hc true 3 [Wrote ["a"; "b"]; Wrote ["c"]; HalfClosed]%char eq_refl). reflexivity.
Defined.

(** No session of a pipe runtime is lost: over any sequence of registrations,
    removals (also late ones by a session that is no longer registered), cancellations
    and closes, every session ever created is in exactly one of three places: registered
    under one ID, unregistered by its own stop, or handed to [Close] to be stopped; and a
    closed runtime has no registered session and refuses new ones. *)
Lemma sessions_owned o sp id :
  rtc own_step initial o →
  (sp ∈ created o ↔
     ((∃ id, Registry.sessions (registry (pipe o)) !! id = Some sp) ∨ sp ∈ removed o ∨ sp ∈ handed o)) ∧
  (Registry.sessions (registry (pipe o)) !! id = Some sp → (sp ∉ removed o) ∧ (sp ∉ handed o)) ∧
  (removed o ## handed o) ∧
  (pr_closed (pipe o) = true →
     Registry.sessions (registry (pipe o)) = ∅ ∧ NewSession (pipe o) id sp = (runtime_closed, pipe o)).
Proof.
  intros [A N L S C E]%own_steps_inv. split_and!; [apply A|apply L|done|]. intros Hc.
  split; [by apply E|]. unfold NewSession. by rewrite Hc.
Qed.

Definition one_owned : owned :=
  mkOwned (NewSession newPipeRuntime "s1" 1%nat).2 {[1%nat]} ∅ ∅.
Definition closed_owned : owned :=
  mkOwned (ClosePipe (pipe one_owned)).2 {[1%nat]} ∅ {[1%nat]}.

Lemma one_reachable : rtc own_step initial one_owned.
Proof.
  eapply rtc_l; [|constructor]. unfold one_owned. rewrite <- (union_empty_r_L {[1%nat]}).
  apply (own_new initial "s1"); [set_solver|reflexivity].
Qed.
Lemma closed_reachable : rtc own_step initial closed_owned.
Proof.
  eapply rtc_r; [apply one_reachable|].
  replace closed_owned with (mkOwned (ClosePipe (pipe one_owned)).2 (created one_owned) (removed one_owned)
                               (list_to_set [1%nat] ∪ handed one_owned)) by (vm_compute; reflexivity).
  by apply own_close.
Qed.

Lemma sessions_owned_witness :
  NewSession (pipe closed_owned) "s1" 2%nat = (runtime_closed, pipe closed_owned).
Proof. apply (sessions_owned closed_owned 2%nat "s1" closed_reachable). reflexivity. Defined.

(** What the end of [serve] does with a carrier the session refused because it was
    already stopping: it reports the carrier as transferred, so that [handle] leaves the
    stream alone, yet no later step of the session ever closes or resets it. *)
Lemma refused_carrier_never_ends target sp c sp' :
  rtc step (newSessionPump target) sp → stopping sp = true → installed sp ≠ Some c →
  rtc step (serve_transfer true c sp).2 sp' →
  (SetActiveCarrier c sp).1 = false ∧ handle (serve_transfer true c sp).1 = None
  ∧ ∀ t, (c, t) ∉ carrierEnds sp'.
Proof.
  intros H Hs Hc. unfold serve_transfer, SetActiveCarrier. rewrite Hs. simpl. intros H'.
  split_and!; [done..|]. intros t Ht. apply reachable_inv in H.
  destruct (steps_fence _ _ H H') as [F _]. destruct (F Hs) as (_ & _ & E).
  apply ends_installed in Ht; [congruence|]. by eapply steps_session_inv.
Qed.

Lemma refused_carrier_witness : ¬ ∃ t, (8%nat, t) ∈ carrierEnds finished_session.
Proof.
  intros [t Ht]. revert Ht. apply (refused_carrier_never_ends true stopped_session 8%nat finished_session);
    [apply stopped_reachable|reflexivity|discriminate|apply finished_steps].
Defined.
