(* ===== verification/StoreSync.v ===== *)
(** * Discovery records, snapshots and sync leases

    The tables [records], [scope_freshness], [authority_snapshots] and
    [scope_sync_leases] of [internal/store/store.go] with every operation on them: what
    a member caches of a scope's Pipes, how an authority orders its snapshots, and who
    may refresh a scope.

    [time.Now] and the random token of a lease are arguments. Time columns hold texts
    and SQL compares them as texts. *)
From stdpp Require Import sorting.
From S2P Require Import Prelude GoStrings GoTime Encoding Domain StoreRelations.
Open Scope Z_scope.

(** ** Tables *)
Record record_row := mkRecordRow {
  rr_name : string; rr_payload : string; rr_expires : string; rr_sequence : Z; rr_discovered : bool }.

Record freshness_row := mkFreshnessRow {
  fr_attempt : string; fr_success : string; fr_source : string; fr_complete : bool; fr_error : string;
  fr_retry : string; fr_generation : Z; fr_high_water : Z; fr_digest : string }.

Record sync_lease_row := mkSyncLeaseRow {
  sl_holder : string; sl_process : string; sl_token : string;
  sl_acquired : string; sl_renewed : string; sl_expires : string }.

Record sync_db := mkSync {
  (** by scope and Pipe *)
  records : gmap (string * string) record_row;
  scope_freshness : gmap string freshness_row;
  (** generation and high water, by scope *)
  authority_snapshots : gmap string (Z * Z);
  scope_sync_leases : gmap string sync_lease_row;
}.

Definition empty_sync : sync_db := mkSync ∅ ∅ ∅ ∅.

Definition set_records (d : sync_db) m := mkSync m (scope_freshness d) (authority_snapshots d) (scope_sync_leases d).
Definition set_freshness (d : sync_db) m := mkSync (records d) m (authority_snapshots d) (scope_sync_leases d).
Definition set_snapshots (d : sync_db) m := mkSync (records d) (scope_freshness d) m (scope_sync_leases d).
Definition set_leases (d : sync_db) m := mkSync (records d) (scope_freshness d) (authority_snapshots d) m.

(** [t.UTC().Format(time.RFC3339Nano)]. *)
Definition column_time (t : time) : string := RFC3339Nano (UTC t).

Definition max_int64 : Z := 2 ^ 63 - 1.

(** ** Records *)
Record Record_ := mkRecord {
  r_Scope : string; r_PipeID : string; r_Name : string; r_Payload : string; r_ExpiresAt : time;
  r_Sequence : Z; r_Discovered : bool }.

Definition validateStoredRecord (v : Record_) (now : time) : res unit :=
  let bad_scope := match Split (r_Scope v) "/"%char with
                   | [c; n] => negb (is_ok (ScopeValidate (mkScope c n)))
                   | _ => true
                   end in
  _ ← refuse (bad_scope || blank (r_PipeID v) || (8192 <? slen (r_PipeID v)) || (8192 <? slen (r_Name v)))
        (errorf "invalid record index");
  _ ← refuse ((slen (r_Payload v) =? 0) || (Z.shiftl 64 10 <? slen (r_Payload v)) || (r_Sequence v =? 0)
              || (max_int64 <? r_Sequence v)) (errorf "invalid record bounds");
  refuse (negb (After (r_ExpiresAt v) now)) (errorf "record expired").

Definition row_of (v : Record_) : record_row :=
  mkRecordRow (r_Name v) (r_Payload v) (column_time (r_ExpiresAt v)) (r_Sequence v) (r_Discovered v).

Definition putRecordTx (v : Record_) (now : time) (d : sync_db) : res (unit * sync_db) :=
  _ ← validateStoredRecord v now;
  let key := (r_Scope v, r_PipeID v) in
  match records d !! key with
  | Some row =>
      if r_Sequence v <? rr_sequence row then Fail (errorf "replayed record sequence")
      else if r_Sequence v =? rr_sequence row then
        if rr_payload row <>s r_Payload v then Fail (errorf "conflicting record at same sequence")
        else Ok (tt, d)
      else Ok (tt, set_records d (<[key := row_of v]> (records d)))
  | None => Ok (tt, set_records d (<[key := row_of v]> (records d)))
  end.

Definition as_discovered (v : Record_) : Record_ :=
  mkRecord (r_Scope v) (r_PipeID v) (r_Name v) (r_Payload v) (r_ExpiresAt v) (r_Sequence v) true.

(** A local or authority row is neither replaced nor touched by a remote snapshot. *)
Definition putDiscoveredRecordTx (v : Record_) (now : time) (d : sync_db) : res (unit * sync_db) :=
  let v := as_discovered v in
  match records d !! (r_Scope v, r_PipeID v) with
  | Some row => if rr_discovered row then putRecordTx v now d else Ok (tt, d)
  | None => putRecordTx v now d
  end.

Definition PutRecord (v : Record_) (now : time) (d : sync_db) : res unit * sync_db :=
  in_tx (putRecordTx v (UTC now)) d.

Definition RecordSequence (d : sync_db) (scope pipeID : string) : res Z :=
  Ok (default 0 (rr_sequence <$> records d !! (scope, pipeID))).

(** [DELETE FROM records WHERE ...], with the rows affected. *)
Definition delete_where (p : string * string → record_row → bool) (d : sync_db) : Z * sync_db :=
  let kept := filter (λ kv, p kv.1 kv.2 = false) (records d) in
  (Z.of_nat (size (records d)) - Z.of_nat (size kept), set_records d kept).

Definition PruneExpiredRecords (now : time) (d : sync_db) : res Z * sync_db :=
  let '(n, d) := delete_where (λ _ row, rr_discovered row && text_le (rr_expires row) (column_time now)) d in
  (Ok n, d).

(** Rows selected by a predicate, in the order of two text columns. *)
Definition order_by (key : (string * string) * record_row → string * string)
    (a b : (string * string) * record_row) : Prop :=
  (text_lt (key a).1 (key b).1 || ((key a).1 =s (key b).1) && text_le (key a).2 (key b).2) = true.
#[export] Instance order_by_dec key a b : Decision (order_by key a b).
Proof. unfold order_by. apply _. Defined.

Definition select (p : string * string → record_row → bool)
    (key : (string * string) * record_row → string * string) (d : sync_db)
    : list ((string * string) * record_row) :=
  merge_sort (order_by key) (List.filter (λ kv, p kv.1 kv.2) (map_to_list (records d))).

Definition by_name_pipe (kv : (string * string) * record_row) : string * string := (rr_name kv.2, kv.1.2).

Fixpoint scan_records (rows : list ((string * string) * record_row)) : res (list Record_) :=
  match rows with
  | [] => Ok []
  | ((scope, pipeID), row) :: rows =>
      expires ← need (ParseTime (rr_expires row)) (errorf "parsing time");
      out ← scan_records rows;
      Ok (mkRecord scope pipeID (rr_name row) (rr_payload row) expires (rr_sequence row) (rr_discovered row) :: out)
  end.

(** Two readings of the clock: for the pruning and for the query. *)
Definition Records (now now' : time) (scope : string) (d : sync_db) : res (list Record_) * sync_db :=
  let d := (PruneExpiredRecords now d).2 in
  (scan_records (select (λ k row, (k.1 =s scope) && text_lt (column_time now') (rr_expires row)) by_name_pipe d), d).

Definition Record (now now' : time) (pipeID : string) (d : sync_db) : res Record_ * sync_db :=
  let d := (PruneExpiredRecords now d).2 in
  (matches ← scan_records (select (λ k row, (k.2 =s pipeID) && text_lt (column_time now') (rr_expires row))
                             (λ kv, (kv.1.1, "")) d);
   match matches with
   | [] => Fail (wrapf ErrNotFound "resource not found: pipe")
   | [v] => Ok v
   | _ => Fail (errorf "conflict: pipe exists in multiple scopes; specify scope")
   end, d).

Definition RecordInScope (now now' : time) (scope pipeID : string) (d : sync_db) : res Record_ * sync_db :=
  let d := (PruneExpiredRecords now d).2 in
  (match records d !! (scope, pipeID) with
   | Some row =>
       if text_lt (column_time now') (rr_expires row) then
         match ParseTime (rr_expires row) with
         | Some expires =>
             Ok (mkRecord scope pipeID (rr_name row) (rr_payload row) expires (rr_sequence row) (rr_discovered row))
         | None => Fail (errorf "parsing time")
         end
       else Fail (wrapf ErrNotFound "resource not found: pipe in scope")
   | None => Fail (wrapf ErrNotFound "resource not found: pipe in scope")
   end, d).

(** ** The authority's snapshot counters *)
Definition EnsureAuthoritySnapshot (scope : string) (d : sync_db) : res unit * sync_db :=
  (Ok tt, match authority_snapshots d !! scope with
          | Some _ => d
          | None => set_snapshots d (<[scope := (1, 1)]> (authority_snapshots d))
          end).

Definition advanceAuthoritySnapshotTx (scope : string) (d : sync_db) : res (unit * sync_db) :=
  match authority_snapshots d !! scope with
  | None => Ok (tt, set_snapshots d (<[scope := (1, 1)]> (authority_snapshots d)))
  | Some (generation, highWater) =>
      if (generation =? max_int64) || (highWater =? max_int64)
      then Fail (errorf "authority snapshot counter exhausted")
      else Ok (tt, set_snapshots d (<[scope := (generation + 1, highWater + 1)]> (authority_snapshots d)))
  end.

Definition MaxSnapshotRecords : Z := 256.

Definition authority_snapshot_tx (now : time) (scope : string) (limit : Z) (d : sync_db)
    : res ((list Record_ * Z * Z * bool) * sync_db) :=
  let now := column_time now in
  let '(changed, d) := delete_where
       (λ k row, (k.1 =s scope) && negb (rr_discovered row) && text_le (rr_expires row) now) d in
  '(_, d) ← (if 0 <? changed then advanceAuthoritySnapshotTx scope d else Ok (tt, d));
  '(generation, highWater) ← need (authority_snapshots d !! scope) (errorf "authority snapshot not initialized");
  _ ← refuse ((generation =? 0) || (highWater =? 0)) (errorf "invalid authority snapshot metadata");
  let rows := select (λ k row, (k.1 =s scope) && negb (rr_discovered row) && text_lt now (rr_expires row))
                by_name_pipe d in
  records ← scan_records (take (Z.to_nat (limit + 1)) rows);
  let complete := llen records <=? limit in
  Ok ((if complete then records else take (Z.to_nat limit) records, generation, highWater, complete), d).

Definition AuthoritySnapshot (now : time) (scope : string) (limit : Z) (d : sync_db)
    : res (list Record_ * Z * Z * bool) * sync_db :=
  if (limit <=? 0) || (MaxSnapshotRecords <? limit) then (Fail (errorf "invalid authority snapshot limit"), d)
  else in_tx (authority_snapshot_tx now scope limit) d.

Definition PutAuthoritativeRecord (now : time) (v : Record_) (d : sync_db) : res unit * sync_db :=
  in_tx (λ d, '(_, d) ← putRecordTx v (UTC now) d; advanceAuthoritySnapshotTx (r_Scope v) d) d.

(** ** Sync leases *)
Definition maxScopeSyncLeaseTTL : duration := 5 * Minute.

Record ScopeSyncLease := mkSyncLease {
  s_Scope : string; s_HolderRef : string; s_ProcessIdentity : string; s_Token : string;
  s_AcquiredAt : time; s_RenewedAt : time; s_ExpiresAt : time; s_Active : bool }.

Definition validScopeSyncLeaseInput (scope holderRef processIdentity : string) (ttl : duration) : res unit :=
  _ ← refuse (blank scope || (255 <? slen scope) || blank holderRef || (255 <? slen holderRef)
              || blank processIdentity || (4096 <? slen processIdentity))
        (errorf "invalid scope sync lease identity");
  refuse ((ttl <=? 0) || (maxScopeSyncLeaseTTL <? ttl)) (errorf "invalid scope sync lease ttl").

Definition newScopeSyncLeaseToken (rnd : res string) : res string := value ← rnd; Ok (base64_encode value).

(** The column [lease_token] is unique. *)
Definition token_taken (d : sync_db) (scope token : string) : bool :=
  existsb (λ kv, (kv.1 <>s scope) && (sl_token kv.2 =s token)) (map_to_list (scope_sync_leases d)).

Definition AcquireScopeSyncLease (rnd : res string) (scope holderRef processIdentity : string) (now : time)
    (ttl : duration) (d : sync_db) : res (option ScopeSyncLease) * sync_db :=
  match (_ ← validScopeSyncLeaseInput scope holderRef processIdentity ttl; newScopeSyncLeaseToken rnd) with
  | Fail e => (Fail e, d)
  | Ok token =>
      let now := UTC now in
      let lease := mkSyncLease scope holderRef processIdentity token now now (Add now ttl) true in
      let row := mkSyncLeaseRow holderRef processIdentity token (RFC3339Nano now) (RFC3339Nano now)
                   (RFC3339Nano (Add now ttl)) in
      (* ON CONFLICT DO UPDATE ... WHERE scope_sync_leases.expires_at<=excluded.acquired_at *)
      let free := match scope_sync_leases d !! scope with
                  | Some old => text_le (sl_expires old) (RFC3339Nano now)
                  | None => true
                  end in
      if negb free then (Ok None, d)
      else if token_taken d scope token then (Fail (errorf "UNIQUE constraint failed"), d)
      else (Ok (Some lease), set_leases d (<[scope := row]> (scope_sync_leases d)))
  end.

Definition validLeaseFence (lease : ScopeSyncLease) : bool :=
  (s_Scope lease <>s "") && (s_HolderRef lease <>s "") && (s_ProcessIdentity lease <>s "") && (s_Token lease <>s "").

(** [WHERE scope=? AND holder_ref=? AND holder_process_identity=? AND lease_token=?]. *)
Definition fenced_row (d : sync_db) (lease : ScopeSyncLease) : option sync_lease_row :=
  match scope_sync_leases d !! s_Scope lease with
  | Some row => if (sl_holder row =s s_HolderRef lease) && (sl_process row =s s_ProcessIdentity lease)
                   && (sl_token row =s s_Token lease) then Some row else None
  | None => None
  end.

Definition RenewScopeSyncLease (lease : ScopeSyncLease) (now : time) (ttl : duration) (d : sync_db)
    : res bool * sync_db :=
  if negb (validLeaseFence lease)
     || negb (is_ok (validScopeSyncLeaseInput (s_Scope lease) (s_HolderRef lease) (s_ProcessIdentity lease) ttl))
  then (Fail (errorf "invalid scope sync lease"), d)
  else
    let now := UTC now in
    match fenced_row d lease with
    | Some row =>
        if text_lt (RFC3339Nano now) (sl_expires row) then
          (Ok true, set_leases d (<[s_Scope lease :=
             mkSyncLeaseRow (sl_holder row) (sl_process row) (sl_token row) (sl_acquired row) (RFC3339Nano now)
               (RFC3339Nano (Add now ttl))]> (scope_sync_leases d)))
        else (Ok false, d)
    | None => (Ok false, d)
    end.

Definition ReleaseScopeSyncLease (lease : ScopeSyncLease) (d : sync_db) : res bool * sync_db :=
  if negb (validLeaseFence lease) then (Fail (errorf "invalid scope sync lease"), d)
  else match fenced_row d lease with
       | Some _ => (Ok true, set_leases d (delete (s_Scope lease) (scope_sync_leases d)))
       | None => (Ok false, d)
       end.

(** The status read: fencing fields stay private. [now] is the clock after the query. *)
Definition ScopeSyncLeaseStatus (now : time) (scope : string) (d : sync_db) : res ScopeSyncLease :=
  if blank scope || (255 <? slen scope) then Fail (errorf "invalid scope sync lease scope")
  else match scope_sync_leases d !! scope with
       | None => Ok (mkSyncLease scope "" "" "" zero_time zero_time zero_time false)
       | Some row =>
           acquired ← need (ParseTime (sl_acquired row)) (errorf "parsing time");
           renewed ← need (ParseTime (sl_renewed row)) (errorf "parsing time");
           expires ← need (ParseTime (sl_expires row)) (errorf "parsing time");
           let active := After expires (UTC now) in
           Ok (mkSyncLease scope (if active then sl_holder row else "") "" "" acquired renewed expires active)
       end.

Definition lease_lost : error := wrapf ErrScopeSyncLeaseLost "scope sync lease lost".

Definition leaseCurrentTx (lease : ScopeSyncLease) (now : time) (d : sync_db) : res unit :=
  _ ← refuse (negb (validLeaseFence lease)) lease_lost;
  row ← need (fenced_row d lease) lease_lost;
  parsed ← need (ParseTime (sl_expires row)) (errorf "parsing time");
  refuse (negb (After parsed (UTC now))) lease_lost.

(** ** Freshness *)
Record ScopeFreshness := mkFreshness {
  f_Scope : string; f_LastAttempt : option time; f_LastSuccess : option time; f_Source : string;
  f_Complete : bool; f_ErrorClass : string; f_NextRetry : option time; f_Generation : Z;
  f_HighWater : Z; f_Digest : string }.

Definition optionalTime (value : string) : res (option time) :=
  if value =s "" then Ok None
  else t ← need (ParseTime value) (errorf "parsing time"); Ok (Some t).

Definition scanFreshness (scope : string) (row : freshness_row) : res ScopeFreshness :=
  attempt ← optionalTime (fr_attempt row);
  success ← optionalTime (fr_success row);
  retry ← optionalTime (fr_retry row);
  Ok (mkFreshness scope attempt success (fr_source row) (fr_complete row) (fr_error row) retry
        (fr_generation row) (fr_high_water row) (fr_digest row)).

Definition ScopeFreshnessOf (d : sync_db) (scope : string) : res ScopeFreshness :=
  match scope_freshness d !! scope with
  | Some row => scanFreshness scope row
  | None => Fail (wrapf ErrNotFound "resource not found: discovery freshness")
  end.

Definition SnapshotSourcePinnedAuthority : string := "pinned_authority".

Definition no_freshness : freshness_row := mkFreshnessRow "" "" "" false "" "" 0 0 "".

(** The upsert keeps the last success and the snapshot columns. *)
Definition upsert_failure (scope attempt source errorClass retry : string) (d : sync_db) : sync_db :=
  let old := default no_freshness (scope_freshness d !! scope) in
  set_freshness d (<[scope := mkFreshnessRow attempt (fr_success old) source false errorClass retry
                               (fr_generation old) (fr_high_water old) (fr_digest old)]> (scope_freshness d)).

Definition recordSnapshotFailure (now : time) (scope source errorClass : string) (nextRetry : option time)
    (lease : option ScopeSyncLease) (d : sync_db) : res unit * sync_db :=
  if (source <>s SnapshotSourcePinnedAuthority) || (errorClass =s "")
  then (Fail (errorf "invalid discovery refresh failure"), d)
  else
    let retry := match nextRetry with Some t => column_time t | None => "" end in
    match lease with
    | None => (Ok tt, upsert_failure scope (column_time now) source errorClass retry d)
    | Some lease =>
        in_tx (λ d, _ ← leaseCurrentTx lease (UTC now) d;
                    Ok (tt, upsert_failure scope (column_time now) source errorClass retry d)) d
    end.

Definition RecordSnapshotFailure now scope source errorClass nextRetry d :=
  recordSnapshotFailure now scope source errorClass nextRetry None d.
Definition RecordSnapshotFailureWithLease now lease source errorClass nextRetry d :=
  recordSnapshotFailure now (s_Scope lease) source errorClass nextRetry (Some lease) d.

(** ** Reconciling a snapshot *)
Record AuthoritativeSnapshot := mkSnapshot {
  sn_Source : string; sn_Complete : bool; sn_Generation : Z; sn_HighWater : Z; sn_Digest : string;
  sn_Records : list Record_ }.

Definition snapshot_metadata (s : AuthoritativeSnapshot) : res unit :=
  refuse ((sn_Source s <>s SnapshotSourcePinnedAuthority) || negb (sn_Complete s) || (sn_Generation s =? 0)
          || (sn_HighWater s =? 0) || negb (slen (sn_Digest s) =? 64)
          || (MaxSnapshotRecords <? llen (sn_Records s)))
    (errorf "invalid authoritative snapshot metadata").

Fixpoint snapshot_keys (scope : string) (seen : list string) (rs : list Record_) : res unit :=
  match rs with
  | [] => Ok tt
  | r :: rs =>
      _ ← refuse (r_Scope r <>s scope) (errorf "invalid authoritative snapshot record");
      _ ← refuse (mem_str (r_PipeID r) seen) (errorf "duplicate record in authoritative snapshot");
      snapshot_keys scope (r_PipeID r :: seen) rs
  end.

Fixpoint validate_all (now : time) (rs : list Record_) : res unit :=
  match rs with [] => Ok tt | r :: rs => _ ← validateStoredRecord r now; validate_all now rs end.

Fixpoint put_all (now : time) (rs : list Record_) (d : sync_db) : res sync_db :=
  match rs with
  | [] => Ok d
  | r :: rs => '(_, d) ← putDiscoveredRecordTx r now d; put_all now rs d
  end.

Definition reconcile_tx (now : time) (scope : string) (s : AuthoritativeSnapshot)
    (lease : option ScopeSyncLease) (d : sync_db) : res (unit * sync_db) :=
  _ ← validate_all now (sn_Records s);
  _ ← match lease with Some l => leaseCurrentTx l now d | None => Ok tt end;
  _ ← match scope_freshness d !! scope with
      | None => Ok tt
      | Some row =>
          _ ← refuse ((sn_Generation s <? fr_generation row) || (sn_HighWater s <? fr_high_water row))
                (wrapf ErrSnapshotRollback "rollback authoritative snapshot generation");
          refuse ((sn_Generation s =? fr_generation row) && (fr_digest row <>s "")
                  && ((sn_Digest s <>s fr_digest row) || negb (sn_HighWater s =? fr_high_water row)))
            (wrapf ErrSnapshotAmbiguous "ambiguous authoritative snapshot generation")
      end;
  d ← put_all now (sn_Records s) d;
  let ids := map r_PipeID (sn_Records s) in
  let d := (delete_where (λ k row, (k.1 =s scope) && rr_discovered row && negb (mem_str k.2 ids)) d).2 in
  let d := (delete_where (λ k row, (k.1 =s scope) && rr_discovered row
                                   && text_le (rr_expires row) (column_time now)) d).2 in
  generation ← sql_uint (sn_Generation s);
  highWater ← sql_uint (sn_HighWater s);
  Ok (tt, set_freshness d (<[scope := mkFreshnessRow (column_time now) (column_time now) (sn_Source s) true
                                        "" "" generation highWater (sn_Digest s)]> (scope_freshness d))).

Definition reconcileAuthoritativeSnapshot (now : time) (scope : string) (s : AuthoritativeSnapshot)
    (lease : option ScopeSyncLease) (d : sync_db) : res unit * sync_db :=
  match (_ ← snapshot_metadata s; snapshot_keys scope [] (sn_Records s)) with
  | Fail e => (Fail e, d)
  | Ok _ => in_tx (reconcile_tx (UTC now) scope s lease) d
  end.

Definition ReconcileAuthoritativeSnapshot now scope s d := reconcileAuthoritativeSnapshot now scope s None d.
Definition ReconcileAuthoritativeSnapshotWithLease now lease s d :=
  reconcileAuthoritativeSnapshot now (s_Scope lease) s (Some lease) d.
