(* ===== verification/StoreSyncFacts.v ===== *)
(** * Properties of records, snapshots and sync leases *)
From stdpp Require Import sorting.
From S2P Require Import Prelude GoStrings GoTime Encoding Domain StoreRelations StoreRelationFacts StoreSync.
Open Scope Z_scope.

(** ** Writing records *)
Definition same_but_records (d d' : sync_db) : Prop :=
  scope_freshness d' = scope_freshness d ∧ authority_snapshots d' = authority_snapshots d
  ∧ scope_sync_leases d' = scope_sync_leases d.

#[export] Instance same_but_records_preorder : PreOrder same_but_records.
Proof. split; [by intros d|]. intros a b c (? & ? & ?) (? & ? & ?). split_and!; congruence. Qed.

Lemma putRecordTx_ok v now d d' :
  putRecordTx v now d = Ok (tt, d') →
  let key := (r_Scope v, r_PipeID v) in
  same_but_records d d' ∧
  (∀ k, k ≠ key → records d' !! k = records d !! k) ∧
  (∃ row, records d' !! key = Some row ∧ rr_sequence row = r_Sequence v ∧ rr_payload row = r_Payload v ∧
          (records d !! key = Some row ∨ row = row_of v)) ∧
  (∀ row, records d !! key = Some row → rr_sequence row ≤ r_Sequence v).
Proof.
  unfold putRecordTx. intros H. set (key := (r_Scope v, r_PipeID v)).
  apply bind_ok in H as (u & _ & H). cbv zeta in H. fold key in H.
  destruct (records d !! key) as [row|] eqn:E.
  - destruct (r_Sequence v <? rr_sequence row) eqn:E1; [done|].
    destruct (r_Sequence v =? rr_sequence row) eqn:E2.
    + destruct (rr_payload row <>s r_Payload v) eqn:E3; [done|]. apply Ok_inj in H as [= <-]. repeat bool_step.
      split_and!; [done|done| |naive_solver lia]. exists row. naive_solver.
    + apply Ok_inj in H as [= <-]. repeat bool_step. split_and!; [done| | |naive_solver lia].
      * intros k Hk. cbn. by rewrite lookup_insert_ne.
      * exists (row_of v). cbn. rewrite lookup_insert_eq. naive_solver.
  - apply Ok_inj in H as [= <-]. split_and!; [done| | |done].
    + intros k Hk. cbn. by rewrite lookup_insert_ne.
    + exists (row_of v). cbn. rewrite lookup_insert_eq. naive_solver.
Qed.

(** Nothing happens, or the row is written over one of a lower sequence. *)
Lemma putRecordTx_cases v now d d' :
  putRecordTx v now d = Ok (tt, d') →
  validateStoredRecord v now = Ok tt ∧
  (d' = d ∨ (d' = set_records d (<[(r_Scope v, r_PipeID v) := row_of v]> (records d)) ∧
             ∀ row, records d !! (r_Scope v, r_PipeID v) = Some row → rr_sequence row < r_Sequence v)).
Proof.
  unfold putRecordTx. intros H. apply bind_ok in H as ([] & Hv & H). cbv zeta in H. split; [done|].
  destruct (records d !! (r_Scope v, r_PipeID v)) as [row|].
  - destruct (Z.ltb_spec (r_Sequence v) (rr_sequence row)); [done|].
    destruct (Z.eqb_spec (r_Sequence v) (rr_sequence row)).
    + destruct (rr_payload row <>s r_Payload v); [done|]. apply Ok_inj in H as [= <-]. by left.
    + apply Ok_inj in H as [= <-]. right. split; [done|]. intros ? [= <-]. lia.
  - apply Ok_inj in H as [= <-]. by right.
Qed.

(** A row that belongs to this store and not to a remote snapshot. *)
Definition local_row (d : sync_db) (k : string * string) (row : record_row) : Prop :=
  records d !! k = Some row ∧ rr_discovered row = false.

(** The row under the key of a snapshot record after it was written: the local row that
    stands there, the discovered row of the same sequence, or a new row of the record. *)
Definition settled (d : sync_db) (r : Record_) : record_row :=
  match records d !! (r_Scope r, r_PipeID r) with
  | Some row => if rr_discovered row && negb (rr_sequence row =? r_Sequence r) then row_of (as_discovered r) else row
  | None => row_of (as_discovered r)
  end.

Lemma settled_same d d1 r :
  records d1 !! (r_Scope r, r_PipeID r) = records d !! (r_Scope r, r_PipeID r) → settled d1 r = settled d r.
Proof. unfold settled. by intros ->. Qed.

Definition carries (d d' : sync_db) (r : Record_) : Prop :=
  records d' !! (r_Scope r, r_PipeID r) = Some (settled d r) ∧
  (rr_discovered (settled d r) = true →
   rr_sequence (settled d r) = r_Sequence r ∧ rr_payload (settled d r) = r_Payload r).

Lemma putRecordTx_settled r now d d' :
  putRecordTx (as_discovered r) now d = Ok (tt, d') →
  (∀ row, records d !! (r_Scope r, r_PipeID r) = Some row → rr_discovered row = true) → carries d d' r.
Proof.
  unfold putRecordTx, carries, settled. intros H Hd. apply bind_ok in H as (u & _ & H). cbv zeta in H.
  cbn [r_Scope r_PipeID r_Sequence r_Payload as_discovered] in H.
  destruct (records d !! (r_Scope r, r_PipeID r)) as [row|] eqn:E.
  - rewrite (Hd row eq_refl). cbn [andb]. destruct (r_Sequence r <? rr_sequence row) eqn:E1; [done|].
    rewrite Z.eqb_sym. destruct (r_Sequence r =? rr_sequence row) eqn:E2; cbn [negb].
    + destruct (rr_payload row <>s r_Payload r) eqn:E3; [done|]. apply Ok_inj in H as [= <-]. repeat bool_step.
      split; [done|]. intros _. done.
    + apply Ok_inj in H as [= <-]. cbn. by rewrite lookup_insert_eq.
  - apply Ok_inj in H as [= <-]. cbn. by rewrite lookup_insert_eq.
Qed.

Lemma putDiscovered_ok r now d d' :
  putDiscoveredRecordTx r now d = Ok (tt, d') →
  let key := (r_Scope r, r_PipeID r) in
  same_but_records d d' ∧ (∀ k, k ≠ key → records d' !! k = records d !! k) ∧
  (∀ k row, local_row d k row ↔ local_row d' k row) ∧ carries d d' r.
Proof.
  unfold putDiscoveredRecordTx. cbn [r_Scope r_PipeID as_discovered]. intros H.
  set (key := (r_Scope r, r_PipeID r)). fold key in H.
  destruct (records d !! key) as [row|] eqn:E; [destruct (rr_discovered row) eqn:Ed|].
  2:{ apply Ok_inj in H as [= <-]. split_and!; try done. unfold carries, settled. fold key. rewrite E, Ed. split; [done|].
      cbn [andb]. congruence. }
  all: pose proof H as Hc; apply putRecordTx_settled in Hc; [|fold key; rewrite E; naive_solver].
  all: apply putRecordTx_ok in H as (Hs & Hk & (row' & Hr & Hq & Hp & Ho) & _);
    cbn [r_Scope r_PipeID r_Sequence r_Payload as_discovered] in Hs, Hk, Hr, Hq, Hp, Ho; fold key in Hk, Hr, Ho.
  all: assert (Hd : rr_discovered row' = true) by (destruct Ho as [Ho|Ho]; [congruence|by subst]).
  all: split_and!; [done|done| |done].
  all: intros k x; unfold local_row; destruct (decide (k = key)) as [->|Hne]; [|by rewrite Hk].
  all: rewrite E, Hr; split; intros [? ?]; simplify_eq; congruence.
Qed.

Lemma put_all_ok now scope rs d d' :
  put_all now rs d = Ok d' → (∀ r, r ∈ rs → r_Scope r = scope) → NoDup (map r_PipeID rs) →
  same_but_records d d' ∧
  (∀ k, k.1 ≠ scope ∨ k.2 ∉ map r_PipeID rs → records d' !! k = records d !! k) ∧
  (∀ k row, local_row d k row ↔ local_row d' k row) ∧ (∀ r, r ∈ rs → carries d d' r).
Proof.
  revert d. induction rs as [|r rs IH]; intros d H Hs Hnd.
  { apply Ok_inj in H as <-. split_and!; [done|done|done|]. intros r Hr. by apply not_elem_of_nil in Hr. }
  cbn [put_all map] in *. apply bind_ok in H as ([[] d1] & H1 & H2). apply NoDup_cons in Hnd as [Hni Hnd].
  apply putDiscovered_ok in H1 as (S1 & K1 & L1 & C1).
  destruct (IH d1 H2) as (S2 & K2 & L2 & C2); [intros x Hx; apply Hs; by right|done|].
  assert (Hr : r_Scope r = scope) by (apply Hs; by left).
  split_and!; [by etrans| | |].
  - intros k Hk. rewrite K2 by set_solver. apply K1. intros ->. cbn in Hk. set_solver.
  - intros k row. by rewrite L1.
  - intros x [->|Hx]%elem_of_cons; [|].
    + destruct C1 as (Hrow & Hc). split; [|done]. rewrite K2; [done|]. right. cbn. done.
    + destruct (C2 x Hx) as (Hrow & Hc). unfold carries. rewrite (settled_same d d1) in Hrow, Hc; [done|..].
      all: apply K1; intros [= _ E]; apply Hni; rewrite <- E; by apply list_elem_of_fmap_2.
Qed.

Lemma snapshot_keys_ok scope seen rs :
  snapshot_keys scope seen rs = Ok tt →
  (∀ r, r ∈ rs → r_Scope r = scope) ∧ NoDup (map r_PipeID rs) ∧ (∀ i, i ∈ map r_PipeID rs → i ∉ seen).
Proof.
  revert seen. induction rs as [|r rs IH]; intros seen H; cbn [map].
  { split_and!; [|constructor|]; intros x Hx; by apply not_elem_of_nil in Hx. }
  cbn [snapshot_keys] in H. apply bind_ok in H as (? & H1 & H). apply bind_ok in H as (? & H2 & H). res_inv.
  apply IH in H as (A & B & C). rewrite mem_str_false in H2. split_and!.
  - intros x [->|Hx]%elem_of_cons; [done|by apply A].
  - apply NoDup_cons. split; [|done]. intros Hin. apply C in Hin. set_solver.
  - intros i [->|Hi]%elem_of_cons; [done|]. apply C in Hi. set_solver.
Qed.

(** ** Deleting records *)
Lemma delete_where_lookup p d k row :
  records (delete_where p d).2 !! k = Some row ↔ records d !! k = Some row ∧ p k row = false.
Proof. cbn. rewrite map_lookup_filter_Some. done. Qed.

Lemma delete_where_same p d : same_but_records d (delete_where p d).2.
Proof. done. Qed.

(** ** Reconciliation *)
Definition fresh_row (d : sync_db) (scope : string) : freshness_row :=
  default no_freshness (scope_freshness d !! scope).

Lemma leaseCurrentTx_ok lease now d :
  leaseCurrentTx lease now d = Ok tt →
  ∃ row e, fenced_row d lease = Some row ∧ ParseTime (sl_expires row) = Some e ∧ unix_ns now < unix_ns e.
Proof.
  unfold leaseCurrentTx, After, UTC. intros H. res_inv. cbn [unix_ns] in *. eexists _, _. done.
Qed.

(** What a successful reconciliation made of the records of its scope. *)
Record reconciled (now : time) (scope : string) (s : AuthoritativeSnapshot) (d d' : sync_db) : Prop := {
  rc_local : ∀ k row, local_row d k row ↔ local_row d' k row;
  rc_scope : ∀ k, k.1 ≠ scope → records d' !! k = records d !! k;
  rc_sound : ∀ pipe row, records d' !! (scope, pipe) = Some row → rr_discovered row = true →
    (∃ r, r ∈ sn_Records s ∧ r_PipeID r = pipe ∧ rr_sequence row = r_Sequence r ∧ rr_payload row = r_Payload r) ∧
    text_lt (column_time now) (rr_expires row) = true;
  rc_complete : ∀ r, r ∈ sn_Records s →
    records d' !! (scope, r_PipeID r) =
      (if rr_discovered (settled d r) && text_le (rr_expires (settled d r)) (column_time now)
       then None else Some (settled d r));
  rc_leases : scope_sync_leases d' = scope_sync_leases d ∧ authority_snapshots d' = authority_snapshots d;
  rc_order : fr_generation (fresh_row d scope) ≤ sn_Generation s ∧ fr_high_water (fresh_row d scope) ≤ sn_HighWater s;
  rc_fresh : scope_freshness d' =
    <[scope := mkFreshnessRow (column_time now) (column_time now) (sn_Source s) true "" ""
                 (sn_Generation s) (sn_HighWater s) (sn_Digest s)]> (scope_freshness d);
}.

Lemma reconcile_order scope s d :
  0 ≤ sn_Generation s → 0 ≤ sn_HighWater s →
  match scope_freshness d !! scope with
  | None => Ok tt
  | Some row =>
      _ ← refuse ((sn_Generation s <? fr_generation row) || (sn_HighWater s <? fr_high_water row))
            (wrapf ErrSnapshotRollback "rollback authoritative snapshot generation");
      refuse ((sn_Generation s =? fr_generation row) && (fr_digest row <>s "")
              && ((sn_Digest s <>s fr_digest row) || negb (sn_HighWater s =? fr_high_water row)))
        (wrapf ErrSnapshotAmbiguous "ambiguous authoritative snapshot generation")
  end = Ok tt →
  fr_generation (fresh_row d scope) ≤ sn_Generation s ∧ fr_high_water (fresh_row d scope) ≤ sn_HighWater s.
Proof.
  intros Hg Hh. unfold fresh_row. destruct (scope_freshness d !! scope) as [row|]; cbn [default]; [|done].
  intros H. apply bind_ok in H as (? & H%refuse_ok & _). repeat bool_step. done.
Qed.

Lemma reconcile_deletes now scope ids d k row :
  let d1 := (delete_where (λ k row, (k.1 =s scope) && rr_discovered row && negb (mem_str k.2 ids)) d).2 in
  let d2 := (delete_where (λ k row, (k.1 =s scope) && rr_discovered row
                                    && text_le (rr_expires row) (column_time now)) d1).2 in
  records d2 !! k = Some row ↔
  records d !! k = Some row ∧
  (k.1 = scope → rr_discovered row = true → k.2 ∈ ids ∧ text_lt (column_time now) (rr_expires row) = true).
Proof.
  intros d1 d2. unfold d2, d1. rewrite !delete_where_lookup. unfold text_le.
  destruct (k.1 =s scope) eqn:Es; [apply seqb_true in Es|apply seqb_false in Es]; cbn [andb].
  - destruct (rr_discovered row); cbn [andb]; [|naive_solver].
    rewrite !negb_false_iff, mem_str_true. naive_solver.
  - naive_solver.
Qed.

Lemma reconcile_tx_ok now scope s lease d d' :
  reconcile_tx now scope s lease d = Ok (tt, d') →
  (∀ r, r ∈ sn_Records s → r_Scope r = scope) → NoDup (map r_PipeID (sn_Records s)) →
  0 ≤ sn_Generation s → 0 ≤ sn_HighWater s →
  reconciled now scope s d d' ∧
  (∀ l, lease = Some l → ∃ row e, fenced_row d l = Some row ∧ ParseTime (sl_expires row) = Some e
                                  ∧ unix_ns now < unix_ns e).
Proof.
  intros H Hs Hnd Hg Hh. unfold reconcile_tx in H.
  apply bind_ok in H as ([] & _ & H). apply bind_ok in H as ([] & Hl & H). apply bind_ok in H as ([] & Ho & H).
  apply bind_ok in H as (d1 & Hp & H). cbv zeta in H.
  apply bind_ok in H as (g & [-> _]%sql_uint_ok & H). apply bind_ok in H as (w & [-> _]%sql_uint_ok & H).
  apply Ok_inj in H as [= <-]. apply (reconcile_order scope s d Hg Hh) in Ho.
  destruct (put_all_ok now scope _ _ _ Hp Hs Hnd) as ((Sf & Ss & Sl) & K & L & C).
  split; [|intros l ->; by apply leaseCurrentTx_ok].
  pose proof (reconcile_deletes now scope (map r_PipeID (sn_Records s)) d1) as Hdel. cbv zeta in Hdel.
  constructor; try (cbn; by rewrite ?Sf, ?Ss, ?Sl).
  - intros k row. rewrite L. unfold local_row at 2. cbn [records set_freshness]. rewrite Hdel. clear. unfold local_row.
    split; [intros [Hr E]; split; [split; [done|congruence]|done]|by intros [[Hr _] E]].
  - intros k Hk. cbn [records set_freshness]. rewrite <- (K k) by (by left). apply option_eq. intros row.
    rewrite Hdel. split; [by intros [? _]|done].
  - intros p row. cbn [records set_freshness]. rewrite Hdel. intros [Hr Hd] Hdisc. cbn in Hd.
    destruct (Hd eq_refl Hdisc) as [Hin Ht]. split; [|done].
    apply list_elem_of_fmap in Hin as (r & -> & Hin). exists r.
    destruct (C r Hin) as (Hrow & Hc). rewrite (Hs r Hin), Hr in Hrow. injection Hrow as Hrow. rewrite <- Hrow in Hc.
    by destruct (Hc Hdisc).
  - intros r Hin. destruct (C r Hin) as (Hrow & _). rewrite (Hs r Hin) in Hrow. cbn [records set_freshness].
    apply option_eq. intros row. rewrite Hdel, Hrow. cbn [fst snd].
    assert (Hm : r_PipeID r ∈ map r_PipeID (sn_Records s)) by (by apply list_elem_of_fmap_2).
    clear -Hm. generalize dependent (map r_PipeID (sn_Records s)). generalize (settled d r) as x. intros x ids Hm.
    unfold text_le. destruct (rr_discovered x && negb (text_lt (column_time now) (rr_expires x))) eqn:E; split.
    + intros ([= ->] & Hd). apply andb_true_iff in E as [E1 E2]. apply negb_true_iff in E2.
      destruct (Hd eq_refl E1). congruence.
    + discriminate.
    + by intros [? _].
    + intros [= ->]. split; [done|]. intros _ E1. rewrite E1 in E. apply negb_false_iff in E. done.
Qed.

Lemma reconcile_cases now scope s lease d r d' :
  reconcileAuthoritativeSnapshot now scope s lease d = (r, d') →
  0 ≤ sn_Generation s → 0 ≤ sn_HighWater s →
  ((∃ e, r = Fail e) ∧ d' = d) ∨
  (r = Ok tt ∧ sn_Complete s = true ∧ sn_Source s = SnapshotSourcePinnedAuthority ∧
   reconciled (UTC now) scope s d d' ∧
   (∀ l, lease = Some l → ∃ row e, fenced_row d l = Some row ∧ ParseTime (sl_expires row) = Some e
                                   ∧ unix_ns now < unix_ns e)).
Proof.
  unfold reconcileAuthoritativeSnapshot. intros H Hg Hh.
  destruct (_ ← snapshot_metadata s; _) as [u|e] eqn:Ek; [|left; by simplify_eq; eauto].
  apply bind_ok in Ek as ([] & Hm & Hk). destruct u. apply snapshot_keys_ok in Hk as (Hs & Hnd & _).
  destruct r as [[]|e].
  - right. apply in_tx_ok, reconcile_tx_ok in H as [Hr Hl]; try done.
    unfold snapshot_metadata in Hm. res_inv. split_and!; done.
  - left. apply in_tx_fail in H as ->. eauto.
Qed.

(** ** Counters over a history *)
Inductive sync_op :=
  | SPut (now : time) (v : Record_)
  | SPutAuthoritative (now : time) (v : Record_)
  | SEnsure (scope : string)
  | SSnapshot (now : time) (scope : string) (limit : Z)
  | SAcquire (rnd : res string) (scope holder process : string) (now : time) (ttl : duration)
  | SRenew (lease : ScopeSyncLease) (now : time) (ttl : duration)
  | SRelease (lease : ScopeSyncLease)
  | SFailure (now : time) (scope source errorClass : string) (retry : option time) (lease : option ScopeSyncLease)
  | SReconcile (now : time) (scope : string) (s : AuthoritativeSnapshot) (lease : option ScopeSyncLease)
  | SPrune (now : time).

Definition sync_exec (o : sync_op) (d : sync_db) : sync_db :=
  match o with
  | SPut now v => (PutRecord v now d).2
  | SPutAuthoritative now v => (PutAuthoritativeRecord now v d).2
  | SEnsure scope => (EnsureAuthoritySnapshot scope d).2
  | SSnapshot now scope limit => (AuthoritySnapshot now scope limit d).2
  | SAcquire rnd scope holder process now ttl => (AcquireScopeSyncLease rnd scope holder process now ttl d).2
  | SRenew lease now ttl => (RenewScopeSyncLease lease now ttl d).2
  | SRelease lease => (ReleaseScopeSyncLease lease d).2
  | SFailure now scope source errorClass retry lease =>
      (recordSnapshotFailure now scope source errorClass retry lease d).2
  | SReconcile now scope s lease => (reconcileAuthoritativeSnapshot now scope s lease d).2
  | SPrune now => (PruneExpiredRecords now d).2
  end.

(** The counters of a snapshot are unsigned. *)
Definition sync_op_ok (o : sync_op) : Prop :=
  match o with SReconcile _ _ s _ => 0 ≤ sn_Generation s ∧ 0 ≤ sn_HighWater s | _ => True end.

Inductive sync_step : sync_db → sync_db → Prop :=
  | sync_step_op o d : sync_op_ok o → sync_step d (sync_exec o d).

Definition authority_counters (d : sync_db) (scope : string) : Z * Z := default (0, 0) (authority_snapshots d !! scope).

Record newer (d d' : sync_db) : Prop := {
  nw_fresh : ∀ scope, fr_generation (fresh_row d scope) ≤ fr_generation (fresh_row d' scope)
                      ∧ fr_high_water (fresh_row d scope) ≤ fr_high_water (fresh_row d' scope);
  nw_authority : ∀ scope, (authority_counters d scope).1 ≤ (authority_counters d' scope).1
                          ∧ (authority_counters d scope).2 ≤ (authority_counters d' scope).2;
}.

#[export] Instance newer_preorder : PreOrder newer.
Proof.
  split; [by intros d; constructor|]. intros a b c [F A] [F' A'].
  constructor; intros scope; [specialize (F scope); specialize (F' scope)|specialize (A scope); specialize (A' scope)]; lia.
Qed.

Lemma newer_same d d' :
  scope_freshness d' = scope_freshness d → authority_snapshots d' = authority_snapshots d → newer d d'.
Proof. intros F A. constructor; intros scope; unfold fresh_row, authority_counters; by rewrite ?F, ?A. Qed.

Lemma advance_newer scope d d' : advanceAuthoritySnapshotTx scope d = Ok (tt, d') → newer d d'.
Proof.
  unfold advanceAuthoritySnapshotTx. intros H.
  constructor; intros x.
  - repeat case_match; simplify_eq; done.
  - unfold authority_counters. destruct (decide (x = scope)) as [->|Hne].
    + destruct (authority_snapshots d !! scope) as [[g h]|] eqn:E.
      * destruct (_ || _) in H; [done|]. apply Ok_inj in H as [= <-]. cbn. rewrite lookup_insert_eq. cbn. lia.
      * apply Ok_inj in H as [= <-]. cbn. rewrite lookup_insert_eq. cbn. lia.
    + repeat case_match; simplify_eq; cbn; by rewrite ?lookup_insert_ne.
Qed.

Lemma in_tx_newer {A} (f : sync_db → res (A * sync_db)) d :
  (∀ a d', f d = Ok (a, d') → newer d d') → newer d (in_tx f d).2.
Proof. intros H. unfold in_tx. destruct (f d) as [[a d']|e]; [by eapply H|done]. Qed.

Lemma put_newer v now d d' : putRecordTx v now d = Ok (tt, d') → newer d d'.
Proof. intros ((F & A & _) & _)%putRecordTx_ok. by apply newer_same. Qed.

Lemma failure_newer scope attempt source errorClass retry d :
  newer d (upsert_failure scope attempt source errorClass retry d).
Proof.
  constructor; intros x; [|done]. unfold fresh_row, upsert_failure. cbn.
  destruct (decide (x = scope)) as [->|Hne]; [by rewrite lookup_insert_eq|by rewrite lookup_insert_ne].
Qed.

Lemma snapshot_tx_newer now scope limit d a d' :
  authority_snapshot_tx now scope limit d = Ok (a, d') → newer d d'.
Proof.
  unfold authority_snapshot_tx. cbv zeta. destruct (delete_where _ d) as [n d0] eqn:E.
  assert (N0 : newer d d0) by (injection E as _ <-; by apply newer_same).
  intros H. apply bind_ok in H as ([[] d1] & H1 & H). apply bind_ok in H as ([g h] & _ & H).
  apply bind_ok in H as (? & _ & H). apply bind_ok in H as (rs & _ & H). apply Ok_inj in H as [= _ <-].
  etrans; [exact N0|]. destruct (0 <? n); [by eapply advance_newer|by apply Ok_inj in H1 as [= <-]].
Qed.

Lemma reconcile_newer now scope s lease d :
  0 ≤ sn_Generation s ∧ 0 ≤ sn_HighWater s → newer d (reconcileAuthoritativeSnapshot now scope s lease d).2.
Proof.
  intros [Hg Hh]. destruct (reconcileAuthoritativeSnapshot now scope s lease d) as [r d'] eqn:E.
  destruct (reconcile_cases _ _ _ _ _ _ _ E Hg Hh) as [[_ ->]|(_ & _ & _ & [_ _ _ _ [_ A] O F] & _)]; [done|].
  constructor; intros x; [|unfold authority_counters; cbn; by rewrite A].
  unfold fresh_row at 2 4. cbn [snd]. rewrite F. destruct (decide (x = scope)) as [->|Hne].
  - by rewrite lookup_insert_eq.
  - by rewrite lookup_insert_ne.
Qed.

Lemma ensure_newer scope d : newer d (EnsureAuthoritySnapshot scope d).2.
Proof.
  constructor; intros x; unfold EnsureAuthoritySnapshot; cbn [snd].
  - by destruct (authority_snapshots d !! scope).
  - unfold authority_counters. destruct (authority_snapshots d !! scope) eqn:E; [done|]. cbn.
    destruct (decide (x = scope)) as [->|Hne]; [rewrite lookup_insert_eq, E; cbn; lia|by rewrite lookup_insert_ne].
Qed.

Lemma exec_newer o d : sync_op_ok o → newer d (sync_exec o d).
Proof.
  intros Ho. destruct o; cbn [sync_exec].
  - apply in_tx_newer. intros [] d'. apply put_newer.
  - apply in_tx_newer. intros [] d' H. apply bind_ok in H as ([[] d1] & H1 & H2).
    etrans; [by eapply put_newer|by eapply advance_newer].
  - apply ensure_newer.
  - unfold AuthoritySnapshot. case_match; [done|]. apply in_tx_newer. intros a d'. apply snapshot_tx_newer.
  - unfold AcquireScopeSyncLease. repeat case_match; try done; by apply newer_same.
  - unfold RenewScopeSyncLease. repeat case_match; try done; by apply newer_same.
  - unfold ReleaseScopeSyncLease. repeat case_match; try done; by apply newer_same.
  - unfold recordSnapshotFailure. case_match; [done|]. cbv zeta. destruct lease; [|apply failure_newer].
    apply in_tx_newer. intros [] d' Hf. apply bind_ok in Hf as (? & _ & Hf). apply Ok_inj in Hf as [= <-].
    apply failure_newer.
  - by apply reconcile_newer.
  - by apply newer_same.
Qed.

Lemma steps_newer d d' : rtc sync_step d d' → newer d d'.
Proof. induction 1 as [|d d1 d2 [o d0 Ho] _ IH]; [done|]. etrans; [by apply exec_newer|done]. Qed.

(** ** Properties *)

Definition at_noon (s : Z) : time := mkTime ((1700000000 + s) * Second) 0.
Definition digest64 : string := "0123456789abcdef0123456789abcdef0123456789abcdef0123456789abcdef".
Definition record_a (seq : Z) : Record_ := mkRecord "home/lab" "pip_a" "a" "payload" (at_noon 600) seq false.
Definition snapshot3 : AuthoritativeSnapshot :=
  mkSnapshot SnapshotSourcePinnedAuthority true 3 3 digest64 [record_a 5].
Definition reconciled3 : sync_db := (reconcileAuthoritativeSnapshot (at_noon 0) "home/lab" snapshot3 None empty_sync).2.

(** Snapshots never roll back. *)
Lemma snapshots_monotone d d' scope :
  rtc sync_step d d' →
  fr_generation (fresh_row d scope) ≤ fr_generation (fresh_row d' scope) ∧
  fr_high_water (fresh_row d scope) ≤ fr_high_water (fresh_row d' scope) ∧
  (authority_counters d scope).1 ≤ (authority_counters d' scope).1 ∧
  (authority_counters d scope).2 ≤ (authority_counters d' scope).2 ∧
  (∀ now s lease, 0 ≤ sn_Generation s → 0 ≤ sn_HighWater s → sn_Generation s < fr_generation (fresh_row d scope) →
     ∃ e, reconcileAuthoritativeSnapshot now scope s lease d' = (Fail e, d')).
Proof.
  intros [F A]%steps_newer. specialize (F scope). specialize (A scope). split_and!; try lia.
  intros now s lease Hg Hh Hlt. destruct (reconcileAuthoritativeSnapshot now scope s lease d') as [r d2] eqn:E.
  destruct (reconcile_cases _ _ _ _ _ _ _ E Hg Hh) as [[[e ->] ->]|(_ & _ & _ & [_ _ _ _ _ O _] & _)]; [by exists e|lia].
Qed.

(** C35: snapshots are taken over whole or not at all, and never roll back. If reconciling a
    snapshot is refused the store is as before. If it succeeds the snapshot was complete and
    from the pinned authority, its generation and high water were not below the last
    accepted ones, and a given lease was held and unexpired; and then the discovered records
    of the scope are records of the snapshot, unexpired, with its sequence and payload; for
    every record of the snapshot the row of its Pipe is exactly the local row that stood in
    its place, the discovered row of the same sequence that was there, or else a new row with
    the name, payload, expiry and sequence of the record, and a discovered row is gone only
    if its expiry column reads as past; every local row is untouched, so are all other scopes and the
    sync leases, and the freshness row shows this snapshot. Over any sequence of store
    operations the accepted generation and high water never decrease, nor do the counters of
    the authority, and a snapshot below the accepted generation is refused without effect. *)
Theorem snapshots_reconcile d d' scope :
  rtc sync_step d d' →
  (∀ now s lease r d2, reconcileAuthoritativeSnapshot now scope s lease d' = (r, d2) →
     0 ≤ sn_Generation s → 0 ≤ sn_HighWater s →
     ((∃ e, r = Fail e) ∧ d2 = d') ∨
     (r = Ok tt ∧ sn_Complete s = true ∧ sn_Source s = SnapshotSourcePinnedAuthority ∧
      reconciled (UTC now) scope s d' d2 ∧
      (∀ l, lease = Some l → ∃ row e, fenced_row d' l = Some row ∧ ParseTime (sl_expires row) = Some e
                                      ∧ unix_ns now < unix_ns e))) ∧
  fr_generation (fresh_row d scope) ≤ fr_generation (fresh_row d' scope) ∧
  fr_high_water (fresh_row d scope) ≤ fr_high_water (fresh_row d' scope) ∧
  (authority_counters d scope).1 ≤ (authority_counters d' scope).1 ∧
  (authority_counters d scope).2 ≤ (authority_counters d' scope).2 ∧
  (∀ now s lease, 0 ≤ sn_Generation s → 0 ≤ sn_HighWater s → sn_Generation s < fr_generation (fresh_row d scope) →
     ∃ e, reconcileAuthoritativeSnapshot now scope s lease d' = (Fail e, d')).
Proof. intros H. split; [intros; by apply reconcile_cases|by apply snapshots_monotone]. Qed.

Lemma snapshots_reconcile_witness :
  rr_sequence <$> records reconciled3 !! ("home/lab", "pip_a") = Some 5 ∧
  fr_generation (fresh_row reconciled3 "home/lab") = 3 ∧
  ∃ e, reconcileAuthoritativeSnapshot (at_noon 1) "home/lab"
         (mkSnapshot SnapshotSourcePinnedAuthority true 2 9 digest64 []) None reconciled3 = (Fail e, reconciled3).
Proof.
  assert (E : reconcileAuthoritativeSnapshot (at_noon 0) "home/lab" snapshot3 None empty_sync = (Ok tt, reconciled3))
    by (vm_compute; reflexivity).
  split; [vm_compute; reflexivity|]. split.
  - destruct (proj1 (snapshots_reconcile empty_sync empty_sync "home/lab" (rtc_refl _ _)) (at_noon 0) snapshot3 None (Ok tt) reconciled3 E)
      as [[[e He] _]|(_ & _ & _ & [_ _ _ _ _ _ F] & _)]; [cbn; lia|cbn; lia|discriminate He|].
    unfold fresh_row. rewrite F. reflexivity.
  - destruct (snapshots_reconcile reconciled3 reconciled3 "home/lab" (rtc_refl _ _)) as (_ & _ & _ & _ & _ & H).
    apply H; [cbn; lia|cbn; lia|reflexivity].
Defined.

Lemma sync_lease_fenced lease row now ttl s source errorClass retry d :
  scope_sync_leases d !! s_Scope lease = Some row → sl_token row ≠ s_Token lease →
  0 ≤ sn_Generation s → 0 ≤ sn_HighWater s →
  (RenewScopeSyncLease lease now ttl d).1 ≠ Ok true ∧ (RenewScopeSyncLease lease now ttl d).2 = d ∧
  (ReleaseScopeSyncLease lease d).1 ≠ Ok true ∧ (ReleaseScopeSyncLease lease d).2 = d ∧
  (∃ e, RecordSnapshotFailureWithLease now lease source errorClass retry d = (Fail e, d)) ∧
  (∃ e, ReconcileAuthoritativeSnapshotWithLease now lease s d = (Fail e, d)).
Proof.
  intros Hr Ht Hg Hh.
  assert (Hf : fenced_row d lease = None).
  { unfold fenced_row. rewrite Hr, (proj2 (seqb_false _ _) Ht). by rewrite andb_false_r. }
  unfold RenewScopeSyncLease, ReleaseScopeSyncLease. cbv zeta. rewrite Hf.
  split_and!; try (case_match; done).
  - unfold RecordSnapshotFailureWithLease, recordSnapshotFailure. case_match; [by eexists|]. cbv zeta.
    unfold in_tx, leaseCurrentTx. destruct (negb (validLeaseFence lease)); cbn; [by eexists|]. rewrite Hf. by eexists.
  - unfold ReconcileAuthoritativeSnapshotWithLease.
    destruct (reconcileAuthoritativeSnapshot now (s_Scope lease) s (Some lease) d) as [r d'] eqn:E.
    destruct (reconcile_cases _ _ _ _ _ _ _ E Hg Hh) as [[[e ->] ->]|(_ & _ & _ & _ & Hl)]; [by exists e|].
    destruct (Hl lease eq_refl) as (row' & e & ? & _). congruence.
Qed.

Lemma sync_lease_exclusive rnd scope holder process now ttl d old e lease d' :
  scope_sync_leases d !! scope = Some old → sl_expires old = RFC3339Nano e → zone e = 0 →
  in_years e → in_years (UTC now) →
  AcquireScopeSyncLease rnd scope holder process now ttl d = (Ok (Some lease), d') →
  unix_ns e / Second ≤ unix_ns now / Second ∧
  scope_sync_leases d' !! scope = Some (mkSyncLeaseRow holder process (s_Token lease) (column_time now) (column_time now)
                                          (RFC3339Nano (Add (UTC now) ttl))).
Proof.
  intros Ho He Hz Hy Hn. unfold AcquireScopeSyncLease.
  destruct (_ ← validScopeSyncLeaseInput _ _ _ _; _) as [token|er]; [|done]. cbv zeta. rewrite Ho.
  destruct (text_le (sl_expires old) (RFC3339Nano (UTC now))) eqn:E; cbn [negb]; [|done].
  destruct (token_taken d scope token); [done|]. intros [= <- <-]. rewrite He in E.
  apply second_le_of_text_le in E; [|done..]. cbn. split; [done|]. by rewrite lookup_insert_eq.
Qed.

Definition rnd_a : res string := Ok "aaaaaaaaaaaaaaaaaaaaaaaaaaaaaaaa".
Definition rnd_b : res string := Ok "bbbbbbbbbbbbbbbbbbbbbbbbbbbbbbbb".
Definition acquired_a : sync_db :=
  (AcquireScopeSyncLease rnd_a "home/lab" "run/a" "pid-a" (mkTime (1700000000 * Second + 100000000) 0) Minute empty_sync).2.
Definition lease_b : ScopeSyncLease :=
  mkSyncLease "home/lab" "run/b" "pid-b" "other-token" (at_noon 0) (at_noon 0) (at_noon 60) true.

(** When the first lease of [acquired_a] has run out. *)
Definition expiry_a : time := mkTime (1700000060 * Second + 100000000) 0.
Definition row_a : sync_lease_row :=
  mkSyncLeaseRow "run/a" "pid-a" (base64_encode "aaaaaaaaaaaaaaaaaaaaaaaaaaaaaaaa")
    (RFC3339Nano (mkTime (1700000000 * Second + 100000000) 0))
    (RFC3339Nano (mkTime (1700000000 * Second + 100000000) 0)) (RFC3339Nano expiry_a).
Definition lease_b2 : ScopeSyncLease :=
  mkSyncLease "home/lab" "run/b" "pid-b" (base64_encode "bbbbbbbbbbbbbbbbbbbbbbbbbbbbbbbb")
    (at_noon 61) (at_noon 61) (Add (at_noon 61) Minute) true.
Definition acquired_b : sync_db :=
  (AcquireScopeSyncLease rnd_b "home/lab" "run/b" "pid-b" (at_noon 61) Minute acquired_a).2.

(** Half a second past a full second sorts before the full second. *)
Lemma live_sync_lease_stolen :
  ∃ d1 l1 now l2 d2,
    AcquireScopeSyncLease rnd_a "home/lab" "run/a" "pid-a" (mkTime (1700000000 * Second + 500000000) 0) Minute empty_sync
      = (Ok (Some l1), d1) ∧
    unix_ns (s_ExpiresAt l1) - unix_ns now = 500000000 ∧
    AcquireScopeSyncLease rnd_b "home/lab" "run/b" "pid-b" now Minute d1 = (Ok (Some l2), d2).
Proof.
  eexists _, _, (mkTime (1700000060 * Second) 0), _, _. split_and!; [vm_compute; reflexivity..|].
  vm_compute. reflexivity.
Qed.

(** C36: a scope's sync lease excludes other holders. What is asked under a lease is fenced
    by its token: to a holder whose token is not the one stored for the scope, renewal and
    release answer no and change nothing, and reconciliation and failure recording under
    the lease fail and change nothing. And the lease is taken over only when it expires,
    up to the second: if a lease is acquired although another row is stored for the scope,
    that row's expiry is not in a later second than the new holder's clock. Within the second
    a live owner can lose it: because expiry is compared as text, there is a store in which
    a second process acquires a lease that still has half a second to run. *)
Theorem sync_lease_exclusion d now ttl :
  (∀ lease row s source errorClass retry,
     scope_sync_leases d !! s_Scope lease = Some row → sl_token row ≠ s_Token lease →
     0 ≤ sn_Generation s → 0 ≤ sn_HighWater s →
     (RenewScopeSyncLease lease now ttl d).1 ≠ Ok true ∧ (RenewScopeSyncLease lease now ttl d).2 = d ∧
     (ReleaseScopeSyncLease lease d).1 ≠ Ok true ∧ (ReleaseScopeSyncLease lease d).2 = d ∧
     (∃ e, RecordSnapshotFailureWithLease now lease source errorClass retry d = (Fail e, d)) ∧
     (∃ e, ReconcileAuthoritativeSnapshotWithLease now lease s d = (Fail e, d))) ∧
  (∀ rnd scope holder process old e lease d',
     scope_sync_leases d !! scope = Some old → sl_expires old = RFC3339Nano e → zone e = 0 →
     in_years e → in_years (UTC now) →
     AcquireScopeSyncLease rnd scope holder process now ttl d = (Ok (Some lease), d') →
     unix_ns e / Second ≤ unix_ns now / Second ∧
     scope_sync_leases d' !! scope = Some (mkSyncLeaseRow holder process (s_Token lease) (column_time now)
                                             (column_time now) (RFC3339Nano (Add (UTC now) ttl)))) ∧
  ∃ d1 l1 t l2 d2,
    AcquireScopeSyncLease rnd_a "home/lab" "run/a" "pid-a" (mkTime (1700000000 * Second + 500000000) 0) Minute empty_sync
      = (Ok (Some l1), d1) ∧
    unix_ns (s_ExpiresAt l1) - unix_ns t = 500000000 ∧
    AcquireScopeSyncLease rnd_b "home/lab" "run/b" "pid-b" t Minute d1 = (Ok (Some l2), d2).
Proof. split_and!; intros; [by eapply sync_lease_fenced|by eapply sync_lease_exclusive|apply live_sync_lease_stolen]. Qed.

Lemma sync_lease_exclusion_witness :
  (∃ e, ReconcileAuthoritativeSnapshotWithLease (at_noon 61) lease_b snapshot3 acquired_a = (Fail e, acquired_a)) ∧
  unix_ns expiry_a / Second ≤ unix_ns (at_noon 61) / Second.
Proof.
  assert (Hr : scope_sync_leases acquired_a !! "home/lab" = Some row_a) by (vm_compute; reflexivity).
  assert (Hy : in_years expiry_a) by (vm_compute; split; discriminate).
  assert (Hn : in_years (UTC (at_noon 61))) by (vm_compute; split; discriminate).
  assert (E : AcquireScopeSyncLease rnd_b "home/lab" "run/b" "pid-b" (at_noon 61) Minute acquired_a
              = (Ok (Some lease_b2), acquired_b)) by (vm_compute; reflexivity).
  destruct (sync_lease_exclusion acquired_a (at_noon 61) Minute) as (Hf & Hx & _). split.
  - destruct (Hf lease_b row_a snapshot3 "" "" None) as (_ & _ & _ & _ & _ & H);
      [exact Hr|vm_compute; discriminate|cbn; lia|cbn; lia|exact H].
  - exact (proj1 (Hx rnd_b "home/lab" "run/b" "pid-b" row_a expiry_a lease_b2 acquired_b Hr
                    (eq_refl (RFC3339Nano expiry_a)) (eq_refl 0) Hy Hn E)).
Defined.
