(* ===== verification/StoreObjects.v ===== *)
(** * Services, Pipes and accepted connections in the store

    The tables [services], [pipes], [sessions], [connect_leases], [remote_pipe_bindings]
    and [exact_lease_cache] of [internal/store] ([store.go] and [exact_connection.go]).

    A definition is stored as its JSON text, which is what a second write is compared
    with. [time.Now] is an argument. *)
From stdpp Require Import sorting.
From S2P Require Import Prelude GoStrings GoTime Encoding Json JsonRoundTrip JsonTree Domain StoreRelations StoreSync.
Open Scope Z_scope.

(** ** JSON forms of the definitions *)

(** [map[string]string]: written in the order of its keys; read entry by entry. *)
Fixpoint insert_key (kv : string * string) (l : list (string * string)) : list (string * string) :=
  match l with
  | [] => [kv]
  | x :: r => if text_lt kv.1 x.1 then kv :: l else x :: insert_key kv r
  end.
Definition sort_keys (l : list (string * string)) : list (string * string) := foldr insert_key [] l.

Fixpoint assign (k v : string) (l : list (string * string)) : list (string * string) :=
  match l with
  | [] => [(k, v)]
  | x :: r => if x.1 =s k then (k, v) :: r else x :: assign k v r
  end.
Fixpoint take_entries (ms : list (string * json)) (m : list (string * string)) : option (list (string * string)) :=
  match ms with
  | [] => Some m
  | (k, j) :: ms =>
      match j with
      | JStr s _ => take_entries ms (assign k s m)
      | JNull => take_entries ms (assign k "" m)
      | _ => None
      end
  end.
Definition map_codec : codec (list (string * string)) :=
  mkCodec [] (λ m, match m with
                   | [] => Ok JNull
                   | _ => Ok (JObj (map (λ kv, (kv.1, jstr kv.2)) (sort_keys m)))
                   end)
    (λ _ j m, match j with JObj ms => take_entries ms m | JNull => Some [] | _ => None end).

Definition string_field {A} (name : string) (get : A → string) (set : string → A → A) : field A :=
  mkField string_codec name get set always.
Definition optional_field {A} (name : string) (get : A → string) (set : string → A → A) : field A :=
  mkField string_codec name get set empty_str.

Definition Ref_codec : codec Ref := struct_codec (mkRef "" "") [
  string_field "kind" Kind (λ v a, mkRef v (Name a)); string_field "name" Name (λ v a, mkRef (Kind a) v)].

Definition Scope_codec : codec Scope := struct_codec (mkScope "" "") [
  string_field "cluster" Cluster (λ v a, mkScope v (Namespace a));
  string_field "namespace" Namespace (λ v a, mkScope (Cluster a) v)].

Definition ServiceSpec_codec : codec ServiceSpec := struct_codec (mkService (mkRef "" "") "" "" "" []) [
  mkField Ref_codec "ref" svc_Ref
    (λ v a, mkService v (svc_Kind a) (svc_Target a) (svc_Description a) (svc_Metadata a)) always;
  string_field "kind" svc_Kind
    (λ v a, mkService (svc_Ref a) v (svc_Target a) (svc_Description a) (svc_Metadata a));
  string_field "target" svc_Target
    (λ v a, mkService (svc_Ref a) (svc_Kind a) v (svc_Description a) (svc_Metadata a));
  optional_field "description" svc_Description
    (λ v a, mkService (svc_Ref a) (svc_Kind a) (svc_Target a) v (svc_Metadata a));
  mkField map_codec "metadata" svc_Metadata
    (λ v a, mkService (svc_Ref a) (svc_Kind a) (svc_Target a) (svc_Description a) v) empty_slice].

Definition PipeIngress_codec : codec PipeIngress := struct_codec (mkIngress "" "" "" "" "") [
  string_field "kind" in_Kind (λ v a, mkIngress v (in_Listen a) (in_Host a) (in_Path a) (in_Protocol a));
  optional_field "listen" in_Listen (λ v a, mkIngress (in_Kind a) v (in_Host a) (in_Path a) (in_Protocol a));
  optional_field "host" in_Host (λ v a, mkIngress (in_Kind a) (in_Listen a) v (in_Path a) (in_Protocol a));
  optional_field "path" in_Path (λ v a, mkIngress (in_Kind a) (in_Listen a) (in_Host a) v (in_Protocol a));
  optional_field "protocol" in_Protocol (λ v a, mkIngress (in_Kind a) (in_Listen a) (in_Host a) (in_Path a) v)].

Definition no_pipe : PipeSpec :=
  mkPipe (mkRef "" "") "" None (mkIngress "" "" "" "" "") (mkRef "" "") "" "" false zero_time zero_time.

Definition PipeSpec_codec : codec PipeSpec := struct_codec no_pipe [
  mkField Ref_codec "ref" p_Ref
    (λ v a, mkPipe v (p_PipeID a) (p_Scope a) (p_Ingress a) (p_Target a) (p_Visibility a) (p_Access a)
              (p_AllowReexport a) (p_CreatedAt a) (p_UpdatedAt a)) always;
  optional_field "pipe_id" p_PipeID
    (λ v a, mkPipe (p_Ref a) v (p_Scope a) (p_Ingress a) (p_Target a) (p_Visibility a) (p_Access a)
              (p_AllowReexport a) (p_CreatedAt a) (p_UpdatedAt a));
  mkField (pointer_codec Scope_codec) "scope" p_Scope
    (λ v a, mkPipe (p_Ref a) (p_PipeID a) v (p_Ingress a) (p_Target a) (p_Visibility a) (p_Access a)
              (p_AllowReexport a) (p_CreatedAt a) (p_UpdatedAt a)) empty_ptr;
  mkField PipeIngress_codec "ingress" p_Ingress
    (λ v a, mkPipe (p_Ref a) (p_PipeID a) (p_Scope a) v (p_Target a) (p_Visibility a) (p_Access a)
              (p_AllowReexport a) (p_CreatedAt a) (p_UpdatedAt a)) always;
  mkField Ref_codec "target" p_Target
    (λ v a, mkPipe (p_Ref a) (p_PipeID a) (p_Scope a) (p_Ingress a) v (p_Visibility a) (p_Access a)
              (p_AllowReexport a) (p_CreatedAt a) (p_UpdatedAt a)) always;
  string_field "visibility" p_Visibility
    (λ v a, mkPipe (p_Ref a) (p_PipeID a) (p_Scope a) (p_Ingress a) (p_Target a) v (p_Access a)
              (p_AllowReexport a) (p_CreatedAt a) (p_UpdatedAt a));
  string_field "access" p_Access
    (λ v a, mkPipe (p_Ref a) (p_PipeID a) (p_Scope a) (p_Ingress a) (p_Target a) (p_Visibility a) v
              (p_AllowReexport a) (p_CreatedAt a) (p_UpdatedAt a));
  mkField bool_codec "allow_reexport" p_AllowReexport
    (λ v a, mkPipe (p_Ref a) (p_PipeID a) (p_Scope a) (p_Ingress a) (p_Target a) (p_Visibility a) (p_Access a)
              v (p_CreatedAt a) (p_UpdatedAt a)) negb;
  mkField time_codec "created_at" p_CreatedAt
    (λ v a, mkPipe (p_Ref a) (p_PipeID a) (p_Scope a) (p_Ingress a) (p_Target a) (p_Visibility a) (p_Access a)
              (p_AllowReexport a) v (p_UpdatedAt a)) always;
  mkField time_codec "updated_at" p_UpdatedAt
    (λ v a, mkPipe (p_Ref a) (p_PipeID a) (p_Scope a) (p_Ingress a) (p_Target a) (p_Visibility a) (p_Access a)
              (p_AllowReexport a) (p_CreatedAt a) v) always].

(** ** Tables *)
Record service_row := mkServiceRow { sv_name : string; sv_spec : string }.
Record pipe_row := mkPipeRow {
  pp_name : string; pp_pipe_id : string; pp_spec : string; pp_owner_key : string; pp_grant : string }.
Record session_row := mkSessionRow {
  se_pipe_ref : string; se_initial : string; se_current : string; se_started : string;
  se_in : Z; se_out : Z }.
Record connect_row := mkConnectRow { cl_scope : string; cl_access : string; cl_refresh : string; cl_expires : string }.
Record binding_row := mkBindingRow {
  bd_authority : string; bd_owner_binding : string; bd_locator : string; bd_recipient : string;
  bd_source : string; bd_created : string; bd_updated : string }.
Record cache_row := mkCacheRow { lc_lease : string; lc_expires : string }.

Record objects := mkObjects {
  services : gmap string service_row;
  pipes : gmap string pipe_row;
  sessions : gmap string session_row;
  connect_leases : gmap string connect_row;
  remote_pipe_bindings : gmap string binding_row;
  exact_lease_cache : gmap string cache_row;
}.

Definition no_objects : objects := mkObjects ∅ ∅ ∅ ∅ ∅ ∅.

Definition set_services d m := mkObjects m (pipes d) (sessions d) (connect_leases d) (remote_pipe_bindings d) (exact_lease_cache d).
Definition set_pipes d m := mkObjects (services d) m (sessions d) (connect_leases d) (remote_pipe_bindings d) (exact_lease_cache d).
Definition set_sessions d m := mkObjects (services d) (pipes d) m (connect_leases d) (remote_pipe_bindings d) (exact_lease_cache d).
Definition set_connect d m := mkObjects (services d) (pipes d) (sessions d) m (remote_pipe_bindings d) (exact_lease_cache d).
Definition set_bindings d m := mkObjects (services d) (pipes d) (sessions d) (connect_leases d) m (exact_lease_cache d).
Definition set_cache d m := mkObjects (services d) (pipes d) (sessions d) (connect_leases d) (remote_pipe_bindings d) m.

Definition not_found : error := wrapf ErrNotFound "not found".
Definition unique_failed : error := errorf "UNIQUE constraint failed".
Definition json_error : error := errorf "json".

(** A column that is declared unique. *)
Definition taken {R} (col : R → string) (v : string) (t : gmap string R) : bool :=
  existsb (λ kv, col kv.2 =s v) (map_to_list t).

(** ** Services *)
Definition PutService `{NetParsers} (spec : ServiceSpec) (d : objects) : res bool * objects :=
  match (_ ← ServiceValidate spec; marshal ServiceSpec_codec spec) with
  | Fail e => (Fail e, d)
  | Ok data =>
      let ref := RefString (svc_Ref spec) in
      match services d !! ref with
      | Some row => if sv_spec row =s data then (Ok false, d)
                    else (Fail (errorf "conflict: already exists with different specification"), d)
      | None => if taken sv_name (Name (svc_Ref spec)) (services d) then (Fail unique_failed, d)
                else (Ok true, set_services d (<[ref := mkServiceRow (Name (svc_Ref spec)) data]> (services d)))
      end
  end.

Definition Service (d : objects) (ref : Ref) : res ServiceSpec :=
  row ← need (services d !! RefString ref) not_found;
  need (unmarshal ServiceSpec_codec (sv_spec row)) json_error.

(** ** Pipes *)
Definition PutPipe (spec : PipeSpec) (ownerKey publishGrant : string) (d : objects) : res bool * objects :=
  match (_ ← PipeValidate spec; marshal PipeSpec_codec spec) with
  | Fail e => (Fail e, d)
  | Ok data =>
      let ref := RefString (p_Ref spec) in
      match pipes d !! ref with
      | Some row =>
          if pp_spec row =s data then
            if publishGrant =s "" then (Ok false, d)
            else (Ok false, set_pipes d (<[ref := mkPipeRow (pp_name row) (pp_pipe_id row) (pp_spec row)
                                                   (pp_owner_key row) publishGrant]> (pipes d)))
          else (Fail (errorf "conflict: already exists with different specification"), d)
      | None =>
          if taken pp_pipe_id (p_PipeID spec) (pipes d) then (Fail unique_failed, d)
          else (Ok true, set_pipes d (<[ref := mkPipeRow (Name (p_Ref spec)) (p_PipeID spec) data ownerKey
                                                publishGrant]> (pipes d)))
      end
  end.

(** [ORDER BY name,pipe_id]. *)
Definition name_order (a b : pipe_row) : Prop :=
  (text_lt (pp_name a) (pp_name b) || (pp_name a =s pp_name b) && text_le (pp_pipe_id a) (pp_pipe_id b)) = true.
#[local] Instance name_order_dec a b : Decision (name_order a b).
Proof. unfold name_order. apply _. Defined.
Fixpoint scan_rows {R A} (scan : R → res A) (rows : list R) : res (list A) :=
  match rows with
  | [] => Ok []
  | row :: rows => value ← scan row; values ← scan_rows scan rows; Ok (value :: values)
  end.
Definition Pipes (d : objects) : res (list PipeSpec) :=
  scan_rows (λ row, need (unmarshal PipeSpec_codec (pp_spec row)) json_error)
    (merge_sort name_order (map snd (map_to_list (pipes d)))).

Definition SetPipePublishGrant (ref grant : string) (d : objects) : res unit * objects :=
  match pipes d !! ref with
  | Some row => (Ok tt, set_pipes d (<[ref := mkPipeRow (pp_name row) (pp_pipe_id row) (pp_spec row)
                                                (pp_owner_key row) grant]> (pipes d)))
  | None => (Fail not_found, d)
  end.

(** [SELECT ... WHERE ref=? OR pipe_id=?]: a row with this reference or, else, one with
    this Pipe identifier. *)
Definition find_pipe (d : objects) (identifier : string) : option pipe_row :=
  match pipes d !! identifier with
  | Some row => Some row
  | None => snd <$> head (List.filter (λ kv, pp_pipe_id kv.2 =s identifier) (map_to_list (pipes d)))
  end.

Definition Pipe (d : objects) (identifier : string) : res (PipeSpec * string * string) :=
  row ← need (find_pipe d identifier) not_found;
  spec ← need (unmarshal PipeSpec_codec (pp_spec row)) json_error;
  Ok (spec, pp_owner_key row, pp_grant row).

(** The scan of the other Pipes for one that targets [ref]. *)
Fixpoint targeted (ref : string) (rows : list (string * pipe_row)) : res unit :=
  match rows with
  | [] => Ok tt
  | (_, row) :: rows =>
      spec ← need (unmarshal PipeSpec_codec (pp_spec row)) json_error;
      _ ← refuse (RefString (p_Target spec) =s ref) (errorf "conflict: is targeted");
      targeted ref rows
  end.

Definition delete_pipe_tx (ref : string) (d : objects) : res (string * objects) :=
  row ← need (pipes d !! ref) not_found;
  _ ← targeted ref (List.filter (λ kv, kv.1 <>s ref) (map_to_list (pipes d)));
  let d := set_sessions d (filter (λ kv, se_pipe_ref kv.2 ≠ ref) (sessions d)) in
  Ok (pp_owner_key row, set_pipes d (delete ref (pipes d))).
Definition DeletePipe (ref : string) (d : objects) : res string * objects := in_tx (delete_pipe_tx ref) d.

Definition delete_service_tx (ref : string) (d : objects) : res (unit * objects) :=
  _ ← need (services d !! ref) not_found;
  _ ← targeted ref (map_to_list (pipes d));
  Ok (tt, set_services d (delete ref (services d))).
Definition DeleteService (ref : string) (d : objects) : res unit * objects := in_tx (delete_service_tx ref) d.

(** ** Sessions *)
Record Session_ := mkSession {
  ss_ID : string; ss_PipeRef : string; ss_Initial : string; ss_Current : string; ss_StartedAt : time;
  ss_In : Z; ss_Out : Z }.

(** On conflict the reference, the first path and the start stay. *)
Definition PutSession (v : Session_) (d : objects) : res unit * objects :=
  let row := match sessions d !! ss_ID v with
             | Some r => mkSessionRow (se_pipe_ref r) (se_initial r) (ss_Current v) (se_started r) (ss_In v) (ss_Out v)
             | None => mkSessionRow (ss_PipeRef v) (ss_Initial v) (ss_Current v) (column_time (ss_StartedAt v))
                         (ss_In v) (ss_Out v)
             end in
  (Ok tt, set_sessions d (<[ss_ID v := row]> (sessions d))).

(** [v.StartedAt, _ = time.Parse(...)]. *)
Definition parse_or_zero (s : string) : time := default zero_time (ParseTime s).

Definition session_of (id : string) (r : session_row) : Session_ :=
  mkSession id (se_pipe_ref r) (se_initial r) (se_current r) (parse_or_zero (se_started r)) (se_in r) (se_out r).
Definition Session (d : objects) (id : string) : res Session_ :=
  r ← need (sessions d !! id) not_found; Ok (session_of id r).

(** [ORDER BY started_at DESC LIMIT 100]. *)
Definition newest_first (a b : string * session_row) : Prop := text_le (se_started b.2) (se_started a.2) = true.
#[local] Instance newest_first_dec a b : Decision (newest_first a b).
Proof. unfold newest_first. apply _. Defined.
Definition Sessions (d : objects) (ref : string) : res (list Session_) :=
  Ok (map (λ kv, session_of kv.1 kv.2)
        (take 100 (merge_sort newest_first (List.filter (λ kv, se_pipe_ref kv.2 =s ref) (map_to_list (sessions d)))))).

(** ** Connect leases of the scoped path *)
Definition PutConnectLease (pipeID scope accessLease refreshLease : string) (expiresAt : time) (d : objects)
    : res unit * objects :=
  if (pipeID =s "") || (scope =s "") || (accessLease =s "") || (refreshLease =s "") || IsZero expiresAt
  then (Fail (errorf "invalid connect lease"), d)
  else (Ok tt, set_connect d (<[pipeID := mkConnectRow scope accessLease refreshLease (column_time expiresAt)]>
                                (connect_leases d))).

Definition ConnectLease (d : objects) (pipeID : string) : res (string * string * string * time) :=
  r ← need (connect_leases d !! pipeID) not_found;
  at_ ← need (ParseTime (cl_expires r)) (errorf "parsing time");
  Ok (cl_scope r, cl_access r, cl_refresh r, at_).

(** ** Accepted remote Pipes ([exact_connection.go]) *)
Definition GetRemotePipeBinding (d : objects) (remotePipeID : string) : res RemotePipeBinding :=
  r ← need (remote_pipe_bindings d !! remotePipeID) not_found;
  created ← need (ParseTime (bd_created r)) (errorf "parsing time");
  updated ← need (ParseTime (bd_updated r)) (errorf "parsing time");
  let b := mkRemoteBinding remotePipeID (bd_authority r) (bd_owner_binding r) (bd_locator r) (bd_recipient r)
             (bd_source r) created updated in
  _ ← relabel (RemotePipeBindingValidate b) (errorf "corrupt remote pipe binding");
  Ok b.

Definition PutRemotePipeBinding (now : time) (b : RemotePipeBinding) (d : objects) : res unit * objects :=
  match RemotePipeBindingValidate b with
  | Fail e => (Fail e, d)
  | Ok _ =>
      let created := if IsZero (rb_CreatedAt b) then UTC now else rb_CreatedAt b in
      (Ok tt, set_bindings d
         (<[RemotePipeID b := mkBindingRow (AuthorityPublic b) (OwnerBindingText b) (Locator b) (RecipientPublic b)
                                (Source b) (column_time created) (column_time (UTC now))]> (remote_pipe_bindings d)))
  end.

Definition DeleteRemotePipeBinding (remotePipeID : string) (d : objects) : res unit * objects :=
  (Ok tt, set_bindings d (delete remotePipeID (remote_pipe_bindings d))).

(** An expired entry is deleted and reported as absent. *)
Definition GetAccessLeaseCache (now : time) (remotePipeID : string) (d : objects)
    : res AccessLeaseCache * objects :=
  match exact_lease_cache d !! remotePipeID with
  | None => (Fail not_found, d)
  | Some r =>
      match ParseTime (lc_expires r) with
      | None => (Fail (errorf "parsing time"), d)
      | Some expires =>
          if IsZero expires || negb (After expires (UTC now))
          then (Fail not_found, set_cache d (delete remotePipeID (exact_lease_cache d)))
          else if (remotePipeID =s "") || (lc_lease r =s "") then (Fail (errorf "corrupt access lease cache"), d)
          else (Ok (mkLeaseCache remotePipeID (lc_lease r) expires), d)
      end
  end.

Definition PutAccessLeaseCache (c : AccessLeaseCache) (d : objects) : res unit * objects :=
  if (c_RemotePipeID c =s "") || (c_AccessLease c =s "") || IsZero (c_ExpiresAt c)
  then (Fail (errorf "invalid access lease cache: missing required fields"), d)
  else (Ok tt, set_cache d (<[c_RemotePipeID c := mkCacheRow (c_AccessLease c) (column_time (c_ExpiresAt c))]>
                              (exact_lease_cache d))).

Definition DeleteAccessLeaseCache (remotePipeID : string) (d : objects) : res unit * objects :=
  (Ok tt, set_cache d (delete remotePipeID (exact_lease_cache d))).
