(* ===== verification/StoreObjectFacts.v ===== *)
(** * Properties of the stored definitions

    A definition is read back as it was stored, is never redefined, keeps its identifier to
    itself and is not deleted while another Pipe targets it; accepted bindings and cached
    leases are read back. *)
From Stdlib Require Import Sorted.
From stdpp Require Import sorting.
From S2P Require Import Prelude GoStrings GoTime Encoding Json JsonRoundTrip JsonTree Domain DomainFacts.
From S2P Require Import StoreRelations StoreSync StoreObjects.
Open Scope Z_scope.

(** ** JSON forms *)
Lemma reads_Ref h r : ascii_text (Kind r) → ascii_text (Name r) → reads Ref_codec (S h) r.
Proof. intros Hk Hn. apply reads_struct; [solve_shape|solve_reads]. Qed.
Lemma reads_Scope h s : ascii_text (Cluster s) → ascii_text (Namespace s) → reads Scope_codec (S h) s.
Proof. intros Hk Hn. apply reads_struct; [solve_shape|solve_reads]. Qed.

Definition wire_ref (r : Ref) : Prop := ascii_text (Kind r) ∧ ascii_text (Name r).
Definition wire_scope (s : Scope) : Prop := ascii_text (Cluster s) ∧ ascii_text (Namespace s).

Record wire_ingress (i : PipeIngress) : Prop := {
  wi_kind : ascii_text (in_Kind i); wi_listen : ascii_text (in_Listen i); wi_host : ascii_text (in_Host i);
  wi_path : ascii_text (in_Path i); wi_protocol : ascii_text (in_Protocol i) }.
Lemma reads_Ingress h i : wire_ingress i → reads PipeIngress_codec (S h) i.
Proof. intros []. apply reads_struct; [solve_shape|solve_reads]. Qed.

(** Seven-bit texts and UTC times. *)
Record wire_pipe (p : PipeSpec) : Prop := {
  wp_ref : wire_ref (p_Ref p); wp_id : ascii_text (p_PipeID p);
  wp_scope : ∀ s, p_Scope p = Some s → wire_scope s;
  wp_ingress : wire_ingress (p_Ingress p); wp_target : wire_ref (p_Target p);
  wp_visibility : ascii_text (p_Visibility p); wp_access : ascii_text (p_Access p);
  wp_created : zone (p_CreatedAt p) = 0 ∧ in_years (p_CreatedAt p);
  wp_updated : zone (p_UpdatedAt p) = 0 ∧ in_years (p_UpdatedAt p) }.

Lemma reads_Scope_pointer h p : (∀ s, p = Some s → wire_scope s) → reads (pointer_codec Scope_codec) (S h) p.
Proof.
  intros Hp. apply reads_pointer. intros s ->. destruct (Hp s eq_refl). split; [by apply reads_Scope|apply struct_not_null].
Qed.
#[export] Hint Resolve reads_Ref reads_Ingress reads_Scope_pointer : codecs.

Lemma reads_Pipe p : wire_pipe p → reads PipeSpec_codec 3 p.
Proof.
  intros [[? ?] ? ? ? [? ?] ? ? [? ?] [? ?]]. apply reads_struct; [solve_shape|solve_reads].
Qed.

(** A map is written in the order of its keys, so it is one list of entries. *)
Definition key_lt (a b : string * string) : Prop := text_lt a.1 b.1 = true.
Definition wire_map (m : list (string * string)) : Prop :=
  StronglySorted key_lt m ∧ Forall (λ kv, ascii_text kv.1 ∧ ascii_text kv.2) m.

Lemma text_lt_ne a b : text_lt a b = true → b ≠ a.
Proof. intros Hl ->. unfold text_lt in Hl. by rewrite bytes_lt_irrefl in Hl. Qed.

Lemma sort_keys_sorted m : StronglySorted key_lt m → sort_keys m = m.
Proof.
  induction 1 as [|kv m Hs IH Hf]; [done|]. unfold sort_keys in *. cbn [foldr]. rewrite IH.
  destruct m as [|x m]; [done|]. cbn [insert_key]. apply Forall_cons in Hf as [Hx _]. unfold key_lt in Hx. by rewrite Hx.
Qed.

Lemma assign_new k v m : (∀ x, x ∈ m → x.1 ≠ k) → assign k v m = m ++ [(k, v)].
Proof.
  induction m as [|x m IH]; intros Hn; [done|]. cbn [assign app].
  rewrite (proj2 (seqb_false _ _)) by (apply Hn; by left). f_equal. apply IH. intros y Hy. apply Hn. by right.
Qed.

Lemma take_entries_sorted m : ∀ acc,
  StronglySorted key_lt (acc ++ m) → take_entries (map (λ kv, (kv.1, jstr kv.2)) m) acc = Some (acc ++ m).
Proof.
  induction m as [|[k v] m IH]; intros acc Hs; cbn [map take_entries jstr fst snd]; [by rewrite app_nil_r|].
  rewrite assign_new.
  - rewrite IH by (by rewrite <- app_assoc). by rewrite <- app_assoc.
  - intros x Hx E. apply list_elem_of_split in Hx as (l1 & l2 & ->). rewrite <- app_assoc in Hs. cbn [app] in Hs.
    clear -Hs E. induction l1 as [|y l1 IH]; cbn [app] in Hs; apply StronglySorted_inv in Hs as [Hs Hf]; [|by apply IH].
    rewrite Forall_forall in Hf. specialize (Hf (k, v) ltac:(set_solver)). apply text_lt_ne in Hf. by cbn in Hf.
Qed.

Lemma reads_map h m : wire_map m → reads map_codec (S h) m.
Proof.
  intros [Hs Ha]. destruct m as [|kv m]; [exists JNull; split; [done|]; split; [constructor|done]|].
  exists (JObj (map (λ kv, (kv.1, jstr kv.2)) (kv :: m))). split.
  - cbn [c_put map_codec]. by rewrite sort_keys_sorted.
  - split.
    + constructor. apply Forall_map. eapply Forall_impl; [exact Ha|]. intros x [Hk Hv]. split; [done|].
      constructor. by apply raw_escaped.
    + intros strict. cbn [c_take map_codec c_zero]. by apply (take_entries_sorted (kv :: m) []).
Qed.
#[export] Hint Resolve reads_map : codecs.

Record wire_service (s : ServiceSpec) : Prop := {
  ws_ref : wire_ref (svc_Ref s); ws_kind : ascii_text (svc_Kind s); ws_target : ascii_text (svc_Target s);
  ws_description : ascii_text (svc_Description s); ws_metadata : wire_map (svc_Metadata s) }.
Lemma reads_Service s : wire_service s → reads ServiceSpec_codec 3 s.
Proof. intros [[? ?] ? ? ? ?]. apply reads_struct; [solve_shape|solve_reads]. Qed.

Lemma pipe_text s : wire_pipe s → ∃ t, marshal PipeSpec_codec s = Ok t ∧ unmarshal PipeSpec_codec t = Some s.
Proof. intros Hs. eapply unmarshal_marshal; [by apply reads_Pipe|]. apply maxNestingDepth_small. lia. Qed.
Lemma service_text s : wire_service s → ∃ t, marshal ServiceSpec_codec s = Ok t ∧ unmarshal ServiceSpec_codec t = Some s.
Proof. intros Hs. eapply unmarshal_marshal; [by apply reads_Service|]. apply maxNestingDepth_small. lia. Qed.

(** ** Sequences of operations *)
Section ops.
Context `{NetParsers}.

Inductive obj_op :=
  | OPutService (spec : ServiceSpec)
  | ODeleteService (ref : string)
  | OPutPipe (spec : PipeSpec) (ownerKey grant : string)
  | OSetGrant (ref grant : string)
  | ODeletePipe (ref : string)
  | OPutSession (v : Session_)
  | OPutBinding (now : time) (b : RemotePipeBinding)
  | ODeleteBinding (id : string)
  | OGetCache (now : time) (id : string)
  | OPutCache (c : AccessLeaseCache)
  | ODeleteCache (id : string)
  | OPutConnectLease (pipeID scope access refresh : string) (expires : time).

Definition exec (o : obj_op) (d : objects) : objects :=
  match o with
  | OPutService spec => (PutService spec d).2
  | ODeleteService ref => (DeleteService ref d).2
  | OPutPipe spec key grant => (PutPipe spec key grant d).2
  | OSetGrant ref grant => (SetPipePublishGrant ref grant d).2
  | ODeletePipe ref => (DeletePipe ref d).2
  | OPutSession v => (PutSession v d).2
  | OPutBinding now b => (PutRemotePipeBinding now b d).2
  | ODeleteBinding id => (DeleteRemotePipeBinding id d).2
  | OGetCache now id => (GetAccessLeaseCache now id d).2
  | OPutCache c => (PutAccessLeaseCache c d).2
  | ODeleteCache id => (DeleteAccessLeaseCache id d).2
  | OPutConnectLease p s a r e => (PutConnectLease p s a r e d).2
  end.
Definition run (os : list obj_op) (d : objects) : objects := fold_left (λ d o, exec o d) os d.

(** A Pipe identifier belongs to one Pipe. *)
Definition ids_unique (d : objects) : Prop :=
  ∀ r1 r2 x1 x2, pipes d !! r1 = Some x1 → pipes d !! r2 = Some x2 → pp_pipe_id x1 = pp_pipe_id x2 → r1 = r2.

(** The same Pipe, up to its grant. *)
Definition same_pipe (x y : pipe_row) : Prop :=
  pp_name x = pp_name y ∧ pp_pipe_id x = pp_pipe_id y ∧ pp_spec x = pp_spec y ∧ pp_owner_key x = pp_owner_key y.
#[local] Instance same_pipe_preorder : PreOrder same_pipe.
Proof. split; [by intros x|]. intros x y z (? & ? & ? & ?) (? & ? & ? & ?). unfold same_pipe. intuition congruence. Qed.

Definition targets (row : pipe_row) (t : string) : Prop :=
  ∃ spec, unmarshal PipeSpec_codec (pp_spec row) = Some spec ∧ RefString (p_Target spec) = t.
Definition defined (d : objects) (t : string) : Prop := is_Some (services d !! t) ∨ is_Some (pipes d !! t).

Lemma taken_false {R} (col : R → string) v (t : gmap string R) :
  taken col v t = false ↔ ∀ k x, t !! k = Some x → col x ≠ v.
Proof.
  unfold taken. rewrite <- not_true_iff_false, existsb_exists. split.
  - intros Hn k x Hk E. apply Hn. exists (k, x). split; [|by apply seqb_true].
    by apply list_elem_of_In, elem_of_map_to_list.
  - intros Hn ([k x] & Hk & E). apply list_elem_of_In, elem_of_map_to_list in Hk.
    apply seqb_true in E. by apply (Hn k x).
Qed.

Lemma targeted_ok ref rows u :
  targeted ref rows = Ok u → ∀ k x, (k, x) ∈ rows → ¬ targets x ref.
Proof.
  induction rows as [|[k x] rows IH]; cbn [targeted]; intros Ht k' x' Hin; [set_solver|]. res_inv.
  apply elem_of_cons in Hin as [[= -> ->]|Hin]; [|by eapply IH].
  intros (spec & Hs & E). by simplify_eq.
Qed.

(** What one operation can do to the tables of definitions. *)
Definition frame (d d' : objects) (o : obj_op) : Prop :=
  (ids_unique d → ids_unique d') ∧
  (∀ r x, pipes d !! r = Some x → o ≠ ODeletePipe r → ∃ y, pipes d' !! r = Some y ∧ same_pipe x y) ∧
  (∀ r x t, pipes d !! r = Some x → o ≠ ODeletePipe r → targets x t → defined d t → defined d' t).

Lemma frame_same d d' o : pipes d' = pipes d → services d' = services d → frame d d' o.
Proof.
  intros Hp Hs. unfold frame, ids_unique, defined. rewrite Hp, Hs. split_and!; [done| |done]. intros r x Hr _. by exists x.
Qed.

Lemma frame_grant d r x y o :
  pipes d !! r = Some x → same_pipe x y → frame d (set_pipes d (<[r := y]> (pipes d))) o.
Proof.
  intros Hr (H1 & H2 & H3 & H4). unfold frame, defined. cbn [pipes services set_pipes]. split_and!.
  - intros Hu r1 r2 x1 x2 E1 E2 E. cbn [pipes set_pipes] in *.
    assert (L : ∀ k z, <[r := y]> (pipes d) !! k = Some z → ∃ z', pipes d !! k = Some z' ∧ pp_pipe_id z' = pp_pipe_id z).
    { intros k z Hk. destruct (decide (k = r)) as [->|].
      - rewrite lookup_insert_eq in Hk. simplify_eq. eauto.
      - rewrite lookup_insert_ne in Hk by done. eauto. }
    destruct (L _ _ E1) as (z1 & Z1 & I1), (L _ _ E2) as (z2 & Z2 & I2). by apply (Hu r1 r2 z1 z2); [..|congruence].
  - intros k z Hk _. destruct (decide (k = r)) as [->|].
    + rewrite lookup_insert_eq. simplify_eq. by exists y.
    + rewrite lookup_insert_ne by done. by exists z.
  - intros k z t Hk _ _ [|[u Hu]]; [by left|right]. destruct (decide (t = r)) as [->|].
    + rewrite lookup_insert_eq. eauto.
    + rewrite lookup_insert_ne by done. eauto.
Qed.

Lemma frame_new d r y o :
  pipes d !! r = None → taken pp_pipe_id (pp_pipe_id y) (pipes d) = false →
  frame d (set_pipes d (<[r := y]> (pipes d))) o.
Proof.
  intros Hr Ht. rewrite taken_false in Ht. unfold frame, defined. cbn [pipes services set_pipes]. split_and!.
  - intros Hu r1 r2 x1 x2 E1 E2 E. cbn [pipes set_pipes] in *.
    apply lookup_insert_Some in E1 as [[? ?]|[? E1]], E2 as [[? ?]|[? E2]]; subst; [done| | |by eapply Hu].
    + by destruct (Ht _ _ E2).
    + by destruct (Ht _ _ E1).
  - intros k z Hk _. exists z. by rewrite lookup_insert_ne by congruence.
  - intros k z t Hk _ _ [|[u Hu]]; [by left|right]. rewrite lookup_insert_ne by congruence. eauto.
Qed.

Lemma frame_delete_pipe d ref : frame d (DeletePipe ref d).2 (ODeletePipe ref).
Proof.
  unfold DeletePipe, in_tx. destruct (delete_pipe_tx ref d) as [[key d']|e] eqn:Ed; [|by apply frame_same].
  unfold delete_pipe_tx in Ed. res_inv. cbn [snd]. unfold frame, defined. cbn [pipes services set_pipes set_sessions]. split_and!.
  - intros Hu r1 r2 x1 x2 E1 E2. cbn [pipes set_pipes set_sessions] in *.
    apply lookup_delete_Some in E1 as [? ?], E2 as [? ?]. by eapply Hu.
  - intros k z Hk Hne. exists z. by rewrite lookup_delete_ne by congruence.
  - intros k z t Hk Hne Ht [|Hd]; [by left|right]. rewrite lookup_delete_ne; [done|]. intros <-.
    match goal with E : targeted _ _ = Ok _ |- _ => apply (targeted_ok _ _ _ E k z) in Ht; [done|] end.
    apply list_elem_of_In, filter_In. split; [by apply list_elem_of_In, elem_of_map_to_list|].
    cbn [fst]. apply negb_true_iff, seqb_false. congruence.
Qed.

Lemma frame_delete_service d ref : frame d (DeleteService ref d).2 (ODeleteService ref).
Proof.
  unfold DeleteService, in_tx. destruct (delete_service_tx ref d) as [[key d']|e] eqn:Ed; [|by apply frame_same].
  unfold delete_service_tx in Ed. res_inv. cbn [snd]. unfold frame, defined. cbn [pipes services set_services]. split_and!.
  - done.
  - intros k z Hk _. by exists z.
  - intros k z t Hk _ Ht [Hd|]; [left|by right]. rewrite lookup_delete_ne; [done|]. intros <-.
    match goal with E : targeted _ _ = Ok _ |- _ => apply (targeted_ok _ _ _ E k z) in Ht; [done|] end.
    by apply elem_of_map_to_list.
Qed.

Lemma exec_frame o d : frame d (exec o d) o.
Proof.
  destruct o; cbn [exec]; try apply frame_delete_pipe; try apply frame_delete_service; try by apply frame_same.
  - unfold PutService. repeat case_match; try by apply frame_same. unfold frame, defined.
    cbn [snd pipes services set_services]. split_and!; [done|intros k z Hk _; by exists z|].
    intros k z t _ _ _ [[u Hu]|]; [left|by right]. rewrite lookup_insert_ne by congruence. eauto.
  - unfold PutPipe. repeat case_match; try by apply frame_same.
    + cbn [snd]. by eapply frame_grant.
    + cbn [snd]. by apply frame_new.
  - unfold SetPipePublishGrant. case_match; [|by apply frame_same]. cbn [snd]. by eapply frame_grant.
  - unfold PutRemotePipeBinding. case_match; by apply frame_same.
  - unfold GetAccessLeaseCache. repeat case_match; by apply frame_same.
  - unfold PutAccessLeaseCache. case_match; by apply frame_same.
  - unfold PutConnectLease. case_match; by apply frame_same.
Qed.

Lemma run_app os os' d : run (os ++ os') d = run os' (run os d).
Proof. apply fold_left_app. Qed.

Lemma run_keeps os d : ∀ r x,
  pipes d !! r = Some x → ODeletePipe r ∉ os →
  (ids_unique d → ids_unique (run os d)) ∧
  (∃ y, pipes (run os d) !! r = Some y ∧ same_pipe x y) ∧
  (∀ t, targets x t → defined d t → defined (run os d) t).
Proof.
  revert d. induction os as [|o os IH]; intros d r x Hr Hn; [split_and!; [done|by exists x|done]|].
  apply not_elem_of_cons in Hn as [Hne Hn]. destruct (exec_frame o d) as (Hu & Hk & Ht).
  destruct (Hk r x Hr) as (y & Hy & Hs); [congruence|].
  destruct (IH (exec o d) r y Hy Hn) as (Hu' & (z & Hz & Hs') & Ht').
  change (run (o :: os) d) with (run os (exec o d)). split_and!.
  - by auto.
  - exists z. split; [done|]. by etrans.
  - intros t Hx Hd. apply Ht'; [|eapply Ht; [done|congruence|done|done]].
    destruct Hx as (spec & Hx & E). destruct Hs as (_ & _ & Hs & _). exists spec. by rewrite <- Hs.
Qed.

Lemma run_unique os d : ids_unique d → ids_unique (run os d).
Proof.
  revert d. induction os as [|o os IH]; intros d Hu; [done|]. change (run (o :: os) d) with (run os (exec o d)).
  apply IH. by apply (exec_frame o d).
Qed.

(** The rows of the table of Pipes are under references of the form pipe/... *)
Definition named (d : objects) : Prop := ∀ r x, pipes d !! r = Some x → HasPrefix r "pipe/" = true.

Lemma pipe_reference spec : PipeValidate spec = Ok tt → HasPrefix (RefString (p_Ref spec)) "pipe/" = true.
Proof.
  intros Hv. apply bind_ok in Hv as (u & Hk & _). apply bind_ok in Hk as (v & _ & Hk).
  destruct (p_Ref spec) as [kind name]. cbn [Kind] in Hk. unfold refuse in Hk.
  destruct (kind =s KindPipe) eqn:E; [|done]. apply seqb_true in E as ->. unfold RefString. by destruct name.
Qed.

Lemma named_insert d r y : named d → HasPrefix r "pipe/" = true → named (set_pipes d (<[r := y]> (pipes d))).
Proof. intros Hd Hr k x Hk. cbn [pipes set_pipes] in Hk. apply lookup_insert_Some in Hk as [[<- _]|[_ Hk]]; eauto. Qed.

Lemma named_same d d' : pipes d' = pipes d → named d → named d'.
Proof. intros E Hd r x Hr. rewrite E in Hr. eauto. Qed.

Lemma exec_named o d : named d → named (exec o d).
Proof.
  intros Hd. destruct o; cbn [exec]; try (by apply (named_same d)).
  - unfold PutService. by repeat case_match; apply (named_same d).
  - unfold DeleteService, in_tx. destruct (delete_service_tx ref d) as [[key d']|e] eqn:Ed; [|done].
    unfold delete_service_tx in Ed. res_inv. by apply (named_same d).
  - unfold PutPipe. destruct (PipeValidate spec) as [[]|] eqn:Hv; [|done]. cbn [mbind res_bind]. apply pipe_reference in Hv.
    repeat case_match; try done; cbn [snd]; by apply named_insert.
  - unfold SetPipePublishGrant. case_match; [|done]. cbn [snd]. apply named_insert; eauto.
  - unfold DeletePipe, in_tx. destruct (delete_pipe_tx ref d) as [[key d']|e] eqn:Ed; [|done].
    unfold delete_pipe_tx in Ed. res_inv. intros r y Hr. cbn [snd pipes set_pipes set_sessions] in Hr.
    apply lookup_delete_Some in Hr as [_ Hr]. eauto.
  - unfold PutRemotePipeBinding. by case_match; apply (named_same d).
  - unfold GetAccessLeaseCache. by repeat case_match; apply (named_same d).
  - unfold PutAccessLeaseCache. by case_match; apply (named_same d).
  - unfold PutConnectLease. by case_match; apply (named_same d).
Qed.

Lemma run_named os d : named d → named (run os d).
Proof.
  revert d. induction os as [|o os IH]; intros d Hd; [done|]. change (run (o :: os) d) with (run os (exec o d)).
  by apply IH, exec_named.
Qed.

Lemma named_none d id : named d → HasPrefix id "pipe/" = false → pipes d !! id = None.
Proof. intros Hd Hi. destruct (pipes d !! id) eqn:E; [|done]. apply Hd in E. congruence. Qed.

(** ** Reading back *)
Lemma find_pipe_ref d r x : pipes d !! r = Some x → find_pipe d r = Some x.
Proof. unfold find_pipe. by intros ->. Qed.

Lemma find_pipe_id d r x :
  ids_unique d → pipes d !! r = Some x → pipes d !! pp_pipe_id x = None → find_pipe d (pp_pipe_id x) = Some x.
Proof.
  intros Hu Hr Hn. unfold find_pipe. rewrite Hn.
  destruct (List.filter _ _) as [|[k y] l] eqn:E.
  - assert (Hin : In (r, x) []); [|by destruct Hin]. rewrite <- E. apply filter_In. split; [|apply seqb_refl].
    by apply list_elem_of_In, elem_of_map_to_list.
  - cbn [head fmap option_fmap option_map snd].
    assert (Hin : In (k, y) ((k, y) :: l)) by by left. rewrite <- E in Hin. apply filter_In in Hin as [Hin Hid].
    apply list_elem_of_In, elem_of_map_to_list in Hin. cbn [snd] in Hid. apply seqb_true in Hid.
    assert (k = r) as -> by (by apply (Hu k r y x)). by simplify_eq.
Qed.

Lemma find_pipe_none d id : find_pipe d id = None → pipes d !! id = None ∧ taken pp_pipe_id id (pipes d) = false.
Proof.
  unfold find_pipe. destruct (pipes d !! id) eqn:E; [done|]. intros Hf. split; [done|]. unfold taken.
  destruct (existsb _ _) eqn:Ex; [|done]. apply existsb_exists in Ex as (kv & Hin & Hid).
  destruct (List.filter _ _) as [|x l] eqn:El; [|done].
  assert (In kv []) as []. rewrite <- El. by apply filter_In.
Qed.

Lemma PutPipe_row spec key grant d created d' :
  PutPipe spec key grant d = (Ok created, d') →
  ∃ text x, marshal PipeSpec_codec spec = Ok text ∧ pipes d' !! RefString (p_Ref spec) = Some x ∧ pp_spec x = text ∧
    (created = true → pp_owner_key x = key ∧ pp_pipe_id x = p_PipeID spec ∧ pp_grant x = grant ∧
                      pipes d !! RefString (p_Ref spec) = None).
Proof.
  unfold PutPipe. destruct (PipeValidate spec); [|done]. cbn [mbind res_bind].
  destruct (marshal PipeSpec_codec spec) as [text|]; [|done]. cbv zeta.
  destruct (pipes d !! RefString (p_Ref spec)) as [row|] eqn:Er.
  - destruct (pp_spec row =s text) eqn:Es; [|done]. apply seqb_true in Es.
    destruct (grant =s ""); intros [= <- <-]; eexists text, _; (split; [done|]).
    + split; [exact Er|]. done.
    + cbn [pipes set_pipes]. rewrite lookup_insert_eq. done.
  - destruct (taken _ _ _); [done|]. intros [= <- <-]. eexists text, _. split; [done|].
    cbn [pipes set_pipes]. rewrite lookup_insert_eq. done.
Qed.

Lemma Pipe_stored d r x spec text :
  pipes d !! r = Some x → pp_spec x = text → wire_pipe spec → marshal PipeSpec_codec spec = Ok text →
  Pipe d r = Ok (spec, pp_owner_key x, pp_grant x).
Proof.
  intros Hr <- Hw Hm. destruct (pipe_text spec Hw) as (t & Ht & Hu). rewrite Hm in Ht. apply Ok_inj in Ht as <-.
  unfold Pipe. apply bind_ok. exists x. split; [by apply need_ok, find_pipe_ref|].
  apply bind_ok. exists spec. split; [by apply need_ok|reflexivity].
Qed.

Lemma validate_times b t u :
  RemotePipeBindingValidate (mkRemoteBinding (RemotePipeID b) (AuthorityPublic b) (OwnerBindingText b) (Locator b)
    (RecipientPublic b) (Source b) t u) = RemotePipeBindingValidate b.
Proof. by destruct b. Qed.

Lemma UTC_utc t : zone t = 0 → UTC t = t.
Proof. destruct t. cbn. by intros ->. Qed.
Lemma column_time_read t : in_years (UTC t) → ParseTime (column_time t) = Some (UTC t).
Proof. intros Hy. unfold column_time. by apply ParseTime_RFC3339Nano. Qed.

Lemma GetRemotePipeBinding_row d id r created updated :
  remote_pipe_bindings d !! id = Some r → ParseTime (bd_created r) = Some created →
  ParseTime (bd_updated r) = Some updated →
  let b := mkRemoteBinding id (bd_authority r) (bd_owner_binding r) (bd_locator r) (bd_recipient r) (bd_source r)
             created updated in
  RemotePipeBindingValidate b = Ok tt → GetRemotePipeBinding d id = Ok b.
Proof.
  intros Hr Hc Hu b Hv. unfold GetRemotePipeBinding. rewrite Hr. cbn [need mbind res_bind]. rewrite Hc.
  cbn [need mbind res_bind]. rewrite Hu. cbn [need mbind res_bind]. fold b. by rewrite Hv.
Qed.

Lemma need_fail {A} (o : option A) e e' : need o e = Fail e' → o = None ∧ e' = e.
Proof. destruct o; naive_solver. Qed.

(** ** Listing

    Every row holds the definition whose identifier is in its column, with a valid scope. *)
Definition row_holds (row : pipe_row) : Prop :=
  ∃ spec, unmarshal PipeSpec_codec (pp_spec row) = Some spec ∧ p_PipeID spec = pp_pipe_id row ∧
    (∀ s, p_Scope spec = Some s → ScopeValidate s = Ok tt).
Definition stored_pipes (d : objects) : Prop := ids_unique d ∧ ∀ r x, pipes d !! r = Some x → row_holds x.

(** The definitions that are put are of seven-bit text in UTC. *)
Definition plain_op (o : obj_op) : Prop := match o with OPutPipe spec _ _ => wire_pipe spec | _ => True end.

Lemma PipeValidate_scope spec s : PipeValidate spec = Ok tt → p_Scope spec = Some s → ScopeValidate s = Ok tt.
Proof.
  unfold PipeValidate. intros Hv Hs. rewrite Hs in Hv. apply bind_ok in Hv as (u1 & _ & Hv). apply bind_ok in Hv as (u2 & _ & Hv).
  apply bind_ok in Hv as (u3 & _ & Hv). apply bind_ok in Hv as (u4 & _ & Hv). apply bind_ok in Hv as ([] & Hv & _). done.
Qed.

Lemma holds_insert d r y :
  (∀ k x, pipes d !! k = Some x → row_holds x) → row_holds y →
  ∀ k x, pipes (set_pipes d (<[r := y]> (pipes d))) !! k = Some x → row_holds x.
Proof. intros Hd Hy k x Hk. cbn [pipes set_pipes] in Hk. apply lookup_insert_Some in Hk as [[_ <-]|[_ Hk]]; eauto. Qed.

Lemma exec_holds o d :
  plain_op o → (∀ k x, pipes d !! k = Some x → row_holds x) → ∀ k x, pipes (exec o d) !! k = Some x → row_holds x.
Proof.
  intros Ho Hd. destruct o; cbn [exec]; try done.
  - unfold PutService. by repeat case_match.
  - unfold DeleteService, in_tx. destruct (delete_service_tx ref d) as [[key d']|e] eqn:Ed; [|done].
    unfold delete_service_tx in Ed. res_inv. done.
  - unfold PutPipe. destruct (PipeValidate spec) as [[]|] eqn:Hv; [|done]. cbn [mbind res_bind].
    destruct (pipe_text spec Ho) as (t & Hm & Hu). rewrite Hm. cbv zeta. repeat case_match; try done; cbn [snd].
    + apply holds_insert; [done|]. match goal with E : pipes d !! _ = Some _ |- _ => destruct (Hd _ _ E) as (spec' & Hs & Hi) end.
      by exists spec'.
    + apply holds_insert; [done|]. exists spec. split_and!; [done|done|]. intros sc. by apply PipeValidate_scope.
  - unfold SetPipePublishGrant. case_match; [|done]. cbn [snd]. apply holds_insert; [done|].
    match goal with E : pipes d !! _ = Some _ |- _ => destruct (Hd _ _ E) as (spec' & Hs & Hi) end. by exists spec'.
  - unfold DeletePipe, in_tx. destruct (delete_pipe_tx ref d) as [[key d']|e] eqn:Ed; [|done].
    unfold delete_pipe_tx in Ed. res_inv. intros k y Hk. cbn [snd pipes set_pipes set_sessions] in Hk.
    apply lookup_delete_Some in Hk as [_ Hk]. eauto.
  - unfold PutRemotePipeBinding. by case_match.
  - unfold GetAccessLeaseCache. by repeat case_match.
  - unfold PutAccessLeaseCache. by case_match.
  - unfold PutConnectLease. by case_match.
Qed.

Lemma run_stored os d : Forall plain_op os → stored_pipes d → stored_pipes (run os d).
Proof.
  intros Hos [Hu Hd]. split; [by apply run_unique|]. revert d Hu Hd. induction Hos as [|o os Ho _ IH]; intros d Hu Hd; [done|].
  change (run (o :: os) d) with (run os (exec o d)). apply IH; [by apply (exec_frame o d)|]. by apply exec_holds.
Qed.

Lemma scan_rows_ok {R A} (f : R → option A) e rows l :
  scan_rows (λ row, need (f row) e) rows = Ok l → Forall2 (λ row v, f row = Some v) rows l.
Proof.
  revert l. induction rows as [|row rows IH]; intros l E; cbn [scan_rows] in E.
  { apply Ok_inj in E. subst l. constructor. }
  apply bind_ok in E as (v & Hv%need_ok & E). apply bind_ok in E as (vs & Hvs & E). apply Ok_inj in E. subst l.
  constructor; [done|by apply IH].
Qed.

Lemma unique_rows d : ids_unique d → NoDup (map pp_pipe_id (map snd (map_to_list (pipes d)))).
Proof.
  intros Hu. rewrite List.map_map. pose proof (NoDup_map_to_list (pipes d)) as Hn.
  assert (Hin : ∀ kv, kv ∈ map_to_list (pipes d) → pipes d !! kv.1 = Some kv.2).
  { intros [k x]. by rewrite elem_of_map_to_list. }
  induction Hn as [|[k x] l Hnot Hn IH]; [constructor|]. cbn [map]. constructor.
  - intros ([k' x'] & E & Hk)%list_elem_of_fmap. apply Hnot. pose proof (Hin (k, x) ltac:(by left)) as H1.
    pose proof (Hin (k', x') ltac:(by right)) as H2. cbn in E, H1, H2. assert (k = k') as <- by (by apply (Hu k k' x x')).
    by simplify_eq.
  - apply IH. intros kv Hkv. apply Hin. by right.
Qed.

(** The list has an entry for every Pipe, and no identifier twice. *)
Lemma Pipes_listed d l :
  stored_pipes d → Pipes d = Ok l →
  NoDup (map p_PipeID l) ∧ (∀ spec, spec ∈ l → ∀ s, p_Scope spec = Some s → ScopeValidate s = Ok tt) ∧
  (∀ spec, spec ∈ l ↔ ∃ r x, pipes d !! r = Some x ∧ unmarshal PipeSpec_codec (pp_spec x) = Some spec).
Proof.
  intros [Hu Hd] Hl. unfold Pipes in Hl. apply (scan_rows_ok (λ row, unmarshal PipeSpec_codec (pp_spec row))) in Hl.
  set (rows := merge_sort name_order (map snd (map_to_list (pipes d)))) in Hl.
  assert (Hperm : rows ≡ₚ map snd (map_to_list (pipes d))) by apply merge_sort_Permutation.
  assert (Hin : ∀ x, x ∈ rows ↔ ∃ r, pipes d !! r = Some x).
  { intros x. rewrite Hperm, list_elem_of_fmap. split.
    - intros ([k y] & -> & Hk). exists k. by apply elem_of_map_to_list.
    - intros [k Hk]. exists (k, x). split; [done|]. by apply elem_of_map_to_list. }
  assert (Hrow : ∀ x, x ∈ rows → row_holds x) by (intros x [r Hr]%Hin; by eapply Hd).
  split_and!.
  - assert (E : map p_PipeID l = map pp_pipe_id rows).
    { clear -Hl Hrow. induction Hl as [|row spec rows l Hs _ IH]; [done|]. cbn [map].
      destruct (Hrow row ltac:(by left)) as (spec' & Hs' & Hi & _). rewrite Hs in Hs'. injection Hs' as <-.
      rewrite Hi. f_equal. apply IH. intros x Hx. apply Hrow. by right. }
    rewrite E, Hperm. by apply unique_rows.
  - intros spec (i & Hi)%list_elem_of_lookup s Hs. destruct (Forall2_lookup_r _ _ _ _ _ Hl Hi) as (row & Hr & Hx).
    destruct (Hrow row ltac:(by eapply list_elem_of_lookup_2)) as (spec' & Hs' & _ & Hv). rewrite Hx in Hs'. injection Hs' as <-. eauto.
  - intros spec. split.
    + intros (i & Hi)%list_elem_of_lookup. destruct (Forall2_lookup_r _ _ _ _ _ Hl Hi) as (row & Hr & Hx).
      apply list_elem_of_lookup_2, Hin in Hr as [r Hr]. eauto.
    + intros (r & x & Hr & Hx). assert (Hx' : x ∈ rows) by (apply Hin; eauto). apply list_elem_of_lookup in Hx' as [i Hi].
      destruct (Forall2_lookup_l _ _ _ _ _ Hl Hi) as (spec' & Hs & Hx'). rewrite Hx in Hx'. injection Hx' as <-.
      by eapply list_elem_of_lookup_2.
Qed.

(** A Pipe that is not found is not there. *)
Lemma Pipe_absent d id e : Pipe d id = Fail e → errors_Is e ErrNotFound = true → find_pipe d id = None.
Proof.
  unfold Pipe. intros [Hf|(row & _ & Hf)]%bind_fail He; [by apply need_fail in Hf as [? _]|].
  apply bind_fail in Hf as [Hf|(spec & _ & Hf)]; [|by inversion Hf]. apply need_fail in Hf as [_ ->]. by vm_compute in He.
Qed.

(** The binding of an accepted Pipe is read back, with the times of the write. *)
Lemma binding_stored now b d :
  RemotePipeBindingValidate b = Ok tt → IsZero (rb_CreatedAt b) = false → zone (rb_CreatedAt b) = 0 →
  in_years (rb_CreatedAt b) → in_years (UTC now) →
  ∃ d', PutRemotePipeBinding now b d = (Ok tt, d') ∧ pipes d' = pipes d ∧ exact_lease_cache d' = exact_lease_cache d ∧
  GetRemotePipeBinding d' (RemotePipeID b) =
    Ok (mkRemoteBinding (RemotePipeID b) (AuthorityPublic b) (OwnerBindingText b) (Locator b) (RecipientPublic b)
          (Source b) (rb_CreatedAt b) (UTC now)).
Proof.
  intros Hv Hz Hc Hy Hn. unfold PutRemotePipeBinding. rewrite Hv, Hz. eexists. split; [reflexivity|]. split; [done|].
  split; [done|].
  eapply (GetRemotePipeBinding_row _ _ (mkBindingRow (AuthorityPublic b) (OwnerBindingText b) (Locator b)
            (RecipientPublic b) (Source b) (column_time (rb_CreatedAt b)) (column_time (UTC now)))).
  - cbn [remote_pipe_bindings set_bindings]. by rewrite lookup_insert_eq.
  - cbn [bd_created]. rewrite column_time_read by (by rewrite UTC_utc). by rewrite UTC_utc.
  - cbn [bd_updated]. by rewrite column_time_read.
  - cbn [bd_authority bd_owner_binding bd_locator bd_recipient bd_source]. by rewrite (validate_times b).
Qed.

(** A cached lease is returned until it expires, then never again. *)
Lemma cache_stored now c d :
  c_RemotePipeID c ≠ "" → c_AccessLease c ≠ "" → IsZero (c_ExpiresAt c) = false → zone (c_ExpiresAt c) = 0 →
  in_years (c_ExpiresAt c) →
  ∃ d', PutAccessLeaseCache c d = (Ok tt, d') ∧ pipes d' = pipes d ∧
  remote_pipe_bindings d' = remote_pipe_bindings d ∧
  GetAccessLeaseCache now (c_RemotePipeID c) d' =
    if After (c_ExpiresAt c) now then (Ok c, d')
    else (Fail not_found, set_cache d' (delete (c_RemotePipeID c) (exact_lease_cache d'))).
Proof.
  intros Hi Hl Hz Hc Hy. unfold PutAccessLeaseCache.
  rewrite (proj2 (seqb_false _ _) Hi), (proj2 (seqb_false _ _) Hl), Hz. cbn [orb]. eexists. split; [reflexivity|].
  split; [done|]. split; [done|]. unfold GetAccessLeaseCache. cbn [exact_lease_cache set_cache].
  rewrite lookup_insert_eq. cbn [lc_expires lc_lease].
  rewrite column_time_read by (by rewrite UTC_utc). rewrite (UTC_utc (c_ExpiresAt c)), Hz by done.
  change (After (c_ExpiresAt c) (UTC now)) with (After (c_ExpiresAt c) now).
  destruct (After (c_ExpiresAt c) now); cbn [orb negb]; [|done].
  rewrite (proj2 (seqb_false _ _) Hi), (proj2 (seqb_false _ _) Hl). cbn [orb]. by destruct c.
Qed.

(** Putting the same definition again changes nothing. *)
Lemma PutService_again spec d c d' d'' :
  PutService spec d = (Ok c, d') → services d'' = services d' → PutService spec d'' = (Ok false, d'').
Proof.
  unfold PutService. intros Hp Hs. destruct (_ ← ServiceValidate spec; _) as [text|e]; [|done]. cbv zeta in *. rewrite Hs.
  destruct (services d !! RefString (svc_Ref spec)) as [row|] eqn:Er.
  - destruct (sv_spec row =s text) eqn:Et; [|done]. injection Hp as <- <-. by rewrite Er, Et.
  - destruct (taken _ _ _); [done|]. injection Hp as <- <-. cbn [services set_services].
    rewrite lookup_insert_eq. cbn [sv_spec]. by rewrite seqb_refl.
Qed.

Lemma PutPipe_again spec key key' d c d' : PutPipe spec key "" d = (Ok c, d') → PutPipe spec key' "" d' = (Ok false, d').
Proof.
  intros Hp. destruct (PutPipe_row _ _ _ _ _ _ Hp) as (text & x & Hm & Hx & Ht & _).
  unfold PutPipe in *. destruct (PipeValidate spec); [|done]. cbn [mbind res_bind] in *. rewrite Hm. cbv zeta.
  rewrite Hx, Ht, seqb_refl. done.
Qed.

Lemma PutService_pipes spec d : pipes (PutService spec d).2 = pipes d.
Proof. unfold PutService. by repeat case_match. Qed.
Lemma PutPipe_services spec key grant d : services (PutPipe spec key grant d).2 = services d.
Proof. unfold PutPipe. by repeat case_match. Qed.

(** What is defined stays defined. *)
Lemma definitions_kept os d r x :
  ids_unique d → pipes d !! r = Some x → ODeletePipe r ∉ os →
  ids_unique (run os d) ∧
  (∃ y, pipes (run os d) !! r = Some y ∧ same_pipe x y) ∧
  (∀ t, targets x t → defined d t → defined (run os d) t).
Proof. intros Hu Hr Hn. destruct (run_keeps os d r x Hr Hn) as (H1 & H2 & H3). split_and!; auto. Qed.

(** What is put is read back. *)
Lemma pipe_roundtrip spec key grant d created d' os :
  ids_unique d → named d → PutPipe spec key grant d = (Ok created, d') → wire_pipe spec →
  ODeletePipe (RefString (p_Ref spec)) ∉ os →
  ∃ key' grant',
    Pipe (run os d') (RefString (p_Ref spec)) = Ok (spec, key', grant') ∧
    (created = true → key' = key ∧
       (HasPrefix (p_PipeID spec) "pipe/" = false → Pipe (run os d') (p_PipeID spec) = Ok (spec, key', grant'))).
Proof.
  intros Hu Hnm Hp Hw Hn. pose proof (exec_named (OPutPipe spec key grant) d Hnm) as Hnm'. cbn [exec] in Hnm'.
  rewrite Hp in Hnm'. cbn [snd] in Hnm'. pose proof (proj1 (exec_frame (OPutPipe spec key grant) d) Hu) as Hu'. cbn [exec] in Hu'.
  rewrite Hp in Hu'. cbn [snd] in Hu'. destruct (PutPipe_row _ _ _ _ _ _ Hp) as (text & x & Hm & Hx & Ht & Hc).
  destruct (run_keeps os d' _ _ Hx Hn) as (Hu'' & (y & Hy & Hs1 & Hs2 & Hs3 & Hs4) & _).
  exists (pp_owner_key y), (pp_grant y). assert (Hyt : pp_spec y = text) by congruence.
  pose proof (Pipe_stored _ _ _ _ _ Hy Hyt Hw Hm) as Hread. split; [done|]. intros ->. destruct (Hc eq_refl) as (Hk & Hid & _ & _).
  split; [congruence|]. intros Hnone%(named_none _ _ (run_named os d' Hnm')). assert (Hpid : pp_pipe_id y = p_PipeID spec) by congruence.
  unfold Pipe in *. rewrite (find_pipe_ref _ _ _ Hy) in Hread. rewrite <- Hpid in *.
  by rewrite (find_pipe_id _ _ _ (Hu'' Hu') Hy Hnone).
Qed.

(** C37: the store keeps what was defined, from any state that [PutPipe] and the other
    operations can reach from the empty store (no two Pipes share an identifier, and the
    references of Pipes are of the form pipe/...; both hold of every later state). Over any
    sequence of operations a Pipe that is not deleted itself keeps its definition, its
    identifier and its key file, whatever else is put under its reference; and whatever it
    targets and is defined stays defined. A definition with seven-bit texts and UTC times of
    the years 0 to 9999 ([wire_pipe]) that was put is returned by every later read by its
    reference, whatever happens in between short of its deletion. When that put created the
    Pipe, it is returned with the key file of the put, and every later read by its
    identifier returns the same, unless the identifier is itself of the form of a reference
    pipe/..., which a read takes for the reference. *)
Theorem definitions_persist os d :
  ids_unique d → named d →
  (ids_unique (run os d) ∧ named (run os d)) ∧
  (∀ r x, pipes d !! r = Some x → ODeletePipe r ∉ os →
     (∃ y, pipes (run os d) !! r = Some y ∧ same_pipe x y) ∧
     (∀ t, targets x t → defined d t → defined (run os d) t)) ∧
  (∀ spec key grant created d', PutPipe spec key grant d = (Ok created, d') → wire_pipe spec →
     ODeletePipe (RefString (p_Ref spec)) ∉ os →
     ∃ key' grant',
       Pipe (run os d') (RefString (p_Ref spec)) = Ok (spec, key', grant') ∧
       (created = true → key' = key ∧
          (HasPrefix (p_PipeID spec) "pipe/" = false → Pipe (run os d') (p_PipeID spec) = Ok (spec, key', grant')))).
Proof.
  intros Hu Hn. split_and!.
  - by apply run_unique.
  - by apply run_named.
  - intros r x Hr Hd. by apply (definitions_kept os d r x Hu Hr Hd).
  - intros. by eapply pipe_roundtrip.
Qed.
End ops.

(** ** Samples *)
Definition sample_day : time := mkTime (1767225600 * Second) 0.
Definition sample_parsers : NetParsers := {|
  url_Parse _ := Some (mkURL "http" "127.0.0.1:80"); SplitHostPort s := Some (s, "80") |}.
Definition sample_service : ServiceSpec := mkService (mkRef KindService "web") ServiceHTTP "http://127.0.0.1:80" "" [].
Definition sample_pipe (name : string) (target : Ref) : PipeSpec :=
  mkPipe (mkRef KindPipe name) ("pip_" +:+ name) None (mkIngress IngressTubo "" "" "" "raw") target
    VisibilityUnlisted AccessInviteOnly false sample_day sample_day.
Definition web_pipe : PipeSpec := sample_pipe "web" (mkRef KindService "web").
Definition put_all : list obj_op := [OPutService sample_service; OPutPipe web_pipe "web.key" ""].
Definition sample_objects : objects := run (H := sample_parsers) put_all no_objects.
Definition web_row : pipe_row := Eval vm_compute in
  match pipes sample_objects !! "pipe/web" with Some x => x | None => mkPipeRow "" "" "" "" "" end.

Lemma sample_row : pipes sample_objects !! "pipe/web" = Some web_row.
Proof. vm_cast_no_check (eq_refl (Some web_row)). Qed.

Definition web_service_row : service_row := Eval vm_compute in
  match services sample_objects !! "service/web" with Some x => x | None => mkServiceRow "" "" end.
Lemma sample_service_row : services sample_objects !! "service/web" = Some web_service_row.
Proof. vm_cast_no_check (eq_refl (Some web_service_row)). Qed.

Lemma no_objects_unique : ids_unique no_objects.
Proof. intros r1 r2 x1 x2 E. cbn in E. by rewrite lookup_empty in E. Qed.

Lemma no_objects_named : named no_objects.
Proof. intros r x E. cbn in E. by rewrite lookup_empty in E. Qed.

Lemma web_pipe_wire : wire_pipe web_pipe.
Proof.
  assert (in_years sample_day) by (vm_compute; split; discriminate).
  constructor; try (by apply ascii_textb_true); try (split; by apply ascii_textb_true); try done.
Qed.

Definition later_ops : list obj_op := [ODeleteService "service/web"; ODeletePipe "pipe/other"; OSetGrant "pipe/web" "g"].

Lemma definitions_persist_witness :
  (∃ y, pipes (run (H := sample_parsers) later_ops sample_objects) !! "pipe/web" = Some y ∧ same_pipe web_row y) ∧
  defined (run (H := sample_parsers) later_ops sample_objects) "service/web" ∧
  ∃ grant, Pipe (run (H := sample_parsers) later_ops (PutPipe web_pipe "web.key" "" no_objects).2) "pipe/web"
             = Ok (web_pipe, "web.key", grant) ∧
           Pipe (run (H := sample_parsers) later_ops (PutPipe web_pipe "web.key" "" no_objects).2) "pip_web"
             = Ok (web_pipe, "web.key", grant).
Proof.
  assert (Hn : ODeletePipe "pipe/web" ∉ later_ops)
    by (unfold later_ops; rewrite !not_elem_of_cons; split_and!; [discriminate..|apply not_elem_of_nil]).
  pose proof (run_unique (H := sample_parsers) put_all no_objects no_objects_unique) as Hu.
  pose proof (run_named (H := sample_parsers) put_all no_objects no_objects_named) as Hm.
  assert (Hp : PutPipe web_pipe "web.key" "" no_objects = (Ok true, (PutPipe web_pipe "web.key" "" no_objects).2)).
  { assert (E : (PutPipe web_pipe "web.key" "" no_objects).1 = Ok true) by (vm_compute; reflexivity).
    rewrite (surjective_pairing (PutPipe _ _ _ _)) at 1. rewrite E. reflexivity. }
  destruct (proj1 (proj2 (definitions_persist (H := sample_parsers) later_ops sample_objects Hu Hm))
    "pipe/web" web_row sample_row Hn) as (Hk & Ht).
  destruct (proj2 (proj2 (definitions_persist (H := sample_parsers) later_ops no_objects no_objects_unique no_objects_named))
    web_pipe "web.key" "" true _ Hp web_pipe_wire Hn) as (key & grant & Hr & Hc).
  split; [exact Hk|]. split.
  - apply Ht.
    + destruct (pipe_text web_pipe web_pipe_wire) as (t & Hj & Hr'). exists web_pipe. split; [|reflexivity].
      assert (E : marshal PipeSpec_codec web_pipe = Ok (pp_spec web_row)) by (vm_compute; reflexivity).
      rewrite E in Hj. apply Ok_inj in Hj as <-. exact Hr'.
    + left. rewrite sample_service_row. by eexists.
  - destruct (Hc eq_refl) as [-> Hi]. exists grant. split; [exact Hr|]. exact (Hi eq_refl).
Defined.
