(* ===== verification/LocalKey.v ===== *)
(** * Local key files

    [internal/localkey/key.go]: one private key per file, created once, published without
    overwriting, and only after its bytes are on disk.

    The functions of the source are programs over system calls ([prog]), so that one
    definition has several meanings: run alone, interleaved with other processes, cut off by
    a crash. A path is the list of its components, the last one first, which is what
    [filepath.Dir] and [filepath.Base] make of a clean absolute path. The directory of a
    name and the contents of a file exist twice: as processes see them and as they are on
    disk. A system call can fail for reasons of its own; what it does then is part of the
    call's definition. *)
From S2P Require Import Prelude GoStrings Encoding Credentials.
Open Scope Z_scope.

Definition path := list string.
Definition Dir (p : path) : path := tail p.
Definition Base (p : path) : string := default "/" (head p).

(** ** Files *)
Inductive file_kind := Regular | Directory | Symlink | OtherKind.
#[export] Instance file_kind_eq_dec : EqDecision file_kind.
Proof. solve_decision. Defined.

(** [os.FileInfo]: [f_special] is one of the set-user-id, set-group-id and sticky bits. *)
Record info := mkInfo { f_kind : file_kind; f_perm : Z; f_special : bool; f_size : Z }.

Record inode := mkInode {
  i_kind : file_kind; i_perm : Z; i_special : bool;
  i_data : list ascii;
  i_synced : option (list ascii);   (* what is on disk, [None] when unknown *)
}.

Record fs := mkFs {
  inodes : gmap nat inode;
  names : gmap path nat;            (* directory entries as processes see them *)
  stable : gmap path nat;           (* directory entries on disk *)
  locks : gmap nat nat;             (* the holder of the lock on an inode *)
  draws : nat;                      (* reads of the random source *)
}.

Definition set_inodes s m := mkFs m (names s) (stable s) (locks s) (draws s).
Definition set_names s m := mkFs (inodes s) m (stable s) (locks s) (draws s).
Definition set_stable s m := mkFs (inodes s) (names s) m (locks s) (draws s).
Definition set_locks s m := mkFs (inodes s) (names s) (stable s) m (draws s).
Definition set_draws s n := mkFs (inodes s) (names s) (stable s) (locks s) n.

Definition info_of (i : inode) : info := mkInfo (i_kind i) (i_perm i) (i_special i) (llen (i_data i)).

(** ** System calls *)
Inductive sys : Type → Type :=
  | Lstat (p : path) : sys info
  | OpenRead (p : path) : sys nat                    (* O_RDONLY|O_NOFOLLOW *)
  | Fstat (fd : nat) : sys info
  | ReadAtMost (fd : nat) (n : nat) : sys (list ascii)
  | Mkdir (p : path) : sys unit                      (* 0700 *)
  | OpenLock (p : path) : sys nat                    (* O_RDWR|O_CREATE|O_NOFOLLOW, 0600 *)
  | Flock (fd : nat) : sys unit
  | Unlock (fd : nat) : sys unit
  | CreateExcl (p : path) : sys nat                  (* O_WRONLY|O_CREATE|O_EXCL|O_NOFOLLOW, 0600 *)
  | Write (fd : nat) (data : list ascii) : sys unit  (* the loop of [writeAll] *)
  | Fsync (fd : nat) : sys unit
  | CloseFile (fd : nat) : sys unit
  | Link (old new : path) : sys unit
  | Remove (p : path) : sys unit
  | SyncDir (p : path) : sys unit
  | ReadRandom (n : nat) : sys string.

Section calls.
Context (random : nat → nat → string).

Definition io_error : error := errorf "input/output error".
Definition not_exist : error := wrapf ErrNotExist "no such file or directory".
Definition exists_already : error := wrapf ErrExist "file exists".

Definition fresh_inode (s : fs) : nat := fresh (dom (inodes s)).
Definition add_file (s : fs) (p : path) (i : inode) : fs :=
  let n := fresh_inode s in set_names (set_inodes s (<[n := i]> (inodes s))) (<[p := n]> (names s)).

Definition lookup_name (s : fs) (p : path) : option (nat * inode) :=
  n ← names s !! p; i ← inodes s !! n; Some (n, i).

(** The entries of [a] where [c] holds and those of [b] elsewhere. *)
Definition choose (c : path → bool) (a b : gmap path nat) : gmap path nat :=
  filter (λ kv, c kv.1 = true) a ∪ filter (λ kv, c kv.1 = false) b.

Definition entry_of (d q : path) : bool := bool_decide (q ≠ [] ∧ Dir q = d).

(** Names are made in directories that exist. *)
Definition in_directory (s : fs) (p : path) : bool :=
  match lookup_name s (Dir p) with Some (_, i) => bool_decide (i_kind i = Directory) | None => false end.

(** A new file or directory at a free name. *)
Definition create (s : fs) (p : path) (kind : file_kind) (perm : Z) : res nat * fs :=
  if in_directory s p
  then (Ok (fresh_inode s), add_file s p (mkInode kind perm false [] None))
  else (Fail not_exist, s).

(** A call of process [pid]; [fault] makes it fail. [None]: the call blocks. *)
Definition call (pid : nat) (fault : option nat) {B} (o : sys B) (s : fs) : option (res B * fs) :=
  match o in sys B return option (res B * fs) with
  | Lstat p =>
      Some (match fault with Some _ => Fail io_error | None =>
              match lookup_name s p with Some (_, i) => Ok (info_of i) | None => Fail not_exist end end, s)
  | OpenRead p =>
      Some (match fault with Some _ => Fail io_error | None =>
              match lookup_name s p with
              | Some (n, i) => if bool_decide (i_kind i = Symlink) then Fail (wrapf ErrLoop "too many levels") else Ok n
              | None => Fail not_exist
              end end, s)
  | Fstat fd =>
      Some (match fault with Some _ => Fail io_error | None =>
              match inodes s !! fd with Some i => Ok (info_of i) | None => Fail io_error end end, s)
  | ReadAtMost fd n =>
      Some (match fault with Some _ => Fail io_error | None =>
              match inodes s !! fd with Some i => Ok (take n (i_data i)) | None => Fail io_error end end, s)
  | Mkdir p =>
      Some (match fault with Some _ => (Fail io_error, s) | None =>
              match names s !! p with
              | Some _ => (Fail exists_already, s)
              | None => let '(r, s) := create s p Directory 448 in (_ ← r; Ok tt, s)
              end end)
  | OpenLock p =>
      Some (match fault with Some _ => (Fail io_error, s) | None =>
              match names s !! p with
              | Some n => (match inodes s !! n with
                           | Some i => if bool_decide (i_kind i = Symlink) then Fail (wrapf ErrLoop "too many levels") else Ok n
                           | None => Fail io_error
                           end, s)
              | None => create s p Regular 384
              end end)
  | Flock fd =>
      match fault with Some _ => Some (Fail io_error, s) | None =>
        match locks s !! fd with
        | Some _ => None
        | None => Some (Ok tt, set_locks s (<[fd := pid]> (locks s)))
        end end
  | Unlock fd => Some (Ok tt, if bool_decide (locks s !! fd = Some pid) then set_locks s (delete fd (locks s)) else s)
  | CreateExcl p =>
      Some (match fault with Some _ => (Fail io_error, s) | None =>
              match names s !! p with
              | Some _ => (Fail exists_already, s)
              | None => create s p Regular 384
              end end)
  | Write fd data =>
      let put bytes := match inodes s !! fd with
                       | Some i => set_inodes s (<[fd := mkInode (i_kind i) (i_perm i) (i_special i)
                                                           (i_data i ++ bytes) None]> (inodes s))
                       | None => s
                       end in
      Some (match fault with Some n => (Fail io_error, put (take n data)) | None => (Ok tt, put data) end)
  | Fsync fd =>
      Some (match fault with Some _ => (Fail io_error, s) | None =>
              (Ok tt, match inodes s !! fd with
                      | Some i => set_inodes s (<[fd := mkInode (i_kind i) (i_perm i) (i_special i) (i_data i)
                                                          (Some (i_data i))]> (inodes s))
                      | None => s
                      end) end)
  | CloseFile fd => Some (match fault with Some _ => Fail io_error | None => Ok tt end, s)
  | Link old new =>
      Some (match fault with Some _ => (Fail io_error, s) | None =>
              match names s !! old, names s !! new with
              | None, _ => (Fail not_exist, s)
              | _, Some _ => (Fail exists_already, s)
              | Some n, None => if in_directory s new then (Ok tt, set_names s (<[new := n]> (names s)))
                                else (Fail not_exist, s)
              end end)
  | Remove p =>
      Some (match fault with Some _ => (Fail io_error, s) | None =>
              match names s !! p with
              | None => (Fail not_exist, s)
              | Some _ => (Ok tt, set_names s (delete p (names s)))
              end end)
  | SyncDir d =>
      Some (match fault with
            | Some O => (Fail io_error, s)
            | Some _ => (Fail io_error, set_stable s (choose (entry_of d) (names s) (stable s)))
            | None => (Ok tt, set_stable s (choose (entry_of d) (names s) (stable s)))
            end)
  | ReadRandom n =>
      Some (match fault with Some _ => (Fail io_error, s) | None =>
              (Ok (random n (draws s)), set_draws s (S (draws s))) end)
  end.
End calls.

(** ** Programs *)
Inductive prog (A : Type) : Type :=
  | Ret (a : A)
  | Do {B : Type} (o : sys B) (k : res B → prog A).
Arguments Ret {A}. Arguments Do {A B}.

Fixpoint pbind {A B} (p : prog A) (f : A → prog B) : prog B :=
  match p with
  | Ret a => f a
  | Do o k => Do o (λ b, pbind (k b) f)
  end.

(** A program that can fail. *)
Definition P (A : Type) : Type := prog (res A).
#[export] Instance P_ret : MRet P := λ A a, Ret (Ok a).
#[export] Instance P_bind : MBind P := λ A B f p,
  pbind p (λ r, match r with Ok a => f a | Fail e => Ret (Fail e) end).

Definition sysc {A} (o : sys A) : P A := Do o Ret.
Definition pure {A} (r : res A) : P A := Ret r.
(** [v, err := p]. *)
Definition tried {A} (p : P A) : P (res A) := pbind p (λ r, Ret (Ok r)).
(** [defer cleanup()] in front of [p]. *)
Definition deferring {A B} (cleanup : prog B) (p : P A) : P A := pbind p (λ r, pbind cleanup (λ _, Ret r)).

(** ** The package *)
Section package.
Context `{Ed25519}.

(** [ed25519.NewKeyFromSeed] and the 64 bytes of a key. *)
Class KeyFormat := { NewKeyFromSeed : string → PrivateKey; key_bytes : PrivateKey → string }.
Class KeyFormatLaws `{KeyFormat} : Prop := {
  key_bytes_size k : slen (key_bytes k) = PrivateKeySize;
  seed_of_key s : slen s = 32 → take 32 (bytes_of (key_bytes (NewKeyFromSeed s))) = bytes_of s;
}.
Context `{KeyFormat}.

Definition encodedPrivateKeyLen : Z := 86.

Definition validateFinalPath (p : path) : res unit :=
  refuse (bool_decide (p = []) || (Base p =s ".") || (Base p =s "/") || ContainsChar (Base p) "/"%char)
    (wrapf ErrInvalid "invalid key path").

Definition unsafeMode (i : info) (allowed : Z) : bool :=
  negb (Z.land (f_perm i) (Z.lnot allowed) =? 0) || f_special i.

Definition checkFileInfo (i : info) : res unit :=
  _ ← refuse (bool_decide (f_kind i = Symlink)) (wrapf ErrUnsafe "key file is symlink");
  _ ← refuse (negb (bool_decide (f_kind i = Regular))) (wrapf ErrUnsafe "key file is not regular");
  _ ← refuse (unsafeMode i 384) (wrapf ErrUnsafe "key file mode");
  _ ← refuse (encodedPrivateKeyLen <? f_size i) (wrapf ErrInvalid "key file oversized");
  refuse (negb (f_size i =? encodedPrivateKeyLen)) (wrapf ErrInvalid "key file wrong length").

Definition checkLockInfo (i : info) : res unit :=
  refuse (negb (bool_decide (f_kind i = Regular)) || unsafeMode i 384) (wrapf ErrUnsafe "key lock mode").

Definition check_dir (i : info) : res unit :=
  _ ← refuse (bool_decide (f_kind i = Symlink)) (wrapf ErrUnsafe "key directory is symlink");
  refuse (negb (bool_decide (f_kind i = Directory))) (wrapf ErrUnsafe "key directory is not directory").

(** The parents that are missing, the outermost first. *)
Fixpoint missing_dirs (cur : path) (missing : list path) : P (list path) :=
  found ← tried (sysc (Lstat cur));
  match found with
  | Ok i => _ ← pure (check_dir i); mret missing
  | Fail e =>
      if errors_Is e ErrNotExist then
        match cur with
        | [] => pure (Fail e)
        | _ :: parent => missing_dirs parent (cur :: missing)
        end
      else pure (Fail e)
  end.

Fixpoint make_dirs (missing : list path) : P unit :=
  match missing with
  | [] => mret tt
  | p :: missing =>
      made ← tried (sysc (Mkdir p));
      _ ← match made with
          | Ok _ => sysc (SyncDir (Dir p))
          | Fail e => if errors_Is e ErrExist then mret tt else pure (Fail e)
          end;
      i ← sysc (Lstat p);
      _ ← pure (refuse (bool_decide (f_kind i = Symlink) || negb (bool_decide (f_kind i = Directory)) || unsafeMode i 448)
                  (wrapf ErrUnsafe "key directory mode"));
      make_dirs missing
  end.

Definition mkdirAllSecure (dir : path) : P unit := missing ← missing_dirs dir []; make_dirs missing.

Definition requireSecureDir (dir : path) (create : bool) : P unit :=
  _ ← (if create then mkdirAllSecure dir else mret tt);
  i ← sysc (Lstat dir);
  _ ← pure (check_dir i);
  pure (refuse (unsafeMode i 448) (wrapf ErrUnsafe "key directory mode")).

Definition parseCanonicalPrivate (data : list ascii) : res PrivateKey :=
  _ ← refuse (encodedPrivateKeyLen <? llen data) (wrapf ErrInvalid "key file oversized");
  _ ← refuse (negb (llen data =? encodedPrivateKeyLen)) (wrapf ErrInvalid "key file wrong length");
  let text := of_bytes data in
  _ ← refuse (ContainsAny text [chr 13; chr 10; chr 9; " "%char] || ContainsChar text "="%char)
        (wrapf ErrInvalid "non-canonical private key");
  decoded ← match base64_decode text with
            | Some d => if slen d =? PrivateKeySize then Ok d else Fail (wrapf ErrInvalid "invalid Ed25519 private key")
            | None => Fail (wrapf ErrInvalid "invalid Ed25519 private key")
            end;
  _ ← refuse (base64_encode decoded <>s text) (wrapf ErrInvalid "non-canonical private key");
  let expected := NewKeyFromSeed (of_bytes (take 32 (bytes_of decoded))) in
  _ ← refuse (decoded <>s key_bytes expected) (wrapf ErrInvalid "public suffix inconsistent with seed");
  Ok expected.

(** The bytes of a key file. *)
Definition encoded_key (k : PrivateKey) : list ascii := bytes_of (base64_encode (key_bytes k)).

Definition Load (p : path) : P PrivateKey :=
  _ ← pure (validateFinalPath p);
  _ ← requireSecureDir (Dir p) false;
  i ← sysc (Lstat p);
  _ ← pure (checkFileInfo i);
  opened ← tried (sysc (OpenRead p));
  fd ← pure (match opened with
             | Ok fd => Ok fd
             | Fail e => Fail (if errors_Is e ErrLoop then wrapf ErrUnsafe "key file is symlink" else e)
             end);
  deferring (sysc (CloseFile fd)) (
    i ← sysc (Fstat fd);
    _ ← pure (checkFileInfo i);
    data ← sysc (ReadAtMost fd 87);
    pure (parseCanonicalPrivate data)).

Definition acquireLock (lockPath : path) : P nat :=
  opened ← tried (sysc (OpenLock lockPath));
  fd ← pure (match opened with
             | Ok fd => Ok fd
             | Fail e => Fail (if errors_Is e ErrLoop then wrapf ErrUnsafe "lock file is symlink" else e)
             end);
  let closing {A} (p : P A) : P A :=
    r ← tried p;
    match r with Ok a => mret a | Fail e => _ ← tried (sysc (CloseFile fd)); pure (Fail e) end in
  i ← closing (sysc (Fstat fd));
  _ ← closing (pure (checkLockInfo i));
  _ ← closing (sysc (Flock fd));
  mret fd.

(** The temporary file beside the key file. *)
Definition tmp_path (p : path) (suffix : string) : path :=
  (String "."%char (Base p +:+ ".tmp." +:+ base64_encode suffix)) :: Dir p.

(** After the temporary file was created: write, sync, publish. *)
Definition publish (p tmp : path) (fd : nat) (private : PrivateKey) : P unit :=
  let remove_tmp := tried (sysc (Remove tmp)) in
  let or_close {A} (m : P A) : P A :=
    r ← tried m;
    match r with
    | Ok a => mret a
    | Fail e => _ ← tried (sysc (CloseFile fd)); _ ← remove_tmp; pure (Fail e)
    end in
  let or_remove {A} (m : P A) : P A :=
    r ← tried m;
    match r with Ok a => mret a | Fail e => _ ← remove_tmp; pure (Fail e) end in
  _ ← or_close (sysc (Write fd (encoded_key private)));
  _ ← or_close (sysc (Fsync fd));
  _ ← or_remove (sysc (CloseFile fd));
  linked ← tried (sysc (Link tmp p));
  _ ← or_remove (pure (match linked with
                       | Ok _ => Ok tt
                       | Fail e => Fail (if errors_Is e ErrExist then wrapf ErrUnsafe "key appeared during provision" else e)
                       end));
  removed ← tried (sysc (Remove tmp));
  _ ← match removed with
      | Ok _ => mret tt
      | Fail e => _ ← tried (sysc (Remove p)); _ ← remove_tmp; pure (Fail e)
      end;
  synced ← tried (sysc (SyncDir (Dir p)));
  match synced with
  | Ok _ => mret tt
  | Fail e =>
      _ ← tried (sysc (Remove p)); _ ← tried (sysc (Remove tmp)); _ ← tried (sysc (SyncDir (Dir p)));
      pure (Fail e)
  end.

Definition writeDurableNoClobber (p : path) (private : PrivateKey) : P unit :=
  suffix ← sysc (ReadRandom 12);
  let tmp := tmp_path p suffix in
  fd ← sysc (CreateExcl tmp);
  publish p tmp fd private.

(** [ed25519.GenerateKey]. *)
Definition GenerateKey : P PrivateKey := seed ← sysc (ReadRandom 32); mret (NewKeyFromSeed seed).

Definition lock_path (p : path) : path := (Base p +:+ ".lock") :: Dir p.

Definition release (lockPath : path) (fd : nat) : P unit :=
  _ ← tried (sysc (Remove lockPath)); _ ← tried (sysc (Unlock fd)); _ ← tried (sysc (CloseFile fd)); mret tt.

Definition provision (p : path) : P PrivateKey :=
  _ ← pure (validateFinalPath p);
  _ ← requireSecureDir (Dir p) true;
  fd ← acquireLock (lock_path p);
  deferring (release (lock_path p) fd) (
    loaded ← tried (Load p);
    match loaded with
    | Ok private => mret private
    | Fail e =>
        if errors_Is e ErrNotExist then
          private ← GenerateKey;
          _ ← writeDurableNoClobber p private;
          mret private
        else pure (Fail e)
    end).

(** ** Processes and crashes

    Any number of processes that load or provision the key, one system call at a time. A
    killed process loses its locks. A crash ends all processes; every directory entry is
    then as processes saw it last or as it was on disk ([flushed]), and a file whose bytes
    did not reach the disk holds anything ([garbage]). *)
Inductive job := JLoad | JProvision.
Definition job_prog (p : path) (j : job) : P PrivateKey :=
  match j with JLoad => Load p | JProvision => provision p end.

Record machine := mkMachine { m_fs : fs; m_pool : gmap nat (P PrivateKey) }.

Inductive action :=
  | Start (pid : nat) (j : job)
  | Advance (pid : nat) (fault : option nat)
  | Kill (pid : nat)
  | Crash (flushed : path → bool) (garbage : nat → list ascii).

Definition crash_inode (garbage : list ascii) (i : inode) : inode :=
  let data := default garbage (i_synced i) in mkInode (i_kind i) (i_perm i) (i_special i) data (Some data).

Definition crash (flushed : path → bool) (garbage : nat → list ascii) (s : fs) : fs :=
  let entries := choose flushed (names s) (stable s) in
  mkFs (map_imap (λ n i, Some (crash_inode (garbage n) i)) (inodes s)) entries entries ∅ (draws s).

Definition unlock_all (pid : nat) (s : fs) : fs := set_locks s (filter (λ kv, kv.2 ≠ pid) (locks s)).

Context (random : nat → nat → string).

Definition act (p : path) (a : action) (m : machine) : option machine :=
  match a with
  | Start pid j =>
      match m_pool m !! pid with
      | None => Some (mkMachine (m_fs m) (<[pid := job_prog p j]> (m_pool m)))
      | Some _ => None
      end
  | Advance pid fault =>
      match m_pool m !! pid with
      | Some (Do o k) =>
          '(b, s) ← call random pid fault o (m_fs m); Some (mkMachine s (<[pid := k b]> (m_pool m)))
      | _ => None
      end
  | Kill pid => Some (mkMachine (unlock_all pid (m_fs m)) (delete pid (m_pool m)))
  | Crash flushed garbage => Some (mkMachine (crash flushed garbage (m_fs m)) ∅)
  end.

Definition acts (p : path) (l : list action) (m : machine) : option machine :=
  foldl (λ m a, m ← m; act p a m) (Some m) l.

(** One process alone, without faults. *)
Fixpoint run {A} (pid : nat) (pr : prog A) (s : fs) : option (A * fs) :=
  match pr with
  | Ret a => Some (a, s)
  | Do o k => '(b, s) ← call random pid None o s; run pid (k b) s
  end.
End package.
