(* ===== verification/LocalKeyFacts.v ===== *)
(** * Key files never tear

    What holds of a key file whatever processes do to it: an invariant of every machine that
    [acts] can reach, and what one process alone gets. The invariant is found by a small
    program logic: [safe] says of a program, with what its process knows ([stage]), that
    every call it makes is allowed and what it knows after each result. *)
From S2P Require Import Prelude GoStrings Encoding Credentials CredentialVerify LocalKey.
Open Scope Z_scope.

(** ** Keys as files *)
Section keys.
Context `{Ed25519} `{!KeyFormat} `{!KeyFormatLaws}.

(** A key that came from a seed. *)
Definition derived (k : PrivateKey) : Prop := ∃ seed, slen seed = 32 ∧ k = NewKeyFromSeed seed.

Lemma llen_encoded_key k : llen (encoded_key k) = 86.
Proof.
  unfold encoded_key. rewrite <- slen_of_bytes, of_bytes_of, slen_base64, key_bytes_size. reflexivity.
Qed.

Lemma parse_encoded k : derived k → parseCanonicalPrivate (encoded_key k) = Ok k.
Proof.
  intros (seed & Hs & ->). unfold parseCanonicalPrivate, encodedPrivateKeyLen. rewrite llen_encoded_key.
  unfold encoded_key. rewrite of_bytes_of. set (d := key_bytes (NewKeyFromSeed seed)).
  assert (Hc : ContainsAny (base64_encode d) [chr 13; chr 10; chr 9; " "%char]
               || ContainsChar (base64_encode d) "="%char = false).
  { unfold ContainsAny. cbn [existsb]. rewrite !reserved_absent by done. done. }
  cbv zeta. rewrite Hc, base64_decode_encode. unfold d. rewrite key_bytes_size.
  cbn [Z.ltb Z.eqb Z.compare Pos.compare Pos.compare_cont Pos.eqb negb refuse mbind res_bind].
  rewrite Z.eqb_refl. cbn [mbind res_bind]. rewrite seqb_refl. cbn [negb refuse mbind res_bind].
  rewrite seed_of_key, of_bytes_of, seqb_refl by done. done.
Qed.
End keys.

(** ** Maps of names *)
Lemma lookup_choose c a b q : choose c a b !! q = if c q then a !! q else b !! q.
Proof.
  unfold choose. rewrite lookup_union. destruct (c q) eqn:E.
  - rewrite (proj2 (map_lookup_filter_None (λ kv, c kv.1 = false) b q)).
    + rewrite (right_id_L None (∪)). destruct (a !! q) as [x|] eqn:Ea.
      * by apply map_lookup_filter_Some.
      * apply map_lookup_filter_None. by left.
    + right. intros x _. cbn. by rewrite E.
  - rewrite (proj2 (map_lookup_filter_None (λ kv, c kv.1 = true) a q)).
    + rewrite (left_id_L None (∪)). destruct (b !! q) as [x|] eqn:Eb.
      * by apply map_lookup_filter_Some.
      * apply map_lookup_filter_None. by left.
    + right. intros x _. cbn. by rewrite E.
Qed.

(** ** What a process knows *)
Inductive temp_state :=
  | Reserved                                   (* the name is this process's, whatever it is *)
  | Empty (fd : nat)                           (* just created *)
  | Filled (fd : nat) (data : list ascii)      (* written, not synced *)
  | Durable (fd : nat) (data : list ascii).    (* written and synced *)

Section logic.
Context `{Ed25519} `{!KeyFormat} `{!KeyFormatLaws}.
Context (random : nat → nat → string) (p : path).
(** Whether system calls may fail for reasons of their own. *)
Context (faults : bool).

Record stage := mkStage {
  g_temp : option (string * temp_state);       (* the suffix of its temporary file *)
  g_seen : option (nat * PrivateKey);          (* the key file it opened or linked *)
}.

Definition tmp_fd (st : stage) : option nat :=
  match g_temp st with
  | Some (_, (Empty fd | Filled fd _ | Durable fd _)) => Some fd
  | _ => None
  end.
Definition with_temp (st : stage) (x : string) (t : temp_state) : stage := mkStage (Some (x, t)) (g_seen st).
Definition with_seen (st : stage) (fd : nat) (k : PrivateKey) : stage := mkStage (g_temp st) (Some (fd, k)).

(** *** Facts about the file system *)
Definition published (s : fs) (n : nat) : Prop := names s !! p = Some n ∨ stable s !! p = Some n.

Definition key_inode (k : PrivateKey) (i : inode) : Prop :=
  i = mkInode Regular 384 false (encoded_key k) (Some (encoded_key k)) ∧ derived k.

Definition key_file (s : fs) (n : nat) (k : PrivateKey) : Prop :=
  ∃ i, inodes s !! n = Some i ∧ key_inode k i.

(** Whatever is at the key path, for processes or on disk, is a complete key on disk. *)
Definition file_ok (s : fs) : Prop := ∀ n, published s n → ∃ k, key_file s n k.

Definition temp_fact (s : fs) (x : string) (t : temp_state) : Prop :=
  (∃ i, (i < draws s)%nat ∧ x = random 12 i) ∧
  match t with
  | Reserved => True
  | Empty fd => names s !! tmp_path p x = Some fd ∧ ¬ published s fd ∧
      inodes s !! fd = Some (mkInode Regular 384 false [] None)
  | Filled fd data => names s !! tmp_path p x = Some fd ∧ ¬ published s fd ∧
      inodes s !! fd = Some (mkInode Regular 384 false data None)
  | Durable fd data => names s !! tmp_path p x = Some fd ∧
      inodes s !! fd = Some (mkInode Regular 384 false data (Some data))
  end.

Definition seen_fact (s : fs) (fd : nat) (k : PrivateKey) : Prop :=
  key_file s fd k ∧ (faults = false → names s !! p = Some fd).

Definition fact (s : fs) (st : stage) : Prop :=
  (∀ x t, g_temp st = Some (x, t) → temp_fact s x t) ∧ (∀ fd k, g_seen st = Some (fd, k) → seen_fact s fd k).

(** *** Which calls a process may make, and what it knows after them *)
Definition allowed {B} (o : sys B) (st : stage) : Prop :=
  match o with
  | Mkdir q => (length q < length p)%nat
  | OpenLock q => q = lock_path p
  | CreateExcl q => ∃ x, g_temp st = Some (x, Reserved) ∧ q = tmp_path p x
  | Write fd data => ∃ x, g_temp st = Some (x, Empty fd)
  | Fsync fd => ∃ x data, g_temp st = Some (x, Filled fd data)
  | Link old new => new = p ∧ ∃ x fd k, g_temp st = Some (x, Durable fd (encoded_key k)) ∧ derived k ∧ old = tmp_path p x
  | Remove q => (q = p ∧ faults = true) ∨ q = lock_path p ∨ ∃ x t, g_temp st = Some (x, t) ∧ q = tmp_path p x
  | _ => True
  end.

Definition blameless {A} (r : res A) : Prop := ∀ e, r = Fail e → errors_Is e ErrInvalid = false.

Definition known_info : info := mkInfo Regular 384 false 86.

Definition result {B} (o : sys B) (st : stage) : res B → stage → Prop :=
  match o in sys B return res B → stage → Prop with
  | Lstat q => λ r st', st' = st ∧ blameless r ∧ (q = p → ∀ i, r = Ok i → i = known_info)
  | OpenRead q => λ r st', blameless r ∧
      match r with
      | Ok fd => if bool_decide (q = p) then ∃ k, derived k ∧ st' = with_seen st fd k else st' = st
      | Fail _ => st' = st
      end
  | Fstat fd => λ r st', st' = st ∧ blameless r ∧ (∀ k i, g_seen st = Some (fd, k) → r = Ok i → i = known_info)
  | ReadAtMost fd n => λ r st', st' = st ∧ blameless r ∧
      (∀ k data, g_seen st = Some (fd, k) → r = Ok data → data = take n (encoded_key k))
  | CreateExcl q => λ r st', blameless r ∧
      match r with
      | Ok fd => ∀ x, g_temp st = Some (x, Reserved) → st' = with_temp st x (Empty fd)
      | Fail _ => st' = st
      end
  | Write fd data => λ r st', blameless r ∧
      ∀ x, g_temp st = Some (x, Empty fd) → st' = with_temp st x (if is_ok r then Filled fd data else Reserved)
  | Fsync fd => λ r st', blameless r ∧
      ∀ x data, g_temp st = Some (x, Filled fd data) → st' = if is_ok r then with_temp st x (Durable fd data) else st
  | Link _ _ => λ r st', blameless r ∧
      if is_ok r then ∀ x fd k, g_temp st = Some (x, Durable fd (encoded_key k)) → derived k → st' = with_seen st fd k
      else st' = st
  | Remove q => λ r st', blameless r ∧
      (∀ x fd data, g_temp st = Some (x, Durable fd data) → q = tmp_path p x → faults = false → is_ok r = true) ∧
      if is_ok r then
        (∀ x t, g_temp st = Some (x, t) → q = tmp_path p x → st' = with_temp st x Reserved) ∧
        ((∀ x t, g_temp st = Some (x, t) → q ≠ tmp_path p x) → st' = st)
      else st' = st
  | SyncDir _ => λ r st', st' = st ∧ blameless r ∧ (faults = false → is_ok r = true)
  | ReadRandom n => λ r st', blameless r ∧
      match r with
      | Ok x => slen x = Z.of_nat n ∧ st' = if decide (n = 12%nat) then with_temp st x Reserved else st
      | Fail _ => st' = st
      end
  | Mkdir _ => λ r st', st' = st ∧ blameless r
  | OpenLock _ => λ r st', st' = st ∧ blameless r
  | Flock _ => λ r st', st' = st ∧ blameless r
  | Unlock _ => λ r st', st' = st ∧ blameless r
  | CloseFile _ => λ r st', st' = st ∧ blameless r
  end.

Fixpoint safe {A} (pr : prog A) (st : stage) (Q : stage → A → Prop) : Prop :=
  match pr with
  | Ret a => Q st a
  | Do o k => allowed o st ∧ ∀ b st', result o st b st' → safe (k b) st' Q
  end.

(** *** Rules *)
Lemma safe_mono {A} (pr : prog A) st (Q Q' : stage → A → Prop) :
  safe pr st Q → (∀ st' a, Q st' a → Q' st' a) → safe pr st Q'.
Proof.
  intros Hs HQ. revert st Hs. induction pr as [a|B o k IH]; cbn; [auto|].
  intros st [Ha Hk]. split; [done|]. intros b st' Hr. apply IH, Hk, Hr.
Qed.

Lemma safe_pbind {A B} (pr : prog A) (f : A → prog B) st Q :
  safe pr st (λ st' a, safe (f a) st' Q) → safe (pbind pr f) st Q.
Proof.
  revert st. induction pr as [a|C o k IH]; cbn; [auto|].
  intros st [Ha Hk]. split; [done|]. intros b st' Hr. apply IH, Hk, Hr.
Qed.

Lemma safe_bind {A B} (m : P A) (f : A → P B) st Q :
  safe m st (λ st' r, match r with Ok a => safe (f a) st' Q | Fail e => Q st' (Fail e) end) →
  safe (m ≫= f) st Q.
Proof. intros Hm. apply safe_pbind. eapply safe_mono; [exact Hm|]. by intros st' [a|e]. Qed.

Lemma safe_tried {A} (m : P A) st Q : safe m st (λ st' r, Q st' (Ok r)) → safe (tried m) st Q.
Proof. intros Hm. apply safe_pbind. exact Hm. Qed.

Lemma safe_deferring {A B} (cleanup : prog B) (m : P A) st Q :
  safe m st (λ st' r, safe cleanup st' (λ st'' _, Q st'' r)) → safe (deferring cleanup m) st Q.
Proof. intros Hm. apply safe_pbind. eapply safe_mono; [exact Hm|]. intros st' r Hc. by apply safe_pbind. Qed.

Lemma safe_sysc {A} (o : sys A) st Q :
  allowed o st → (∀ r st', result o st r st' → Q st' r) → safe (sysc o) st Q.
Proof. by split. Qed.

(** A program that learns nothing and never blames the key file. *)
Definition inert {A} (m : P A) (Q : A → Prop) : Prop :=
  ∀ st, safe m st (λ st' r, st' = st ∧ match r with Ok a => Q a | Fail e => errors_Is e ErrInvalid = false end).

Lemma inert_bind {A B} (m : P A) (f : A → P B) Q R :
  inert m Q → (∀ a, Q a → inert (f a) R) → inert (m ≫= f) R.
Proof.
  intros Hm Hf st. apply safe_bind. eapply safe_mono; [apply Hm|]. intros st' [a|e] [-> Ha]; [by apply Hf|done].
Qed.
Lemma inert_tried {A} (m : P A) Q :
  inert m Q → inert (tried m) (λ r, match r with Ok a => Q a | Fail e => errors_Is e ErrInvalid = false end).
Proof. intros Hm st. apply safe_tried. eapply safe_mono; [apply Hm|]. by intros st' r [-> ?]. Qed.
Lemma inert_ret {A} (a : A) (Q : A → Prop) : Q a → inert (mret a) Q.
Proof. by intros ? st. Qed.
Lemma inert_pure {A} (r : res A) : blameless r → inert (pure r) (λ a, r = Ok a).
Proof. intros Hb st. split; [done|]. destruct r; [done|by apply Hb]. Qed.
Lemma inert_fail {A} e (Q : A → Prop) : errors_Is e ErrInvalid = false → inert (pure (Fail e)) Q.
Proof. by intros ? st. Qed.
Lemma inert_weaken {A} (m : P A) (Q Q' : A → Prop) : inert m Q → (∀ a, Q a → Q' a) → inert m Q'.
Proof. intros Hm HQ st. eapply safe_mono; [apply Hm|]. intros st' [a|e] [-> ?]; auto. Qed.

(** The calls that teach nothing. *)
Definition quiet {B} (o : sys B) : bool :=
  match o with
  | Lstat _ | Fstat _ | Mkdir _ | OpenLock _ | Flock _ | Unlock _ | CloseFile _ | SyncDir _ => true
  | _ => false
  end.
Lemma inert_sysc {A} (o : sys A) : quiet o = true → (∀ st, allowed o st) → inert (sysc o) (λ _, True).
Proof.
  intros Hq Ha st. split; [apply Ha|]. intros b st' Hr.
  assert (Hb : st' = st ∧ blameless b).
  { clear Ha. destruct o; try done; destruct Hr as [-> Hr]; split; try done; by destruct Hr. }
  destruct Hb as [-> Hb]. split; [done|]. destruct b; [done|by apply Hb].
Qed.

Lemma blameless_ok {A} (a : A) : blameless (Ok a).
Proof. by intros e [=]. Qed.
Lemma blameless_refuse c e : errors_Is e ErrInvalid = false → blameless (refuse c e).
Proof. intros He e' Hr. unfold refuse in Hr. destruct c; [|done]. by injection Hr as <-. Qed.
Lemma blameless_bind {A B} (m : res A) (f : A → res B) :
  blameless m → (∀ a, blameless (f a)) → blameless (m ≫= f).
Proof. intros Hm Hf. destruct m as [a|e]; [apply Hf|]. intros e' [= <-]. by apply Hm. Qed.
Lemma blameless_check_dir i : blameless (check_dir i).
Proof. apply blameless_bind; intros; by apply blameless_refuse. Qed.
Lemma blameless_checkLockInfo i : blameless (checkLockInfo i).
Proof. by apply blameless_refuse. Qed.

(** *** The directory *)
#[local] Abbreviation below := (Forall (λ q, (length q < length p)%nat)).

Lemma inert_missing_dirs cur : ∀ missing,
  (length cur < length p)%nat → below missing → inert (missing_dirs cur missing) (λ l, below l).
Proof.
  induction cur as [|c cur IH]; intros missing Hc Hm; cbn [missing_dirs]; eapply inert_bind;
    try (apply inert_tried, inert_sysc; done); intros [i|e] Hr;
    try (eapply inert_bind; [apply inert_pure, blameless_check_dir|]; intros; by apply inert_ret).
  - case_match; by apply inert_fail.
  - case_match; [|by apply inert_fail]. apply IH; [cbn in Hc; lia|by constructor].
Qed.

Lemma inert_make_dirs missing : below missing → inert (make_dirs missing) (λ _, True).
Proof.
  induction 1 as [|q missing Hq _ IH]; cbn [make_dirs]; [by apply inert_ret|].
  eapply inert_bind; [by apply inert_tried, inert_sysc|]. intros made Hmade.
  eapply (inert_bind _ _ (λ _, True)).
  { destruct made; [by apply inert_sysc|]. case_match; [by apply inert_ret|by apply inert_fail]. }
  intros _ _. eapply inert_bind; [by apply inert_sysc|]. intros i _.
  eapply inert_bind; [by apply inert_pure, blameless_refuse|]. intros _ _. exact IH.
Qed.

Lemma inert_requireSecureDir dir create :
  (length dir < length p)%nat → inert (requireSecureDir dir create) (λ _, True).
Proof.
  intros Hd. unfold requireSecureDir. eapply (inert_bind _ _ (λ _, True)).
  { destruct create; [|by apply inert_ret]. eapply inert_bind; [by apply inert_missing_dirs|].
    intros l Hl. by apply inert_make_dirs. }
  intros _ _. eapply inert_bind; [by apply inert_sysc|]. intros i _.
  eapply inert_bind; [apply inert_pure, blameless_check_dir|]. intros _ _.
  eapply inert_weaken; [by apply inert_pure, blameless_refuse|done].
Qed.

(** *** Loading *)
Context (Hvalid : validateFinalPath p = Ok tt).

Lemma dir_shorter : (length (Dir p) < length p)%nat.
Proof using Hvalid. destruct p as [|b d]; [done|]. cbn. lia. Qed.

(** What a process knows when it returns. *)
Definition finished (st : stage) (r : res PrivateKey) : Prop :=
  match r with
  | Ok k => ∃ fd, g_seen st = Some (fd, k)
  | Fail e => errors_Is e ErrInvalid = false
  end.

Lemma safe_inert {A} (m : P A) Q R st :
  inert m Q → (∀ a, Q a → R st (Ok a)) → (∀ e, errors_Is e ErrInvalid = false → R st (Fail e)) → safe m st R.
Proof. intros Hm Ha Hf. eapply safe_mono; [apply Hm|]. intros st' [a|e] [-> Hr]; auto. Qed.

(** One step of a program that goes on. *)
Lemma safe_then {A B} (m : P A) (f : A → P B) Q R st :
  inert m Q → (∀ a, Q a → safe (f a) st R) → (∀ e, errors_Is e ErrInvalid = false → R st (Fail e)) →
  safe (m ≫= f) st R.
Proof. intros Hm Ha Hf. apply safe_bind. by eapply safe_inert. Qed.

Lemma check_known : checkFileInfo known_info = Ok tt.
Proof. reflexivity. Qed.

Lemma safe_Load st : safe (Load p) st (λ st' r, g_temp st' = g_temp st ∧ finished st' r).
Proof.
  unfold Load. rewrite Hvalid. eapply safe_then; [by apply inert_pure, blameless_ok| |by split]. intros _ _.
  eapply safe_then; [apply inert_requireSecureDir, dir_shorter| |by split]. intros _ _.
  apply safe_bind, safe_sysc; [done|]. intros [i|e] st' (-> & Hb1 & Hi); [|by split; [|apply Hb1]].
  rewrite (Hi eq_refl i eq_refl), check_known.
  eapply safe_then; [by apply inert_pure, blameless_ok| |by split]. intros _ _.
  apply safe_bind, safe_tried, safe_sysc; [done|]. intros [fd|e] st' [Hb Hr].
  2: { rewrite Hr. cbn [pure mbind P_bind]. apply safe_bind. cbn. split; [done|]. case_match; [done|]. by apply Hb. }
  rewrite bool_decide_eq_true_2 in Hr by done. destruct Hr as (k & Hk & ->).
  apply safe_bind. cbn [pure safe]. apply safe_deferring. apply safe_bind, safe_sysc; [done|].
  intros [i'|e] st'' (-> & Hb2 & Hi').
  2: { eapply safe_inert; [by apply inert_sysc|intros; split; [done|by apply Hb2]..]. }
  rewrite (Hi' k i' eq_refl eq_refl), check_known. apply safe_bind. cbn [pure safe].
  apply safe_bind, safe_sysc; [done|]. intros [data|e] st'' (-> & Hb3 & Hd).
  2: { eapply safe_inert; [by apply inert_sysc|intros; split; [done|by apply Hb3]..]. }
  assert (Hdata : data = encoded_key k).
  { rewrite (Hd k data eq_refl eq_refl). apply firstn_all2.
    pose proof (llen_encoded_key k) as Hl. unfold llen in Hl. lia. }
  rewrite Hdata, parse_encoded by done. cbn [pure safe].
  eapply safe_inert; [by apply inert_sysc|intros; split; [done|by exists fd]..].
Qed.

(** *** Provisioning *)
Lemma inert_acquireLock : inert (acquireLock (lock_path p)) (λ _, True).
Proof.
  unfold acquireLock. eapply inert_bind; [by apply inert_tried, inert_sysc|]. intros opened Ho.
  eapply (inert_bind _ _ (λ _, True)).
  { destruct opened; [eapply inert_weaken; [apply inert_pure, blameless_ok|done]|].
    case_match; by apply inert_fail. }
  intros fd _. cbv zeta.
  assert (Hclosing : ∀ A (m : P A) Q, inert m Q →
    inert (r ← tried m; match r with Ok a => mret a | Fail e => _ ← tried (sysc (CloseFile fd)); pure (Fail e) end) Q).
  { intros A m Q Hm. eapply inert_bind; [by apply inert_tried|]. intros [a|e] Hr; [by apply inert_ret|].
    eapply inert_bind; [by apply inert_tried, inert_sysc|]. intros. by apply inert_fail. }
  eapply inert_bind; [apply Hclosing, inert_sysc; done|]. intros i _.
  eapply inert_bind; [apply Hclosing, inert_pure, blameless_checkLockInfo|]. intros _ _.
  eapply inert_bind; [apply Hclosing, inert_sysc; done|]. intros _ _. by apply inert_ret.
Qed.

Lemma dir_not_key : Dir p ≠ p.
Proof using Hvalid. intros E. pose proof dir_shorter as Hs. rewrite E in Hs. lia. Qed.
Lemma tmp_not_lock x : lock_path p ≠ tmp_path p x.
Proof.
  unfold lock_path, tmp_path. intros [= E]. apply (f_equal slen) in E.
  change (slen (Base p +:+ ".lock") = slen (String "." "" +:+ (Base p +:+ ".tmp." +:+ base64_encode x))) in E.
  rewrite !slen_app in E. pose proof (slen_nonneg (base64_encode x)).
  change (slen ".lock") with 5 in E. change (slen ".tmp.") with 5 in E. change (slen ".") with 1 in E. lia.
Qed.
Lemma tmp_not_key x : p ≠ tmp_path p x.
Proof.
  unfold tmp_path. destruct p as [|b d]; [done|]. cbn [Base head default Dir tail]. intros [= E].
  apply (f_equal slen) in E. change (slen b = slen (String "." "" +:+ (b +:+ ".tmp." +:+ base64_encode x))) in E.
  rewrite !slen_app in E. pose proof (slen_nonneg (base64_encode x)).
  change (slen ".tmp.") with 5 in E. change (slen ".") with 1 in E. lia.
Qed.

(** After [os.Remove] of one of the process's own names. *)
Definition removed (x : string) (st st' : stage) : Prop :=
  (∃ t, g_temp st' = Some (x, t)) ∧ g_seen st' = g_seen st.

Lemma safe_remove_tmp x t st Q :
  g_temp st = Some (x, t) → (∀ st' r, removed x st st' → Q st' (Ok r)) →
  safe (tried (sysc (Remove (tmp_path p x)))) st Q.
Proof.
  intros Ht HQ. apply safe_tried, safe_sysc; [right; right; eauto|]. intros r st' (_ & _ & Hr). apply HQ.
  destruct (is_ok r); [|rewrite Hr; split; eauto]. rewrite (proj1 Hr x t Ht eq_refl). split; cbn; eauto.
Qed.

Lemma safe_remove_key st Q :
  faults = true → (∀ r, Q st (Ok r)) → safe (tried (sysc (Remove p))) st Q.
Proof.
  intros Hf HQ. apply safe_tried, safe_sysc; [by left|]. intros r st' (_ & _ & Hr).
  assert (st' = st) as ->; [|apply HQ].
  destruct (is_ok r); [|done]. apply Hr. intros x t _. apply tmp_not_key.
Qed.

(** What [writeDurableNoClobber] and its parts leave a process with. *)
Definition placed (k : PrivateKey) (st : stage) (r : res unit) : Prop :=
  match r with Ok _ => ∃ fd, g_seen st = Some (fd, k) | Fail e => errors_Is e ErrInvalid = false end.

(** Cleaning up and failing is always safe. *)
Definition failing {A} (_ : stage) (r : res A) : Prop :=
  match r with Ok _ => False | Fail e => errors_Is e ErrInvalid = false end.
Lemma safe_fail {A} (e : error) st (R : stage → res A → Prop) : R st (Fail e) → safe (pure (Fail e)) st R.
Proof. done. Qed.

Lemma safe_abandon {A} x t st e :
  g_temp st = Some (x, t) → errors_Is e ErrInvalid = false →
  safe (_ ← tried (sysc (Remove (tmp_path p x))); pure (Fail e)) st (failing (A := A)).
Proof. intros Ht He. apply safe_bind. eapply safe_remove_tmp; [done|]. intros. by apply safe_fail. Qed.

Lemma safe_close_abandon {A} x t st fd e :
  g_temp st = Some (x, t) → errors_Is e ErrInvalid = false →
  safe (_ ← tried (sysc (CloseFile fd)); _ ← tried (sysc (Remove (tmp_path p x))); pure (Fail e)) st (failing (A := A)).
Proof.
  intros Ht He. eapply safe_then; [by apply inert_tried, inert_sysc| |done]. intros _ _. by eapply safe_abandon.
Qed.

(** The end of [publish]: the key is linked, the temporary name goes, the directory is synced. *)
Lemma safe_publish_end x fd k st :
  g_temp st = Some (x, Durable fd (encoded_key k)) → g_seen st = Some (fd, k) →
  safe (removed ← tried (sysc (Remove (tmp_path p x)));
        _ ← match removed with
            | Ok _ => mret tt
            | Fail e => _ ← tried (sysc (Remove p)); _ ← tried (sysc (Remove (tmp_path p x))); pure (Fail e)
            end;
        synced ← tried (sysc (SyncDir (Dir p)));
        match synced with
        | Ok _ => mret tt
        | Fail e =>
            _ ← tried (sysc (Remove p)); _ ← tried (sysc (Remove (tmp_path p x)));
            _ ← tried (sysc (SyncDir (Dir p))); pure (Fail e)
        end) st (placed k).
Proof.
  intros Ht Hs. apply safe_bind, safe_tried, safe_sysc; [right; right; eauto|].
  intros [u|e] st' (Hb & Hok & Hr); cbn [is_ok] in Hr.
  - rewrite (proj1 Hr _ _ Ht eq_refl). apply safe_bind. cbn [mret P_ret safe].
    apply safe_bind, safe_tried, safe_sysc; [done|]. intros [v|e] st'' (-> & Hb' & Hok'); [by exists fd|].
    assert (Hf : faults = true) by (destruct faults; [done|by specialize (Hok' eq_refl)]).
    apply safe_bind, safe_remove_key; [done|]. intros _.
    apply safe_bind. eapply safe_remove_tmp; [done|]. intros st3 _ _.
    eapply safe_then; [by apply inert_tried, inert_sysc| |done]. intros _ _. apply safe_fail. by apply Hb'.
  - assert (Hf : faults = true) by (destruct faults; [done|by specialize (Hok _ _ _ Ht eq_refl eq_refl)]).
    subst st'. apply safe_bind, safe_bind, safe_remove_key; [done|]. intros _.
    apply safe_bind. eapply safe_remove_tmp; [done|]. intros st3 _ _. by apply Hb.
Qed.

Lemma safe_publish x fd k st :
  g_temp st = Some (x, Empty fd) → derived k → safe (publish p (tmp_path p x) fd k) st (placed k).
Proof.
  intros Ht Hk. unfold publish. cbv zeta.
  apply safe_bind, safe_bind, safe_tried, safe_sysc; [by exists x|].
  intros [u|e] st1 [Hb1 Hr1]; specialize (Hr1 x Ht); subst st1; cbn [is_ok].
  2: { eapply safe_mono; [eapply safe_close_abandon; [done|by apply Hb1]|]. by intros st' [?|?]. }
  cbn [mret P_ret safe]. apply safe_bind, safe_bind, safe_tried, safe_sysc; [by repeat eexists|].
  intros [v|e] st2 [Hb2 Hr2]; specialize (Hr2 x _ eq_refl); subst st2; cbn [is_ok].
  2: { eapply safe_mono; [eapply safe_close_abandon; [done|by apply Hb2]|]. by intros st' [?|?]. }
  cbn [mret P_ret safe]. apply safe_bind, safe_bind, safe_tried, safe_sysc; [done|].
  intros [v'|e] st3 [-> Hb3].
  2: { eapply safe_mono; [eapply safe_abandon; [done|by apply Hb3]|]. by intros st' [?|?]. }
  cbn [mret P_ret safe]. apply safe_bind, safe_tried, safe_sysc; [split; [done|by exists x, fd, k]|].
  intros [w|e] st4 [Hb4 Hr4]; cbn [is_ok] in Hr4.
  - specialize (Hr4 x fd k eq_refl Hk). subst st4. apply safe_bind, safe_bind, safe_tried. cbn [pure safe mret P_ret].
    by eapply safe_publish_end.
  - subst st4. apply safe_bind, safe_bind, safe_tried. cbn [pure safe].
    eapply safe_mono; [eapply safe_abandon; [done|]|by intros st' [?|?]]. case_match; [done|by apply Hb4].
Qed.

Lemma safe_writeDurable k st : derived k → safe (writeDurableNoClobber p k) st (placed k).
Proof.
  intros Hk. unfold writeDurableNoClobber. apply safe_bind, safe_sysc; [done|].
  intros [x|e] st1 [Hb1 Hr1]; [|by apply Hb1]. destruct Hr1 as [_ ->]. cbn [decide]. cbv zeta.
  rewrite decide_True by done. apply safe_bind, safe_sysc; [by exists x|].
  intros [fd|e] st2 [Hb2 Hr2]; [|by apply Hb2]. rewrite (Hr2 x eq_refl). by apply safe_publish.
Qed.

Lemma safe_release fd st : safe (release (lock_path p) fd) st (λ st' _, st' = st).
Proof.
  unfold release. apply safe_bind, safe_tried, safe_sysc; [by right; left|]. intros r st1 (_ & _ & Hr).
  assert (st1 = st) as ->.
  { destruct (is_ok r); [|done]. apply Hr. intros x t _. apply tmp_not_lock. }
  repeat (eapply safe_then; [by apply inert_tried, inert_sysc|intros _ _|done]). done.
Qed.

Lemma safe_provision st : safe (provision p) st finished.
Proof.
  unfold provision. rewrite Hvalid. eapply safe_then; [by apply inert_pure, blameless_ok|intros _ _|done].
  eapply safe_then; [apply inert_requireSecureDir, dir_shorter|intros _ _|done].
  eapply safe_then; [apply inert_acquireLock|intros fd _|done].
  apply safe_deferring.
  enough (Hs : safe (loaded ← tried (Load p);
    match loaded with
    | Ok private => mret private
    | Fail e => if errors_Is e ErrNotExist then private ← GenerateKey; _ ← writeDurableNoClobber p private; mret private
                else pure (Fail e)
    end) st finished).
  { eapply safe_mono; [exact Hs|]. intros st' r Hr. eapply safe_mono; [apply safe_release|]. by intros st'' _ ->. }
  apply safe_bind, safe_tried. eapply safe_mono; [apply safe_Load|]. intros st1 [k|e] [_ Hf]; [done|].
  destruct (errors_Is e ErrNotExist); [|done]. unfold GenerateKey. apply safe_bind, safe_bind, safe_sysc; [done|].
  intros [seed|e'] st2 [Hb2 Hr2]; [|by apply Hb2]. destruct Hr2 as [Hl ->]. rewrite decide_False by done.
  cbn [mret P_ret safe]. apply safe_bind. eapply safe_mono; [apply safe_writeDurable; by exists seed|].
  by intros st3 [u|e'].
Qed.

Lemma safe_job j st : safe (job_prog p j) st finished.
Proof.
  destruct j; cbn [job_prog]; [|apply safe_provision]. eapply safe_mono; [apply safe_Load|]. by intros st' r [_ Hf].
Qed.

(** ** The calls keep what the processes know *)
Context (Hlen : ∀ n i, slen (random n i) = Z.of_nat n).
(** The suffixes of a run, which reads the random source at most [limit] times, differ. *)
Context (limit : nat)
  (Hdistinct : ∀ i j, (i < limit)%nat → (j < limit)%nat → random 12 i = random 12 j → i = j).

Lemma tmp_path_inj x y : tmp_path p x = tmp_path p y → x = y.
Proof.
  unfold tmp_path. intros [= E]. apply (f_equal bytes_of) in E. rewrite !bytes_of_app in E.
  apply app_inv_head, app_inv_head in E. apply base64_encode_inj. by rewrite <- (of_bytes_of (base64_encode x)), E, of_bytes_of.
Qed.

(** What a call of a process at stage [st] leaves alone. *)
Record keeps (st : stage) (s s' : fs) : Prop := {
  k_draws : (draws s ≤ draws s')%nat;
  k_inodes n i : inodes s !! n = Some i → tmp_fd st ≠ Some n ∨ i_synced i ≠ None → inodes s' !! n = Some i;
  k_temps x : (∃ i, (i < draws s)%nat ∧ x = random 12 i) → (∀ t, g_temp st ≠ Some (x, t)) →
    names s' !! tmp_path p x = names s !! tmp_path p x;
  k_published n : published s' n → published s n ∨ tmp_fd st = Some n;
  k_names n : faults = false → names s !! p = Some n → names s' !! p = Some n }.

(** Two processes do not share temporary files. *)
Definition apart (st st2 : stage) : Prop :=
  (∀ x t t', g_temp st = Some (x, t) → g_temp st2 ≠ Some (x, t')) ∧ (∀ n, tmp_fd st = Some n → tmp_fd st2 ≠ Some n).

Lemma key_file_kept st s s' n k : keeps st s s' → key_file s n k → key_file s' n k.
Proof.
  intros Hk (i & Hi & -> & Hd). eexists. split; [|by split]. eapply k_inodes; [done..|]. by right.
Qed.

Lemma fact_kept st st2 s s' : keeps st s s' → apart st st2 → fact s st2 → fact s' st2.
Proof.
  intros Hk [Hn Hf] [Ht Hs]. split.
  - intros x t E. destruct (Ht x t E) as [(i & Hi & Hx) Hw].
    assert (Hx' : ∃ i, (i < draws s)%nat ∧ x = random 12 i) by eauto.
    assert (Hown : ∀ t, g_temp st ≠ Some (x, t)) by (intros t' E'; by apply (Hn _ _ t E')).
    split; [exists i; split; [|done]; pose proof (k_draws _ _ _ Hk); lia|].
    assert (Hfd : ∀ n, tmp_fd st2 = Some n → tmp_fd st ≠ Some n) by (intros n E1 E2; by apply (Hf n E2)).
    unfold tmp_fd in Hfd at 1. rewrite E in Hfd.
    destruct t as [|fd|fd data|fd data]; [done| | |]; destruct Hw as [Hw1 Hw2];
      (split; [rewrite (k_temps _ _ _ Hk) by done; done|]); try (match type of Hw2 with _ ∧ _ => destruct Hw2 as [Hp Hw2] end);
      try (split; [intros Hp'; destruct (k_published _ _ _ Hk _ Hp'); [done|by eapply Hfd]|]);
      (eapply k_inodes; [done..|left; by apply Hfd]).
  - intros fd k E. destruct (Hs fd k E) as [Hkf Hnm]. split; [by eapply key_file_kept|].
    intros Hff. eapply k_names; eauto.
Qed.

(** The new knowledge of the caller: its names and files are old or fresh. *)
Definition grown (s s' : fs) (st st' : stage) : Prop :=
  (∀ x t, g_temp st' = Some (x, t) →
     (∃ t0, g_temp st = Some (x, t0)) ∨ (x = random 12 (draws s) ∧ (draws s < draws s')%nat)) ∧
  (∀ n, tmp_fd st' = Some n → tmp_fd st = Some n ∨ inodes s !! n = None).

Lemma apart_grown s s' st st' st2 :
  grown s s' st st' → (draws s' ≤ limit)%nat → fact s st2 → apart st st2 → apart st' st2.
Proof.
  intros [Hx Hn] Hlim [Ht _] [Ha Hb]. split.
  - intros x t t' E E2. destruct (Hx _ _ E) as [[t0 E0]|[-> Hlt]]; [by apply (Ha _ _ t' E0)|].
    destruct (Ht _ _ E2) as [(i & Hi & Heq) _]. apply Hdistinct in Heq; lia.
  - intros n E E2. destruct (Hn _ E) as [E0|E0]; [by apply (Hb _ E0)|].
    unfold tmp_fd in E2. destruct (g_temp st2) as [[x t]|] eqn:Eg; [|done]. destruct (Ht _ _ eq_refl) as [_ Hw].
    destruct t; [done| | |]; injection E2 as ->; destruct Hw as [_ Hw]; try (match type of Hw with _ ∧ _ => destruct Hw as [_ Hw] end); congruence.
Qed.

Record sound {B} (o : sys B) (st : stage) (s : fs) (b : res B) (s' : fs) (st' : stage) : Prop := {
  so_result : result o st b st'; so_fact : fact s' st'; so_file : file_ok s';
  so_keeps : keeps st s s'; so_grown : grown s s' st st' }.

(** *** Calls that only look *)
Definition same_files (s s' : fs) : Prop :=
  inodes s' = inodes s ∧ names s' = names s ∧ stable s' = stable s ∧ (draws s ≤ draws s')%nat.

Lemma keeps_same st s s' : same_files s s' → keeps st s s'.
Proof.
  intros (Hi & Hn & Hs & Hd). split; unfold published; rewrite ?Hi, ?Hn, ?Hs; auto.
Qed.
Lemma file_ok_same s s' : same_files s s' → file_ok s → file_ok s'.
Proof. intros (Hi & Hn & Hs & Hd). unfold file_ok, published, key_file. by rewrite Hi, Hn, Hs. Qed.
Lemma fact_same s s' st : same_files s s' → fact s st → fact s' st.
Proof.
  intros (Hi & Hn & Hs & Hd) [Ht Hk]. split.
  - intros x t E. destruct (Ht x t E) as [(i & Hlt & Hx) Hw]. split; [exists i; split; [lia|done]|].
    unfold published. by rewrite Hi, Hn, Hs.
  - intros fd k E. destruct (Hk fd k E). split; [|by rewrite Hn]. unfold key_file. by rewrite Hi.
Qed.
Lemma grown_refl s s' st : grown s s' st st.
Proof. split; eauto. Qed.
Lemma grown_temp s s' st st' : g_temp st' = g_temp st → grown s s' st st'.
Proof. intros E. split; unfold tmp_fd; rewrite E; eauto. Qed.

Lemma sound_same {B} (o : sys B) st s b s' :
  same_files s s' → fact s st → file_ok s → result o st b st → sound o st s b s' st.
Proof.
  intros Hs Hf Ho Hr. split; [done|by eapply fact_same|by eapply file_ok_same|by apply keeps_same|apply grown_refl].
Qed.

Lemma same_files_refl s : same_files s s.
Proof. by split_and!. Qed.

Lemma blameless_fail {A} e : errors_Is e ErrInvalid = false → blameless (A := A) (Fail e).
Proof. by intros ? e' [= <-]. Qed.

Lemma lookup_name_Some s q n i : lookup_name s q = Some (n, i) ↔ names s !! q = Some n ∧ inodes s !! n = Some i.
Proof.
  unfold lookup_name. destruct (names s !! q) as [m|]; cbn; [|naive_solver].
  destruct (inodes s !! m) as [j|] eqn:E; cbn; [|naive_solver]. naive_solver.
Qed.

(** The file at the key path is a key. *)
Lemma key_at_path s n i : file_ok s → lookup_name s p = Some (n, i) → ∃ k, key_inode k i ∧ key_file s n k.
Proof.
  intros Ho [Hn Hi]%lookup_name_Some. destruct (Ho n (or_introl Hn)) as (k & j & Hj & Hk).
  simplify_eq. exists k. split; [done|]. by eexists.
Qed.
Lemma known_key k i : key_inode k i → info_of i = known_info.
Proof. intros [-> _]. unfold info_of. cbn. by rewrite llen_encoded_key. Qed.

Lemma Lstat_sound st s pid fault q b s' :
  fact s st → file_ok s → call random pid fault (Lstat q) s = Some (b, s') → sound (Lstat q) st s b s' st.
Proof.
  intros Hf Ho Hc. cbn in Hc. injection Hc as <- <-. apply sound_same; [by split_and!|done..|]. split; [done|].
  destruct fault; [by split; [apply blameless_fail|]|]. destruct (lookup_name s q) as [[n i]|] eqn:E.
  - split; [apply blameless_ok|]. intros -> i' [= <-]. destruct (key_at_path _ _ _ Ho E) as (k & Hk & _).
    by eapply known_key.
  - by split; [apply blameless_fail|].
Qed.

Lemma OpenRead_sound st s pid fault q b s' :
  fact s st → file_ok s → call random pid fault (OpenRead q) s = Some (b, s') →
  ∃ st', sound (OpenRead q) st s b s' st'.
Proof.
  intros Hf Ho Hc. cbn in Hc. injection Hc as <- <-.
  assert (Hfail : ∀ e, errors_Is e ErrInvalid = false → ∃ st', sound (OpenRead q) st s (Fail e) s st').
  { intros e He. exists st. apply sound_same; [apply same_files_refl|done..|]. by split; [apply blameless_fail|]. }
  destruct fault; [by apply Hfail|]. destruct (lookup_name s q) as [[n i]|] eqn:E; [|by apply Hfail].
  case_bool_decide; [by apply Hfail|]. destruct (decide (q = p)) as [->|Hq].
  - destruct (key_at_path _ _ _ Ho E) as (k & Hk & Hkf). exists (with_seen st n k). split.
    + split; [apply blameless_ok|]. rewrite bool_decide_eq_true_2 by done. exists k. split; [by destruct Hk|done].
    + destruct Hf as [Ht Hs]. split; [done|]. intros fd k' [= <- <-]. split; [done|]. intros _.
      by apply lookup_name_Some in E as [? _].
    + done.
    + apply keeps_same, same_files_refl.
    + by apply grown_temp.
  - exists st. apply sound_same; [apply same_files_refl|done..|]. split; [apply blameless_ok|].
    by rewrite bool_decide_eq_false_2.
Qed.

Lemma Fstat_sound st s pid fault fd b s' :
  fact s st → file_ok s → call random pid fault (Fstat fd) s = Some (b, s') → sound (Fstat fd) st s b s' st.
Proof.
  intros Hf Ho Hc. cbn in Hc. injection Hc as <- <-. apply sound_same; [apply same_files_refl|done..|].
  destruct fault; [by split_and!; [|apply blameless_fail|]|].
  destruct (inodes s !! fd) as [i|] eqn:E; [|by split_and!; [|apply blameless_fail|]].
  split_and!; [done|apply blameless_ok|]. intros k i' Hg [= <-]. destruct (proj2 Hf _ _ Hg) as [(j & Hj & Hk) _].
  simplify_eq. by eapply known_key.
Qed.

Lemma ReadAtMost_sound st s pid fault fd n b s' :
  fact s st → file_ok s → call random pid fault (ReadAtMost fd n) s = Some (b, s') →
  sound (ReadAtMost fd n) st s b s' st.
Proof.
  intros Hf Ho Hc. cbn in Hc. injection Hc as <- <-. apply sound_same; [apply same_files_refl|done..|].
  destruct fault; [by split_and!; [|apply blameless_fail|]|].
  destruct (inodes s !! fd) as [i|] eqn:E; [|by split_and!; [|apply blameless_fail|]].
  split_and!; [done|apply blameless_ok|]. intros k data Hg [= <-]. destruct (proj2 Hf _ _ Hg) as [(j & Hj & -> & _) _].
  by simplify_eq.
Qed.

(** *** Calls that add a name *)
Lemma file_ok_kept st s s' :
  keeps st s s' → (∀ n, published s' n → published s n) → file_ok s → file_ok s'.
Proof. intros Hk Hp Ho n Hn. destruct (Ho n (Hp n Hn)) as [k Hf]. exists k. by eapply key_file_kept. Qed.

Lemma fresh_inode_None s : inodes s !! fresh_inode s = None.
Proof. apply not_elem_of_dom. unfold fresh_inode. apply is_fresh. Qed.

(** Names that no process uses for a key. *)
Definition others (st : stage) (q : path) : Prop :=
  q ≠ p ∧ ∀ x, (∀ t, g_temp st ≠ Some (x, t)) → q ≠ tmp_path p x.

Lemma published_add s q i n : q ≠ p → published (add_file s q i) n ↔ published s n.
Proof. intros Hq. unfold published, add_file. cbn. by rewrite lookup_insert_ne. Qed.

Lemma keeps_add st s q i : others st q → keeps st s (add_file s q i).
Proof.
  intros [Hp Hx]. split; [done|..].
  - intros n j Hj _. cbn. rewrite lookup_insert_ne; [done|]. intros <-. by rewrite fresh_inode_None in Hj.
  - intros x _ Ho. cbn. rewrite lookup_insert_ne; [done|]. by apply Hx.
  - intros n. rewrite published_add by done. by left.
  - intros n _ Hn. cbn. by rewrite lookup_insert_ne.
Qed.

Lemma fact_add s st q i : q ≠ p → names s !! q = None → fact s st → fact (add_file s q i) st.
Proof.
  intros Hp Hq [Ht Hs].
  assert (Hin : ∀ n j, inodes s !! n = Some j → inodes (add_file s q i) !! n = Some j).
  { intros n j Hj. cbn. rewrite lookup_insert_ne; [done|]. intros <-. by rewrite fresh_inode_None in Hj. }
  assert (Hnm : ∀ q' n, names s !! q' = Some n → names (add_file s q i) !! q' = Some n).
  { intros q' n Hn. cbn. rewrite lookup_insert_ne; [done|]. intros <-. by rewrite Hq in Hn. }
  split.
  - intros x t E. destruct (Ht x t E) as [Hx Hw]. split; [done|].
    destruct t; rewrite ?published_add by done; naive_solver.
  - intros fd k E. destruct (Hs fd k E) as [(j & Hj & Hk) Hn]. split; [exists j; auto|auto].
Qed.

Lemma create_cases s q kind perm r s' : create s q kind perm = (r, s') →
  (r = Fail not_exist ∧ s' = s) ∨ (r = Ok (fresh_inode s) ∧ s' = add_file s q (mkInode kind perm false [] None)).
Proof. unfold create. destruct (in_directory s q); intros [= <- <-]; auto. Qed.

Lemma sound_add {B} (o : sys B) st s q i b :
  others st q → names s !! q = None → fact s st → file_ok s → result o st b st →
  sound o st s b (add_file s q i) st.
Proof.
  intros Hq Hn Hf Ho Hr. pose proof (keeps_add st s q i Hq) as Hk. destruct Hq as [Hq _].
  split; [done|by apply fact_add| |done|apply grown_refl].
  eapply file_ok_kept; [done| |done]. intros n. by rewrite published_add.
Qed.

Lemma tmp_path_length x : (length p ≤ length (tmp_path p x))%nat.
Proof. unfold tmp_path. destruct p; cbn; lia. Qed.
Lemma lock_not_key : lock_path p ≠ p.
Proof.
  unfold lock_path. destruct p as [|b d]; [done|]. cbn [Base head default Dir tail]. intros [= E].
  apply (f_equal slen) in E. rewrite slen_app in E. change (slen ".lock") with 5 in E. lia.
Qed.

Lemma Mkdir_sound st s pid fault q b s' :
  allowed (Mkdir q) st → fact s st → file_ok s → call random pid fault (Mkdir q) s = Some (b, s') →
  sound (Mkdir q) st s b s' st.
Proof.
  cbn [allowed call]. intros Ha Hf Ho Hc. injection Hc as Hc.
  assert (Hfail : ∀ e, errors_Is e ErrInvalid = false → sound (Mkdir q) st s (Fail e) s st).
  { intros e He. apply sound_same; [apply same_files_refl|done..|]. by split; [|apply blameless_fail]. }
  destruct fault; [injection Hc as <- <-; by apply Hfail|].
  destruct (names s !! q) as [n|] eqn:E; [injection Hc as <- <-; by apply Hfail|].
  destruct (create s q Directory 448) as [r s1] eqn:Ec. injection Hc as <- <-.
  destruct (create_cases _ _ _ _ _ _ Ec) as [[-> ->]|[-> ->]]; [by apply Hfail|].
  apply sound_add; try done. split; [intros ->; lia|].
  intros x _ ->. pose proof (tmp_path_length x). lia.
Qed.

Lemma OpenLock_sound st s pid fault q b s' :
  allowed (OpenLock q) st → fact s st → file_ok s → call random pid fault (OpenLock q) s = Some (b, s') →
  sound (OpenLock q) st s b s' st.
Proof.
  cbn [allowed call]. intros -> Hf Ho Hc. injection Hc as Hc.
  assert (Hsame : ∀ r, blameless r → sound (OpenLock (lock_path p)) st s r s st).
  { intros r Hr. apply sound_same; [apply same_files_refl|done..|by split]. }
  destruct fault; [injection Hc as <- <-; by apply Hsame, blameless_fail|].
  destruct (names s !! lock_path p) as [n|] eqn:E.
  { injection Hc as <- <-. apply Hsame. repeat case_match; first [apply blameless_ok|by apply blameless_fail]. }
  destruct (create_cases _ _ _ _ _ _ Hc) as [[-> ->]|[-> ->]]; [by apply Hsame, blameless_fail|].
  apply sound_add; try done. split; [apply lock_not_key|].
  intros x _. apply tmp_not_lock.
Qed.

Lemma CreateExcl_sound st s pid fault q b s' :
  allowed (CreateExcl q) st → fact s st → file_ok s → call random pid fault (CreateExcl q) s = Some (b, s') →
  ∃ st', sound (CreateExcl q) st s b s' st'.
Proof.
  cbn [allowed call]. intros (x & Hx & ->) Hf Ho Hc. injection Hc as Hc.
  assert (Hfail : ∀ e, errors_Is e ErrInvalid = false → ∃ st', sound (CreateExcl (tmp_path p x)) st s (Fail e) s st').
  { intros e He. exists st. apply sound_same; [apply same_files_refl|done..|]. by split; [apply blameless_fail|]. }
  destruct fault; [injection Hc as <- <-; by apply Hfail|].
  destruct (names s !! tmp_path p x) as [n|] eqn:E; [injection Hc as <- <-; by apply Hfail|].
  destruct (create_cases _ _ _ _ _ _ Hc) as [[-> ->]|[-> ->]]; [by apply Hfail|].
  set (i := mkInode Regular 384 false [] None). exists (with_temp st x (Empty (fresh_inode s))).
  assert (Hoth : others st (tmp_path p x)).
  { split; [intros E'; by apply (tmp_not_key x)|]. intros y Hy Heq. apply tmp_path_inj in Heq as <-. by apply (Hy _ Hx). }
  pose proof (keeps_add st s _ i Hoth) as Hk. destruct (fact_add s st _ i (proj1 Hoth) E Hf) as [Ht Hs]. split.
  - split; [apply blameless_ok|]. intros y Hy. rewrite Hx in Hy. by injection Hy as <-.
  - split; [|exact Hs]. intros y t [= <- <-]. split; [by destruct (proj1 Hf _ _ Hx)|].
    split_and!; [by cbn; rewrite lookup_insert_eq| |by cbn; rewrite lookup_insert_eq].
    intros Hp. apply published_add in Hp; [|apply Hoth]. destruct (Ho _ Hp) as (k & j & Hj & _).
    by rewrite fresh_inode_None in Hj.
  - eapply file_ok_kept; [done| |done]. intros n. by rewrite published_add by apply Hoth.
  - done.
  - split; [intros y t [= <- <-]; eauto|]. intros n [= <-]. right. apply fresh_inode_None.
Qed.

(** *** Calls on the caller's temporary file *)
Lemma keeps_inode st s fd i i' :
  tmp_fd st = Some fd → inodes s !! fd = Some i → i_synced i = None →
  keeps st s (set_inodes s (<[fd := i']> (inodes s))).
Proof.
  intros Ht Hi Hs. split; cbn; auto. intros n j Hj Hor. rewrite lookup_insert_ne; [done|]. intros <-. naive_solver.
Qed.

Lemma sound_inode {B} (o : sys B) st s x t t' fd i i' b :
  fact s st → file_ok s → g_temp st = Some (x, t) → tmp_fd st = Some fd →
  inodes s !! fd = Some i → i_synced i = None → ¬ published s fd →
  let s' := set_inodes s (<[fd := i']> (inodes s)) in
  temp_fact s' x t' → (∀ n, tmp_fd (with_temp st x t') = Some n → n = fd) → result o st b (with_temp st x t') →
  sound o st s b s' (with_temp st x t').
Proof.
  intros Hf Ho Hg Hfd Hi Hs Hp s' Ht Hn Hr. pose proof (keeps_inode st s fd i i' Hfd Hi Hs) as Hk. split; [done|..|done|].
  - split; [by intros y u [= <- <-]|]. intros fd' k E. destruct (proj2 Hf fd' k E) as [Hkf Hnm].
    split; [by eapply key_file_kept|done].
  - by eapply file_ok_kept.
  - split; [intros y u [= <- <-]; eauto|]. intros n E. rewrite (Hn n E). by left.
Qed.

Lemma Write_sound st s pid fault fd data b s' :
  allowed (Write fd data) st → fact s st → file_ok s → call random pid fault (Write fd data) s = Some (b, s') →
  ∃ st', sound (Write fd data) st s b s' st'.
Proof.
  cbn [allowed call]. intros (x & Hx) Hf Ho Hc. injection Hc as Hc. destruct (proj1 Hf _ _ Hx) as (Hd & Hn & Hp & Hi).
  rewrite Hi in Hc. cbn [i_kind i_perm i_special i_data app] in Hc.
  assert (Hfd : tmp_fd st = Some fd) by (unfold tmp_fd; by rewrite Hx).
  destruct fault as [m|]; injection Hc as <- <-.
  - exists (with_temp st x Reserved). eapply sound_inode; try done.
    split; [by apply blameless_fail|]. by intros y [= <-]%(eq_trans (eq_sym Hx)).
  - exists (with_temp st x (Filled fd data)).
    eapply sound_inode; try done.
    + split; [done|]. split_and!; [done..|]. cbn. by rewrite lookup_insert_eq.
    + by intros n [= <-].
    + split; [apply blameless_ok|]. by intros y [= <-]%(eq_trans (eq_sym Hx)).
Qed.

Lemma Fsync_sound st s pid fault fd b s' :
  allowed (Fsync fd) st → fact s st → file_ok s → call random pid fault (Fsync fd) s = Some (b, s') →
  ∃ st', sound (Fsync fd) st s b s' st'.
Proof.
  cbn [allowed call]. intros (x & data & Hx) Hf Ho Hc. injection Hc as Hc.
  destruct (proj1 Hf _ _ Hx) as (Hd & Hn & Hp & Hi). rewrite Hi in Hc.
  assert (Hfd : tmp_fd st = Some fd) by (unfold tmp_fd; by rewrite Hx). destruct fault; injection Hc as <- <-.
  - exists st. apply sound_same; [apply same_files_refl|done..|]. by split; [apply blameless_fail|].
  - exists (with_temp st x (Durable fd data)).
    eapply sound_inode; try done.
    + split; [done|]. split; [done|]. cbn. by rewrite lookup_insert_eq.
    + by intros n [= <-].
    + split; [apply blameless_ok|]. by intros y d [= <- <-]%(eq_trans (eq_sym Hx)).
Qed.

(** *** Publishing *)
Lemma Link_sound st s pid fault old new b s' :
  allowed (Link old new) st → fact s st → file_ok s → call random pid fault (Link old new) s = Some (b, s') →
  ∃ st', sound (Link old new) st s b s' st'.
Proof.
  cbn [allowed call]. intros (-> & x & fd & k & Hx & Hk & ->) Hf Ho Hc. injection Hc as Hc.
  destruct (proj1 Hf _ _ Hx) as (Hd & Hn & Hi). rewrite Hn in Hc.
  assert (Hfd : tmp_fd st = Some fd) by (unfold tmp_fd; by rewrite Hx).
  assert (Hfail : ∀ e, errors_Is e ErrInvalid = false → ∃ st', sound (Link (tmp_path p x) p) st s (Fail e) s st').
  { intros e He. exists st. apply sound_same; [apply same_files_refl|done..|]. by split; [apply blameless_fail|]. }
  destruct fault; [injection Hc as <- <-; by apply Hfail|].
  destruct (names s !! p) as [n|] eqn:E; [injection Hc as <- <-; by apply Hfail|].
  destruct (in_directory s p); injection Hc as <- <-; [|by apply Hfail].
  set (s' := set_names s (<[p := fd]> (names s))).
  assert (Hkf : key_file s' fd k) by (eexists; split; [exact Hi|by split]).
  assert (Hpub : ∀ n, published s' n → published s n ∨ n = fd).
  { intros n [Hp|Hp]; [|by left; right]. cbn in Hp. rewrite lookup_insert_eq in Hp. right. congruence. }
  assert (Hkeep : keeps st s s').
  { split; cbn; [done|done|..].
    - intros y _ _. rewrite lookup_insert_ne; [done|]. apply tmp_not_key.
    - intros n Hp. destruct (Hpub n Hp) as [?| ->]; auto.
    - intros n _ Hp. congruence. }
  exists (with_seen st fd k). split; [|..|done|by apply grown_temp].
  - split; [apply blameless_ok|]. cbn [is_ok]. intros y fd' k' [= <- <- He]%(eq_trans (eq_sym Hx)) Hk'.
    apply (f_equal parseCanonicalPrivate) in He. rewrite !parse_encoded in He by done. by injection He as <-.
  - split.
    + intros y t E'. cbn in E'. rewrite Hx in E'. injection E' as <- <-. split; [done|].
      split; [|done]. cbn. rewrite lookup_insert_ne; [done|]. apply tmp_not_key.
    + intros fd' k' [= <- <-]. split; [done|]. intros _. cbn. by rewrite lookup_insert_eq.
  - intros n Hp. destruct (Hpub n Hp) as [Hp'| ->]; [|by exists k]. destruct (Ho n Hp') as [k' Hk'].
    exists k'. by eapply key_file_kept.
Qed.

(** *** Removing and syncing names *)
Definition without (q : path) (s : fs) : fs := set_names s (delete q (names s)).

Lemma names_without q s q' : q' ≠ q → names (without q s) !! q' = names s !! q'.
Proof. intros Hq. cbn. by rewrite lookup_delete_ne. Qed.

Lemma published_without q s n : published (without q s) n → published s n.
Proof. intros [Hp|Hp]; [left|by right]. cbn in Hp. by apply lookup_delete_Some in Hp as [_ Hp]. Qed.

Lemma keeps_remove st s q : allowed (Remove q) st → keeps st s (without q s).
Proof.
  cbn [allowed]. intros Ha. split; [done|done|..].
  - intros x _ Hx. apply names_without. intros <-. destruct Ha as [[E' _]|[E'|(y & t & Hy & E')]].
    + by apply (tmp_not_key x).
    + by apply (tmp_not_lock x).
    + apply tmp_path_inj in E' as ->. by apply (Hx t).
  - intros m Hp. left. by eapply published_without.
  - intros m Hfl Hm. rewrite names_without; [done|]. intros <-.
    destruct Ha as [[_ ?]|[E'|(x & t & _ & E')]]; [congruence|by apply lock_not_key|by apply (tmp_not_key x)].
Qed.

Lemma own_seen_kept st s s' : keeps st s s' → fact s st →
  ∀ fd k, g_seen st = Some (fd, k) → seen_fact s' fd k.
Proof.
  intros Hk Hf fd k Hs. destruct (proj2 Hf _ _ Hs) as [Hkf Hn]. split; [by eapply key_file_kept|].
  intros Hfl. eapply k_names; [done..|]. by apply Hn.
Qed.

Lemma temp_kept_without st s q x t :
  fact s st → g_temp st = Some (x, t) → q ≠ tmp_path p x → temp_fact (without q s) x t.
Proof.
  intros Hf Hx Hq. destruct (proj1 Hf _ _ Hx) as [Hd Hw]. split; [done|].
  destruct t; [done|..]; destruct Hw as [Hn Hw]; (split; [by rewrite names_without|]); try done;
    destruct Hw as [Hp Hi]; (split; [intros Hp'; by apply Hp, (published_without q)|done]).
Qed.

Lemma Remove_sound st s pid fault q b s' :
  allowed (Remove q) st → fact s st → file_ok s → (faults = false → fault = None) →
  call random pid fault (Remove q) s = Some (b, s') → ∃ st', sound (Remove q) st s b s' st'.
Proof.
  intros Ha Hf Ho Hff Hc. cbn [call] in Hc. injection Hc as Hc.
  assert (Hfail : ∀ e, errors_Is e ErrInvalid = false → (faults = false → names s !! q = None) →
    ∃ st', sound (Remove q) st s (Fail e) s st').
  { intros e He Hn. exists st. apply sound_same; [apply same_files_refl|done..|].
    split_and!; [by apply blameless_fail| |done]. intros x fd data Hx -> Hfl. specialize (Hn Hfl).
    destruct (proj1 Hf _ _ Hx) as (_ & Hn' & _). congruence. }
  destruct fault; [injection Hc as <- <-; apply Hfail; [done|by intros ?%Hff]|].
  destruct (names s !! q) as [n|] eqn:E; injection Hc as <- <-; [clear Hfail|by apply Hfail].
  change (set_names s (delete q (names s))) with (without q s).
  pose proof (keeps_remove st s q Ha) as Hk. pose proof (own_seen_kept _ _ _ Hk Hf) as Hseen.
  assert (Hfile : file_ok (without q s)) by (eapply file_ok_kept; [done|apply published_without|done]).
  assert (Hcase : (∃ x t, g_temp st = Some (x, t) ∧ q = tmp_path p x) ∨ ∀ x t, g_temp st = Some (x, t) → q ≠ tmp_path p x).
  { destruct (g_temp st) as [[x t]|]; [|by right]. destruct (decide (q = tmp_path p x)); [left; eauto|right]. by intros y u [= <- <-]. }
  destruct Hcase as [(x & t & Hx & ->)|Hno].
  - exists (with_temp st x Reserved). split; [| |done|done|].
    + split_and!; [apply blameless_ok|done|]. cbn [is_ok]. split; [by intros y u [= <- <-]%(eq_trans (eq_sym Hx))|].
      intros Hn. by destruct (Hn x t Hx).
    + split; [|done]. intros y u [= <- <-]. by destruct (proj1 Hf _ _ Hx).
    + split; [intros y u [= <- <-]; eauto|by intros m [=]].
  - exists st. split; [| |done|done|apply grown_refl].
    + split_and!; [apply blameless_ok|done|]. split; [|done]. intros x t Hx ->. by destruct (Hno x t Hx).
    + split; [|done]. intros x t Hx. apply (temp_kept_without st); [done..|by apply (Hno x t)].
Qed.

Lemma SyncDir_sound st s pid fault d b s' :
  fact s st → file_ok s → (faults = false → fault = None) →
  call random pid fault (SyncDir d) s = Some (b, s') → sound (SyncDir d) st s b s' st.
Proof.
  intros Hf Ho Hff Hc. cbn [call] in Hc. injection Hc as Hc.
  set (s1 := set_stable s (choose (entry_of d) (names s) (stable s))) in Hc.
  assert (Hpub : ∀ n, published s1 n → published s n).
  { intros n [Hp|Hp]; [by left|]. cbn in Hp. rewrite lookup_choose in Hp. destruct (entry_of d p); [by left|by right]. }
  assert (Hr : result (SyncDir d) st b st).
  { split; [done|]. destruct fault as [[|m]|]; injection Hc as <- <-.
    1, 2: split; [by apply blameless_fail|by intros ?%Hff]. split; [apply blameless_ok|done]. }
  assert (s' = s ∨ s' = s1) as [->| ->] by (destruct fault as [[|m]|]; injection Hc as <- <-; auto).
  { by apply sound_same; [apply same_files_refl|..]. }
  assert (Hk : keeps st s s1) by (split; auto).
  split; [done| |by eapply file_ok_kept|done|apply grown_refl]. split; [|by eapply own_seen_kept].
  intros x t Hx. destruct (proj1 Hf _ _ Hx) as [Hd Hw]. split; [done|]. destruct t; naive_solver.
Qed.

Lemma ReadRandom_sound st s pid fault n b s' :
  fact s st → file_ok s → call random pid fault (ReadRandom n) s = Some (b, s') →
  ∃ st', sound (ReadRandom n) st s b s' st'.
Proof.
  intros Hf Ho Hc. cbn [call] in Hc. injection Hc as Hc. destruct fault; injection Hc as <- <-.
  { exists st. apply sound_same; [apply same_files_refl|done..|]. by split; [apply blameless_fail|]. }
  set (s' := set_draws s (S (draws s))). assert (Hs : same_files s s') by (split_and!; cbn; try done; lia).
  destruct (decide (n = 12%nat)) as [->|Hn].
  - exists (with_temp st (random 12 (draws s)) Reserved). destruct (fact_same _ _ _ Hs Hf) as [Ht Hk]. split.
    + split; [apply blameless_ok|]. split; [apply Hlen|]. by rewrite decide_True.
    + split; [|done]. intros x t [= <- <-]. split; [|done]. exists (draws s). cbn. split; [lia|done].
    + by eapply file_ok_same.
    + by apply keeps_same.
    + split; [intros x t [= <- <-]; right; split; [done|cbn; lia]|by intros m [=]].
  - exists st. apply sound_same; [done..|]. split; [apply blameless_ok|]. split; [apply Hlen|]. by rewrite decide_False.
Qed.

(** Every call an allowed process makes keeps the key file whole and the others' knowledge true. *)
Lemma call_sound {B} (o : sys B) st s pid fault b s' :
  allowed o st → fact s st → file_ok s → (faults = false → fault = None) →
  call random pid fault o s = Some (b, s') → ∃ st', sound o st s b s' st'.
Proof.
  intros Ha Hf Ho Hff Hc. destruct o.
  - exists st. by eapply Lstat_sound.
  - by eapply OpenRead_sound.
  - exists st. by eapply Fstat_sound.
  - exists st. by eapply ReadAtMost_sound.
  - exists st. by eapply Mkdir_sound.
  - exists st. by eapply OpenLock_sound.
  - exists st. cbn in Hc. destruct fault; [|destruct (locks s !! fd); [done|]]; injection Hc as <- <-;
      (apply sound_same; [by split_and!|done..|]); split; first [done|apply blameless_ok|by apply blameless_fail].
  - exists st. cbn in Hc. injection Hc as <- <-. apply sound_same; [by case_bool_decide; split_and!|done..|].
    split; [done|apply blameless_ok].
  - by eapply CreateExcl_sound.
  - by eapply Write_sound.
  - by eapply Fsync_sound.
  - exists st. cbn in Hc. injection Hc as <- <-. apply sound_same; [by split_and!|done..|]. split; [done|].
    destruct fault; [by apply blameless_fail|apply blameless_ok].
  - by eapply Link_sound.
  - by eapply Remove_sound.
  - exists st. by eapply SyncDir_sound.
  - by eapply ReadRandom_sound.
Qed.

(** ** Machines *)
Definition faultless (a : action) : bool := match a with Advance _ (Some _) => false | _ => true end.

Definition inv (m : machine) : Prop :=
  file_ok (m_fs m) ∧ ∃ g : nat → stage,
    (∀ pid pr, m_pool m !! pid = Some pr → fact (m_fs m) (g pid) ∧ safe pr (g pid) finished) ∧
    (∀ pid pid' pr pr', pid ≠ pid' → m_pool m !! pid = Some pr → m_pool m !! pid' = Some pr' → apart (g pid) (g pid')).

Definition blank : stage := mkStage None None.
Lemma fact_blank s : fact s blank.
Proof. by split. Qed.
Lemma apart_blank_l st : apart blank st.
Proof. by split. Qed.
Lemma apart_sym st st2 : apart st st2 → apart st2 st.
Proof.
  intros [Ha Hb]. split; [|intros n H2 Ho; by apply (Hb n)]. intros x t t' Ht2 Ht. by apply (Ha x t' t).
Qed.
#[local] Hint Resolve fact_blank apart_blank_l apart_sym : core.

Definition upd (g : nat → stage) (pid : nat) (st : stage) : nat → stage :=
  λ pid', if decide (pid' = pid) then st else g pid'.
Lemma upd_eq g pid st : upd g pid st pid = st.
Proof. unfold upd. by rewrite decide_True. Qed.
Lemma upd_ne g pid st pid' : pid' ≠ pid → upd g pid st pid' = g pid'.
Proof. intros Hn. unfold upd. by rewrite decide_False. Qed.

(** A process arrives at stage [st] with the program [pr]; the others stay where they are. *)
Lemma inv_upd s' pool g pid pr st :
  file_ok s' → fact s' st → safe pr st finished →
  (∀ pid' pr', pid' ≠ pid → pool !! pid' = Some pr' → fact s' (g pid') ∧ safe pr' (g pid') finished ∧ apart st (g pid')) →
  (∀ a b pa pb, a ≠ b → a ≠ pid → b ≠ pid → pool !! a = Some pa → pool !! b = Some pb → apart (g a) (g b)) →
  inv (mkMachine s' (<[pid := pr]> pool)).
Proof.
  intros Ho Hf Hs Hoth Hap. split; [done|]. exists (upd g pid st). cbn [m_fs m_pool]. split.
  - intros a pa Ha. destruct (decide (a = pid)) as [->|Hne].
    + rewrite lookup_insert_eq in Ha. injection Ha as <-. by rewrite upd_eq.
    + rewrite lookup_insert_ne in Ha by done. rewrite upd_ne by done. by destruct (Hoth _ _ Hne Ha) as (? & ? & _).
  - intros a b pa pb Hab Ha Hb. destruct (decide (a = pid)) as [->|Hna], (decide (b = pid)) as [->|Hnb]; [done|..].
    + rewrite lookup_insert_ne in Hb by done. rewrite upd_eq, upd_ne by done. by apply (Hoth _ _ Hnb Hb).
    + rewrite lookup_insert_ne in Ha by done. rewrite upd_eq, upd_ne by done. by apply apart_sym, (Hoth _ _ Hna Ha).
    + rewrite lookup_insert_ne in Ha, Hb by done. rewrite !upd_ne by done. by eapply (Hap a b).
Qed.

Lemma file_ok_crash flushed garbage s : file_ok s → file_ok (crash flushed garbage s).
Proof.
  intros Ho n Hp.
  assert (Hold : published s n).
  { unfold published, crash in Hp. cbn in Hp. rewrite lookup_choose in Hp. unfold published. destruct (flushed p); naive_solver. }
  destruct (Ho n Hold) as (k & i & Hi & -> & Hd). exists k. eexists. split; [|by split].
  unfold crash. cbn [inodes]. rewrite map_lookup_imap, Hi. done.
Qed.

Lemma act_inv a m m' :
  inv m → (faults = false → faultless a = true) → act random p a m = Some m' →
  (draws (m_fs m') ≤ limit)%nat → inv m'.
Proof.
  intros [Ho (g & Hg & Hap)] Hff Ha Hlim. destruct a as [pid j|pid fault|pid|flushed garbage]; cbn in Ha.
  - destruct (m_pool m !! pid) eqn:E; [done|]. injection Ha as <-.
    apply (inv_upd _ _ g pid _ blank); [done|done|apply safe_job|..].
    + intros pid' pr' Hne Hp. destruct (Hg _ _ Hp). auto.
    + intros b c pb pc Hbc _ _ Hb Hc. by eapply Hap.
  - destruct (m_pool m !! pid) as [[r|B o k]|] eqn:E; [done| |done].
    destruct (call random pid fault o (m_fs m)) as [[b s']|] eqn:Ec; [|done]. injection Ha as <-.
    destruct (Hg _ _ E) as [Hf [Hal Hk]].
    destruct (call_sound o (g pid) (m_fs m) pid fault b s' Hal Hf Ho) as [st' [Hr Hf' Ho' Hkeep Hgr]]; [|done|].
    { intros Hfl. specialize (Hff Hfl). by destruct fault. }
    apply (inv_upd s' _ g pid _ st'); [done|done|by apply Hk|..].
    + intros pid' pr' Hne Hp. destruct (Hg _ _ Hp) as [Hf2 Hs2].
      assert (Hap2 : apart (g pid) (g pid')) by (eapply Hap; [|done..]; done).
      split_and!; [by eapply fact_kept|done|by eapply apart_grown].
    + intros b' c pb pc Hbc _ _ Hb Hc. by eapply Hap.
  - injection Ha as <-. assert (Hs : same_files (m_fs m) (unlock_all pid (m_fs m))) by by split_and!.
    split; [by eapply file_ok_same|]. exists g. cbn [m_fs m_pool]. split.
    + intros pid' pr' Hp%lookup_delete_Some. destruct (Hg _ _ (proj2 Hp)). split; [by eapply fact_same|done].
    + intros b c pb pc Hbc Hb%lookup_delete_Some Hc%lookup_delete_Some. eapply Hap; [done|apply Hb|apply Hc].
  - injection Ha as <-. split; [by apply file_ok_crash|]. exists g. cbn. by split.
Qed.

Lemma call_draws {B} (o : sys B) pid fault s b s' :
  call random pid fault o s = Some (b, s') → (draws s ≤ draws s')%nat.
Proof.
  intros Hc. destruct o; cbn in Hc; unfold create in Hc; repeat case_match; simplify_eq; cbn; lia.
Qed.
Lemma act_draws a m m' : act random p a m = Some m' → (draws (m_fs m) ≤ draws (m_fs m'))%nat.
Proof.
  intros Ha. destruct a as [pid j|pid fault|pid|flushed garbage]; cbn in Ha; [case_match; by simplify_eq| |by simplify_eq..].
  destruct (m_pool m !! pid) as [[r|B o k]|]; [done| |done].
  destruct (call random pid fault o (m_fs m)) as [[b s']|] eqn:Ec; [|done]. injection Ha as <-. by eapply call_draws.
Qed.

Lemma acts_cons a l m : acts random p (a :: l) m = m1 ← act random p a m; acts random p l m1.
Proof.
  unfold acts. cbn. destruct (act random p a m) as [m1|]; [done|]. cbn. induction l as [|b l IH]; [done|exact IH].
Qed.
Lemma acts_draws l : ∀ m m', acts random p l m = Some m' → (draws (m_fs m) ≤ draws (m_fs m'))%nat.
Proof.
  induction l as [|a l IH]; intros m m' Hm; [by injection Hm as <-|]. rewrite acts_cons in Hm.
  destruct (act random p a m) as [m1|] eqn:E; [|done]. etrans; [by eapply act_draws|by apply IH].
Qed.

Lemma acts_inv l : ∀ m m',
  inv m → (faults = false → forallb faultless l = true) → acts random p l m = Some m' →
  (draws (m_fs m') ≤ limit)%nat → inv m'.
Proof.
  induction l as [|a l IH]; intros m m' Hi Hff Hm Hlim; [by injection Hm as <-|]. rewrite acts_cons in Hm.
  destruct (act random p a m) as [m1|] eqn:E; [|done]. cbn [mbind option_bind] in Hm.
  apply (IH m1 m'); [|intros Hfl; by apply Hff, andb_true_iff in Hfl as [_ ?]|done..].
  eapply act_inv; [exact Hi| |exact E|].
  - intros Hfl. by apply Hff, andb_true_iff in Hfl as [? _].
  - pose proof (acts_draws _ _ _ Hm). lia.
Qed.
End logic.

(** ** One process alone *)
Section alone.
Context `{Ed25519} `{!KeyFormat} `{!KeyFormatLaws}.
Context (random : nat → nat → string) (p : path) (pid : nat).
Context (Hvalid : validateFinalPath p = Ok tt).

Lemma run_pbind {A B} (m : prog A) (f : A → prog B) s :
  run random pid (pbind m f) s = '(a, s1) ← run random pid m s; run random pid (f a) s1.
Proof.
  revert s. induction m as [a|C o k IH]; intros s; cbn; [done|].
  destruct (call random pid None o s) as [[b s1]|]; cbn; [apply IH|done].
Qed.
Lemma run_bind {A B} (m : P A) (f : A → P B) s a s1 R :
  run random pid m s = Some (Ok a, s1) → run random pid (f a) s1 = R → run random pid (m ≫= f) s = R.
Proof. intros Hm <-. unfold mbind at 1, P_bind. rewrite run_pbind, Hm. done. Qed.
Lemma run_bind_fail {A B} (m : P A) (f : A → P B) s e s1 :
  run random pid m s = Some (Fail e, s1) → run random pid (m ≫= f) s = Some (Fail e, s1).
Proof. intros Hm. unfold mbind at 1, P_bind. rewrite run_pbind, Hm. done. Qed.
Lemma run_tried {A} (m : P A) s r s1 :
  run random pid m s = Some (r, s1) → run random pid (tried m) s = Some (Ok r, s1).
Proof. intros Hm. unfold tried. by rewrite run_pbind, Hm. Qed.
Lemma run_deferring {A B} (cleanup : prog B) (m : P A) s r s1 b s2 :
  run random pid m s = Some (r, s1) → run random pid cleanup s1 = Some (b, s2) →
  run random pid (deferring cleanup m) s = Some (r, s2).
Proof. intros Hm Hc. unfold deferring. rewrite run_pbind, Hm. cbn. by rewrite run_pbind, Hc. Qed.
Lemma run_sysc {A} (o : sys A) s : run random pid (sysc o) s = call random pid None o s.
Proof. cbn. by destruct (call random pid None o s) as [[b s1]|]. Qed.

(** A directory that passes the checks. *)
Definition secure_dir (s : fs) (d : path) : Prop :=
  ∃ n i, names s !! d = Some n ∧ inodes s !! n = Some i ∧ i_kind i = Directory ∧ unsafeMode (info_of i) 448 = false.

Lemma secure_lookup s d : secure_dir s d → ∃ n i, lookup_name s d = Some (n, i) ∧ i_kind i = Directory
  ∧ unsafeMode (info_of i) 448 = false.
Proof. intros (n & i & Hn & Hi & Hk & Hu). exists n, i. split; [by apply lookup_name_Some|done]. Qed.

Lemma secure_checks s d i n : lookup_name s d = Some (n, i) → i_kind i = Directory →
  run random pid (sysc (Lstat d)) s = Some (Ok (info_of i), s) ∧ check_dir (info_of i) = Ok tt.
Proof. intros Hl Hk. split; [cbn; by rewrite Hl|]. unfold check_dir. cbn. by rewrite Hk. Qed.

Lemma run_requireSecureDir s d create : secure_dir s d → run random pid (requireSecureDir d create) s = Some (Ok tt, s).
Proof.
  intros (n & i & Hl & Hk & Hu)%secure_lookup. destruct (secure_checks s d i n Hl Hk) as [Hr Hc].
  assert (Hm : run random pid (mkdirAllSecure d) s = Some (Ok tt, s)).
  { unfold mkdirAllSecure. apply (run_bind _ _ s [] s); [|reflexivity].
    assert (Hm : missing_dirs d [] = (found ← tried (sysc (Lstat d));
      match found with
      | Ok i => _ ← pure (check_dir i); mret []
      | Fail e => if errors_Is e ErrNotExist then
          match d with [] => pure (Fail e) | _ :: parent => missing_dirs parent [d] end else pure (Fail e)
      end)) by by destruct d.
    rewrite Hm. eapply run_bind; [by apply run_tried|]. cbv beta iota. apply (run_bind _ _ s tt s); [|reflexivity].
    cbn. by rewrite Hc. }
  unfold requireSecureDir. eapply run_bind; [by destruct create; [exact Hm|]|]. eapply run_bind; [exact Hr|].
  eapply run_bind; [cbn; by rewrite Hc|]. cbn. by rewrite Hu.
Qed.

Lemma run_Load_absent s : secure_dir s (Dir p) → names s !! p = None →
  run random pid (Load p) s = Some (Fail not_exist, s).
Proof.
  intros Hd Hn. unfold Load. rewrite Hvalid. eapply run_bind; [reflexivity|].
  eapply run_bind; [by apply run_requireSecureDir|]. apply run_bind_fail. rewrite run_sysc. cbn.
  unfold lookup_name. by rewrite Hn.
Qed.

Lemma run_Load_key s n k : secure_dir s (Dir p) → names s !! p = Some n → key_file s n k →
  run random pid (Load p) s = Some (Ok k, s).
Proof.
  intros Hd Hn (i & Hi & Hki). assert (Hl : lookup_name s p = Some (n, i)) by by apply lookup_name_Some.
  pose proof (known_key k i Hki) as Hinfo. destruct Hki as [-> Hk].
  unfold Load. rewrite Hvalid. eapply run_bind; [reflexivity|].
  eapply run_bind; [by apply run_requireSecureDir|].
  eapply run_bind; [rewrite run_sysc; cbn [call]; by rewrite Hl, Hinfo|]. eapply run_bind; [reflexivity|].
  eapply run_bind; [apply run_tried; rewrite run_sysc; cbn [call]; by rewrite Hl|].
  eapply run_bind; [reflexivity|]. eapply run_deferring; [|reflexivity].
  eapply run_bind; [rewrite run_sysc; cbn [call]; by rewrite Hi, Hinfo|]. eapply run_bind; [reflexivity|].
  eapply run_bind; [rewrite run_sysc; cbn [call]; by rewrite Hi|]. cbn [i_data pure run].
  rewrite take_ge by (pose proof (llen_encoded_key k) as Hl'; unfold llen in Hl'; lia). by rewrite parse_encoded.
Qed.

Lemma secure_in_directory s q : secure_dir s (Dir q) → in_directory s q = true.
Proof.
  intros (n & i & Hl & Hk & _)%secure_lookup. unfold in_directory. rewrite Hl. by rewrite bool_decide_eq_true_2.
Qed.
Lemma secure_kept s s' d :
  secure_dir s d → names s' !! d = names s !! d →
  (∀ n i, inodes s !! n = Some i → i_kind i = Directory → inodes s' !! n = Some i) → secure_dir s' d.
Proof. intros (n & i & Hn & Hi & Hk & Hu) Hnm Hin. exists n, i. rewrite Hnm. auto. Qed.
Lemma not_own_dir x : x :: Dir p ≠ Dir p.
Proof. intros E. apply (f_equal length) in E. cbn in E. lia. Qed.

Lemma secure_add s q i : secure_dir s (Dir p) → q ≠ Dir p → secure_dir (add_file s q i) (Dir p).
Proof.
  intros Hs Hq. eapply secure_kept; [done|by cbn; rewrite lookup_insert_ne|]. intros n j Hj _. cbn.
  rewrite lookup_insert_ne; [done|]. intros <-. by rewrite fresh_inode_None in Hj.
Qed.

(** The lock of a process that finds none. *)
Definition locked (s : fs) : fs :=
  let s1 := add_file s (lock_path p) (mkInode Regular 384 false [] None) in
  set_locks s1 (<[fresh_inode s := pid]> (locks s)).

Lemma run_acquireLock s : secure_dir s (Dir p) → names s !! lock_path p = None → locks s = ∅ →
  run random pid (acquireLock (lock_path p)) s = Some (Ok (fresh_inode s), locked s).
Proof.
  intros Hd Hn Hl. unfold acquireLock.
  eapply run_bind; [apply run_tried; rewrite run_sysc; cbn [call]; rewrite Hn; unfold create; by rewrite secure_in_directory|].
  eapply run_bind; [reflexivity|]. cbv zeta.
  eapply run_bind; [eapply run_bind; [apply run_tried; rewrite run_sysc; cbn; by rewrite lookup_insert_eq|reflexivity]|].
  eapply run_bind; [reflexivity|].
  eapply run_bind; [eapply run_bind; [apply run_tried; rewrite run_sysc; cbn; by rewrite Hl|reflexivity]|].
  cbn. unfold locked. by rewrite Hl.
Qed.

(** The file system after a key was published by [publish], from the one that holds its
    empty temporary file. *)
Definition synced_inode (k : PrivateKey) : inode := mkInode Regular 384 false (encoded_key k) (Some (encoded_key k)).
Definition publishes (s : fs) (fd : nat) (x : string) (k : PrivateKey) : fs :=
  let entries := delete (tmp_path p x) (<[p := fd]> (names s)) in
  mkFs (<[fd := synced_inode k]> (inodes s)) entries (choose (entry_of (Dir p)) entries (stable s)) (locks s) (draws s).

Lemma run_publish s fd x k :
  secure_dir s (Dir p) → names s !! p = None → names s !! tmp_path p x = Some fd →
  inodes s !! fd = Some (mkInode Regular 384 false [] None) →
  run random pid (publish p (tmp_path p x) fd k) s = Some (Ok tt, publishes s fd x k).
Proof.
  intros Hd Hn Ht Hi. unfold publish. cbv zeta.
  eapply run_bind; [eapply run_bind; [apply run_tried; rewrite run_sysc; cbn [call]; by rewrite Hi|reflexivity]|].
  cbn [i_kind i_perm i_special i_data app].
  eapply run_bind; [eapply run_bind; [apply run_tried; rewrite run_sysc; cbn; by rewrite lookup_insert_eq|reflexivity]|].
  cbn [i_kind i_perm i_special i_data app].
  eapply run_bind; [eapply run_bind; [by apply run_tried; rewrite run_sysc|reflexivity]|].
  eapply run_bind.
  { apply run_tried. rewrite run_sysc. cbn [call set_inodes names]. rewrite Ht, Hn.
    rewrite (secure_in_directory _ p); [reflexivity|]. eapply secure_kept; [exact Hd|done|].
    intros n i Hni Hk. cbn. rewrite insert_insert_eq, lookup_insert_ne; [done|]. intros <-. rewrite Hi in Hni. by injection Hni as <-. }
  eapply run_bind; [eapply run_bind; [reflexivity|reflexivity]|].
  eapply run_bind.
  { apply run_tried. rewrite run_sysc. cbn [call set_names set_inodes names].
    rewrite lookup_insert_ne by (by apply tmp_not_key). by rewrite Ht. }
  eapply run_bind; [reflexivity|]. eapply run_bind; [by apply run_tried; rewrite run_sysc|].
  cbn. by rewrite insert_insert_eq.
Qed.

Lemma run_writeDurable s k :
  let x := random 12 (draws s) in
  let s1 := add_file (set_draws s (S (draws s))) (tmp_path p x) (mkInode Regular 384 false [] None) in
  secure_dir s (Dir p) → names s !! p = None → names s !! tmp_path p x = None →
  run random pid (writeDurableNoClobber p k) s = Some (Ok tt, publishes s1 (fresh_inode s) x k).
Proof.
  intros x s1 Hd Hn Ht. unfold writeDurableNoClobber. eapply run_bind; [by rewrite run_sysc|]. cbv zeta.
  eapply run_bind.
  { rewrite run_sysc. cbn [call set_draws names]. fold x. rewrite Ht. unfold create.
    rewrite secure_in_directory; [reflexivity|exact Hd]. }
  apply run_publish.
  - apply (secure_add (set_draws s (S (draws s)))); [exact Hd|apply not_own_dir].
  - cbn. rewrite lookup_insert_ne; [done|]. intros E. by apply (tmp_not_key p Hvalid x).
  - cbn. by rewrite lookup_insert_eq.
  - cbn. by rewrite lookup_insert_eq.
Qed.

(** What [release] does to the names. *)
Lemma run_release s fd n :
  names s !! lock_path p = Some n → locks s !! fd = Some pid →
  run random pid (release (lock_path p) fd) s
  = Some (Ok tt, mkFs (inodes s) (delete (lock_path p) (names s)) (stable s) (delete fd (locks s)) (draws s)).
Proof.
  intros Hn Hl. unfold release. eapply run_bind; [apply run_tried; rewrite run_sysc; cbn [call]; by rewrite Hn|].
  eapply run_bind; [by apply run_tried; rewrite run_sysc|]. cbn. by rewrite bool_decide_eq_true_2.
Qed.

Lemma entry_self : entry_of (Dir p) p = true.
Proof. apply bool_decide_eq_true_2. split; [|done]. intros ->. done. Qed.
Lemma entry_dir : entry_of (Dir p) (Dir p) = false.
Proof.
  apply bool_decide_eq_false_2. intros [Hne E]. destruct (Dir p) as [|c d]; [done|]. cbn in E.
  apply (f_equal length) in E. cbn in E. lia.
Qed.

(** [provision] where there is no key yet. *)
Lemma run_provision s :
  let x := random 12 (S (draws s)) in
  secure_dir s (Dir p) → names s !! p = None → names s !! lock_path p = None → locks s = ∅ →
  names s !! tmp_path p x = None →
  let k := NewKeyFromSeed (random 32 (draws s)) in
  ∃ s' n, run random pid (provision p) s = Some (Ok k, s') ∧ names s' = <[p := n]> (names s) ∧ locks s' = ∅ ∧
    stable s' !! p = Some n ∧ stable s' !! Dir p = stable s !! Dir p ∧ inodes s' !! n = Some (synced_inode k) ∧
    (∀ m i, inodes s !! m = Some i → inodes s' !! m = Some i).
Proof.
  intros x Hd Hn Hl Hlocks Ht k. unfold provision. rewrite Hvalid.
  assert (Hd1 : secure_dir (locked s) (Dir p)) by (apply (secure_add s); [done|apply not_own_dir]).
  assert (Hlk : lock_path p ≠ p) by by apply lock_not_key. assert (Htl : lock_path p ≠ tmp_path p x) by apply tmp_not_lock.
  assert (Htk : tmp_path p x ≠ p) by (intros E; by apply (tmp_not_key p Hvalid x)).
  assert (Hn1 : names (locked s) !! p = None) by (cbn; by rewrite lookup_insert_ne).
  set (s2 := set_draws (locked s) (S (draws s))).
  assert (Hold : ∀ m i, inodes s !! m = Some i → inodes s2 !! m = Some i).
  { intros m i Hi. cbn. rewrite lookup_insert_ne; [done|]. intros <-. by rewrite fresh_inode_None in Hi. }
  do 2 eexists. split.
  { eapply run_bind; [reflexivity|]. eapply run_bind; [by apply run_requireSecureDir|].
    eapply run_bind; [by apply run_acquireLock|]. eapply run_deferring.
    - eapply run_bind; [by apply run_tried, run_Load_absent|]. cbv beta iota.
      change (errors_Is not_exist ErrNotExist) with true. cbv iota.
      eapply run_bind; [eapply run_bind; [by rewrite run_sysc|reflexivity]|].
      eapply run_bind; [|reflexivity]. apply (run_writeDurable s2); [exact Hd1|exact Hn1|].
      cbn. by rewrite lookup_insert_ne.
    - apply run_release with (fresh_inode s).
      + cbn. rewrite lookup_delete_ne by done. rewrite 2 lookup_insert_ne by done. by rewrite lookup_insert_eq.
      + cbn. by rewrite Hlocks, lookup_insert_eq. }
  cbn [publishes names locks stable inodes]. split_and!.
  - apply map_eq. intros q. fold x. destruct (decide (q = p)) as [->|Hqp].
    { rewrite lookup_delete_ne, lookup_delete_ne, !lookup_insert_eq by done. reflexivity. }
    rewrite (lookup_insert_ne _ p) by done. destruct (decide (q = lock_path p)) as [->|Hql]; [by rewrite lookup_delete_eq|].
    rewrite lookup_delete_ne by done. destruct (decide (q = tmp_path p x)) as [->|Hqt]; [by rewrite lookup_delete_eq|].
    rewrite lookup_delete_ne, lookup_insert_ne by done. cbn. by rewrite !lookup_insert_ne.
  - cbn. rewrite Hlocks. apply map_eq. intros q. destruct (decide (q = fresh_inode s)) as [->|Hq]; [by rewrite lookup_delete_eq|].
    by rewrite lookup_delete_ne, lookup_insert_ne.
  - rewrite lookup_choose, entry_self, lookup_delete_ne, lookup_insert_eq by done. reflexivity.
  - by rewrite lookup_choose, entry_dir.
  - by rewrite lookup_insert_eq.
  - intros m i Hi. specialize (Hold m i Hi). rewrite lookup_insert_ne.
    + cbn [add_file set_inodes set_names inodes set_draws]. rewrite lookup_insert_ne; [exact Hold|].
      intros <-. change (fresh_inode (set_draws s2 (S (draws s2)))) with (fresh_inode s2) in Hold. by rewrite fresh_inode_None in Hold.
    + intros <-. by rewrite fresh_inode_None in Hold.
Qed.

(** [provision] where the key is there. *)
Lemma run_provision_again s n k :
  secure_dir s (Dir p) → names s !! p = Some n → key_file s n k → names s !! lock_path p = None → locks s = ∅ →
  ∃ s', run random pid (provision p) s = Some (Ok k, s') ∧ names s' = names s.
Proof.
  intros Hd Hn Hk Hl Hlocks. unfold provision. rewrite Hvalid.
  assert (Hlk : lock_path p ≠ p) by by apply lock_not_key.
  assert (Hk1 : key_file (locked s) n k).
  { destruct Hk as (i & Hi & Hki). exists i. split; [|done]. cbn. rewrite lookup_insert_ne; [done|].
    intros <-. by rewrite fresh_inode_None in Hi. }
  eexists. split.
  { eapply run_bind; [reflexivity|]. eapply run_bind; [by apply run_requireSecureDir|].
    eapply run_bind; [by apply run_acquireLock|]. eapply run_deferring.
    - eapply run_bind; [apply run_tried, run_Load_key with n; [apply (secure_add s)| |exact Hk1]; [done|apply not_own_dir|]|reflexivity].
      cbn. by rewrite lookup_insert_ne.
    - apply run_release with (fresh_inode s); cbn; by rewrite ?Hlocks, lookup_insert_eq. }
  cbn. rewrite delete_insert_id; done.
Qed.

Lemma secure_crash flushed garbage s d :
  secure_dir s d → stable s !! d = names s !! d → secure_dir (crash flushed garbage s) d.
Proof.
  intros (n & i & Hn & Hi & Hk & Hu) Hs. exists n, (crash_inode (garbage n) i). unfold crash. cbn [names inodes].
  rewrite lookup_choose, Hs, map_lookup_imap, Hi. split_and!; [by destruct (flushed d)|done..].
Qed.
Lemma key_crash flushed garbage s n k : key_file s n k → key_file (crash flushed garbage s) n k.
Proof.
  intros (i & Hi & -> & Hd). eexists. split; [|by split]. unfold crash. cbn [inodes]. by rewrite map_lookup_imap, Hi.
Qed.
End alone.

(** ** Properties *)

(** Provisioning works once and for all. In a secure directory without a key, a lock or a
    clashing temporary file, [Provision] alone succeeds and adds nothing but the key file;
    from then on [Load] returns that key without touching anything, another [Provision]
    returns it too, and after a crash at any later point [Load] still returns it if the
    directory itself was on disk. *)
Lemma provision_once `{KeyFormatLaws} (random : nat → nat → string) p s pid :
  let k := NewKeyFromSeed (random 32%nat (draws s)) in
  slen (random 32%nat (draws s)) = 32 → validateFinalPath p = Ok tt → secure_dir s (Dir p) →
  names s !! p = None → names s !! lock_path p = None → locks s = ∅ →
  names s !! tmp_path p (random 12%nat (S (draws s))) = None →
  ∃ s' n, run random pid (provision p) s = Some (Ok k, s') ∧ names s' = <[p := n]> (names s) ∧
    (∀ pid', run random pid' (Load p) s' = Some (Ok k, s')) ∧
    (∀ pid', ∃ s'', run random pid' (provision p) s' = Some (Ok k, s'') ∧ names s'' = names s') ∧
    (stable s !! Dir p = names s !! Dir p → ∀ flushed garbage pid',
       run random pid' (Load p) (crash flushed garbage s') = Some (Ok k, crash flushed garbage s')).
Proof.
  intros k Hlen Hv Hd Hn Hl Hlocks Ht.
  destruct (run_provision random p pid Hv s Hd Hn Hl Hlocks Ht) as (s' & n & Hrun & Hnames & Hlk & Hst & Hsd & Hi & Hold).
  assert (Hdir : names s' !! Dir p = names s !! Dir p) by (rewrite Hnames, lookup_insert_ne; [done|intros E; by apply (dir_not_key p Hv)]).
  assert (Hd' : secure_dir s' (Dir p)) by (eapply secure_kept; eauto).
  assert (Hp : names s' !! p = Some n) by (by rewrite Hnames, lookup_insert_eq).
  assert (Hk : key_file s' n k) by (eexists; split; [done|]; split; [done|by eexists]).
  exists s', n. split_and!; [done|done|..].
  - intros pid'. by eapply run_Load_key.
  - intros pid'. eapply run_provision_again; try done. rewrite Hnames, lookup_insert_ne; [done|]. intros E. by apply (lock_not_key p Hv).
  - intros Hs flushed garbage pid'. apply run_Load_key with n; [done| | |by apply key_crash].
    + apply secure_crash; [done|congruence].
    + unfold crash. cbn [names]. rewrite lookup_choose, Hst, Hp. by destruct (flushed p).
Qed.

(** Whatever processes do at the key path, what is there is a complete key. *)
Lemma key_file_untorn `{KeyFormatLaws} (random : nat → nat → string) p l s0 m :
  (∀ n i, slen (random n i) = Z.of_nat n) →
  (∀ i j, (i < draws (m_fs m))%nat → (j < draws (m_fs m))%nat → random 12%nat i = random 12%nat j → i = j) →
  validateFinalPath p = Ok tt → names s0 !! p = None → stable s0 !! p = None →
  acts random p l (mkMachine s0 ∅) = Some m →
  (∀ n, names (m_fs m) !! p = Some n ∨ stable (m_fs m) !! p = Some n →
     ∃ i k, inodes (m_fs m) !! n = Some i ∧ i_kind i = Regular ∧ i_perm i = 384 ∧
            i_synced i = Some (i_data i) ∧ parseCanonicalPrivate (i_data i) = Ok k) ∧
  (∀ pid e, m_pool m !! pid = Some (Ret (Fail e)) → errors_Is e ErrInvalid = false) ∧
  (forallb faultless l = true → ∀ pid k, m_pool m !! pid = Some (Ret (Ok k)) →
     ∃ n i, names (m_fs m) !! p = Some n ∧ inodes (m_fs m) !! n = Some i ∧ parseCanonicalPrivate (i_data i) = Ok k).
Proof.
  intros Hlen Hdist Hv Hn Hs Hm.
  assert (Hi : ∀ faults, (faults = false → forallb faultless l = true) → inv random p faults m).
  { intros faults Hff. eapply (acts_inv random p faults Hv Hlen (draws (m_fs m)) Hdist l (mkMachine s0 ∅)); try done.
    split; [|by exists (λ _, blank)]. intros n [Hp|Hp]; cbn in Hp; congruence. }
  assert (Hparse : ∀ n k, key_file (m_fs m) n k → ∃ i, inodes (m_fs m) !! n = Some i ∧ i_kind i = Regular ∧ i_perm i = 384 ∧
    i_synced i = Some (i_data i) ∧ parseCanonicalPrivate (i_data i) = Ok k).
  { intros n k (i & Hi' & -> & Hd). eexists. split; [done|]. cbn. by rewrite parse_encoded. }
  split_and!.
  - intros n Hp. destruct (Hi true ltac:(done)) as [Ho _]. destruct (Ho n Hp) as [k Hk].
    destruct (Hparse n k Hk) as (i & Hk'). by exists i, k.
  - intros pid e Hp. destruct (Hi true ltac:(done)) as (_ & g & Hg & _). by destruct (Hg _ _ Hp) as [_ Hf].
  - intros Hl pid k Hp. destruct (Hi false ltac:(done)) as (_ & g & Hg & _). destruct (Hg _ _ Hp) as [[_ Hs'] [fd Hf]].
    destruct (Hs' _ _ Hf) as [Hk Hnm]. destruct (Hparse fd k Hk) as (i & Hi' & _ & _ & _ & Hpi).
    exists fd, i. split; [by apply Hnm|done].
Qed.

(** C40: a key file is never torn and never changes hands. Whatever processes load and
    provision the key, however their system calls interleave or fail, whoever is killed and
    whenever the machine crashes: what is at the key path, for processes or on disk, is a
    complete key that parses, with its bytes on disk and mode 0600, and no call ever reports
    an invalid key file. And when no system call fails for reasons of its own, every key
    that was returned since the last crash is the one at the key path, so all callers agree. And
    provisioning works once and for all: in a secure directory without a key, a lock or a
    clashing temporary file, [Provision] alone succeeds and adds nothing but the key file;
    from then on [Load] returns that key without touching anything, another [Provision]
    returns it too, and after a crash at any later point [Load] still returns it if the
    directory itself was on disk. *)
Theorem key_file_safe `{KeyFormatLaws} (random : nat → nat → string) p s0 pid :
  (∀ l m,
   (∀ n i, slen (random n i) = Z.of_nat n) →
     (∀ i j, (i < draws (m_fs m))%nat → (j < draws (m_fs m))%nat → random 12%nat i = random 12%nat j → i = j) →
     validateFinalPath p = Ok tt → names s0 !! p = None → stable s0 !! p = None →
     acts random p l (mkMachine s0 ∅) = Some m →
     (∀ n, names (m_fs m) !! p = Some n ∨ stable (m_fs m) !! p = Some n →
        ∃ i k, inodes (m_fs m) !! n = Some i ∧ i_kind i = Regular ∧ i_perm i = 384 ∧
               i_synced i = Some (i_data i) ∧ parseCanonicalPrivate (i_data i) = Ok k) ∧
     (∀ pid e, m_pool m !! pid = Some (Ret (Fail e)) → errors_Is e ErrInvalid = false) ∧
     (forallb faultless l = true → ∀ pid k, m_pool m !! pid = Some (Ret (Ok k)) →
        ∃ n i, names (m_fs m) !! p = Some n ∧ inodes (m_fs m) !! n = Some i ∧ parseCanonicalPrivate (i_data i) = Ok k)) ∧
  (let k := NewKeyFromSeed (random 32%nat (draws s0)) in
     slen (random 32%nat (draws s0)) = 32 → validateFinalPath p = Ok tt → secure_dir s0 (Dir p) →
     names s0 !! p = None → names s0 !! lock_path p = None → locks s0 = ∅ →
     names s0 !! tmp_path p (random 12%nat (S (draws s0))) = None →
     ∃ s' n, run random pid (provision p) s0 = Some (Ok k, s') ∧ names s' = <[p := n]> (names s0) ∧
       (∀ pid', run random pid' (Load p) s' = Some (Ok k, s')) ∧
       (∀ pid', ∃ s'', run random pid' (provision p) s' = Some (Ok k, s'') ∧ names s'' = names s') ∧
       (stable s0 !! Dir p = names s0 !! Dir p → ∀ flushed garbage pid',
          run random pid' (Load p) (crash flushed garbage s') = Some (Ok k, crash flushed garbage s'))).
Proof. split; [intros; by eapply key_file_untorn|apply provision_once]. Qed.

(** ** Samples *)
Module KeySample.
Import SampleKeys.

#[export] Instance key_format : @KeyFormat keys := {|
  NewKeyFromSeed s := s; key_bytes k := fixed32 k +:+ fixed32 k |}.
#[export] Instance key_format_laws : @KeyFormatLaws keys key_format.
Proof.
  split.
  - intros k. cbn [key_bytes key_format]. by rewrite slen_app, !slen_fixed32.
  - intros s Hs. cbn [key_bytes NewKeyFromSeed key_format]. rewrite bytes_of_app.
    assert (E : bytes_of (fixed32 s) = bytes_of s).
    { unfold fixed32. rewrite bytes_of_of, take_app_le by (rewrite slen_bytes in Hs; unfold llen in Hs; lia).
      apply take_ge. rewrite slen_bytes in Hs. unfold llen in Hs. lia. }
    rewrite E. rewrite slen_bytes in Hs. unfold llen in Hs. rewrite take_app_le by lia. apply take_ge. lia.
Qed.

(** The [i]th read of [n] random bytes. *)
Definition rnd (n i : nat) : string := of_bytes (replicate n (chr (65 + Z.of_nat i))).
Lemma rnd_size n i : slen (rnd n i) = Z.of_nat n.
Proof. unfold rnd. rewrite slen_of_bytes. unfold llen. by rewrite length_replicate. Qed.

Definition key_path : path := ["owner.key"; "secrets"].
Definition folder : inode := mkInode Directory 448 false [] None.
Definition entries0 : gmap path nat := {[ [] := 0%nat; ["secrets"] := 1%nat ]}.
Definition disk0 : fs := mkFs {[ 0%nat := folder; 1%nat := folder ]} entries0 entries0 ∅ 0.

Definition steps (pid n : nat) : list action := replicate n (Advance pid None).
Definition machine0 : @machine keys := mkMachine disk0 ∅.
Definition after (l : list action) : @machine keys := default machine0 (acts rnd key_path l machine0).
Definition completes (l : list action) : bool := if acts rnd key_path l machine0 then true else false.
Lemma completes_after l : completes l = true → acts rnd key_path l machine0 = Some (after l).
Proof. unfold completes, after. by destruct (acts rnd key_path l machine0). Qed.

(** Two provisioners of which the second waits for the lock of the first and then finds its
    key, and a reader in between. *)
Definition schedule : list action :=
  [Start 1 JProvision; Start 2 JProvision] ++ steps 1 5 ++ steps 2 4 ++ steps 1 10 ++ [Start 3 JLoad] ++ steps 3 6
    ++ steps 1 4 ++ steps 2 10.
Definition scheduled : @machine keys := after schedule.

(** A provisioner is killed between linking and syncing; another one finds the key. *)
Definition interrupted : list action :=
  [Start 1 JProvision] ++ steps 1 15 ++ [Kill 1; Start 2 JProvision] ++ steps 2 14.
End KeySample.

Import SampleKeys KeySample.

Lemma rnd_distinct i j : (i < 2)%nat → (j < 2)%nat → rnd 12 i = rnd 12 j → i = j.
Proof. destruct i as [|[|]], j as [|[|]]; intros; first [done|lia|discriminate]. Qed.

Lemma disk0_secure : secure_dir disk0 (Dir key_path).
Proof. exists 1%nat, folder. vm_compute. done. Qed.

Lemma key_file_safe_witness :
  (∃ n i, names (m_fs scheduled) !! key_path = Some n ∧ inodes (m_fs scheduled) !! n = Some i ∧
         parseCanonicalPrivate (i_data i) = Ok (rnd 32 0)) ∧
  ∃ s' n, run rnd 1 (provision key_path) disk0 = Some (Ok (rnd 32 0), s') ∧ names s' = <[key_path := n]> (names disk0).
Proof.
  assert (Hm : acts rnd key_path schedule machine0 = Some scheduled)
    by (apply completes_after; vm_compute; reflexivity).
  assert (Hv : validateFinalPath key_path = Ok tt) by (vm_compute; reflexivity).
  assert (Hn : names disk0 !! key_path = None) by (vm_compute; reflexivity).
  assert (Hr : m_pool scheduled !! 2%nat = Some (Ret (Ok (rnd 32 0))))
    by (vm_compute; reflexivity).
  assert (Hl : forallb faultless schedule = true) by (vm_compute; reflexivity).
  assert (Hx : ∀ i j, (i < draws (m_fs scheduled))%nat → (j < draws (m_fs scheduled))%nat → rnd 12 i = rnd 12 j → i = j).
  { assert (Hd : draws (m_fs scheduled) = 2%nat) by (vm_compute; reflexivity). rewrite Hd. exact rnd_distinct. }
  pose proof (key_file_safe rnd key_path disk0 1) as [Hsafe Honce]. split.
  - pose proof (Hsafe schedule scheduled rnd_size Hx Hv Hn Hn Hm) as (_ & _ & Hagree). exact (Hagree Hl 2%nat (rnd 32 0) Hr).
  - assert (Hs : slen (rnd 32 (draws disk0)) = 32) by (vm_compute; reflexivity).
    assert (Hlk : names disk0 !! lock_path key_path = None) by (vm_compute; reflexivity).
    assert (Ht : names disk0 !! tmp_path key_path (rnd 12 (S (draws disk0))) = None) by (vm_compute; reflexivity).
    destruct (Honce Hs Hv disk0_secure Hn Hlk eq_refl Ht) as (s' & n & Hrun & Hnames & _).
    exists s', n. split; [exact Hrun|exact Hnames].
Defined.

(** [Provision] can report success for a key that a crash then loses, although no system
    call failed: it returns a key it finds without syncing the directory, and the process
    that linked it was killed before it did. *)
Theorem returned_key_lost :
  ∃ l m k, acts rnd key_path l machine0 = Some m ∧ forallb faultless l = true ∧
    m_pool m !! 2%nat = Some (Ret (Ok k)) ∧
    names (crash (λ _, false) (λ _, []) (m_fs m)) !! key_path = None.
Proof.
  exists interrupted, (after interrupted), (rnd 32 0).
  split; [apply completes_after|split_and!]; vm_compute; reflexivity.
Qed.
