(* ===== verification/Handlers.v ===== *)
(** * The redemption and renewal protocols

    [internal/runtime/redemption_handler.go] and [renewal_handler.go], the stream
    handlers of an owner, and [exact_redemption_client.go] and [exact_renewal.go], the
    clients of a recipient.

    A handler is split at its reads: what it sends up to the challenge, and what it
    answers to the proof. The result of [ReadFrame] is an argument; a failed
    [WriteFrame] ends a handler without further effect and is left out. Secret paths
    are joined from clean components. *)
From S2P Require Import Prelude GoStrings GoTime Encoding Json JsonRoundTrip Sha256.
From S2P Require Import Credentials CredentialFacts CredentialVerify CredentialProps.
From S2P Require Import StoreRelations StoreRelationFacts ExactAuthority ExactAuthorityFacts.
Open Scope Z_scope.

(** ** Frames *)
Record ExactRedemptionProof := mkRedemptionProof { rp_RecipientPublic : string; rp_ChallengeProof : string }.
Record ExactRenewalRequest := mkRenewalRequest {
  rq_PipeID : string; rq_RecipientPublic : string; rq_OwnerBinding : string }.

(** [ExactRedemptionResponse] and [ExactRenewalResponse] have the same fields. *)
Record ExactResponse := mkResponse {
  rs_OK : bool; rs_AccessLease : string; rs_ExpiresAt : time; rs_Error : string }.

Definition refusal (message : string) : ExactResponse := mkResponse false "" zero_time message.

Definition path_of (parts : list string) : string := filepath_Join parts.

(** A path as the code derives it, or the refusal it sends. *)
Definition or_refuse {A} (m : res A) (message : string) : A + ExactResponse :=
  match m with Ok a => inl a | Fail _ => inr (refusal message) end.

Definition bind_step {A B} (m : A + ExactResponse) (f : A → B + ExactResponse) : B + ExactResponse :=
  match m with inl a => f a | inr r => inr r end.
Notation "x <~ m ; k" := (bind_step m (λ x, k)) (at level 100, m at next level, right associativity, only parsing).

Definition unless (bad : bool) (message : string) : unit + ExactResponse :=
  if bad then inr (refusal message) else inl tt.

Section handlers.
Context `{Ed25519}.

(** [newExactRedemptionHandler] and [newExactRenewalHandler]. *)
Record handler := mkHandler { h_secrets : string; h_pipeID : string; h_leaseTTL : duration }.
Definition newHandler (secrets pipeID : string) (leaseTTL : duration) : handler :=
  mkHandler secrets pipeID (cap_ttl leaseTTL).

(** *** Redemption, owner side *)
Definition redemption_challenge (h : handler) (rnd : entropy) (req : res string)
    : (Invite.ExactInvite * string) + ExactResponse :=
  encoded <~ or_refuse req "invalid_request";
  _ <~ unless ((8192 <? slen encoded) || (slen encoded =? 0)) "invalid_request: invite too large or empty";
  invite <~ or_refuse (Invite.DecodeInvite encoded) "invalid_invite";
  _ <~ unless (Invite.AudiencePipeID invite <>s h_pipeID h) "not_found";
  challenge <~ or_refuse (RandomChallenge rnd) "internal_error";
  inl (invite, challenge).

Definition lease_response (lease : Lease.AccessLease) : ExactResponse :=
  match Lease.Encode lease with
  | Ok text => mkResponse true text (Lease.ExpiresAt lease) ""
  | Fail _ => refusal "internal_error"
  end.

Definition redemption_answer (load : string → res PrivateKey) (h : handler) (wall now : time)
    (rnd_session rnd_jti : entropy) (encoded : string) (invite : Invite.ExactInvite) (challenge : string)
    (proof : res ExactRedemptionProof) (d : relations) : ExactResponse * relations :=
  let ready :=
    proof <~ or_refuse proof "invalid_proof";
    _ <~ unless ((8192 <? slen (rp_RecipientPublic proof)) || (8192 <? slen (rp_ChallengeProof proof)))
           "invalid_proof: field too large";
    keyPath <~ or_refuse (KeyPath (h_secrets h) (h_pipeID h)) "authority_unavailable";
    _ <~ or_refuse (load (path_of keyPath)) "authority_unavailable";
    binding <~ or_refuse (Binding.DecodeOwnerBinding (Invite.Binding invite)) "invalid_invite";
    inl (proof, mkLoader (path_of keyPath) binding) in
  match ready with
  | inr r => (r, d)
  | inl (proof, loader) =>
      match @RedeemExactInvite _ relations (ExactAuthorityRevocationState (h_pipeID h)) load wall rnd_session rnd_jti
              (UTC now) encoded (rp_RecipientPublic proof) challenge (rp_ChallengeProof proof) loader true
              (h_leaseTTL h) d with
      | (Fail _, d) => (refusal "redemption_failed", d)
      | (Ok lease, d) => (lease_response lease, d)
      end
  end.

(** *** Renewal, owner side *)
Definition renewal_challenge (h : handler) (rnd : entropy) (req : res ExactRenewalRequest)
    : (ExactRenewalRequest * Loader * string) + ExactResponse :=
  req <~ or_refuse req "invalid_request";
  _ <~ unless ((slen (rq_PipeID req) =? 0) || (8192 <? slen (rq_PipeID req)) || (slen (rq_RecipientPublic req) =? 0)
               || (8192 <? slen (rq_RecipientPublic req)) || (slen (rq_OwnerBinding req) =? 0)
               || (49152 <? slen (rq_OwnerBinding req)))
         "invalid_request: field too large or empty";
  _ <~ unless (rq_PipeID req <>s h_pipeID h) "not_found";
  keyPath <~ or_refuse (KeyPath (h_secrets h) (h_pipeID h)) "authority_unavailable";
  binding <~ or_refuse (Binding.DecodeOwnerBinding (rq_OwnerBinding req)) "invalid_binding";
  challenge <~ or_refuse (RandomChallenge rnd) "internal_error";
  inl (req, mkLoader (path_of keyPath) binding, challenge).

Definition renewal_answer (load : string → res PrivateKey) (h : handler) (now : time) (rnd_jti : entropy)
    (req : ExactRenewalRequest) (loader : Loader) (challenge : string) (proof : res string) (d : relations)
    : ExactResponse :=
  match (proof <~ or_refuse proof "invalid_proof";
         _ <~ unless ((slen proof =? 0) || (8192 <? slen proof)) "invalid_proof: field too large or empty";
         inl proof) with
  | inr r => r
  | inl proof =>
      match @RenewAcceptedAccess _ relations (ExactAuthorityRevocationState (h_pipeID h)) load rnd_jti (UTC now)
              (rq_PipeID req) (rq_RecipientPublic req) (rq_OwnerBinding req) challenge proof loader true
              (h_leaseTTL h) d with
      | Fail _ => refusal "renewal_failed"
      | Ok lease => lease_response lease
      end
  end.

(** *** Recipient side *)
Definition recipient_key_path (secrets pipeID : string) : string :=
  path_of [secrets; "pipes"; "connect-" +:+ pipeID +:+ ".key"].

(** [Redeem] up to its first frame: the key and the encoded invite. *)
Definition redeem_request (load provision : string → res PrivateKey) (secrets : string)
    (invite : Invite.ExactInvite) : res (PrivateKey * string) :=
  let path := recipient_key_path secrets (Invite.AudiencePipeID invite) in
  private ← match load path with
            | Ok k => Ok k
            | Fail _ => relabel (provision path) (errorf "exact_redemption: recipient key")
            end;
  encoded ← relabel (Invite.EncodeInvite invite) (errorf "exact_redemption: encode invite");
  Ok (private, encoded).

Definition redeem_proof_frame (private : PrivateKey) (invite : Invite.ExactInvite) (recipientPublic : string)
    (challenge : res string) : res ExactRedemptionProof :=
  challenge ← relabel challenge (errorf "exact_redemption: read challenge");
  _ ← refuse (challenge =s "") (errorf "exact_redemption: empty challenge");
  Ok (mkRedemptionProof recipientPublic
        (SignProof private RedeemProofPurpose [Invite.JTI invite; Invite.AudiencePipeID invite; challenge])).

Definition response_lease (response : res ExactResponse) : res Lease.AccessLease :=
  response ← relabel response (errorf "read response");
  _ ← refuse (negb (rs_OK response)) (errorf "server denied");
  _ ← refuse (rs_AccessLease response =s "") (errorf "empty access lease");
  relabel (Lease.Decode (rs_AccessLease response)) (errorf "decode lease").

(** [Renew]: the request, the proof. *)
Definition renew_request (load : string → res PrivateKey) (secrets : string) (req : ExactRenewalRequest)
    : res (PrivateKey * ExactRenewalRequest) :=
  _ ← refuse ((rq_PipeID req =s "") || (rq_RecipientPublic req =s "") || (rq_OwnerBinding req =s ""))
        (errorf "exact_renewal: invalid request");
  private ← relabel (load (recipient_key_path secrets (rq_PipeID req)))
              (errorf "exact_renewal: recipient key unavailable");
  _ ← refuse (PublicString (Public private) <>s rq_RecipientPublic req)
        (errorf "exact_renewal: recipient key does not match accepted binding");
  Ok (private, req).

Definition renew_proof_frame (private : PrivateKey) (req : ExactRenewalRequest) (challenge : res string)
    : res string :=
  challenge ← relabel challenge (errorf "exact_renewal: read challenge");
  _ ← refuse (challenge =s "") (errorf "exact_renewal: empty challenge");
  Ok (SignProof private RenewProofPurpose [rq_PipeID req; challenge]).

(** *** Both sides over a carrier that delivers every frame *)
Definition run_redemption (load_owner load provision : string → res PrivateKey) (h : handler) (secrets : string)
    (wall now : time) (rnd_challenge rnd_session rnd_jti : entropy) (invite : Invite.ExactInvite)
    (recipientPublic : string) (d : relations) : res Lease.AccessLease * relations :=
  match redeem_request load provision secrets invite with
  | Fail e => (Fail e, d)
  | Ok (private, encoded) =>
      match redemption_challenge h rnd_challenge (Ok encoded) with
      | inr r =>
          (* the client reads a response where it expects a challenge: unknown fields *)
          (Fail (errorf "exact_redemption: read challenge"), d)
      | inl (seen, challenge) =>
          match redeem_proof_frame private invite recipientPublic (Ok challenge) with
          | Fail e => (Fail e, d)
          | Ok proof =>
              let '(r, d) := redemption_answer load_owner h wall now rnd_session rnd_jti encoded seen challenge
                               (Ok proof) d in
              (response_lease (Ok r), d)
          end
      end
  end.
End handlers.
