(* ===== verification/HandlerProps.v ===== *)
(** * Properties of the redemption protocol *)
From S2P Require Import Prelude GoStrings GoTime Encoding Json JsonRoundTrip Sha256.
From S2P Require Import Credentials CredentialFacts CredentialVerify CredentialProps.
From S2P Require Import StoreRelations StoreRelationFacts ExactAuthority ExactAuthorityFacts.
From S2P Require Import Domain DomainFacts Engine OpenBoundary AccessProps Handlers.
Open Scope Z_scope.
Import SampleKeys.

(** ** Minting succeeds *)
Lemma Marshal_total kvs : Forall kv_ok kvs → ∃ data, Marshal kvs = Ok data.
Proof.
  intros H. assert (∃ body, json_members kvs = Ok body) as [body Hb].
  { induction H as [|[k v] kvs [_ Hv] _ [y IH]]; [by eexists|]. cbn [json_members]. rewrite IH.
    destruct (json_value_total v Hv) as [x Hx]. rewrite Hx. by eexists. }
  unfold Marshal. rewrite Hb. by eexists.
Qed.

(** ** Sizes of encodings *)
Lemma escaped_length l : ascii_bytes l → llen (escape true 0 l) ≤ 6 * llen l.
Proof.
  intros H. induction H as [|c l Hc _ IH]; [done|]. rewrite escape_ascii_cons, llen_app, llen_cons by done.
  assert (llen (escape_ascii c) ≤ 6); [|lia].
  destruct (escape_cases c Hc) as [[-> _]|[(e & -> & _)|(z1 & z2 & h1 & h2 & -> & _)]]; done.
Qed.

Definition value_bound (v : jval) : Z :=
  match v with VStr s => 6 * slen s + 2 | VInt _ => 21 | VBool _ => 5 | VTime _ => 32 end.

Lemma strip_zeros_length l : (length (strip_zeros l) ≤ length l)%nat.
Proof.
  induction l as [|c l IH]; [done|]. cbn [strip_zeros]. destruct l as [|d l]; [done|].
  destruct (ceq c "0"%char); [|done]. etrans; [exact IH|]. cbn [length]. lia.
Qed.

Lemma value_length v x : val_ok v → json_value v = Ok x → llen x ≤ value_bound v.
Proof.
  destruct v as [s|n|b|t]; cbn [json_value val_ok value_bound]; intros Hv Hx.
  - apply Ok_inj in Hx as <-. unfold json_string. rewrite llen_cons, llen_app. apply escaped_length in Hv.
    rewrite slen_bytes. change (llen [quote]) with 1. lia.
  - apply Ok_inj in Hx as <-. unfold json_int, decimal, llen.
    pose proof (strip_zeros_length (digits 20 n)) as L. pose proof (strip_zeros_length (digits 20 (- n))) as L'.
    rewrite length_digits in L, L'. destruct (n <? 0); cbn [length]; lia.
  - apply Ok_inj in Hx as <-. by destruct b.
  - destruct (time_marshals t); [|done]. apply Ok_inj in Hx as <-. destruct Hv as [Hz _].
    destruct (format_utc_text t Hz) as [_ L]. rewrite llen_cons, llen_app.
    change (llen [quote]) with 1. unfold llen. lia.
Qed.

Definition members_bound (kvs : list (string * jval)) : Z :=
  foldr (λ kv n, 6 * slen kv.1 + value_bound kv.2 + 4 + n) 0 kvs.

Lemma members_length kvs body : Forall kv_ok kvs → json_members kvs = Ok body → llen body ≤ members_bound kvs.
Proof.
  intros H. revert body. induction H as [|[k v] kvs [Hk Hv] _ IH]; intros body Hb.
  { apply Ok_inj in Hb as <-. done. }
  cbn [json_members] in Hb. apply bind_ok in Hb as (x & Hx & Hb). apply bind_ok in Hb as (y & Hy & Hb).
  apply Ok_inj in Hb as <-. apply IH in Hy. apply value_length in Hx; [|done].
  apply escaped_length in Hk. cbn [members_bound foldr fst snd] in *. fold (members_bound kvs).
  unfold json_string. rewrite !llen_app, !llen_cons, !llen_app. rewrite slen_bytes. change (llen [quote]) with 1.
  assert (llen (match kvs with [] => y | _ => ","%char :: y end) ≤ 1 + llen y) by (destruct kvs; rewrite ?llen_cons; lia).
  lia.
Qed.

(** A lease whose texts are short is encoded. *)
Lemma short_lease_encodes l :
  LeaseFacts.wire_lease l → members_bound (Lease.members l) ≤ 30000 → ∃ text, Lease.Encode l = Ok text.
Proof.
  intros Hw Hb. destruct (LeaseFacts.lease_wire_members l Hw) as [HF _].
  destruct (Marshal_total _ HF) as [data Hd]. unfold Lease.Encode, encode_bounded. rewrite Hd. cbn [mbind res_bind].
  unfold Marshal in Hd. apply bind_ok in Hd as (body & Hb' & Hd). apply Ok_inj in Hd as <-.
  apply members_length in Hb'; [|done]. eexists. pass; [|reflexivity]. apply Z.ltb_ge.
  rewrite slen_base64, slen_of_bytes, llen_cons, llen_app. change (llen ["}"%char]) with 1.
  unfold MaxBytes. change (Z.shiftl 48 10) with 49152. lia.
Qed.

(** ** Texts that are not blank *)
Lemma not_blank s : s ≠ "" → Forall (λ c, printable c = true) (bytes_of s) → blank s = false.
Proof. intros Hne HF. unfold blank. rewrite TrimSpace_id by done. by apply seqb_false. Qed.

Lemma printable_base64 d : Forall (λ c, printable c = true) (bytes_of (base64_encode d)).
Proof.
  unfold base64_encode. rewrite bytes_of_of. apply Forall_map.
  eapply Forall_impl; [by apply (digits_of_range 6); lia|]. intros v Hv.
  exact (forallb_range (λ v, printable (b64_char v)) 64 v eq_refl ltac:(simpl in Hv; lia)).
Qed.
Lemma printable_base32 d : Forall (λ c, printable c = true) (bytes_of (base32_encode d)).
Proof.
  unfold base32_encode. rewrite bytes_of_of. apply Forall_map.
  eapply Forall_impl; [by apply (digits_of_range 5); lia|]. intros v Hv.
  exact (forallb_range (λ v, printable (b32_char v)) 32 v eq_refl ltac:(simpl in Hv; lia)).
Qed.

Lemma prefixed_not_blank p s :
  p ≠ "" → forallb printable (bytes_of p) = true → Forall (λ c, printable c = true) (bytes_of s) →
  blank (p +:+ s) = false.
Proof.
  intros Hp HF Hs. apply not_blank; [by destruct p|]. rewrite bytes_of_app. apply Forall_app. split; [|done].
  rewrite forallb_forall in HF. apply Forall_forall. intros c Hc. apply HF. by apply list_elem_of_In.
Qed.

(** The characters of a Pipe identifier after its prefix. *)
Definition pipe_char (c : ascii) : bool :=
  printable c && negb (ceq c "/"%char) && negb (ceq c backslash).

Lemma pipe_chars d : Forall (λ c, pipe_char c = true) (bytes_of (ToLower (base32_encode d))).
Proof.
  unfold ToLower. rewrite bytes_of_of. apply Forall_map. unfold base32_encode. rewrite bytes_of_of. apply Forall_map.
  eapply Forall_impl; [by apply (digits_of_range 5); lia|]. intros v Hv.
  exact (forallb_range (λ v, pipe_char (lower_char (b32_char v))) 32 v eq_refl ltac:(simpl in Hv; lia)).
Qed.

Lemma pipe_id_chars owner : Forall (λ c, pipe_char c = true) (bytes_of (PipeIDFromOwner owner)).
Proof.
  unfold PipeIDFromOwner. rewrite bytes_of_app. apply Forall_app. split; [by repeat constructor|apply pipe_chars].
Qed.

Lemma pipe_id_component owner : validPipeIDComponent (PipeIDFromOwner owner) = true.
Proof.
  unfold validPipeIDComponent. rewrite slen_PipeID. apply andb_true_iff. split; [|done].
  apply andb_true_iff. split; [apply HasPrefix_spec; by eexists|]. apply negb_true_iff.
  pose proof (pipe_id_chars owner) as HF. rewrite Forall_forall in HF. revert HF.
  generalize (PipeIDFromOwner owner) as p. intros p HF. unfold ContainsAny. cbn [existsb]. rewrite orb_false_r.
  apply orb_false_iff. split; apply ContainsChar_false; intros Hin; apply HF in Hin; by vm_compute in Hin.
Qed.

Lemma pipe_id_not_blank owner : blank (PipeIDFromOwner owner) = false.
Proof.
  unfold PipeIDFromOwner. apply prefixed_not_blank; [done|done|]. eapply Forall_impl; [apply pipe_chars|].
  intros c Hc. unfold pipe_char in Hc. by repeat bool_step.
Qed.

Section honest.
Context `{Ed25519Laws}.

Lemma NewJTI_total rnd v : rnd = Ok v → ∃ jti, NewJTI rnd = Ok jti.
Proof. intros ->. by eexists. Qed.

(** A lease for a canonical key and an owner-derived Pipe is always minted. *)
Lemma NewAccessLease_total rnd v k key owner now lifetime epoch :
  rnd = Ok v → slen v = 16 → slen key = PublicKeySize → 0 < lifetime ≤ MaxTTL →
  in_years (UTC now) → in_years (Add (UTC now) lifetime) → 0 ≤ epoch < 2 ^ 64 →
  ∃ l, Lease.NewAccessLease rnd k (PublicString key) (PipeIDFromOwner owner) now lifetime epoch = Ok l.
Proof.
  intros Hr Hv Hk Hl Hy Hy' He. destruct (NewJTI_total rnd v Hr) as [jti Hj].
  assert (Hge : good_entropy rnd) by (intros v' E; congruence).
  destruct (jti_shape _ _ Hj Hge) as (_ & _ & _ & Hja).
  destruct (Marshal_total (Lease.accessLeaseSigning (Lease.mk Version AccessLeaseType (PublicString (Public k))
    (PublicString key) (PipeIDFromOwner owner) jti (UTC now) (UTC now) (Add (UTC now) lifetime) epoch ""))) as [m Hm].
  { unfold Lease.accessLeaseSigning. cbn [Lease.Version Lease.Type_ Lease.Issuer Lease.Subject Lease.AudiencePipeID
      Lease.JTI Lease.IssuedAt Lease.NotBefore Lease.ExpiresAt Lease.AccessEpoch].
    repeat apply Forall_cons_2; try apply Forall_nil_2; (split; [by apply ascii_textb_true|]); cbn [snd val_ok];
      first [apply ascii_base64 | apply ascii_PipeID | by apply ascii_textb_true | done | unfold Version; lia]. }
  unfold Lease.NewAccessLease, Lease.Sign. cbv zeta. eexists.
  assert (Hp : validString (PipeIDFromOwner owner) = true ∧ (MaxPipeIDLen <? slen (PipeIDFromOwner owner)) = false).
  { apply valid_pipe. rewrite slen_PipeID. unfold MaxPipeIDLen. lia. }
  pass; [rewrite valid_public by done; by rewrite (proj1 Hp), (proj2 Hp)|].
  pass; [by apply PublicFromString_spec|]. pass; [lia|]. pass; [exact Hj|].
  pass; [|reflexivity]. unfold Lease.signingBody. pass; [exact Hm|reflexivity].
Qed.

(** ** Redemption accepts what it should *)
Context {S : Type} `{AuthorityStateLaws S}.
Implicit Types (st : S).

Lemma redeem_checks_complete load wall now enc k challenge loader st invite auth b owner issuer :
  Invite.DecodeInvite enc = Ok invite →
  invite_accepts invite (effective_now now wall) (Invite.AudiencePipeID invite) b owner issuer →
  Load load loader = Ok auth → challenge ≠ "" →
  as_IsRevoked st (Invite.JTI invite) "exact.invite" = Ok false →
  as_RevocationEpoch st (Invite.AudiencePipeID invite) "pipe-access" = Ok (Invite.AccessEpoch invite) →
  redeem_checks load wall now enc (PublicString (Public k)) challenge
    (SignProof k RedeemProofPurpose [Invite.JTI invite; Invite.AudiencePipeID invite; challenge]) loader st
  = Ok (invite, auth).
Proof.
  intros Hd Hi Hload Hc Hr He.
  pose proof (ia_binding _ _ _ _ _ _ Hi) as (_ & Hbd & Hba). pose proof (ba_owner _ _ Hba) as [Ho Hos].
  pose proof (ia_owner _ _ _ _ _ _ Hi) as Hown. pose proof (ia_bound _ _ _ _ _ _ Hi) as [Hk Hp].
  unfold redeem_checks. pass; [exact Hd|]. pass; [exact Hbd|]. pass; [by apply binding_verify_spec|].
  pass; [by apply PublicFromString_spec|].
  pass; [by rewrite (proj2 (VerifyPipeOwner_true _ owner)) by done|].
  pass; [by rewrite Hk, seqb_refl|]. pass; [by rewrite Hp, seqb_refl|]. pass; [exact Hload|].
  pass; [by eapply invite_verify_complete|].
  pass; [by rewrite (proj2 (proj2 (ia_kind _ _ _ _ _ _ Hi)))|].
  pass; [apply PublicFromString_spec; split; [done|apply Public_size]|].
  pass; [by apply seqb_false|]. pass; [by rewrite VerifyProof_SignProof|].
  pass; [exact Hr|]. pass; [done|]. pass; [exact He|]. pass; [by rewrite Z.eqb_refl|]. done.
Qed.
End honest.

Section honest_run.
Context `{Ed25519Laws}.

Lemma Load_total load path k owner b :
  load path = Ok k → binding_accepts b owner → VerifyPipeOwner (Binding.PipeID b) owner = true →
  Binding.AuthorityKey b = PublicString (Public k) → Binding.AuthorityKey b ≠ Binding.Owner b →
  Load load (mkLoader path b) =
    Ok (mkAuth k b (Binding.mkAuthority (Binding.Owner b) (Binding.AuthorityKey b) (Binding.PipeID b) (Binding.Epoch b))).
Proof.
  intros Hl Hb Hp Hk Hne. unfold Load, fromBinding. cbn [l_KeyPath l_Binding]. pass; [exact Hl|].
  pass; [by rewrite Key_size|]. pass; [apply owner_authority_spec; split_and!; [by exists owner|done|reflexivity]|].
  cbn [Binding.oa_AuthorityKey Binding.oa_Owner]. pass; [by apply seqb_false|]. done.
Qed.

Lemma Accept_fresh jti pipeID ss client epoch now d :
  redemption_input_bad jti pipeID ss client = false → redemption_of d jti pipeID = None → epoch < 2 ^ 63 →
  ∃ d', RedeemInviteAndAccept jti pipeID ss client epoch now d = (Ok true, d').
Proof.
  intros Hb Hr He. unfold RedeemInviteAndAccept, in_tx, redeem_accept_tx, insert_redemption, redemption_of in *.
  rewrite Hb, Hr. cbn [Z.eqb Pos.eqb]. rewrite (proj2 (sql_uint_ok epoch epoch)) by done. by eexists.
Qed.

Lemma public_not_blank k : blank (PublicString (Public k)) = false.
Proof. apply not_blank; [apply PublicString_nonempty|apply printable_base64]. Qed.

Lemma minted_lease_encodes rnd k key owner now lifetime epoch l :
  Lease.NewAccessLease rnd k (PublicString key) (PipeIDFromOwner owner) now lifetime epoch = Ok l →
  slen key = PublicKeySize → good_entropy rnd → LeaseFacts.wire_lease l → ∃ text, Lease.Encode l = Ok text.
Proof.
  intros Hl Hk Hr Hw. apply short_lease_encodes; [done|].
  apply NewAccessLease_inv in Hl as (jti & m & Hj & _ & _ & _ & _ & -> & _).
  destruct (jti_shape _ _ Hj Hr) as (_ & _ & Hj3 & _).
  unfold Lease.members, Lease.accessLeaseSigning. cbn [app members_bound foldr fst snd value_bound Lease.Version Lease.Type_
    Lease.Issuer Lease.Subject Lease.AudiencePipeID Lease.JTI Lease.IssuedAt Lease.NotBefore Lease.ExpiresAt
    Lease.AccessEpoch Lease.Signature].
  unfold PublicString. rewrite !slen_base64, Public_size, SignMsg_size, Hk, Hj3, slen_PipeID. by vm_compute.
Qed.

(** An honest recipient's redemption of a fresh invite, at the authority. *)
Lemma redeem_fresh load path k_auth owner b invite wall now enc k challenge rs vs rj vj life d :
  Invite.DecodeInvite enc = Ok invite →
  invite_accepts invite (effective_now now wall) (Invite.AudiencePipeID invite) b owner (Public k_auth) →
  load path = Ok k_auth → Binding.AuthorityKey b ≠ Binding.Owner b →
  rs = Ok vs → rj = Ok vj → slen vj = 16 → challenge ≠ "" → IsZero now = false → in_years (UTC now) →
  in_years (Add (UTC now) (bootstrap_lifetime life (Invite.ExpiresAt invite) now)) →
  Forall (λ c, printable c = true) (bytes_of (Invite.JTI invite)) → Invite.AccessEpoch invite < 2 ^ 63 →
  let pipeID := Invite.AudiencePipeID invite in
  IsRevoked d pipeID "exact.invite" (Invite.JTI invite) = Ok false →
  RevocationEpoch d pipeID "pipe-access" pipeID = Ok (Invite.AccessEpoch invite) →
  redemption_of d (Invite.JTI invite) pipeID = None →
  ∃ lease d' text,
    @RedeemExactInvite _ relations (ExactAuthorityRevocationState pipeID) load wall rs rj now enc
      (PublicString (Public k)) challenge
      (SignProof k RedeemProofPurpose [Invite.JTI invite; pipeID; challenge]) (mkLoader path b) true life d
    = (Ok lease, d') ∧
    Lease.Encode lease = Ok text ∧ Lease.Decode text = Ok lease ∧
    Lease.Subject lease = PublicString (Public k) ∧ Lease.AudiencePipeID lease = pipeID ∧
    Lease.AccessEpoch lease = Invite.AccessEpoch invite ∧ Lease.Issuer lease = Invite.Issuer invite ∧
    holder d' (Invite.JTI invite) pipeID = Some (PublicString (Public k)) ∧
    Lease.NewAccessLease rj k_auth (PublicString (Public k)) pipeID now
      (bootstrap_lifetime life (Invite.ExpiresAt invite) now) (Invite.AccessEpoch invite) = Ok lease.
Proof.
  intros Hd Hi Hl Hne -> -> Hvj Hc Hz Hy Hy' Hjp He pipeID Hr Hep Hfree.
  pose proof (ia_binding _ _ _ _ _ _ Hi) as (_ & Hbd & Hba). pose proof (ia_bound _ _ _ _ _ _ Hi) as [Hk Hp].
  pose proof (ia_owner _ _ _ _ _ _ Hi) as Hown. pose proof (proj1 (ia_issuer _ _ _ _ _ _ Hi)) as His.
  assert (Hload := Load_total load path k_auth owner b Hl Hba ltac:(apply VerifyPipeOwner_true; split; [congruence|apply Hba])
                     ltac:(congruence) Hne).
  pose proof (redeem_checks_complete (S := relations) (H1 := ExactAuthorityRevocationState pipeID) load wall now enc k
                challenge (mkLoader path b) d invite _ b owner (Public k_auth) Hd Hi Hload Hc Hr Hep) as Hck.
  destruct (Accept_fresh (Invite.JTI invite) pipeID ("ses_" +:+ base32_encode vs) (PublicString (Public k))
              (Invite.AccessEpoch invite) now d) as [d' Ha]; [|done|done|].
  { unfold redemption_input_bad, pipeID. rewrite public_not_blank, Hown, pipe_id_not_blank, orb_false_r.
    rewrite (prefixed_not_blank "ses_"); [|done|done|apply printable_base32]. rewrite orb_false_r, orb_false_r.
    apply not_blank; [|done]. intros E. pose proof (proj1 (ia_jti _ _ _ _ _ _ Hi)) as Hv. by rewrite E in Hv. }
  destruct (bootstrap_lifetime_range life (Invite.ExpiresAt invite) now) as [Hlt _].
  destruct (NewAccessLease_total (Ok vj) vj k_auth (Public k) owner now (bootstrap_lifetime life (Invite.ExpiresAt invite) now)
              (Invite.AccessEpoch invite)) as [lease Hm];
    [done|done|apply Public_size|done|done|done|by eapply decoded_invite_epoch|].
  assert (Hge : good_entropy (Ok vj)) by (by intros v' [= <-]).
  assert (Hw : LeaseFacts.wire_lease lease).
  { eapply minted_lease_wire; [exact Hm|done|apply ascii_PipeID|done|done|by eapply decoded_invite_epoch]. }
  destruct (minted_lease_encodes _ _ _ _ _ _ _ _ Hm (Public_size k) Hge Hw) as [text Ht].
  exists lease, d', text. split_and!.
  - unfold pipeID in *. unfold RedeemExactInvite. cbn [negb]. rewrite Hck.
    cbn [NewSessionID randomID mbind res_bind as_RedeemInviteAndAccept ExactAuthorityRevocationState].
    unfold NewSessionID, randomID. cbn [mbind res_bind]. rewrite Ha. f_equal. rewrite Hown. exact Hm.
  - done.
  - by apply LeaseFacts.Decode_Encode.
  - apply NewAccessLease_inv in Hm as (jti & m & _ & _ & _ & _ & _ & -> & _). done.
  - apply NewAccessLease_inv in Hm as (jti & m & _ & _ & _ & _ & _ & -> & _). unfold pipeID. by rewrite Hown.
  - by apply NewAccessLease_inv in Hm as (jti & m & _ & _ & _ & _ & _ & -> & _).
  - apply NewAccessLease_inv in Hm as (jti & m & _ & _ & _ & _ & _ & -> & _). by rewrite His.
  - by eapply Accept_holder.
  - unfold pipeID. by rewrite Hown.
Qed.

Lemma jti_printable rnd jti : NewJTI rnd = Ok jti → Forall (λ c, printable c = true) (bytes_of jti).
Proof.
  unfold NewJTI, randomID. intros E. apply bind_ok in E as (v & _ & E). apply Ok_inj in E as <-.
  rewrite bytes_of_app. apply Forall_app. split; [by repeat constructor|apply printable_base32].
Qed.

Lemma KeyPath_total secrets owner :
  secrets ≠ "" →
  KeyPath secrets (PipeIDFromOwner owner) = Ok [secrets; "exact-authorities"; PipeIDFromOwner owner +:+ ".key"].
Proof. intros Hs. unfold KeyPath. by rewrite (proj2 (seqb_false _ _) Hs), pipe_id_component. Qed.

Lemma base32_nonempty v : v ≠ "" → base32_encode v ≠ "".
Proof.
  intros Hv E. apply Hv. apply base32_encode_inj. rewrite E. done.
Qed.

Lemma decode_nonempty text l : Lease.Decode text = Ok l → text ≠ "".
Proof.
  by intros E ->.
Qed.

Lemma decode_invite_nonempty i : Invite.DecodeInvite "" ≠ Ok i.
Proof. done. Qed.

(** If the authority redeems, the exchange delivers the lease to the recipient. *)
Lemma run_delivers load_owner load provision secrets parts secrets' k ka b wall now vc rs rj i enc life d lease d' text :
  let pipeID := Invite.AudiencePipeID i in
  load (recipient_key_path secrets' pipeID) = Ok k → Invite.EncodeInvite i = Ok enc → 0 < slen enc ≤ 8192 →
  Invite.DecodeInvite enc = Ok i → KeyPath secrets pipeID = Ok parts → load_owner (path_of parts) = Ok ka →
  Binding.DecodeOwnerBinding (Invite.Binding i) = Ok b → base32_encode vc ≠ "" →
  @RedeemExactInvite _ relations (ExactAuthorityRevocationState pipeID) load_owner wall rs rj (UTC now) enc
    (PublicString (Public k)) (base32_encode vc)
    (SignProof k RedeemProofPurpose [Invite.JTI i; pipeID; base32_encode vc]) (mkLoader (path_of parts) b) true
    (cap_ttl life) d = (Ok lease, d') →
  Lease.Encode lease = Ok text → Lease.Decode text = Ok lease →
  run_redemption load_owner load provision (newHandler secrets pipeID life) secrets' wall now (Ok vc) rs rj i
    (PublicString (Public k)) d = (Ok lease, d').
Proof.
  intros pipeID Hlk Henc Hsz Hdec Hkp Hlo Hb Hc Hrun Ht Hdl. subst pipeID.
  unfold run_redemption, redeem_request. cbv zeta. rewrite Hlk, Henc. cbn [relabel mbind res_bind].
  unfold redemption_challenge, or_refuse, unless, bind_step.
  rewrite (proj2 (Z.ltb_ge 8192 (slen enc))), (proj2 (Z.eqb_neq (slen enc) 0)) by lia. cbn [orb].
  rewrite Hdec. cbn [h_pipeID newHandler]. rewrite seqb_refl. cbn [negb RandomChallenge mbind res_bind].
  unfold RandomChallenge. cbn [mbind res_bind].
  unfold redeem_proof_frame. cbn [relabel mbind res_bind]. rewrite (proj2 (seqb_false _ _) Hc). cbn [refuse mbind res_bind].
  unfold redemption_answer, or_refuse, unless, bind_step. cbv zeta.
  cbn [rp_RecipientPublic rp_ChallengeProof h_secrets h_pipeID h_leaseTTL newHandler].
  assert (E1 : slen (PublicString (Public k)) = 43) by (unfold PublicString; by rewrite slen_base64, Public_size).
  assert (E2 : ∀ purpose parts, slen (SignProof k purpose parts) = 86)
    by (intros; unfold SignProof; by rewrite slen_base64, SignMsg_size).
  rewrite E1, E2. change ((8192 <? 43) || (8192 <? 86)) with false. rewrite Hkp, Hlo, Hb.
  cbn iota beta delta [rp_RecipientPublic rp_ChallengeProof]. rewrite Hrun. unfold lease_response. rewrite Ht.
  unfold response_lease. cbn [relabel mbind res_bind rs_OK rs_AccessLease negb refuse].
  rewrite (proj2 (seqb_false _ _) (decode_nonempty _ _ Hdl)). cbn [refuse mbind res_bind]. by rewrite Hdl.
Qed.

(** A run over messages ends with a lease; [honest_redemption] is about the bytes. *)
Lemma honest_messages load_owner load provision secrets secrets' k_owner k_auth k
    rnd rc vc rs vs rj vj peers protocol bepoch b pipeID t0 ttl epoch i enc life wall now d :
  Binding.NewOwnerBinding k_owner (Public k_auth) pipeID bepoch peers protocol = Ok b →
  Invite.NewExactInvite rnd k_auth b pipeID t0 ttl epoch = Ok i →
  Invite.EncodeInvite i = Ok enc → slen enc ≤ 8192 →
  good_entropy rnd → IsZero t0 = false → ascii_text peers → ascii_text protocol →
  0 ≤ bepoch < 2 ^ 64 → 0 ≤ epoch < 2 ^ 63 →
  in_years (UTC t0) → in_years (Add (UTC t0) ttl) →
  Public k_auth ≠ Public k_owner → secrets ≠ "" →
  load_owner (path_of [secrets; "exact-authorities"; pipeID +:+ ".key"]) = Ok k_auth →
  load (recipient_key_path secrets' pipeID) = Ok k →
  rc = Ok vc → vc ≠ "" → rs = Ok vs → rj = Ok vj → slen vj = 16 →
  IsZero now = false → unix_ns t0 - MaxClockSkew ≤ unix_ns now < unix_ns t0 + ttl →
  in_years (UTC now) →
  in_years (Add (UTC now) (bootstrap_lifetime (cap_ttl life) (Invite.ExpiresAt i) (UTC now))) →
  IsRevoked d pipeID "exact.invite" (Invite.JTI i) = Ok false →
  RevocationEpoch d pipeID "pipe-access" pipeID = Ok epoch →
  redemption_of d (Invite.JTI i) pipeID = None →
  ∃ lease d',
    run_redemption load_owner load provision (newHandler secrets pipeID life) secrets' wall now rc rs rj i
      (PublicString (Public k)) d = (Ok lease, d') ∧
    Lease.Subject lease = PublicString (Public k) ∧ Lease.AudiencePipeID lease = pipeID ∧
    Lease.AccessEpoch lease = epoch ∧ Lease.Issuer lease = PublicString (Public k_auth) ∧
    holder d' (Invite.JTI i) pipeID = Some (PublicString (Public k)) ∧
    Lease.NewAccessLease rj k_auth (PublicString (Public k)) pipeID (UTC now)
      (bootstrap_lifetime (cap_ttl life) (Invite.ExpiresAt i) (UTC now)) epoch = Ok lease.
Proof.
  intros Hb Hinv Henc Hsz Hr Hz Hpe Hpr Hbe He Hy Hy' Hne Hs Hlo Hlk -> Hvc -> -> Hvj Hzn Hw Hyn Hyl Hrv Hep Hfree.
  pose proof (minted_binding_authority _ _ _ _ _ _ _ Hb) as (Hba & Hpo & Hk & Hbep).
  assert (Hbind : Binding.RedemptionPeers b = peers ∧ Binding.RedemptionProtocol b = protocol
          ∧ Binding.Owner b = PublicString (Public k_owner)).
  { unfold Binding.NewOwnerBinding, Binding.Sign in Hb. cbv zeta in Hb. res_inv. done. }
  destruct Hbind as (Ep & Eq & Eo).
  destruct (NewExactInvite_inv _ _ _ _ _ _ _ _ Hinv) as (o & benc & jti & m & _ & _ & _ & Hbp & _ & Hbenc & Hlt & Hj & Ei & _).
  assert (Hown : pipeID = PipeIDFromOwner (Public k_owner)).
  { apply VerifyPipeOwner_true in Hpo as [Hpo _]. congruence. }
  destruct (minted_invite_accepts _ _ _ _ _ _ _ _ (UTC (UTC now)) Hinv Hr Hz) as [owner Hi];
    [by rewrite Ep|by rewrite Eq|by rewrite Hbep|exact Hw|].
  assert (Hpipe : Invite.AudiencePipeID i = pipeID) by (by rewrite Ei).
  assert (Hjti : Invite.JTI i = jti) by (by rewrite Ei). assert (Hepoch : Invite.AccessEpoch i = epoch) by (by rewrite Ei).
  assert (His : Invite.Issuer i = PublicString (Public k_auth)) by (by rewrite Ei).
  assert (Hbt : Binding.DecodeOwnerBinding (Invite.Binding i) = Ok b) by apply (ia_binding _ _ _ _ _ _ Hi).
  clear Ei. pose proof (minted_invite_wire _ _ _ _ _ _ _ _ Hinv Hr Hy Hy' ltac:(lia)) as Hwire.
  pose proof (InviteFacts.DecodeInvite_Encode _ _ Hwire Henc) as Hdec.
  rewrite <- Hpipe in Hi, Hlk, Hlo, Hrv, Hep, Hfree. rewrite <- Hepoch in Hep.
  destruct (redeem_fresh load_owner (path_of [secrets; "exact-authorities"; Invite.AudiencePipeID i +:+ ".key"]) k_auth owner b
              i wall (UTC now) enc k (base32_encode vc) (Ok vs) vs (Ok vj) vj (cap_ttl life) d) as
    (lease & d' & text & Hrun & Ht & Hdl & Hsub & Hap & Hae & Hiss & Hh & Hm); try done.
  - unfold effective_now. change (IsZero (UTC now)) with (IsZero now). by rewrite Hzn.
  - rewrite Hk, Eo. intros E%base64_encode_inj. done.
  - by apply base32_nonempty.
  - rewrite Hjti. by eapply jti_printable.
  - lia.
  - exists lease, d'. split_and!; [|done|congruence|congruence|congruence|by rewrite <- Hpipe|by rewrite <- Hpipe, <- Hepoch].
    rewrite <- Hpipe. eapply run_delivers; try done.
    + split; [|done]. assert (enc ≠ "") as Hx by (intros ->; by apply decode_invite_nonempty in Hdec).
      rewrite <- slen_zero in Hx. pose proof (slen_nonneg enc). lia.
    + rewrite Hpipe, Hown. by apply KeyPath_total.
    + by apply base32_nonempty.
Qed.

Lemma challenge_inv h rnd req invite challenge :
  redemption_challenge h rnd req = inl (invite, challenge) →
  ∃ enc, req = Ok enc ∧ 0 < slen enc ≤ 8192 ∧ Invite.DecodeInvite enc = Ok invite ∧
         Invite.AudiencePipeID invite = h_pipeID h ∧ RandomChallenge rnd = Ok challenge.
Proof.
  destruct req as [enc|e]; [|done]. unfold redemption_challenge, bind_step, or_refuse, unless. intros E.
  repeat case_match; simplify_eq. repeat bool_step.
  exists enc. pose proof (slen_nonneg enc). split_and!; try done; lia.
Qed.

(** What made an answer touch the store or grant a lease. *)
Record granted (load : string → res PrivateKey) (h : handler) (wall now : time) (invite : Invite.ExactInvite)
    (challenge : string) (d : relations) (p : ExactRedemptionProof)
    (k : PrivateKey) : Prop := {
  gr_key : ∃ parts, KeyPath (h_secrets h) (h_pipeID h) = Ok parts ∧ load (path_of parts) = Ok k;
  gr_invite : ∃ b owner issuer,
    invite_accepts invite (effective_now (UTC now) wall) (Invite.AudiencePipeID invite) b owner issuer;
  gr_issuer : Invite.Issuer invite = PublicString (Public k);
  gr_proof : ∃ key, rp_RecipientPublic p = PublicString key ∧
    VerifyProof key (rp_ChallengeProof p) RedeemProofPurpose
      [Invite.JTI invite; Invite.AudiencePipeID invite; challenge] = true;
  gr_revoked : IsRevoked d (h_pipeID h) "exact.invite" (Invite.JTI invite) = Ok false;
  gr_epoch : RevocationEpoch d (h_pipeID h) "pipe-access" (Invite.AudiencePipeID invite) = Ok (Invite.AccessEpoch invite);
}.

Lemma redeemable_granted load h wall now enc invite challenge d p parts k b auth :
  KeyPath (h_secrets h) (h_pipeID h) = Ok parts → load (path_of parts) = Ok k →
  Binding.DecodeOwnerBinding (Invite.Binding invite) = Ok b →
  redeemable (S := relations) (H1 := ExactAuthorityRevocationState (h_pipeID h)) load wall (UTC now) enc
    (rp_RecipientPublic p) challenge (rp_ChallengeProof p) (mkLoader (path_of parts) b) d invite auth →
  granted load h wall now invite challenge d p k ∧ Private auth = k.
Proof.
  intros Hp Hl Hb [_ Ha Hload (key & Hk & _ & Hpf) _ Hr He].
  destruct Ha as (b' & owner & issuer & Hi). pose proof (ia_binding _ _ _ _ _ _ Hi) as (_ & Hb' & _).
  assert (b' = b) as -> by congruence. pose proof (ia_bound _ _ _ _ _ _ Hi) as [Hbk _].
  assert (Hpk : Private auth = k).
  { unfold Load in Hload. cbn [l_KeyPath l_Binding] in Hload. rewrite Hl in Hload. cbn [mbind res_bind] in Hload.
    by apply fromBinding_ok in Hload as (-> & _). }
  apply Load_issuer in Hload as [Hload _]. cbn [l_Binding] in Hload. split; [|done]. constructor; try done.
  - by exists parts.
  - by exists b, owner, issuer.
  - congruence.
  - by exists key.
Qed.

(** C26: an owner's redemption handler serves its own Pipe and its own invites only. When
    its answer to a proof grants a lease or changes the store, the invite is for the
    handler's Pipe, verified and not revoked and of the current epoch, was issued by the
    very key the handler loaded, and the peer proved possession of the recipient key over
    the challenge the handler had sent; a granted text is the encoding of a lease for that
    recipient and Pipe by the invite's issuer that expires no later than the invite. *)
Theorem redemption_handler_sound load h wall now rc rs rj req invite challenge proof d r d' :
  redemption_challenge h rc req = inl (invite, challenge) → IsZero now = false →
  (∃ enc, req = Ok enc ∧ redemption_answer load h wall now rs rj enc invite challenge proof d = (r, d')) →
  (rs_OK r = true ∨ d' ≠ d) →
  ∃ p k, proof = Ok p ∧ Invite.AudiencePipeID invite = h_pipeID h ∧
    granted load h wall now invite challenge d p k ∧
    (rs_OK r = true → ∃ lease, Lease.Encode lease = Ok (rs_AccessLease r) ∧ rs_ExpiresAt r = Lease.ExpiresAt lease ∧
       Lease.Subject lease = rp_RecipientPublic p ∧ Lease.AudiencePipeID lease = h_pipeID h ∧
       Lease.Issuer lease = Invite.Issuer invite ∧ Lease.AccessEpoch lease = Invite.AccessEpoch invite ∧
       unix_ns (Lease.ExpiresAt lease) ≤ unix_ns (Invite.ExpiresAt invite)).
Proof.
  intros (enc0 & -> & _ & Hdec & Hpipe & _)%challenge_inv Hz (enc & [= <-] & Ha) Hor.
  unfold redemption_answer in Ha. cbv zeta in Ha. unfold bind_step, or_refuse, unless in Ha.
  destruct proof as [p|e]; [|by simplify_eq; destruct Hor].
  destruct ((8192 <? slen (rp_RecipientPublic p)) || _); [by simplify_eq; destruct Hor|].
  destruct (KeyPath (h_secrets h) (h_pipeID h)) as [parts|e] eqn:Hkp; [|by simplify_eq; destruct Hor].
  destruct (load (path_of parts)) as [k|e] eqn:Hl; [|by simplify_eq; destruct Hor].
  destruct (Binding.DecodeOwnerBinding (Invite.Binding invite)) as [b|e] eqn:Hb; [|by simplify_eq; destruct Hor].
  destruct (RedeemExactInvite _ _ _ _ _ _ _ _ _ _ _ _ _) as [[lease|e] d1] eqn:Hr.
  - destruct (redeemed_lease _ _ _ _ _ _ _ _ _ _ _ _ _ _ _ Hr) as
      (i & auth & R & _ & Hs & Hp & Hep & Hiss & _ & [_ Hx] & _); [done|].
    assert (i = invite) as -> by (pose proof (rd_decoded _ _ _ _ _ _ _ _ _ _ _ R); congruence).
    destruct (redeemable_granted load h wall now enc0 invite challenge d p parts k b auth Hkp Hl Hb R) as [G Hk].
    exists p, k. split_and!; [done|done|done|]. intros Hok. exists lease.
    unfold lease_response in Ha. destruct (Lease.Encode lease) as [text|e] eqn:Et; injection Ha as <- <-; [|done].
    cbn. split_and!; try done; [congruence|]. rewrite Hiss, Hk. by rewrite (gr_issuer _ _ _ _ _ _ _ _ _ G).
  - simplify_eq. destruct Hor as [?|Hne]; [done|].
    destruct (redeem_cases _ _ _ _ _ _ _ _ _ _ _ _ _ _ _ Hr) as [[_ ?]|(i & auth & ss & Hc & _)]; [done|].
    apply redeem_checks_ok in Hc as R.
    assert (i = invite) as -> by (pose proof (rd_decoded _ _ _ _ _ _ _ _ _ _ _ R); congruence).
    destruct (redeemable_granted load h wall now enc0 invite challenge d p parts k b auth Hkp Hl Hb R) as [G _].
    exists p, k. split_and!; [done..].
Qed.
End honest_run.

(** ** Runs *)
Definition owner_dir : string := "/owner/secrets".
Definition client_dir : string := "/client/secrets".
Definition owner_keys (path : string) : res string :=
  if path =s path_of [owner_dir; "exact-authorities"; pipe +:+ ".key"] then Ok authority_key
  else Fail (errorf "no such key").
Definition client_keys (path : string) : res string :=
  if path =s recipient_key_path client_dir pipe then Ok "recipient" else Fail (errorf "no such key").
Definition challenge_bytes : string := "0123456789abcdef01234567".
Definition no_provision (_ : string) : res string := Fail (errorf "read only").

Definition proof1 (challenge : string) : ExactRedemptionProof :=
  mkRedemptionProof (PublicString (@Public keys "recipient")) (redeem_proof "recipient" challenge).
Local Abbreviation answer1 :=
  (redemption_answer (H := keys) owner_keys (newHandler owner_dir pipe (5 * Minute)) noon noon rnd16 rnd16 invite1_text
     invite1 (base32_encode challenge_bytes) (Ok (proof1 (base32_encode challenge_bytes))) d7).

Lemma redemption_handler_sound_witness :
  rs_OK answer1.1 = true ∧ Invite.AudiencePipeID invite1 = pipe.
Proof.
  assert (Hok : rs_OK answer1.1 = true) by (vm_compute; reflexivity). split; [exact Hok|].
  assert (Hc : redemption_challenge (newHandler owner_dir pipe (5 * Minute)) (Ok challenge_bytes) (Ok invite1_text)
               = inl (invite1, base32_encode challenge_bytes)) by (vm_compute; reflexivity).
  destruct (redemption_handler_sound (H := keys) owner_keys (newHandler owner_dir pipe (5 * Minute)) noon noon
    (Ok challenge_bytes) rnd16 rnd16 (Ok invite1_text) invite1 (base32_encode challenge_bytes)
    (Ok (proof1 (base32_encode challenge_bytes))) d7 answer1.1 answer1.2 Hc eq_refl
    (ex_intro _ invite1_text (conj eq_refl (surjective_pairing answer1))) (or_introl Hok)) as (p & k & _ & Hp & _).
  exact Hp.
Defined.
