(* ===== verification/Frames.v ===== *)
(** * Wire frames

    [internal/protocol/frame.go]: a frame is the JSON text of a message behind its length
    in four bytes, most significant first. The class [WireFrame] gives the JSON form of a
    message type; there is an instance for each message of the tunnel, redemption and
    renewal protocols and for the snapshot request.

    A stream is the list of bytes it delivers before it ends. A slice that is empty is
    written as a nil one. *)
From S2P Require Import Prelude GoStrings GoTime Encoding Json JsonRoundTrip JsonTree Sha256.
From S2P Require Import Credentials CredentialFacts CredentialVerify StoreRelations StoreRelationFacts.
From S2P Require Import ExactAuthority OpenBoundary Handlers.
Open Scope Z_scope.

Definition MaxFrame : Z := Z.shiftl 64 10.

(** [binary.BigEndian]. *)
Definition PutUint32 (n : Z) : list ascii :=
  [chr (Z.shiftr n 24); chr (Z.shiftr n 16); chr (Z.shiftr n 8); chr n].
Definition Uint32 (l : list ascii) : Z :=
  fold_left (λ acc c, Z.lor (Z.shiftl acc 8) (code c)) l 0.

(** ** The message types *)
Class WireFrame (A : Type) := frame_codec : codec A.

Definition WriteFrame `{WireFrame A} (value : A) : res (list ascii) :=
  data ← marshal frame_codec value;
  _ ← refuse (MaxFrame <? slen data) (errorf "frame exceeds 64 KiB");
  Ok (PutUint32 (slen data) ++ bytes_of data).

(** [io.ReadFull]. *)
Definition ReadFull (n : nat) (l : list ascii) : res (list ascii) * list ascii :=
  if (n <=? length l)%nat then (Ok (take n l), drop n l)
  else (Fail (match l with [] => wrapf ErrEOF "EOF" | _ => wrapf ErrUnexpectedEOF "unexpected EOF" end), []).

(** The payload: one value without unknown members, and nothing behind it. *)
Definition decode_frame `{WireFrame A} (data : list ascii) : res A :=
  '(j, r) ← need (decode_value data) (errorf "invalid frame payload");
  value ← need (c_take frame_codec true j (c_zero frame_codec)) (errorf "invalid frame payload");
  _ ← refuse (negb (bool_decide (skip_ws r = []))) (errorf "trailing frame payload");
  Ok value.

Definition ReadFrame `{WireFrame A} (l : list ascii) : res A * list ascii :=
  match ReadFull 4 l with
  | (Fail e, l) => (Fail e, l)
  | (Ok size, l) =>
      let n := Uint32 size in
      if (n =? 0) || (MaxFrame <? n) then (Fail (errorf "invalid frame size"), l)
      else match ReadFull (Z.to_nat n) l with
           | (Fail e, l) => (Fail e, l)
           | (Ok data, l) => (decode_frame data, l)
           end
  end.

Definition text_of {A} (name : string) (get : A → string) (set : string → A → A) : field A :=
  mkField string_codec name get set always.
Definition opt_text {A} (name : string) (get : A → string) (set : string → A → A) : field A :=
  mkField string_codec name get set empty_str.

#[export] Instance ClientHello_frame : WireFrame ClientHello := struct_codec (mkClientHello "" "" []) [
  text_of "version" ch_Version (λ v a, mkClientHello v (ch_ClientPublic a) (ch_Capabilities a));
  text_of "client_public" ch_ClientPublic (λ v a, mkClientHello (ch_Version a) v (ch_Capabilities a));
  mkField (slice_codec string_codec) "capabilities" ch_Capabilities
    (λ v a, mkClientHello (ch_Version a) (ch_ClientPublic a) v) always].

Record ServerHello := mkServerHello {
  sh_Version : string; sh_PipeID : string; sh_Challenge : string; sh_Capabilities : list string }.
#[export] Instance ServerHello_frame : WireFrame ServerHello := struct_codec (mkServerHello "" "" "" []) [
  text_of "version" sh_Version (λ v a, mkServerHello v (sh_PipeID a) (sh_Challenge a) (sh_Capabilities a));
  text_of "pipe_id" sh_PipeID (λ v a, mkServerHello (sh_Version a) v (sh_Challenge a) (sh_Capabilities a));
  text_of "challenge" sh_Challenge (λ v a, mkServerHello (sh_Version a) (sh_PipeID a) v (sh_Capabilities a));
  mkField (slice_codec string_codec) "capabilities" sh_Capabilities
    (λ v a, mkServerHello (sh_Version a) (sh_PipeID a) (sh_Challenge a) v) always].

#[export] Instance OpenPipe_frame : WireFrame OpenPipe := struct_codec (mkOpenPipe "" "" "" [] 0) [
  text_of "pipe_id" op_PipeID
    (λ v a, mkOpenPipe v (op_ChallengeProof a) (op_AccessLease a) (op_VisitedPipeIDs a) (op_HopLimit a));
  text_of "challenge_proof" op_ChallengeProof
    (λ v a, mkOpenPipe (op_PipeID a) v (op_AccessLease a) (op_VisitedPipeIDs a) (op_HopLimit a));
  text_of "access_lease" op_AccessLease
    (λ v a, mkOpenPipe (op_PipeID a) (op_ChallengeProof a) v (op_VisitedPipeIDs a) (op_HopLimit a));
  mkField (slice_codec string_codec) "visited_pipe_ids" op_VisitedPipeIDs
    (λ v a, mkOpenPipe (op_PipeID a) (op_ChallengeProof a) (op_AccessLease a) v (op_HopLimit a)) always;
  mkField int_codec "hop_limit" op_HopLimit
    (λ v a, mkOpenPipe (op_PipeID a) (op_ChallengeProof a) (op_AccessLease a) (op_VisitedPipeIDs a) v) always].

Record ExactRedemptionRequest := mkRedemptionRequest { rr_Invite : string }.
#[export] Instance ExactRedemptionRequest_frame : WireFrame ExactRedemptionRequest :=
  struct_codec (mkRedemptionRequest "") [text_of "invite" rr_Invite (λ v _, mkRedemptionRequest v)].

(** [ExactRedemptionChallenge] and [ExactRenewalChallenge]. *)
Record ExactChallenge := mkChallenge { ec_Challenge : string }.
#[export] Instance ExactChallenge_frame : WireFrame ExactChallenge :=
  struct_codec (mkChallenge "") [text_of "challenge" ec_Challenge (λ v _, mkChallenge v)].

#[export] Instance ExactRedemptionProof_frame : WireFrame ExactRedemptionProof :=
  struct_codec (mkRedemptionProof "" "") [
    text_of "recipient_public" rp_RecipientPublic (λ v a, mkRedemptionProof v (rp_ChallengeProof a));
    text_of "challenge_proof" rp_ChallengeProof (λ v a, mkRedemptionProof (rp_RecipientPublic a) v)].

(** [ExactRedemptionResponse] and [ExactRenewalResponse]; [omitempty] has no effect on a
    time. *)
#[export] Instance ExactResponse_frame : WireFrame ExactResponse :=
  struct_codec (mkResponse false "" zero_time "") [
    mkField bool_codec "ok" rs_OK (λ v a, mkResponse v (rs_AccessLease a) (rs_ExpiresAt a) (rs_Error a)) always;
    opt_text "error" rs_Error (λ v a, mkResponse (rs_OK a) (rs_AccessLease a) (rs_ExpiresAt a) v);
    opt_text "access_lease" rs_AccessLease (λ v a, mkResponse (rs_OK a) v (rs_ExpiresAt a) (rs_Error a));
    mkField time_codec "expires_at" rs_ExpiresAt
      (λ v a, mkResponse (rs_OK a) (rs_AccessLease a) v (rs_Error a)) always].

#[export] Instance ExactRenewalRequest_frame : WireFrame ExactRenewalRequest :=
  struct_codec (mkRenewalRequest "" "" "") [
    text_of "pipe_id" rq_PipeID (λ v a, mkRenewalRequest v (rq_RecipientPublic a) (rq_OwnerBinding a));
    text_of "recipient_public" rq_RecipientPublic (λ v a, mkRenewalRequest (rq_PipeID a) v (rq_OwnerBinding a));
    text_of "owner_binding" rq_OwnerBinding (λ v a, mkRenewalRequest (rq_PipeID a) (rq_RecipientPublic a) v)].

Record ExactRenewalProof := mkRenewalProof { rn_ChallengeProof : string }.
#[export] Instance ExactRenewalProof_frame : WireFrame ExactRenewalProof :=
  struct_codec (mkRenewalProof "") [text_of "challenge_proof" rn_ChallengeProof (λ v _, mkRenewalProof v)].

Record OpenResult := mkOpenResult {
  or_OK : bool; or_SessionID : string; or_Protocol : string; or_ErrorCode : string; or_Message : string;
  or_RetryClass : string }.
#[export] Instance OpenResult_frame : WireFrame OpenResult := struct_codec (mkOpenResult false "" "" "" "" "") [
  mkField bool_codec "ok" or_OK
    (λ v a, mkOpenResult v (or_SessionID a) (or_Protocol a) (or_ErrorCode a) (or_Message a) (or_RetryClass a)) always;
  opt_text "session_id" or_SessionID
    (λ v a, mkOpenResult (or_OK a) v (or_Protocol a) (or_ErrorCode a) (or_Message a) (or_RetryClass a));
  opt_text "protocol" or_Protocol
    (λ v a, mkOpenResult (or_OK a) (or_SessionID a) v (or_ErrorCode a) (or_Message a) (or_RetryClass a));
  opt_text "error_code" or_ErrorCode
    (λ v a, mkOpenResult (or_OK a) (or_SessionID a) (or_Protocol a) v (or_Message a) (or_RetryClass a));
  opt_text "message" or_Message
    (λ v a, mkOpenResult (or_OK a) (or_SessionID a) (or_Protocol a) (or_ErrorCode a) v (or_RetryClass a));
  opt_text "retry_class" or_RetryClass
    (λ v a, mkOpenResult (or_OK a) (or_SessionID a) (or_Protocol a) (or_ErrorCode a) (or_Message a) v)].

Record AuthoritySnapshotRequest := mkSnapshotRequest {
  sq_Token : string; sq_ClientPublic : string; sq_Nonce : string; sq_Proof : string }.
#[export] Instance AuthoritySnapshotRequest_frame : WireFrame AuthoritySnapshotRequest :=
  struct_codec (mkSnapshotRequest "" "" "" "") [
    text_of "token" sq_Token (λ v a, mkSnapshotRequest v (sq_ClientPublic a) (sq_Nonce a) (sq_Proof a));
    text_of "client_public" sq_ClientPublic (λ v a, mkSnapshotRequest (sq_Token a) v (sq_Nonce a) (sq_Proof a));
    text_of "nonce" sq_Nonce (λ v a, mkSnapshotRequest (sq_Token a) (sq_ClientPublic a) v (sq_Proof a));
    text_of "proof" sq_Proof (λ v a, mkSnapshotRequest (sq_Token a) (sq_ClientPublic a) (sq_Nonce a) v)].

(** ** The redemption protocol over bytes

    [send] is a frame on its way to a peer that expects a message of type [B]; when the
    frame cannot be written the sender closes the stream. *)
Definition send {A B} `{WireFrame A} `{WireFrame B} (value : A) : res B :=
  (ReadFrame match WriteFrame value with Ok bytes => bytes | Fail _ => [] end).1.

Definition got {A} (m : res A) (field : A → string) : res string := a ← m; Ok (field a).

Definition run_redemption_wire `{Ed25519} (load_owner load provision : string → res PrivateKey) (h : handler)
    (secrets : string) (wall now : time) (rnd_challenge rnd_session rnd_jti : entropy)
    (invite : Invite.ExactInvite) (recipientPublic : string) (d : relations)
    : res Lease.AccessLease * relations :=
  match redeem_request load provision secrets invite with
  | Fail e => (Fail e, d)
  | Ok (private, encoded) =>
      let request := mkRedemptionRequest encoded in
      match WriteFrame request with
      | Fail _ => (Fail (errorf "exact_redemption: send invite"), d)
      | Ok _ =>
          match redemption_challenge h rnd_challenge (got (send request) rr_Invite) with
          | inr refused =>
              (_ ← redeem_proof_frame private invite recipientPublic (got (send refused) ec_Challenge);
               Fail (errorf "exact_redemption: send proof"), d)
          | inl (seen, challenge) =>
              match redeem_proof_frame private invite recipientPublic
                      (got (send (mkChallenge challenge)) ec_Challenge) with
              | Fail e => (Fail e, d)
              | Ok proof =>
                  match WriteFrame proof with
                  | Fail _ => (Fail (errorf "exact_redemption: send proof"), d)
                  | Ok _ =>
                      let '(r, d) := redemption_answer load_owner h wall now rnd_session rnd_jti
                                       (match got (send request) rr_Invite with Ok e => e | Fail _ => "" end)
                                       seen challenge (send proof) d in
                      (response_lease (send r), d)
                  end
              end
          end
      end
  end.

(** The renewal protocol over bytes. *)
Definition run_renewal_wire `{Ed25519} (load_owner load : string → res PrivateKey) (h : handler)
    (secrets : string) (now : time) (rnd_challenge rnd_jti : entropy) (req : ExactRenewalRequest) (d : relations)
    : res Lease.AccessLease :=
  '(private, req) ← renew_request load secrets req;
  _ ← relabel (WriteFrame req) (errorf "exact_renewal: send request");
  match renewal_challenge h rnd_challenge (send req) with
  | inr refused =>
      _ ← renew_proof_frame private req (got (send refused) ec_Challenge);
      Fail (errorf "exact_renewal: send proof")
  | inl (seen, loader, challenge) =>
      proof ← renew_proof_frame private req (got (send (mkChallenge challenge)) ec_Challenge);
      _ ← relabel (WriteFrame (mkRenewalProof proof)) (errorf "exact_renewal: send proof");
      response_lease (send (renewal_answer load_owner h now rnd_jti seen loader challenge
                              (got (send (mkRenewalProof proof)) rn_ChallengeProof) d))
  end.
