(* ===== verification/FrameFacts.v ===== *)
(** * Properties of wire frames

    Every message type reads back what it writes, so a frame is read from a stream exactly
    as it was written, and the redemption protocol runs over bytes as it runs over messages. *)
From S2P Require Import Prelude GoStrings GoTime Encoding Json JsonRoundTrip JsonTree Sha256.
From S2P Require Import Credentials CredentialFacts CredentialVerify CredentialProps StoreRelations StoreRelationFacts.
From S2P Require Import ExactAuthority ExactAuthorityFacts OpenBoundary AccessProps Handlers HandlerProps Frames.
Import SampleKeys.
Open Scope Z_scope.

(** What a message type promises: messages whose fields are within their types are read
    back, strictly. *)
Class WireFrameLaws (A : Type) `{WireFrame A} := {
  frame_ok : A → Prop;
  frame_reads a : frame_ok a → reads frame_codec 4 a;
}.

#[export] Program Instance ClientHello_laws : WireFrameLaws ClientHello := {
  frame_ok a := ascii_text (ch_Version a) ∧ ascii_text (ch_ClientPublic a) ∧ Forall ascii_text (ch_Capabilities a);
}.
Next Obligation. intros a (Hv & Hp & Hc). apply reads_struct; [solve_shape|solve_reads]. Qed.
#[export] Program Instance ServerHello_laws : WireFrameLaws ServerHello := {
  frame_ok a := ascii_text (sh_Version a) ∧ ascii_text (sh_PipeID a) ∧ ascii_text (sh_Challenge a) ∧
                Forall ascii_text (sh_Capabilities a);
}.
Next Obligation. intros a (Hv & Hp & Hc & Hl). apply reads_struct; [solve_shape|solve_reads]. Qed.
#[export] Program Instance OpenPipe_laws : WireFrameLaws OpenPipe := {
  frame_ok a := ascii_text (op_PipeID a) ∧ ascii_text (op_ChallengeProof a) ∧ ascii_text (op_AccessLease a) ∧
                Forall ascii_text (op_VisitedPipeIDs a) ∧ - 2 ^ 63 ≤ op_HopLimit a < 2 ^ 63;
}.
Next Obligation. intros a (Hv & Hp & Hc & Hl & Hn). apply reads_struct; [solve_shape|solve_reads]. Qed.
#[export] Program Instance ExactRedemptionRequest_laws : WireFrameLaws ExactRedemptionRequest := {
  frame_ok a := ascii_text (rr_Invite a) }.
Next Obligation. intros a Hv. apply reads_struct; [solve_shape|solve_reads]. Qed.
#[export] Program Instance ExactChallenge_laws : WireFrameLaws ExactChallenge := {
  frame_ok a := ascii_text (ec_Challenge a) }.
Next Obligation. intros a Hv. apply reads_struct; [solve_shape|solve_reads]. Qed.
#[export] Program Instance ExactRedemptionProof_laws : WireFrameLaws ExactRedemptionProof := {
  frame_ok a := ascii_text (rp_RecipientPublic a) ∧ ascii_text (rp_ChallengeProof a) }.
Next Obligation. intros a [Hv Hp]. apply reads_struct; [solve_shape|solve_reads]. Qed.
#[export] Program Instance ExactResponse_laws : WireFrameLaws ExactResponse := {
  frame_ok a := ascii_text (rs_Error a) ∧ ascii_text (rs_AccessLease a) ∧
                zone (rs_ExpiresAt a) = 0 ∧ in_years (rs_ExpiresAt a) }.
Next Obligation. intros a (Hv & Hp & Hz & Hy). apply reads_struct; [solve_shape|solve_reads]. Qed.
#[export] Program Instance ExactRenewalRequest_laws : WireFrameLaws ExactRenewalRequest := {
  frame_ok a := ascii_text (rq_PipeID a) ∧ ascii_text (rq_RecipientPublic a) ∧ ascii_text (rq_OwnerBinding a) }.
Next Obligation. intros a (Hv & Hp & Hz). apply reads_struct; [solve_shape|solve_reads]. Qed.
#[export] Program Instance ExactRenewalProof_laws : WireFrameLaws ExactRenewalProof := {
  frame_ok a := ascii_text (rn_ChallengeProof a) }.
Next Obligation. intros a Hv. apply reads_struct; [solve_shape|solve_reads]. Qed.
#[export] Program Instance OpenResult_laws : WireFrameLaws OpenResult := {
  frame_ok a := ascii_text (or_SessionID a) ∧ ascii_text (or_Protocol a) ∧ ascii_text (or_ErrorCode a) ∧
                ascii_text (or_Message a) ∧ ascii_text (or_RetryClass a) }.
Next Obligation. intros a (Hs & Hp & He & Hm & Hr). apply reads_struct; [solve_shape|solve_reads]. Qed.
#[export] Program Instance AuthoritySnapshotRequest_laws : WireFrameLaws AuthoritySnapshotRequest := {
  frame_ok a := ascii_text (sq_Token a) ∧ ascii_text (sq_ClientPublic a) ∧ ascii_text (sq_Nonce a) ∧
                ascii_text (sq_Proof a) }.
Next Obligation. intros a (Hs & Hp & He & Hm). apply reads_struct; [solve_shape|solve_reads]. Qed.

(** ** Framing *)
Lemma Uint32_PutUint32 n : 0 ≤ n < 2 ^ 32 → Uint32 (PutUint32 n) = n.
Proof.
  intros Hn. unfold Uint32, PutUint32. cbn [fold_left]. rewrite !code_chr, !Z.shiftr_div_pow2, !Z.shiftl_mul_pow2 by lia.
  assert (L : ∀ a b, 0 ≤ b < 256 → Z.lor (a * 2 ^ 8) b = a * 256 + b).
  { intros a b Hb. rewrite <- Z.add_nocarry_lor; [lia|]. apply Z.bits_inj'. intros i Hi.
    rewrite Z.land_spec, Z.bits_0, <- Z.shiftl_mul_pow2 by lia. rewrite Z.shiftl_spec by lia.
    destruct (Z.lt_ge_cases i 8); [by rewrite Z.testbit_neg_r by lia|].
    replace b with (b mod 2 ^ 8) by (apply Z.mod_small; lia). rewrite Z.mod_pow2_bits_high by lia. apply andb_false_r. }
  rewrite !L by (apply Z.mod_pos_bound; lia). 
  change (2 ^ 24) with 16777216. change (2 ^ 16) with 65536. change (2 ^ 8) with 256. lia.
Qed.

Lemma ReadFull_app n l r : length l = n → ReadFull n (l ++ r) = (Ok l, r).
Proof.
  intros <-. unfold ReadFull. rewrite (proj2 (Nat.leb_le _ _)) by (rewrite length_app; lia).
  by rewrite take_app_length, drop_app_length.
Qed.

Lemma ReadFull_used n l r l' :
  ReadFull n l = (r, l') → ∃ used, l = used ++ l' ∧ (length used ≤ n)%nat.
Proof.
  unfold ReadFull. destruct (Nat.leb_spec n (length l)); intros [= <- <-].
  - exists (take n l). split; [by rewrite take_drop|]. rewrite length_take. lia.
  - exists l. split; [by rewrite app_nil_r|lia].
Qed.

(** A written message, read as a message of any type. *)
Lemma read_payload {A B} `{WireFrame A} `{WireFrame B} (a : A) j bytes rest :
  c_put frame_codec a = Ok j → shown 4 j → WriteFrame a = Ok bytes →
  ReadFrame (A := B) (bytes ++ rest)
  = (need (c_take frame_codec true j (c_zero frame_codec)) (errorf "invalid frame payload"), rest).
Proof.
  intros Hp Hs Hw. unfold WriteFrame, marshal in Hw. rewrite Hp in Hw. cbn [mbind res_bind] in Hw. res_inv.
  rewrite slen_of_bytes, bytes_of_of in *.
  assert (Hlen : 0 < llen (show j) < 2 ^ 32).
  { pose proof (show_nonempty 4 j Hs). unfold MaxFrame in *. change (Z.shiftl 64 10) with 65536 in *. unfold llen in *. lia. }
  match goal with |- ReadFrame (?b ++ _) = _ => change b with (PutUint32 (llen (show j)) ++ show j) end.
  unfold ReadFrame. rewrite <- app_assoc, ReadFull_app by done. rewrite Uint32_PutUint32 by lia.
  rewrite (proj2 (Z.eqb_neq _ _)) by lia. rewrite (proj2 (Z.ltb_ge _ _)) by lia. cbn [orb].
  rewrite ReadFull_app by (unfold llen in *; lia). f_equal. unfold decode_frame.
  rewrite <- (app_nil_r (show j)), (decode_show 4); [|done|apply maxNestingDepth_small; lia|done].
  cbn [need mbind res_bind]. by destruct (c_take _ _ _ _).
Qed.

Lemma read_written `{WireFrameLaws A} (a : A) bytes rest :
  frame_ok a → WriteFrame a = Ok bytes → ReadFrame (bytes ++ rest) = (Ok a, rest).
Proof.
  intros Ha Hw. destruct (frame_reads a Ha) as (j & Hp & Hs & Ht).
  rewrite (read_payload a j) by done. by rewrite Ht.
Qed.

Lemma ReadFrame_used `{WireFrame A} l (r : res A) rest :
  ReadFrame l = (r, rest) → ∃ used, l = used ++ rest ∧ llen used ≤ 4 + MaxFrame.
Proof.
  unfold ReadFrame. destruct (ReadFull 4 l) as [[size|e] l1] eqn:E1; apply ReadFull_used in E1 as (u1 & -> & H1).
  2: { intros [= <- <-]. exists u1. split; [done|]. unfold llen, MaxFrame. change (Z.shiftl 64 10) with 65536. lia. }
  destruct ((Uint32 size =? 0) || (MaxFrame <? Uint32 size)) eqn:E.
  { intros [= <- <-]. exists u1. split; [done|]. unfold llen, MaxFrame. change (Z.shiftl 64 10) with 65536. lia. }
  apply orb_false_iff in E as [_ E%Z.ltb_ge].
  destruct (ReadFull (Z.to_nat (Uint32 size)) l1) as [[data|e] l2] eqn:E2; apply ReadFull_used in E2 as (u2 & -> & H2);
    intros [= <- <-]; exists (u1 ++ u2); (split; [by rewrite app_assoc|]);
    rewrite llen_app; unfold llen in *; unfold MaxFrame in *; change (Z.shiftl 64 10) with 65536 in *; lia.
Qed.

(** ** Frame sizes *)

(** Text that JSON writes without escapes. *)
Definition safe_text (s : string) : Prop := Forall (λ c, html_safe c = true) (bytes_of s).

Lemma safe_ascii s : safe_text s → ascii_text s.
Proof.
  intros Hs. eapply Forall_impl; [exact Hs|]. intros c Hc. cbn beta in Hc. unfold html_safe in Hc.
  repeat bool_step. lia.
Qed.

Lemma escape_safe l : Forall (λ c, html_safe c = true) l → escape true 0 l = l.
Proof.
  induction 1 as [|c l Hc _ IH]; [done|]. assert (code c < 128) by (unfold html_safe in Hc; repeat bool_step; lia).
  rewrite escape_ascii_cons by done. unfold escape_ascii. by rewrite Hc, IH.
Qed.

Lemma safe_base64 d : safe_text (base64_encode d).
Proof.
  unfold safe_text, base64_encode. rewrite bytes_of_of. apply Forall_map.
  eapply Forall_impl; [by apply (digits_of_range 6); lia|]. intros v Hv.
  exact (forallb_range (λ v, html_safe (b64_char v)) 64 v eq_refl ltac:(simpl in Hv; lia)).
Qed.
Lemma safe_base32 d : safe_text (base32_encode d).
Proof.
  unfold safe_text, base32_encode. rewrite bytes_of_of. apply Forall_map.
  eapply Forall_impl; [by apply (digits_of_range 5); lia|]. intros v Hv.
  exact (forallb_range (λ v, html_safe (b32_char v)) 32 v eq_refl ltac:(simpl in Hv; lia)).
Qed.

Definition obj_bound (ms : list (string * json)) : Z :=
  fold_right (λ kx n, llen (json_string kx.1) + 2 + llen (show kx.2) + n) 2 ms.

Lemma show_obj_size ms : llen (show (JObj ms)) ≤ obj_bound ms.
Proof.
  change (show (JObj ms)) with ("{"%char :: show_members ms ++ ["}"%char]). rewrite llen_cons, llen_app.
  change (llen ["}"%char]) with 1. enough (llen (show_members ms) + 2 ≤ obj_bound ms) by lia.
  induction ms as [|[k x] ms IH]; [done|]. cbn [show_members obj_bound fold_right fst snd].
  rewrite llen_app, llen_cons, llen_app. fold (obj_bound ms).
  destruct ms as [|m ms]; [|rewrite llen_cons]; unfold llen in *; cbn [length] in *; lia.
Qed.

Lemma show_str_size s : safe_text s → llen (show (jstr s)) = slen s + 2.
Proof.
  intros Hs. cbn [show jstr]. rewrite escape_safe, llen_cons, llen_app, slen_bytes by done. unfold llen. cbn [length]. lia.
Qed.

(** A message that fits into a frame arrives. *)
Lemma delivered `{WireFrameLaws A} (a : A) ms :
  frame_ok a → c_put frame_codec a = Ok (JObj ms) → obj_bound ms ≤ MaxFrame →
  (∃ b, WriteFrame a = Ok b) ∧ send a = Ok a.
Proof.
  intros Ha Hp Hb.
  assert (∃ b, WriteFrame a = Ok b) as [b Hw].
  { unfold WriteFrame, marshal. rewrite Hp. cbn [mbind res_bind].
    pose proof (show_obj_size ms). rewrite slen_of_bytes, (proj2 (Z.ltb_ge _ _)) by lia. by eexists. }
  split; [by exists b|]. unfold send. rewrite Hw, <- (app_nil_r b). by rewrite (read_written a b []).
Qed.

Ltac bound_frame :=
  unfold obj_bound; cbn [fold_right fst snd]; rewrite ?show_str_size by done;
  repeat match goal with |- context [llen (json_string ?k)] =>
    let n := eval vm_compute in (llen (json_string k)) in change (llen (json_string k)) with n end;
  unfold MaxFrame; change (Z.shiftl 64 10) with 65536.

Lemma request_delivered enc :
  safe_text enc → slen enc ≤ MaxBytes →
  (∃ b, WriteFrame (mkRedemptionRequest enc) = Ok b) ∧ send (mkRedemptionRequest enc) = Ok (mkRedemptionRequest enc).
Proof.
  intros Hs Hl. change MaxBytes with 49152 in Hl.
  apply (delivered _ [("invite", jstr enc)]); [by apply safe_ascii|done|]. bound_frame. lia.
Qed.

Lemma challenge_delivered c :
  safe_text c → slen c ≤ MaxBytes → send (mkChallenge c) = Ok (mkChallenge c).
Proof.
  intros Hs Hl. change MaxBytes with 49152 in Hl.
  apply (delivered _ [("challenge", jstr c)]); [by apply safe_ascii|done|]. bound_frame. lia.
Qed.

Lemma proof_delivered rcp pf :
  safe_text rcp → safe_text pf → slen rcp + slen pf ≤ MaxBytes →
  (∃ b, WriteFrame (mkRedemptionProof rcp pf) = Ok b) ∧ send (mkRedemptionProof rcp pf) = Ok (mkRedemptionProof rcp pf).
Proof.
  intros Hr Hp Hl. change MaxBytes with 49152 in Hl.
  apply (delivered _ [("recipient_public", jstr rcp); ("challenge_proof", jstr pf)]);
    [split; by apply safe_ascii|done|]. bound_frame. lia.
Qed.

Lemma lease_delivered text t :
  safe_text text → 0 < slen text ≤ MaxBytes → zone t = 0 → in_years t →
  send (mkResponse true text t "") = Ok (mkResponse true text t "").
Proof.
  intros Hs Hl Hz Hy. change MaxBytes with 49152 in Hl.
  assert (He : empty_str text = false) by (apply seqb_false; intros ->; by destruct Hl).
  apply (delivered _ [("ok", JBool true); ("access_lease", jstr text);
           ("expires_at", JStr (of_bytes (format_bytes t)) (format_bytes t))]).
  - split; [constructor|]. split; [by apply safe_ascii|done].
  - unfold frame_codec, ExactResponse_frame. cbn [c_put struct_codec put_fields f_omit f_get f_codec always empty_str opt_text].
    cbn [rs_OK rs_Error rs_AccessLease rs_ExpiresAt]. rewrite He. cbn [mbind res_bind c_put bool_codec string_codec time_codec].
    by rewrite time_marshals_ok.
  - bound_frame. cbn [show]. destruct (format_utc_text t Hz) as [_ Hf].
    rewrite llen_cons, llen_app. unfold llen in *. cbn [length bytes_of]. lia.
Qed.

Lemma refusal_delivered message :
  safe_text message → 0 < slen message ≤ 100 → send (refusal message) = Ok (refusal message).
Proof.
  intros Hs Hl.
  assert (He : empty_str message = false) by (apply seqb_false; intros ->; by destruct Hl).
  apply (delivered _ [("ok", JBool false); ("error", jstr message);
           ("expires_at", JStr (of_bytes (format_bytes zero_time)) (format_bytes zero_time))]).
  - split; [by apply safe_ascii|]. split; [constructor|]. split; [done|]. by vm_compute.
  - unfold frame_codec, ExactResponse_frame. cbn [c_put struct_codec put_fields f_omit f_get f_codec always empty_str opt_text].
    cbn [refusal rs_OK rs_Error rs_AccessLease rs_ExpiresAt]. rewrite He. done.
  - bound_frame. change (llen (show (JStr (of_bytes (format_bytes zero_time)) (format_bytes zero_time)))) with 22.
    change (llen (show (JBool false))) with 5. lia.
Qed.

Lemma put_fields_head {A} (f : field A) fs a ms :
  f_omit f (f_get f a) = false → put_fields (f :: fs) a = Ok ms → ∃ j ms', ms = (f_name f, j) :: ms'.
Proof. intros Ho Hp. cbn [put_fields] in Hp. rewrite Ho in Hp. res_inv. by eexists _, _. Qed.

(** A response is not a challenge: its member [ok] is unknown there. *)
Lemma response_is_no_challenge (r : ExactResponse) : frame_ok r → ∃ e, send (B := ExactChallenge) r = Fail e.
Proof.
  intros Hr. unfold send. destruct (WriteFrame r) as [b|e] eqn:Hw; [|by eexists].
  destruct (frame_reads r Hr) as (j & Hp & Hs & _).
  rewrite <- (app_nil_r b), (read_payload r j b []) by done.
  apply bind_ok in Hp as (ms & Hp & [= <-]). apply put_fields_head in Hp as (j & ms' & ->); [|done]. by eexists.
Qed.

(** ** The messages of the redemption protocol *)
Definition refusals : list string :=
  ["invalid_request"; "invalid_request: invite too large or empty"; "invalid_invite"; "not_found"; "internal_error";
   "invalid_proof"; "invalid_proof: field too large"; "authority_unavailable"; "redemption_failed"].

Lemma refusals_fit m : m ∈ refusals → safe_text m ∧ 0 < slen m ≤ 100.
Proof.
  assert (E : forallb (λ m, forallb html_safe (bytes_of m) && (0 <? slen m) && (slen m <=? 100)) refusals = true) by done.
  intros Hm%list_elem_of_In. rewrite forallb_forall in E. specialize (E m Hm). repeat bool_step.
  split; [|lia]. apply Forall_forall. intros c Hc%list_elem_of_In.
  match goal with F : forallb _ _ = true |- _ => by rewrite forallb_forall in F; apply F end.
Qed.

Lemma refusal_ok m : m ∈ refusals → frame_ok (refusal m).
Proof.
  intros [Hs _]%refusals_fit. split; [by apply safe_ascii|]. split; [constructor|]. split; [done|]. by vm_compute.
Qed.

Lemma challenge_refusals `{Ed25519} h rc req r : redemption_challenge h rc req = inr r → ∃ m, m ∈ refusals ∧ r = refusal m.
Proof.
  unfold redemption_challenge, bind_step, or_refuse, unless. intros E.
  repeat case_match; simplify_eq; eexists; (split; [|reflexivity]); by apply mem_str_true.
Qed.

Lemma marshalled_time kvs x k t : json_members kvs = Ok x → (k, VTime t) ∈ kvs → time_marshals t = true.
Proof.
  revert x. induction kvs as [|[k' v] kvs IH]; intros x Hx Hin; [set_solver|]. cbn [json_members] in Hx. res_inv.
  apply elem_of_cons in Hin as [[= <- <-]|Hin]; [|by eapply IH].
  match goal with E : json_value _ = _ |- _ => cbn [json_value] in E; by destruct (time_marshals t) end.
Qed.

Lemma encoded_lease_years l text : Lease.Encode l = Ok text → in_years (Lease.ExpiresAt l).
Proof.
  unfold Lease.Encode, encode_bounded, Marshal. intros E.
  apply bind_ok in E as (data & E & _). apply bind_ok in E as (body & E & _).
  assert (Ht : time_marshals (Lease.ExpiresAt l) = true).
  { refine (marshalled_time _ _ "expires_at" _ E _). clear. unfold Lease.members, Lease.accessLeaseSigning. set_solver. }
  clear E.
  unfold time_marshals in Ht. unfold in_years. repeat bool_step. lia.
Qed.

Lemma encoded_safe kvs e text : encode_bounded kvs e = Ok text → safe_text text ∧ 0 < slen text ≤ MaxBytes.
Proof.
  unfold encode_bounded. intros E. apply bind_ok in E as (data & Hd & E). cbv zeta in E. res_inv.
  split; [apply safe_base64|]. split; [|lia]. apply Marshal_nonempty in Hd. pose proof (base64_longer data) as Hl.
  rewrite <- slen_zero in Hd. pose proof (slen_nonneg data). lia.
Qed.

Lemma answer_delivered `{Ed25519Laws} load h wall now rs rj enc seen challenge pf d r d' :
  redemption_answer load h wall now rs rj enc seen challenge pf d = (r, d') → send r = Ok r.
Proof.
  assert (R : ∀ m, m ∈ refusals → send (refusal m) = Ok (refusal m)).
  { intros m [? ?]%refusals_fit. by apply refusal_delivered. }
  unfold redemption_answer. cbv zeta. destruct (bind_step _ _) as [[p loader]|r0] eqn:Eb.
  - destruct (RedeemExactInvite _ _ _ _ _ _ _ _ _ _ _ _ _) as [[lease|e] d1] eqn:Er; intros [= <- <-];
      [|apply R; by apply mem_str_true].
    destruct (redeem_cases _ _ _ _ _ _ _ _ _ _ _ _ _ _ _ Er) as [[[e ?] _]|(i & auth & ss & _ & _ & Hl)]; [done|].
    symmetry in Hl. apply NewAccessLease_inv in Hl as (jti & m & _ & _ & _ & _ & _ & El & _).
    unfold lease_response. destruct (Lease.Encode lease) as [text|e] eqn:Et; [|apply R; by apply mem_str_true].
    pose proof (encoded_lease_years _ _ Et). apply encoded_safe in Et as [Hs Hl].
    apply lease_delivered; try done. by rewrite El.
  - intros [= <- <-].
    assert (∃ m, m ∈ refusals ∧ r0 = refusal m) as (m & Hm & ->); [|by apply R].
    unfold bind_step, or_refuse, unless in Eb.
    repeat case_match; simplify_eq; eexists; (split; [|reflexivity]); by apply mem_str_true.
Qed.

(** Over bytes the protocol runs as over messages. *)
Lemma wire_run `{Ed25519Laws} load_owner load provision h secrets wall now rc rs rj invite k d :
  (∀ v, rc = Ok v → slen v = 24) →
  run_redemption_wire load_owner load provision h secrets wall now rc rs rj invite (PublicString (Public k)) d
  = run_redemption load_owner load provision h secrets wall now rc rs rj invite (PublicString (Public k)) d.
Proof.
  intros Hrc. unfold run_redemption_wire, run_redemption.
  destruct (redeem_request load provision secrets invite) as [[private enc]|e] eqn:Eq; [|done].
  assert (He : safe_text enc ∧ 0 < slen enc ≤ MaxBytes).
  { unfold redeem_request in Eq. cbv zeta in Eq. res_inv. by eapply encoded_safe. }
  destruct He as [Hs [_ Hl]]. destruct (request_delivered enc Hs Hl) as [[b ->] ->]. cbn [got mbind res_bind rr_Invite].
  destruct (redemption_challenge h rc (Ok enc)) as [[seen challenge]|r] eqn:Ec.
  - apply challenge_inv in Ec as (? & _ & _ & _ & _ & Hch).
    unfold RandomChallenge in Hch. apply bind_ok in Hch as (v & Hv & [= <-]).
    rewrite challenge_delivered; [|apply safe_base32|rewrite slen_base32, (Hrc v Hv); done].
    cbn [mbind res_bind ec_Challenge].
    destruct (redeem_proof_frame _ _ _ _) as [p|e] eqn:Ep; [|done].
    unfold redeem_proof_frame in Ep. res_inv.
    edestruct proof_delivered as [[b' ->] ->];
      [apply safe_base64|apply safe_base64|unfold PublicString, SignProof; by rewrite !slen_base64, Public_size, SignMsg_size|].
    destruct (redemption_answer _ _ _ _ _ _ _ _ _ _ _) as [r d'] eqn:Ea.
    by rewrite (answer_delivered _ _ _ _ _ _ _ _ _ _ _ _ _ Ea).
  - apply challenge_refusals in Ec as (m & Hm & ->).
    destruct (response_is_no_challenge (refusal m) (refusal_ok m Hm)) as [e ->]. done.
Qed.

(** C34: a frame is read back from a stream exactly as it was written, whatever follows it,
    for every message type of the protocols; and reading any stream takes at most the four
    bytes of the length and 64 KiB, however it ends. *)
Theorem frame_roundtrip {A} `{WireFrameLaws A} (a : A) bytes rest :
  frame_ok a → WriteFrame a = Ok bytes →
  ReadFrame (bytes ++ rest) = (Ok a, rest) ∧ llen bytes ≤ 4 + MaxFrame ∧
  ∀ l r rest', ReadFrame (A := A) l = (r, rest') → ∃ used, l = used ++ rest' ∧ llen used ≤ 4 + MaxFrame.
Proof.
  intros Ha Hw. pose proof (read_written a bytes rest Ha Hw) as Hr. split; [exact Hr|]. split.
  - destruct (ReadFrame_used _ _ _ Hr) as (used & E & Hu). apply app_inv_tail in E as ->. exact Hu.
  - intros l r rest'. apply ReadFrame_used.
Qed.

Definition hello2 : ClientHello := mkClientHello "2.0" recipient ["raw"; "resume"].
Definition hello2_bytes : list ascii :=
  Eval vm_compute in match WriteFrame hello2 with Ok b => b | Fail _ => [] end.

Lemma frame_roundtrip_witness : ReadFrame (hello2_bytes ++ bytes_of "tail") = (Ok hello2, bytes_of "tail").
Proof.
  assert (Ha : frame_ok hello2) by (split; [|split; [|repeat constructor]]; by apply ascii_textb_true).
  assert (Hw : WriteFrame hello2 = Ok hello2_bytes) by (vm_compute; reflexivity).
  exact (proj1 (frame_roundtrip hello2 hello2_bytes (bytes_of "tail") Ha Hw)).
Defined.

Lemma honest_wire `{Ed25519Laws} load_owner load provision secrets secrets' k_owner k_auth k
    rnd rc vc rs vs rj vj peers protocol bepoch b pipeID t0 ttl epoch i enc life wall now d :
  Binding.NewOwnerBinding k_owner (Public k_auth) pipeID bepoch peers protocol = Ok b →
  Invite.NewExactInvite rnd k_auth b pipeID t0 ttl epoch = Ok i →
  Invite.EncodeInvite i = Ok enc → slen enc ≤ 8192 →
  good_entropy rnd → IsZero t0 = false → ascii_text peers → ascii_text protocol →
  0 ≤ bepoch < 2 ^ 64 → 0 ≤ epoch < 2 ^ 63 →
  in_years (UTC t0) → in_years (Add (UTC t0) ttl) →
  Public k_auth ≠ Public k_owner → secrets ≠ "" →
  load_owner (path_of [secrets; "exact-authorities"; pipeID +:+ ".key"]) = Ok k_auth →
  load (recipient_key_path secrets' pipeID) = Ok k →
  rc = Ok vc → slen vc = 24 → rs = Ok vs → rj = Ok vj → slen vj = 16 →
  IsZero now = false → unix_ns t0 - MaxClockSkew ≤ unix_ns now < unix_ns t0 + ttl →
  in_years (UTC now) →
  in_years (Add (UTC now) (bootstrap_lifetime (cap_ttl life) (Invite.ExpiresAt i) (UTC now))) →
  IsRevoked d pipeID "exact.invite" (Invite.JTI i) = Ok false →
  RevocationEpoch d pipeID "pipe-access" pipeID = Ok epoch →
  redemption_of d (Invite.JTI i) pipeID = None →
  ∃ lease d',
    run_redemption_wire load_owner load provision (newHandler secrets pipeID life) secrets' wall now rc rs rj i
      (PublicString (Public k)) d = (Ok lease, d') ∧
    Lease.Subject lease = PublicString (Public k) ∧ Lease.AudiencePipeID lease = pipeID ∧
    Lease.AccessEpoch lease = epoch ∧ Lease.Issuer lease = PublicString (Public k_auth) ∧
    holder d' (Invite.JTI i) pipeID = Some (PublicString (Public k)) ∧
    Lease.NewAccessLease rj k_auth (PublicString (Public k)) pipeID (UTC now)
      (bootstrap_lifetime (cap_ttl life) (Invite.ExpiresAt i) (UTC now)) epoch = Ok lease.
Proof.
  intros Hb Hinv Henc Hsz Hr Hz Hpe Hpr Hbe He Hy Hy' Hne Hs Hlo Hlk Hrc Hvc.
  assert (vc ≠ "") by (rewrite <- slen_zero; lia).
  rewrite wire_run by (intros v; congruence). by eapply honest_messages.
Qed.

(** The redemption protocol works: when an owner runs the handler for its Pipe with
    the authority key in place, and a recipient with a key of its own redeems a fresh
    invite that this authority minted under the owner's binding, inside the invite's
    window, not revoked and of the current epoch, then the exchange of invite, challenge,
    proof and response as frames of bytes ends with the recipient holding a lease for its
    key, the Pipe and the epoch, issued by the invite's issuer, and the owner's store
    recording the recipient as the holder of the invite. *)
Theorem honest_redemption `{Ed25519Laws} load_owner load provision secrets secrets' k_owner k_auth k
    rnd rc vc rs vs rj vj peers protocol bepoch b pipeID t0 ttl epoch i enc life wall now d :
  Binding.NewOwnerBinding k_owner (Public k_auth) pipeID bepoch peers protocol = Ok b →
  Invite.NewExactInvite rnd k_auth b pipeID t0 ttl epoch = Ok i →
  Invite.EncodeInvite i = Ok enc → slen enc ≤ 8192 →
  good_entropy rnd → IsZero t0 = false → ascii_text peers → ascii_text protocol →
  0 ≤ bepoch < 2 ^ 64 → 0 ≤ epoch < 2 ^ 63 →
  in_years (UTC t0) → in_years (Add (UTC t0) ttl) →
  Public k_auth ≠ Public k_owner → secrets ≠ "" →
  load_owner (path_of [secrets; "exact-authorities"; pipeID +:+ ".key"]) = Ok k_auth →
  load (recipient_key_path secrets' pipeID) = Ok k →
  rc = Ok vc → slen vc = 24 → rs = Ok vs → rj = Ok vj → slen vj = 16 →
  IsZero now = false → unix_ns t0 - MaxClockSkew ≤ unix_ns now < unix_ns t0 + ttl →
  in_years (UTC now) →
  in_years (Add (UTC now) (bootstrap_lifetime (cap_ttl life) (Invite.ExpiresAt i) (UTC now))) →
  IsRevoked d pipeID "exact.invite" (Invite.JTI i) = Ok false →
  RevocationEpoch d pipeID "pipe-access" pipeID = Ok epoch →
  redemption_of d (Invite.JTI i) pipeID = None →
  ∃ lease d',
    run_redemption_wire load_owner load provision (newHandler secrets pipeID life) secrets' wall now rc rs rj i
      (PublicString (Public k)) d = (Ok lease, d') ∧
    Lease.Subject lease = PublicString (Public k) ∧ Lease.AudiencePipeID lease = pipeID ∧
    Lease.AccessEpoch lease = epoch ∧ Lease.Issuer lease = PublicString (Public k_auth) ∧
    holder d' (Invite.JTI i) pipeID = Some (PublicString (Public k)).
Proof.
  intros. destruct (honest_wire load_owner load provision secrets secrets' k_owner k_auth k rnd rc vc rs vs rj vj peers
    protocol bepoch b pipeID t0 ttl epoch i enc life wall now d) as (lease & d' & E1 & E2 & E3 & E4 & E5 & E6 & _);
    [done..|]. by exists lease, d'.
Qed.

Lemma honest_redemption_witness :
  ∃ lease d', run_redemption_wire (H := keys) owner_keys client_keys no_provision (newHandler owner_dir pipe (5 * Minute))
      client_dir noon noon (Ok challenge_bytes) rnd16 rnd16 invite1 (PublicString (@Public keys "recipient")) d7
      = (Ok lease, d') ∧ holder d' (Invite.JTI invite1) pipe = Some (PublicString (@Public keys "recipient")).
Proof.
  assert (He : Invite.EncodeInvite invite1 = Ok invite1_text) by (vm_compute; reflexivity).
  assert (Hs : slen invite1_text ≤ 8192) by (vm_compute; discriminate).
  assert (Hp : ascii_text "peer-a,peer-b") by (by apply ascii_textb_true).
  assert (Hq : ascii_text "/tubo/redeem/1") by (by apply ascii_textb_true).
  assert (Hb : 0 ≤ 7 < 2 ^ 64) by (clear; lia). assert (Hb' : 0 ≤ 7 < 2 ^ 63) by (clear; lia).
  assert (Hk : @Public keys authority_key ≠ @Public keys owner_key) by (vm_compute; discriminate).
  assert (Ho : owner_keys (path_of [owner_dir; "exact-authorities"; pipe +:+ ".key"]) = Ok authority_key)
    by (vm_compute; reflexivity).
  assert (Hc : client_keys (recipient_key_path client_dir pipe) = Ok "recipient") by (vm_compute; reflexivity).
  assert (Hw : unix_ns noon - MaxClockSkew ≤ unix_ns noon < unix_ns noon + 5 * Minute)
    by (vm_compute; split; [discriminate|reflexivity]).
  assert (Hy : in_years (Add (UTC noon) (bootstrap_lifetime (cap_ttl (5 * Minute)) (Invite.ExpiresAt invite1) (UTC noon))))
    by (vm_compute; split; discriminate).
  assert (Hr : IsRevoked d7 pipe "exact.invite" (Invite.JTI invite1) = Ok false) by (vm_compute; reflexivity).
  assert (Hep : RevocationEpoch d7 pipe "pipe-access" pipe = Ok 7) by (vm_compute; reflexivity).
  assert (Hf : redemption_of d7 (Invite.JTI invite1) pipe = None) by (vm_compute; reflexivity).
  destruct noon_years as [Hn Hn'].
  assert (Hd : owner_dir ≠ "") by discriminate. assert (Hv : slen challenge_bytes = 24) by reflexivity.
  destruct (honest_redemption (H := keys) owner_keys client_keys no_provision owner_dir client_dir owner_key authority_key
    "recipient" rnd16 (Ok challenge_bytes) challenge_bytes rnd16 "0123456789abcdef" rnd16 "0123456789abcdef"
    "peer-a,peer-b" "/tubo/redeem/1" 7 binding1 pipe noon (5 * Minute) 7 invite1 invite1_text (5 * Minute) noon noon d7
    binding1_ok invite1_ok He Hs rnd16_good eq_refl Hp Hq Hb Hb' Hn Hn' Hk Hd Ho Hc eq_refl Hv eq_refl eq_refl eq_refl
    eq_refl Hw Hn Hy Hr Hep Hf) as (lease & d' & Hrun & _ & _ & _ & _ & Hh).
  exists lease, d'. split; [exact Hrun|exact Hh].
Defined.

