(* ===== verification/Effects.v ===== *)
(** * Effectful code

    Code that calls files, clocks, networks and stores is a computation over a world [W]: it
    ends with a result and leaves another world. An operation that fails may have changed
    the world before it did.

    [within R m] says that whatever [m] does to the world stays inside the relation [R].
    [returns m Q] says that a successful [m] gives a result with [Q]. *)
From S2P Require Import Prelude.

Definition M (W A : Type) : Type := W → res A * W.

#[export] Instance M_ret W : MRet (M W) := λ A a w, (Ok a, w).
#[export] Instance M_bind W : MBind (M W) := λ A B f m w,
  match m w with
  | (Ok a, w) => f a w
  | (Fail e, w) => (Fail e, w)
  end.

Section operations.
Context {W : Type}.

(** An operation on the world. *)
Definition op {A} (f : W → res A * W) : M W A := f.

(** Code without effects. *)
Definition lift {A} (r : res A) : M W A := λ w, (r, w).

Definition fail {A} (e : error) : M W A := lift (Fail e).

(** [if cond { return ..., err }]. *)
Definition guard (cond : bool) (e : error) : M W unit := lift (refuse cond e).

(** [v, err := m]: the error as a value. *)
Definition attempt {A} (m : M W A) : M W (res A) := λ w, let '(r, w) := m w in (Ok r, w).

(** [if err != nil { return ..., wrap(err) }]. *)
Definition wrapped {A} (wrap : error → error) (m : M W A) : M W A := λ w,
  let '(r, w) := m w in (match r with Ok a => Ok a | Fail e => Fail (wrap e) end, w).

(** [defer cleanup()] in front of [m]; the error of the clean-up is dropped. *)
Definition deferred {A B} (cleanup : M W B) (m : M W A) : M W A := λ w,
  let '(r, w) := m w in (r, (cleanup w).2).

(** A capability that may be nil. *)
Definition wired {A} (o : option A) (e : error) : M W A := lift (need o e).
End operations.

(** ** What a computation can do to the world *)
Section within.
Context {W : Type} (R : W → W → Prop) `{!PreOrder R}.

Definition within {A} (m : M W A) : Prop := ∀ w, R w (m w).2.

Lemma within_pure {A} (r : res A) : within (lift r).
Proof. intros w. by cbn. Qed.
Lemma within_ret {A} (a : A) : within (mret a).
Proof. intros w. by cbn. Qed.

Lemma within_bind {A B} (m : M W A) (f : A → M W B) : within m → (∀ a, within (f a)) → within (m ≫= f).
Proof.
  intros Hm Hf w. unfold mbind, M_bind. specialize (Hm w). destruct (m w) as [[a|e] w1]; cbn in *; [|done].
  etrans; [exact Hm|apply Hf].
Qed.

Lemma within_attempt {A} (m : M W A) : within m → within (attempt m).
Proof. intros Hm w. unfold attempt. specialize (Hm w). by destruct (m w). Qed.
Lemma within_wrapped {A} wrap (m : M W A) : within m → within (wrapped wrap m).
Proof. intros Hm w. unfold wrapped. specialize (Hm w). by destruct (m w). Qed.
Lemma within_deferred {A B} (c : M W B) (m : M W A) : within c → within m → within (deferred c m).
Proof.
  intros Hc Hm w. unfold deferred. specialize (Hm w). destruct (m w) as [r w1]. cbn in *. etrans; [exact Hm|apply Hc].
Qed.
Lemma within_guard c e : within (guard c e).
Proof. apply within_pure. Qed.
Lemma within_wired {A} (o : option A) e : within (wired o e).
Proof. apply within_pure. Qed.
Lemma within_bind_wired {A B} (o : option A) e (f : A → M W B) :
  (∀ a, o = Some a → within (f a)) → within (wired o e ≫= f).
Proof. intros Hf. destruct o as [a|]; [by apply Hf|]. intros w. by cbn. Qed.
Lemma within_bind_lift {A B} (r : res A) (f : A → M W B) :
  (∀ a, r = Ok a → within (f a)) → within (lift r ≫= f).
Proof. intros Hf. destruct r as [a|e]; [by apply Hf|]. intros w. by cbn. Qed.
Lemma within_bind_guard {B} c e (f : unit → M W B) : (c = false → within (f tt)) → within (guard c e ≫= f).
Proof. intros Hf. apply within_bind_lift. intros [] Hc%refuse_ok. by apply Hf. Qed.
Lemma within_fail {A} e : within (fail (A := A) e).
Proof. apply within_pure. Qed.
End within.

Lemma within_impl {W A} (R R' : W → W → Prop) (m : M W A) : (∀ w w', R w w' → R' w w') → within R m → within R' m.
Proof. intros HR Hm w. by apply HR. Qed.

(** ** What a computation returns *)
Definition returns {W A} (m : M W A) (Q : A → Prop) : Prop := ∀ w a w', m w = (Ok a, w') → Q a.

Lemma bind_run {W A B} (m : M W A) (f : A → M W B) w b w' :
  (m ≫= f) w = (Ok b, w') ↔ ∃ a w1, m w = (Ok a, w1) ∧ f a w1 = (Ok b, w').
Proof. unfold mbind, M_bind. destruct (m w) as [[a|e] w1]; naive_solver. Qed.

Lemma wrapped_run {W A} wrap (m : M W A) w a w' : wrapped wrap m w = (Ok a, w') ↔ m w = (Ok a, w').
Proof. unfold wrapped. destruct (m w) as [[a1|e] w1]; naive_solver. Qed.

Lemma deferred_run {W A B} (c : M W B) (m : M W A) w a w' :
  deferred c m w = (Ok a, w') ↔ ∃ w1, m w = (Ok a, w1) ∧ w' = (c w1).2.
Proof. unfold deferred. destruct (m w) as [[a1|e] w1]; naive_solver. Qed.

Lemma attempt_run {W A} (m : M W A) w r w' : attempt m w = (Ok r, w') → m w = (r, w').
Proof. unfold attempt. destruct (m w) as [r1 w1]. naive_solver. Qed.

Lemma lift_run {W A} (r : res A) (w : W) a w' : lift r w = (Ok a, w') ↔ r = Ok a ∧ w = w'.
Proof. unfold lift. naive_solver. Qed.

Lemma guard_run {W} c e (w : W) u w' : guard c e w = (Ok u, w') ↔ c = false ∧ w = w'.
Proof. unfold guard. rewrite lift_run, refuse_ok. done. Qed.

Lemma wired_run {W A} (o : option A) e (w : W) a w' : wired o e w = (Ok a, w') ↔ o = Some a ∧ w = w'.
Proof. unfold wired. by rewrite lift_run, need_ok. Qed.

(** What the first part returned is known to the second. *)
Lemma within_bind_returns {W A B} (R : W → W → Prop) `{!PreOrder R} (m : M W A) (Q : A → Prop) (f : A → M W B) :
  returns m Q → within R m → (∀ a, Q a → within R (f a)) → within R (m ≫= f).
Proof.
  intros HQ Hm Hf w. unfold mbind, M_bind. specialize (Hm w). specialize (HQ w).
  destruct (m w) as [[a|e] w1]; cbn in *; [|done]. etrans; [exact Hm|]. by apply Hf, (HQ a w1).
Qed.

(** ** Runs that succeed *)

(** [m] succeeds from [w], with a result and a world in [Q]. *)
Definition gives {W A} (m : M W A) (w : W) (Q : A → W → Prop) : Prop := ∃ a w', m w = (Ok a, w') ∧ Q a w'.

Section gives.
Context {W A B : Type}.
Implicit Types (m : M W A) (w : W).

Lemma gives_ret (a : A) w (Q : A → W → Prop) : Q a w → gives (mret a) w Q.
Proof. intros HQ. by exists a, w. Qed.
Lemma gives_bind m (f : A → M W B) w (Q : B → W → Prop) :
  gives m w (λ a w1, gives (f a) w1 Q) → gives (m ≫= f) w Q.
Proof. intros (a & w1 & Hm & b & w2 & Hf & HQ). exists b, w2. split; [|done]. apply bind_run. eauto. Qed.
Lemma gives_lift (r : res A) a w (Q : A → W → Prop) : r = Ok a → Q a w → gives (lift r) w Q.
Proof. intros -> HQ. by exists a, w. Qed.
Lemma gives_guard c e w (Q : unit → W → Prop) : c = false → Q tt w → gives (guard c e) w Q.
Proof. intros -> HQ. by exists tt, w. Qed.
Lemma gives_wired (o : option A) a e w (Q : A → W → Prop) : o = Some a → Q a w → gives (wired o e) w Q.
Proof. intros -> HQ. by exists a, w. Qed.
Lemma gives_wrapped wrap m w (Q : A → W → Prop) : gives m w Q → gives (wrapped wrap m) w Q.
Proof. intros (a & w1 & Hm & HQ). exists a, w1. split; [|done]. by apply wrapped_run. Qed.
Lemma gives_attempt m w r w' (Q : res A → W → Prop) : m w = (r, w') → Q r w' → gives (attempt m) w Q.
Proof. intros Hm HQ. exists r, w'. unfold attempt. by rewrite Hm. Qed.
Lemma gives_deferred (c : M W B) m w (Q : A → W → Prop) :
  gives m w (λ a w1, Q a (c w1).2) → gives (deferred c m) w Q.
Proof. intros (a & w1 & Hm & HQ). eexists a, _. split; [|exact HQ]. apply deferred_run. eauto. Qed.
Lemma gives_run m w a w' (Q : A → W → Prop) : m w = (Ok a, w') → Q a w' → gives m w Q.
Proof. intros Hm HQ. by exists a, w'. Qed.
Lemma gives_mono m w (Q Q' : A → W → Prop) : gives m w Q → (∀ a w', Q a w' → Q' a w') → gives m w Q'.
Proof. intros (a & w1 & Hm & HQ) Himp. exists a, w1. auto. Qed.
End gives.

Create HintDb effects.
#[export] Hint Resolve within_pure within_ret within_attempt within_wrapped within_deferred within_guard within_wired
  within_fail : effects.

(** Opens a computation that succeeded. *)
Ltac run_inv :=
  repeat match goal with
  | H : mbind _ _ _ = (Ok _, _) |- _ => apply bind_run in H as (? & ? & ? & ?)
  | H : wrapped _ _ _ = (Ok _, _) |- _ => apply wrapped_run in H
  | H : deferred _ _ _ = (Ok _, _) |- _ => apply deferred_run in H as (? & ? & ?)
  | H : attempt _ _ = (Ok _, _) |- _ => apply attempt_run in H
  | H : lift _ _ = (Ok _, _) |- _ => apply lift_run in H as [? ?]; subst
  | H : guard _ _ _ = (Ok _, _) |- _ => apply guard_run in H as [? ?]; subst
  | H : wired _ _ _ = (Ok _, _) |- _ => apply wired_run in H as [? ?]; subst
  | H : fail _ _ = (Ok _, _) |- _ => by inversion H
  | H : mret _ _ = (Ok _, _) |- _ => apply (inj2 pair) in H as [H ?]; apply Ok_inj in H; subst
  end.

(** Effects of a composed computation from those of its parts. *)
Ltac solve_within :=
  repeat first
    [ progress (intros; cbv beta zeta) | done | solve [eauto with effects]
    | apply within_bind_wired | apply within_bind | apply within_deferred | apply within_wrapped | apply within_attempt
    | case_match ].
