(* ===== verification/UseCases.v ===== *)
(** * Use cases

    [internal/usecase]: attaching a Service to a Pipe, sharing a Pipe by an exact invite,
    accepting an invite, acquiring access to an accepted Pipe, connecting to it through a
    local Pipe and starting one.

    A use case owns nothing: the record [UseCases] holds its ports ([repository.go],
    [capabilities.go]), each a computation over a world that the caller chooses, [None] for
    a capability that is not wired. [Platform] is what the code takes from its process: the
    clock, the random source and the key files of [internal/localkey]. *)
From S2P Require Import Prelude GoStrings GoTime Encoding Credentials ExactAuthority Domain Handlers Effects.
Open Scope Z_scope.

(** ** Ports *)
Section ports.
Context `{Ed25519} (W C : Type).

Record ServiceRepository := mkServices {
  Services_Upsert : ServiceSpec → M W bool; Services_Get : Ref → M W ServiceSpec; Services_Delete : Ref → M W unit }.

(** [Get] takes a reference or a Pipe identifier and also returns the key file. *)
Record PipeRepository := mkPipes {
  Pipes_Upsert : PipeSpec → string → M W bool; Pipes_Get : string → M W (PipeSpec * string);
  Pipes_Delete : string → M W unit }.

Record RemotePipeBindingRepo := mkBindings {
  Bindings_Get : string → M W RemotePipeBinding; Bindings_Put : RemotePipeBinding → M W unit;
  Bindings_Delete : string → M W unit }.

Record AccessLeaseCacheRepo := mkCache {
  Cache_Get : string → M W AccessLeaseCache; Cache_Put : AccessLeaseCache → M W unit;
  Cache_Delete : string → M W unit }.

Record ReachabilityAcquirer := mkReach { Acquire : string → M W C; Close : C → M W unit }.

Record RenewalRequest := mkRenewal { nr_PipeID : string; nr_RecipientPublic : string; nr_OwnerBinding : string }.

Record StartPipeResult := mkStarted { st_PipeRef : Ref; st_Status : string }.

Record Platform := mkPlatform {
  time_Now : M W time; rand_Read : M W string;
  localkey_Load : string → M W PrivateKey; localkey_Provision : string → M W PrivateKey }.

Record UseCases := mkUseCases {
  u_Services : ServiceRepository;
  u_Pipes : PipeRepository;
  u_Secrets : string;
  u_Now : option (M W time);
  u_OwnerLocator : option (Ref → string → M W string);
  u_ExactEpoch : option (string → M W Z);
  u_RedemptionProtocol : string;
  u_Redemption : option (C → Invite.ExactInvite → string → M W Lease.AccessLease);
  u_Renewal : option (C → RenewalRequest → M W Lease.AccessLease);
  u_Reach : option ReachabilityAcquirer;
  u_Starter : option (PipeSpec → M W StartPipeResult);
  u_Bindings : option RemotePipeBindingRepo;
  u_LeaseCache : option AccessLeaseCacheRepo;
  u_Platform : Platform }.
End ports.

Arguments mkServices {_}. Arguments mkPipes {_}. Arguments mkBindings {_}. Arguments mkCache {_}.
Arguments Services_Upsert {_}. Arguments Services_Get {_}. Arguments Services_Delete {_}.
Arguments Pipes_Upsert {_}. Arguments Pipes_Get {_}. Arguments Pipes_Delete {_}.
Arguments Bindings_Get {_}. Arguments Bindings_Put {_}. Arguments Bindings_Delete {_}.
Arguments Cache_Get {_}. Arguments Cache_Put {_}. Arguments Cache_Delete {_}.
Arguments mkReach {_ _}. Arguments Acquire {_ _}. Arguments Close {_ _}.
Arguments mkPlatform {_ _}. Arguments time_Now {_ _}. Arguments rand_Read {_ _}.
Arguments localkey_Load {_ _}. Arguments localkey_Provision {_ _}. Arguments Platform {_}.
Arguments UseCases {_}. Arguments mkUseCases {_ _ _}.
Arguments u_Services {_ _ _}. Arguments u_Pipes {_ _ _}. Arguments u_Secrets {_ _ _}. Arguments u_Now {_ _ _}.
Arguments u_OwnerLocator {_ _ _}. Arguments u_ExactEpoch {_ _ _}. Arguments u_RedemptionProtocol {_ _ _}.
Arguments u_Redemption {_ _ _}. Arguments u_Renewal {_ _ _}. Arguments u_Reach {_ _ _}.
Arguments u_Starter {_ _ _}. Arguments u_Bindings {_ _ _}. Arguments u_LeaseCache {_ _ _}. Arguments u_Platform {_ _ _}.

(** ** Errors *)
Definition persistenceError (what : string) (e : error) : error :=
  wrap_err ("persistence_failed: " +:+ what) e.
Definition authorizationDenied (e : error) : error := wrap_err "authorization_denied" e.
Definition denied (text : string) : error := authorizationDenied (errorf text).

(** [if errors.Is(err, domain.ErrNotFound) { absent } else { persistenceError }]. *)
Definition not_found_or (absent : error → error) (what : string) (e : error) : error :=
  if errors_Is e ErrNotFound then absent e else persistenceError what e.

(** ** Pure helpers *)
Definition DefaultInviteTTL : duration := 10 * Minute.

Definition redemptionAddress (invite : Invite.ExactInvite) : res string :=
  _ ← refuse (Invite.Binding invite =s "") (errorf "invalid_input: invite carries no owner binding");
  binding ← relabel (Binding.DecodeOwnerBinding (Invite.Binding invite))
              (errorf "invalid_input: invite owner binding invalid");
  let peers := Binding.RedemptionPeers binding in
  _ ← refuse (peers =s "") (errorf "invalid_input: invite carries no redemption peer address");
  let first := match Cut peers ","%char with Some (a, _) => a | None => peers end in
  _ ← refuse (blank first) (errorf "invalid_input: invite carries no redemption peer address");
  Ok (TrimSpace first).

Definition recipientRefFor (pipeID name : string) : res Ref :=
  if name <>s "" then NewRef KindPipe name
  else let refName := "connect-" +:+ pipeID in
       NewRef KindPipe (if 63 <? slen refName then String.substring 0 63 refName else refName).

Definition serviceSpecFromTarget `{NetParsers} (name target : string) : res ServiceSpec :=
  ref ← NewRef KindService name;
  let scheme := ToLower (match Cut target ":"%char with Some (a, _) => a | None => target end) in
  let kind := if scheme =s "https" then ServiceHTTP else scheme in
  let spec := mkService ref kind target "" [] in
  _ ← ServiceValidate spec;
  Ok spec.

Definition exactConnectConflict (existing : PipeSpec) (canonicalPipeID audiencePipeID requestedListen : string)
    : res unit :=
  _ ← refuse ((Kind (p_Target existing) <>s KindPipe) || (Name (p_Target existing) <>s audiencePipeID))
        (errorf "conflict: already exists with a different target");
  _ ← refuse (p_PipeID existing <>s canonicalPipeID) (errorf "conflict: already exists with a different identity");
  _ ← refuse (in_Kind (p_Ingress existing) <>s IngressLocal) (errorf "conflict: is not a local-ingress connection");
  refuse (in_Listen (p_Ingress existing) <>s requestedListen)
    (errorf "conflict: already connects this remote pipe on another listener").

Definition recipientPublicBytes (public : string) : string :=
  match PublicFromString public with Ok key => key | Fail _ => "" end.

(** The file of the recipient key for a remote Pipe. *)
Definition connect_key_file (secrets pipeID : string) : string :=
  path_of [secrets; "pipes"; "connect-" +:+ pipeID +:+ ".key"].

(** ** The use cases *)
Section usecases.
Context `{Ed25519} `{NetParsers} {W C : Type} (u : UseCases W C).

(** [u.now()]. *)
Definition now : M W time :=
  t ← match u_Now u with Some clock => clock | None => time_Now (u_Platform u) end;
  mret (UTC t).

(** [lease.Verify] and [invite.Verify] take the wall clock when [now] is the zero time. *)
Definition wall_clock (at_ : time) : M W time := if IsZero at_ then time_Now (u_Platform u) else mret at_.
Definition verify_lease (l : Lease.AccessLease) (public subject pipeID : string) (at_ : time) : M W unit :=
  wall ← wall_clock at_;
  lift (Lease.Verify wall l public subject pipeID at_).
Definition verify_invite (i : Invite.ExactInvite) (at_ : time) (pipeID : string) : M W unit :=
  wall ← wall_clock at_;
  lift (Invite.Verify wall i at_ pipeID).

Definition ownerKey (ref : Ref) : M W (PrivateKey * string) :=
  _ ← guard (blank (u_Secrets u)) (errorf "invalid_input: secrets directory is not configured");
  let path := path_of [u_Secrets u; "pipes"; Name ref +:+ ".key"] in
  private ← localkey_Provision (u_Platform u) path;
  mret (private, path).

(** *** Attach *)
Record AttachResult := mkAttached {
  at_ServiceRef : Ref; at_PipeRef : Ref; at_PipeID : string; at_Created : bool; at_PipeCreated : bool }.

Definition Attach (name target : string) : M W AttachResult :=
  _ ← guard (blank name || blank target) (errorf "invalid_input: attach requires name and target");
  service ← wrapped (wrap_err "invalid_input") (lift (serviceSpecFromTarget name target));
  created ← wrapped (persistenceError "service") (Services_Upsert (u_Services u) service);
  pipeRef ← wrapped (wrap_err "invalid_input") (lift (NewRef KindPipe name));
  '(owner, ownerKeyFile) ← wrapped (persistenceError "pipe owner key") (ownerKey pipeRef);
  at_ ← now;
  let spec pipeID created updated :=
    mkPipe pipeRef pipeID None (mkIngress IngressTubo "" "" "" "raw") (svc_Ref service) VisibilityUnlisted
      AccessInviteOnly false created updated in
  existing ← attempt (Pipes_Get (u_Pipes u) (RefString pipeRef));
  '(spec, ownerKeyFile) ← match existing with
    | Ok (old, oldKey) => mret (spec (p_PipeID old) (p_CreatedAt old) (p_UpdatedAt old), oldKey)
    | Fail e => if errors_Is e ErrNotFound
                then mret (spec (PipeIDFromOwner (Public owner)) at_ at_, ownerKeyFile)
                else fail (persistenceError "pipe" e)
    end;
  pipeCreated ← wrapped (persistenceError "pipe") (Pipes_Upsert (u_Pipes u) spec ownerKeyFile);
  mret (mkAttached (svc_Ref service) pipeRef (p_PipeID spec) created pipeCreated).

(** *** ShareExact *)
Record ShareExactResult := mkShared {
  sr_PipeRef : Ref; sr_PipeID : string; sr_Invite : string; sr_ExpiresAt : time }.

(** [LocalOwnerWorkflow.Provision] with the key file it writes. *)
Definition provision_authority (w : LocalOwnerWorkflow) (owner : PrivateKey) : M W Authority :=
  if VerifyPipeOwner (w_PipeID w) (Public owner) then
    private ← localkey_Provision (u_Platform u) (w_KeyPath w);
    lift (Provision (λ _, Ok private) w owner)
  else lift (Provision (λ _, Fail (errorf "not provisioned")) w owner).

Definition ShareExact (pipeRef : string) : M W ShareExactResult :=
  '(spec, ownerKeyFile) ← wrapped (not_found_or (wrap_err "not_found") "pipe") (Pipes_Get (u_Pipes u) pipeRef);
  owner ← wrapped (persistenceError "owner key") (localkey_Load (u_Platform u) ownerKeyFile);
  _ ← guard (PipeIDFromOwner (Public owner) <>s p_PipeID spec)
        (errorf "authorization_denied: pipe is not owned by this identity");
  locate ← wired (u_OwnerLocator u) (errorf "runtime_unavailable: owner exact-redemption locator is unavailable");
  address ← locate (p_Ref spec) (p_PipeID spec);
  let address := TrimSpace address in
  _ ← guard (address =s "") (errorf "runtime_unavailable: owner exact-redemption locator is unavailable");
  _ ← guard (blank (u_RedemptionProtocol u))
        (errorf "runtime_unavailable: owner exact-redemption protocol is unavailable");
  exact_epoch ← wired (u_ExactEpoch u) (errorf "runtime_unavailable: exact authorization epoch is unavailable");
  epoch ← wrapped (persistenceError "exact authorization epoch") (exact_epoch (p_PipeID spec));
  keyPath ← wrapped (persistenceError "exact authority path") (lift (KeyPath (u_Secrets u) (p_PipeID spec)));
  auth ← wrapped (persistenceError "exact authority")
           (provision_authority
              (mkWorkflow (path_of keyPath) (p_PipeID spec) epoch address (u_RedemptionProtocol u)) owner);
  at_ ← now;
  rnd ← attempt (rand_Read (u_Platform u));
  invite ← wrapped authorizationDenied
             (lift (Invite.NewExactInvite rnd (Private auth) (AuthBinding auth) (p_PipeID spec) at_
                      DefaultInviteTTL epoch));
  encoded ← wrapped authorizationDenied (lift (Invite.EncodeInvite invite));
  mret (mkShared (p_Ref spec) (p_PipeID spec) encoded (Invite.ExpiresAt invite)).

(** *** StartPipe *)
Definition StartPipe (pipeRef : string) : M W StartPipeResult :=
  '(spec, _) ← wrapped (not_found_or (wrap_err "not_found") "pipe") (Pipes_Get (u_Pipes u) pipeRef);
  start ← wired (u_Starter u) (errorf "runtime_unavailable: pipe runtime is not wired");
  start spec.

(** *** AcceptExactInvite *)
Record acceptedInviteResult := mkAccepted {
  ac_binding : RemotePipeBinding; ac_lease : Lease.AccessLease; ac_recipientPublic : string }.

Definition decode_verified_invite (encoded : string) : M W Invite.ExactInvite :=
  invite ← wrapped authorizationDenied (lift (Invite.DecodeInvite encoded));
  at_ ← now;
  _ ← wrapped authorizationDenied (verify_invite invite at_ (Invite.AudiencePipeID invite));
  mret invite.

(** From the carrier to the verified lease, with the time of the check. *)
Definition redeem_over (carrier : C) (invite : Invite.ExactInvite) (recipientPublic : string)
    : M W (Lease.AccessLease * time) :=
  redeem ← wired (u_Redemption u) (errorf "redemption_unavailable: redemption capability is not wired");
  lease ← wrapped authorizationDenied (redeem carrier invite recipientPublic);
  issuer ← wrapped authorizationDenied (lift (PublicFromString (Invite.Issuer invite)));
  at_ ← now;
  _ ← wrapped authorizationDenied
        (verify_lease lease issuer recipientPublic (Invite.AudiencePipeID invite) at_);
  mret (lease, at_).

(** The durable binding, then the cached lease; a cache that cannot be written is left. *)
Definition store_accepted (invite : Invite.ExactInvite) (address recipientPublic : string)
    (lease : Lease.AccessLease) (at_ : time) : M W RemotePipeBinding :=
  let binding := mkRemoteBinding (Invite.AudiencePipeID invite) (Invite.Issuer invite) (Invite.Binding invite)
                   address recipientPublic "invite" at_ at_ in
  _ ← wrapped authorizationDenied (lift (RemotePipeBindingValidate binding));
  bindings ← wired (u_Bindings u) (errorf "persistence_unavailable: durable binding repository is not wired");
  _ ← wrapped (persistenceError "accepted remote pipe binding") (Bindings_Put bindings binding);
  _ ← match u_LeaseCache u, Lease.Encode lease with
      | Some cache, Ok text =>
          attempt (Cache_Put cache (mkLeaseCache (Invite.AudiencePipeID invite) text (UTC (Lease.ExpiresAt lease))))
      | _, _ => mret (Ok tt)
      end;
  mret binding.

Definition acceptExactInvite (invite : Invite.ExactInvite) : M W acceptedInviteResult :=
  _ ← guard (blank (u_Secrets u)) (errorf "invalid_input: secrets directory is not configured");
  _ ← now;
  recipient ← wrapped (persistenceError "recipient identity key")
                (localkey_Provision (u_Platform u) (connect_key_file (u_Secrets u) (Invite.AudiencePipeID invite)));
  let recipientPublic := PublicString (Public recipient) in
  reach ← wired (u_Reach u) (errorf "reachability_unavailable: reachability capability is not wired");
  address ← lift (redemptionAddress invite);
  carrier ← wrapped (wrap_err "pipe_unreachable") (Acquire reach address);
  deferred (Close reach carrier) (
    '(lease, at_) ← redeem_over carrier invite recipientPublic;
    binding ← store_accepted invite address recipientPublic lease at_;
    mret (mkAccepted binding lease recipientPublic)).

Record AcceptExactInviteResult := mkAcceptResult {
  ar_RemotePipeID : string; ar_RecipientPublic : string; ar_LeaseExpiresAt : time }.

Definition AcceptExactInvite (encoded : string) : M W AcceptExactInviteResult :=
  _ ← guard (blank encoded) (errorf "invalid_input: accept requires an invite");
  invite ← decode_verified_invite encoded;
  accepted ← acceptExactInvite invite;
  mret (mkAcceptResult (RemotePipeID (ac_binding accepted)) (ac_recipientPublic accepted)
          (UTC (Lease.ExpiresAt (ac_lease accepted)))).

(** *** AcquireAcceptedPipeAccess *)
Record AcceptedPipeAccess := mkAccess {
  aa_RemotePipeID : string; aa_Locator : string; aa_AuthorityPublic : string; aa_AccessLease : Lease.AccessLease }.

(** Step 1: the durable binding and the key of its authority. *)
Definition load_binding (remotePipeID : string) : M W (RemotePipeBinding * string) :=
  bindings ← wired (u_Bindings u) (errorf "persistence_unavailable: durable binding repository is not wired");
  binding ← wrapped (not_found_or (λ _, denied "no accepted binding") "accepted remote pipe binding")
              (Bindings_Get bindings remotePipeID);
  _ ← wrapped authorizationDenied (lift (RemotePipeBindingValidate binding));
  authorityPub ← wrapped authorizationDenied (lift (PublicFromString (AuthorityPublic binding)));
  mret (binding, authorityPub).

(** Step 2: a cached lease that still verifies. *)
Definition cached_lease (remotePipeID : string) (binding : RemotePipeBinding) (authorityPub : string) (at_ : time)
    : M W (option Lease.AccessLease) :=
  match u_LeaseCache u with
  | None => mret None
  | Some cache =>
      cached ← attempt (Cache_Get cache remotePipeID);
      match (cached ← cached; Lease.Decode (c_AccessLease cached)) with
      | Fail _ => mret None
      | Ok lease =>
          verified ← attempt (verify_lease lease authorityPub (RecipientPublic binding) remotePipeID at_);
          mret (if is_ok verified then Some lease else None)
      end
  end.

(** Steps 3 to 6: dial, renew, verify, cache. *)
Definition renewed_lease (remotePipeID : string) (binding : RemotePipeBinding) (authorityPub : string)
    : M W Lease.AccessLease :=
  reach ← wired (u_Reach u) (errorf "reachability_unavailable: reachability capability is not wired");
  carrier ← wrapped (wrap_err "pipe_unreachable") (Acquire reach (Locator binding));
  deferred (Close reach carrier) (
    renew ← wired (u_Renewal u) (errorf "renewal_unavailable: renewal capability is not wired");
    lease ← wrapped authorizationDenied
              (renew carrier (mkRenewal remotePipeID (RecipientPublic binding) (OwnerBindingText binding)));
    at_ ← now;
    _ ← wrapped authorizationDenied (verify_lease lease authorityPub (RecipientPublic binding) remotePipeID at_);
    _ ← match u_LeaseCache u with
        | None => mret tt
        | Some cache =>
            text ← wrapped (persistenceError "encode renewed lease") (lift (Lease.Encode lease));
            wrapped (persistenceError "access lease cache")
              (Cache_Put cache (mkLeaseCache remotePipeID text (UTC (Lease.ExpiresAt lease))))
        end;
    mret lease).

Definition AcquireAcceptedPipeAccess (remotePipeID : string) : M W AcceptedPipeAccess :=
  _ ← guard (blank remotePipeID) (errorf "invalid_input: acquire requires a remote pipe id");
  '(binding, authorityPub) ← load_binding remotePipeID;
  at_ ← now;
  cached ← cached_lease remotePipeID binding authorityPub at_;
  lease ← match cached with
          | Some lease => mret lease
          | None => renewed_lease remotePipeID binding authorityPub
          end;
  mret (mkAccess remotePipeID (Locator binding) (AuthorityPublic binding) lease).

(** *** ConnectExact *)
Record ConnectExactInput := mkConnect {
  cn_Invite : string; cn_RemotePipeID : string; cn_LocalListen : string; cn_Name : string }.
Record ConnectExactResult := mkConnected {
  co_PipeRef : Ref; co_PipeID : string; co_TargetPipeID : string; co_LocalListen : string }.

Definition connect_input (i : ConnectExactInput) : M W (RemotePipeBindingRepo W) :=
  _ ← guard (blank (cn_LocalListen i)) (errorf "invalid_input: connect requires a local listen address");
  _ ← guard (blank (u_Secrets u)) (errorf "invalid_input: secrets directory is not configured");
  _ ← guard ((cn_Invite i <>s "") && (cn_RemotePipeID i <>s ""))
        (errorf "invalid_input: connect accepts exactly one of --token or --remote");
  _ ← guard ((cn_Invite i =s "") && (cn_RemotePipeID i =s ""))
        (errorf "invalid_input: connect requires --token <invite> or --remote <pipe-id>");
  wired (u_Bindings u) (errorf "persistence_unavailable: durable binding repository is not wired").

(** The remote Pipe, the recipient's key and its file, and the invite of the token path. *)
Definition connect_target (i : ConnectExactInput) : M W (string * string * string * option Invite.ExactInvite) :=
  if cn_Invite i <>s "" then
    invite ← decode_verified_invite (cn_Invite i);
    let target := Invite.AudiencePipeID invite in
    let file := connect_key_file (u_Secrets u) target in
    recipient ← wrapped (persistenceError "recipient identity key") (localkey_Provision (u_Platform u) file);
    mret (target, PublicString (Public recipient), file, Some invite)
  else
    let target := cn_RemotePipeID i in
    let file := connect_key_file (u_Secrets u) target in
    recipient ← wrapped (λ _, denied "no accepted recipient identity") (localkey_Load (u_Platform u) file);
    mret (target, PublicString (Public recipient), file, None).

(** The local Pipe to use, its key file, and whether it is there already. *)
Definition connect_plan (i : ConnectExactInput) (target recipientPublic file : string) : M W (PipeSpec * string * bool) :=
  ref ← wrapped (wrap_err "invalid_input") (lift (recipientRefFor target (cn_Name i)));
  at_ ← now;
  let canonicalPipeID := PipeIDFromOwner (recipientPublicBytes recipientPublic) in
  let spec := mkPipe ref canonicalPipeID None (mkIngress IngressLocal (cn_LocalListen i) "" "" "")
                (mkRef KindPipe target) VisibilityPrivate AccessInviteOnly false at_ at_ in
  by_ref ← attempt (Pipes_Get (u_Pipes u) (RefString ref));
  match by_ref with
  | Ok (existing, key) =>
      _ ← lift (exactConnectConflict existing canonicalPipeID target (cn_LocalListen i));
      mret (existing, key, true)
  | Fail e =>
      if errors_Is e ErrNotFound then
        by_id ← attempt (Pipes_Get (u_Pipes u) canonicalPipeID);
        match by_id with
        | Ok (existing, key) =>
            _ ← lift (exactConnectConflict existing canonicalPipeID target (cn_LocalListen i));
            _ ← guard (cn_Name i <>s "") (errorf "conflict: already connects this remote pipe");
            mret (existing, key, true)
        | Fail e =>
            if errors_Is e ErrNotFound then mret (spec, file, false) else fail (persistenceError "pipe" e)
        end
      else fail (persistenceError "pipe" e)
  end.

(** Verified access material, by the invite or by the accepted binding. *)
Definition connect_access (bindings : RemotePipeBindingRepo W) (target recipientPublic : string)
    (invite : option Invite.ExactInvite) : M W unit :=
  match invite with
  | Some invite => _ ← acceptExactInvite invite; mret tt
  | None =>
      binding ← wrapped (not_found_or (λ _, denied "no accepted binding") "accepted remote pipe binding")
                  (Bindings_Get bindings target);
      _ ← guard (RecipientPublic binding <>s recipientPublic)
            (denied "recipient identity does not match accepted binding");
      _ ← AcquireAcceptedPipeAccess target;
      mret tt
  end.

Definition ConnectExact (i : ConnectExactInput) : M W ConnectExactResult :=
  bindings ← connect_input i;
  '(target, recipientPublic, file, invite) ← connect_target i;
  '(spec, file, noUpsert) ← connect_plan i target recipientPublic file;
  _ ← connect_access bindings target recipientPublic invite;
  _ ← (if noUpsert : bool then mret true
       else wrapped (persistenceError "local pipe") (Pipes_Upsert (u_Pipes u) spec file));
  mret (mkConnected (p_Ref spec) (p_PipeID spec) target (in_Listen (p_Ingress spec))).
End usecases.
