(* ===== verification/UseCaseProps.v ===== *)
(** * What the use cases do, whatever their ports are

    The theorems hold for every world and every choice of ports. What a port may do to the
    world is a relation [R], so that a caller chooses what counts as quiet: no dial, no
    write to a table, no change of a file. *)
From S2P Require Import Prelude GoStrings GoTime Encoding Credentials CredentialFacts ExactAuthority Domain Handlers.
From S2P Require Import Effects UseCases.
Open Scope Z_scope.

Section facts.
Context `{Ed25519} `{NetParsers} {W C : Type} (u : UseCases W C).

(** ** Effects *)
Section effects.
Context (R : W → W → Prop) `{!PreOrder R}.

(** Clocks and the key files. *)
Record quiet_platform : Prop := {
  q_time : within R (time_Now (u_Platform u));
  q_now : ∀ clock, u_Now u = Some clock → within R clock;
  q_load : ∀ path, within R (localkey_Load (u_Platform u) path);
  q_provision : ∀ path, within R (localkey_Provision (u_Platform u) path) }.


Context (Q : quiet_platform).

Lemma within_now : within R (now u).
Proof. destruct Q. unfold now. solve_within. Qed.
Lemma within_wall_clock t : within R (wall_clock u t).
Proof. destruct Q. unfold wall_clock. destruct (IsZero t); solve_within. Qed.
Hint Resolve within_wall_clock : effects.
Lemma within_verify_lease l p s i t : within R (verify_lease u l p s i t).
Proof. destruct Q. unfold verify_lease. solve_within. Qed.
Lemma within_verify_invite i t p : within R (verify_invite u i t p).
Proof. destruct Q. unfold verify_invite. solve_within. Qed.
Hint Resolve within_now within_verify_lease within_verify_invite q_load q_provision : effects.

Lemma within_decode_invite e : within R (decode_verified_invite u e).
Proof. unfold decode_verified_invite. solve_within. Qed.
Lemma within_connect_input i : within R (connect_input u i).
Proof. unfold connect_input. solve_within. Qed.
Hint Resolve within_decode_invite within_connect_input : effects.
Lemma within_connect_target i : within R (connect_target u i).
Proof. unfold connect_target. solve_within. Qed.

Lemma within_connect_plan i t p f :
  (∀ id, within R (Pipes_Get (u_Pipes u) id)) → within R (connect_plan u i t p f).
Proof. intros Hg. unfold connect_plan. solve_within. Qed.


(** With a lease in the cache that verifies, nothing is dialled, renewed or written. *)
Lemma within_acquire_cached id w cache binding authority w1 w2 w3 t cached lease :
  u_LeaseCache u = Some cache →
  (∀ b, u_Bindings u = Some b → within R (Bindings_Get b id)) → within R (Cache_Get cache id) →
  load_binding u id w = (Ok (binding, authority), w1) → now u w1 = (Ok t, w2) →
  Cache_Get cache id w2 = (Ok cached, w3) → Lease.Decode (c_AccessLease cached) = Ok lease →
  (∃ w4, verify_lease u lease authority (RecipientPublic binding) id t w3 = (Ok tt, w4)) →
  R w (AcquireAcceptedPipeAccess u id w).2.
Proof.
  intros Hc Hb Hg Hl Hn Hcg Hd [w4 Hv].
  assert (R w w1) by (change w1 with (Ok (binding, authority), w1).2; rewrite <- Hl; unfold load_binding; solve_within).
  assert (R w1 w2) by (change w2 with (Ok t, w2).2; rewrite <- Hn; apply within_now).
  assert (R w2 w3) by (change w3 with (Ok cached, w3).2; rewrite <- Hcg; apply Hg).
  assert (R w3 w4) by (change w4 with (Ok tt, w4).2; rewrite <- Hv; apply within_verify_lease).
  unfold AcquireAcceptedPipeAccess, guard, lift. unfold mbind at 1, M_bind at 1.
  destruct (refuse (blank id) _); [|by cbn]. unfold mbind at 1, M_bind at 1. rewrite Hl.
  unfold mbind at 1, M_bind at 1. rewrite Hn. unfold mbind at 1, M_bind at 1.
  unfold cached_lease. rewrite Hc. unfold mbind at 1, M_bind at 1. unfold attempt at 1. rewrite Hcg.
  cbn [mbind res_bind]. rewrite Hd. unfold mbind at 1, M_bind at 1. unfold attempt. rewrite Hv. cbn. by repeat (etrans; [eassumption|]).
Qed.
End effects.

(** ** Results *)

(** The lease verifies at a time of the use case's clock. *)
Definition verified_now (l : Lease.AccessLease) (authority subject pipeID : string) : Prop :=
  ∃ t wall, (∃ w w', now u w = (Ok t, w')) ∧ (∃ w w', wall_clock u t w = (Ok wall, w')) ∧
    Lease.Verify wall l authority subject pipeID t = Ok tt.

Lemma verify_lease_run l p s i t w w' x :
  verify_lease u l p s i t w = (Ok x, w') → (∃ w w', now u w = (Ok t, w')) → verified_now l p s i.
Proof.
  unfold verify_lease. intros Hv Hn. run_inv. destruct x. eexists t, _. split; [done|]. split; [|eassumption]. eauto.
Qed.

Lemma decode_verified_run e i w w' :
  decode_verified_invite u e w = (Ok i, w') →
  Invite.DecodeInvite e = Ok i ∧
  ∃ t wall, (∃ w w', now u w = (Ok t, w')) ∧ (∃ w w', wall_clock u t w = (Ok wall, w')) ∧
    Invite.Verify wall i t (Invite.AudiencePipeID i) = Ok tt.
Proof.
  unfold decode_verified_invite, verify_invite. intros Hd. run_inv. split; [done|].
  match goal with x : unit |- _ => destruct x end. eexists _, _. eauto 10.
Qed.

(** What accepting an invite did, when it succeeded. *)
Record accepted (i : Invite.ExactInvite) (a : acceptedInviteResult) : Prop := {
  acc_key : ∃ k w w', localkey_Provision (u_Platform u) (connect_key_file (u_Secrets u) (Invite.AudiencePipeID i)) w
                      = (Ok k, w') ∧ ac_recipientPublic a = PublicString (Public k);
  acc_lease : ∃ redeem carrier w w', u_Redemption u = Some redeem ∧
                redeem carrier i (ac_recipientPublic a) w = (Ok (ac_lease a), w');
  acc_verified : ∃ issuer, PublicFromString (Invite.Issuer i) = Ok issuer ∧
                   verified_now (ac_lease a) issuer (ac_recipientPublic a) (Invite.AudiencePipeID i);
  acc_binding : RemotePipeID (ac_binding a) = Invite.AudiencePipeID i ∧
                AuthorityPublic (ac_binding a) = Invite.Issuer i ∧ OwnerBindingText (ac_binding a) = Invite.Binding i ∧
                RecipientPublic (ac_binding a) = ac_recipientPublic a ∧
                redemptionAddress i = Ok (Locator (ac_binding a)) ∧
                RemotePipeBindingValidate (ac_binding a) = Ok tt;
  acc_stored : ∃ bindings w w', u_Bindings u = Some bindings ∧ Bindings_Put bindings (ac_binding a) w = (Ok tt, w') }.

(** The key that an accepted invite is redeemed with is read from its file, after a clock. *)
Lemma accept_key_run i a w w' : acceptExactInvite u i w = (Ok a, w') →
  ∃ t w1 k w2, now u w = (Ok t, w1) ∧
    localkey_Provision (u_Platform u) (connect_key_file (u_Secrets u) (Invite.AudiencePipeID i)) w1 = (Ok k, w2) ∧
    ac_recipientPublic a = PublicString (Public k).
Proof.
  unfold acceptExactInvite. intros Ha. run_inv.
  match goal with x : _ * time |- _ => destruct x as [lease t] end. run_inv. cbn [ac_recipientPublic]. eauto 10.
Qed.

Lemma accept_run i a w w' : acceptExactInvite u i w = (Ok a, w') → accepted i a.
Proof.
  unfold acceptExactInvite. intros Ha. run_inv.
  match goal with x : _ * time |- _ => destruct x as [lease t] end. unfold redeem_over, store_accepted in *. run_inv.
  repeat match goal with x : unit |- _ => destruct x end.
  match goal with E : (_, _) = (_, _) |- _ => injection E as -> -> end.
  split; cbn [ac_recipientPublic ac_lease ac_binding RemotePipeID AuthorityPublic OwnerBindingText RecipientPublic Locator].
  - eauto 10.
  - eauto 10.
  - eexists. split; [eassumption|]. eapply verify_lease_run; eauto.
  - eauto 10.
  - eauto 10.
Qed.

(** What acquiring access to an accepted Pipe returns. *)
Record acquired (id : string) (a : AcceptedPipeAccess) (b : RemotePipeBinding) (w : W) : Prop := {
  acq_binding : ∃ bindings w', u_Bindings u = Some bindings ∧ Bindings_Get bindings id w = (Ok b, w');
  acq_valid : RemotePipeBindingValidate b = Ok tt;
  acq_fields : aa_RemotePipeID a = id ∧ aa_Locator a = Locator b ∧ aa_AuthorityPublic a = AuthorityPublic b;
  acq_verified : ∃ authority, PublicFromString (AuthorityPublic b) = Ok authority ∧
                   verified_now (aa_AccessLease a) authority (RecipientPublic b) id;
  acq_source :
    (∃ cache c w1 w2, u_LeaseCache u = Some cache ∧ Cache_Get cache id w1 = (Ok c, w2) ∧
       Lease.Decode (c_AccessLease c) = Ok (aa_AccessLease a)) ∨
    (∃ renew reach carrier w1 w2 w3 w4, u_Renewal u = Some renew ∧ u_Reach u = Some reach ∧
       Acquire reach (Locator b) w1 = (Ok carrier, w2) ∧
       renew carrier (mkRenewal id (RecipientPublic b) (OwnerBindingText b)) w3 = (Ok (aa_AccessLease a), w4)) }.

Lemma load_binding_run id b authority w w' :
  load_binding u id w = (Ok (b, authority), w') →
  (∃ bindings w', u_Bindings u = Some bindings ∧ Bindings_Get bindings id w = (Ok b, w')) ∧
  RemotePipeBindingValidate b = Ok tt ∧ PublicFromString (AuthorityPublic b) = Ok authority.
Proof.
  unfold load_binding. intros Hl. run_inv. repeat match goal with x : unit |- _ => destruct x end. simplify_eq. eauto 10.
Qed.

Lemma cached_run id b authority t w lease w' :
  cached_lease u id b authority t w = (Ok (Some lease), w') → (∃ w w', now u w = (Ok t, w')) →
  verified_now lease authority (RecipientPublic b) id ∧
  ∃ cache c w1 w2, u_LeaseCache u = Some cache ∧ Cache_Get cache id w1 = (Ok c, w2) ∧
    Lease.Decode (c_AccessLease c) = Ok lease.
Proof.
  unfold cached_lease. intros Hc Hn. destruct (u_LeaseCache u) as [cache|] eqn:E; [|by inversion Hc].
  apply bind_run in Hc as (r & w1 & Hg & Hc). apply attempt_run in Hg.
  destruct r as [c|]; [|by inversion Hc]. cbn [mbind res_bind] in Hc.
  destruct (Lease.Decode (c_AccessLease c)) as [l|] eqn:Ed; [|by inversion Hc].
  apply bind_run in Hc as (v & w2 & Hv & Hc). apply attempt_run in Hv.
  destruct v as [x|]; [|by inversion Hc]. injection Hc as <- <-. split; [eapply verify_lease_run; eauto|].
    exists cache, c, w, w1. done.
Qed.

Lemma renewed_run id b authority w lease w' :
  renewed_lease u id b authority w = (Ok lease, w') →
  verified_now lease authority (RecipientPublic b) id ∧
  ∃ renew reach carrier w1 w2 w3 w4, u_Renewal u = Some renew ∧ u_Reach u = Some reach ∧
    Acquire reach (Locator b) w1 = (Ok carrier, w2) ∧
    renew carrier (mkRenewal id (RecipientPublic b) (OwnerBindingText b)) w3 = (Ok lease, w4).
Proof.
  unfold renewed_lease. intros Hr. run_inv. split; [eapply verify_lease_run; eauto|]. eauto 20.
Qed.

Lemma acquire_run id a w w' : AcquireAcceptedPipeAccess u id w = (Ok a, w') → ∃ b, acquired id a b w.
Proof.
  unfold AcquireAcceptedPipeAccess. intros Ha. apply bind_run in Ha as (x & w1 & Hg & Ha).
  apply guard_run in Hg as [_ <-]. apply bind_run in Ha as ([b authority] & w2 & Hl & Ha).
  apply bind_run in Ha as (t & w3 & Hn & Ha). apply bind_run in Ha as (cached & w4 & Hc & Ha).
  apply bind_run in Ha as (lease & w5 & Hs & Ha). injection Ha as <- <-.
  apply load_binding_run in Hl as (Hb & Hv & Hk). exists b.
  assert (Hn' : ∃ w w', now u w = (Ok t, w')) by eauto.
  destruct cached as [l|].
  - injection Hs as -> ->. apply cached_run in Hc as [Hver Hsrc]; [|done]. split; eauto.
  - apply renewed_run in Hs as [Hver Hsrc]. split; eauto.
Qed.

(** ** Connecting *)

(** The input that connecting accepts: a listener, a directory for keys, and an invite or a
    remote Pipe but not both. *)
Definition well_asked (i : ConnectExactInput) : Prop :=
  blank (cn_LocalListen i) = false ∧ blank (u_Secrets u) = false ∧
  ((cn_Invite i ≠ "" ∧ cn_RemotePipeID i = "") ∨ (cn_Invite i = "" ∧ cn_RemotePipeID i ≠ "")).

(** The remote Pipe and the recipient's key, from the input and the key file of that Pipe: by
    an invite that decodes and verifies at the time that was read, or by the identifier. *)
Definition resolved (i : ConnectExactInput) (w : W) (target pub file : string) (invite : option Invite.ExactInvite) (w' : W) : Prop :=
  file = connect_key_file (u_Secrets u) target ∧
  match invite with
  | Some j => cn_Invite i ≠ "" ∧ Invite.DecodeInvite (cn_Invite i) = Ok j ∧ target = Invite.AudiencePipeID j ∧
      ∃ t w1 wall w2 k, now u w = (Ok t, w1) ∧ wall_clock u t w1 = (Ok wall, w2) ∧ Invite.Verify wall j t target = Ok tt ∧
        localkey_Provision (u_Platform u) file w2 = (Ok k, w') ∧ pub = PublicString (Public k)
  | None => cn_Invite i = "" ∧ target = cn_RemotePipeID i ∧
      ∃ k, localkey_Load (u_Platform u) file w = (Ok k, w') ∧ pub = PublicString (Public k)
  end.

(** A local Pipe that connects the key [pub] to the remote Pipe on the listener asked for. *)
Definition connects (i : ConnectExactInput) (target pub : string) (spec : PipeSpec) : Prop :=
  p_Target spec = mkRef KindPipe target ∧ p_PipeID spec = PipeIDFromOwner (recipientPublicBytes pub) ∧
  in_Kind (p_Ingress spec) = IngressLocal ∧ in_Listen (p_Ingress spec) = cn_LocalListen i.

Definition absent (id : string) (w w' : W) : Prop :=
  ∃ e, Pipes_Get (u_Pipes u) id w = (Fail e, w') ∧ errors_Is e ErrNotFound = true.

(** The Pipe is stored already under the requested name, or under the identity when no name
    was asked for; or neither is taken, and it is new, with the key file [file]. *)
Definition placed (i : ConnectExactInput) (w : W) (target pub file : string) (spec : PipeSpec) (file' : string) (known : bool) (w' : W) : Prop :=
  ∃ ref t w1, recipientRefFor target (cn_Name i) = Ok ref ∧ now u w = (Ok t, w1) ∧
    let id := PipeIDFromOwner (recipientPublicBytes pub) in
    if known then
      Pipes_Get (u_Pipes u) (RefString ref) w1 = (Ok (spec, file'), w') ∨
      (cn_Name i = "" ∧ ∃ w2, absent (RefString ref) w1 w2 ∧ Pipes_Get (u_Pipes u) id w2 = (Ok (spec, file'), w'))
    else p_Ref spec = ref ∧ file' = file ∧ ∃ w2, absent (RefString ref) w1 w2 ∧ absent id w2 w'.

(** The access that was verified from [w] on: by the invite, or for the binding of this very
    key. *)
Definition granted (bindings : RemotePipeBindingRepo W) (target pub : string) (invite : option Invite.ExactInvite) (w w' : W) : Prop :=
  match invite with
  | Some j => ∃ a, acceptExactInvite u j w = (Ok a, w') ∧ accepted j a ∧ ac_recipientPublic a = pub
  | None => ∃ b w1 a b', Bindings_Get bindings target w = (Ok b, w1) ∧ RecipientPublic b = pub ∧
              AcquireAcceptedPipeAccess u target w1 = (Ok a, w') ∧ acquired target a b' w1 ∧ RecipientPublic b' = pub
  end.

(** Key files are kept: after quiet steps a provisioned key is found again; and two reads of
    a binding in a row agree. *)
Record stable (R : W → W → Prop) : Prop := {
  st_keys : ∀ path k k' w w1 w2 w3, localkey_Provision (u_Platform u) path w = (Ok k, w1) → R w1 w2 →
              localkey_Provision (u_Platform u) path w2 = (Ok k', w3) → k' = k;
  st_bindings : ∀ bindings id b b' w w1 w2, u_Bindings u = Some bindings → Bindings_Get bindings id w = (Ok b, w1) →
              Bindings_Get bindings id w1 = (Ok b', w2) → b' = b }.

Lemma conflict_ok existing id target listen x :
  exactConnectConflict existing id target listen = Ok x →
  p_Target existing = mkRef KindPipe target ∧ p_PipeID existing = id ∧ in_Kind (p_Ingress existing) = IngressLocal ∧
  in_Listen (p_Ingress existing) = listen.
Proof.
  unfold exactConnectConflict. intros Hc. res_inv. destruct (p_Target existing) as [k n]. cbn [Kind Name] in *.
  repeat match goal with
  | E : _ || _ = false |- _ => apply orb_false_elim in E as [? ?]
  | E : (_ <>s _) = false |- _ => apply negb_false_iff, seqb_true in E end. by subst.
Qed.

Lemma connect_input_run i w bindings w' : connect_input u i w = (Ok bindings, w') →
  u_Bindings u = Some bindings ∧ w' = w ∧ well_asked i.
Proof.
  unfold connect_input. intros Hc. run_inv. split; [done|]. split; [done|]. split; [done|]. split; [done|].
  destruct (seqb_spec (cn_Invite i) "") as [->|?]; destruct (seqb_spec (cn_RemotePipeID i) "") as [->|?]; naive_solver.
Qed.

Lemma connect_target_run i w target pub file invite w' :
  connect_target u i w = (Ok (target, pub, file, invite), w') → resolved i w target pub file invite w'.
Proof.
  unfold connect_target, decode_verified_invite, verify_invite. intros Ht.
  destruct (seqb_spec (cn_Invite i) "") as [E|E]; cbn [negb] in Ht; run_inv; simplify_eq; (split; [done|]).
  - split; [done|]. split; [done|]. eauto.
  - match goal with x : unit |- _ => destruct x end. split; [done|]. split; [done|]. split; [done|]. eauto 15.
Qed.

Lemma connect_plan_run i target pub file w spec file' known w' :
  connect_plan u i target pub file w = (Ok (spec, file', known), w') →
  connects i target pub spec ∧ placed i w target pub file spec file' known w'.
Proof.
  unfold connect_plan. intros Hp. apply bind_run in Hp as (ref & w1 & Hr & Hp). apply wrapped_run, lift_run in Hr as [Hr <-].
  apply bind_run in Hp as (t & w2 & Hn & Hp). apply bind_run in Hp as (by_ref & w3 & Hg & Hp). apply attempt_run in Hg.
  destruct by_ref as [[old key]|e].
  { run_inv. simplify_eq. split; [by eapply conflict_ok|]. exists ref, t, w2. eauto. }
  destruct (errors_Is e ErrNotFound) eqn:He; [|by inversion Hp].
  apply bind_run in Hp as (by_id & w4 & Hg' & Hp). apply attempt_run in Hg'.
  destruct by_id as [[old key]|e'].
  { run_inv. simplify_eq. split; [by eapply conflict_ok|]. exists ref, t, w2. split; [done|]. split; [done|].
    right. split; [|by exists w3; split; [exists e|]].
    by destruct (seqb_spec (cn_Name i) ""). }
  destruct (errors_Is e' ErrNotFound) eqn:He'; [|by inversion Hp].
  injection Hp as <- <- <- <-. split; [done|]. exists ref, t, w2. split; [done|]. split; [done|].
  split; [done|]. split; [done|]. exists w3. split; [by exists e|by exists e'].
Qed.

Lemma connect_access_run R `{!PreOrder R} i w0 wt bindings target pub file invite w x w' :
  quiet_platform R → stable R → u_Bindings u = Some bindings → resolved i w0 target pub file invite wt → R wt w →
  connect_access u bindings target pub invite w = (Ok x, w') → granted bindings target pub invite w w'.
Proof.
  intros Q [Hkeys Hreads] Hb [Hfile Hres] HR Ha. destruct invite as [j|]; cbn [connect_access granted] in *.
  - apply bind_run in Ha as (a & w1 & Ha & [= _ <-]). exists a. split; [done|]. split; [by eapply accept_run|].
    apply accept_key_run in Ha as (t & w2 & k & w3 & Hn & Hk & ->).
    destruct Hres as (_ & _ & -> & t0 & wa & wall & wb & k0 & _ & _ & _ & Hk0 & ->). subst file. enough (k = k0) as -> by done.
    refine (Hkeys _ _ _ _ _ _ _ Hk0 _ Hk). etrans; [exact HR|].
    pose proof (within_now R Q w) as Hw. by rewrite Hn in Hw.
  - apply bind_run in Ha as (b & w1 & Hg & Ha). apply wrapped_run in Hg.
    apply bind_run in Ha as (y & w2 & Hk & Ha). apply guard_run in Hk as [Hk%negb_false_iff%seqb_true <-].
    apply bind_run in Ha as (a & w3 & Ha & [= _ <-]). pose proof (acquire_run _ _ _ _ Ha) as [b' Hacq].
    exists b, w1, a, b'. split_and!; [done|done|done|done|].
    destruct (acq_binding _ _ _ _ Hacq) as (bindings' & w4 & Hb' & Hg').
    assert (bindings' = bindings) as -> by congruence. by rewrite (Hreads _ _ _ _ _ _ _ Hb Hg Hg').
Qed.

(** C5: connecting checks everything it can check locally before it uses the network or
    writes. Take any notion of quiet that covers clocks, key files and Pipe lookups, and key
    files and bindings that stay while nothing else happens. Either [ConnectExact] fails and
    was quiet throughout; or the input had a listener and exactly one of an invite and a
    remote Pipe, the invite decoded and verified at the time that was read, the key is the
    one of the key file of that remote Pipe, and it was quiet up to a point where the local
    Pipe was decided: one that connects the key's own identity to that remote Pipe on the
    requested listener, and that is either stored already or has a name and an identity that
    are both free. Only then is access asked for; and only when the invite was redeemed, or
    access of the accepted binding acquired, for that same key, is a new Pipe stored and
    connecting reported. *)
Theorem connect_checks_first (R : W → W → Prop) `{!PreOrder R} i w r w' :
  quiet_platform R → (∀ id, within R (Pipes_Get (u_Pipes u) id)) → stable R →
  ConnectExact u i w = (r, w') →
  ((∃ e, r = Fail e) ∧ R w w') ∨
  ∃ bindings target pub file invite wt spec file' known w1,
    u_Bindings u = Some bindings ∧ well_asked i ∧ resolved i w target pub file invite wt ∧
    connects i target pub spec ∧ placed i wt target pub file spec file' known w1 ∧ R w w1 ∧
    match connect_access u bindings target pub invite w1 with
    | (Fail e, w2) => r = Fail e ∧ w' = w2
    | (Ok _, w2) =>
        granted bindings target pub invite w1 w2 ∧
        let connected := mkConnected (p_Ref spec) (p_PipeID spec) target (cn_LocalListen i) in
        if known then r = Ok connected ∧ w' = w2
        else match Pipes_Upsert (u_Pipes u) spec file' w2 with
             | (Ok _, w3) => r = Ok connected ∧ w' = w3
             | (Fail e, w3) => r = Fail (persistenceError "local pipe" e) ∧ w' = w3
             end
    end.
Proof.
  intros Q Hg Hst Hc. unfold ConnectExact in Hc. unfold mbind at 1, M_bind at 1 in Hc.
  pose proof (within_connect_input R i w) as Q1.
  destruct (connect_input u i w) as [[bindings|e] w1] eqn:E1; [|injection Hc as <- <-; left; eauto].
  apply connect_input_run in E1 as (Hb & -> & Hwell).
  unfold mbind at 1, M_bind at 1 in Hc. pose proof (within_connect_target R Q i w) as Q2.
  destruct (connect_target u i w) as [[[[[target pub] file] invite]|e] wt] eqn:E2;
    [|injection Hc as <- <-; left; eauto].
  apply connect_target_run in E2 as Hres. unfold mbind at 1, M_bind at 1 in Hc.
  pose proof (within_connect_plan R Q i target pub file Hg wt) as Q3.
  destruct (connect_plan u i target pub file wt) as [[[[spec file'] known]|e] w3] eqn:E3;
    [|injection Hc as <- <-; left; split; [eauto|by etrans]].
  apply connect_plan_run in E3 as [Hcon Hpl]. right.
  exists bindings, target, pub, file, invite, wt, spec, file', known, w3.
  split_and!; [done|done|done|done|done|by etrans|]. unfold mbind at 1, M_bind at 1 in Hc.
  destruct (connect_access u bindings target pub invite w3) as [[x|e] w4] eqn:E4; [|by injection Hc as <- <-].
  split; [by eapply (connect_access_run R)|].
  destruct Hcon as (_ & _ & _ & Hl). cbv zeta. destruct known.
  - injection Hc as <- <-. by rewrite Hl.
  - unfold mbind at 1, M_bind at 1, wrapped in Hc.
    destruct (Pipes_Upsert _ _ _ w4) as [[y|e] w5]; injection Hc as <- <-; [by rewrite Hl|done].
Qed.

End facts.
