(* ===== verification/Nodes.v ===== *)
(** * Two nodes

    The composition of the use cases with the store and with the wire: the store adapters
    of [internal/store/usecaseports.go] and the clients of
    [internal/runtime/exact_redemption_client.go] and [exact_renewal.go] as ports, over a
    world of two nodes that share a clock. The node at the other end of a carrier runs the
    handlers of [redemption_handler.go] and [renewal_handler.go] for its Pipe.

    A node's key files are a map from paths to keys: loading a missing file fails,
    provisioning one creates it once. The clock, the random source and the key generator
    are functions of the number of reads so far, of the size, or of the path. *)
From S2P Require Import Prelude GoStrings GoTime Encoding Json JsonRoundTrip JsonTree Sha256.
From S2P Require Import Credentials CredentialFacts CredentialVerify StoreRelations StoreRelationFacts.
From S2P Require Import ExactAuthority Domain StoreSync StoreObjects OpenBoundary Handlers Frames Effects UseCases.
Open Scope Z_scope.

Section nodes.
Context `{Ed25519} `{NetParsers} (clock : nat → time) (random : nat → nat → string) (generate : string → PrivateKey).

Record node := mkNode { n_objects : objects; n_relations : relations; n_keys : gmap string PrivateKey }.
Record world := mkWorld { w_owner : node; w_peer : node; w_reads : nat }.

(** A side of the world. *)
Record side := mkSide { look : world → node; put : node → world → world }.
Definition at_owner : side := mkSide w_owner (λ n w, mkWorld n (w_peer w) (w_reads w)).
Definition at_peer : side := mkSide w_peer (λ n w, mkWorld (w_owner w) n (w_reads w)).

Definition read_clock : M world time := λ w,
  (Ok (clock (w_reads w)), mkWorld (w_owner w) (w_peer w) (S (w_reads w))).
Definition read_random (size : nat) : M world string := λ w,
  (Ok (random size (w_reads w)), mkWorld (w_owner w) (w_peer w) (S (w_reads w))).

Section ports.
Context (s : side).

(** ** Tables *)
Definition reads {A} (f : objects → res A) : M world A := λ w, (f (n_objects (look s w)), w).
Definition writes {A} (f : objects → res A * objects) : M world A := λ w,
  let n := look s w in
  let '(r, d) := f (n_objects n) in (r, put s (mkNode d (n_relations n) (n_keys n)) w).

Definition ServiceRepoAdapter : ServiceRepository world :=
  mkServices (λ spec, writes (PutService spec)) (λ ref, reads (λ d, Service d ref))
    (λ ref, writes (DeleteService (RefString ref))).

Definition PipeRepoAdapter : PipeRepository world :=
  mkPipes (λ spec file, writes (PutPipe spec file ""))
    (λ id, wrapped (wrap_err "pipe") (reads (λ d, '(spec, key, _) ← Pipe d id; Ok (spec, key))))
    (λ ref, _ ← writes (DeletePipe ref); mret tt).

Definition RemotePipeBindingAdapter : RemotePipeBindingRepo world :=
  mkBindings (λ id, reads (λ d, GetRemotePipeBinding d id))
    (λ b, t ← read_clock; writes (PutRemotePipeBinding t b)) (λ id, writes (DeleteRemotePipeBinding id)).

Definition AccessLeaseCacheAdapter : AccessLeaseCacheRepo world :=
  mkCache (λ id, t ← read_clock; writes (GetAccessLeaseCache t id)) (λ c, writes (PutAccessLeaseCache c))
    (λ id, writes (DeleteAccessLeaseCache id)).

(** [ExactEpochAdapter]. *)
Definition ExactEpochAdapter (pipeID : string) : M world Z := λ w,
  (PipeAccessEpoch (n_relations (look s w)) pipeID, w).

(** ** Key files *)
Definition load_key (path : string) : M world PrivateKey := λ w,
  (need (n_keys (look s w) !! path) (errorf "no such file"), w).
Definition provision_key (path : string) : M world PrivateKey := λ w,
  let n := look s w in
  match n_keys n !! path with
  | Some k => (Ok k, w)
  | None => (Ok (generate path), put s (mkNode (n_objects n) (n_relations n) (<[path := generate path]> (n_keys n))) w)
  end.
Definition platform : Platform world := mkPlatform read_clock (read_random 16) load_key provision_key.

(** ** The clients of the wire *)

(** The other node's Pipe and the carrier to it. *)
Context (o : side) (h : handler).

Definition owner_load (w : world) (path : string) : res PrivateKey :=
  need (n_keys (look o w) !! path) (errorf "no such file").

Definition set_relations (d : relations) (w : world) : world :=
  let n := look o w in put o (mkNode (n_objects n) d (n_keys n)) w.

(** [ExactRedemptionClient.Redeem] against the handler of the other node. *)
Definition redeem_at_peer (secrets : string) (_ : unit) (invite : Invite.ExactInvite) (recipientPublic : string)
    : M world Lease.AccessLease :=
  let path := recipient_key_path secrets (Invite.AudiencePipeID invite) in
  loaded ← attempt (load_key path);
  private ← match loaded with
            | Ok k => mret k
            | Fail _ => wrapped (wrap_err "exact_redemption: recipient key") (provision_key path)
            end;
  wall ← read_clock; t ← read_clock;
  rc ← attempt (read_random 24); rs ← attempt (read_random 16); rj ← attempt (read_random 16);
  op (λ w,
       let '(r, d) := run_redemption_wire (owner_load w) (λ _, Ok private) (λ _, Ok private) h secrets wall t rc rs rj
                        invite recipientPublic (n_relations (look o w)) in
       (r, set_relations d w)).

Definition renew_at_peer (secrets : string) (_ : unit) (req : RenewalRequest) : M world Lease.AccessLease :=
  wall ← read_clock; t ← read_clock;
  rc ← attempt (read_random 24); rj ← attempt (read_random 16);
  loaded ← attempt (load_key (recipient_key_path secrets (nr_PipeID req)));
  op (λ w, (run_renewal_wire (owner_load w) (λ _, loaded) h secrets t rc rj
          (mkRenewalRequest (nr_PipeID req) (nr_RecipientPublic req) (nr_OwnerBinding req))
          (n_relations (look o w)), w)).

(** A carrier to the other node; only addresses of its listener answer. *)
Definition reach_peer (address : string) : ReachabilityAcquirer world unit :=
  mkReach (λ a, if a =s address then mret tt else fail (errorf "exact_reachability: dial")) (λ _, mret tt).
End ports.
End nodes.
