(* ===== verification/NodeProps.v ===== *)
(** * Sharing a Pipe and connecting to it

    The use cases over the store and the wire: an invite that one node shares lets another
    node connect ([connect_gives]), and the access it gets is found again
    ([acquire_gives]). *)
From S2P Require Import Prelude GoStrings GoTime Encoding Json JsonRoundTrip JsonTree Sha256.
From S2P Require Import Credentials CredentialFacts CredentialVerify CredentialProps StoreRelations StoreRelationFacts.
From S2P Require Import ExactAuthority ExactAuthorityFacts Domain DomainFacts StoreSync StoreObjects StoreObjectFacts.
From S2P Require Import OpenBoundary AccessProps Handlers HandlerProps Frames FrameFacts Effects UseCases UseCaseProps Nodes.
Open Scope Z_scope.

Section journey.
Context `{Ed25519Laws} `{NetParsers} (clock : nat → time) (random : nat → nat → string) (generate : string → PrivateKey).
Implicit Types (w : world).

(** The ports of the two nodes: [ref] of the owner is at [address]. *)
Definition owner_ports (secrets address protocol : string) : UseCases world unit :=
  mkUseCases (ServiceRepoAdapter at_owner) (PipeRepoAdapter at_owner) secrets None
    (Some (λ _ _, mret address)) (Some (ExactEpochAdapter at_owner)) protocol None None None None None None
    (platform clock random generate at_owner).
Definition peer_ports (secrets address : string) (h : handler) : UseCases world unit :=
  mkUseCases (ServiceRepoAdapter at_peer) (PipeRepoAdapter at_peer) secrets None None None ""
    (Some (redeem_at_peer clock random generate at_peer at_owner h secrets))
    (Some (renew_at_peer clock random at_peer at_owner h secrets)) (Some (reach_peer address)) None
    (Some (RemotePipeBindingAdapter clock at_peer)) (Some (AccessLeaseCacheAdapter clock at_peer))
    (platform clock random generate at_peer).

(** ** What sharing leaves behind *)
Record shared_by (secrets address protocol : string) (w w1 : world) (pipeID enc : string) (k_auth : PrivateKey)
    (b : Binding.OwnerBinding) (i : Invite.ExactInvite) (epoch : Z) (m n : nat) : Prop := {
  sb_owner : ∃ k_owner, pipeID = PipeIDFromOwner (Public k_owner) ∧
               Binding.NewOwnerBinding k_owner (Public k_auth) pipeID epoch (TrimSpace address) protocol = Ok b ∧
               Public k_auth ≠ Public k_owner;
  sb_invite : Invite.NewExactInvite (Ok (random 16 n)) k_auth b pipeID (UTC (clock m)) DefaultInviteTTL epoch = Ok i;
  sb_encoded : Invite.EncodeInvite i = Ok enc;
  sb_epoch : RevocationEpoch (n_relations (w_owner w)) pipeID "pipe-access" pipeID = Ok epoch;
  sb_address : TrimSpace address ≠ "";
  sb_secrets : secrets ≠ "";
  sb_key : n_keys (w_owner w1) !! path_of [secrets; "exact-authorities"; pipeID +:+ ".key"] = Some k_auth;
  sb_relations : n_relations (w_owner w1) = n_relations (w_owner w);
  sb_peer : w_peer w1 = w_peer w }.

Lemma provision_key_run path w k w' :
  provision_key generate at_owner path w = (Ok k, w') →
  n_keys (w_owner w') !! path = Some k ∧ n_relations (w_owner w') = n_relations (w_owner w) ∧ w_peer w' = w_peer w ∧
  w_reads w' = w_reads w.
Proof.
  unfold provision_key. cbn [look put at_owner]. destruct (n_keys (w_owner w) !! path) as [k'|] eqn:E.
  - intros [= <- <-]. done.
  - intros [= <- <-]. cbn. by rewrite lookup_insert_eq.
Qed.

Lemma share_run secrets address protocol ref w r w1 :
  ShareExact (owner_ports secrets address protocol) ref w = (Ok r, w1) →
  ∃ k_auth b i epoch m n, shared_by secrets address protocol w w1 (sr_PipeID r) (sr_Invite r) k_auth b i epoch m n.
Proof.
  unfold ShareExact. intros Hs.
  apply bind_run in Hs as ([spec file] & w2 & Hg & Hs). apply wrapped_run in Hg.
  cbn [u_Pipes owner_ports Pipes_Get PipeRepoAdapter] in Hg. apply wrapped_run in Hg.
  assert (w2 = w) as -> by (by inversion Hg). clear Hg.
  apply bind_run in Hs as (owner & w2 & Hl & Hs). apply wrapped_run in Hl. assert (w2 = w) as -> by (by inversion Hl). clear Hl.
  apply bind_run in Hs as (x & w2 & Ho & Hs). apply guard_run in Ho as [Ho <-]. apply negb_false_iff, seqb_true in Ho.
  apply bind_run in Hs as (locate & w2 & Hw & Hs). apply wired_run in Hw as [[= <-] <-].
  apply bind_run in Hs as (a & w2 & Ha & Hs). injection Ha as <- <-. cbv zeta in Hs.
  apply bind_run in Hs as (y & w2 & Hta & Hs). apply guard_run in Hta as [Hta%seqb_false <-].
  apply bind_run in Hs as (z & w2 & Hpr & Hs). apply guard_run in Hpr as [_ <-].
  apply bind_run in Hs as (f & w2 & Hw & Hs). apply wired_run in Hw as [[= <-] <-].
  apply bind_run in Hs as (epoch & w2 & He & Hs). apply wrapped_run in He. apply (inj2 pair) in He as [He <-].
  apply bind_run in Hs as (parts & w2 & Hk & Hs). apply wrapped_run, lift_run in Hk as [Hk <-].
  apply bind_run in Hs as (auth & w2 & Hp & Hs). apply wrapped_run in Hp.
  apply bind_run in Hs as (t & w3 & Hn & Hs). apply bind_run in Hs as (rnd & w4 & Hr & Hs). apply attempt_run in Hr.
  injection Hr as <- <-. injection Hn as <- <-.
  apply bind_run in Hs as (i & w5 & Hi & Hs). apply wrapped_run, lift_run in Hi as [Hi <-].
  apply bind_run in Hs as (enc & w5 & Henc & Hs). apply wrapped_run, lift_run in Henc as [Henc <-].
  injection Hs as <- <-. cbn [sr_PipeID sr_Invite].
  unfold provision_authority in Hp. cbn [w_PipeID w_KeyPath] in Hp. rewrite (proj2 (VerifyPipeOwner_true _ _)) in Hp
    by (split; [done|apply Public_size]).
  apply bind_run in Hp as (k_auth & w6 & Hprov & Hp). apply provision_key_run in Hprov as (Hkey & Hrel & Hpeer & Hreads).
  apply lift_run in Hp as [Hp <-]. unfold Provision in Hp. cbv zeta in Hp. cbn [w_PipeID w_KeyPath w_Epoch w_RedemptionPeers
    w_RedemptionProtocol] in Hp. res_inv.
  match goal with E : fromBinding _ _ = Ok _ |- _ => apply fromBinding_ok in E as (<- & <- & _ & Hne & _) end.
  unfold KeyPath in Hk. cbn [u_Secrets u_RedemptionProtocol owner_ports] in *. destruct ((secrets =s "") || _) eqn:Hsec; [done|]. apply orb_false_elim in Hsec as [Hsec%seqb_false _].
  injection Hk as <-.
  exists (Private auth), (AuthBinding auth), i, epoch, (w_reads w6), (S (w_reads w6)). constructor; try done.
  exists owner. split; [done|]. split; [done|]. intros E. apply Hne.
  match goal with Hb : Binding.NewOwnerBinding _ _ _ _ _ _ = Ok _ |- _ =>
    destruct (minted_binding_authority _ _ _ _ _ _ _ Hb) as (Hacc & _ & -> & _) end.
  destruct (ba_owner _ _ Hacc) as [-> _]. by rewrite E.
Qed.

(** ** The shared invite *)

(** A clock that is set and whose readings are at most the tolerated skew apart. *)
Record steady_clock : Prop := {
  ck_after : ∀ n, unix_ns zero_time < unix_ns (clock n);
  ck_years : ∀ n l, 0 ≤ l ≤ MaxTTL → in_years (Add (UTC (clock n)) l);
  ck_spread : ∀ m n, unix_ns (clock m) - MaxClockSkew ≤ unix_ns (clock n) }.

Lemma name_ascii x : resourceNamePattern x = true → ascii_text x.
Proof.
  unfold resourceNamePattern, ascii_text, ascii_bytes. destruct (bytes_of x) as [|c r]; [done|].
  intros [[Hc Hr]%andb_true_iff _]%andb_true_iff.
  assert (HT : ∀ d, name_tail d = true → code d < 128).
  { intros d Hd. unfold name_tail, name_head, is_lower, is_digit, in_range in Hd. cbn [existsb] in Hd.
    repeat (apply orb_true_iff in Hd as [Hd|Hd]); try done; try (apply bool_decide_eq_true in Hd; by subst); lia. }
  constructor.
  - apply HT. unfold name_tail. by rewrite Hc.
  - rewrite forallb_forall in Hr. apply Forall_forall. intros d Hd. apply HT, Hr. by apply list_elem_of_In.
Qed.

Section steady.
Context (Hck : steady_clock) (Hrnd : ∀ size n, slen (random size n) = Z.of_nat size).

Lemma clock_set n : IsZero (clock n) = false.
Proof. unfold IsZero. pose proof (ck_after Hck n). lia. Qed.

(** The time of the clock is set, so that verifying with it reads no other. *)
Lemma wall_clock_gives u n w (Q : time → world → Prop) : Q (UTC (clock n)) w → gives (wall_clock (W := world) (C := unit) u (UTC (clock n))) w Q.
Proof.
  intros HQ. unfold wall_clock. change (IsZero (UTC (clock n))) with (IsZero (clock n)). rewrite clock_set. by apply gives_ret.
Qed.

Lemma clock_years n : in_years (UTC (clock n)).
Proof.
  pose proof (ck_years Hck n 0 ltac:(done)) as Hy. unfold Add in Hy. rewrite Z.add_0_r in Hy. by destruct (UTC (clock n)).
Qed.

Lemma random_good n : good_entropy (Ok (random 16 n)).
Proof. intros v [= <-]. apply Hrnd. Qed.

(** An address that is one address. *)
Definition plain_address (address : string) : Prop :=
  ascii_text address ∧ TrimSpace address = address ∧ Cut address ","%char = None ∧ blank address = false.

Section invite.
Context (secrets address protocol : string) (w w1 : world) (pipeID enc : string) (k_auth : PrivateKey)
        (b : Binding.OwnerBinding) (i : Invite.ExactInvite) (epoch : Z) (m n : nat).
Context (Hsh : shared_by secrets address protocol w w1 pipeID enc k_auth b i epoch m n).
Context (Haddr : plain_address address) (Hproto : ascii_text protocol) (Hepoch : 0 ≤ epoch < 2 ^ 63).

Lemma shared_binding :
  Binding.RedemptionPeers b = address ∧ Binding.RedemptionProtocol b = protocol ∧ Binding.Epoch b = epoch ∧
  slen address ≤ MaxRedemptionAddrLen.
Proof.
  destruct (sb_owner _ _ _ _ _ _ _ _ _ _ _ _ _ Hsh) as (k_owner & _ & Hb & _). destruct Haddr as (_ & Ht & _).
  unfold Binding.NewOwnerBinding, Binding.Sign in Hb. cbv zeta in Hb. res_inv. cbn. rewrite Ht in *.
  split_and!; try done.
Qed.

Lemma shared_accepts t :
  ∃ owner, invite_accepts i (UTC (clock t)) pipeID b owner (Public k_auth).
Proof.
  pose proof (sb_invite _ _ _ _ _ _ _ _ _ _ _ _ _ Hsh) as Hi. destruct shared_binding as (Ep & Eq & Ee & _).
  destruct (minted_invite_accepts _ _ _ _ _ _ _ _ (UTC (clock t)) Hi (random_good n)) as [owner Ha].
  - exact (clock_set m).
  - rewrite Ep. apply Haddr.
  - by rewrite Eq.
  - rewrite Ee. lia.
  - pose proof (ck_spread Hck m t). pose proof (ck_spread Hck t m). cbn [unix_ns UTC].
    unfold DefaultInviteTTL, MaxClockSkew, Minute, Second in *. lia.
  - by exists owner.
Qed.

Lemma shared_invite :
  Invite.DecodeInvite enc = Ok i ∧ Invite.AudiencePipeID i = pipeID ∧ Invite.Issuer i = PublicString (Public k_auth) ∧
  redemptionAddress i = Ok address ∧ NewJTI (Ok (random 16 n)) = Ok (Invite.JTI i) ∧
  Invite.ExpiresAt i = Add (UTC (clock m)) DefaultInviteTTL ∧ 0 < slen (Invite.Binding i) ≤ MaxBytes.
Proof.
  pose proof (sb_invite _ _ _ _ _ _ _ _ _ _ _ _ _ Hsh) as Hi.
  assert (Hwire : InviteFacts.wire_invite i).
  { eapply minted_invite_wire; [exact Hi|apply random_good|apply clock_years| |lia]. by apply ck_years. }
  destruct (shared_accepts 0) as [owner Ha]. destruct shared_binding as (Ep & _).
  destruct (NewExactInvite_inv _ _ _ _ _ _ _ _ Hi) as (o & benc & jti & msg & _ & _ & _ & _ & _ & _ & _ & Hj & Ei & _).
  split; [eapply InviteFacts.DecodeInvite_Encode; [done|apply (sb_encoded _ _ _ _ _ _ _ _ _ _ _ _ _ Hsh)]|].
  destruct (ia_binding _ _ _ _ _ _ Ha) as (Hsz & Hdec & _).
  split; [by rewrite Ei|]. split; [by rewrite Ei|]. split; [|split; [by rewrite Ei|split; [by rewrite Ei|done]]].
  destruct Haddr as (_ & Ht & Hc & Hbl). unfold redemptionAddress. rewrite Hdec.
  rewrite (proj2 (seqb_false _ _)) by (intros E; rewrite E in Hsz; by destruct Hsz). cbn [refuse mbind res_bind relabel].
  rewrite Ep. rewrite (proj2 (seqb_false _ _)) by (intros E; rewrite E in Hbl; by vm_compute in Hbl).
  cbn [refuse mbind res_bind]. rewrite Hc, Hbl. cbn [refuse mbind res_bind]. by rewrite Ht.
Qed.

Lemma shared_verifies wall t : Invite.Verify wall i (UTC (clock t)) pipeID = Ok tt.
Proof.
  destruct (shared_accepts t) as [owner Ha]. eapply invite_verify_complete. unfold effective_now.
  change (IsZero (UTC (clock t))) with (IsZero (clock t)). rewrite (clock_set t). exact Ha.
Qed.

(** ** Redeeming it *)
Context (secrets' : string) (life : duration) (Hlife : Minute ≤ life) (Hsize : slen enc ≤ 8192).
Let h : handler := newHandler secrets pipeID life.
Let path : string := connect_key_file secrets' pipeID.

(** Nothing was recorded under an identifier that the random source still yields. *)
Context (Hfresh : ∀ n jti, NewJTI (Ok (random 16 n)) = Ok jti →
           IsRevoked (n_relations (w_owner w)) pipeID "exact.invite" jti = Ok false ∧
           redemption_of (n_relations (w_owner w)) jti pipeID = None).

Lemma lifetime_long t :
  Minute ≤ bootstrap_lifetime (cap_ttl life) (Add (UTC (clock m)) DefaultInviteTTL) (UTC (clock t)).
Proof.
  pose proof (ck_spread Hck m t). pose proof (ck_spread Hck t m). unfold bootstrap_lifetime, Sub, cap_ttl, Add.
  cbn [unix_ns UTC]. unfold DefaultInviteTTL, MaxTTL, max_duration, min_duration, MaxClockSkew, Minute, Second in *.
  repeat case_match; lia.
Qed.

(** Redeeming writes no revocation. *)
Lemma wire_revocations load_owner load provision hd sec wall now rc rs rj inv rcp d :
  revocations (run_redemption_wire load_owner load provision hd sec wall now rc rs rj inv rcp d).2 = revocations d.
Proof.
  unfold run_redemption_wire. repeat first [case_match|done]. cbn [snd].
  match goal with E : redemption_answer _ _ _ _ _ _ _ _ _ _ _ = _ |- _ => rename E into Ha end.
  unfold redemption_answer in Ha. cbv zeta in Ha. destruct (_ <~ _; _) as [[pf loader]|]; [|by simplify_eq].
  match type of Ha with context [RedeemExactInvite ?a ?b ?c ?d ?e ?f ?g ?h ?i ?j ?k ?l ?m] =>
    destruct (RedeemExactInvite a b c d e f g h i j k l m) as [rr dd] eqn:Er end.
  assert (Hd : revocations dd = revocations d).
  { destruct (redeem_cases _ _ _ _ _ _ _ _ _ _ _ _ _ _ _ Er) as [[_ ->]|(xi & xa & xs & _ & Hacc & _)]; [done|].
    cbn [as_RedeemInviteAndAccept ExactAuthorityRevocationState] in Hacc.
    match type of Hacc with RedeemInviteAndAccept ?j ?p ?s ?c ?e ?n ?d0 = _ =>
      destruct (Accept_cases j p s c e n d0) as [[er E]|[(_ & _ & E)|(r0 & _ & _ & E)]] end; rewrite E in Hacc; by simplify_eq. }
  destruct rr; by simplify_eq.
Qed.

Lemma redeem_gives k w2 (Q : Lease.AccessLease → world → Prop) :
  w_owner w2 = w_owner w1 → n_keys (w_peer w2) !! path = Some k →
  (∀ lease n2 n3 w3,
     Lease.NewAccessLease (Ok (random 16 n3)) k_auth (PublicString (Public k)) pipeID (UTC (clock n2))
       (bootstrap_lifetime (cap_ttl life) (Invite.ExpiresAt i) (UTC (clock n2))) epoch = Ok lease →
     w_peer w3 = w_peer w2 → n_keys (w_owner w3) = n_keys (w_owner w1) →
     holder (n_relations (w_owner w3)) (Invite.JTI i) pipeID = Some (PublicString (Public k)) →
     revocations (n_relations (w_owner w3)) = revocations (n_relations (w_owner w)) →
     Q lease w3) →
  gives (redeem_at_peer clock random generate at_peer at_owner h secrets' tt i (PublicString (Public k))) w2 Q.
Proof.
  intros Ho Hk HQ. destruct (shared_invite) as (Hdec & Haud & Hiss & _ & Hj & Hexp & _).
  destruct (sb_owner _ _ _ _ _ _ _ _ _ _ _ _ _ Hsh) as (k_owner & Hpid & Hb & Hne).
  destruct (Hfresh n _ Hj) as [Hrev Hred]. destruct Haddr as (Hasc & Htrim & _).
  unfold redeem_at_peer. rewrite Haud. fold path. cbv zeta.
  apply gives_bind. eapply (gives_attempt _ _ (Ok k) w2); [unfold load_key; cbn [look at_peer]|].
  { change (recipient_key_path secrets' pipeID) with path. by rewrite Hk. }
  apply gives_bind, gives_ret. do 2 (apply gives_bind; eapply gives_run; [reflexivity|]).
  do 3 (apply gives_bind; eapply gives_attempt; [reflexivity|]).
  cbn [w_reads w_owner w_peer]. set (w3 := mkWorld (w_owner w2) (w_peer w2) (S (S (S (S (S (w_reads w2))))))).
  destruct (honest_wire (owner_load at_owner w3) (λ _, Ok k) (λ _, Ok k) secrets secrets' k_owner k_auth k
    (Ok (random 16 n)) (Ok (random 24 (S (S (w_reads w2))))) (random 24 (S (S (w_reads w2))))
    (Ok (random 16 (S (S (S (w_reads w2)))))) (random 16 (S (S (S (w_reads w2)))))
    (Ok (random 16 (S (S (S (S (w_reads w2))))))) (random 16 (S (S (S (S (w_reads w2)))))) address protocol epoch b pipeID (UTC (clock m)) DefaultInviteTTL epoch
    i enc life (clock (w_reads w2)) (clock (S (w_reads w2))) (n_relations (w_owner w)))
    as (lease & d' & Hrun & _ & _ & _ & _ & Hh & Hl).
  - by rewrite Htrim in Hb.
  - exact (sb_invite _ _ _ _ _ _ _ _ _ _ _ _ _ Hsh).
  - exact (sb_encoded _ _ _ _ _ _ _ _ _ _ _ _ _ Hsh).
  - exact Hsize.
  - apply random_good.
  - exact (clock_set m).
  - exact Hasc.
  - exact Hproto.
  - lia.
  - exact Hepoch.
  - exact (clock_years m).
  - by apply (ck_years Hck m).
  - exact Hne.
  - exact (sb_secrets _ _ _ _ _ _ _ _ _ _ _ _ _ Hsh).
  - unfold owner_load, w3. cbn [look at_owner w_owner]. rewrite Ho, (sb_key _ _ _ _ _ _ _ _ _ _ _ _ _ Hsh). reflexivity.
  - reflexivity.
  - reflexivity.
  - exact (Hrnd 24 _).
  - reflexivity.
  - reflexivity.
  - exact (Hrnd 16 _).
  - exact (clock_set _).
  - pose proof (ck_spread Hck m (S (w_reads w2))). pose proof (ck_spread Hck (S (w_reads w2)) m). cbn [unix_ns UTC].
    unfold DefaultInviteTTL, MaxClockSkew, Minute, Second in *. lia.
  - apply clock_years.
  - apply (ck_years Hck). pose proof (bootstrap_lifetime_range (cap_ttl life) (Invite.ExpiresAt i)
      (UTC (clock (S (w_reads w2))))). lia.
  - exact Hrev.
  - exact (sb_epoch _ _ _ _ _ _ _ _ _ _ _ _ _ Hsh).
  - exact Hred.
  - eapply gives_run.
    + unfold op. change (look at_owner w3) with (w_owner w2). rewrite Ho, (sb_relations _ _ _ _ _ _ _ _ _ _ _ _ _ Hsh).
      fold h in Hrun. rewrite Hrun. reflexivity.
    + eapply HQ; [exact Hl|done| |exact Hh|].
      * unfold set_relations. cbn. by rewrite Ho.
      * change (revocations d' = revocations (n_relations (w_owner w))).
        pose proof (f_equal (λ x, revocations x.2) Hrun) as Hx. cbv beta in Hx. rewrite wire_revocations in Hx. by symmetry.
Qed.

(** ** The lease *)
Lemma lease_facts k n2 n3 lease :
  Lease.NewAccessLease (Ok (random 16 n3)) k_auth (PublicString (Public k)) pipeID (UTC (clock n2))
    (bootstrap_lifetime (cap_ttl life) (Invite.ExpiresAt i) (UTC (clock n2))) epoch = Ok lease →
  (∃ text, Lease.Encode lease = Ok text ∧ Lease.Decode text = Ok lease ∧ text ≠ "") ∧
  (∀ wall t, Lease.Verify wall lease (Public k_auth) (PublicString (Public k)) pipeID (UTC (clock t)) = Ok tt) ∧
  Lease.Subject lease = PublicString (Public k) ∧
  (Lease.AccessEpoch lease = epoch ∧ NewJTI (Ok (random 16 n3)) = Ok (Lease.JTI lease)) ∧
  zone (Lease.ExpiresAt lease) = 0 ∧ in_years (Lease.ExpiresAt lease) ∧ IsZero (Lease.ExpiresAt lease) = false ∧
  (∀ t, After (Lease.ExpiresAt lease) (clock t) = true).
Proof.
  intros Hl. destruct shared_invite as (_ & _ & _ & _ & _ & Hexp & _).
  destruct (sb_owner _ _ _ _ _ _ _ _ _ _ _ _ _ Hsh) as (k_owner & Hpid & _).
  set (l := bootstrap_lifetime _ _ _) in Hl.
  assert (Hlr : Minute ≤ l ≤ MaxTTL).
  { split; [unfold l; rewrite Hexp; apply lifetime_long|]. apply bootstrap_lifetime_range. }
  assert (Hy : in_years (Add (UTC (clock n2)) l)).
  { apply (ck_years Hck). unfold Minute, Second in Hlr. lia. }
  assert (Hsp : ∀ t, unix_ns (clock n2) - MaxClockSkew ≤ unix_ns (clock t) < unix_ns (clock n2) + l).
  { intros t. pose proof (ck_spread Hck n2 t). pose proof (ck_spread Hck t n2).
    unfold MaxClockSkew, Minute, Second in *. lia. }
  assert (Hw : LeaseFacts.wire_lease lease).
  { eapply minted_lease_wire; [exact Hl|apply random_good|rewrite Hpid; apply ascii_PipeID|apply clock_years|exact Hy|lia]. }
  assert (Hacc : ∀ t, lease_accepts lease (Public k_auth) (PublicString (Public k)) pipeID (UTC (clock t))).
  { intros t. eapply minted_lease_accepts; [exact Hl|apply random_good|apply clock_set|apply Hsp]. }
  assert (Hex : Lease.ExpiresAt lease = Add (UTC (clock n2)) l).
  { by apply NewAccessLease_inv in Hl as (? & ? & _ & _ & _ & _ & _ & -> & _). }
  split_and!.
  - rewrite Hpid in Hl. destruct (minted_lease_encodes _ _ _ _ _ _ _ _ Hl (Public_size k) (random_good n3) Hw) as [text Ht].
    exists text. split_and!; [done|by apply LeaseFacts.Decode_Encode|].
    apply encoded_safe in Ht as [_ Hpos]. intros ->. by destruct Hpos.
  - intros wall t. apply lease_verify_spec. unfold effective_now.
    change (IsZero (UTC (clock t))) with (IsZero (clock t)). rewrite clock_set. apply Hacc.
  - by apply NewAccessLease_inv in Hl as (? & ? & _ & _ & _ & _ & _ & -> & _).
  - by apply NewAccessLease_inv in Hl as (? & ? & ? & _ & _ & _ & _ & -> & _).
  - by apply NewAccessLease_inv in Hl as (? & ? & ? & _ & _ & _ & _ & -> & _).
  - by rewrite Hex.
  - by rewrite Hex.
  - rewrite Hex. unfold IsZero, Add. cbn [unix_ns UTC]. pose proof (ck_after Hck n2). unfold Minute, Second in Hlr. lia.
  - intros t. rewrite Hex. unfold After, Add. cbn [unix_ns UTC]. pose proof (Hsp t). lia.
Qed.

(** ** Accepting *)
Let u : UseCases world unit := peer_ports secrets' address h.

Definition the_binding (k : PrivateKey) (created updated : time) : RemotePipeBinding :=
  mkRemoteBinding pipeID (PublicString (Public k_auth)) (Invite.Binding i) address (PublicString (Public k)) "invite"
    created updated.

Lemma the_binding_valid k c t : RemotePipeBindingValidate (the_binding k c t) = Ok tt.
Proof.
  destruct shared_invite as (_ & _ & _ & _ & _ & _ & Hbs). destruct shared_binding as (_ & _ & _ & Hal).
  destruct (sb_owner _ _ _ _ _ _ _ _ _ _ _ _ _ Hsh) as (k_owner & Hpid & _).
  assert (Hf : ∀ s max, 0 < slen s ≤ max → missing_or_over s max = false).
  { intros s max Hs. unfold missing_or_over. rewrite (proj2 (seqb_false s "")) by (intros ->; by destruct Hs). lia. }
  assert (Hp : ∀ x, slen (PublicString (Public x)) = 43).
  { intros x. unfold PublicString. by rewrite slen_base64, Public_size. }
  assert (Ha : 0 < slen address).
  { destruct Haddr as (_ & _ & _ & Hb). pose proof (slen_nonneg address). destruct (decide (slen address = 0)) as [E|]; [|lia].
    rewrite slen_zero in E. rewrite E in Hb. by vm_compute in Hb. }
  unfold the_binding, RemotePipeBindingValidate.
  cbn [RemotePipeID AuthorityPublic OwnerBindingText Locator RecipientPublic Source].
  unfold MaxBytes, MaxRedemptionAddrLen in *.
  rewrite (Hf (PublicString (Public k_auth))), (Hf (Invite.Binding i)), (Hf address), (Hf (PublicString (Public k))) by
    (rewrite ?Hp; lia).
  rewrite Hpid, slen_PipeID, (proj2 (HasPrefix_spec _ _)) by (by eexists). reflexivity.
Qed.

(** What accepting leaves at the peer. *)
Record access_at (k : PrivateKey) (lease : Lease.AccessLease) (w3 : world) : Prop := {
  aw_lease : (∀ wall t, Lease.Verify wall lease (Public k_auth) (PublicString (Public k)) pipeID (UTC (clock t)) = Ok tt) ∧
             Lease.Subject lease = PublicString (Public k);
  aw_binding : ∃ c t, GetRemotePipeBinding (n_objects (w_peer w3)) pipeID = Ok (the_binding k c t);
  aw_cache : ∃ text, Lease.Decode text = Ok lease ∧ ∀ t,
               GetAccessLeaseCache (clock t) pipeID (n_objects (w_peer w3)) =
                 (Ok (mkLeaseCache pipeID text (Lease.ExpiresAt lease)), n_objects (w_peer w3));
  aw_holder : holder (n_relations (w_owner w3)) (Invite.JTI i) pipeID = Some (PublicString (Public k));
  aw_text : ∃ text, Lease.Encode lease = Ok text ∧ Lease.Decode text = Ok lease;
  aw_fresh : Lease.AccessEpoch lease = epoch ∧ (∃ n, NewJTI (Ok (random 16 n)) = Ok (Lease.JTI lease)) ∧
             ∀ t, After (Lease.ExpiresAt lease) (clock t) = true;
  aw_owner : n_keys (w_owner w3) = n_keys (w_owner w1) ∧
             revocations (n_relations (w_owner w3)) = revocations (n_relations (w_owner w));
  aw_key : n_keys (w_peer w3) !! path = Some k }.

(** The tables after storing the accepted binding and its lease. *)
Lemma store_gives k lease x w3 (Q : RemotePipeBinding → world → Prop) :
  (∃ text, Lease.Encode lease = Ok text ∧ Lease.Decode text = Ok lease ∧ text ≠ "") →
  zone (Lease.ExpiresAt lease) = 0 → in_years (Lease.ExpiresAt lease) → IsZero (Lease.ExpiresAt lease) = false →
  (∀ t, After (Lease.ExpiresAt lease) (clock t) = true) →
  (∀ w4 bd, w_owner w4 = w_owner w3 → n_keys (w_peer w4) = n_keys (w_peer w3) →
     pipes (n_objects (w_peer w4)) = pipes (n_objects (w_peer w3)) →
     (∃ c t, GetRemotePipeBinding (n_objects (w_peer w4)) pipeID = Ok (the_binding k c t)) →
     (∃ text, Lease.Decode text = Ok lease ∧ ∀ t,
        GetAccessLeaseCache (clock t) pipeID (n_objects (w_peer w4)) =
          (Ok (mkLeaseCache pipeID text (Lease.ExpiresAt lease)), n_objects (w_peer w4))) → Q bd w4) →
  gives (store_accepted u i address (PublicString (Public k)) lease (UTC (clock x))) w3 Q.
Proof.
  intros (text & Ht & Hdec & Hne) Hz Hy Hnz Haft HQ. destruct shared_invite as (_ & Haud & Hiss & _).
  unfold store_accepted. cbv zeta. rewrite Haud, Hiss.
  set (t4 := UTC (clock x)). change (mkRemoteBinding _ _ _ _ _ _ t4 t4) with (the_binding k t4 t4).
  apply gives_bind, gives_wrapped. eapply gives_lift; [apply the_binding_valid|].
  apply gives_bind. eapply gives_wired; [reflexivity|]. apply gives_bind, gives_wrapped.
  cbn [Bindings_Put RemotePipeBindingAdapter]. apply gives_bind. eapply gives_run; [reflexivity|].
  destruct (binding_stored (clock (w_reads w3)) (the_binding k t4 t4) (n_objects (w_peer w3)) (the_binding_valid k t4 t4)
              (clock_set x) eq_refl (clock_years x) (clock_years _)) as (d4 & Hput & Hpp & Hcc & Hget).
  eapply gives_run; [unfold writes; cbn [look at_peer w_peer]; rewrite Hput; reflexivity|].
  cbn [put at_peer w_owner w_peer w_reads]. rewrite Ht. cbn [u_LeaseCache u peer_ports Cache_Put AccessLeaseCacheAdapter].
  rewrite UTC_utc by done.
  assert (Hpn : pipeID ≠ "").
  { destruct (sb_owner _ _ _ _ _ _ _ _ _ _ _ _ _ Hsh) as (k_owner & -> & _). intros E.
    pose proof (slen_PipeID (Public k_owner)) as Hlen. by rewrite E in Hlen. }
  set (c := mkLeaseCache pipeID text (Lease.ExpiresAt lease)).
  destruct (cache_stored (clock 0) c d4 Hpn Hne Hnz Hz Hy) as (d5 & Hput5 & Hpp5 & Hrb5 & _).
  apply gives_bind. eapply gives_attempt; [unfold writes; cbn [look at_peer w_peer n_objects]; rewrite Hput5; reflexivity|].
  apply gives_ret. apply HQ; cbn [w_peer w_owner n_objects n_keys put at_peer]; [done|done|by rewrite Hpp5| |].
  - exists t4, (UTC (clock (w_reads w3))). unfold GetRemotePipeBinding in *. rewrite Hrb5. exact Hget.
  - exists text. split; [done|]. intros t.
    destruct (cache_stored (clock t) c d4 Hpn Hne Hnz Hz Hy) as (d6 & E6 & _ & _ & Hg).
    rewrite Hput5 in E6. injection E6 as <-. change pipeID with (c_RemotePipeID c) at 1. rewrite Hg.
    cbn [c_ExpiresAt c]. by rewrite Haft.
Qed.

Lemma accept_gives k w2 :
  blank secrets' = false → w_owner w2 = w_owner w1 → n_keys (w_peer w2) !! path = Some k →
  gives (acceptExactInvite u i) w2 (λ a w3, access_at k (ac_lease a) w3 ∧
    pipes (n_objects (w_peer w3)) = pipes (n_objects (w_peer w2))).
Proof.
  intros Hs Ho Hk. destruct shared_invite as (_ & Haud & Hiss & Hra & _ & _ & _). unfold acceptExactInvite.
  apply gives_bind, gives_guard; [exact Hs|]. apply gives_bind. eapply gives_run; [reflexivity|].
  apply gives_bind, gives_wrapped. rewrite Haud. eapply gives_run.
  { unfold u, peer_ports, u_Platform, platform, localkey_Provision, provision_key. cbn [u_Secrets look at_peer w_peer].
    fold path. rewrite Hk. reflexivity. }
  apply gives_bind. eapply gives_wired; [reflexivity|]. apply gives_bind. eapply gives_lift; [exact Hra|].
  apply gives_bind, gives_wrapped. eapply (gives_run _ _ tt).
  { cbn [Acquire reach_peer]. rewrite seqb_refl. reflexivity. }
  apply gives_deferred, gives_bind. unfold redeem_over. apply gives_bind. eapply gives_wired; [reflexivity|].
  apply gives_bind, gives_wrapped. apply redeem_gives; [done|done|]. intros lease n2 n3 w3 Hl Hp3 Hk3 Hh Hrv.
  destruct (lease_facts _ _ _ _ Hl) as (Ht & Hver & Hsub & [Hep Hjti] & Hz & Hy & Hnz & Haft).
  apply gives_bind, gives_wrapped. eapply gives_lift; [rewrite Hiss; apply PublicFromString_spec; split; [done|apply Public_size]|].
  apply gives_bind. eapply gives_run; [reflexivity|]. apply gives_bind, gives_wrapped. unfold verify_lease. rewrite Haud.
  apply gives_bind, wall_clock_gives. eapply gives_lift; [apply Hver|]. apply gives_ret.
  apply gives_bind, store_gives; [done..|]. intros w4 bd Ho4 Hk4 Hp4 Hb4 Hc4. apply gives_ret.
  cbn [mret M_ret snd Close reach_peer ac_lease]. split; [|by rewrite Hp4, Hp3].
  destruct Ht as (text & Ht & Hdec & _).
  constructor; [done|done|done|by rewrite Ho4|by exists text|split_and!; [done|by exists n3|done]|by rewrite Ho4|by rewrite Hk4, Hp3].
Qed.

(** ** Connecting *)
Context (listen name : string) (lref : Ref).
Context (Hlisten : blank listen = false ∧ ascii_text listen) (Hsecrets' : blank secrets' = false).
Context (Href : recipientRefFor pipeID name = Ok lref) (Hself : lref ≠ mkRef KindPipe pipeID).

Definition local_pipe (k : PrivateKey) (t : time) : PipeSpec :=
  mkPipe lref (PipeIDFromOwner (Public k)) None (mkIngress IngressLocal listen "" "" "") (mkRef KindPipe pipeID)
    VisibilityPrivate AccessInviteOnly false t t.

Lemma local_ref : RefValidate lref = Ok tt ∧ Kind lref = KindPipe.
Proof.
  assert (HN : ∀ n r, NewRef KindPipe n = Ok r → RefValidate r = Ok tt ∧ Kind r = KindPipe).
  { intros x r Hr. unfold NewRef in Hr. cbv zeta in Hr. apply bind_ok in Hr as ([] & Hv & [= <-]). done. }
  unfold recipientRefFor in Href. case_match; by eapply HN.
Qed.

Lemma pipe_name owner : RefValidate (mkRef KindPipe (PipeIDFromOwner owner)) = Ok tt.
Proof.
  apply RefValidate_ok. split; [cbn [Kind]; by apply mem_str_true|]. cbn [Name]. unfold resourceNamePattern.
  pose proof (slen_PipeID owner) as Hl. rewrite slen_bytes in Hl. revert Hl. unfold PipeIDFromOwner.
  rewrite bytes_of_app. change (bytes_of "pip_") with ["p"; "i"; "p"; "_"]%char. cbn [app].
  intros Hl. rewrite llen_cons in Hl. apply andb_true_iff. split; [|lia]. cbn [andb forallb].
  apply forallb_forall. intros c Hc. apply list_elem_of_In in Hc. revert c Hc. apply Forall_forall.
  unfold ToLower. rewrite bytes_of_of. apply Forall_map. unfold base32_encode. rewrite bytes_of_of. apply Forall_map.
  eapply Forall_impl; [by apply (digits_of_range 5); lia|]. intros v Hv.
  exact (forallb_range (λ v, name_tail (lower_char (b32_char v))) 32 v eq_refl ltac:(simpl in Hv; lia)).
Qed.

Lemma local_pipe_ok k t :
  zone t = 0 → in_years t → PipeValidate (local_pipe k t) = Ok tt ∧ wire_pipe (local_pipe k t).
Proof.
  intros Hz Hy. destruct local_ref as [Hv Hk]. destruct Hlisten as [Hb Ha].
  destruct (sb_owner _ _ _ _ _ _ _ _ _ _ _ _ _ Hsh) as (k_owner & Hpid & _).
  pose proof (pipe_name (Public k_owner)) as Hn. rewrite <- Hpid in Hn. split.
  - unfold PipeValidate, RequireKind, local_pipe. cbn [p_Ref p_Target p_Scope p_Ingress p_Visibility p_Access in_Kind in_Listen].
    rewrite Hv. cbn [mbind res_bind]. rewrite Hk, Hn. cbn [mbind res_bind].
    rewrite bool_decide_eq_false_2 by (by intros E). cbn [Kind]. rewrite Hb. reflexivity.
  - apply RefValidate_ok in Hv as [_ Hname]. apply RefValidate_ok in Hn as [_ Hname'].
    assert (HA : ∀ x, ascii_textb x = true → ascii_text x) by apply ascii_textb_true.
    constructor; cbn [local_pipe p_Ref p_PipeID p_Scope p_Ingress p_Target p_Visibility p_Access p_CreatedAt p_UpdatedAt];
      try done; try (by apply HA).
    + split; [rewrite Hk; by apply HA|by apply name_ascii].
    + apply ascii_PipeID.
    + constructor; cbn [in_Kind in_Listen in_Host in_Path in_Protocol]; try done; by apply HA.
    + split; [by apply HA|by apply name_ascii].
Qed.

(** The key the peer uses: the one it has, or a new one. *)
Definition peer_key (w2 : world) : PrivateKey := default (generate path) (n_keys (w_peer w2) !! path).

Lemma provision_gives w2 (Q : PrivateKey → world → Prop) :
  (∀ w3, w_owner w3 = w_owner w2 → n_objects (w_peer w3) = n_objects (w_peer w2) →
     n_keys (w_peer w3) !! path = Some (peer_key w2) → Q (peer_key w2) w3) →
  gives (localkey_Provision (u_Platform u) path) w2 Q.
Proof.
  intros HQ. unfold u, peer_ports, u_Platform, platform, localkey_Provision, provision_key, gives, peer_key in *.
  cbn [look at_peer]. destruct (n_keys (w_peer w2) !! path) as [k|] eqn:E.
  - exists k, w2. split; [done|]. by apply HQ.
  - eexists _, _. split; [reflexivity|]. apply HQ; cbn; [done|done|]. by rewrite lookup_insert_eq.
Qed.

(** The reference and the identifier are both free at the peer. *)
Definition room (w2 : world) : Prop :=
  find_pipe (n_objects (w_peer w2)) (RefString lref) = None ∧
  find_pipe (n_objects (w_peer w2)) (PipeIDFromOwner (Public (peer_key w2))) = None.

Lemma absent_gives id w2 :
  find_pipe (n_objects (w_peer w2)) id = None →
  ∃ e, Pipes_Get (u_Pipes u) id w2 = (Fail e, w2) ∧ errors_Is e ErrNotFound = true.
Proof.
  intros Hf. eexists. cbn [u_Pipes u peer_ports Pipes_Get PipeRepoAdapter]. unfold wrapped, reads, Pipe.
  cbn [look at_peer]. rewrite Hf. cbn [need mbind res_bind]. split; reflexivity.
Qed.

Lemma plan_gives k w2 (Q : PipeSpec * string * bool → world → Prop) :
  find_pipe (n_objects (w_peer w2)) (RefString lref) = None →
  find_pipe (n_objects (w_peer w2)) (PipeIDFromOwner (Public k)) = None →
  (∀ t w3, w_owner w3 = w_owner w2 → w_peer w3 = w_peer w2 → Q (local_pipe k (UTC (clock t)), path, false) w3) →
  gives (connect_plan u (mkConnect enc "" listen name) pipeID (PublicString (Public k)) path) w2 Q.
Proof.
  intros Hr Hi HQ. unfold connect_plan. apply gives_bind, gives_wrapped. eapply gives_lift; [exact Href|].
  apply gives_bind. eapply gives_run; [reflexivity|]. cbv zeta.
  assert (Hpub : recipientPublicBytes (PublicString (Public k)) = Public k).
  { unfold recipientPublicBytes. by rewrite (proj2 (PublicFromString_spec _ (Public k)) (conj eq_refl (Public_size k))). }
  rewrite Hpub. set (w3 := mkWorld _ _ _).
  destruct (absent_gives (RefString lref) w3 Hr) as (e & Hg & He).
  destruct (absent_gives (PipeIDFromOwner (Public k)) w3 Hi) as (e' & Hg' & He').
  apply gives_bind. eapply gives_attempt; [exact Hg|]. cbv beta iota. rewrite He.
  apply gives_bind. eapply gives_attempt; [exact Hg'|]. cbv beta iota. rewrite He'. apply gives_ret. by apply HQ.
Qed.

Lemma cache_other_table now id d c m' :
  GetAccessLeaseCache now id d = (Ok c, d) → GetAccessLeaseCache now id (set_pipes d m') = (Ok c, set_pipes d m').
Proof.
  unfold GetAccessLeaseCache. cbn [exact_lease_cache set_pipes]. intros Hg. repeat case_match; try done. by simplify_eq.
Qed.

Lemma upsert_gives k t w2 (Q : bool → world → Prop) :
  pipes (n_objects (w_peer w2)) !! RefString lref = None →
  taken pp_pipe_id (PipeIDFromOwner (Public k)) (pipes (n_objects (w_peer w2))) = false →
  (∀ w3, (∀ lease, access_at k lease w2 → access_at k lease w3) →
     Pipe (n_objects (w_peer w3)) (RefString lref) = Ok (local_pipe k (UTC (clock t)), path, "") → Q true w3) →
  gives (Pipes_Upsert (u_Pipes u) (local_pipe k (UTC (clock t))) path) w2 Q.
Proof.
  intros Hr Ht HQ. destruct (local_pipe_ok k (UTC (clock t)) eq_refl (clock_years t)) as [Hv Hw].
  destruct (pipe_text _ Hw) as (text & Hm & Hu).
  cbn [u_Pipes u peer_ports Pipes_Upsert PipeRepoAdapter]. eapply gives_run.
  { unfold writes, PutPipe. cbn [look at_peer]. rewrite Hv. cbn [mbind res_bind]. rewrite Hm.
    change (p_Ref (local_pipe k (UTC (clock t)))) with lref.
    change (p_PipeID (local_pipe k (UTC (clock t)))) with (PipeIDFromOwner (Public k)). rewrite Hr, Ht. reflexivity. }
  apply HQ.
  - intros lease [Hl Hb Hc Hh]. constructor; cbn [put at_peer w_peer w_owner n_objects n_keys]; [done|exact Hb| |done..].
    destruct Hc as (txt & Hd & Hc). exists txt. split; [done|]. intros x. by apply cache_other_table.
  - cbn [put at_peer w_peer n_objects].
    apply (Pipe_stored _ _ (mkPipeRow (Name lref) (PipeIDFromOwner (Public k)) text path "") _ text);
      [cbn [pipes set_pipes]; by rewrite lookup_insert_eq|reflexivity|exact Hw|exact Hm].
Qed.

Lemma connect_gives w2 :
  w_owner w2 = w_owner w1 → room w2 →
  gives (ConnectExact u (mkConnect enc "" listen name)) w2 (λ c w3, ∃ k lease t,
    k = peer_key w2 ∧ access_at k lease w3 ∧
    c = mkConnected lref (PipeIDFromOwner (Public k)) pipeID listen ∧
    Pipe (n_objects (w_peer w3)) (RefString lref) = Ok (local_pipe k (UTC (clock t)), path, "")).
Proof.
  intros Ho [Hr Hi]. destruct shared_invite as (Hdec & Haud & _). destruct Hlisten as [Hb _].
  assert (Henc : (enc <>s "") = true).
  { apply negb_true_iff, seqb_false. intros ->. by apply decode_invite_nonempty in Hdec. }
  unfold ConnectExact. apply gives_bind. unfold connect_input. cbn [cn_LocalListen cn_Invite cn_RemotePipeID].
  apply gives_bind, gives_guard; [exact Hb|]. apply gives_bind, gives_guard; [exact Hsecrets'|].
  apply gives_bind, gives_guard; [by rewrite Henc, seqb_refl|].
  apply gives_bind, gives_guard; [apply negb_true_iff in Henc; by rewrite Henc|]. eapply gives_wired; [reflexivity|].
  apply gives_bind. unfold connect_target. cbn [cn_Invite]. rewrite Henc. apply gives_bind. unfold decode_verified_invite.
  apply gives_bind, gives_wrapped. eapply gives_lift; [exact Hdec|]. apply gives_bind. eapply gives_run; [reflexivity|].
  apply gives_bind, gives_wrapped. unfold verify_invite. rewrite Haud. apply gives_bind, wall_clock_gives.
  eapply gives_lift; [apply shared_verifies|]. apply gives_ret. cbv zeta. rewrite Haud. apply gives_bind, gives_wrapped.
  cbn [u_Secrets u peer_ports]. fold path. apply provision_gives. intros w3 Ho3 Hd3 Hk3. apply gives_ret.
  change (peer_key (mkWorld _ _ _)) with (peer_key w2) in *. cbn [w_owner w_peer] in Ho3, Hd3.
  apply gives_bind.
  apply (plan_gives (peer_key w2)); [by rewrite Hd3|by rewrite Hd3|]. intros t w4 Ho4 Hp4.
  apply gives_bind. cbn [connect_access]. apply gives_bind. eapply gives_mono.
  { apply (accept_gives (peer_key w2) w4 Hsecrets'); [congruence|by rewrite Hp4]. }
  intros a w5 [Ha Hp5]. apply gives_ret, gives_bind, gives_wrapped, upsert_gives.
  - rewrite Hp5, Hp4, Hd3. by apply find_pipe_none.
  - rewrite Hp5, Hp4, Hd3. by apply find_pipe_none.
  - intros w6 H6 Hpipe. apply gives_ret. exists (peer_key w2), (ac_lease a), t. split_and!; [done|by apply H6|done|done].
Qed.

(** ** Acquiring it again *)
Lemma acquire_gives k lease w2 :
  access_at k lease w2 →
  gives (AcquireAcceptedPipeAccess u pipeID) w2 (λ a w3,
    a = mkAccess pipeID address (PublicString (Public k_auth)) lease ∧ w_owner w3 = w_owner w2 ∧ w_peer w3 = w_peer w2).
Proof.
  intros [[Hv _] (c & t & Hb) (text & Hd & Hc) _ _ _ _ _]. unfold AcquireAcceptedPipeAccess.
  apply gives_bind, gives_guard.
  { destruct (sb_owner _ _ _ _ _ _ _ _ _ _ _ _ _ Hsh) as (k_owner & -> & _). apply pipe_id_not_blank. }
  apply gives_bind. unfold load_binding. apply gives_bind. eapply gives_wired; [reflexivity|].
  apply gives_bind, gives_wrapped. eapply (gives_run _ _ (the_binding k c t)).
  { cbn [Bindings_Get RemotePipeBindingAdapter]. unfold reads. cbn [look at_peer]. rewrite Hb. reflexivity. }
  apply gives_bind, gives_wrapped. eapply gives_lift; [apply the_binding_valid|].
  apply gives_bind, gives_wrapped. eapply (gives_lift _ (Public k_auth)).
  { apply PublicFromString_spec. split; [reflexivity|apply Public_size]. }
  apply gives_ret. apply gives_bind. eapply gives_run; [reflexivity|]. apply gives_bind. unfold cached_lease.
  cbn [u_LeaseCache u peer_ports]. apply gives_bind. eapply gives_attempt.
  { cbn [Cache_Get AccessLeaseCacheAdapter]. unfold mbind at 1, M_bind at 1, read_clock at 1, writes.
    cbn [look at_peer w_peer w_reads w_owner]. rewrite Hc. reflexivity. }
  cbn [mbind res_bind c_AccessLease]. rewrite Hd. apply gives_bind. eapply gives_attempt.
  { unfold verify_lease, wall_clock. match goal with |- context [IsZero (UTC ?t)] => change (IsZero (UTC t)) with (IsZero t) end.
    rewrite clock_set. unfold mbind at 1, M_bind at 1, mret, M_ret, lift. cbn [RecipientPublic the_binding w_reads w_owner]. rewrite Hv. reflexivity. }
  apply gives_ret, gives_bind, gives_ret, gives_ret. split; [done|].
  cbn [put at_peer w_owner w_peer w_reads]. split; [done|]. by destruct w2 as [? [? ? ?] ?].
Qed.
End invite.
End steady.

(** ** Attaching *)

(** The Pipe that [Attach] stores. *)
Definition attached_pipe (service : ServiceSpec) (ref : Ref) (pipeID : string) (created updated : time) : PipeSpec :=
  mkPipe ref pipeID None (mkIngress IngressTubo "" "" "" "raw") (svc_Ref service) VisibilityUnlisted AccessInviteOnly
    false created updated.

(** What [Attach] did, when it succeeded. *)
Record attached_by (u : UseCases world unit) (name target : string) (w w1 : world) (r : AttachResult)
    (service : ServiceSpec) (ref : Ref) (spec : PipeSpec) (file : string) (d1 : objects) : Prop := {
  ab_service : serviceSpecFromTarget name target = Ok service ∧ blank name = false ∧ blank target = false;
  ab_ref : NewRef KindPipe name = Ok ref;
  ab_put : PutService service (n_objects (w_owner w)) = (Ok (at_Created r), d1);
  ab_pipe : PutPipe spec file "" d1 = (Ok (at_PipeCreated r), n_objects (w_owner w1));
  ab_spec : (∃ old grant, Pipe d1 (RefString ref) = Ok (old, file, grant) ∧
               spec = attached_pipe service ref (p_PipeID old) (p_CreatedAt old) (p_UpdatedAt old)) ∨
            (∃ k n, find_pipe d1 (RefString ref) = None ∧
               spec = attached_pipe service ref (PipeIDFromOwner (Public k)) (UTC (clock n)) (UTC (clock n)));
  ab_result : r = mkAttached (svc_Ref service) ref (p_PipeID spec) (at_Created r) (at_PipeCreated r);
  ab_key : ∃ k, n_keys (w_owner w1) !! path_of [u_Secrets u; "pipes"; Name ref +:+ ".key"] = Some k;
  ab_secrets : blank (u_Secrets u) = false }.

Lemma attach_run secrets address protocol name target w r w1 :
  let u := owner_ports secrets address protocol in
  Attach u name target w = (Ok r, w1) →
  ∃ service ref spec file d1, attached_by u name target w w1 r service ref spec file d1.
Proof.
  intros u Ha. unfold Attach in Ha. apply bind_run in Ha as (x & w0 & Hg & Ha). apply guard_run in Hg as [Hg <-].
  apply orb_false_elim in Hg as [Hbn Hbt].
  apply bind_run in Ha as (service & w0 & Hs & Ha). apply wrapped_run, lift_run in Hs as [Hs <-].
  apply bind_run in Ha as (created & w2 & Hu & Ha). apply wrapped_run in Hu.
  apply bind_run in Ha as (ref & w0 & Hr & Ha). apply wrapped_run, lift_run in Hr as [Hr <-].
  apply bind_run in Ha as ([owner file] & w3 & Ho & Ha). apply wrapped_run in Ho. unfold ownerKey in Ho.
  apply bind_run in Ho as (y & w0 & Hg & Ho). apply guard_run in Hg as [Hsec <-].
  apply bind_run in Ho as (k & wk & Hk & Ho). injection Ho as -> <- ->.
  apply bind_run in Ha as (t & w4 & Hn & Ha). injection Hn as <- <-. cbv zeta in Ha.
  apply bind_run in Ha as (existing & w0 & Hg & Ha). apply attempt_run in Hg.
  cbn [u_Services u owner_ports Services_Upsert ServiceRepoAdapter] in Hu. unfold writes in Hu. cbn [look at_owner put] in Hu.
  destruct (PutService service (n_objects (w_owner w))) as [rs d1] eqn:Ep. injection Hu as -> <-.
  destruct (provision_key_run _ _ _ _ Hk) as (Hkey & _).
  assert (Hobj : n_objects (w_owner w3) = d1).
  { cbn [u_Platform u owner_ports platform localkey_Provision] in Hk. unfold provision_key in Hk. cbn [look at_owner put] in Hk.
    repeat case_match; by simplify_eq. }
  cbn [u_Pipes u owner_ports Pipes_Get Pipes_Upsert PipeRepoAdapter] in Hg, Ha. unfold wrapped, reads in Hg.
  cbn [look at_owner w_owner] in Hg. rewrite Hobj in Hg.
  apply bind_run in Ha as ([spec file'] & w5 & Hsp & Ha). apply bind_run in Ha as (pc & w6 & Hput & Ha).
  apply wrapped_run in Hput. injection Ha as <- <-. unfold writes in Hput. cbn [look at_owner put] in Hput.
  destruct (Pipe d1 (RefString ref)) as [[[old key] grant]|e] eqn:EP; cbn [mbind res_bind] in Hg; injection Hg as <- <-.
  - injection Hsp as <- <- <-. cbn [w_owner] in Hput. rewrite Hobj in Hput.
    destruct (PutPipe _ _ _ d1) as [rp d2] eqn:Epp. injection Hput as -> <-.
    eexists service, ref, _, key, d1. constructor; cbn [at_Created at_PipeCreated w_owner n_objects n_keys];
      [done|done|exact Ep|exact Epp| |done|by eexists|done]. left. eauto.
  - destruct (errors_Is _ _) eqn:Ee; [|by inversion Hsp]. injection Hsp as <- <- <-. cbn [w_owner] in Hput. rewrite Hobj in Hput.
    destruct (PutPipe _ _ _ d1) as [rp d2] eqn:Epp. injection Hput as -> <-.
    eexists service, ref, _, _, d1. constructor; cbn [at_Created at_PipeCreated w_owner n_objects n_keys];
      [done|done|exact Ep|exact Epp| |done|by eexists|done]. right. exists owner, (w_reads w3). split; [|done].
    by eapply Pipe_absent.
Qed.

Lemma name_ref kind x r : NewRef kind x = Ok r → RefValidate r = Ok tt ∧ Kind r = kind ∧ ascii_text (Name r).
Proof.
  unfold NewRef. cbv zeta. intros Hr. apply bind_ok in Hr as ([] & Hv & [= <-]). split; [done|]. split; [done|].
  apply RefValidate_ok in Hv as [_ Hn]. by apply name_ascii.
Qed.

(** The stored Pipe is found again with the fields that [Attach] keeps. *)
Lemma attached_again u name target w w1 r service ref spec file d1 :
  attached_by u name target w w1 r service ref spec file d1 → (∀ n, in_years (UTC (clock n))) →
  taken pp_pipe_id (RefString ref) (pipes d1) = false →
  ∃ old file' grant, Pipe (n_objects (w_owner w1)) (RefString ref) = Ok (old, file', grant) ∧
    spec = attached_pipe service ref (p_PipeID old) (p_CreatedAt old) (p_UpdatedAt old).
Proof.
  intros [(Hs & _) Hr _ Hp Hsp _ _ _] Hy Ht. destruct (name_ref _ _ _ Hr) as (_ & Hk & Hn).
  destruct Hsp as [(old & grant & Ho & ->)|(k & n & Hf & ->)].
  - exists old, file, grant. split; [|done].
    assert (Hd : n_objects (w_owner w1) = d1); [|by rewrite Hd].
    destruct (pipes d1 !! RefString ref) as [row|] eqn:Er.
    + unfold PutPipe in Hp. destruct (PipeValidate _); [|done]. cbn [mbind res_bind] in Hp.
      destruct (marshal _ _) as [text|]; [|done]. cbv zeta in Hp. cbn [p_Ref attached_pipe] in Hp. rewrite Er in Hp.
      destruct (pp_spec row =s text); [|done]. rewrite seqb_refl in Hp. by injection Hp.
    + exfalso. unfold Pipe, find_pipe in Ho. rewrite Er in Ho. apply bind_ok in Ho as (row & Ho & _). apply need_ok in Ho.
      destruct (List.filter _ _) as [|[q y] l] eqn:El; [done|].
      assert (Hin : In (q, y) ((q, y) :: l)) by by left. rewrite <- El in Hin. apply filter_In in Hin as [Hin Hid].
      apply list_elem_of_In, elem_of_map_to_list in Hin. apply seqb_true in Hid.
      by apply (proj1 (taken_false _ _ _) Ht _ _ Hin).
  - destruct (PutPipe_row _ _ _ _ _ _ Hp) as (text & x & Hm & Hx & Hxt & _).
    eexists _, _, _. split; [eapply Pipe_stored; [exact Hx|exact Hxt| |exact Hm]|done].
    assert (Hsr : wire_ref (svc_Ref service)).
    { unfold serviceSpecFromTarget in Hs. apply bind_ok in Hs as (sref & Hsr & Hs). cbv zeta in Hs.
      apply bind_ok in Hs as (_ & _ & [= <-]). destruct (name_ref _ _ _ Hsr) as (_ & Hk' & Hn'). cbn [svc_Ref].
      split; [rewrite Hk'; by apply ascii_textb_true|done]. }
    constructor; cbn [attached_pipe p_Ref p_PipeID p_Scope p_Ingress p_Target p_Visibility p_Access p_CreatedAt p_UpdatedAt];
      try done; try (by apply ascii_textb_true).
    + split; [rewrite Hk; by apply ascii_textb_true|done].
    + apply ascii_PipeID.
    + constructor; by apply ascii_textb_true.
Qed.

(** Attaching again is harmless. When [Attach] succeeded, repeating it succeeds with the
    same Service, the same Pipe and the same Pipe identifier, reports that neither was
    created, and leaves both nodes as they were: their tables, their relations and their key
    files. *)
Lemma attach_repeats secrets address protocol name target w r w1 :
  let u := owner_ports secrets address protocol in
  Attach u name target w = (Ok r, w1) → (∀ n, in_years (UTC (clock n))) →
  taken pp_pipe_id (RefString (at_PipeRef r)) (pipes (n_objects (w_owner w))) = false →
  ∃ w2, Attach u name target w1 = (Ok (mkAttached (at_ServiceRef r) (at_PipeRef r) (at_PipeID r) false false), w2) ∧
    w_owner w2 = w_owner w1 ∧ w_peer w2 = w_peer w1.
Proof.
  intros u Ha Hy Ht. destruct (attach_run _ _ _ _ _ _ _ _ Ha) as (service & ref & spec & file & d1 & Hby).
  pose proof (ab_put _ _ _ _ _ _ _ _ _ _ _ Hby) as Hps. pose proof (ab_result _ _ _ _ _ _ _ _ _ _ _ Hby) as Hres.
  pose proof (ab_pipe _ _ _ _ _ _ _ _ _ _ _ Hby) as Hpp.
  assert (Hd1 : pipes d1 = pipes (n_objects (w_owner w))).
  { change d1 with (Ok (at_Created r), d1).2. rewrite <- Hps. apply PutService_pipes. }
  assert (Hsv : services (n_objects (w_owner w1)) = services d1).
  { change (n_objects (w_owner w1)) with (Ok (at_PipeCreated r), n_objects (w_owner w1)).2. rewrite <- Hpp.
    apply PutPipe_services. }
  destruct (attached_again _ _ _ _ _ _ _ _ _ _ _ Hby Hy) as (old & file' & grant & Hpipe & Hspec).
  { rewrite Hd1. by rewrite Hres in Ht. }
  destruct (ab_service _ _ _ _ _ _ _ _ _ _ _ Hby) as (Hs & Hbn & Hbt). destruct (ab_key _ _ _ _ _ _ _ _ _ _ _ Hby) as [k Hk].
  enough (gives (Attach u name target) w1 (λ a w2, a = mkAttached (svc_Ref service) ref (p_PipeID spec) false false ∧
            w_owner w2 = w_owner w1 ∧ w_peer w2 = w_peer w1)) as (a & w2 & Hrun & -> & ? & ?).
  { exists w2. rewrite Hres. done. }
  unfold Attach. apply gives_bind, gives_guard; [by rewrite Hbn, Hbt|].
  apply gives_bind, gives_wrapped. eapply gives_lift; [exact Hs|]. apply gives_bind, gives_wrapped. eapply gives_run.
  { cbn [u_Services u owner_ports Services_Upsert ServiceRepoAdapter]. unfold writes. cbn [look at_owner].
    rewrite (PutService_again _ _ _ _ _ Hps Hsv). reflexivity. }
  apply gives_bind, gives_wrapped. eapply gives_lift; [exact (ab_ref _ _ _ _ _ _ _ _ _ _ _ Hby)|].
  apply gives_bind, gives_wrapped. unfold ownerKey. apply gives_bind, gives_guard; [exact (ab_secrets _ _ _ _ _ _ _ _ _ _ _ Hby)|].
  apply gives_bind. eapply (gives_run _ _ k).
  { cbn [u_Platform u owner_ports platform localkey_Provision]. unfold provision_key. cbn [look at_owner put w_owner n_keys].
    cbn [u_Secrets u owner_ports] in Hk |- *. rewrite Hk. reflexivity. }
  apply gives_ret. apply gives_bind. eapply gives_run; [reflexivity|]. cbv zeta.
  apply gives_bind. eapply gives_attempt.
  { cbn [u_Pipes u owner_ports Pipes_Get PipeRepoAdapter]. unfold wrapped, reads. cbn [look at_owner put w_owner n_objects].
    rewrite Hpipe. reflexivity. }
  cbv beta iota. apply gives_bind, gives_ret. apply gives_bind, gives_wrapped.
  change (mkPipe ref (p_PipeID old) _ _ _ _ _ _ _ _) with
    (attached_pipe service ref (p_PipeID old) (p_CreatedAt old) (p_UpdatedAt old)). rewrite <- Hspec. eapply gives_run.
  { cbn [u_Pipes u owner_ports Pipes_Upsert PipeRepoAdapter]. unfold writes. cbn [look at_owner put w_owner n_objects].
    rewrite (PutPipe_again _ _ _ _ _ _ Hpp). reflexivity. }
  apply gives_ret. split; [done|]. cbn [put at_owner w_owner w_peer n_relations n_keys]. by destruct (w_owner w1).
Qed.

(** ** From a shared Pipe to a connection *)

(** What the owner's side brings: one plain address, a lease lifetime of a minute at least,
    an epoch within the store's range, and identifiers that were not used before. *)
Record sharing (address protocol : string) (life : duration) (pipeID : string) (d : relations) : Prop := {
  sh_address : plain_address address;
  sh_protocol : ascii_text protocol;
  sh_life : Minute ≤ life;
  sh_epoch : ∀ e, RevocationEpoch d pipeID "pipe-access" pipeID = Ok e → 0 ≤ e < 2 ^ 63;
  sh_fresh : ∀ n jti, NewJTI (Ok (random 16 n)) = Ok jti →
               IsRevoked d pipeID "exact.invite" jti = Ok false ∧ redemption_of d jti pipeID = None }.

(** What the connecting side brings: a listener, a directory for its keys, and a name and an
    identity that no Pipe of its store has. *)
Record connecting (secrets' listen name pipeID : string) (lref : Ref) (peer : node) : Prop := {
  cg_listen : blank listen = false ∧ ascii_text listen;
  cg_secrets : blank secrets' = false;
  cg_ref : recipientRefFor pipeID name = Ok lref ∧ lref ≠ mkRef KindPipe pipeID;
  cg_free : find_pipe (n_objects peer) (RefString lref) = None;
  cg_identity : ∀ k, k = default (generate (connect_key_file secrets' pipeID))
                           (n_keys peer !! connect_key_file secrets' pipeID) →
                 find_pipe (n_objects peer) (PipeIDFromOwner (Public k)) = None }.

End journey.

(** ** Samples *)
Import SampleKeys.
#[local] Existing Instance sample_parsers.
Definition day_clock (n : nat) : time := noon.
Definition letters (size n : nat) : string := of_bytes (replicate size "a"%char).
Definition make_key (path : string) : string := authority_key.

Definition shop_pipe : PipeSpec :=
  mkPipe (mkRef KindPipe "shop") pipe None (mkIngress IngressTubo "" "" "" "raw") (mkRef KindService "web")
    VisibilityUnlisted AccessInviteOnly false noon noon.
Definition shop_world : world (H := keys) :=
  mkWorld (H := keys)
    (mkNode (H := keys) (PutPipe shop_pipe "owner.key" "" no_objects).2 no_relations {[ "owner.key" := owner_key ]})
    (mkNode (H := keys) no_objects no_relations {[ connect_key_file client_dir pipe := "recipient" ]}) 0.
#[local] Abbreviation shop_share :=
  (ShareExact (H := keys) (owner_ports (H := keys) day_clock letters make_key owner_dir "peer-a" "/tubo/redeem/1")
     "pipe/shop" shop_world).
Definition shop_shared : ShareExactResult := Eval vm_compute in
  match shop_share.1 with Ok r => r | Fail _ => mkShared (mkRef "" "") "" "" zero_time end.

Lemma shop_share_ok : shop_share = (Ok shop_shared, shop_share.2).
Proof.
  assert (E : shop_share.1 = Ok shop_shared) by (vm_cast_no_check (eq_refl (Ok shop_shared))).
  rewrite (surjective_pairing shop_share) at 1. rewrite E. reflexivity.
Qed.

Lemma day_clock_steady : steady_clock day_clock.
Proof.
  constructor; intros n.
  - by vm_compute.
  - intros l Hl. apply (in_years_between (UTC noon) _ (Add (UTC noon) MaxTTL)); [done|done| | |].
    + unfold Add, day_clock. cbn [unix_ns UTC]. lia.
    + apply noon_years.
    + vm_compute. split; discriminate.
  - intros m. unfold day_clock, MaxClockSkew, Second. lia.
Qed.

Lemma letters_size size n : slen (letters size n) = Z.of_nat size.
Proof. unfold letters. rewrite slen_of_bytes. unfold llen. by rewrite length_replicate. Qed.

Lemma shop_sharing : sharing letters "peer-a" "/tubo/redeem/1" (5 * Minute) pipe no_relations.
Proof.
  constructor.
  - split; [by apply ascii_textb_true|]. split; [by vm_compute|]. split; [by vm_compute|by vm_compute].
  - by apply ascii_textb_true.
  - by vm_compute.
  - intros e. unfold RevocationEpoch, select_epoch. cbn [revocations no_relations]. rewrite lookup_empty.
    intros [= <-]. lia.
  - intros n jti _. split; [|done]. unfold IsRevoked. cbn [revocations no_relations]. rewrite lookup_empty.
    by rewrite bool_decide_eq_false_2 by (by intros [? ?]).
Qed.

Lemma shop_connecting :
  connecting (H := keys) make_key client_dir "127.0.0.1:8080" "shop-copy" pipe (mkRef KindPipe "shop-copy") (w_peer shop_world).
Proof.
  constructor.
  - split; [by vm_compute|by apply ascii_textb_true].
  - by vm_compute.
  - split; [by vm_compute|discriminate].
  - vm_cast_no_check (eq_refl (@None pipe_row)).
  - intros k _. unfold find_pipe. cbn [n_objects w_peer shop_world no_objects pipes]. rewrite lookup_empty.
    vm_cast_no_check (eq_refl (@None pipe_row)).
Qed.

(** ** Quiet operations of the nodes *)

(** The tables of both nodes are the same, and no key file is lost or changed. *)
Definition same_tables `{Ed25519} (w w' : world) : Prop :=
  (n_objects (w_owner w') = n_objects (w_owner w) ∧ n_objects (w_peer w') = n_objects (w_peer w) ∧
   n_relations (w_owner w') = n_relations (w_owner w) ∧ n_relations (w_peer w') = n_relations (w_peer w)) ∧
  n_keys (w_owner w) ⊆ n_keys (w_owner w') ∧ n_keys (w_peer w) ⊆ n_keys (w_peer w').
#[export] Instance same_tables_preorder `{Ed25519} : PreOrder same_tables.
Proof.
  split; [by intros w|]. intros w w1 w2 [(? & ? & ? & ?) [? ?]] [(? & ? & ? & ?) [? ?]].
  split; [split_and!; congruence|split; by etrans].
Qed.

Lemma provision_peer `{Ed25519} generate path w r w' : provision_key generate at_peer path w = (r, w') →
  same_tables w w' ∧ ∃ k, r = Ok k ∧ n_keys (w_peer w') !! path = Some k ∧ ∀ k', n_keys (w_peer w) !! path = Some k' → k = k'.
Proof.
  unfold provision_key. cbn [look put at_peer]. destruct (n_keys (w_peer w) !! path) as [k|] eqn:E; intros [= <- <-].
  - split; [done|]. exists k. split_and!; [done|done|congruence].
  - split; [|exists (generate path); cbn; by rewrite lookup_insert_eq].
    split; [done|]. split; [done|]. cbn. by apply insert_subseteq.
Qed.

Lemma peer_quiet `{Ed25519} `{NetParsers} clock random generate secrets address h :
  quiet_platform (peer_ports clock random generate secrets address h) same_tables ∧
  (∀ id, within same_tables (Pipes_Get (u_Pipes (peer_ports clock random generate secrets address h)) id)) ∧
  stable (peer_ports clock random generate secrets address h) same_tables.
Proof.
  split_and!; [constructor|..|constructor]; try done.
  - intros path w. cbn [localkey_Provision u_Platform peer_ports platform].
    destruct (provision_key generate at_peer path w) as [r w'] eqn:E. by apply provision_peer in E as [? _].
  - intros path k k' w w1 w2 w3 H1 [_ [_ Hk]] H2. cbn [localkey_Provision u_Platform peer_ports platform] in H1, H2.
    apply provision_peer in H1 as (_ & ? & [= <-] & Hk1 & _). apply provision_peer in H2 as (_ & ? & [= <-] & _ & Hk2).
    apply Hk2. by eapply lookup_weaken.
  - intros bindings id b b' w w1 w2 [= <-] H1 H2. cbn [Bindings_Get RemotePipeBindingAdapter] in H1, H2.
    unfold reads in H1, H2. injection H1 as H1 <-. injection H2 as H2 _. congruence.
Qed.

#[local] Abbreviation shop_ports :=
  (peer_ports (H := keys) day_clock letters make_key client_dir "peer-a" (newHandler owner_dir pipe (5 * Minute))).
#[local] Abbreviation shop_input := (mkConnect (sr_Invite shop_shared) "" "127.0.0.1:8080" "shop-copy").
#[local] Abbreviation shop_connect := (ConnectExact (H := keys) shop_ports shop_input shop_share.2).
Definition shop_connected : ConnectExactResult := Eval vm_compute in
  match shop_connect.1 with Ok r => r | Fail _ => mkConnected (mkRef "" "") "" "" "" end.

Lemma shop_connect_ok : shop_connect = (Ok shop_connected, shop_connect.2).
Proof.
  assert (E : shop_connect.1 = Ok shop_connected) by (vm_cast_no_check (eq_refl (Ok shop_connected))).
  rewrite (surjective_pairing shop_connect) at 1. rewrite E. reflexivity.
Qed.

(** With the invite that was shared, connecting goes all the way. *)
Lemma connect_checks_first_witness :
  ∃ bindings target pub file invite wt spec file' known w1 w2,
    resolved (H := keys) shop_ports shop_input shop_share.2 target pub file (Some invite) wt ∧
    connects shop_input target pub spec ∧
    placed (H := keys) shop_ports shop_input wt target pub file spec file' known w1 ∧
    same_tables (H := keys) shop_share.2 w1 ∧
    granted (H := keys) shop_ports bindings target pub (Some invite) w1 w2.
Proof.
  destruct (peer_quiet (H := keys) day_clock letters make_key client_dir "peer-a" (newHandler owner_dir pipe (5 * Minute)))
    as (Hq & Hg & Hst).
  destruct (connect_checks_first (H := keys) _ same_tables _ _ _ _ Hq Hg Hst shop_connect_ok)
    as [[[e He] _]|(bindings & target & pub & file & invite & wt & spec & file' & known & w1 & _ & _ & Hres & Hc & Hp & HR & Hm)].
  { discriminate He. }
  destruct (connect_access (H := keys) _ bindings target pub invite w1) as [[x|e] w2]; [|destruct Hm as [Hm _]; discriminate Hm].
  destruct invite as [invite|]; [|destruct Hres as [_ [Hres _]]; discriminate Hres].
  exists bindings, target, pub, file, invite, wt, spec, file', known, w1, w2. destruct Hm as [Hm _].
  split; [exact Hres|]. split; [exact Hc|]. split; [exact Hp|]. split; [exact HR|exact Hm].
Defined.

Definition empty_world : world (H := keys) :=
  mkWorld (H := keys) (mkNode (H := keys) no_objects no_relations ∅) (mkNode (H := keys) no_objects no_relations ∅) 0.
#[local] Abbreviation shop_attach :=
  (Attach (H := keys) (owner_ports (H := keys) day_clock letters make_key owner_dir "peer-a" "/tubo/redeem/1")
     "shop" "http://127.0.0.1:80" empty_world).
Definition shop_attached : AttachResult := Eval vm_compute in
  match shop_attach.1 with Ok r => r | Fail _ => mkAttached (mkRef "" "") (mkRef "" "") "" false false end.

Lemma attach_repeats_witness :
  ∃ w2, Attach (H := keys) (owner_ports (H := keys) day_clock letters make_key owner_dir "peer-a" "/tubo/redeem/1")
     "shop" "http://127.0.0.1:80" shop_attach.2
   = (Ok (mkAttached (at_ServiceRef shop_attached) (at_PipeRef shop_attached) (at_PipeID shop_attached) false false), w2) ∧
   w_owner w2 = w_owner shop_attach.2.
Proof.
  assert (Ha : shop_attach = (Ok shop_attached, shop_attach.2)).
  { assert (E : shop_attach.1 = Ok shop_attached) by (vm_cast_no_check (eq_refl (Ok shop_attached))).
    rewrite (surjective_pairing shop_attach) at 1. rewrite E. reflexivity. }
  assert (Ht : taken pp_pipe_id (RefString (at_PipeRef shop_attached)) (pipes (n_objects (w_owner empty_world))) = false).
  { apply taken_false. intros k x E. cbn in E. by rewrite lookup_empty in E. }
  destruct (attach_repeats (H := keys) day_clock letters make_key owner_dir "peer-a" "/tubo/redeem/1" "shop" "http://127.0.0.1:80"
    empty_world shop_attached shop_attach.2 Ha (λ _, proj1 noon_years) Ht) as (w2 & Hr & Ho & _).
  exists w2. split; [exact Hr|exact Ho].
Defined.
