(* ===== verification/ScopeTokens.v ===== *)
(** * Scope tokens and discovery records

    [internal/authority/token.go] in the module [Tokens]: the signed tokens of a scope
    (membership and share invites, publish grants, access and refresh leases), their wire
    form and possession proofs. [internal/discovery/record.go] in the module [Records]: the
    record by which the owner of a Pipe announces it, signed with the owner's key and
    carrying a publish grant of the scope's authority.

    [crypto/rand] and [time.Now] are arguments. *)
From S2P Require Import Prelude GoStrings GoTime Encoding Json JsonRoundTrip JsonTree Sha256.
From S2P Require Import Credentials Domain StoreRelations StoreSync StoreObjects.
Open Scope Z_scope.

(** ** Slices that remember nil

    A nil slice is written [null] and an empty one [[]]; both have no elements. *)
Definition gslice (A : Type) : Type := option (list A).
Definition elems {A} (s : gslice A) : list A := default [] s.

Definition gslice_codec {A} (c : codec A) : codec (gslice A) :=
  mkCodec None (λ s, match s with None => Ok JNull | Some l => js ← put_elems c l; Ok (JArr js) end)
    (λ strict j old, match j with
                     | JArr l => xs ← take_elems c strict l (elems old); Some (Some xs)
                     | JNull => Some None
                     | _ => None
                     end).

#[export] Instance Scope_eq_dec : EqDecision Scope.
Proof. solve_decision. Defined.
Definition same_scope (a b : Scope) : bool := bool_decide (a = b).

(** One value without unknown members at the front of a text, by [Decoder.Decode]. *)
Definition decode_one {A} (c : codec A) (l : list ascii) : option (A * list ascii) :=
  '(j, r) ← decode_value l; a ← c_take c true j (c_zero c); Some (a, r).

(** [struct{}]. *)
Definition empty_struct : codec unit := struct_codec tt [].

Definition over (max : Z) (s : string) : bool := max <? slen s.

(** ** [internal/authority] *)
Module Tokens.
Definition MaxTokenSize : Z := Z.shiftl 48 10.
Definition AccessLeaseTTL : duration := 10 * Minute.
Definition RefreshLeaseTTL : duration := 48 * (60 * Minute).

Record PipeEndpoint := mkEndpoint {
  ep_PeerID : string; ep_Addresses : gslice string; ep_Protocol : string }.
Definition PipeEndpoint_codec : codec PipeEndpoint := struct_codec (mkEndpoint "" None "") [
  mkField string_codec "peer_id" ep_PeerID
    (λ x '(mkEndpoint _ b c), mkEndpoint x b c) always;
  mkField (gslice_codec string_codec) "addresses" ep_Addresses
    (λ x '(mkEndpoint a _ c), mkEndpoint a x c) always;
  mkField string_codec "protocol" ep_Protocol
    (λ x '(mkEndpoint a b _), mkEndpoint a b x) always].

Record Token := mkToken {
  Version : Z; Type_ : string; Issuer : string; Subject : string; Audience : string; InScope : Scope;
  Role : string; JTI : string; IssuedAt : time; ExpiresAt : time; AuthorityAddress : string;
  NamespaceKey : string; OneTime : bool; Endpoint : option PipeEndpoint; DisplayNameHint : string;
  AccessEpoch : Z; PublishEpoch : Z; Signature : string }.

Definition no_token : Token :=
  mkToken 0 "" "" "" "" (mkScope "" "") "" "" zero_time zero_time "" "" false None "" 0 0 "".

Definition Token_codec : codec Token := struct_codec no_token [
  mkField int_codec "version" Version
    (λ x '(mkToken _ b c d e f g h i j k l m n o p q r), mkToken x b c d e f g h i j k l m n o p q r) always;
  mkField string_codec "type" Type_
    (λ x '(mkToken a _ c d e f g h i j k l m n o p q r), mkToken a x c d e f g h i j k l m n o p q r) always;
  mkField string_codec "issuer" Issuer
    (λ x '(mkToken a b _ d e f g h i j k l m n o p q r), mkToken a b x d e f g h i j k l m n o p q r) always;
  mkField string_codec "subject" Subject
    (λ x '(mkToken a b c _ e f g h i j k l m n o p q r), mkToken a b c x e f g h i j k l m n o p q r) always;
  mkField string_codec "audience" Audience
    (λ x '(mkToken a b c d _ f g h i j k l m n o p q r), mkToken a b c d x f g h i j k l m n o p q r) empty_str;
  mkField Scope_codec "scope" InScope
    (λ x '(mkToken a b c d e _ g h i j k l m n o p q r), mkToken a b c d e x g h i j k l m n o p q r) always;
  mkField string_codec "role" Role
    (λ x '(mkToken a b c d e f _ h i j k l m n o p q r), mkToken a b c d e f x h i j k l m n o p q r) empty_str;
  mkField string_codec "jti" JTI
    (λ x '(mkToken a b c d e f g _ i j k l m n o p q r), mkToken a b c d e f g x i j k l m n o p q r) always;
  mkField time_codec "issued_at" IssuedAt
    (λ x '(mkToken a b c d e f g h _ j k l m n o p q r), mkToken a b c d e f g h x j k l m n o p q r) always;
  mkField time_codec "expires_at" ExpiresAt
    (λ x '(mkToken a b c d e f g h i _ k l m n o p q r), mkToken a b c d e f g h i x k l m n o p q r) always;
  mkField string_codec "authority_address" AuthorityAddress
    (λ x '(mkToken a b c d e f g h i j _ l m n o p q r), mkToken a b c d e f g h i j x l m n o p q r) empty_str;
  mkField string_codec "namespace_key" NamespaceKey
    (λ x '(mkToken a b c d e f g h i j k _ m n o p q r), mkToken a b c d e f g h i j k x m n o p q r) empty_str;
  mkField bool_codec "one_time" OneTime
    (λ x '(mkToken a b c d e f g h i j k l _ n o p q r), mkToken a b c d e f g h i j k l x n o p q r) negb;
  mkField (pointer_codec PipeEndpoint_codec) "pipe_endpoint" Endpoint
    (λ x '(mkToken a b c d e f g h i j k l m _ o p q r), mkToken a b c d e f g h i j k l m x o p q r) empty_ptr;
  mkField string_codec "display_name_hint" DisplayNameHint
    (λ x '(mkToken a b c d e f g h i j k l m n _ p q r), mkToken a b c d e f g h i j k l m n x p q r) empty_str;
  mkField uint_codec "access_epoch" AccessEpoch
    (λ x '(mkToken a b c d e f g h i j k l m n o _ q r), mkToken a b c d e f g h i j k l m n o x q r) empty_int;
  mkField uint_codec "publish_epoch" PublishEpoch
    (λ x '(mkToken a b c d e f g h i j k l m n o p _ r), mkToken a b c d e f g h i j k l m n o p x r) empty_int;
  mkField string_codec "signature" Signature
    (λ x '(mkToken a b c d e f g h i j k l m n o p q _), mkToken a b c d e f g h i j k l m n o p q x) always].

(** Assignments to fields. *)
Definition set_issuer (x : string) '(mkToken a b _ d e f g h i j k l m n o p q r) : Token :=
  mkToken a b x d e f g h i j k l m n o p q r.
Definition set_role (x : string) '(mkToken a b c d e f _ h i j k l m n o p q r) : Token :=
  mkToken a b c d e f x h i j k l m n o p q r.
Definition set_expires (x : time) '(mkToken a b c d e f g h i _ k l m n o p q r) : Token :=
  mkToken a b c d e f g h i x k l m n o p q r.
Definition set_address (x : string) '(mkToken a b c d e f g h i j _ l m n o p q r) : Token :=
  mkToken a b c d e f g h i j x l m n o p q r.
Definition set_one_time (x : bool) '(mkToken a b c d e f g h i j k l _ n o p q r) : Token :=
  mkToken a b c d e f g h i j k l x n o p q r.
Definition set_endpoint (x : option PipeEndpoint) '(mkToken a b c d e f g h i j k l m _ o p q r) : Token :=
  mkToken a b c d e f g h i j k l m x o p q r.
Definition set_hint (x : string) '(mkToken a b c d e f g h i j k l m n _ p q r) : Token :=
  mkToken a b c d e f g h i j k l m n x p q r.
Definition set_access_epoch (x : Z) '(mkToken a b c d e f g h i j k l m n o _ q r) : Token :=
  mkToken a b c d e f g h i j k l m n o x q r.
Definition set_publish_epoch (x : Z) '(mkToken a b c d e f g h i j k l m n o p _ r) : Token :=
  mkToken a b c d e f g h i j k l m n o p x r.
Definition set_signature (x : string) '(mkToken a b c d e f g h i j k l m n o p q _) : Token :=
  mkToken a b c d e f g h i j k l m n o p q x.

Definition NewToken (rnd : entropy) (now : time) (kind : string) (scope : Scope) (subject audience : string)
    (lifetime : duration) : res Token :=
  jti ← randomID rnd "jti_";
  let now := UTC now in
  Ok (mkToken 2 kind "" subject audience scope "" jti now (Add now lifetime) "" "" false None "" 0 0 "").

Definition signingBytes (t : Token) : res string := marshal Token_codec (set_signature "" t).

Definition Sign `{Ed25519} (t : Token) (private : PrivateKey) : res Token :=
  let t := set_issuer (base64_encode (Public private)) t in
  message ← signingBytes t;
  Ok (set_signature (base64_encode (SignMsg private message)) t).

(** The bounds on the published routing material. *)
Definition bad_endpoint (e : PipeEndpoint) : bool :=
  (ep_PeerID e =s "") || (ep_Protocol e =s "") || over 8192 (ep_PeerID e) || over 8192 (ep_Protocol e)
  || (llen (elems (ep_Addresses e)) =? 0) || (64 <? llen (elems (ep_Addresses e)))
  || existsb (λ a, (slen a =? 0) || over 8192 a) (elems (ep_Addresses e)).

Definition Verify `{Ed25519} (wall : time) (t : Token) (public : string) (now : time) : res unit :=
  _ ← refuse (negb (Version t =? 2)) (errorf "unsupported token version");
  _ ← refuse ((slen (Subject t) =? 0) || over 8192 (Subject t) || (slen (JTI t) =? 0) || over 8192 (JTI t)
              || over 8192 (Audience t) || over 8192 (DisplayNameHint t)) (errorf "invalid token metadata");
  _ ← refuse (match Endpoint t with Some e => bad_endpoint e | None => false end) (errorf "invalid pipe endpoint");
  _ ← refuse ((Type_ t =s "share.invite")
              && (negb (OneTime t) || (Audience t =s "") || empty_ptr (Endpoint t))) (errorf "invalid share invite");
  _ ← refuse ((Type_ t =s "connect.refresh") && (Audience t =s "")) (errorf "invalid refresh lease");
  _ ← ScopeValidate (InScope t);
  _ ← refuse (IsZero (IssuedAt t) || negb (After (ExpiresAt t) (IssuedAt t))) (errorf "invalid token lifetime");
  let now := if IsZero now then UTC wall else now in
  _ ← refuse (negb (Before now (ExpiresAt t))) (errorf "token expired");
  _ ← refuse (After (IssuedAt t) (Add now (30 * Second))) (errorf "token issued in future");
  _ ← refuse (Issuer t <>s base64_encode public) (errorf "token issuer does not match pinned authority");
  signature ← need (base64_decode (Signature t)) (errorf "invalid token signature encoding");
  _ ← refuse (negb (slen signature =? SignatureSize)) (errorf "invalid token signature encoding");
  message ← signingBytes t;
  refuse (negb (VerifyMsg public message signature)) (errorf "invalid token signature").

Definition Encode (t : Token) : res string :=
  data ← marshal Token_codec t;
  let encoded := base64_encode data in
  _ ← refuse (over MaxTokenSize encoded) (errorf "token exceeds 48 KiB encoded field");
  Ok encoded.

(** What follows the token is refused only when it reads as an empty object. *)
Definition Decode (encoded : string) : res Token :=
  _ ← refuse (over MaxTokenSize encoded) (errorf "token exceeds encoded limit");
  data ← need (base64_decode encoded) (errorf "invalid token encoding");
  _ ← refuse (over MaxTokenSize data) (errorf "token exceeds 48 KiB");
  '(value, rest) ← need (decode_one Token_codec (bytes_of data)) (errorf "invalid token");
  _ ← refuse (bool_decide (is_Some (decode_one empty_struct rest))) (errorf "trailing token payload");
  Ok value.

Definition PublicString (public : string) : string := base64_encode public.

Definition PublicFromString (value : string) : res string :=
  data ← need (base64_decode value) (errorf "invalid Ed25519 public key");
  _ ← refuse (negb (slen data =? PublicKeySize)) (errorf "invalid Ed25519 public key");
  Ok data.

Definition PipeID (public : string) : string :=
  "pip_" +:+ ToLower (base32_encode (of_bytes (take 20 (bytes_of (sha256 public))))).

Definition SessionID (rnd : entropy) : res string := randomID rnd "ses_".

Definition SignProof `{Ed25519} (private : PrivateKey) (purpose : string) (parts : list string) : string :=
  base64_encode (SignMsg private (proof_message purpose parts)).

Definition VerifyProof `{Ed25519} (public signature purpose : string) (parts : list string) : bool :=
  match base64_decode signature with
  | Some value => VerifyMsg public (proof_message purpose parts) value
  | None => false
  end.
End Tokens.

(** ** [internal/discovery] *)
Module Records.
Definition MaxRecordSize : Z := Z.shiftl 64 10.

Record PipeRecord := mkPipeRecord {
  Version : Z; PipeID : string; DisplayName : string; OwnerPublicKey : string; RuntimePeerID : string;
  InScope : Scope; Protocol : string; Capabilities : gslice string; Addresses : gslice string;
  Visibility : string; Access : string; PublishGrant : string; IssuedAt : time; ExpiresAt : time;
  Sequence : Z; Signature : string }.

Definition no_record : PipeRecord :=
  mkPipeRecord 0 "" "" "" "" (mkScope "" "") "" None None "" "" "" zero_time zero_time 0 "".

Definition PipeRecord_codec : codec PipeRecord := struct_codec no_record [
  mkField int_codec "version" Version
    (λ x '(mkPipeRecord _ b c d e f g h i j k l m n o p), mkPipeRecord x b c d e f g h i j k l m n o p) always;
  mkField string_codec "pipe_id" PipeID
    (λ x '(mkPipeRecord a _ c d e f g h i j k l m n o p), mkPipeRecord a x c d e f g h i j k l m n o p) always;
  mkField string_codec "display_name" DisplayName
    (λ x '(mkPipeRecord a b _ d e f g h i j k l m n o p), mkPipeRecord a b x d e f g h i j k l m n o p) empty_str;
  mkField string_codec "owner_public_key" OwnerPublicKey
    (λ x '(mkPipeRecord a b c _ e f g h i j k l m n o p), mkPipeRecord a b c x e f g h i j k l m n o p) always;
  mkField string_codec "runtime_peer_id" RuntimePeerID
    (λ x '(mkPipeRecord a b c d _ f g h i j k l m n o p), mkPipeRecord a b c d x f g h i j k l m n o p) always;
  mkField Scope_codec "scope" InScope
    (λ x '(mkPipeRecord a b c d e _ g h i j k l m n o p), mkPipeRecord a b c d e x g h i j k l m n o p) always;
  mkField string_codec "protocol" Protocol
    (λ x '(mkPipeRecord a b c d e f _ h i j k l m n o p), mkPipeRecord a b c d e f x h i j k l m n o p) always;
  mkField (gslice_codec string_codec) "capabilities" Capabilities
    (λ x '(mkPipeRecord a b c d e f g _ i j k l m n o p), mkPipeRecord a b c d e f g x i j k l m n o p) always;
  mkField (gslice_codec string_codec) "addresses" Addresses
    (λ x '(mkPipeRecord a b c d e f g h _ j k l m n o p), mkPipeRecord a b c d e f g h x j k l m n o p) always;
  mkField string_codec "visibility" Visibility
    (λ x '(mkPipeRecord a b c d e f g h i _ k l m n o p), mkPipeRecord a b c d e f g h i x k l m n o p) always;
  mkField string_codec "access" Access
    (λ x '(mkPipeRecord a b c d e f g h i j _ l m n o p), mkPipeRecord a b c d e f g h i j x l m n o p) always;
  mkField string_codec "publish_grant" PublishGrant
    (λ x '(mkPipeRecord a b c d e f g h i j k _ m n o p), mkPipeRecord a b c d e f g h i j k x m n o p) always;
  mkField time_codec "issued_at" IssuedAt
    (λ x '(mkPipeRecord a b c d e f g h i j k l _ n o p), mkPipeRecord a b c d e f g h i j k l x n o p) always;
  mkField time_codec "expires_at" ExpiresAt
    (λ x '(mkPipeRecord a b c d e f g h i j k l m _ o p), mkPipeRecord a b c d e f g h i j k l m x o p) always;
  mkField uint_codec "sequence" Sequence
    (λ x '(mkPipeRecord a b c d e f g h i j k l m n _ p), mkPipeRecord a b c d e f g h i j k l m n x p) always;
  mkField string_codec "signature" Signature
    (λ x '(mkPipeRecord a b c d e f g h i j k l m n o _), mkPipeRecord a b c d e f g h i j k l m n o x) always].

Definition set_owner (x : string) '(mkPipeRecord a b c _ e f g h i j k l m n o p) : PipeRecord :=
  mkPipeRecord a b c x e f g h i j k l m n o p.
Definition set_signature (x : string) '(mkPipeRecord a b c d e f g h i j k l m n o _) : PipeRecord :=
  mkPipeRecord a b c d e f g h i j k l m n o x.

Definition signingBytes (r : PipeRecord) : res string := marshal PipeRecord_codec (set_signature "" r).

Definition Sign `{Ed25519} (r : PipeRecord) (private : PrivateKey) : res PipeRecord :=
  let r := set_owner (base64_encode (Public private)) r in
  message ← signingBytes r;
  Ok (set_signature (base64_encode (SignMsg private message)) r).

Definition Marshal (r : PipeRecord) : res string :=
  data ← marshal PipeRecord_codec r;
  _ ← refuse (over MaxRecordSize data) (errorf "record exceeds 64 KiB");
  Ok data.

Definition Parse (data : string) : res PipeRecord :=
  _ ← refuse (over MaxRecordSize data) (errorf "record exceeds 64 KiB");
  '(r, rest) ← need (decode_one PipeRecord_codec (bytes_of data)) (errorf "json");
  _ ← refuse (negb (bool_decide (skip_ws rest = []))) (errorf "trailing record payload");
  Ok r.

Definition published_visibility (v : string) : bool := (v =s VisibilityDiscoverable) || (v =s VisibilityUnlisted).
Definition access_hint (a : string) : bool := (a =s AccessInviteOnly) || (a =s AccessMembers) || (a =s AccessPublic).

Definition Verify `{Ed25519} (wall : time) (r : PipeRecord) (authorityPublic : string) (scope : Scope) (now : time)
    : res unit :=
  _ ← refuse (negb (Version r =? 2)) (errorf "unsupported record version");
  _ ← refuse (negb (same_scope (InScope r) scope)) (errorf "record scope mismatch");
  _ ← ScopeValidate (InScope r);
  _ ← refuse ((llen (elems (Addresses r)) =? 0) || (16 <? llen (elems (Addresses r)))
              || (64 <? llen (elems (Capabilities r)))) (errorf "invalid record bounds");
  _ ← refuse (negb (published_visibility (Visibility r))) (errorf "invalid published visibility");
  _ ← refuse (negb (access_hint (Access r))) (errorf "invalid access policy hint");
  _ ← refuse (Sequence r =? 0) (errorf "record sequence is required");
  _ ← refuse (existsb (over 8192) (elems (Addresses r))) (errorf "record address exceeds limit");
  _ ← refuse (negb (After (ExpiresAt r) (IssuedAt r)) || negb (Before now (ExpiresAt r))
              || After (IssuedAt r) (Add now (30 * Second)))
        (errorf "record lifetime invalid, expired, or issued in future");
  owner ← Tokens.PublicFromString (OwnerPublicKey r);
  _ ← refuse (Tokens.PipeID owner <>s PipeID r) (errorf "pipe_id does not match owner key");
  signature ← need (base64_decode (Signature r)) (errorf "invalid record signature encoding");
  message ← signingBytes r;
  _ ← refuse (negb (VerifyMsg owner message signature)) (errorf "invalid record owner signature");
  grant ← with_prefix "publish grant: " (Tokens.Decode (PublishGrant r));
  _ ← with_prefix "publish grant: " (Tokens.Verify wall grant authorityPublic now);
  _ ← refuse ((Tokens.Type_ grant <>s "pipe.publish") || (Tokens.Audience grant <>s PipeID r)
              || negb (same_scope (Tokens.InScope grant) (InScope r))) (errorf "publish grant binding mismatch");
  refuse (After (ExpiresAt r) (Tokens.ExpiresAt grant)) (errorf "record outlives publish grant").
End Records.
