(* ===== verification/ScopeTokenFacts.v ===== *)
(** * Properties of scope tokens and discovery records

    Tokens and records are read back as they were written; verification is a declarative
    condition that stays true until the expiry; what an authority or an owner signs is
    accepted. *)
From S2P Require Import Prelude GoStrings GoTime Encoding Json JsonRoundTrip JsonTree Sha256.
From S2P Require Import Credentials CredentialFacts CredentialVerify Domain DomainFacts.
From S2P Require Import StoreRelations StoreSync StoreObjects StoreObjectFacts ScopeTokens.
Open Scope Z_scope.

(** ** Reading what was written *)
Lemma reads_gslice {A} (c : codec A) h s :
  Forall (reads c h) (elems s) → reads (gslice_codec c) (S h) s.
Proof.
  destruct s as [l|]; intros HF; [|exists JNull; split; [done|]; split; [constructor|done]].
  destruct (put_elems_reads c h l HF) as (js & Hp & Hs & Ht). exists (JArr js).
  cbn [c_put gslice_codec c_take c_zero]. rewrite Hp. split; [done|]. split; [by constructor|].
  intros strict. change (elems (@None (list A))) with (@nil A). by rewrite Ht.
Qed.

Lemma reads_gtexts h s : Forall ascii_text (elems s) → reads (gslice_codec string_codec) (S h) s.
Proof. intros Hl. apply reads_gslice. eapply Forall_impl; [exact Hl|]. intros x. apply reads_string. Qed.
#[export] Hint Resolve reads_gtexts : codecs.

(** [Decoder.Decode] of a written value. *)
Lemma decode_one_show {A} (c : codec A) h a j r :
  c_put c a = Ok j → shown h j → (∀ strict, c_take c strict j (c_zero c) = Some a) →
  (h ≤ maxNestingDepth)%nat → sep r → decode_one c (show j ++ r) = Some (a, r).
Proof.
  intros _ Hs Ht Hh Hr. unfold decode_one. rewrite (decode_show h) by done. cbn [mbind option_bind]. by rewrite Ht.
Qed.

Lemma decode_one_marshal {A} (c : codec A) h a s :
  reads c h a → (h ≤ 100)%nat → marshal c a = Ok s → decode_one c (bytes_of s) = Some (a, []).
Proof.
  intros (j & Hp & Hs & Ht) Hh Hm. unfold marshal in Hm. rewrite Hp in Hm. cbn [mbind res_bind] in Hm.
  apply Ok_inj in Hm. subst s. rewrite bytes_of_of, <- (app_nil_r (show j)).
  apply (decode_one_show c h a); [done|done|done|by apply maxNestingDepth_small|done].
Qed.

Lemma decode_one_nil {A} (c : codec A) : decode_one c [] = None.
Proof. unfold decode_one, decode_value. generalize maxNestingDepth. by intros []. Qed.

Definition wire_scope (s : Scope) : Prop := ascii_text (Cluster s) ∧ ascii_text (Namespace s).

Lemma reads_scope h s : wire_scope s → reads Scope_codec (S h) s.
Proof. intros [Hc Hn]. apply reads_struct; [solve_shape|solve_reads]. Qed.
#[export] Hint Resolve reads_scope : codecs.

Lemma valid_scope_wire s : ScopeValidate s = Ok tt → wire_scope s.
Proof.
  assert (P : ∀ x, resourceNamePattern x = true → ascii_text x).
  { intros x [_ HF]%pattern_chars. eapply Forall_impl; [exact HF|]. intros c Hc%name_tail_plain. lia. }
  unfold ScopeValidate. intros H. apply bind_ok in H as (u & H1%refuse_ok & H2%refuse_ok).
  apply negb_false_iff in H1, H2. split; by apply P.
Qed.

Module TokenFacts.
Import Tokens.

Record wire_endpoint (e : PipeEndpoint) : Prop := {
  we_peer : ascii_text (ep_PeerID e);
  we_addresses : Forall ascii_text (elems (ep_Addresses e));
  we_protocol : ascii_text (ep_Protocol e);
}.
Lemma reads_endpoint h e : wire_endpoint e → reads PipeEndpoint_codec (S (S h)) e.
Proof. intros [Hp Ha Hr]. apply reads_struct; [solve_shape|solve_reads]. Qed.

(** Tokens whose fields JSON carries unchanged. *)
Record wire_token (t : Token) : Prop := {
  wt_version : - 2 ^ 63 ≤ Version t < 2 ^ 63;
  wt_texts : Forall ascii_text [Type_ t; Issuer t; Subject t; Audience t; Role t; JTI t; AuthorityAddress t;
                                NamespaceKey t; DisplayNameHint t; Signature t];
  wt_scope : wire_scope (InScope t);
  wt_issued : time_field (IssuedAt t);
  wt_expires : time_field (ExpiresAt t);
  wt_endpoint : ∀ e, Endpoint t = Some e → wire_endpoint e;
  wt_access : 0 ≤ AccessEpoch t < 2 ^ 64;
  wt_publish : 0 ≤ PublishEpoch t < 2 ^ 64;
}.

Lemma reads_token t : wire_token t → reads Token_codec 4 t.
Proof.
  intros [Hv Ht Hs [Hi1 Hi2] [He1 He2] Hp Ha Hu]. rewrite !Forall_cons in Ht.
  destruct Ht as (? & ? & ? & ? & ? & ? & ? & ? & ? & ? & _).
  assert (reads (pointer_codec PipeEndpoint_codec) 3 (Endpoint t)).
  { apply reads_pointer. intros e He. split; [by apply reads_endpoint, Hp|apply struct_not_null]. }
  apply reads_struct; [solve_shape|solve_reads].
Qed.

Lemma token_Decode_Encode t e : wire_token t → Encode t = Ok e → Decode e = Ok t.
Proof.
  intros Hw E. unfold Encode in E. apply bind_ok in E as (data & Hd & E). cbv zeta in E.
  apply bind_ok in E as (u & Hb%refuse_ok & E). apply Ok_inj in E. subst e.
  unfold Decode. pass; [exact Hb|]. pass; [apply base64_decode_encode|].
  pass; [unfold over in *; pose proof (base64_longer data); lia|].
  pass; [apply (decode_one_marshal Token_codec 4 t data); [by apply reads_token|lia|exact Hd]|].
  cbv beta iota. pass; [by rewrite decode_one_nil|]. reflexivity.
Qed.

(** ** What verification accepts *)
Record good_endpoint (e : PipeEndpoint) : Prop := {
  ge_peer : 0 < slen (ep_PeerID e) ≤ 8192;
  ge_protocol : 0 < slen (ep_Protocol e) ≤ 8192;
  ge_count : 0 < llen (elems (ep_Addresses e)) ≤ 64;
  ge_addresses : Forall (λ a, 0 < slen a ≤ 8192) (elems (ep_Addresses e));
}.

(** The conditions on the fields that do not depend on the time. *)
Record token_shape (t : Token) : Prop := {
  tf_version : Version t = 2;
  tf_subject : 0 < slen (Subject t) ≤ 8192;
  tf_jti : 0 < slen (JTI t) ≤ 8192;
  tf_audience : slen (Audience t) ≤ 8192;
  tf_hint : slen (DisplayNameHint t) ≤ 8192;
  tf_endpoint : ∀ e, Endpoint t = Some e → good_endpoint e;
  tf_share : Type_ t = "share.invite" → OneTime t = true ∧ Audience t ≠ "" ∧ is_Some (Endpoint t);
  tf_refresh : Type_ t = "connect.refresh" → Audience t ≠ "";
  tf_scope : ScopeValidate (InScope t) = Ok tt;
  tf_issued : IsZero (IssuedAt t) = false;
  tf_lifetime : unix_ns (IssuedAt t) < unix_ns (ExpiresAt t);
}.

(** A token of this shape that the key signed. *)
Record token_form `{Ed25519} (t : Token) (public : string) : Prop := {
  tf_shape : token_shape t;
  tf_issuer : Issuer t = base64_encode public;
  tf_signed : ∃ s m, base64_decode (Signature t) = Some s ∧ slen s = SignatureSize ∧
                     signingBytes t = Ok m ∧ VerifyMsg public m s = true;
}.

(** The window in which a token counts. *)
Definition token_live (t : Token) (now : time) : Prop :=
  unix_ns (IssuedAt t) ≤ unix_ns now + 30 * Second ∧ unix_ns now < unix_ns (ExpiresAt t).

Lemma nonempty_pos s : s ≠ "" ↔ 0 < slen s.
Proof. pose proof (slen_nonneg s). rewrite <- slen_zero. lia. Qed.

Lemma bounded_texts l :
  existsb (λ a, (slen a =? 0) || over 8192 a) l = false ↔ Forall (λ a, 0 < slen a ≤ 8192) l.
Proof.
  induction l as [|a l IH]; cbn [existsb]; [by rewrite Forall_nil|].
  unfold over at 1. rewrite !orb_false_iff, IH, Forall_cons, Z.eqb_neq, Z.ltb_ge. pose proof (slen_nonneg a).
  split; [intros [[E1 E2] HF]; split; [lia|exact HF]|intros [[E1 E2] HF]; split; [split; lia|exact HF]].
Qed.

Lemma bad_endpoint_spec e : bad_endpoint e = false ↔ good_endpoint e.
Proof.
  unfold bad_endpoint. rewrite !orb_false_iff, bounded_texts. unfold over.
  rewrite !seqb_false, !nonempty_pos, !Z.ltb_ge, Z.eqb_neq.
  pose proof (llen_nonneg (elems (ep_Addresses e))). split.
  - intros [[[[[[H1 H2] H3] H4] H5] H6] H7]. constructor; [lia..|exact H7].
  - intros [[? ?] [? ?] [? ?] HF]. do 6 (split; [|first [lia|exact HF]]). lia.
Qed.

(** The wall clock replaces a time only where that is the zero time. *)
Definition steady (wall now : time) : Prop := unix_ns (if IsZero now then UTC wall else now) = unix_ns now.
Lemma steady_nonzero wall now : IsZero now = false → steady wall now.
Proof. unfold steady. by intros ->. Qed.
Lemma steady_now n : steady n (UTC n).
Proof. unfold steady. by destruct (IsZero (UTC n)). Qed.

Lemma Token_Verify_spec `{Ed25519} wall t public now :
  steady wall now → Verify wall t public now = Ok tt ↔ token_form t public ∧ token_live t now.
Proof.
  intros Hz. unfold Verify, token_live. unfold steady in Hz. rewrite <- Hz. generalize (if IsZero now then UTC wall else now).
  clear. intros now. split.
  - intros H0. res_inv. unfold over in *. repeat bool_step. unfold After, Before in *. repeat bool_step. cbn [Add unix_ns] in *.
    split; [|lia]. pose proof (slen_nonneg (Subject t)). pose proof (slen_nonneg (JTI t)).
    constructor; [|done|by eauto 10]. constructor; [lia..| | | |done|done|lia].
    + intros e Ee. rewrite Ee in *. by apply bad_endpoint_spec.
    + intros Ht. rewrite Ht in *. cbn [andb] in *. rewrite seqb_refl in *. cbn [andb] in *. repeat bool_step.
      destruct (Endpoint t); [|done]. by eauto.
    + intros Ht. rewrite Ht, seqb_refl in *. cbn [andb] in *. by bool_step.
  - intros [[[Hv Hs Hj Ha Hh Hp Hsh Hr Hsc Hi Hl] Hiss (s & m & Hd & Hn & Hm & Hvm)] [H1 H2]].
    unfold over, After, Before. cbn [Add unix_ns].
    pass; [by rewrite Hv|]. pass; [rewrite !orb_false_iff, !Z.eqb_neq, !Z.ltb_ge; lia|].
    pass; [destruct (Endpoint t) as [e|]; [by apply bad_endpoint_spec, Hp|done]|].
    pass.
    { destruct (Type_ t =s "share.invite") eqn:E; [|done]. apply seqb_true in E. destruct (Hsh E) as (-> & Ha' & [e ->]).
      apply seqb_false in Ha'. by rewrite Ha'. }
    pass.
    { destruct (Type_ t =s "connect.refresh") eqn:E; [|done]. apply seqb_true in E. by apply seqb_false, Hr. }
    pass; [done|]. pass; [rewrite Hi; cbn [orb]; by apply negb_false_iff, Z.ltb_lt|].
    pass; [by apply negb_false_iff, Z.ltb_lt|]. pass; [by apply Z.ltb_ge|].
    pass; [by rewrite Hiss, seqb_refl|]. pass; [done|]. pass; [by rewrite Hn|]. pass; [done|].
    by rewrite Hvm.
Qed.

(** ** Signed tokens *)
Lemma Sign_inv `{Ed25519} t k t' :
  Sign t k = Ok t' →
  ∃ m, signingBytes (set_issuer (base64_encode (Public k)) t) = Ok m ∧
       t' = set_signature (base64_encode (SignMsg k m)) (set_issuer (base64_encode (Public k)) t).
Proof. unfold Sign. intros E. apply bind_ok in E as (m & Hm & E). apply Ok_inj in E. by exists m. Qed.

Lemma signing_ignores s t : signingBytes (set_signature s t) = signingBytes t.
Proof. by destruct t. Qed.

Lemma shape_kept s i t : token_shape t → token_shape (set_signature s (set_issuer i t)).
Proof. destruct t. intros []. by constructor. Qed.

Lemma Sign_form `{Ed25519Laws} t k t' : Sign t k = Ok t' → token_shape t → token_form t' (Public k).
Proof.
  intros (m & Hm & ->)%Sign_inv Hs. constructor; [by apply shape_kept|by destruct t|].
  exists (SignMsg k m), m. split; [destruct t; apply base64_decode_encode|].
  split; [apply SignMsg_size|]. split; [by rewrite signing_ignores|apply VerifyMsg_SignMsg].
Qed.

(** Everything but the issuer and the signature is as it was. *)
Definition unsigned (t : Token) : Token := set_signature "" (set_issuer "" t).
Lemma Sign_unsigned `{Ed25519} t k t' : Sign t k = Ok t' → unsigned t' = unsigned t.
Proof. intros (m & _ & ->)%Sign_inv. by destruct t. Qed.

Lemma token_live_later t now now' :
  token_live t now → unix_ns now ≤ unix_ns now' → unix_ns now' < unix_ns (ExpiresAt t) → token_live t now'.
Proof. unfold token_live. lia. Qed.
End TokenFacts.

(** ** Discovery records *)
Module RecordFacts.
Import Records TokenFacts.

Record wire_record (r : PipeRecord) : Prop := {
  wr_version : - 2 ^ 63 ≤ Version r < 2 ^ 63;
  wr_texts : Forall ascii_text [PipeID r; DisplayName r; OwnerPublicKey r; RuntimePeerID r; Protocol r; Visibility r;
                                Access r; PublishGrant r; Signature r];
  wr_scope : wire_scope (InScope r);
  wr_capabilities : Forall ascii_text (elems (Capabilities r));
  wr_addresses : Forall ascii_text (elems (Addresses r));
  wr_issued : time_field (IssuedAt r);
  wr_expires : time_field (ExpiresAt r);
  wr_sequence : 0 ≤ Sequence r < 2 ^ 64;
}.

Lemma reads_record r : wire_record r → reads PipeRecord_codec 3 r.
Proof.
  intros [Hv Ht Hs Hc Ha [Hi1 Hi2] [He1 He2] Hq]. rewrite !Forall_cons in Ht.
  destruct Ht as (? & ? & ? & ? & ? & ? & ? & ? & ? & _).
  apply reads_struct; [solve_shape|solve_reads].
Qed.

Lemma Parse_Marshal r data : wire_record r → Marshal r = Ok data → Parse data = Ok r.
Proof.
  intros Hw E. unfold Marshal in E. apply bind_ok in E as (d & Hd & E).
  apply bind_ok in E as (u & Hb%refuse_ok & E). apply Ok_inj in E. subst d.
  unfold Parse. pass; [exact Hb|].
  pass; [apply (decode_one_marshal PipeRecord_codec 3 r data); [by apply reads_record|lia|exact Hd]|].
  cbv beta iota. pass; reflexivity.
Qed.

(** The publish grant that a record carries. *)
Record grant_binds `{Ed25519} (g : Tokens.Token) (r : PipeRecord) (public : string) : Prop := {
  gb_decodes : Tokens.Decode (PublishGrant r) = Ok g;
  gb_form : token_form g public;
  gb_type : Tokens.Type_ g = "pipe.publish";
  gb_audience : Tokens.Audience g = PipeID r;
  gb_scope : Tokens.InScope g = InScope r;
  gb_expires : unix_ns (ExpiresAt r) ≤ unix_ns (Tokens.ExpiresAt g);
}.

(** What verification accepts, apart from the time. *)
Record record_form `{Ed25519} (r : PipeRecord) (g : Tokens.Token) (public : string) (scope : Scope) : Prop := {
  rf_version : Version r = 2;
  rf_scope : InScope r = scope;
  rf_valid : ScopeValidate (InScope r) = Ok tt;
  rf_count : 0 < llen (elems (Addresses r)) ≤ 16;
  rf_caps : llen (elems (Capabilities r)) ≤ 64;
  rf_visibility : published_visibility (Visibility r) = true;
  rf_access : access_hint (Access r) = true;
  rf_sequence : Sequence r ≠ 0;
  rf_addresses : Forall (λ a, slen a ≤ 8192) (elems (Addresses r));
  rf_lifetime : unix_ns (IssuedAt r) < unix_ns (ExpiresAt r);
  rf_signed : ∃ owner s m, Tokens.PublicFromString (OwnerPublicKey r) = Ok owner ∧ PipeID r = Tokens.PipeID owner ∧
                base64_decode (Signature r) = Some s ∧ signingBytes r = Ok m ∧ VerifyMsg owner m s = true;
  rf_grant : grant_binds g r public;
}.

Definition record_live (r : PipeRecord) (g : Tokens.Token) (now : time) : Prop :=
  unix_ns (IssuedAt r) ≤ unix_ns now + 30 * Second ∧ unix_ns now < unix_ns (ExpiresAt r) ∧
  unix_ns (Tokens.IssuedAt g) ≤ unix_ns now + 30 * Second.

Lemma existsb_over l : existsb (over 8192) l = false ↔ Forall (λ a, slen a ≤ 8192) l.
Proof.
  induction l as [|a l IH]; cbn [existsb]; [by rewrite Forall_nil|].
  unfold over at 1. by rewrite orb_false_iff, IH, Forall_cons, Z.ltb_ge.
Qed.

Lemma with_prefix_ok {A} p (m : res A) a : with_prefix p m = Ok a ↔ m = Ok a.
Proof. destruct m; naive_solver. Qed.

Lemma Record_Verify_spec `{Ed25519} wall r public scope now :
  steady wall now →
  Verify wall r public scope now = Ok tt ↔ ∃ g, record_form r g public scope ∧ record_live r g now.
Proof.
  intros Hz. unfold Verify, record_live. split.
  - intros H0. res_inv.
    repeat match goal with E : with_prefix _ _ = Ok _ |- _ => apply with_prefix_ok in E end.
    match goal with E : Tokens.Verify _ ?g _ _ = _ |- _ => apply (TokenFacts.Token_Verify_spec _ _ _ _ Hz) in E as [Hg [Hg1 Hg2]]; exists g end.
    unfold same_scope, After, Before in *. repeat bool_step. cbn [Add unix_ns] in *.
    pose proof (llen_nonneg (elems (Addresses r))).
    split; [|lia]. constructor; [done..|lia|lia|done|done|done|by apply existsb_over|lia|by eauto 10|].
    constructor; [done..|lia].
  - intros (g & [Hv Hs Hsc Hc Hcp Hvi Ha Hq Had Hl (o & s & m & Ho & Hp & Hd & Hm & Hvm) [Gd Gf Gt Ga Gs Ge]] & H1 & H2 & H3).
    unfold same_scope, After, Before. cbn [Add unix_ns].
    pass; [by rewrite Hv|]. pass; [by rewrite bool_decide_eq_true_2|]. pass; [done|].
    pass; [rewrite !orb_false_iff, Z.eqb_neq, !Z.ltb_ge; lia|].
    pass; [by rewrite Hvi|]. pass; [by rewrite Ha|]. pass; [by apply Z.eqb_neq|]. pass; [by apply existsb_over|].
    pass; [rewrite !orb_false_iff, !negb_false_iff, !Z.ltb_lt, Z.ltb_ge; lia|].
    pass; [exact Ho|]. pass; [by rewrite Hp, seqb_refl|]. pass; [exact Hd|]. pass; [exact Hm|]. pass; [by rewrite Hvm|].
    pass; [apply with_prefix_ok; exact Gd|].
    pass; [apply with_prefix_ok, (TokenFacts.Token_Verify_spec _ _ _ _ Hz); split; [done|unfold token_live; lia]|].
    pass; [by rewrite Gt, Ga, Gs, !seqb_refl, bool_decide_eq_true_2|]. by apply refuse_ok, Z.ltb_ge.
Qed.

(** A record that was accepted once is accepted until it expires. *)
Lemma Verify_later `{Ed25519} wall wall' r public scope now now' :
  steady wall now → steady wall' now' → unix_ns now ≤ unix_ns now' → unix_ns now' < unix_ns (ExpiresAt r) →
  Verify wall r public scope now = Ok tt → Verify wall' r public scope now' = Ok tt.
Proof.
  intros Hz Hz' Hle Hlt (g & Hf & Hl1 & Hl2 & Hl3)%(Record_Verify_spec _ _ _ _ _ Hz).
  apply (Record_Verify_spec _ _ _ _ _ Hz'). exists g. split; [done|]. unfold record_live. lia.
Qed.
End RecordFacts.
