(* ===== verification/ScopeAuthority.v ===== *)
(** * The authority of a scope

    [internal/runtime/authority.go]: the handlers of the protocols [/tubo/authority/2.0]
    ([process], one operation per request) and [/tubo/authority/2.1] ([processSnapshot], the
    complete snapshot of a scope), with the messages of [internal/protocol/frame.go] they
    take and return.

    A handler is a computation over the tables of the authority's store. Every [time.Now]
    and every [rand.Read] takes the next reading of a clock and of a random source. A
    [json.RawMessage] is the text it holds. *)
From S2P Require Import Prelude GoStrings GoTime Encoding Json JsonRoundTrip JsonTree Sha256.
From S2P Require Import Credentials Domain StoreRelations StoreSync StoreObjects.
From S2P Require Import OpenBoundary Frames Effects ScopeTokens.
Open Scope Z_scope.

(** ** Messages *)
Record AuthorityRequest := mkAuthorityRequest {
  aq_Operation : string; aq_Token : string; aq_PipeID : string; aq_ClientPublic : string; aq_Nonce : string;
  aq_Proof : string; aq_Record : string; aq_Subjects : list string; aq_AccessLease : string }.

Record WireRevocation := mkWireRevocation { wv_SubjectType : string; wv_SubjectJTI : string; wv_Epoch : Z }.

Record AuthorityResponse := mkAuthorityResponse {
  as_OK : bool; as_Error : string; as_Lease : string; as_RefreshLease : string; as_Grant : string;
  as_Invite : string; as_Records : list string; as_Revocations : list WireRevocation }.

Definition denied (e : error) : AuthorityResponse := mkAuthorityResponse false (err_text e) "" "" "" "" [] [].
Definition plain_ok : AuthorityResponse := mkAuthorityResponse true "" "" "" "" "" [] [].
Definition granted (grant : string) : AuthorityResponse := mkAuthorityResponse true "" "" "" grant "" [] [].
Definition leased (lease refresh : string) : AuthorityResponse :=
  mkAuthorityResponse true "" lease refresh "" "" [] [].
Definition invited (invite : string) : AuthorityResponse := mkAuthorityResponse true "" "" "" "" invite [] [].
Definition listed (records : list string) : AuthorityResponse := mkAuthorityResponse true "" "" "" "" "" records [].
Definition revoked_list (l : list WireRevocation) : AuthorityResponse := mkAuthorityResponse true "" "" "" "" "" [] l.

Record AuthoritySnapshotResponse := mkSnapshotResponse {
  sr_OK : bool; sr_Error : string; sr_Generation : Z; sr_HighWater : Z; sr_Records : list string }.
Definition snapshot_denied (e : error) : AuthoritySnapshotResponse := mkSnapshotResponse false (err_text e) 0 0 [].

(** *** The text of a raw message inside a marshalled one

    [json.Compact] with escaping: white space between tokens goes, three characters and
    two separators inside strings are escaped. *)
Fixpoint compact (in_string escaped : bool) (l : list ascii) : list ascii :=
  match l with
  | [] => []
  | c :: r =>
      let rest :=
        if in_string then compact (escaped || negb (ceq c quote)) (negb escaped && ceq c backslash) r
        else compact (ceq c quote) false r in
      if negb in_string && is_ws c then rest
      else if ceq c "<"%char || ceq c ">"%char || ceq c "&"%char
      then bytes_of "\u00" ++ hex_digit (code c / 16) :: hex_digit (code c mod 16) :: rest
      else match r with
           | c1 :: c2 :: r2 =>
               if (code c =? 226) && (code c1 =? 128) && ((code c2 =? 168) || (code c2 =? 169))
               then bytes_of "\u202" ++ hex_digit (code c2 mod 16) :: compact in_string false r2
               else c :: rest
           | _ => c :: rest
           end
  end.

(** The bytes of a raw message, as a leaf that is written as it is. *)
Definition raw_json (raw : string) : res json :=
  _ ← need (parse_text (bytes_of raw)) json_error; Ok (JNum (compact false false (bytes_of raw))).

Fixpoint raw_list (l : list string) : res (list json) :=
  match l with [] => Ok [] | x :: r => j ← raw_json x; js ← raw_list r; Ok (j :: js) end.

(** [json.Marshal] of a snapshot response. *)
Definition marshal_snapshot (r : AuthoritySnapshotResponse) : res string :=
  records ← raw_list (sr_Records r);
  Ok (of_bytes (show (JObj (
    [("ok", JBool (sr_OK r))] ++
    (if empty_str (sr_Error r) then [] else [("error", jstr (sr_Error r))]) ++
    (if empty_int (sr_Generation r) then [] else [("generation", JNum (json_int (sr_Generation r)))]) ++
    (if empty_int (sr_HighWater r) then [] else [("high_water", JNum (json_int (sr_HighWater r)))]) ++
    (if empty_slice (sr_Records r) then [] else [("records", JArr records)]))))).

(** [parseScope]. *)
Definition parseScope (value : string) : res Scope :=
  match Cut value "/"%char with
  | Some (cluster, namespace) =>
      let scope := mkScope cluster namespace in
      _ ← ScopeValidate scope; Ok scope
  | None => Fail (errorf "scope must be cluster/namespace")
  end.

(** ** The world of a handler *)
Record world := mkWorld { w_rel : relations; w_sync : sync_db; w_ticks : nat; w_draws : nat }.

Section handlers.
Context `{Ed25519} (clock : nat → time) (rnd : nat → entropy).

(** [time.Now] and [rand.Read]. *)
Definition now : M world time := op (λ w,
  (Ok (clock (w_ticks w)), mkWorld (w_rel w) (w_sync w) (S (w_ticks w)) (w_draws w))).
Definition draw : M world entropy := op (λ w,
  (Ok (rnd (w_draws w)), mkWorld (w_rel w) (w_sync w) (w_ticks w) (S (w_draws w)))).

Definition on_rel {A} (f : relations → res A * relations) : M world A := op (λ w,
  let '(r, d) := f (w_rel w) in (r, mkWorld d (w_sync w) (w_ticks w) (w_draws w))).
Definition on_sync {A} (f : sync_db → res A * sync_db) : M world A := op (λ w,
  let '(r, d) := f (w_sync w) in (r, mkWorld (w_rel w) d (w_ticks w) (w_draws w))).
Definition ask_rel {A} (f : relations → res A) : M world A := op (λ w, (f (w_rel w), w)).

(** [return fail(errors.New(...))], and [fail] of an error with a prefix. *)
Definition deny {A} (text : string) : M world A := fail (errorf text).
Definition check (cond : bool) (text : string) : M world unit := guard cond (errorf text).
Definition under {A} (prefix : string) (m : M world A) : M world A := wrapped (prefixed prefix) m.
Definition instead {A} (text : string) (m : M world A) : M world A := wrapped (λ _, errorf text) m.

(** [authorityHandler]. *)
Record authorityHandler := mkAuthority { h_scope : Scope; h_private : PrivateKey }.
Context (h : authorityHandler).
Definition h_public : string := Public (h_private h).
Definition h_name : string := ScopeString (h_scope h).

Definition new_token (kind subject audience : string) (lifetime : duration) : M world Tokens.Token :=
  r ← draw; t ← now; lift (Tokens.NewToken r t kind (h_scope h) subject audience lifetime).
Definition verify_token (t : Tokens.Token) : M world unit :=
  n ← now; lift (Tokens.Verify n t h_public (UTC n)).
Definition verify_record (r : Records.PipeRecord) : M world unit :=
  n ← now; lift (Records.Verify n r h_public (h_scope h) (UTC n)).
Definition epoch_of_pipe (subject pipeID : string) : M world Z :=
  ask_rel (λ d, RevocationEpoch d h_name subject pipeID).
Definition is_revoked (subject jti : string) : M world bool :=
  under "persistence_failed: revocation: " (ask_rel (λ d, IsRevoked d h_name subject jti)).
Definition record_in_scope (pipeID : string) : M world Record_ :=
  instead "not_found: pipe record" (n ← now; n' ← now; on_sync (RecordInScope n n' h_name pipeID)).

(** [discovery.Parse] and [record.Verify] of a stored payload, with one message for both. *)
Definition stored_record (text payload : string) : M world Records.PipeRecord :=
  instead text (r ← lift (Records.Parse payload); _ ← verify_record r; mret r).

Definition mintLeases (subject pipeID : string) : M world (string * string) :=
  epoch ← under "persistence_failed: revocation epoch: " (epoch_of_pipe "pipe-access" pipeID);
  access ← new_token "connect.access" subject pipeID Tokens.AccessLeaseTTL;
  refresh ← new_token "connect.refresh" subject pipeID Tokens.RefreshLeaseTTL;
  access ← lift (Tokens.Sign (Tokens.set_access_epoch epoch access) (h_private h));
  refresh ← lift (Tokens.Sign (Tokens.set_access_epoch epoch refresh) (h_private h));
  a ← lift (Tokens.Encode access);
  r ← lift (Tokens.Encode refresh);
  mret (a, r).

Section operations.
Context (request : AuthorityRequest) (invite : Tokens.Token).

Definition membership : bool := Tokens.Type_ invite =s "membership.invite".
Definition requireMembership : M world unit :=
  check (negb membership) "authorization_denied: invalid membership invite".
Definition role_in (roles : list string) (text : string) : M world unit :=
  check (negb (mem_str (Tokens.Role invite) roles)) text.

(** *** [pipe_publish.request] *)
Definition pipe_publish_request : M world AuthorityResponse :=
  _ ← requireMembership;
  _ ← role_in ["publisher"] "authorization_denied: role cannot publish";
  _ ← check (aq_PipeID request =s "") "invalid_input: pipe_id required";
  grant ← new_token "pipe.publish" (aq_ClientPublic request) (aq_PipeID request) (30 * (24 * (60 * Minute)));
  let grant := if Before (Tokens.ExpiresAt invite) (Tokens.ExpiresAt grant)
               then Tokens.set_expires (Tokens.ExpiresAt invite) grant else grant in
  epoch ← under "persistence_failed: publish epoch: " (epoch_of_pipe "pipe-publish" (aq_PipeID request));
  grant ← lift (Tokens.Sign (Tokens.set_publish_epoch epoch grant) (h_private h));
  encoded ← lift (Tokens.Encode grant);
  mret (granted encoded).

(** *** [records.announce] *)
Definition records_announce : M world AuthorityResponse :=
  _ ← requireMembership;
  _ ← role_in ["publisher"] "authorization_denied: role cannot announce records";
  _ ← check (slen (aq_Record request) =? 0) "invalid_input: record required";
  record ← under "invalid_input: record: " (lift (Records.Parse (aq_Record request)));
  _ ← check ((Records.PipeID record <>s aq_PipeID request) || negb (same_scope (Records.InScope record) (h_scope h)))
        "authorization_denied: record request binding mismatch";
  _ ← under "authorization_denied: record: " (verify_record record);
  grant ← instead "authorization_denied: publish grant subject mismatch"
            (lift (Tokens.Decode (Records.PublishGrant record)));
  _ ← check (Tokens.Subject grant <>s aq_ClientPublic request) "authorization_denied: publish grant subject mismatch";
  payload ← lift (Records.Marshal record);
  n ← now;
  _ ← on_sync (PutAuthoritativeRecord n
        (mkRecord h_name (Records.PipeID record) (Records.DisplayName record) payload (Records.ExpiresAt record)
           (Records.Sequence record) false));
  mret plain_ok.

(** *** [records.list] *)
Fixpoint list_loop (complete : bool) (size : Z) (result : list string) (stored : list Record_)
    : M world (list string * bool) :=
  match stored with
  | [] => mret (result, complete)
  | v :: stored =>
      record ← stored_record "persistence_failed: authority stored invalid discovery record" (r_Payload v);
      if Records.Visibility record <>s VisibilityDiscoverable then list_loop complete size result stored
      else if MaxFrame / 2 <? size + slen (r_Payload v) then mret (result, false)
      else list_loop complete (size + slen (r_Payload v)) (result ++ [r_Payload v]) stored
  end.

Definition discovering_roles : list string := ["member"; "viewer"; "publisher"; "forwarder"].

Definition records_list : M world AuthorityResponse :=
  _ ← requireMembership;
  _ ← role_in discovering_roles "authorization_denied: role cannot discover";
  n ← now;
  '(records, _, _, complete) ← on_sync (AuthoritySnapshot n h_name MaxSnapshotRecords);
  '(result, complete) ← list_loop complete 0 [] records;
  _ ← check (negb complete) "incomplete authoritative snapshot: response exceeds bounds";
  mret (listed result).

(** *** [connect_access.issue] *)
Definition connect_access_issue : M world AuthorityResponse :=
  _ ← requireMembership;
  _ ← role_in ["member"; "publisher"; "forwarder"] "authorization_denied: role cannot connect";
  _ ← check (aq_PipeID request =s "") "invalid_input: pipe_id required";
  stored ← record_in_scope (aq_PipeID request);
  record ← stored_record "authorization_denied: invalid pipe publication" (r_Payload stored);
  _ ← check (Records.Access record <>s AccessMembers) "authorization_denied: pipe requires an exact share invite";
  '(lease, refresh) ← mintLeases (aq_ClientPublic request) (aq_PipeID request);
  mret (leased lease refresh).

(** *** [connect_refresh.exchange] *)
Definition connect_refresh_exchange : M world AuthorityResponse :=
  _ ← check ((Tokens.Type_ invite <>s "connect.refresh") || (Tokens.Audience invite <>s aq_PipeID request)
             || (Tokens.Subject invite <>s aq_ClientPublic request)) "authorization_denied: invalid refresh lease";
  access ← instead "authorization_denied: invalid current access lease"
    (access ← lift (Tokens.Decode (aq_AccessLease request));
     _ ← verify_token access;
     _ ← guard ((Tokens.Type_ access <>s "connect.access") || (Tokens.Audience access <>s Tokens.Audience invite)
                || (Tokens.Subject access <>s Tokens.Subject invite)) (errorf "");
     mret access);
  epoch ← under "persistence_failed: revocation epoch: " (epoch_of_pipe "pipe-access" (Tokens.Audience invite));
  _ ← check ((Tokens.AccessEpoch access <? epoch) || (Tokens.AccessEpoch invite <? epoch))
        "authorization_denied: access epoch revoked";
  revoked ← is_revoked "connect.refresh" (Tokens.JTI invite);
  _ ← check revoked "authorization_denied: lease revoked";
  revoked ← is_revoked "connect.access" (Tokens.JTI access);
  _ ← check revoked "authorization_denied: lease revoked";
  '(lease, refresh) ← mintLeases (aq_ClientPublic request) (aq_PipeID request);
  mret (leased lease refresh).

(** *** [share_invite.issue] *)
Definition route_codec : codec string := struct_codec "" [text_of "authority_address" id (λ v _, v)].

(** [append([]string(nil), s...)]. *)
Definition clone_slice (s : gslice string) : gslice string :=
  match elems s with [] => None | l => Some l end.

Definition share_invite_issue : M world AuthorityResponse :=
  _ ← requireMembership;
  _ ← role_in ["publisher"] "authorization_denied: role cannot share";
  stored ← record_in_scope (aq_PipeID request);
  record ← stored_record "authorization_denied: invalid pipe publication" (r_Payload stored);
  grant ← instead "authorization_denied: publish permission required"
            (lift (Tokens.Decode (Records.PublishGrant record)));
  _ ← check (Tokens.Subject grant <>s aq_ClientPublic request) "authorization_denied: publish permission required";
  share ← new_token "share.invite" (aq_ClientPublic request) (aq_PipeID request) (48 * (60 * Minute));
  route ← lift (need (unmarshal route_codec (aq_Record request)) (errorf "invalid_input: authority route required"));
  _ ← check ((route =s "") || over 8192 route) "invalid_input: authority route required";
  access ← under "persistence_failed: access epoch: " (epoch_of_pipe "pipe-access" (aq_PipeID request));
  publish ← under "persistence_failed: publish epoch: " (epoch_of_pipe "pipe-publish" (aq_PipeID request));
  let share := Tokens.set_publish_epoch publish (Tokens.set_access_epoch access (Tokens.set_one_time true share)) in
  let share := Tokens.set_address route share in
  let share := Tokens.set_endpoint (Some (Tokens.mkEndpoint (Records.RuntimePeerID record)
                 (clone_slice (Records.Addresses record)) (Records.Protocol record))) share in
  let share := Tokens.set_hint (Records.DisplayName record) share in
  share ← lift (Tokens.Sign share (h_private h));
  encoded ← lift (Tokens.Encode share);
  mret (invited encoded).

(** *** [share_invite.redeem] *)
Definition redeem_error (e : error) : error :=
  if errors_Is e ErrInviteRedeemed then errorf "authorization_denied: invite already redeemed"
  else prefixed "persistence_failed: redeem invite: " e.

Definition share_invite_redeem : M world AuthorityResponse :=
  _ ← check ((Tokens.Type_ invite <>s "share.invite") || negb (Tokens.OneTime invite)
             || (Tokens.Audience invite <>s aq_PipeID request) || empty_ptr (Tokens.Endpoint invite))
        "authorization_denied: invalid share invite";
  stored ← record_in_scope (Tokens.Audience invite);
  _ ← stored_record "authorization_denied: invalid pipe publication" (r_Payload stored);
  revoked ← is_revoked "share.invite" (Tokens.JTI invite);
  _ ← check revoked "authorization_denied: invite revoked";
  r ← draw;
  sessionID ← lift (Tokens.SessionID r);
  _ ← wrapped redeem_error
        (n ← now; on_rel (RedeemInvite n (Tokens.JTI invite) (Tokens.Audience invite) sessionID (aq_ClientPublic request)));
  '(lease, refresh) ← mintLeases (aq_ClientPublic request) (aq_PipeID request);
  mret (leased lease refresh).

(** *** [revocation.issue] *)
Record revocation_value := mkRevocationValue { vl_type : string; vl_jti : string; vl_epoch : Z }.
Definition revocation_codec : codec revocation_value := struct_codec (mkRevocationValue "" "" 0) [
  text_of "subject_type" vl_type (λ x a, mkRevocationValue x (vl_jti a) (vl_epoch a));
  text_of "subject_jti" vl_jti (λ x a, mkRevocationValue (vl_type a) x (vl_epoch a));
  mkField uint_codec "epoch" vl_epoch (λ x a, mkRevocationValue (vl_type a) (vl_jti a) x) always].

Definition revocation_issue : M world AuthorityResponse :=
  _ ← requireMembership;
  _ ← role_in ["publisher"] "authorization_denied: role cannot revoke";
  value ← lift (need (unmarshal revocation_codec (aq_Record request)) (errorf "invalid_input: invalid revocation"));
  _ ← under "persistence_failed: revoke: "
        (n ← now; on_rel (Revoke n h_name (vl_type value) (vl_jti value) (vl_epoch value)));
  mret plain_ok.

(** *** [revocation.query] *)
Definition revocation_query : M world AuthorityResponse :=
  _ ← check (negb membership && (Tokens.Type_ invite <>s "connect.refresh") && (Tokens.Type_ invite <>s "share.invite"))
        "authorization_denied: invalid query token";
  values ← under "persistence_failed: revocation: " (ask_rel (λ d, Revocations d h_name (aq_Subjects request)));
  mret (revoked_list (map (λ v, mkWireRevocation (rev_SubjectType v) (rev_SubjectJTI v) (rev_Epoch v)) values)).

Definition dispatch : M world AuthorityResponse :=
  let operation := aq_Operation request in
  if operation =s "pipe_publish.request" then pipe_publish_request
  else if operation =s "records.announce" then records_announce
  else if operation =s "records.list" then records_list
  else if operation =s "connect_access.issue" then connect_access_issue
  else if operation =s "connect_refresh.exchange" then connect_refresh_exchange
  else if operation =s "share_invite.issue" then share_invite_issue
  else if operation =s "share_invite.redeem" then share_invite_redeem
  else if operation =s "revocation.issue" then revocation_issue
  else if operation =s "revocation.query" then revocation_query
  else deny "invalid_input: unknown authority operation".
End operations.

(** ** [process] *)
Definition authorityProof : string := "tubo-authority-v2".

(** What is checked before any operation. *)
Definition authenticate (request : AuthorityRequest) : M world Tokens.Token :=
  _ ← check (negb (boundedStrings 8192 [aq_Operation request; aq_PipeID request; aq_ClientPublic request;
                                        aq_Nonce request; aq_Proof request; aq_AccessLease request])
             || over Tokens.MaxTokenSize (aq_Token request) || over Tokens.MaxTokenSize (aq_AccessLease request)
             || over Records.MaxRecordSize (aq_Record request) || (256 <? llen (aq_Subjects request)))
        "invalid_input: authority field exceeds limit";
  invite ← under "authorization_denied: " (lift (Tokens.Decode (aq_Token request)));
  _ ← under "authorization_denied: " (verify_token invite);
  _ ← check (negb (same_scope (Tokens.InScope invite) (h_scope h))) "authorization_denied: token scope mismatch";
  clientPublic ← instead "authorization_denied: invalid client key"
                   (lift (Tokens.PublicFromString (aq_ClientPublic request)));
  _ ← check (negb (Tokens.VerifyProof clientPublic (aq_Proof request) authorityProof
                     [aq_Operation request; aq_PipeID request; aq_Nonce request; Tokens.JTI invite]))
        "authorization_denied: invalid proof of possession";
  mret invite.

Definition process (request : AuthorityRequest) (w : world) : AuthorityResponse * world :=
  let '(r, w) := (invite ← authenticate request; dispatch request invite) w in
  (match r with Ok response => response | Fail e => denied e end, w).

(** ** [processSnapshot] *)
Fixpoint snapshot_loop (result : list string) (stored : list Record_) : M world (list string) :=
  match stored with
  | [] => mret result
  | v :: stored =>
      record ← stored_record "persistence_failed: authority stored invalid discovery record" (r_Payload v);
      snapshot_loop (if Records.Visibility record =s VisibilityDiscoverable then result ++ [r_Payload v] else result) stored
  end.

Definition snapshot_authenticate (request : AuthoritySnapshotRequest) : M world unit :=
  _ ← check (negb (boundedStrings 8192 [sq_ClientPublic request; sq_Nonce request; sq_Proof request])
             || over Tokens.MaxTokenSize (sq_Token request)) "invalid_input: authority field exceeds limit";
  invite ← under "authorization_denied: " (lift (Tokens.Decode (sq_Token request)));
  _ ← under "authorization_denied: " (verify_token invite);
  _ ← check ((Tokens.Type_ invite <>s "membership.invite") || negb (same_scope (Tokens.InScope invite) (h_scope h)))
        "authorization_denied: invalid membership invite";
  _ ← check (negb (mem_str (Tokens.Role invite) discovering_roles)) "authorization_denied: role cannot discover";
  clientPublic ← instead "authorization_denied: invalid client key"
                   (lift (Tokens.PublicFromString (sq_ClientPublic request)));
  check (negb (Tokens.VerifyProof clientPublic (sq_Proof request) authorityProof
                 ["records.list"; ""; sq_Nonce request; Tokens.JTI invite]))
    "authorization_denied: invalid proof of possession".

Definition snapshot_body (request : AuthoritySnapshotRequest) : M world AuthoritySnapshotResponse :=
  _ ← snapshot_authenticate request;
  n ← now;
  '(records, generation, highWater, complete) ← on_sync (AuthoritySnapshot n h_name MaxSnapshotRecords);
  _ ← check (negb complete) "incomplete authoritative snapshot: response exceeds bounds";
  result ← snapshot_loop [] records;
  let response := mkSnapshotResponse true "" generation highWater result in
  encoded ← instead "incomplete authoritative snapshot: response exceeds bounds" (lift (marshal_snapshot response));
  _ ← check (over MaxFrame encoded) "incomplete authoritative snapshot: response exceeds bounds";
  mret response.

Definition processSnapshot (request : AuthoritySnapshotRequest) (w : world) : AuthoritySnapshotResponse * world :=
  let '(r, w) := snapshot_body request w in
  (match r with Ok response => response | Fail e => snapshot_denied e end, w).
End handlers.
