(* ===== verification/ScopeAuthorityProps.v ===== *)
(** * What the authority of a scope does

    Who may change which table of the authority and what it hands out. *)
From S2P Require Import Prelude GoStrings GoTime Encoding Json JsonRoundTrip JsonTree Sha256.
From S2P Require Import Credentials CredentialFacts CredentialVerify Domain.
From S2P Require Import StoreRelations StoreRelationFacts StoreSync StoreSyncFacts StoreObjects.
From S2P Require Import OpenBoundary Frames Effects ScopeTokens ScopeTokenFacts ScopeAuthority.
Import TokenFacts.
Open Scope Z_scope.

Section authority.
Context `{Ed25519} (clock : nat → time) (rnd : nat → entropy) (h : authorityHandler).

Abbreviation pub := (h_public h).

(** ** Requests that are accepted *)

(** A token of this authority for this scope, alive at the reading [n] of the clock. *)
Record valid_token (t : Tokens.Token) (n : nat) : Prop := {
  vt_form : token_form t pub;
  vt_live : token_live t (clock n);
  vt_scope : Tokens.InScope t = h_scope h;
}.

(** The sender holds the key it names and signed this very request. *)
Definition possession (client proof operation pipeID nonce jti : string) : Prop :=
  ∃ key s, Tokens.PublicFromString client = Ok key ∧ base64_decode proof = Some s ∧
    VerifyMsg key (proof_message authorityProof [operation; pipeID; nonce; jti]) s = true.

Lemma verify_token_run t w u w' :
  verify_token clock h t w = (Ok u, w') → token_form t pub ∧ token_live t (clock (w_ticks w)).
Proof.
  unfold verify_token, now, op. intros E. apply bind_run in E as (n & w1 & [= <- <-] & E).
  apply lift_run in E as [E _]. destruct u. by apply (Token_Verify_spec _ _ _ _ (steady_now _)) in E.
Qed.

Lemma verify_record_run r w u w' :
  verify_record clock h r w = (Ok u, w') →
  ∃ g, RecordFacts.record_form r g pub (h_scope h) ∧ RecordFacts.record_live r g (clock (w_ticks w)).
Proof.
  unfold verify_record, now, op. intros E. apply bind_run in E as (n & w1 & [= <- <-] & E).
  apply lift_run in E as [E _]. destruct u. by apply (RecordFacts.Record_Verify_spec _ _ _ _ _ (steady_now _)) in E.
Qed.

Lemma proof_checked key client proof operation pipeID nonce jti :
  Tokens.PublicFromString client = Ok key →
  Tokens.VerifyProof key proof authorityProof [operation; pipeID; nonce; jti] = true →
  possession client proof operation pipeID nonce jti.
Proof.
  unfold Tokens.VerifyProof. intros Hk Hv. destruct (base64_decode proof) as [s|] eqn:E; [|done]. by exists key, s.
Qed.

(** ** Tables *)
Definition same_tables (w w' : world) : Prop := w_rel w' = w_rel w ∧ w_sync w' = w_sync w.
#[local] Instance same_tables_preorder : PreOrder same_tables.
Proof. split; [by intros w|]. intros a b c [? ?] [? ?]. split; congruence. Qed.

Lemma same_now : within same_tables (now clock).
Proof. by intros w. Qed.
Lemma same_draw : within same_tables (draw rnd).
Proof. by intros w. Qed.
Lemma same_ask {A} (f : relations → res A) : within same_tables (ask_rel f).
Proof. by intros w. Qed.
#[local] Hint Resolve same_tables_preorder same_now same_draw same_ask : effects.

Lemma same_verify_token t : within same_tables (verify_token clock h t).
Proof. unfold verify_token. solve_within. Qed.
Lemma same_verify_record r : within same_tables (verify_record clock h r).
Proof. unfold verify_record. solve_within. Qed.
Lemma same_new_token k s a l : within same_tables (new_token clock rnd h k s a l).
Proof. unfold new_token. solve_within. Qed.
#[local] Hint Resolve same_verify_token same_verify_record same_new_token : effects.
Lemma same_stored_record t p : within same_tables (stored_record clock h t p).
Proof. unfold stored_record, instead. solve_within. Qed.
Lemma same_mintLeases s p : within same_tables (mintLeases clock rnd h s p).
Proof. unfold mintLeases, under, epoch_of_pipe. solve_within. Qed.
#[local] Hint Resolve same_stored_record same_mintLeases : effects.
Lemma same_authenticate q : within same_tables (authenticate clock h q).
Proof. unfold authenticate, check, under, instead. solve_within. Qed.
Lemma same_snapshot_authenticate q : within same_tables (snapshot_authenticate clock h q).
Proof. unfold snapshot_authenticate, check, under, instead. solve_within. Qed.

Lemma authenticate_run q w invite w' :
  authenticate clock h q w = (Ok invite, w') →
  Tokens.Decode (aq_Token q) = Ok invite ∧ valid_token invite (w_ticks w) ∧
  possession (aq_ClientPublic q) (aq_Proof q) (aq_Operation q) (aq_PipeID q) (aq_Nonce q) (Tokens.JTI invite).
Proof.
  unfold authenticate, check, under, instead. intros E. run_inv.
  match goal with V : verify_token _ _ _ _ = _ |- _ => apply verify_token_run in V as [Hf Hl] end.
  unfold same_scope in *. repeat bool_step.
  split; [done|]. split; [by constructor|]. by eapply proof_checked.
Qed.

Lemma snapshot_authenticate_run q w u w' :
  snapshot_authenticate clock h q w = (Ok u, w') →
  ∃ invite, Tokens.Decode (sq_Token q) = Ok invite ∧ valid_token invite (w_ticks w) ∧
    Tokens.Type_ invite = "membership.invite" ∧ Tokens.Role invite ∈ discovering_roles ∧
    possession (sq_ClientPublic q) (sq_Proof q) "records.list" "" (sq_Nonce q) (Tokens.JTI invite).
Proof.
  unfold snapshot_authenticate, check, under, instead. intros E. run_inv.
  match goal with V : verify_token _ _ _ _ = _ |- _ => apply verify_token_run in V as [Hf Hl] end.
  unfold same_scope in *. repeat bool_step. eexists. split; [done|]. split; [by constructor|].
  split; [done|]. split; [by apply mem_str_true|]. by eapply proof_checked.
Qed.
(** ** What a request can change *)
Section effects.
Context (request : AuthorityRequest) (invite : Tokens.Token).

Definition publisher : Prop := Tokens.Type_ invite = "membership.invite" ∧ Tokens.Role invite = "publisher".

(** The row that [records.announce] writes: a record of the Pipe named in the request that
    verified, under a publish grant of this authority to the sender. *)
Record announces (k : string * string) (row : record_row) : Prop := {
  an_operation : aq_Operation request = "records.announce";
  an_publisher : publisher;
  an_key : k = (h_name h, aq_PipeID request);
  an_record : ∃ r g n payload,
    Records.Parse (aq_Record request) = Ok r ∧ Records.PipeID r = aq_PipeID request ∧
    RecordFacts.record_form r g pub (h_scope h) ∧ RecordFacts.record_live r g (clock n) ∧
    Tokens.Subject g = aq_ClientPublic request ∧ Records.Marshal r = Ok payload ∧
    row = mkRecordRow (Records.DisplayName r) payload (column_time (Records.ExpiresAt r)) (Records.Sequence r) false;
}.

(** The row that [share_invite.redeem] writes. *)
Record redeems (k : string * string) (row : redemption_row) : Prop := {
  re_operation : aq_Operation request = "share_invite.redeem";
  re_type : Tokens.Type_ invite = "share.invite";
  re_key : k = (Tokens.JTI invite, Tokens.Audience invite);
  re_pipe : Tokens.Audience invite = aq_PipeID request;
  re_client : rd_client row = aq_ClientPublic request;
  re_kind : rd_kind row = KindScoped;
}.

(** The rows that [revocation.issue] may write. *)
Record revokes (k : string * string * string) : Prop := {
  rk_operation : aq_Operation request = "revocation.issue";
  rk_publisher : publisher;
  rk_scope : k.1.1 = h_name h;
}.

Definition invite_revocation : string * string * string := (h_name h, "share.invite", Tokens.JTI invite).

(** A row that was read as expired at some instant. *)
Definition ran_out (row : record_row) : Prop := ∃ n, text_le (rr_expires row) (column_time (clock n)) = true.

Record effect (w w' : world) : Prop := {
  ef_accepted : accepted (w_rel w') = accepted (w_rel w);
  ef_rest : scope_freshness (w_sync w') = scope_freshness (w_sync w) ∧
            scope_sync_leases (w_sync w') = scope_sync_leases (w_sync w);
  ef_revocations : ∀ k row, revocations (w_rel w') !! k = Some row → revocations (w_rel w) !! k = Some row ∨ revokes k;
  ef_revoked : ∀ k, revocations (w_rel w') !! k = None → revocations (w_rel w) !! k = None;
  ef_redemptions : ∀ k row, invite_redemptions (w_rel w') !! k = Some row →
    invite_redemptions (w_rel w) !! k = Some row ∨
    redeems k row ∧ invite_redemptions (w_rel w) !! k = None ∧ revocations (w_rel w) !! invite_revocation = None;
  ef_redeemed : ∀ k row, invite_redemptions (w_rel w) !! k = Some row → invite_redemptions (w_rel w') !! k = Some row;
  ef_records : ∀ k row, records (w_sync w') !! k = Some row → records (w_sync w) !! k = Some row ∨ announces k row;
  ef_kept : ∀ k row, records (w_sync w) !! k = Some row →
    records (w_sync w') !! k = Some row ∨ ran_out row ∨
    ∃ row', announces k row' ∧ rr_sequence row < rr_sequence row';
}.

Lemma effect_same w w' : same_tables w w' → effect w w'.
Proof. intros [Hr Hs]. constructor; rewrite ?Hr, ?Hs; auto. Qed.

#[local] Instance effect_preorder : PreOrder effect.
Proof.
  split; [intros w; by apply effect_same|].
  intros a b c [A1 [A2 A2'] A3 A4 A5 A6 A7 A8] [B1 [B2 B2'] B3 B4 B5 B6 B7 B8]. constructor.
  - congruence.
  - split; congruence.
  - intros k row [Hk|Hk]%B3; [by apply A3|by right].
  - intros k Hk. by apply A4, B4.
  - intros k row [Hk|(Hk & Hn & Hv)]%B5; [by apply A5|]. right. split; [done|]. split; [|by apply A4].
    destruct (invite_redemptions (w_rel a) !! k) eqn:E; [|done]. apply A6 in E. congruence.
  - intros k row Hk. by apply B6, A6.
  - intros k row [Hk|Hk]%B7; [by apply A7|by right].
  - intros k row [Hk|Hk]%A8; [by apply B8|by right].
Qed.

Lemma effect_of_same {A} (m : M world A) : within same_tables m → within effect m.
Proof. apply within_impl. intros w w'. apply effect_same. Qed.

(** Operations on one table. *)
Lemma effect_on_sync {A} (f : sync_db → res A * sync_db) :
  (∀ d, let d' := (f d).2 in
        scope_freshness d' = scope_freshness d ∧ scope_sync_leases d' = scope_sync_leases d ∧
        (∀ k row, records d' !! k = Some row → records d !! k = Some row ∨ announces k row) ∧
        (∀ k row, records d !! k = Some row → records d' !! k = Some row ∨ ran_out row ∨
                  ∃ row', announces k row' ∧ rr_sequence row < rr_sequence row')) →
  within effect (on_sync f).
Proof.
  intros Hf w. unfold on_sync, op. specialize (Hf (w_sync w)). cbv zeta in Hf.
  destruct (f (w_sync w)) as [r d]. cbn in *. destruct Hf as (F1 & F2 & F3 & F4). constructor; cbn; auto.
Qed.

Lemma effect_delete n p d :
  (∀ k row, p k row = true → text_le (rr_expires row) (column_time (clock n)) = true) →
  let d' := (delete_where p d).2 in
  scope_freshness d' = scope_freshness d ∧ scope_sync_leases d' = scope_sync_leases d ∧
  (∀ k row, records d' !! k = Some row → records d !! k = Some row ∨ announces k row) ∧
  (∀ k row, records d !! k = Some row → records d' !! k = Some row ∨ ran_out row ∨
            ∃ row', announces k row' ∧ rr_sequence row < rr_sequence row').
Proof.
  intros Hp d'. split; [done|]. split; [done|]. split.
  - intros k row [Hk _]%delete_where_lookup. by left.
  - intros k row Hk. destruct (p k row) eqn:E; [right; left; exists n; by eapply Hp|].
    left. by apply delete_where_lookup.
Qed.

Lemma returns_now : returns (now clock) (λ t, ∃ n, t = clock n).
Proof. intros w t w' [= <- _]. by eexists. Qed.

Lemma effect_record_in_scope pipeID : within effect (record_in_scope clock h pipeID).
Proof.
  unfold record_in_scope, instead. apply within_wrapped.
  eapply within_bind_returns; [apply _|apply returns_now|by apply effect_of_same, same_now|]. intros t [n ->].
  apply within_bind; [apply _|by apply effect_of_same, same_now|]. intros t'. apply effect_on_sync. intros d.
  apply (effect_delete n). intros k row Hk. by apply andb_true_iff in Hk as [_ Hk].
Qed.

Lemma effect_snapshot n limit : within effect (on_sync (AuthoritySnapshot (clock n) (h_name h) limit)).
Proof.
  apply effect_on_sync. intros d. unfold AuthoritySnapshot. destruct (_ || _); [by auto|].
  unfold in_tx. destruct (authority_snapshot_tx _ _ _ d) as [[a d']|e] eqn:E; [|by auto]. cbn [snd].
  unfold authority_snapshot_tx in E. cbv zeta in E. destruct (delete_where _ d) as [c d0] eqn:E0.
  apply bind_ok in E as ([[] d1] & H1 & E). apply bind_ok in E as ([g hw] & _ & E).
  apply bind_ok in E as (? & _ & E). apply bind_ok in E as (rs & _ & E). apply Ok_inj in E as [= _ <-].
  assert (R1 : records d1 = records d0 ∧ scope_freshness d1 = scope_freshness d0 ∧
               scope_sync_leases d1 = scope_sync_leases d0).
  { destruct (0 <? c); [|by apply Ok_inj in H1 as [= <-]]. unfold advanceAuthoritySnapshotTx in H1.
    repeat case_match; simplify_eq; done. }
  destruct R1 as (-> & -> & ->). replace d0 with (delete_where
    (λ k row, (k.1 =s h_name h) && negb (rr_discovered row) && text_le (rr_expires row) (column_time (clock n))) d).2
    by (by rewrite E0).
  apply (effect_delete n). intros k row Hk. by apply andb_true_iff in Hk as [_ Hk].
Qed.
Lemma effect_put n v :
  announces (r_Scope v, r_PipeID v) (row_of v) → within effect (on_sync (PutAuthoritativeRecord n v)).
Proof.
  intros Ha. apply effect_on_sync. intros d. unfold PutAuthoritativeRecord, in_tx.
  destruct (_ ≫= _) as [[[] d']|e] eqn:E; [|by auto]. cbn [snd].
  apply bind_ok in E as ([[] d1] & E1 & E2). apply putRecordTx_cases in E1 as [_ E1].
  assert (R1 : records d' = records d1 ∧ scope_freshness d' = scope_freshness d1 ∧
               scope_sync_leases d' = scope_sync_leases d1).
  { unfold advanceAuthoritySnapshotTx in E2. repeat case_match; simplify_eq; done. }
  destruct R1 as (-> & -> & ->). destruct E1 as [->|[-> Hq]]; [by auto|]. cbn. split; [done|]. split; [done|]. split.
  - intros k row. destruct (decide (k = (r_Scope v, r_PipeID v))) as [->|Hne].
    + rewrite lookup_insert_eq. intros [= <-]. by right.
    + rewrite lookup_insert_ne by done. by left.
  - intros k row Hk. destruct (decide (k = (r_Scope v, r_PipeID v))) as [->|Hne].
    + right. right. exists (row_of v). split; [done|]. by apply Hq.
    + left. by rewrite lookup_insert_ne.
Qed.

Lemma returns_wrapped {A} f (m : M world A) (Q : A → Prop) : returns m Q → returns (wrapped f m) Q.
Proof. intros HQ w a w' E%wrapped_run. by eapply HQ. Qed.
Lemma returns_lift {A} (r : res A) : returns (W := world) (lift r) (λ a, r = Ok a).
Proof. by intros w a w' [? _]%lift_run. Qed.
Lemma returns_verify_record r :
  returns (verify_record clock h r) (λ _, ∃ g n, RecordFacts.record_form r g pub (h_scope h) ∧
                                                 RecordFacts.record_live r g (clock n)).
Proof. intros w u w' (g & Hf & Hl)%verify_record_run. eauto. Qed.

Lemma effect_announce :
  aq_Operation request = "records.announce" → within effect (records_announce clock h request invite).
Proof.
  intros Hop. unfold records_announce, requireMembership, role_in, membership, check.
  apply within_bind_guard; [apply _|]. intros Hm. apply within_bind_guard; [apply _|]. intros Hr.
  apply within_bind_guard; [apply _|]. intros _. unfold under, instead. eapply within_bind_returns;
    [apply _|apply returns_wrapped, returns_lift|apply within_wrapped, within_pure; apply _|]. intros r Hp.
  apply within_bind_guard; [apply _|]. intros Hb. eapply within_bind_returns;
    [apply _|apply returns_wrapped, returns_verify_record|by apply within_wrapped, effect_of_same, same_verify_record|].
  intros _ (g & n & Hf & Hl). eapply within_bind_returns;
    [apply _|apply returns_wrapped, returns_lift|apply within_wrapped, within_pure; apply _|]. intros g' Hg.
  apply within_bind_guard; [apply _|]. intros Hs. apply within_bind_lift; [apply _|]. intros payload Hpay.
  apply within_bind; [apply _|by apply effect_of_same, same_now|]. intros t.
  apply within_bind; [apply _| |intros _; apply within_ret, _]. apply effect_put. unfold same_scope in *. repeat bool_step.
  pose proof (RecordFacts.gb_decodes _ _ _ (RecordFacts.rf_grant _ _ _ _ Hf)) as Hg'.
  assert (g' = g) as -> by congruence.
  constructor; [done| |by cbn; f_equal|exists r, g, n, payload; by auto 10].
  split; [done|]. by apply mem_str_true, list_elem_of_singleton in Hr.
Qed.

Lemma effect_redeem :
  aq_Operation request = "share_invite.redeem" → within effect (share_invite_redeem clock rnd h request invite).
Proof.
  intros Hop w. unfold share_invite_redeem, check. unfold mbind at 1, M_bind at 1, guard, lift.
  destruct (refuse _ _) as [[]|e] eqn:Hc; [|by cbn]. apply refuse_ok in Hc. repeat bool_step.
  unfold mbind at 1, M_bind at 1. pose proof (effect_record_in_scope (Tokens.Audience invite) w) as E1.
  destruct (record_in_scope _ _ _ w) as [[stored|e] w1]; [|done]. cbn [snd] in E1. etrans; [exact E1|]. clear E1 w.
  unfold mbind at 1, M_bind at 1.
  pose proof (effect_of_same _ (same_stored_record "authorization_denied: invalid pipe publication" (r_Payload stored)) w1) as E1.
  destruct (stored_record _ _ _ _ w1) as [[r|e] w2]; [|done]. cbn [snd] in E1. etrans; [exact E1|]. clear E1 w1.
  unfold is_revoked, under, ask_rel, op, wrapped, IsRevoked. unfold mbind at 1, M_bind at 1.
  destruct (bool_decide (is_Some _)) eqn:Hrev; unfold mbind at 1, M_bind at 1; cbn [refuse]; [done|]. bool_step.
  assert (Hnone : revocations (w_rel w2) !! invite_revocation = None).
  { destruct (revocations (w_rel w2) !! invite_revocation) eqn:E; [|done]. by destruct Hrev. }
  unfold mbind at 1, M_bind at 1, draw, op. set (w3 := mkWorld _ _ _ _).
  assert (S3 : effect w2 w3) by (by apply effect_same). etrans; [exact S3|]. unfold mbind at 1, M_bind at 1.
  destruct (Tokens.SessionID _) as [ss|e]; [|done]. unfold mbind at 1, M_bind at 1.
  unfold mbind at 1, M_bind at 1, now, op, on_rel, op. cbn [w_rel w_sync w_ticks w_draws].
  set (d := w_rel w3). change (w_rel w2) with d in Hnone.
  destruct (RedeemInvite_cases (clock (w_ticks w3)) (Tokens.JTI invite) (Tokens.Audience invite) ss (aq_ClientPublic request) d)
    as [[e E]|[[Hf E]|(row & _ & _ & E)]]; rewrite E; cbn [snd].
  1: by apply effect_same.
  all: unfold mbind at 1, M_bind at 1;
    match goal with |- context [mintLeases _ _ _ _ _ ?x] => set (w4 := x);
      pose proof (effect_of_same _ (same_mintLeases (aq_ClientPublic request) (aq_PipeID request)) w4) as E4 end;
    (assert (effect w3 w4) as E3; [|etrans; [exact E3|]; destruct (mintLeases _ _ _ _ _ w4) as [[[a r0]|e] w5]; exact E4]).
  - constructor; try by auto. 2: { cbn. intros k x Hk. destruct (decide (k = (Tokens.JTI invite, Tokens.Audience invite))) as [->|Hne];
      [|by rewrite lookup_insert_ne]. unfold redemption_of, d, w3 in *. cbn in *. congruence. }
    cbn. intros k x. destruct (decide (k = (Tokens.JTI invite, Tokens.Audience invite))) as [->|Hne];
      [rewrite lookup_insert_eq; intros [= <-]|rewrite lookup_insert_ne by done; by left].
    right. split; [by constructor|]. split; [exact Hf|exact Hnone].
  - by apply effect_same.
Qed.

Lemma effect_revoke :
  aq_Operation request = "revocation.issue" → within effect (revocation_issue clock h request invite).
Proof.
  intros Hop. unfold revocation_issue, requireMembership, role_in, membership, check.
  apply within_bind_guard; [apply _|]. intros Hm. apply within_bind_guard; [apply _|]. intros Hr. apply within_bind_lift; [apply _|]. intros v _.
  apply within_bind; [apply _| |intros _; apply within_ret, _]. apply within_wrapped.
  apply within_bind; [apply _|by apply effect_of_same, same_now|]. intros t w. unfold on_rel, op.
  destruct (Revoke_cases t (h_name h) (vl_type v) (vl_jti v) (vl_epoch v) (w_rel w)) as [[e E]|[E _]]; rewrite E; cbn [snd].
  { by apply effect_same. }
  bool_step. bool_step. apply mem_str_true in Hr. bool_step. set (key := (h_name h, vl_type v, vl_jti v)).
  constructor; try (by auto); cbn.
  - intros k row. destruct (decide (k = key)) as [->|Hne]; [|rewrite lookup_insert_ne by done; by left].
    right. constructor; [done| |done]. split; [done|by apply list_elem_of_singleton in Hr].
  - intros k. destruct (decide (k = key)) as [->|Hne]; [by rewrite lookup_insert_eq|by rewrite lookup_insert_ne].
Qed.
Lemma same_list_loop c n l rs : within same_tables (list_loop clock h c n l rs).
Proof. revert c n l. induction rs as [|v rs IH]; intros c n l; cbn [list_loop]; solve_within. Qed.
#[local] Hint Resolve same_list_loop effect_preorder effect_of_same effect_record_in_scope : effects.

Lemma effect_list : within effect (records_list clock h invite).
Proof.
  unfold records_list, requireMembership, role_in, check.
  apply within_bind_guard; [apply _|]. intros _. apply within_bind_guard; [apply _|]. intros _.
  eapply within_bind_returns; [apply _|apply returns_now|by apply effect_of_same, same_now|]. intros t [n ->].
  apply within_bind; [apply _|apply effect_snapshot|]. intros [[[rs g] hw] complete]. solve_within.
Qed.

Lemma effect_dispatch : within effect (dispatch clock rnd h request invite).
Proof.
  unfold dispatch. cbv zeta.
  repeat match goal with |- within _ (if ?b then _ else _) => destruct b eqn:?; [try bool_step|] end.
  - apply effect_of_same. unfold pipe_publish_request, requireMembership, role_in, check, under, epoch_of_pipe. solve_within.
  - by apply effect_announce.
  - apply effect_list.
  - unfold connect_access_issue, requireMembership, role_in, check. solve_within.
  - apply effect_of_same. unfold connect_refresh_exchange, check, instead, under, epoch_of_pipe, is_revoked. solve_within.
  - unfold share_invite_issue, requireMembership, role_in, check, instead, under, epoch_of_pipe. solve_within.
  - by apply effect_redeem.
  - by apply effect_revoke.
  - apply effect_of_same. unfold revocation_query, check, under. solve_within.
  - by apply effect_of_same.
Qed.
End effects.

(** ** Requests *)

(** What must have arrived for anything to happen. *)
Record accepted_request (q : AuthorityRequest) (invite : Tokens.Token) (n : nat) : Prop := {
  aq_decodes : Tokens.Decode (aq_Token q) = Ok invite;
  aq_valid : valid_token invite n;
  aq_possession : possession (aq_ClientPublic q) (aq_Proof q) (aq_Operation q) (aq_PipeID q) (aq_Nonce q) (Tokens.JTI invite);
}.

Lemma process_cases q w resp w' :
  process clock rnd h q w = (resp, w') →
  (same_tables w w' ∧ ∃ e, resp = denied e) ∨
  ∃ invite w1, accepted_request q invite (w_ticks w) ∧ same_tables w w1 ∧
    match dispatch clock rnd h q invite w1 with
    | (Ok r, w2) => resp = r ∧ w' = w2
    | (Fail e, w2) => resp = denied e ∧ w' = w2
    end.
Proof.
  unfold process. unfold mbind, M_bind. pose proof (same_authenticate q w) as Hs.
  destruct (authenticate clock h q w) as [[invite|e] w1] eqn:E; cbn [snd] in Hs; [|intros [= <- <-]; left; by eauto].
  apply authenticate_run in E as (Hd & Hv & Hp). intros Hr. right. exists invite, w1. split; [done|]. split; [done|].
  destruct (dispatch _ _ _ _ _ w1) as [[r|e] w2]; by injection Hr as <- <-.
Qed.

(** ** Leases *)

(** A token that the authority signed now, for these parties. *)
Record fresh_lease (t : Tokens.Token) (kind subject pipeID : string) (epoch : Z) (ttl : duration) (n : nat) : Prop := {
  fl_unsigned : ∃ jti, unsigned t =
    Tokens.mkToken 2 kind "" subject pipeID (h_scope h) "" jti (UTC (clock n)) (Add (UTC (clock n)) ttl) "" "" false None "" epoch 0 "";
  fl_signed : ∃ s m, base64_decode (Tokens.Signature t) = Some s ∧ slen s = SignatureSize ∧
    Tokens.signingBytes t = Ok m ∧ VerifyMsg pub m s = true;
  fl_issuer : Tokens.Issuer t = base64_encode pub;
}.

(** The pair that an answer carries. *)
Record lease_pair (subject pipeID : string) (epoch : Z) (lease refresh : string) : Prop := {
  lp_access : ∃ t n, Tokens.Encode t = Ok lease ∧
                fresh_lease t "connect.access" subject pipeID epoch Tokens.AccessLeaseTTL n;
  lp_refresh : ∃ t n, Tokens.Encode t = Ok refresh ∧
                 fresh_lease t "connect.refresh" subject pipeID epoch Tokens.RefreshLeaseTTL n;
}.

Lemma Sign_fresh `{!Ed25519Laws} rn kind subject pipeID n ttl epoch t t' :
  Tokens.NewToken rn (clock n) kind (h_scope h) subject pipeID ttl = Ok t →
  Tokens.Sign (Tokens.set_access_epoch epoch t) (h_private h) = Ok t' →
  fresh_lease t' kind subject pipeID epoch ttl n.
Proof.
  unfold Tokens.NewToken. intros Hn Hs. apply bind_ok in Hn as (jti & _ & Hn). apply Ok_inj in Hn. subst t.
  pose proof (Sign_unsigned _ _ _ Hs) as Hu. apply Sign_inv in Hs as (m & Hm & ->). constructor; [by exists jti| |done].
  exists (SignMsg (h_private h) m), m. split; [apply base64_decode_encode|]. split; [apply SignMsg_size|].
  split; [by rewrite signing_ignores|apply VerifyMsg_SignMsg].
Qed.

Definition pipe_epoch (w : world) (pipeID : string) : Z := epoch_of (w_rel w) (h_name h, "pipe-access", pipeID).

Lemma mint_run `{!Ed25519Laws} subject pipeID w a r w' :
  mintLeases clock rnd h subject pipeID w = (Ok (a, r), w') →
  lease_pair subject pipeID (pipe_epoch w pipeID) a r.
Proof.
  unfold mintLeases, under, epoch_of_pipe, new_token, now, draw, ask_rel, op. intros E. run_inv. simplify_eq.
  match goal with E : RevocationEpoch _ _ _ _ = Ok ?e |- _ => apply Ok_inj in E; change (pipe_epoch _ _) with
    (default 0 (select_epoch (w_rel x0) (h_name h) "pipe-access" pipeID)); rewrite E end.
  constructor; do 2 eexists; (split; [eassumption|]); eapply Sign_fresh; eassumption.
Qed.

(** *** Why a lease was issued *)
Record by_membership (q : AuthorityRequest) (invite : Tokens.Token) (w : world) : Prop := {
  bm_operation : aq_Operation q = "connect_access.issue";
  bm_type : Tokens.Type_ invite = "membership.invite";
  bm_role : Tokens.Role invite ∈ ["member"; "publisher"; "forwarder"];
  bm_record : ∃ row r g n, records (w_sync w) !! (h_name h, aq_PipeID q) = Some row ∧
    Records.Parse (rr_payload row) = Ok r ∧ RecordFacts.record_form r g pub (h_scope h) ∧
    RecordFacts.record_live r g (clock n) ∧ Records.Access r = AccessMembers;
}.

Record by_refresh (q : AuthorityRequest) (invite : Tokens.Token) (w : world) : Prop := {
  br_operation : aq_Operation q = "connect_refresh.exchange";
  br_type : Tokens.Type_ invite = "connect.refresh";
  br_parties : Tokens.Audience invite = aq_PipeID q ∧ Tokens.Subject invite = aq_ClientPublic q;
  br_epoch : pipe_epoch w (aq_PipeID q) ≤ Tokens.AccessEpoch invite;
  br_revoked : revocations (w_rel w) !! (h_name h, "connect.refresh", Tokens.JTI invite) = None;
  br_access : ∃ access n, Tokens.Decode (aq_AccessLease q) = Ok access ∧ token_form access pub ∧
    token_live access (clock n) ∧ Tokens.Type_ access = "connect.access" ∧
    Tokens.Audience access = aq_PipeID q ∧ Tokens.Subject access = aq_ClientPublic q ∧
    pipe_epoch w (aq_PipeID q) ≤ Tokens.AccessEpoch access ∧
    revocations (w_rel w) !! (h_name h, "connect.access", Tokens.JTI access) = None;
}.

Record by_share (q : AuthorityRequest) (invite : Tokens.Token) (w w' : world) : Prop := {
  bs_operation : aq_Operation q = "share_invite.redeem";
  bs_type : Tokens.Type_ invite = "share.invite" ∧ Tokens.OneTime invite = true;
  bs_pipe : Tokens.Audience invite = aq_PipeID q;
  bs_revoked : revocations (w_rel w) !! (h_name h, "share.invite", Tokens.JTI invite) = None;
  bs_holder : ∃ row, invite_redemptions (w_rel w') !! (Tokens.JTI invite, aq_PipeID q) = Some row ∧
                     rd_client row = aq_ClientPublic q;
}.

Lemma record_in_scope_run pipeID w v w' :
  record_in_scope clock h pipeID w = (Ok v, w') →
  w_rel w' = w_rel w ∧ ∃ row, records (w_sync w) !! (h_name h, pipeID) = Some row ∧ r_Payload v = rr_payload row.
Proof.
  unfold record_in_scope, instead, now, on_sync, op. intros E. run_inv. simplify_eq. cbn [w_rel w_sync] in *.
  match goal with E : (let '(_, _) := RecordInScope ?n ?n' _ _ _ in _) = _ |- _ => revert E; unfold RecordInScope end.
  cbv zeta. destruct (records _ !! _) as [row|] eqn:Hr; [|done].
  apply delete_where_lookup in Hr as [Hr _]. repeat case_match; intros [= <- <-]; cbn. by eauto.
Qed.

Lemma stored_record_run text payload w r w' :
  stored_record clock h text payload w = (Ok r, w') →
  w_rel w' = w_rel w ∧ Records.Parse payload = Ok r ∧
  ∃ g n, RecordFacts.record_form r g pub (h_scope h) ∧ RecordFacts.record_live r g (clock n).
Proof.
  unfold stored_record, instead. intros E. pose proof (same_stored_record text payload w) as Hs.
  unfold stored_record, instead in Hs. rewrite E in Hs. destruct Hs as [Hs _]. cbn [snd] in Hs. run_inv.
  split; [done|]. split; [done|].
  match goal with V : verify_record _ _ _ _ = _ |- _ => apply verify_record_run in V as (g & ? & ?) end. eauto.
Qed.
Lemma same_run {A} (m : M world A) w a w' : within same_tables m → m w = (a, w') → same_tables w w'.
Proof. intros Hm E. specialize (Hm w). by rewrite E in Hm. Qed.

Ltac lease_run :=
  intros E; run_inv; repeat match goal with x : (string * string)%type |- _ => destruct x end; run_inv;
  match goal with V : mintLeases _ _ _ _ _ _ = _ |- _ => apply mint_run in V end; repeat bool_step.

Lemma membership_leases `{!Ed25519Laws} q invite w resp w' :
  aq_Operation q = "connect_access.issue" → connect_access_issue clock rnd h q invite w = (Ok resp, w') →
  lease_pair (aq_ClientPublic q) (aq_PipeID q) (pipe_epoch w (aq_PipeID q)) (as_Lease resp) (as_RefreshLease resp) ∧
  by_membership q invite w.
Proof.
  intros Hop. unfold connect_access_issue, requireMembership, role_in, membership, check. lease_run.
  match goal with V : record_in_scope _ _ _ _ = _ |- _ => apply record_in_scope_run in V as (Hw1 & row & Hrow & Hpay) end.
  match goal with V : stored_record _ _ _ _ _ = _ |- _ => apply stored_record_run in V as (Hw2 & Hp & g & n & Hf & Hl) end.
  unfold pipe_epoch in *. rewrite Hw2, Hw1 in *. split; [done|]. constructor; [done|done|by apply mem_str_true|].
  rewrite Hpay in Hp. by eauto 10.
Qed.

Lemma unrevoked (d : relations) (k : string * string * string) :
  bool_decide (is_Some (revocations d !! k)) = false → revocations d !! k = None.
Proof. intros Hk%bool_decide_eq_false_1. by apply eq_None_not_Some. Qed.

Lemma refresh_leases `{!Ed25519Laws} q invite w resp w' :
  aq_Operation q = "connect_refresh.exchange" → connect_refresh_exchange clock rnd h q invite w = (Ok resp, w') →
  lease_pair (aq_ClientPublic q) (aq_PipeID q) (pipe_epoch w (aq_PipeID q)) (as_Lease resp) (as_RefreshLease resp) ∧
  by_refresh q invite w.
Proof.
  intros Hop. unfold connect_refresh_exchange, check, instead, is_revoked, under, epoch_of_pipe, ask_rel, op. lease_run.
  match goal with V : verify_token _ _ _ _ = _ |- _ =>
    pose proof (same_run _ _ _ _ (same_verify_token _) V) as [Hs _]; apply verify_token_run in V as [Hf Hl] end.
  unfold RevocationEpoch, IsRevoked in *. simplify_eq. unfold pipe_epoch in *.
  repeat match goal with E : w_rel _ = _ |- _ => rewrite E in * end.
  repeat match goal with E : bool_decide _ = false |- _ => apply unrevoked in E end.
  match goal with A : Tokens.Audience invite = _ |- _ => rewrite A in * end.
  match goal with A : Tokens.Subject invite = _ |- _ => rewrite A in * end.
  split; [done|]. constructor; by eauto 12.
Qed.

Lemma share_leases `{!Ed25519Laws} q invite w resp w' :
  aq_Operation q = "share_invite.redeem" → share_invite_redeem clock rnd h q invite w = (Ok resp, w') →
  lease_pair (aq_ClientPublic q) (aq_PipeID q) (pipe_epoch w (aq_PipeID q)) (as_Lease resp) (as_RefreshLease resp) ∧
  by_share q invite w w'.
Proof.
  intros Hop. unfold share_invite_redeem, check, is_revoked, under, ask_rel, draw, now, on_rel, op.
  intros E. run_inv. repeat match goal with x : (string * string)%type |- _ => destruct x end. run_inv.
  match goal with V : mintLeases _ _ _ _ _ _ = _ |- _ =>
    pose proof (same_run _ _ _ _ (same_mintLeases _ _) V) as [Hm _]; apply mint_run in V end. unfold IsRevoked in *. repeat bool_step. simplify_eq.
  match goal with V : record_in_scope _ _ _ _ = _ |- _ => apply record_in_scope_run in V as (Hw1 & row & Hrow & Hpay) end.
  match goal with V : stored_record _ _ _ _ _ = _ |- _ => apply stored_record_run in V as (Hw2 & Hp & g & n & Hf & Hl) end.
  cbn [w_rel] in *. unfold pipe_epoch in *.
  match goal with V : context [RedeemInvite ?n ?j ?p ?ss ?c ?d] |- _ =>
    destruct (RedeemInvite_cases n j p ss c d) as [[e E]|[[Hn E]|(r0 & Hr0 & Hc0 & E)]]; rewrite E in V end; simplify_eq.
  all: cbn [w_rel] in *; repeat match goal with E : w_rel _ = _ |- _ => rewrite E in * end.
  all: match goal with E : bool_decide _ = false |- _ => apply unrevoked in E end.
  all: match goal with A : Tokens.Audience _ = aq_PipeID _ |- _ => rewrite A in * end.
  all: (split; [done|]); constructor; try done; try by split.
  - eexists. split; [rewrite Hm; cbn; by rewrite lookup_insert_eq|done].
  - exists r0. by rewrite Hm.
Qed.
Definition lease_reason (q : AuthorityRequest) (invite : Tokens.Token) (w w' : world) : Prop :=
  by_membership q invite w ∨ by_refresh q invite w ∨ by_share q invite w w'.

Lemma reason_same q invite w w1 w' : same_tables w w1 → lease_reason q invite w1 w' → lease_reason q invite w w'.
Proof.
  intros [Hr Hs]. unfold lease_reason. intros [[]|[[]|[]]]; unfold pipe_epoch in *; rewrite ?Hr, ?Hs in *.
  - by left.
  - right; left. by constructor.
  - right; right. by constructor.
Qed.

Lemma no_lease (op : M world AuthorityResponse) w r w' :
  returns op (λ r, as_Lease r = "") → op w = (Ok r, w') → as_Lease r ≠ "" → False.
Proof. intros Hr E Hl. by apply Hl, (Hr w r w'). Qed.

Lemma dispatch_leases `{!Ed25519Laws} q invite w r w' :
  dispatch clock rnd h q invite w = (Ok r, w') → as_Lease r ≠ "" →
  lease_pair (aq_ClientPublic q) (aq_PipeID q) (pipe_epoch w (aq_PipeID q)) (as_Lease r) (as_RefreshLease r) ∧
  lease_reason q invite w w'.
Proof.
  unfold dispatch. cbv zeta.
  repeat match goal with |- (if ?b then _ else _) _ = _ → _ => destruct b eqn:?; [try bool_step|] end; intros E Hl.
  all: try (exfalso; eapply no_lease; [|exact E|exact Hl]; intros w0 r0 w0' E0;
            unfold pipe_publish_request, records_announce, records_list, share_invite_issue, revocation_issue,
              revocation_query, deny in E0; run_inv;
            do 2 (repeat match goal with x : (_ * _)%type |- _ => destruct x end; run_inv); done).
  - apply membership_leases in E as [? ?]; [|done]. split; [done|by left].
  - apply refresh_leases in E as [? ?]; [|done]. split; [done|by right; left].
  - apply share_leases in E as [? ?]; [|done]. split; [done|by right; right].
Qed.

(** ** Snapshots *)
Lemma same_snapshot_loop l rs : within same_tables (snapshot_loop clock h l rs).
Proof. revert l. induction rs as [|v rs IH]; intros l; cbn [snapshot_loop]; solve_within. Qed.

(** A snapshot request changes nothing but the rows that ran out and the counters. *)
Definition no_request : AuthorityRequest := mkAuthorityRequest "" "" "" "" "" "" "" [] "".
Lemma effect_snapshot_body q : within (effect no_request Tokens.no_token) (snapshot_body clock h q).
Proof.
  pose proof (effect_preorder no_request Tokens.no_token).
  unfold snapshot_body, check, instead.
  apply within_bind; [apply _|apply effect_of_same, same_snapshot_authenticate|]. intros _.
  eapply within_bind_returns; [apply _|apply returns_now|by apply effect_of_same, same_now|]. intros t [n ->].
  apply within_bind; [apply _|apply effect_snapshot|]. intros [[[rs g] hw] complete].
  apply effect_of_same. pose proof same_snapshot_loop. solve_within.
Qed.

(** ** The state of an authority *)
Inductive authority_step : world → world → Prop :=
  | step_request q w : authority_step w (process clock rnd h q w).2
  | step_snapshot q w : authority_step w (processSnapshot clock h q w).2.

Lemma step_effect w w' : authority_step w w' → ∃ q invite, effect q invite w w'.
Proof.
  intros [q w0|q w0].
  - destruct (process clock rnd h q w0) as [resp w1] eqn:E.
    destruct (process_cases _ _ _ _ E) as [[Hs _]|(invite & w2 & _ & Hs & Hd)].
    + exists no_request, Tokens.no_token. by apply effect_same.
    + exists q, invite. pose proof (effect_dispatch q invite w2) as He.
      destruct (dispatch _ _ _ _ _ w2) as [[r|e] w3]; destruct Hd as [_ ->]; cbn [snd] in *;
        (pose proof (effect_preorder q invite); etrans; [by apply effect_same|exact He]).
  - exists no_request, Tokens.no_token. pose proof (effect_snapshot_body q w0) as He. unfold processSnapshot.
    by destruct (snapshot_body _ _ _ w0) as [[r|e] w1].
Qed.

(** What a row of the scope says about the Pipe under its key. *)
Definition publishes (pipeID : string) (row : record_row) (r : Records.PipeRecord) (g : Tokens.Token) (n : nat) : Prop :=
  Records.PipeID r = pipeID ∧ RecordFacts.record_form r g pub (h_scope h) ∧ RecordFacts.record_live r g (clock n) ∧
  Records.Marshal r = Ok (rr_payload row) ∧ rr_expires row = column_time (Records.ExpiresAt r) ∧
  rr_sequence row = Records.Sequence r ∧ rr_name row = Records.DisplayName r.

Definition published (w : world) : Prop := ∀ pipeID row,
  records (w_sync w) !! (h_name h, pipeID) = Some row → rr_discovered row = false → ∃ r g n, publishes pipeID row r g n.

Lemma effect_published q invite w w' : effect q invite w w' → published w → published w'.
Proof.
  intros E Hp pipeID row [Hr|Ha]%(ef_records _ _ _ _ E) Hd; [by eapply Hp|].
  destruct (an_record _ _ _ _ Ha) as (r & g & n & payload & _ & Hid & Hf & Hl & _ & Hm & ->).
  pose proof (an_key _ _ _ _ Ha) as [= ->]. by exists r, g, n.
Qed.

Lemma steps_published w w' : rtc authority_step w w' → published w → published w'.
Proof.
  induction 1 as [|a b c Hs _ IH]; [done|]. intros Hp. apply IH.
  apply step_effect in Hs as (q & invite & He). by eapply effect_published.
Qed.

(** The row is the announced record of the request [q], with a grant to the key that
    announces; it verified at the reading [n] of the clock. *)
Record announced_by (q : AuthorityRequest) (n : nat) (pipeID : string) (row : record_row) : Prop := {
  ab_operation : aq_Operation q = "records.announce";
  ab_pipe : aq_PipeID q = pipeID;
  ab_local : rr_discovered row = false;
  ab_record : ∃ r g, Records.Parse (aq_Record q) = Ok r ∧ publishes pipeID row r g n ∧ Tokens.Subject g = aq_ClientPublic q;
}.

Definition adds (q : AuthorityRequest) (n : nat) (w w' : world) : Prop := ∀ k row,
  records (w_sync w') !! k = Some row →
  records (w_sync w) !! k = Some row ∨ ∃ pipeID, k = (h_name h, pipeID) ∧ announced_by q n pipeID row.

Lemma adds_same q n w w' : same_tables w w' → adds q n w w'.
Proof. intros [_ E] k row. rewrite E. by left. Qed.

Lemma adds_bind {A B} q n w (m : M world A) (f : A → M world B) w0 :
  within same_tables m → same_tables w0 w →
  (∀ a w1, m w = (Ok a, w1) → same_tables w0 w1 → adds q n w0 (f a w1).2) → adds q n w0 ((m ≫= f) w).2.
Proof.
  intros Hm Hs Hf. unfold mbind, M_bind. specialize (Hm w). destruct (m w) as [[a|e] w1]; cbn [snd] in *.
  - apply (Hf a w1 eq_refl). by etrans.
  - apply adds_same. by etrans.
Qed.

Lemma adds_put q n t v w0 w :
  (∀ d, records d = records (w_sync w) →
     adds q n w0 (mkWorld (w_rel w) (set_records d (<[(r_Scope v, r_PipeID v) := row_of v]> (records d))) (w_ticks w) (w_draws w))) →
  same_tables w0 w → adds q n w0 (on_sync (PutAuthoritativeRecord t v) w).2.
Proof.
  intros Hput Hs. unfold on_sync, op, PutAuthoritativeRecord, in_tx. destruct (_ ≫= _) as [[[] d']|e] eqn:E; cbn [fst snd].
  2:{ apply adds_same. destruct Hs. by split. }
  apply bind_ok in E as ([[] d1] & E1 & E2). apply putRecordTx_cases in E1 as [_ E1].
  assert (R1 : records d' = records d1) by (unfold advanceAuthoritySnapshotTx in E2; repeat case_match; by simplify_eq).
  intros k row. cbn [w_sync]. rewrite R1. destruct E1 as [->|[-> _]].
  - destruct Hs as [_ ->]. by left.
  - apply (Hput (w_sync w) eq_refl).
Qed.

(** Announcing adds at most the announced record; it is verified at the first reading of
    the clock of the operation. *)
Lemma announce_adds q invite w :
  aq_Operation q = "records.announce" → adds q (w_ticks w) w (records_announce clock h q invite w).2.
Proof.
  intros Hop. unfold records_announce, requireMembership, role_in, membership, check, under, instead.
  assert (Hpure : ∀ A (r : res A), within same_tables (lift (W := world) r)) by (intros A r; apply within_pure, _).
  assert (Hw : ∀ A e (r : res A), within same_tables (wrapped e (lift (W := world) r)))
    by (intros A e r; by apply within_wrapped, within_pure, _).
  apply adds_bind; [apply Hpure|done|]. intros _ ? [_ <-]%guard_run _.
  apply adds_bind; [apply Hpure|done|]. intros _ ? [_ <-]%guard_run _.
  apply adds_bind; [apply Hpure|done|]. intros _ ? [_ <-]%guard_run _.
  apply adds_bind; [apply Hw|done|]. intros r ? [Hp <-]%wrapped_run%lift_run _.
  apply adds_bind; [apply Hpure|done|]. intros _ ? [Hb <-]%guard_run _.
  apply adds_bind; [apply within_wrapped, same_verify_record|done|].
  intros u w1 (g & Hf & Hl)%wrapped_run%verify_record_run Hs1.
  apply adds_bind; [apply Hw|done|]. intros g' ? [Hg <-]%wrapped_run%lift_run _.
  apply adds_bind; [apply Hpure|done|]. intros _ ? [Hsub <-]%guard_run _.
  apply adds_bind; [apply Hpure|done|]. intros payload ? [Hm <-]%lift_run _.
  apply adds_bind; [apply same_now|done|]. intros t w2 _ Hs2. unfold mbind, M_bind.
  assert (Hput : adds q (w_ticks w) w (on_sync (PutAuthoritativeRecord t (mkRecord (h_name h) (Records.PipeID r)
    (Records.DisplayName r) payload (Records.ExpiresAt r) (Records.Sequence r) false)) w2).2).
  - apply adds_put; [|done]. intros d Hd k row. cbn [w_sync records set_records r_Scope r_PipeID]. rewrite Hd.
    intros [[<- <-]|[_ Hk]]%lookup_insert_Some; [right|left; by destruct Hs2 as [_ <-]].
    exists (Records.PipeID r). split; [done|]. unfold same_scope in Hb. repeat bool_step.
    pose proof (RecordFacts.gb_decodes _ _ _ (RecordFacts.rf_grant _ _ _ _ Hf)) as Hg'.
    assert (g' = g) as -> by congruence. constructor; [done|done|done|]. by exists r, g.
  - by destruct (on_sync _ w2) as [[?|?] ?].
Qed.

(** Authentication reads the clock once. *)
Lemma authenticate_ticks q w invite w1 : authenticate clock h q w = (Ok invite, w1) → w_ticks w1 = S (w_ticks w).
Proof.
  unfold authenticate, check, under, instead. intros E. run_inv.
  unfold verify_token, now, op in *. run_inv. by simplify_eq.
Qed.

(** Where the rows of the scope come from in one request. *)
Lemma process_adds q w k row :
  records (w_sync (process clock rnd h q w).2) !! k = Some row →
  records (w_sync w) !! k = Some row ∨
  ∃ invite pipeID, accepted_request q invite (w_ticks w) ∧ publisher invite ∧ k = (h_name h, pipeID) ∧
    announced_by q (S (w_ticks w)) pipeID row.
Proof.
  unfold process, mbind, M_bind. pose proof (same_authenticate q w) as Hs.
  destruct (authenticate clock h q w) as [[invite|e] w1] eqn:E; cbn [snd] in *.
  2:{ destruct Hs as [_ ->]. by left. }
  pose proof (authenticate_ticks _ _ _ _ E) as Ht. apply authenticate_run in E as (Hd & Hv & Hp). destruct Hs as [_ <-].
  pose proof (effect_dispatch q invite w1) as He.
  assert (Ha : aq_Operation q = "records.announce" → adds q (w_ticks w1) w1 (dispatch clock rnd h q invite w1).2).
  { intros Hop. unfold dispatch. rewrite Hop. by apply announce_adds. }
  destruct (dispatch clock rnd h q invite w1) as [resp w2]. cbn [snd] in *. intros Hk.
  destruct (ef_records _ _ _ _ He k row Hk) as [|Han]; [by left|].
  destruct (Ha (an_operation _ _ _ _ Han) k row Hk) as [|(pid & -> & Hby)]; [by left|right].
  rewrite Ht in Hby. exists invite, pid. split; [done|]. split; [apply (an_publisher _ _ _ _ Han)|done].
Qed.

(** The request that a row of the scope comes from, in the history of the authority. *)
Definition origin (w w' : world) (pipeID : string) (row : record_row) : Prop :=
  ∃ q invite w1, rtc authority_step w w1 ∧ rtc authority_step (process clock rnd h q w1).2 w' ∧
    accepted_request q invite (w_ticks w1) ∧ publisher invite ∧ announced_by q (S (w_ticks w1)) pipeID row.

Lemma steps_origin w w' pipeID row :
  rtc authority_step w w' → records (w_sync w') !! (h_name h, pipeID) = Some row →
  records (w_sync w) !! (h_name h, pipeID) = Some row ∨ origin w w' pipeID row.
Proof.
  intros Hs. induction Hs as [w'|a b c Hs Hrest IH]; intros Hk; [by left|].
  destruct (IH Hk) as [Hb|(q & invite & w1 & H1 & H2)].
  2:{ right. exists q, invite, w1. split; [by eapply rtc_l|done]. }
  destruct Hs as [q a|q a].
  - apply process_adds in Hb as [|(invite & pid & Ha & Hp & [= <-] & Hby)]; [by left|right].
    exists q, invite, a. split; [done|]. by split.
  - left. pose proof (effect_snapshot_body q a) as He. unfold processSnapshot in Hb.
    destruct (snapshot_body clock h q a) as [r w1]. cbn [snd] in *.
    assert (Hb' : records (w_sync w1) !! (h_name h, pipeID) = Some row) by (by destruct r).
    destruct (ef_records _ _ _ _ He _ _ Hb') as [|Han]; [done|]. apply an_operation in Han. discriminate Han.
Qed.
End authority.

(** C9: every request to the authority is authenticated before it has any effect: unless its
    token decodes, is signed by this authority for this scope and alive, and the sender
    proved possession of the key it names for this operation, Pipe, nonce and token, the
    answer is a refusal and no table changes. An authenticated request changes a table only
    as its token allows: a publisher's member token writes revocations of this scope or the
    record of the request, verified and under a grant to the sender; a share invite that is
    not revoked writes its one redemption, by the sender; rows of records disappear only
    when they ran out or are superseded by a higher sequence; nothing else changes. A
    snapshot request needs a member token and changes nothing but rows that ran out. *)
Theorem scope_requests_authenticated `{Ed25519} clock rnd h q q' w :
  (let '(resp, w') := process clock rnd h q w in
   (same_tables w w' ∧ as_OK resp = false) ∨
   ∃ invite, accepted_request clock h q invite (w_ticks w) ∧ effect clock h q invite w w') ∧
  (let '(resp, w') := processSnapshot clock h q' w in
   (same_tables w w' ∧ sr_OK resp = false) ∨
   ∃ invite, Tokens.Decode (sq_Token q') = Ok invite ∧ valid_token clock h invite (w_ticks w) ∧
     Tokens.Type_ invite = "membership.invite" ∧ Tokens.Role invite ∈ discovering_roles ∧
     possession (sq_ClientPublic q') (sq_Proof q') "records.list" "" (sq_Nonce q') (Tokens.JTI invite) ∧
     effect clock h no_request Tokens.no_token w w').
Proof.
  split.
  - destruct (process clock rnd h q w) as [resp w'] eqn:E.
    destruct (process_cases _ _ _ _ _ _ _ E) as [[? [e ->]]|(invite & w2 & Ha & Hs & Hd)]; [by left|]. right. exists invite.
    split; [done|]. pose proof (effect_preorder clock h q invite). etrans; [by apply effect_same|].
    pose proof (effect_dispatch clock rnd h q invite w2) as He.
    destruct (dispatch _ _ _ _ _ w2) as [[r|e] w3]; destruct Hd as [_ ->]; exact He.
  - pose proof (effect_snapshot_body clock h q' w) as He. unfold processSnapshot.
    destruct (snapshot_body clock h q' w) as [r w'] eqn:E. unfold snapshot_body, mbind, M_bind in E.
    pose proof (same_snapshot_authenticate clock h q' w) as Hs.
    destruct (snapshot_authenticate clock h q' w) as [[[]|e] w1] eqn:Ea.
    + right. apply snapshot_authenticate_run in Ea as (invite & ? & ? & ? & ? & ?). by exists invite.
    + injection E as <- <-. by left.
Qed.

(** C10: a lease pair is handed out only for a reason: to a member for a Pipe whose verified
    record is open to members; to the holder of a live access lease and a live refresh lease
    for this Pipe, neither revoked nor behind the Pipe's epoch; or to the client that the
    store names as the one redeemer of a share invite for this Pipe that is not revoked. Both
    tokens carry the sender's key as the subject, the Pipe, the scope and the Pipe's current
    epoch, live ten minutes and two days from their issue and bear the authority's valid
    signature. *)
Theorem scope_leases_justified `{Ed25519Laws} clock rnd h q w resp w' :
  process clock rnd h q w = (resp, w') → as_Lease resp ≠ "" →
  ∃ invite, accepted_request clock h q invite (w_ticks w) ∧
    lease_pair clock h (aq_ClientPublic q) (aq_PipeID q) (pipe_epoch h w (aq_PipeID q))
      (as_Lease resp) (as_RefreshLease resp) ∧
    lease_reason clock h q invite w w'.
Proof.
  intros E Hl. destruct (process_cases _ _ _ _ _ _ _ E) as [[_ [e ->]]|(invite & w1 & Ha & Hs & Hd)]; [done|].
  exists invite. split; [done|]. destruct (dispatch _ _ _ _ _ w1) as [[r|e] w2] eqn:Ed; destruct Hd as [-> ->]; [|done].
  destruct (dispatch_leases _ _ _ _ _ _ _ _ Ed Hl) as [Hp Hr]. eapply reason_same in Hr; [|exact Hs].
  destruct Hs as [Hs _]. unfold pipe_epoch in *. by rewrite Hs in Hp.
Qed.

(** ** A scope at work *)
Module ScopeSample.
Import SampleKeys.

Definition lab : Scope := mkScope "home" "lab".
Definition clk (n : nat) : time := mkTime (unix_ns noon + Z.of_nat n * Second) 0.
Definition dice (n : nat) : entropy := Ok (of_bytes (replicate 15 "a"%char ++ [chr (97 + Z.of_nat n)])).
Definition lab_authority : authorityHandler := mkAuthority lab authority_key.

Definition text_or_empty (m : res string) : string := match m with Ok s => s | Fail _ => "" end.

(** A member token of the role, minted by the authority. *)
Definition member_token (role : string) : string := text_or_empty (
  t ← Tokens.NewToken rnd16 noon "membership.invite" lab "member" "" (24 * (60 * Minute));
  t ← Tokens.Sign (Tokens.set_role role t) authority_key; Tokens.Encode t).

Definition jti_of (token : string) : string := match Tokens.Decode token with Ok t => Tokens.JTI t | Fail _ => "" end.

Definition ask (operation token pipeID client record lease : string) : AuthorityRequest :=
  mkAuthorityRequest operation token pipeID (Tokens.PublicString (fixed32 client)) "nonce"
    (Tokens.SignProof client authorityProof [operation; pipeID; "nonce"; jti_of token]) record [] lease.

Definition world0 : world := mkWorld no_relations empty_sync 0 0.

(** The owner asks for a publish grant and announces its Pipe, open to members. *)
Definition publisher_token : string := Eval vm_compute in member_token "publisher".
Definition grant : string := Eval vm_compute in
  as_Grant (process clk dice lab_authority (ask "pipe_publish.request" publisher_token pipe owner_key "" "") world0).1.
Definition web_record : Records.PipeRecord := Eval vm_compute in
  match Records.Sign (Records.mkPipeRecord 2 pipe "web" "" "peer" lab "http" None (Some ["/p2p/peer"]) "discoverable"
                        "members" grant noon (Add noon (10 * Minute)) 1 "") owner_key with
  | Ok r => r | Fail _ => Records.no_record end.
Definition web_text : string := Eval vm_compute in text_or_empty (Records.Marshal web_record).
Definition announcement : AuthorityRequest := Eval vm_compute in
  ask "records.announce" publisher_token pipe owner_key web_text "".
Definition world1 : world := (process clk dice lab_authority announcement world0).2.

(** A member asks for leases. *)
Definition connecting : AuthorityRequest := Eval vm_compute in
  ask "connect_access.issue" (member_token "member") pipe "recipient" "" "".
Definition connected : AuthorityResponse * world := process clk dice lab_authority connecting world1.
End ScopeSample.
Import SampleKeys ScopeSample.

Lemma scope_leases_justified_witness :
  ∃ invite, accepted_request clk lab_authority connecting invite 3 ∧
    lease_pair clk lab_authority (PublicString (fixed32 "recipient")) pipe 0 (as_Lease connected.1) (as_RefreshLease connected.1) ∧
    lease_reason clk lab_authority connecting invite world1 connected.2.
Proof.
  assert (Hl : as_Lease connected.1 ≠ "") by (vm_compute; discriminate).
  assert (Ht : w_ticks world1 = 3%nat) by (vm_compute; reflexivity).
  destruct (scope_leases_justified clk dice lab_authority connecting world1 connected.1 connected.2
              (surjective_pairing _) Hl) as (invite & Ha & Hp & Hr).
  exists invite. rewrite Ht in Ha. split; [exact Ha|]. split; [|exact Hr].
  assert (E : pipe_epoch lab_authority world1 (aq_PipeID connecting) = 0) by (vm_compute; reflexivity).
  rewrite E in Hp. exact Hp.
Defined.

(** C11: an authority keeps for its scope only what was announced to it properly. Whatever
    requests it processes, a record that it has for a Pipe of its scope was there before or
    comes from an announcement in between: a request of a publisher, authenticated as its
    sender's by token and proof of possession, that carried the record of this Pipe with a
    publish grant of this authority whose subject is the very key that announces; grant and
    record verified at the reading of the clock that follows the authentication; and the
    row holds the text, name, sequence and expiry of that record. So every record that was
    reached from an empty store is one that verified when it was announced. The redeemer of
    a share invite and a revocation, once recorded, stay. *)
Theorem scope_records_published `{Ed25519} clock rnd h w w' :
  rtc (authority_step clock rnd h) w w' →
  (∀ pipeID row, records (w_sync w') !! (h_name h, pipeID) = Some row →
     records (w_sync w) !! (h_name h, pipeID) = Some row ∨ origin clock rnd h w w' pipeID row) ∧
  (published clock h w → published clock h w') ∧
  (records (w_sync w) = ∅ → published clock h w') ∧
  (∀ k row, invite_redemptions (w_rel w) !! k = Some row → invite_redemptions (w_rel w') !! k = Some row) ∧
  (∀ k, is_Some (revocations (w_rel w) !! k) → is_Some (revocations (w_rel w') !! k)).
Proof.
  intros Hs. pose proof (steps_published clock rnd h _ _ Hs) as Hp.
  split; [intros pipeID row; by apply steps_origin|]. split; [exact Hp|]. split.
  - intros E. apply Hp. intros p row. by rewrite E, lookup_empty.
  - clear Hp. induction Hs as [|a b c Hs _ [IH1 IH2]]; [done|]. apply step_effect in Hs as (q & invite & He). split.
    + intros k row Hk. by apply IH1, (ef_redeemed _ _ _ _ _ _ He).
    + intros k Hk. apply IH2. destruct (revocations (w_rel b) !! k) eqn:E; [done|].
      by rewrite (ef_revoked _ _ _ _ _ _ He k E) in Hk.
Qed.

Lemma scope_records_published_witness :
  published clk lab_authority world1 ∧
  ∃ row, rr_payload row = web_text ∧ origin clk dice lab_authority world0 world1 pipe row.
Proof.
  assert (Hs : rtc (authority_step clk dice lab_authority) world0 world1) by (apply rtc_once, step_request).
  destruct (scope_records_published clk dice lab_authority world0 world1 Hs) as (Ho & _ & Hp & _).
  split; [exact (Hp eq_refl)|].
  assert (E : rr_payload <$> records (w_sync world1) !! (ScopeString lab, pipe) = Some web_text) by (vm_compute; reflexivity).
  destruct (records (w_sync world1) !! (ScopeString lab, pipe)) as [row|] eqn:Er; [|discriminate E].
  exists row. split; [injection E as E; exact E|].
  destruct (Ho pipe row Er) as [Hw|Hw]; [|exact Hw]. exfalso. cbn in Hw. rewrite lookup_empty in Hw. discriminate Hw.
Defined.
