(* ===== verification/ScopeClient.v ===== *)
(** * Members of a scope

    The tables [scopes] and [memberships] of [internal/store/store.go] and
    [internal/runtime/client.go]: how a member asks the authority of a scope for grants,
    leases, invites and revocations, and how it fetches the snapshot of a scope and
    reconciles it into its own store.

    The overlay network is a record of operations on a state of its own: opening the host,
    dialling the authority, opening a stream, exchanging one message for another, and the
    pause between two attempts, which fails when the caller's context ends. Key files are
    read by a function of the path. Clock and random source are read as by the authority. *)
From stdpp Require Import sorting.
From S2P Require Import Prelude GoStrings GoTime Encoding Json JsonRoundTrip JsonTree Sha256.
From S2P Require Import Credentials Domain StoreRelations StoreSync StoreObjects.
From S2P Require Import OpenBoundary Frames Effects ScopeTokens ScopeAuthority.
Open Scope Z_scope.

(** ** Scopes and memberships *)
Record ScopeRow := mkScopeRow {
  sc_Name : string; sc_AuthorityPublic : string; sc_AuthorityKeyFile : string; sc_NamespaceKeyFile : string }.
Record Membership := mkMembership {
  mb_Scope : string; mb_Role : string; mb_Token : string; mb_AuthorityPublic : string;
  mb_AuthorityAddress : string; mb_ClientKeyFile : string }.

Record scope_tables := mkScopeTables { scopes : gmap string ScopeRow; memberships : gmap string Membership }.
Definition no_scopes : scope_tables := mkScopeTables ∅ ∅.

Definition PutScope (v : ScopeRow) (d : scope_tables) : res unit * scope_tables :=
  match scopes d !! sc_Name v with
  | Some _ => (Fail unique_failed, d)
  | None => (Ok tt, mkScopeTables (<[sc_Name v := v]> (scopes d)) (memberships d))
  end.
Definition ScopeNamed (d : scope_tables) (name : string) : res ScopeRow :=
  need (scopes d !! name) (wrapf ErrNotFound "resource not found: scope").

Definition PutMembership (v : Membership) (d : scope_tables) : res unit * scope_tables :=
  (Ok tt, mkScopeTables (scopes d) (<[mb_Scope v := v]> (memberships d))).
Definition MembershipOf (d : scope_tables) (scope : string) : res Membership :=
  need (memberships d !! scope) (wrapf ErrNotFound "resource not found: membership").

(** [ORDER BY] of the primary key. *)
Definition by_key {R} (a b : string * R) : Prop := text_le a.1 b.1 = true.
#[export] Instance by_key_dec {R} (a b : string * R) : Decision (by_key a b).
Proof. unfold by_key. apply _. Defined.
Definition ordered {R} (m : gmap string R) : list (string * R) := merge_sort by_key (map_to_list m).

Definition Scopes (d : scope_tables) : res (list ScopeRow) := Ok (map snd (ordered (scopes d))).
Definition FirstScope (d : scope_tables) : res ScopeRow :=
  '(name, _) ← need (head (ordered (scopes d))) (errorf "sql: no rows in result set");
  ScopeNamed d name.
Definition Memberships (d : scope_tables) : res (list Membership) := Ok (map snd (ordered (memberships d))).

(** ** Strings *)
Fixpoint contains_bytes (p l : list ascii) : bool :=
  bool_decide (p `prefix_of` l) || match l with [] => false | _ :: l => contains_bytes p l end.
(** [strings.Contains]. *)
Definition Contains (s sub : string) : bool := contains_bytes (bytes_of sub) (bytes_of s).

(** [hex.EncodeToString]. *)
Definition hex_encode (s : string) : string :=
  of_bytes (concat (map (λ c, [hex_digit (code c / 16); hex_digit (code c mod 16)]) (bytes_of s))).

(** [sort.Strings]. *)
Definition text_order (a b : string) : Prop := text_le a b = true.
#[export] Instance text_order_dec a b : Decision (text_order a b).
Proof. unfold text_order. apply _. Defined.
Definition sort_strings (l : list string) : list string := merge_sort text_order l.

(** ** The network *)
Record network (N : Type) := mkNetwork {
  open_host : N → res unit * N;
  dial : string → N → res unit * N;
  new_stream : string → N → res unit * N;
  call_authority : AuthorityRequest → N → res AuthorityResponse * N;
  call_snapshot : AuthoritySnapshotRequest → N → res AuthoritySnapshotResponse * N;
  pause : N → res unit * N;
}.
Arguments open_host {N}. Arguments dial {N}. Arguments new_stream {N}. Arguments call_authority {N}.
Arguments call_snapshot {N}. Arguments pause {N}.

Definition AuthorityID : string := "/tubo/authority/2.0".
Definition AuthoritySnapshotID : string := "/tubo/authority/2.1".

Record member (N : Type) := mkMember {
  m_scopes : scope_tables; m_sync : sync_db; m_ticks : nat; m_draws : nat; m_net : N }.
Arguments mkMember {N}. Arguments m_scopes {N}. Arguments m_sync {N}. Arguments m_ticks {N}.
Arguments m_draws {N}. Arguments m_net {N}.

Section client.
Context `{Ed25519} {N : Type} (net : network N) (clock : nat → time) (rnd : nat → entropy)
  (load : string → res PrivateKey).

Abbreviation MM := (M (member N)).

Definition time_now : MM time := op (λ w,
  (Ok (clock (m_ticks w)), mkMember (m_scopes w) (m_sync w) (S (m_ticks w)) (m_draws w) (m_net w))).
(** A failing random source leaves the buffer of zeros. *)
Definition randomNonce : MM string := op (λ w,
  (Ok (base64_encode (match rnd (m_draws w) with Ok v => v | Fail _ => of_bytes (replicate 24 NUL) end)),
   mkMember (m_scopes w) (m_sync w) (m_ticks w) (S (m_draws w)) (m_net w))).
Definition online {A} (f : N → res A * N) : MM A := op (λ w,
  let '(r, n) := f (m_net w) in (r, mkMember (m_scopes w) (m_sync w) (m_ticks w) (m_draws w) n)).
Definition in_sync {A} (f : sync_db → res A * sync_db) : MM A := op (λ w,
  let '(r, d) := f (m_sync w) in (r, mkMember (m_scopes w) d (m_ticks w) (m_draws w) (m_net w))).
Definition get_membership (scope : string) : MM Membership := op (λ w, (MembershipOf (m_scopes w) scope, w)).

Definition said (prefix : string) {A} (m : MM A) : MM A := wrapped (prefixed prefix) m.

(** ** Requests of the protocol 2.0 *)
Definition authority_error (r : AuthorityResponse) : res AuthorityResponse :=
  if as_OK r then Ok r else Fail (errorf (as_Error r)).

Definition authorityRequestOnce (scope operation pipeID record : string) : MM AuthorityResponse :=
  membership ← get_membership scope;
  private ← lift (load (mb_ClientKeyFile membership));
  _ ← said "authority_unreachable: " (online (dial net (mb_AuthorityAddress membership)));
  _ ← said "authority_unreachable: " (online (new_stream net AuthorityID));
  nonce ← randomNonce;
  let public := Tokens.PublicString (Public private) in
  invite ← lift (Tokens.Decode (mb_Token membership));
  let proof := Tokens.SignProof private authorityProof [operation; pipeID; nonce; Tokens.JTI invite] in
  response ← online (call_authority net
    (mkAuthorityRequest operation (mb_Token membership) pipeID public nonce proof record [] ""));
  lift (authority_error response).

Definition mentions (e : error) (words : list string) : bool := existsb (Contains (err_text e)) words.

(** At most ten attempts; an answer or an error that another attempt would not change ends them. *)
Fixpoint retry {A} (final : list string) (once : MM A) (n : nat) (last : error) : MM A :=
  match n with
  | O => fail last
  | S n =>
      r ← attempt once;
      match r with
      | Ok a => mret a
      | Fail e => if mentions e final then fail e else _ ← online (pause net); retry final once n e
      end
  end.

Definition attempts : nat := 10.
Definition authority_final : list string :=
  ["authorization_denied"; "invalid_input"; "not_found"; "incomplete authoritative snapshot"].

Definition authorityRequestPayload (scope operation pipeID record : string) : MM AuthorityResponse :=
  retry authority_final (authorityRequestOnce scope operation pipeID record) attempts (errorf "").
Definition authorityRequest (scope operation pipeID : string) : MM AuthorityResponse :=
  authorityRequestPayload scope operation pipeID "".

Definition authorityRequestWithToken (scope operation pipeID token accessLease : string) : MM AuthorityResponse :=
  membership ← get_membership scope;
  private ← lift (load (mb_ClientKeyFile membership));
  _ ← said "authority_unreachable: " (online (dial net (mb_AuthorityAddress membership)));
  _ ← said "authority_unreachable: " (online (new_stream net AuthorityID));
  decoded ← lift (Tokens.Decode token);
  nonce ← randomNonce;
  let public := Tokens.PublicString (Public private) in
  let proof := Tokens.SignProof private authorityProof [operation; pipeID; nonce; Tokens.JTI decoded] in
  response ← online (call_authority net
    (mkAuthorityRequest operation token pipeID public nonce proof "" [] accessLease));
  lift (authority_error response).

Definition lease_pair_of (text : string) (r : AuthorityResponse) : MM (string * string) :=
  _ ← guard ((as_Lease r =s "") || (as_RefreshLease r =s "")) (errorf text);
  mret (as_Lease r, as_RefreshLease r).

Definition RequestLeasePair (scope pipeID : string) : MM (string * string) :=
  response ← authorityRequest scope "connect_access.issue" pipeID;
  lease_pair_of "authority returned empty lease" response.
Definition RequestLease (scope pipeID : string) : MM string :=
  '(lease, _) ← RequestLeasePair scope pipeID; mret lease.

Definition RequestRefreshLease (scope pipeID accessLease refreshLease : string) : MM (string * string) :=
  response ← authorityRequestWithToken scope "connect_refresh.exchange" pipeID refreshLease accessLease;
  lease_pair_of "authority returned empty refreshed lease" response.

Definition RequestRevoke (scope subjectType subjectJTI : string) (epoch : Z) : MM unit :=
  let payload := JObj [("epoch", JNum (json_int epoch)); ("subject_jti", jstr subjectJTI);
                       ("subject_type", jstr subjectType)] in
  _ ← authorityRequestPayload scope "revocation.issue" "" (of_bytes (show payload)); mret tt.

Definition RequestShareInvite (scope pipeID : string) : MM string :=
  membership ← get_membership scope;
  let route := JObj [("authority_address", jstr (mb_AuthorityAddress membership))] in
  response ← authorityRequestPayload scope "share_invite.issue" pipeID (of_bytes (show route));
  _ ← guard (as_Invite response =s "") (errorf "authority returned empty share invite");
  mret (as_Invite response).

Definition RedeemShareInvite (scope inviteToken : string) : MM (string * string) :=
  invite ← lift (Tokens.Decode inviteToken);
  response ← authorityRequestWithToken scope "share_invite.redeem" (Tokens.Audience invite) inviteToken "";
  lease_pair_of "authority returned empty redeemed lease" response.

Definition RequestPublishGrant (scope pipeID : string) : MM string :=
  response ← authorityRequest scope "pipe_publish.request" pipeID;
  _ ← guard (as_Grant response =s "") (errorf "authority returned empty publish grant");
  mret (as_Grant response).

Definition AnnounceRecord (record : Records.PipeRecord) : MM unit :=
  data ← lift (Records.Marshal record);
  _ ← authorityRequestPayload (ScopeString (Records.InScope record)) "records.announce" (Records.PipeID record) data;
  mret tt.

(** The key that a scope is pinned to: the local authority's, or the membership's. *)
Definition AuthorityPublicForScope (scope : string) : MM string := op (λ w,
  (match ScopeNamed (m_scopes w) scope with
   | Ok local => Tokens.PublicFromString (sc_AuthorityPublic local)
   | Fail _ => membership ← MembershipOf (m_scopes w) scope; Tokens.PublicFromString (mb_AuthorityPublic membership)
   end, w)).

(** ** Snapshots, protocol 2.1 *)
Definition authoritySnapshotRequestOnce (scope : string) : MM AuthoritySnapshotResponse :=
  membership ← get_membership scope;
  private ← lift (load (mb_ClientKeyFile membership));
  _ ← said "authority_unreachable: " (online (dial net (mb_AuthorityAddress membership)));
  _ ← said "authority_unreachable: authority 2.1 unavailable: " (online (new_stream net AuthoritySnapshotID));
  nonce ← randomNonce;
  let public := Tokens.PublicString (Public private) in
  invite ← lift (Tokens.Decode (mb_Token membership));
  let proof := Tokens.SignProof private authorityProof ["records.list"; ""; nonce; Tokens.JTI invite] in
  response ← online (call_snapshot net (mkSnapshotRequest (mb_Token membership) public nonce proof));
  lift (if sr_OK response then Ok response else Fail (errorf (sr_Error response))).

Definition snapshot_final : list string :=
  ["authorization_denied"; "invalid_input"; "incomplete authoritative snapshot"].
Definition authoritySnapshotRequest (scope : string) : MM AuthoritySnapshotResponse :=
  retry snapshot_final (authoritySnapshotRequestOnce scope) attempts (errorf "").

Definition discoveryErrorClass (e : error) : string :=
  if Contains (err_text e) "authority_unreachable" then "authority_unreachable"
  else if Contains (err_text e) "authorization_denied" then "authorization_denied"
  else if Contains (err_text e) "incomplete authoritative snapshot" then "partial_snapshot"
  else if Contains (err_text e) "invalid discovered record" || Contains (err_text e) "invalid authoritative snapshot"
  then "invalid_snapshot"
  else "discovery_unreachable".

(** The records of a response: each parses, verifies under the pinned key and is the only
    one of its Pipe. [wall] and [now] are readings of the clock. *)
Fixpoint verified_records (wall : time) (scope public : string) (expected : Scope) (now : time)
    (seen : list string) (raws : list string) : res (list (Records.PipeRecord * Record_)) :=
  match raws with
  | [] => Ok []
  | raw :: raws =>
      record ← with_prefix "invalid discovered record: " (Records.Parse raw);
      _ ← with_prefix "invalid discovered record: " (Records.Verify wall record public expected now);
      _ ← refuse (mem_str (Records.PipeID record) seen) (errorf "invalid authoritative snapshot duplicate pipe_id");
      data ← with_prefix "invalid discovered record: " (Records.Marshal record);
      rest ← verified_records wall scope public expected now (Records.PipeID record :: seen) raws;
      Ok ((record, mkRecord scope (Records.PipeID record) (Records.DisplayName record) data (Records.ExpiresAt record)
                     (Records.Sequence record) true) :: rest)
  end.

Definition snapshot_digest (stored : list Record_) : string :=
  let keys := sort_strings (map (λ r, r_PipeID r +:+ nul +:+ r_Payload r) stored) in
  hex_encode (sha256 (fold_right (λ k acc, k +:+ nul +:+ acc) "" keys)).

Definition reconcileAuthorityResponseWithLease (scope public : string) (expected : Scope)
    (response : AuthoritySnapshotResponse) (now : time) (lease : option ScopeSyncLease) : MM (list Records.PipeRecord) :=
  _ ← guard ((sr_Generation response =? 0) || (sr_HighWater response =? 0)
             || (MaxSnapshotRecords <? llen (sr_Records response))) (errorf "invalid authoritative snapshot metadata");
  verified ← lift (verified_records now scope public expected now [] (sr_Records response));
  let stored := map snd verified in
  let snapshot := mkSnapshot SnapshotSourcePinnedAuthority true (sr_Generation response) (sr_HighWater response)
                    (snapshot_digest stored) stored in
  t ← time_now;
  _ ← in_sync (match lease with
               | Some l => ReconcileAuthoritativeSnapshotWithLease t l snapshot
               | None => ReconcileAuthoritativeSnapshot t scope snapshot
               end);
  mret (map fst verified).

Definition snapshotRetryDelay : duration := 30 * Second.

(** Recording a failed refresh, under the lease if there is one. *)
Definition refresh_failed {A} (scope : string) (lease : option ScopeSyncLease) (cause : error) : MM A :=
  t ← time_now;
  let nextRetry := Some (Add (UTC t) snapshotRetryDelay) in
  t' ← time_now;
  _ ← said "persistence_failed: record refresh failure: " (in_sync (match lease with
        | Some l => RecordSnapshotFailureWithLease t' l SnapshotSourcePinnedAuthority (discoveryErrorClass cause) nextRetry
        | None => RecordSnapshotFailure t' scope SnapshotSourcePinnedAuthority (discoveryErrorClass cause) nextRetry
        end));
  fail cause.

(** [FetchRecordsWithOptions] after the cooldown: every failure is recorded. *)
Definition refresh (scope : string) (lease : option ScopeSyncLease) : MM (list Records.PipeRecord) :=
  membership ← get_membership scope;
  public ← lift (Tokens.PublicFromString (mb_AuthorityPublic membership));
  parsedScope ← lift (parseScope scope);
  _ ← online (open_host net);
  response ← authoritySnapshotRequest scope;
  t ← time_now;
  reconcileAuthorityResponseWithLease scope public parsedScope response (UTC t) lease.

Definition FetchRecordsWithOptions (scope : string) (force : bool) (lease : option ScopeSyncLease)
    : MM (list Records.PipeRecord) :=
  t ← time_now;
  freshness ← attempt (op (λ w, (ScopeFreshnessOf (m_sync w) scope, w)));
  _ ← lift (match freshness with
            | Ok f => refuse (negb force && match f_NextRetry f with Some r => Before (UTC t) r | None => false end)
                        (errorf "discovery_retry_after")
            | Fail e => refuse (negb (errors_Is e ErrNotFound)) (prefixed "persistence_failed: discovery freshness: " e)
            end);
  r ← attempt (refresh scope lease);
  match r with
  | Ok result => mret result
  | Fail cause => refresh_failed scope lease cause
  end.
Definition FetchRecords (scope : string) : MM (list Records.PipeRecord) := FetchRecordsWithOptions scope false None.

(** A cached record is used only when it still verifies and is the one of its row. *)
Definition ParseVerifiedRecord (stored : Record_) : MM Records.PipeRecord :=
  record ← lift (Records.Parse (r_Payload stored));
  _ ← guard ((Records.PipeID record <>s r_PipeID stored) || (ScopeString (Records.InScope record) <>s r_Scope stored)
             || negb (Records.Sequence record =? r_Sequence stored)) (errorf "cached record index binding mismatch");
  membership ← get_membership (ScopeString (Records.InScope record));
  public ← lift (Tokens.PublicFromString (mb_AuthorityPublic membership));
  t ← time_now;
  _ ← said "cached record verification: " (lift (Records.Verify t record public (Records.InScope record) (UTC t)));
  mret record.
End client.
