(* ===== verification/ScopeClientProps.v ===== *)
(** * What a member learns of a scope

    The snapshot of an authority is exactly its records, and after a refresh the discovered
    records of a member are exactly the records of the authority. *)
From stdpp Require Import sorting.
From S2P Require Import Prelude GoStrings GoTime Encoding Json JsonRoundTrip JsonTree Sha256.
From S2P Require Import Credentials CredentialFacts CredentialVerify Domain.
From S2P Require Import StoreRelations StoreRelationFacts StoreSync StoreSyncFacts StoreObjects.
From S2P Require Import OpenBoundary Frames Effects ScopeTokens ScopeTokenFacts ScopeAuthority ScopeAuthorityProps ScopeClient.
Import TokenFacts.
Open Scope Z_scope.

(** ** The rows of a snapshot *)
Lemma scan_records_rows rows vs :
  scan_records rows = Ok vs →
  Forall2 (λ kv v, r_Scope v = kv.1.1 ∧ r_PipeID v = kv.1.2 ∧ r_Payload v = rr_payload kv.2 ∧
                   r_Sequence v = rr_sequence kv.2) rows vs.
Proof.
  revert vs. induction rows as [|[[s p] row] rows IH]; intros vs E; cbn [scan_records] in E.
  { apply Ok_inj in E. subst. constructor. }
  apply bind_ok in E as (t & _ & E). apply bind_ok in E as (out & Ho & E). apply Ok_inj in E. subst.
  constructor; [done|by apply IH].
Qed.

Lemma select_elem p key d kv : kv ∈ select p key d ↔ records d !! kv.1 = Some kv.2 ∧ p kv.1 kv.2 = true.
Proof.
  unfold select. rewrite merge_sort_Permutation. destruct kv as [k row].
  rewrite list_elem_of_In, filter_In, <- list_elem_of_In, elem_of_map_to_list. done.
Qed.

(** A complete snapshot lists the local rows of the scope, with the counters. *)
Lemma authority_snapshot_exact now scope limit d vs g hw d' :
  AuthoritySnapshot now scope limit d = (Ok (vs, g, hw, true), d') →
  authority_snapshots d' !! scope = Some (g, hw) ∧ g ≠ 0 ∧ hw ≠ 0 ∧
  (∀ pipe row, records d' !! (scope, pipe) = Some row → rr_discovered row = false →
     ∃ v, v ∈ vs ∧ r_PipeID v = pipe ∧ r_Payload v = rr_payload row) ∧
  (∀ v, v ∈ vs → ∃ row, records d' !! (scope, r_PipeID v) = Some row ∧ rr_discovered row = false ∧
     text_lt (column_time now) (rr_expires row) = true ∧ r_Payload v = rr_payload row) ∧
  (∀ k row, records d' !! k = Some row → records d !! k = Some row).
Proof.
  unfold AuthoritySnapshot. destruct (_ || _) eqn:El; [done|]. repeat bool_step. intros E%in_tx_ok.
  unfold authority_snapshot_tx in E. cbv zeta in E. destruct (delete_where _ d) as [c d0] eqn:E0.
  assert (Hdel : ∀ k row, records d0 !! k = Some row ↔ records d !! k = Some row ∧
    (k.1 =s scope) && negb (rr_discovered row) && text_le (rr_expires row) (column_time now) = false).
  { intros k row. replace d0 with (delete_where (λ k row, (k.1 =s scope) && negb (rr_discovered row)
      && text_le (rr_expires row) (column_time now)) d).2 by (by rewrite E0). apply delete_where_lookup. }
  apply bind_ok in E as ([[] d1] & H1 & E). apply bind_ok in E as ([g1 h1] & Hg%need_ok & E).
  apply bind_ok in E as (u & Hz%refuse_ok & E). apply bind_ok in E as (rs & Hscan & E).
  destruct (Z.leb_spec (llen rs) limit) as [Hle|]; [|done]. apply Ok_inj in E as [= -> -> -> <-]. repeat bool_step.
  assert (R1 : records d1 = records d0).
  { destruct (0 <? c); [|by apply Ok_inj in H1 as [= <-]]. unfold advanceAuthoritySnapshotTx in H1.
    repeat case_match; simplify_eq; done. }
  apply scan_records_rows in Hscan. set (rows := select _ _ d1) in Hscan.
  assert (Htake : take (Z.to_nat (limit + 1)) rows = rows).
  { apply take_ge. pose proof (Forall2_length _ _ _ Hscan) as Hlen. rewrite length_take in Hlen. unfold llen in *. lia. }
  rewrite Htake in Hscan. split; [done|]. split; [done|]. split; [done|]. split; [|split].
  - intros p row Hr Hd.
    assert (Hin : ((scope, p), row) ∈ rows).
    { apply select_elem. split; [done|]. cbn. rewrite seqb_refl, Hd. cbn. rewrite R1 in Hr. apply Hdel in Hr as [_ Hr].
      cbn in Hr. rewrite seqb_refl, Hd in Hr. cbn in Hr. unfold text_le in Hr. by apply negb_false_iff in Hr. }
    apply list_elem_of_lookup in Hin as [i Hi]. destruct (Forall2_lookup_l _ _ _ _ _ Hscan Hi) as (v & Hv & ? & ? & ? & ?).
    exists v. split; [by eapply list_elem_of_lookup_2|done].
  - intros v [i Hv]%list_elem_of_lookup. destruct (Forall2_lookup_r _ _ _ _ _ Hscan Hv) as ([k row] & Hi & Hs & Hp & Hy & _).
    apply list_elem_of_lookup_2, select_elem in Hi as [Hr Hsel]. cbn in *. repeat bool_step. destruct k as [ks kp]. cbn in *. subst.
    by exists row.
  - intros k row. rewrite R1. by intros [? _]%Hdel.
Qed.

(** ** The response of an authority *)
Section snapshot.
Context `{Ed25519} (clock : nat → time) (h : authorityHandler).

(** A record of the scope that members may learn of. *)
Definition offered (d : sync_db) (pipeID payload : string) : Prop :=
  ∃ row r, records d !! (h_name h, pipeID) = Some row ∧ rr_discovered row = false ∧ rr_payload row = payload ∧
    Records.Parse payload = Ok r ∧ Records.Visibility r = VisibilityDiscoverable.

Lemma snapshot_loop_run l rs w l' w' :
  snapshot_loop clock h l rs w = (Ok l', w') →
  (∀ v, v ∈ rs → ∃ r, Records.Parse (r_Payload v) = Ok r) ∧
  ∀ p, p ∈ l' ↔ p ∈ l ∨ ∃ v r, v ∈ rs ∧ r_Payload v = p ∧ Records.Parse p = Ok r ∧
                               Records.Visibility r = VisibilityDiscoverable.
Proof.
  revert l w. induction rs as [|v rs IH]; intros l w E; cbn [snapshot_loop] in E.
  { apply (inj2 pair) in E as [E _]. apply Ok_inj in E. subst. split; [by intros v Hv%not_elem_of_nil|].
    intros p. split; [by left|]. intros [?|(v & r & Hv%not_elem_of_nil & _)]; done. }
  apply bind_run in E as (r & w1 & Hr & E). apply stored_record_run in Hr as (_ & Hp & _).
  apply IH in E as [Hall Hl]. split.
  - intros v' [->|Hv]%elem_of_cons; [by exists r|by apply Hall].
  - intros p. rewrite Hl. clear Hl IH Hall. destruct (Records.Visibility r =s VisibilityDiscoverable) eqn:Ev.
    + apply seqb_true in Ev. rewrite elem_of_app, list_elem_of_singleton. split.
      * intros [[?| ->]|(v' & r' & Hv & ?)]; [by left|right; exists v, r; by split; [left|]|].
        right. exists v', r'. by split; [right|].
      * intros [?|(v' & r' & [->|Hv]%elem_of_cons & Hy & ?)]; [by left; left|by left; right|]. right. by exists v', r'.
    + apply seqb_false in Ev. split.
      * intros [?|(v' & r' & Hv & ?)]; [by left|]. right. exists v', r'. by split; [right|].
      * intros [?|(v' & r' & [->|Hv]%elem_of_cons & Hy & Hp' & Hd)]; [by left| |right; by exists v', r'].
        exfalso. subst p. congruence.
Qed.

(** An answered snapshot carries exactly the offered payloads and the counters of the store. *)
Lemma snapshot_exact q w resp w' :
  processSnapshot clock h q w = (resp, w') → sr_OK resp = true →
  authority_snapshots (w_sync w') !! h_name h = Some (sr_Generation resp, sr_HighWater resp) ∧
  sr_Generation resp ≠ 0 ∧ sr_HighWater resp ≠ 0 ∧
  (∀ p, p ∈ sr_Records resp ↔ ∃ pipeID, offered (w_sync w') pipeID p) ∧
  (∀ pipeID row, records (w_sync w') !! (h_name h, pipeID) = Some row → rr_discovered row = false →
     ∃ r, Records.Parse (rr_payload row) = Ok r) ∧
  (∀ k row, records (w_sync w') !! k = Some row → records (w_sync w) !! k = Some row) ∧
  ∃ text, marshal_snapshot resp = Ok text ∧ slen text ≤ MaxFrame.
Proof.
  unfold processSnapshot. destruct (snapshot_body clock h q w) as [[r|e] w2] eqn:E; intros [= <- <-] Hok; [|done].
  unfold snapshot_body, check, instead in E. apply bind_run in E as (u & w1 & Ha & E).
  pose proof (same_run _ _ _ _ (same_snapshot_authenticate clock h q) Ha) as [_ Hs1].
  apply bind_run in E as (t & w3 & Hn & E). unfold now, op in Hn. injection Hn as <- <-.
  apply bind_run in E as ([[[vs g] hw] complete] & w4 & Hsn & E). cbv beta iota in E.
  unfold on_sync, op in Hsn. cbn [w_sync] in Hsn. rewrite Hs1 in Hsn.
  destruct (AuthoritySnapshot _ _ _ (w_sync w)) as [rs d] eqn:Ed. injection Hsn as -> <-.
  apply bind_run in E as (u2 & w5 & [Hc <-]%guard_run & E). apply negb_false_iff in Hc. subst complete.
  apply bind_run in E as (l & w6 & Hl & E).
  pose proof (same_run _ _ _ _ (same_snapshot_loop clock h [] vs) Hl) as [_ Hs6]. cbn [w_sync] in Hs6.
  apply snapshot_loop_run in Hl as [Hall Hl]. cbv zeta in E.
  apply bind_run in E as (text & w7 & Ht & E). apply wrapped_run, lift_run in Ht as [Ht <-].
  apply bind_run in E as (u3 & w8 & [Hsz <-]%guard_run & E). apply (inj2 pair) in E as [E <-]. apply Ok_inj in E. subst r.
  rewrite Hs6. cbn [sr_Generation sr_HighWater sr_Records].
  apply authority_snapshot_exact in Ed as (Hcnt & Hg & Hh & Hto & Hfrom & Hsub).
  split; [done|]. split; [done|]. split; [done|]. split; [|split; [|split; [done|]]].
  - intros p. rewrite Hl. split.
    + intros [Hp|(v & r & Hv & <- & Hp & Hd)]; [by apply not_elem_of_nil in Hp|].
      destruct (Hfrom v Hv) as (row & Hr & Hdi & _ & Hy). exists (r_PipeID v), row, r. by rewrite Hy in *.
    + intros (pid & row & r & Hr & Hdi & <- & Hp & Hd). right. destruct (Hto pid row Hr Hdi) as (v & Hv & _ & Hy).
      exists v, r. by rewrite <- Hy in *.
  - intros pid row Hr Hdi. destruct (Hto pid row Hr Hdi) as (v & Hv & _ & Hy). rewrite <- Hy. by apply Hall.
  - exists text. split; [done|]. by apply Z.ltb_ge in Hsz.
Qed.
End snapshot.

(** ** Reading a response *)
Section client.
Context `{Ed25519} {N : Type} (net : network N) (clock : nat → time) (rnd : nat → entropy) (load : string → res PrivateKey).

(** The row a verified record is stored as. *)
Definition stored_as (scope raw : string) (v : Records.PipeRecord * Record_) : Prop :=
  Records.Parse raw = Ok v.1 ∧
  ∃ data, Records.Marshal v.1 = Ok data ∧
    v.2 = mkRecord scope (Records.PipeID v.1) (Records.DisplayName v.1) data (Records.ExpiresAt v.1) (Records.Sequence v.1) true.

Lemma verified_ok wall scope public expected now seen raws vs :
  verified_records wall scope public expected now seen raws = Ok vs → Forall2 (stored_as scope) raws vs.
Proof.
  revert seen vs. induction raws as [|raw raws IH]; intros seen vs E; cbn [verified_records] in E.
  { apply Ok_inj in E. subst. constructor. }
  apply bind_ok in E as (r & Hr%RecordFacts.with_prefix_ok & E). apply bind_ok in E as (u & _ & E).
  apply bind_ok in E as (u2 & _ & E). apply bind_ok in E as (data & Hd%RecordFacts.with_prefix_ok & E).
  apply bind_ok in E as (rest & Hrest & E). apply Ok_inj in E. subst. constructor; [|by eapply IH].
  split; [done|]. by exists data.
Qed.

(** *** Requests leave the store of the member alone, and only read the clock on *)
Definition same_store (w w' : member N) : Prop :=
  m_sync w' = m_sync w ∧ m_scopes w' = m_scopes w ∧ (m_ticks w ≤ m_ticks w')%nat.
#[local] Instance same_store_preorder : PreOrder same_store.
Proof. split; [by intros w|]. intros a b c (? & ? & ?) (? & ? & ?). split_and!; [congruence..|lia]. Qed.

Lemma store_online {A} (f : N → res A * N) : within same_store (online f).
Proof. intros w. unfold online, op. by destruct (f (m_net w)). Qed.
Lemma store_now : within same_store (time_now (N := N) clock).
Proof. intros w. unfold same_store. cbn. split_and!; [done..|lia]. Qed.
Lemma store_nonce : within same_store (randomNonce (N := N) rnd).
Proof. by intros w. Qed.
Lemma store_membership scope : within same_store (get_membership (N := N) scope).
Proof. by intros w. Qed.
#[local] Hint Resolve same_store_preorder store_online store_now store_nonce store_membership : effects.

Lemma store_once scope : within same_store (authoritySnapshotRequestOnce net rnd load scope).
Proof. unfold authoritySnapshotRequestOnce, said. solve_within. Qed.

Lemma store_retry {A} final (once : M (member N) A) n last :
  within same_store once → within same_store (retry net final once n last).
Proof. intros Ho. revert last. induction n; intros last; cbn [retry]; solve_within. Qed.

Lemma retry_run {A} final (once : M (member N) A) n last w a w' :
  within same_store once → retry net final once n last w = (Ok a, w') →
  ∃ w1, same_store w w1 ∧ once w1 = (Ok a, w').
Proof.
  intros Ho. revert last w. induction n as [|n IH]; intros last w E; cbn [retry] in E; [done|].
  apply bind_run in E as (r & w1 & Hr & E). apply attempt_run in Hr. pose proof (Ho w) as Hw. rewrite Hr in Hw.
  destruct r as [a0|e].
  - apply (inj2 pair) in E as [E ->]. apply Ok_inj in E. subst. by exists w.
  - destruct (mentions e final); [done|]. apply bind_run in E as (u & w2 & Hp & E).
    pose proof (store_online (pause net) w1) as Hs. rewrite Hp in Hs.
    apply IH in E as (w3 & Hs3 & E). exists w3. split; [|done]. etrans; [exact Hw|]. by etrans.
Qed.
(** What a successful refresh did with the response it got. *)
Lemma reconcile_run scope public expected resp t lease (w w' : member N) result :
  (∀ l, lease = Some l → s_Scope l = scope) →
  reconcileAuthorityResponseWithLease clock scope public expected resp t lease w = (Ok result, w') →
  ∃ vs, Forall2 (stored_as scope) (sr_Records resp) vs ∧ result = map fst vs ∧ m_net w' = m_net w ∧
    m_ticks w' = S (m_ticks w) ∧
    reconcileAuthoritativeSnapshot (clock (m_ticks w)) scope
      (mkSnapshot SnapshotSourcePinnedAuthority true (sr_Generation resp) (sr_HighWater resp)
         (snapshot_digest (map snd vs)) (map snd vs)) lease (m_sync w) = (Ok tt, m_sync w').
Proof.
  intros Hl. unfold reconcileAuthorityResponseWithLease. intros E.
  apply bind_run in E as (u & w1 & [_ <-]%guard_run & E). apply bind_run in E as (vs & w2 & [Hv <-]%lift_run & E).
  apply verified_ok in Hv. cbv zeta in E. apply bind_run in E as (t' & w3 & Hn & E). unfold time_now, op in Hn.
  injection Hn as <- <-. apply bind_run in E as (u2 & w4 & Hr & E). apply (inj2 pair) in E as [E <-]. apply Ok_inj in E.
  exists vs. split; [done|]. split; [done|]. destruct u2.
  unfold in_sync, op in Hr. cbn [m_sync] in Hr.
  destruct lease as [l|].
  - unfold ReconcileAuthoritativeSnapshotWithLease in Hr. rewrite (Hl l eq_refl) in Hr.
    destruct (reconcileAuthoritativeSnapshot _ _ _ _ (m_sync w)) as [r d] eqn:Er. injection Hr as -> <-. by split_and!.
  - unfold ReconcileAuthoritativeSnapshot in Hr.
    destruct (reconcileAuthoritativeSnapshot _ _ _ _ (m_sync w)) as [r d] eqn:Er. injection Hr as -> <-. by split_and!.
Qed.
End client.

(** ** A member and its authority *)
Section refresh.
Context `{Ed25519} (clock_a : nat → time) (h : authorityHandler).
Context (net : network world) (clock : nat → time) (rnd : nat → entropy) (load : string → res PrivateKey).

(** A network that may lose messages and let others talk to the authority meanwhile, under
    an invariant [I] of the authority, but delivers no other answers than the authority's. *)
Record honest_network (I : world → Prop) : Prop := {
  hn_open n : I n → I (open_host net n).2;
  hn_dial a n : I n → I (dial net a n).2;
  hn_stream p n : I n → I (new_stream net p n).2;
  hn_pause n : I n → I (pause net n).2;
  hn_call q n : I n → I (call_snapshot net q n).2;
  hn_answer q n resp n' : I n → call_snapshot net q n = (Ok resp, n') →
    ∃ n1, I n1 ∧ processSnapshot clock_a h q n1 = (resp, n');
}.

(** The rows of the scope are published records of seven-bit text in UTC. *)
Definition plain_published (n : world) : Prop := ∀ pipeID row,
  records (w_sync n) !! (h_name h, pipeID) = Some row → rr_discovered row = false →
  ∃ r g k, publishes clock_a h pipeID row r g k ∧ RecordFacts.wire_record r.

Definition counters_nonneg (n : world) : Prop := ∀ g hw,
  authority_snapshots (w_sync n) !! h_name h = Some (g, hw) → 0 ≤ g ∧ 0 ≤ hw.

Context (I : world → Prop) (HN : honest_network I).

Definition keeps (w w' : member world) : Prop := I (m_net w) → I (m_net w').
#[local] Instance keeps_preorder : PreOrder keeps.
Proof. unfold keeps. split; [by intros w|]. intros a b c; auto. Qed.

Lemma keeps_online {A} (f : world → res A * world) : (∀ n, I n → I (f n).2) → within keeps (online f).
Proof. intros Hf w. unfold online, op, keeps. specialize (Hf (m_net w)). by destruct (f (m_net w)). Qed.
Lemma keeps_now : within keeps (time_now clock).
Proof. intros w Hw. exact Hw. Qed.
Lemma keeps_nonce : within keeps (randomNonce rnd).
Proof. intros w Hw. exact Hw. Qed.
Lemma keeps_membership scope : within keeps (get_membership scope).
Proof. intros w Hw. exact Hw. Qed.
Lemma keeps_open : within keeps (online (open_host net)).
Proof. apply keeps_online. intros n. apply (hn_open _ HN). Qed.
Lemma keeps_dial a : within keeps (online (dial net a)).
Proof. apply keeps_online. intros n. apply (hn_dial _ HN). Qed.
Lemma keeps_stream p : within keeps (online (new_stream net p)).
Proof. apply keeps_online. intros n. apply (hn_stream _ HN). Qed.
Lemma keeps_pause : within keeps (online (pause net)).
Proof. apply keeps_online. intros n. apply (hn_pause _ HN). Qed.
Lemma keeps_call q : within keeps (online (call_snapshot net q)).
Proof. apply keeps_online. intros n. apply (hn_call _ HN). Qed.
#[local] Hint Resolve keeps_preorder keeps_now keeps_nonce keeps_membership keeps_open keeps_dial keeps_stream keeps_pause
  keeps_call : effects.

Lemma keeps_once scope : within keeps (authoritySnapshotRequestOnce net rnd load scope).
Proof. unfold authoritySnapshotRequestOnce, said. solve_within. Qed.
#[local] Hint Resolve keeps_once : effects.

Lemma once_run scope w resp w' :
  I (m_net w) → authoritySnapshotRequestOnce net rnd load scope w = (Ok resp, w') →
  sr_OK resp = true ∧ I (m_net w') ∧ ∃ q n1, I n1 ∧ processSnapshot clock_a h q n1 = (resp, m_net w').
Proof.
  intros HI. unfold authoritySnapshotRequestOnce, said. intros E.
  apply bind_run in E as (mb & w1 & E1 & E). apply bind_run in E as (k & w2 & E2 & E). apply bind_run in E as (u & w3 & E3 & E).
  apply bind_run in E as (u2 & w4 & E4 & E). apply bind_run in E as (nonce & w5 & E5 & E). cbv zeta in E.
  apply bind_run in E as (inv & w6 & E6 & E). apply bind_run in E as (r & w7 & E7 & E).
  assert (I6 : I (m_net w6)).
  { assert (K : ∀ A (m : M (member world) A) x a y, within keeps m → m x = (a, y) → I (m_net x) → I (m_net y)).
    { intros A m x a y Hm Ex. specialize (Hm x). by rewrite Ex in Hm. }
    eapply K in E1; [|solve_within|done]. eapply K in E2; [|solve_within|done]. eapply K in E3; [|solve_within|done].
    eapply K in E4; [|solve_within|done]. eapply K in E5; [|solve_within|done]. by eapply K in E6; [|solve_within|]. }
  apply lift_run in E as [Hok <-]. destruct (sr_OK r) eqn:Eok; [|done]. apply Ok_inj in Hok. subst r. split; [done|].
  unfold online, op in E7. destruct (call_snapshot net _ (m_net w6)) as [x n'] eqn:Ec. injection E7 as -> <-.
  destruct (hn_answer _ HN _ _ _ _ I6 Ec) as (n1 & HI1 & Hp). cbn [m_net]. split; [|by eauto].
  change n' with (Ok resp, n').2. rewrite <- Ec. by apply (hn_call _ HN).
Qed.

Lemma retry_answer scope n last w resp w' :
  I (m_net w) → retry net snapshot_final (authoritySnapshotRequestOnce net rnd load scope) n last w = (Ok resp, w') →
  sr_OK resp = true ∧ I (m_net w') ∧ ∃ q n1, I n1 ∧ processSnapshot clock_a h q n1 = (resp, m_net w').
Proof.
  revert last w. induction n as [|n IH]; intros last w HI E; cbn [retry] in E; [done|].
  apply bind_run in E as (r & w1 & Hr & E). apply attempt_run in Hr. pose proof (keeps_once scope w HI) as HI1. rewrite Hr in HI1.
  destruct r as [a|e].
  - apply (inj2 pair) in E as [E <-]. apply Ok_inj in E. subst a. exact (once_run _ _ _ _ HI Hr).
  - destruct (mentions e _); [done|]. apply bind_run in E as (u & w2 & Hp & E).
    pose proof (keeps_pause w1 HI1) as HI2. rewrite Hp in HI2. by eapply IH.
Qed.
Lemma run_same {A} (m : M (member world) A) w a w' : within same_store m → m w = (a, w') →
  m_sync w' = m_sync w ∧ (m_ticks w ≤ m_ticks w')%nat.
Proof. intros Hm E. specialize (Hm w). rewrite E in Hm. by destruct Hm as (? & _ & ?). Qed.
Lemma run_keeps_net {A} (m : M (member world) A) w a w' : within keeps m → m w = (a, w') → I (m_net w) → I (m_net w').
Proof. intros Hm E. specialize (Hm w). by rewrite E in Hm. Qed.

Lemma fetch_run scope force lease w result w' :
  I (m_net w) → (∀ l, lease = Some l → s_Scope l = scope) →
  FetchRecordsWithOptions net clock rnd load scope force lease w = (Ok result, w') →
  ∃ q n1 resp vs k, m_ticks w' = S k ∧ (m_ticks w ≤ k)%nat ∧ I n1 ∧ I (m_net w') ∧ processSnapshot clock_a h q n1 = (resp, m_net w') ∧ sr_OK resp = true ∧
    Forall2 (stored_as scope) (sr_Records resp) vs ∧ result = map fst vs ∧
    reconcileAuthoritativeSnapshot (clock k) scope
      (mkSnapshot SnapshotSourcePinnedAuthority true (sr_Generation resp) (sr_HighWater resp)
         (snapshot_digest (map snd vs)) (map snd vs)) lease (m_sync w) = (Ok tt, m_sync w').
Proof.
  intros HI Hl. unfold FetchRecordsWithOptions. intros E.
  apply bind_run in E as (t0 & w1 & E1 & E). pose proof (run_keeps_net _ _ _ _ keeps_now E1 HI) as I1.
  apply run_same in E1; [|apply store_now]. apply bind_run in E as (fr & w2 & E2 & E). apply attempt_run in E2.
  unfold op in E2. injection E2 as _ <-. apply bind_run in E as (u & w2 & [_ <-]%lift_run & E).
  apply bind_run in E as (r & w2 & E2 & E). apply attempt_run in E2. destruct r as [res|cause].
  2:{ exfalso. unfold refresh_failed in E. run_inv. }
  apply (inj2 pair) in E as [E <-]. apply Ok_inj in E. subst res.
  unfold refresh in E2. apply bind_run in E2 as (mb & w3 & E3 & E). pose proof (run_keeps_net _ _ _ _ (keeps_membership _) E3 I1) as I3.
  apply run_same in E3; [|apply store_membership]. apply bind_run in E as (pub & w4 & [_ <-]%lift_run & E).
  apply bind_run in E as (ps & w4 & [_ <-]%lift_run & E). apply bind_run in E as (u1 & w4 & E4 & E).
  pose proof (run_keeps_net _ _ _ _ keeps_open E4 I3) as I4. apply run_same in E4; [|apply store_online].
  apply bind_run in E as (resp & w5 & E5 & E). unfold authoritySnapshotRequest in E5.
  destruct (retry_answer _ _ _ _ _ _ I4 E5) as (Hok & HI' & q & n1 & HI1 & Hp).
  apply retry_run in E5 as (w5' & (Hs5 & _ & Ht5) & E5); [|apply store_once]. apply run_same in E5; [|apply store_once].
  apply bind_run in E as (t1 & w6 & E6 & E).
  assert (m_net w6 = m_net w5) as Hn by (unfold time_now, op in E6; by injection E6 as _ <-).
  apply run_same in E6; [|apply store_now].
  apply reconcile_run in E as (vs & HF & -> & Hnet & Hk & Hrec); [|done].
  destruct E1 as [S1 T1], E3 as [S3 T3], E4 as [S4 T4], E5 as [S5 T5], E6 as [S6 T6].
  cbn [m_sync m_ticks] in *.
  exists q, n1, resp, vs, (m_ticks w6). rewrite Hnet, Hn.
  replace (m_sync w) with (m_sync w6) by congruence. split_and!; [done|lia|done..].
Qed.

(** Re-encoding a published record gives its text. *)
Lemma plain_stored n scope v raw :
  plain_published n → (∃ pid, offered h (w_sync n) pid raw) → stored_as scope raw v →
  ∃ pid row, records (w_sync n) !! (h_name h, pid) = Some row ∧ rr_discovered row = false ∧ rr_payload row = raw ∧
    Records.Visibility v.1 = VisibilityDiscoverable ∧
    r_PipeID v.2 = pid ∧ r_Payload v.2 = raw ∧ r_Sequence v.2 = rr_sequence row ∧
    v.2 = mkRecord scope pid (Records.DisplayName v.1) raw (Records.ExpiresAt v.1) (Records.Sequence v.1) true.
Proof.
  intros Hp (pid & row & r & Hr & Hd & <- & Hparse & Hvis) (Hv & data & Hm & ->).
  destruct (Hp pid row Hr Hd) as (r0 & g & k & (Hid & _ & _ & Hm0 & _ & Hq & _) & Hw).
  pose proof (RecordFacts.Parse_Marshal _ _ Hw Hm0) as Hp0.
  assert (v.1 = r0) as E by congruence. assert (r = r0) as -> by congruence. rewrite E in *.
  assert (data = rr_payload row) as -> by congruence. exists pid, row. cbn. by rewrite Hid.
Qed.
End refresh.

(** ** Authorities among plain requests *)
Section plain.
Context `{Ed25519} (clock : nat → time) (rnd : nat → entropy) (h : authorityHandler).

(** A request that announces, if anything, a record of seven-bit text in UTC. *)
Definition plain_request (q : AuthorityRequest) : Prop :=
  ∀ r, Records.Parse (aq_Record q) = Ok r → RecordFacts.wire_record r.

Inductive plain_step : world → world → Prop :=
  | plain_process q w : plain_request q → plain_step w (process clock rnd h q w).2
  | plain_snapshot q w : plain_step w (processSnapshot clock h q w).2.

Lemma effect_plain q invite w w' :
  plain_request q → effect clock h q invite w w' → plain_published clock h w → plain_published clock h w'.
Proof.
  intros Hq He Hp pid row [Hr|Ha]%(ef_records _ _ _ _ _ _ He) Hd; [by apply Hp|].
  destruct (an_record _ _ _ _ _ _ Ha) as (r & g & n & payload & Hpr & Hid & Hf & Hl & _ & Hm & ->).
  pose proof (an_key _ _ _ _ _ _ Ha) as [= ->]. exists r, g, n. split; [done|by apply Hq].
Qed.

(** The counters of the authority never go back. *)
Definition counters_up (w w' : world) : Prop := newer (w_sync w) (w_sync w').
#[local] Instance counters_up_preorder : PreOrder counters_up.
Proof. unfold counters_up. split; [by intros w|]. intros a b c ? ?. by etrans. Qed.
Lemma up_same {A} (m : M world A) : within same_tables m → within counters_up m.
Proof. apply within_impl. intros w w' [_ E]. unfold counters_up. by rewrite E. Qed.
Lemma up_on_sync {A} (f : sync_db → res A * sync_db) : (∀ d, newer d (f d).2) → within counters_up (on_sync f).
Proof. intros Hf w. unfold on_sync, op, counters_up. specialize (Hf (w_sync w)). by destruct (f (w_sync w)). Qed.
Lemma up_on_rel {A} (f : relations → res A * relations) : within counters_up (on_rel f).
Proof. intros w. unfold on_rel, op, counters_up. by destruct (f (w_rel w)). Qed.
Lemma up_snapshot n scope limit : within counters_up (on_sync (AuthoritySnapshot n scope limit)).
Proof.
  apply up_on_sync. intros d. unfold AuthoritySnapshot. case_match; [done|]. apply in_tx_newer. intros a d'. apply snapshot_tx_newer.
Qed.
Lemma up_put n v : within counters_up (on_sync (PutAuthoritativeRecord n v)).
Proof.
  apply up_on_sync. intros d. apply in_tx_newer. intros [] d' E. apply bind_ok in E as ([[] d1] & E1 & E2).
  etrans; [by eapply put_newer|by eapply advance_newer].
Qed.
Lemma up_record_in_scope pid : within counters_up (record_in_scope clock h pid).
Proof.
  unfold record_in_scope, instead. apply within_wrapped. apply within_bind; [apply _|apply up_same, same_now|]. intros n.
  apply within_bind; [apply _|apply up_same, same_now|]. intros n'. apply up_on_sync. intros d. by apply newer_same.
Qed.
Lemma same_epoch s p : within same_tables (epoch_of_pipe h s p).
Proof. unfold epoch_of_pipe. apply same_ask. Qed.
Lemma same_revoked s j : within same_tables (is_revoked h s j).
Proof. unfold is_revoked, under. apply within_wrapped, same_ask. Qed.
#[local] Hint Resolve counters_up_preorder up_on_rel up_snapshot up_put up_record_in_scope up_same same_now same_draw same_ask
  same_verify_token same_verify_record same_new_token same_stored_record same_mintLeases same_list_loop same_snapshot_loop
  same_authenticate same_snapshot_authenticate same_epoch same_revoked : effects.

Lemma up_dispatch q invite : within counters_up (dispatch clock rnd h q invite).
Proof.
  unfold dispatch, pipe_publish_request, records_announce, records_list, connect_access_issue, connect_refresh_exchange,
    share_invite_issue, share_invite_redeem, revocation_issue, revocation_query, requireMembership, role_in, check, under,
    instead, deny. cbv zeta. solve_within.
Qed.

Lemma plain_step_up w w' : plain_step w w' → counters_up w w'.
Proof.
  intros [q w0 _|q w0].
  - unfold process. pose proof (up_dispatch q) as Hd.
    assert (Hm : within counters_up (invite ← authenticate clock h q; dispatch clock rnd h q invite)) by solve_within.
    specialize (Hm w0).
    by destruct ((invite ← authenticate clock h q; dispatch clock rnd h q invite) w0) as [[r|e] w1].
  - unfold processSnapshot.
    assert (Hm : within counters_up (snapshot_body clock h q)) by (unfold snapshot_body, check, instead; solve_within).
    specialize (Hm w0). by destruct (snapshot_body clock h q w0) as [[r|e] w1].
Qed.

Lemma plain_step_published w w' : plain_step w w' → plain_published clock h w → plain_published clock h w'.
Proof.
  intros [q w0 Hq|q w0] Hp.
  - destruct (process clock rnd h q w0) as [resp w1] eqn:E. cbn [snd].
    destruct (process_cases _ _ _ _ _ _ _ E) as [[Hs _]|(invite & w2 & _ & Hs & Hd)].
    + intros pid row. destruct Hs as [_ ->]. apply Hp.
    + pose proof (effect_dispatch clock rnd h q invite w2) as He. apply (effect_plain q invite w2); [done| |].
      * by destruct (dispatch _ _ _ _ _ w2) as [[r|e] w3]; destruct Hd as [_ ->].
      * intros pid row. destruct Hs as [_ ->]. apply Hp.
  - pose proof (effect_snapshot_body clock h q w0) as He. apply (effect_plain no_request Tokens.no_token w0); [|..|done].
    + intros r Hr. vm_compute in Hr. discriminate Hr.
    + unfold processSnapshot. by destruct (snapshot_body clock h q w0) as [[r|e] w1].
Qed.

(** Whatever plain requests come, the authority stays as members rely on it. *)
Lemma plain_steps_sound w w' :
  rtc plain_step w w' → plain_published clock h w → counters_nonneg h w →
  plain_published clock h w' ∧ counters_nonneg h w'.
Proof.
  induction 1 as [|a b c Hs _ IH]; [done|]. intros Hp Hn. apply IH; [by eapply plain_step_published|].
  apply plain_step_up in Hs as [_ Hup]. specialize (Hup (h_name h)). unfold authority_counters in Hup.
  intros g hw E. rewrite E in Hup. cbn in Hup.
  destruct (authority_snapshots (w_sync a) !! h_name h) as [[g0 hw0]|] eqn:E0; cbn in Hup; [|lia].
  destruct (Hn _ _ E0). lia.
Qed.

(** The authority at the other end of a connection that works. *)
Definition direct : network world :=
  mkNetwork world (λ n, (Ok tt, n)) (λ _ n, (Ok tt, n)) (λ _ n, (Ok tt, n))
    (λ q n, let '(r, n) := process clock rnd h q n in (Ok r, n))
    (λ q n, let '(r, n) := processSnapshot clock h q n in (Ok r, n)) (λ n, (Ok tt, n)).

Lemma direct_honest w : honest_network clock h direct (rtc plain_step w).
Proof.
  constructor; try done.
  - intros q n Hn. eapply rtc_r; [exact Hn|]. cbn. pose proof (plain_snapshot q n) as Hs.
    by destruct (processSnapshot clock h q n).
  - intros q n resp n' Hn E. exists n. split; [done|]. cbn in E. by destruct (processSnapshot clock h q n); injection E as -> ->.
Qed.
End plain.

(** C13: after a successful refresh a member knows exactly what its authority offers. Over a
    network that may drop messages and let others use the authority meanwhile, but forges no
    answers: the discovered records of the scope in the member's store are records that the
    authority offers at the moment of its answer, with their text and sequence. For every
    record offered the row of its Pipe is, exactly, the row of the member's own that stood
    in its place, the discovered row of the same sequence that was known before, or else a
    new row with the name, text, expiry and sequence of the offered record; a discovered
    row of these is missing only if its expiry column reads as past at the instant of the
    write, which is the last reading of the clock by the refresh. The records returned are
    the offered ones; and the accepted generation and high water are the authority's. *)
Theorem refreshed_exactly `{Ed25519} clock_a h (net : network world) clock rnd load I force lease w result w' :
  honest_network clock_a h net I → (∀ n, I n → plain_published clock_a h n ∧ counters_nonneg h n) → I (m_net w) →
  (∀ l, lease = Some l → s_Scope l = h_name h) →
  FetchRecordsWithOptions net clock rnd load (h_name h) force lease w = (Ok result, w') →
  let offer := offered h (w_sync (m_net w')) in
  let known pipeID := records (m_sync w') !! (h_name h, pipeID) in
  (m_ticks w < m_ticks w')%nat ∧
  (∀ pipeID row, known pipeID = Some row → rr_discovered row = true →
     offer pipeID (rr_payload row) ∧
     ∃ row', records (w_sync (m_net w')) !! (h_name h, pipeID) = Some row' ∧ rr_sequence row = rr_sequence row') ∧
  (∀ pipeID payload r, offer pipeID payload → Records.Parse payload = Ok r →
     let row := settled (m_sync w) (mkRecord (h_name h) pipeID (Records.DisplayName r) payload (Records.ExpiresAt r)
                                      (Records.Sequence r) true) in
     known pipeID = (if rr_discovered row && text_le (rr_expires row) (column_time (clock (pred (m_ticks w'))))
                     then None else Some row)) ∧
  (∀ r, r ∈ result ↔ ∃ pipeID payload, offer pipeID payload ∧ Records.Parse payload = Ok r) ∧
  ∃ g hw, authority_snapshots (w_sync (m_net w')) !! h_name h = Some (g, hw) ∧
    fr_generation (fresh_row (m_sync w') (h_name h)) = g ∧ fr_high_water (fresh_row (m_sync w') (h_name h)) = hw.
Proof.
  intros HN Hplain HI Hl E. cbv zeta.
  destruct (fetch_run _ _ _ _ _ _ _ HN _ _ _ _ _ _ HI Hl E) as (q & n1 & resp & vs & k & Hk & Hk' & _ & HI' & Hp & Hok & HF & -> & Hrec).
  destruct (Hplain _ HI') as [Hpl Hnn]. clear Hplain HI' HI HN E.
  destruct (snapshot_exact _ _ _ _ _ _ Hp Hok) as (Hcnt & Hg & Hh & Hoff & _ & _ & _). destruct (Hnn _ _ Hcnt) as [Hg0 Hh0].
  destruct (reconcile_cases _ _ _ _ _ _ _ Hrec Hg0 Hh0) as [[[e He] _]|(_ & _ & _ & [_ _ Hsound Hcomp _ _ Hfresh] & _)]; [done|].
  cbn [sn_Records sn_Generation sn_HighWater] in *.
  assert (Hel : ∀ v, v ∈ vs → ∃ raw, raw ∈ sr_Records resp ∧ stored_as (h_name h) raw v).
  { intros v [i Hi]%list_elem_of_lookup. destruct (Forall2_lookup_r _ _ _ _ _ HF Hi) as (raw & Hr & Hs).
    exists raw. split; [by eapply list_elem_of_lookup_2|done]. }
  assert (Her : ∀ raw, raw ∈ sr_Records resp → ∃ v, v ∈ vs ∧ stored_as (h_name h) raw v).
  { intros raw [i Hi]%list_elem_of_lookup. destruct (Forall2_lookup_l _ _ _ _ _ HF Hi) as (v & Hr & Hs).
    exists v. split; [by eapply list_elem_of_lookup_2|done]. }
  split; [lia|]. split; [|split; [|split]].
  - intros pid row Hkn Hd. destruct (Hsound pid row Hkn Hd) as [(r & Hr & Hpid & Hq & Hy) _].
    apply list_elem_of_fmap in Hr as (v & -> & Hv). destruct (Hel v Hv) as (raw & Hraw & Hs). apply Hoff in Hraw.
    destruct (plain_stored _ _ _ _ _ _ Hpl Hraw Hs) as (pid' & row' & Hr' & Hd' & Hy' & Hvis & Hp' & Hpay & Hq' & _).
    assert (pid' = pid) as -> by congruence. split; [|exists row'; split; [done|congruence]].
    exists row', v.1. rewrite Hy, Hpay. destruct Hs as [Hs _]. done.
  - intros pid payload r Ho Hpr. destruct (Her payload) as (v & Hv & Hs); [apply Hoff; by exists pid|].
    assert (Hraw : ∃ pid, offered h (w_sync (m_net w')) pid payload) by eauto.
    destruct (plain_stored _ _ _ _ _ _ Hpl Hraw Hs) as (pid' & row' & Hr' & Hd' & Hy' & Hvis & Hp' & Hpay & Hq' & Hv2).
    assert (r = v.1) as -> by (destruct Hs; congruence).
    assert (Hid : pid' = pid).
    2:{ specialize (Hcomp v.2 ltac:(by apply list_elem_of_fmap_2)). rewrite Hp', Hid in Hcomp. rewrite Hcomp, Hk, Hv2, Hid.
        done. }
    destruct Ho as (orow & r & Hor & Hod & <- & Hparse & _). clear Hv2 Hpr.
    destruct (Hpl pid orow Hor Hod) as (r0 & g0 & k0 & (Hid0 & _ & _ & Hm0 & _) & Hw0).
    destruct (Hpl pid' row' Hr' Hd') as (r1 & g1 & k1 & (Hid1 & _ & _ & Hm1 & _) & Hw1).
    pose proof (RecordFacts.Parse_Marshal _ _ Hw0 Hm0). pose proof (RecordFacts.Parse_Marshal _ _ Hw1 Hm1). congruence.
  - intros r. split.
    + intros (v & -> & Hv)%list_elem_of_fmap. destruct (Hel v Hv) as (raw & Hraw & Hs & _). apply Hoff in Hraw as [pid Ho].
      by exists pid, raw.
    + intros (pid & payload & Ho & Hparse). destruct (Her payload) as (v & Hv & Hs & _); [apply Hoff; by exists pid|].
      assert (r = v.1) as -> by congruence. by apply list_elem_of_fmap_2.
  - exists (sr_Generation resp), (sr_HighWater resp). split; [done|]. unfold fresh_row. by rewrite Hfresh, lookup_insert_eq.
Qed.

Module MemberSample.
Import SampleKeys ScopeSample.

(** After the announcement the authority runs with its counters in place. *)
Definition world2 : world :=
  mkWorld (w_rel world1) (EnsureAuthoritySnapshot "home/lab" (w_sync world1)).2 (w_ticks world1) (w_draws world1).

Definition lab_membership : Membership := Eval vm_compute in
  mkMembership "home/lab" "member" (member_token "member") (Tokens.PublicString (fixed32 authority_key)) "/p2p/authority" "member.key".
Definition member_keys (path : string) : res PrivateKey := Ok "recipient".
Definition member0 : member world :=
  mkMember (PutMembership lab_membership no_scopes).2 empty_sync 30 0 world2.

Definition lab_net : network world := direct clk dice lab_authority.
Definition fetched : res (list Records.PipeRecord) * member world :=
  FetchRecordsWithOptions lab_net clk dice member_keys "home/lab" false None member0.

Lemma web_wire : RecordFacts.wire_record web_record.
Proof.
  constructor; try (vm_compute; split; discriminate || reflexivity).
  - repeat (constructor; [by apply ascii_textb_true|]). constructor.
  - split; by apply ascii_textb_true.
  - constructor.
  - repeat constructor; by apply ascii_textb_true.
  - split; [done|]. vm_compute. split; discriminate.
  - split; [done|]. vm_compute. split; discriminate.
Qed.

Lemma unset pid payload :
  let r := mkRecord (h_name lab_authority) pid (Records.DisplayName web_record) payload (Records.ExpiresAt web_record)
             (Records.Sequence web_record) true in
  settled (m_sync member0) r = row_of r.
Proof. unfold settled. cbn [m_sync member0 records empty_sync]. by rewrite lookup_empty. Qed.

Lemma ensure_records scope d : records (EnsureAuthoritySnapshot scope d).2 = records d.
Proof. unfold EnsureAuthoritySnapshot. by destruct (authority_snapshots d !! scope). Qed.

Lemma world2_plain : plain_published clk lab_authority world2 ∧ counters_nonneg lab_authority world2.
Proof.
  assert (Hs : plain_step clk dice lab_authority world0 world1).
  { apply plain_process. intros r Hr. assert (E : Records.Parse (aq_Record announcement) = Ok web_record) by (vm_compute; reflexivity).
    rewrite E in Hr. apply Ok_inj in Hr. subst r. exact web_wire. }
  split.
  - assert (P0 : plain_published clk lab_authority world0) by (intros pid row; cbn; by rewrite lookup_empty).
    pose proof (plain_step_published _ _ _ _ _ Hs P0) as P1. intros pid row.
    change (w_sync world2) with (EnsureAuthoritySnapshot "home/lab" (w_sync world1)).2. rewrite ensure_records. apply P1.
  - intros g hw E. assert (E' : authority_snapshots (w_sync world2) !! h_name lab_authority = Some (1, 1)) by (vm_compute; reflexivity).
    rewrite E' in E. clear E' Hs. injection E as <- <-. split; discriminate.
Qed.
End MemberSample.
Import SampleKeys ScopeSample MemberSample.

Lemma refreshed_exactly_witness :
  fetched.1 = Ok [web_record] ∧
  (∃ pipeID payload, offered lab_authority (w_sync (m_net fetched.2)) pipeID payload ∧ Records.Parse payload = Ok web_record ∧
     records (m_sync fetched.2) !! ("home/lab", pipeID) =
       Some (mkRecordRow (Records.DisplayName web_record) payload (column_time (Records.ExpiresAt web_record))
               (Records.Sequence web_record) true)) ∧
  ∃ g hw, authority_snapshots (w_sync (m_net fetched.2)) !! h_name lab_authority = Some (g, hw) ∧
    fr_generation (fresh_row (m_sync fetched.2) (h_name lab_authority)) = g.
Proof.
  assert (E1 : fetched.1 = Ok [web_record]) by (vm_compute; reflexivity).
  assert (E : fetched = (Ok [web_record], fetched.2)) by (rewrite <- E1; apply surjective_pairing).
  assert (HI : ∀ n, rtc (plain_step clk dice lab_authority) world2 n →
                    plain_published clk lab_authority n ∧ counters_nonneg lab_authority n).
  { intros n Hn. destruct world2_plain as [Hp Hc]. exact (plain_steps_sound clk dice lab_authority world2 n Hn Hp Hc). }
  assert (HL : ∀ l, None = Some l → s_Scope l = h_name lab_authority) by (intros l Hl; discriminate Hl).
  destruct (refreshed_exactly (H := keys) clk lab_authority lab_net clk dice member_keys (rtc (plain_step clk dice lab_authority) world2)
    false None member0 [web_record] fetched.2 (direct_honest clk dice lab_authority world2) HI (rtc_refl _ _) HL E)
    as (_ & _ & Hknown & Hres & g & hw & Hc & Hg & _).
  split; [exact E1|]. split.
  - destruct (proj1 (Hres web_record) (list_elem_of_here _ _)) as (pid & payload & Ho & Hp). exists pid, payload.
    refine (conj Ho (conj Hp _)). specialize (Hknown pid payload web_record Ho Hp). cbv zeta in Hknown.
    rewrite (unset pid payload) in Hknown. change "home/lab" with (h_name lab_authority). rewrite Hknown.
    unfold row_of. cbn [rr_discovered rr_expires r_Discovered r_ExpiresAt andb].
    assert (E3 : text_le (column_time (Records.ExpiresAt web_record)) (column_time (clk (pred (m_ticks fetched.2)))) = false)
      by (vm_compute; reflexivity).
    rewrite E3. reflexivity.
  - exists g, hw. exact (conj Hc Hg).
Defined.
