(* ===== verification/ScopeSync.v ===== *)
(** * Periodic synchronisation of a scope

    [internal/runtime/sync.go]: the controller that a membership-backed runtime runs to keep
    the records of its scope fresh. Controllers of the processes on one node contend for the
    sync lease of the scope in the shared store; the one that acquired it fetches the
    snapshot of the authority at a cadence and renews the lease meanwhile.

    The controller is a machine with a step relation. It shares the store with processes
    that may do anything to it at any moment. Time is what its clock says when it is read:
    timers, tickers and deadlines may fire at any moment, so what is shown does not rest on
    their accuracy. The fetch runs as a process of its own that writes to the store and
    returns an error or none when it likes. *)
From S2P Require Import Prelude GoStrings GoTime Encoding StoreRelations StoreSync StoreObjects ScopeTokens ScopeClient.
Open Scope Z_scope.

(** ** Settings *)
Definition ScopeSyncCadence : duration := Minute.
Definition ScopeSyncLeaseTTL : duration := 45 * Second.
Definition ScopeSyncRenewInterval : duration := 10 * Second.
Definition ScopeSyncAttemptTimeout : duration := 20 * Second.

(** The functions [Now], [Wait], [Jitter] and [Attempt] are left at their defaults;
    [cc_State] says that the store is not nil. *)
Record SyncController := mkController {
  cc_State : bool; cc_Scope : string; cc_HolderRef : string; cc_ProcessIdentity : string;
  cc_Cadence : duration; cc_LeaseTTL : duration; cc_RenewInterval : duration; cc_AttemptTimeout : duration }.

Record bounds := mkBounds { cadence : duration; ttl : duration; renew : duration; timeout : duration }.

Definition or_default (v d : duration) : duration := if v =? 0 then d else v.

Definition settings (c : SyncController) : res bounds :=
  let b := mkBounds (or_default (cc_Cadence c) ScopeSyncCadence) (or_default (cc_LeaseTTL c) ScopeSyncLeaseTTL)
             (or_default (cc_RenewInterval c) ScopeSyncRenewInterval)
             (or_default (cc_AttemptTimeout c) ScopeSyncAttemptTimeout) in
  _ ← refuse ((cadence b <=? 0) || (ttl b <=? timeout b) || (renew b <=? 0) || (ttl b <=? renew b) || (timeout b <=? 0))
        (errorf "invalid scope sync controller bounds");
  _ ← refuse (negb (cc_State c) || (cc_Scope c =s "") || (cc_HolderRef c =s "") || (cc_ProcessIdentity c =s ""))
        (errorf "invalid scope sync controller identity");
  Ok b.

(** Addition of durations wraps around at 64 bits. *)
Definition dur_add (a b : duration) : duration := (a + b + 2 ^ 63) mod 2 ^ 64 - 2 ^ 63.

(** [raw] is what the random source gave, 64 bits or an error. *)
Definition boundedScopeSyncJitter (raw : option Z) (limit : duration) : duration :=
  if limit <=? 0 then 0 else match raw with Some u => u mod (limit + 1) | None => 0 end.

(** ** The machine *)
Inductive phase :=
  | Contend                                                  (* head of the loop of [Run] *)
  | Observe                                                  (* another owner holds the lease *)
  | Backoff (delay : duration)
  | Enter (lease : ScopeSyncLease)                           (* start of [runOwner] *)
  | Own (lease : ScopeSyncLease) (due : time)                (* head of its loop *)
  | Sleep (lease : ScopeSyncLease) (due : time) (delay : duration)
  | Woken (lease : ScopeSyncLease) (due : time)
  | Attempting (lease : ScopeSyncLease) (call : nat)     (* the [select] of [attempt] *)
  | Drain (lease : ScopeSyncLease) (call : nat) (lost : bool)  (* [<-done] *)
  | Reschedule (lease : ScopeSyncLease)
  | Release (lease : ScopeSyncLease) (owned : bool)
  | Ended.

(** [calls] are the fetches that run, [results] what those that returned sent to their
    channel, [started] how many there were. *)
Record sys := mkSys {
  db : sync_db; pc : phase; cancelled : bool; started : nat;
  calls : gmap nat ScopeSyncLease; results : gmap nat (option error) }.

Definition go (p : phase) (s : sys) : sys := mkSys (db s) p (cancelled s) (started s) (calls s) (results s).
Definition with_db (d : sync_db) (s : sys) : sys := mkSys d (pc s) (cancelled s) (started s) (calls s) (results s).
Definition start_call (lease : ScopeSyncLease) (s : sys) : sys :=
  mkSys (db s) (Attempting lease (started s)) (cancelled s) (S (started s)) (<[started s := lease]> (calls s)) (results s).
Definition end_call (i : nat) (r : option error) (s : sys) : sys :=
  mkSys (db s) (pc s) (cancelled s) (started s) (delete i (calls s)) (<[i := r]> (results s)).
Definition cancel_ctx (s : sys) : sys := mkSys (db s) (pc s) true (started s) (calls s) (results s).

(** A statement under a context: it runs, or it reports an error and may have run. Under a
    cancelled context it reports an error. *)
Definition store_call {A} (done : bool) (f : sync_db → res A * sync_db) (d : sync_db) (r : res A) (d' : sync_db) : Prop :=
  ((r, d') = f d ∧ done = false) ∨ ((∃ e, r = Fail e) ∧ (d' = d ∨ d' = (f d).2)).
Definition store_read {A} (f : sync_db → res A) (d : sync_db) (r : res A) : Prop := r = f d ∨ ∃ e, r = Fail e.

(** How long to wait for another owner. *)
Definition contend_delay (renew : duration) (observed : res ScopeSyncLease) (now : time) : duration :=
  match observed with
  | Ok o => if s_Active o then
              let remaining := Sub (s_ExpiresAt o) now in
              if (0 <? remaining) && (remaining <? renew) then remaining else renew
            else renew
  | Fail _ => renew
  end.

Definition nextDue (freshness : res ScopeFreshness) (fallback : time) : time :=
  match freshness with
  | Ok f => match f_NextRetry f with Some r => if After r fallback then r else fallback | None => fallback end
  | Fail _ => fallback
  end.

(** What is seen of a run: a lease was acquired, an attempt started, the next one was
    scheduled after the end of an attempt, the loss of the lease or the end of the context
    was noticed, the lease was given back. *)
Inductive event :=
  | Acquired (lease : ScopeSyncLease)
  | Started (lease : ScopeSyncLease) (now : time)
  | Finished (lease : ScopeSyncLease) (now due : time)
  | Lost (lease : ScopeSyncLease)
  | Released (lease : ScopeSyncLease).

Definition lease_lost_by (r : option error) : bool :=
  match r with Some e => errors_Is e ErrScopeSyncLeaseLost | None => false end.
Definition renewed (r : res bool) : bool := match r with Ok b => b | Fail _ => false end.

Section machine.
Context (c : SyncController) (b : bounds).

Inductive ctl_step : sys → option event → sys → Prop :=
  (* for ctx.Err() == nil *)
  | run_cancelled s : pc s = Contend → cancelled s = true → ctl_step s None (go Ended s)
  | run_refused s rnd t e d' raw : pc s = Contend → cancelled s = false →
      store_call false (AcquireScopeSyncLease rnd (cc_Scope c) (cc_HolderRef c) (cc_ProcessIdentity c) (UTC t) (ttl b))
        (db s) (Fail e) d' →
      ctl_step s None (go (Backoff (dur_add (renew b) (boundedScopeSyncJitter raw (Z.quot (renew b) 4)))) (with_db d' s))
  | run_contended s rnd t d' : pc s = Contend → cancelled s = false →
      store_call false (AcquireScopeSyncLease rnd (cc_Scope c) (cc_HolderRef c) (cc_ProcessIdentity c) (UTC t) (ttl b))
        (db s) (Ok None) d' →
      ctl_step s None (go Observe (with_db d' s))
  | run_acquired s rnd t lease d' : pc s = Contend → cancelled s = false →
      store_call false (AcquireScopeSyncLease rnd (cc_Scope c) (cc_HolderRef c) (cc_ProcessIdentity c) (UTC t) (ttl b))
        (db s) (Ok (Some lease)) d' →
      ctl_step s (Some (Acquired lease)) (go (Enter lease) (with_db d' s))
  | run_observed s t t' r raw : pc s = Observe →
      store_read (ScopeSyncLeaseStatus t (cc_Scope c)) (db s) r →
      ctl_step s None (go (Backoff (dur_add (contend_delay (renew b) r (UTC t'))
                                            (boundedScopeSyncJitter raw (Z.quot (renew b) 4)))) s)
  | run_waited s delay : pc s = Backoff delay → ctl_step s None (go Contend s)
  | run_wait_cancelled s delay : pc s = Backoff delay → cancelled s = true → 0 < delay → ctl_step s None (go Ended s)
  (* runOwner *)
  | owner_enter s lease t : pc s = Enter lease → ctl_step s None (go (Own lease (UTC t)) s)
  | owner_cancelled s lease due : pc s = Own lease due → cancelled s = true →
      ctl_step s None (go (Release lease false) s)
  | owner_attempt s lease due t : pc s = Own lease due → cancelled s = false → Before (UTC t) due = false →
      ctl_step s (Some (Started lease (UTC t))) (start_call lease s)
  | owner_sleep s lease due t : pc s = Own lease due → cancelled s = false → Before (UTC t) due = true →
      ctl_step s None (go (Sleep lease due (Z.min (Sub due (UTC t)) (renew b))) s)
  | owner_waited s lease due delay : pc s = Sleep lease due delay → ctl_step s None (go (Woken lease due) s)
  | owner_wait_cancelled s lease due delay : pc s = Sleep lease due delay → cancelled s = true → 0 < delay →
      ctl_step s None (go (Release lease false) s)
  | owner_due s lease due t : pc s = Woken lease due → Before (UTC t) due = false → ctl_step s None (go (Own lease due) s)
  | owner_renew s lease due t t' r d' : pc s = Woken lease due → Before (UTC t) due = true →
      store_call (cancelled s) (RenewScopeSyncLease lease (UTC t') (ttl b)) (db s) r d' →
      ctl_step s (if renewed r then None else Some (Lost lease))
        (go (if renewed r then Own lease due else Release lease false) (with_db d' s))
  (* attempt *)
  | attempt_done s lease i r : pc s = Attempting lease i → results s !! i = Some r →
      ctl_step s (if lease_lost_by r then Some (Lost lease) else None)
        (go (if lease_lost_by r then Release lease false else Reschedule lease) s)
  | attempt_cancelled s lease i : pc s = Attempting lease i → cancelled s = true →
      ctl_step s (Some (Lost lease)) (go (Drain lease i true) s)
  | attempt_deadline s lease i : pc s = Attempting lease i → ctl_step s None (go (Drain lease i false) s)
  | attempt_tick s lease i t r d' : pc s = Attempting lease i →
      store_call (cancelled s) (RenewScopeSyncLease lease (UTC t) (ttl b)) (db s) r d' →
      ctl_step s (if renewed r then None else Some (Lost lease))
        (go (if renewed r then Attempting lease i else Drain lease i true) (with_db d' s))
  | attempt_drained s lease i lost r : pc s = Drain lease i lost → results s !! i = Some r →
      ctl_step s None (go (if lost then Release lease false else Reschedule lease) s)
  | owner_next s lease t raw r : pc s = Reschedule lease →
      store_read (λ d, ScopeFreshnessOf d (cc_Scope c)) (db s) r →
      let due := nextDue r (Add (UTC t) (dur_add (cadence b) (boundedScopeSyncJitter raw (Z.quot (cadence b) 10)))) in
      ctl_step s (Some (Finished lease (UTC t) due)) (go (Own lease due) s)
  (* the deferred release, then "if !owned || ctx.Err() != nil" *)
  | run_release s lease owned r d' : pc s = Release lease owned →
      store_call false (ReleaseScopeSyncLease lease) (db s) r d' →
      ctl_step s (Some (Released lease)) (go (if negb owned || cancelled s then Ended else Contend) (with_db d' s)).

(** What a running fetch does to the store: the writes of [FetchRecordsWithOptions] under
    its lease. The counters of a snapshot are unsigned. *)
Inductive fetch_write (lease : ScopeSyncLease) : sync_db → sync_db → Prop :=
  | write_snapshot t snapshot d : 0 ≤ sn_Generation snapshot → 0 ≤ sn_HighWater snapshot →
      fetch_write lease d (ReconcileAuthoritativeSnapshotWithLease t lease snapshot d).2
  | write_failure t source class retry d :
      fetch_write lease d (RecordSnapshotFailureWithLease t lease source class retry d).2.

Inductive call_step : sys → sys → Prop :=
  | call_write s i lease d' : calls s !! i = Some lease → fetch_write lease (db s) d' → call_step s (with_db d' s)
  | call_return s i lease r : calls s !! i = Some lease → call_step s (end_call i r s).

Inductive env_step : sys → sys → Prop :=
  | env_store s d' : env_step s (with_db d' s)
  | env_cancel s : env_step s (cancel_ctx s).

Inductive runs : sys → list event → sys → Prop :=
  | runs_refl s : runs s [] s
  | runs_ctl s0 tr s e s' : runs s0 tr s → ctl_step s e s' → runs s0 (tr ++ option_list e) s'
  | runs_call s0 tr s s' : runs s0 tr s → call_step s s' → runs s0 tr s'
  | runs_env s0 tr s s' : runs s0 tr s → env_step s s' → runs s0 tr s'.
End machine.

(** The state in which [Run] is called. *)
Definition idle (d : sync_db) : sys := mkSys d Contend false 0 ∅ ∅.

(** ** Runs of the node

    The registry of running processes in [internal/store/store.go]. *)
Record Run := mkRun {
  ru_PrimaryRef : string; ru_Kind : string; ru_PID : Z; ru_ProcessIdentity : string; ru_Source : string;
  ru_Status : string; ru_PeerID : string; ru_Address : string; ru_StartedAt : time; ru_UpdatedAt : time }.
Record run_row := mkRunRow {
  rn_kind : string; rn_pid : Z; rn_process : string; rn_source : string; rn_status : string; rn_peer : string;
  rn_address : string; rn_started : string; rn_updated : string }.
Definition runs_table := gmap string run_row.

Definition ReserveRun (now : time) (ref kind : string) (d : runs_table) : res unit * runs_table :=
  match d !! ref with
  | Some _ => (Fail (errorf "conflict: run already exists for ref"), d)
  | None => (Ok tt, <[ref := mkRunRow kind 0 "" "foreground" "starting" "" "" (column_time now) (column_time now)]> d)
  end.

(** [identity] is what the process table says of a pid. *)
Definition PutRun (identity : Z → res string) (now : time) (v : Run) (d : runs_table) : res unit * runs_table :=
  let source := if ru_Source v =s "" then "foreground" else ru_Source v in
  if negb (mem_str source ["foreground"; "detached"; "launchd"; "systemd"]) then (Fail (errorf "invalid run source"), d)
  else
    match (if (0 <? ru_PID v) && (ru_ProcessIdentity v =s "") then
             with_prefix "capture process identity: " (identity (ru_PID v))
           else Ok (ru_ProcessIdentity v)) with
    | Fail e => (Fail e, d)
    | Ok process =>
        let started := if IsZero (ru_StartedAt v) then UTC now else ru_StartedAt v in
        (Ok tt, <[ru_PrimaryRef v := mkRunRow (ru_Kind v) (ru_PID v) process source (ru_Status v) (ru_PeerID v)
                                       (ru_Address v) (RFC3339Nano started) (column_time now)]> d)
    end.

Definition run_of (ref : string) (r : run_row) : Run :=
  mkRun ref (rn_kind r) (rn_pid r) (rn_process r) (rn_source r) (rn_status r) (rn_peer r) (rn_address r)
    (parse_or_zero (rn_started r)) (parse_or_zero (rn_updated r)).
Definition RunNamed (d : runs_table) (ref : string) : res Run :=
  r ← need (d !! ref) (wrapf ErrNotFound "resource not found: run"); Ok (run_of ref r).
Definition Runs (d : runs_table) : res (list Run) := Ok (map (λ kv, run_of kv.1 kv.2) (ordered d)).
Definition DeleteRun (ref : string) (d : runs_table) : res unit * runs_table := (Ok tt, delete ref d).

(** The controller that is started for a holder of a membership. *)
Definition StartScopeSync (memberships : scope_tables) (d : runs_table) (scope holderRef : string)
    : res (option SyncController) :=
  match MembershipOf memberships scope with
  | Fail e => if errors_Is e ErrNotFound then Ok None else Fail e
  | Ok _ =>
      run ← RunNamed d holderRef;
      Ok (Some (mkController true scope holderRef (ru_ProcessIdentity run) 0 0 0 0))
  end.
