(* ===== verification/ScopeSyncProps.v ===== *)
(** * What the sync controller guarantees

    Every run of the controller of [ScopeSync], among processes that do anything to the
    store, is accepted by a monitor that describes one term of ownership; it never runs two
    fetches at once and waits no longer than its settings allow. To the store it does
    nothing that a live successor could notice. A cancelled controller ends. *)
From S2P Require Import Prelude GoStrings GoTime Encoding Credentials StoreRelations StoreSync StoreSyncFacts StoreObjects.
From S2P Require Import Effects ScopeTokens ScopeAuthority ScopeClient ScopeClientProps ScopeSync.
Open Scope Z_scope.

#[export] Instance time_eq_dec : EqDecision time.
Proof. solve_decision. Defined.
#[export] Instance ScopeSyncLease_eq_dec : EqDecision ScopeSyncLease.
Proof. solve_decision. Defined.

(** ** The monitor *)
Inductive duty :=
  | Waiting
  | Holding (lease : ScopeSyncLease) (due : option time)
  | Fetching (lease : ScopeSyncLease)
  | Losing (lease : ScopeSyncLease)
  | Over.

Definition monitor (cadence : duration) (m : duty) (e : event) : option duty :=
  match m, e with
  | Waiting, Acquired l => Some (Holding l None)
  | Holding l due, Started l' t =>
      if bool_decide (l = l') && match due with Some u => negb (Before t u) | None => true end
      then Some (Fetching l) else None
  | Fetching l, Finished l' t due =>
      if bool_decide (l = l') && (unix_ns t + cadence <=? unix_ns due) then Some (Holding l (Some due)) else None
  | (Holding l _ | Fetching l), Lost l' => if bool_decide (l = l') then Some (Losing l) else None
  | (Holding l _ | Losing l), Released l' => if bool_decide (l = l') then Some Over else None
  | _, _ => None
  end.

Definition watch (cadence : duration) (tr : list event) : option duty :=
  foldl (λ m e, m ≫= λ m, monitor cadence m e) (Some Waiting) tr.

Lemma watch_snoc k tr e : watch k (tr ++ [e]) = watch k tr ≫= λ m, monitor k m e.
Proof. unfold watch. by rewrite foldl_app. Qed.

(** What the monitor knows in a phase. *)
Definition sees (p : phase) (m : duty) : Prop :=
  match p with
  | Contend | Observe | Backoff _ => m = Waiting
  | Enter l => m = Holding l None
  | Own l due | Sleep l due _ | Woken l due => m = Holding l None ∨ m = Holding l (Some due)
  | Attempting l _ | Drain l _ false | Reschedule l => m = Fetching l
  | Drain l _ true => m = Losing l
  | Release l owned => owned = false ∧ ((∃ due, m = Holding l due) ∨ m = Losing l)
  | Ended => m = Waiting ∨ m = Over
  end.

(** ** Fetches *)

(** The fetch that a phase waits for. *)
Definition in_call (p : phase) : option (ScopeSyncLease * nat) :=
  match p with Attempting l i | Drain l i _ => Some (l, i) | _ => None end.

Record calls_ok (s : sys) : Prop := {
  co_one : ∀ i l, calls s !! i = Some l → in_call (pc s) = Some (l, i);
  co_pc : ∀ i l, in_call (pc s) = Some (l, i) → (i < started s)%nat;
  co_fresh : ∀ i, (started s ≤ i)%nat → calls s !! i = None ∧ results s !! i = None;
  co_known : ∀ i, (i < started s)%nat → is_Some (calls s !! i) ∨ is_Some (results s !! i);
  co_sent : ∀ i l, calls s !! i = Some l → results s !! i = None;
}.

(** ** Durations *)
Lemma jitter_bounds raw limit : 0 ≤ limit → 0 ≤ boundedScopeSyncJitter raw limit ≤ limit.
Proof.
  intros Hl. unfold boundedScopeSyncJitter. destruct (Z.leb_spec limit 0); [lia|]. destruct raw as [u|]; [|lia].
  pose proof (Z.mod_pos_bound u (limit + 1)). lia.
Qed.

Lemma dur_add_small a b : min_duration ≤ a + b ≤ max_duration → dur_add a b = a + b.
Proof. unfold dur_add, min_duration, max_duration. intros H. rewrite Z.mod_small; lia. Qed.

Lemma settings_ok c b : settings c = Ok b →
  0 < cadence b ∧ 0 < renew b < ttl b ∧ 0 < timeout b < ttl b ∧
  cc_State c = true ∧ cc_Scope c ≠ "" ∧ cc_HolderRef c ≠ "" ∧ cc_ProcessIdentity c ≠ "".
Proof.
  unfold settings. intros H. cbv zeta in H.
  apply bind_ok in H as ([] & Hb%refuse_ok & H). apply bind_ok in H as ([] & Hi%refuse_ok & H).
  apply Ok_inj in H. rewrite <- H. rewrite !orb_false_iff, !Z.leb_gt in Hb. rewrite !orb_false_iff, !seqb_false in Hi.
  destruct Hi as [[[Hn ?] ?] ?]. apply negb_false_iff in Hn. split_and!; done || lia.
Qed.

(** One case per step of the controller, with uniform names. *)
Ltac step_cases H :=
  destruct H as [s E Hc|s rnd t e d' raw E Hc Hst|s rnd t d' E Hc Hst|s rnd t l d' E Hc Hst|s t t' r raw E Hst|s dl E|s dl E Hc Hdl
    |s l t E|s l due E Hc|s l due t E Hc Ht|s l due t E Hc Ht|s l due dl E|s l due dl E Hc Hdl|s l due t E Ht
    |s l due t t' r d' E Ht Hst|s l i r E Hi|s l i E Hc|s l i E|s l i t r d' E Hst|s l i lost r E Hi|s l t raw r E Hst
    |s l owned r d' E Hst].

Section runs.
Context (c : SyncController) (b : bounds).
Hypothesis Hset : settings c = Ok b.
(** The sums of durations that the controller computes fit into 64 bits. *)
Hypothesis Hfit : cadence b + cadence b / 10 ≤ max_duration ∧ renew b + renew b / 4 ≤ max_duration.

Lemma next_due_late t raw r :
  unix_ns t + cadence b ≤
  unix_ns (nextDue r (Add t (dur_add (cadence b) (boundedScopeSyncJitter raw (Z.quot (cadence b) 10))))).
Proof.
  destruct (settings_ok _ _ Hset) as (Hc & _). rewrite Z.quot_div_nonneg by lia.
  assert (Hj := jitter_bounds raw (cadence b / 10) ltac:(apply Z.div_pos; lia)).
  rewrite dur_add_small by (unfold min_duration; lia).
  set (fallback := Add t _). assert (Hf : unix_ns t + cadence b ≤ unix_ns fallback) by (cbn; lia).
  unfold nextDue, After. destruct r as [f|]; [|done]. destruct (f_NextRetry f) as [u|]; [|done].
  destruct (Z.ltb_spec (unix_ns fallback) (unix_ns u)); lia.
Qed.

(** The monitor accepts every run. *)
Lemma ctl_watched s e s' m :
  ctl_step c b s e s' → sees (pc s) m →
  ∃ m', foldl (λ m e, m ≫= λ m, monitor (cadence b) m e) (Some m) (option_list e) = Some m' ∧ sees (pc s') m'.
Proof.
  pose proof next_due_late as Hlate. clear Hfit. intros Hs Hm.
  step_cases Hs; rewrite E in Hm; cbn in Hm |- *.
  all: try destruct (renewed r); try destruct (lease_lost_by r); try destruct lost; cbn in Hm |- *.
  all: repeat match goal with
    | H : _ ∨ _ |- _ => destruct H | H : _ ∧ _ |- _ => destruct H | H : ∃ _, _ |- _ => destruct H end; subst; cbn.
  all: rewrite ?(bool_decide_eq_true_2 (l = l)) by reflexivity; rewrite ?Ht; cbn.
  all: try (eexists; split; [reflexivity|]; cbn; tauto || eauto).
  pose proof (proj2 (Z.leb_le _ _) (Hlate (UTC t) raw r)) as Hle. cbn in Hle. subst due. cbn. rewrite Hle. cbn. eauto.
Qed.

Lemma runs_watched d0 tr s :
  runs c b (idle d0) tr s → ∃ m, watch (cadence b) tr = Some m ∧ sees (pc s) m.
Proof.
  remember (idle d0) as s0 eqn:E0. induction 1 as [|s0 tr s e s' _ IH Hs|s0 tr s s' _ IH Hs|s0 tr s s' _ IH Hs].
  - subst. by exists Waiting.
  - destruct (IH E0) as (m & Hw & Hm). destruct (ctl_watched _ _ _ _ Hs Hm) as (m' & Hw' & Hm').
    exists m'. split; [|done]. unfold watch in *. by rewrite foldl_app, Hw.
  - destruct (IH E0) as (m & Hw & Hm). exists m. split; [done|]. by destruct Hs.
  - destruct (IH E0) as (m & Hw & Hm). exists m. split; [done|]. by destruct Hs.
Qed.

(** Fetches run one at a time. *)
Lemma calls_same s p d : calls_ok s → in_call p = in_call (pc s) → calls_ok (go p (with_db d s)).
Proof. intros [H1 H2 H3 H4 H5] Hp. constructor; cbn; rewrite ?Hp; done. Qed.

Lemma calls_over s p d :
  calls_ok s → in_call p = None → (∀ l i, in_call (pc s) = Some (l, i) → is_Some (results s !! i)) → calls_ok (go p (with_db d s)).
Proof.
  intros [H1 H2 H3 H4 H5] Hp Hr. constructor; cbn; rewrite ?Hp; try done.
  intros i l Hi. destruct (Hr l i (H1 i l Hi)) as [x Hx]. by rewrite (H5 i l Hi) in Hx.
Qed.

Lemma calls_start s l : calls_ok s → in_call (pc s) = None → calls_ok (start_call l s).
Proof.
  intros [H1 H2 H3 H4 H5] Hp. destruct (H3 (started s) ltac:(lia)) as [Hnone Hres].
  assert (Hno : ∀ i l', calls s !! i = Some l' → False) by (intros i l' Hi; by rewrite (H1 i l' Hi) in Hp).
  constructor; cbn.
  - intros i l' [[<- <-]|[_ Hi]]%lookup_insert_Some; [done|]. by destruct (Hno i l').
  - intros i l' [= <- <-]. lia.
  - intros i Hi. destruct (H3 i ltac:(lia)). split; [|done]. by rewrite lookup_insert_ne by lia.
  - intros i Hi. destruct (decide (i = started s)) as [->|]; [left; rewrite lookup_insert_eq; by eexists|].
    rewrite lookup_insert_ne by done. apply H4. lia.
  - intros i l' [[<- <-]|[_ Hi]]%lookup_insert_Some; [done|]. by destruct (Hno i l').
Qed.

Lemma ctl_calls s e s' : ctl_step c b s e s' → calls_ok s → calls_ok s'.
Proof.
  intros Hs. step_cases Hs; intros Hok;
    try match goal with |- calls_ok (go ?p s) => change (go p s) with (go p (with_db (db s) s)) end;
    try destruct (renewed r); try destruct (lease_lost_by r); try destruct lost; try destruct (negb owned || cancelled s);
    first [apply calls_same; [done|]; by rewrite E
          |apply calls_start; [done|]; by rewrite E
          |apply calls_over; [done|done|]; rewrite E; by intros ? ? [= <- <-]].
Qed.

Lemma runs_calls d0 tr s : runs c b (idle d0) tr s → calls_ok s.
Proof.
  remember (idle d0) as s0 eqn:E0. induction 1 as [|s0 tr s e s' _ IH Hs|s0 tr s s' _ IH Hs|s0 tr s s' _ IH Hs].
  - subst. constructor; cbn; try done; try lia. 
  - by eapply ctl_calls, IH.
  - specialize (IH E0). destruct Hs as [s i l d' _ _|s i l r Hi]; [by destruct IH; constructor|].
    destruct IH as [H1 H2 H3 H4 H5]. pose proof (H2 i l (H1 i l Hi)) as Hlt. constructor; cbn.
    + intros i' l' [_ Hi']%lookup_delete_Some. by apply H1.
    + done.
    + intros i' Hi'. rewrite lookup_delete_ne, lookup_insert_ne by lia. by apply H3.
    + intros i' Hi'. destruct (decide (i' = i)) as [->|]; [right; rewrite lookup_insert_eq; by eexists|].
      rewrite lookup_delete_ne, lookup_insert_ne by done. by apply H4.
    + intros i' l' [Hne Hi']%lookup_delete_Some. rewrite lookup_insert_ne by done. by apply (H5 i' l').
  - destruct (IH E0). destruct Hs; by constructor.
Qed.

(** Waiting is bounded. *)
Definition wait_ok (p : phase) : Prop :=
  match p with
  | Backoff delay => 0 < delay ≤ renew b + renew b / 4
  | Sleep _ _ delay => 0 < delay ≤ renew b
  | _ => True
  end.

Lemma contend_delay_bounds r t : 0 < contend_delay (renew b) r t ≤ renew b.
Proof.
  destruct (settings_ok _ _ Hset) as (_ & Hr & _). unfold contend_delay.
  destruct r as [o|]; [|lia]. destruct (s_Active o); [|lia]. cbv zeta.
  destruct (Z.ltb_spec 0 (Sub (s_ExpiresAt o) t)); [|cbn; lia].
  destruct (Z.ltb_spec (Sub (s_ExpiresAt o) t) (renew b)); cbn; lia.
Qed.

Lemma backoff_bounds d raw : 0 < d ≤ renew b →
  0 < dur_add d (boundedScopeSyncJitter raw (Z.quot (renew b) 4)) ≤ renew b + renew b / 4.
Proof.
  intros Hd. rewrite Z.quot_div_nonneg by lia.
  assert (Hj := jitter_bounds raw (renew b / 4) ltac:(apply Z.div_pos; lia)).
  rewrite dur_add_small; unfold min_duration; lia.
Qed.

Lemma ctl_waits s e s' : ctl_step c b s e s' → wait_ok (pc s').
Proof.
  destruct (settings_ok _ _ Hset) as (_ & Hr & _).
  intros Hs. step_cases Hs; cbn [go pc wait_ok]; try done; try (by case_match).
  - apply backoff_bounds. lia.
  - apply backoff_bounds, contend_delay_bounds.
  - unfold Before in Ht. apply Z.ltb_lt in Ht. unfold Sub, min_duration, max_duration. lia.
Qed.

Lemma runs_waits d0 tr s : runs c b (idle d0) tr s → wait_ok (pc s).
Proof.
  remember (idle d0) as s0 eqn:E0. induction 1 as [|s0 tr s e s' _ IH Hs|s0 tr s s' _ IH Hs|s0 tr s s' _ IH Hs].
  - by subst.
  - by eapply ctl_waits.
  - specialize (IH E0). by destruct Hs.
  - specialize (IH E0). by destruct Hs.
Qed.

(** ** The store *)

(** The lease a controller acts under. *)
Definition phase_lease (p : phase) : option ScopeSyncLease :=
  match p with
  | Enter l | Own l _ | Sleep l _ _ | Woken l _ | Attempting l _ | Drain l _ _ | Reschedule l | Release l _ => Some l
  | Contend | Observe | Backoff _ | Ended => None
  end.

Lemma in_call_lease p l i : in_call p = Some (l, i) → phase_lease p = Some l.
Proof. by destruct p; intros [= -> _]. Qed.

(** Leases of this controller, acquired in this run. *)
Definition own_lease (tr : list event) (l : ScopeSyncLease) : Prop :=
  Acquired l ∈ tr ∧ s_Scope l = cc_Scope c ∧ s_HolderRef l = cc_HolderRef c ∧ s_ProcessIdentity l = cc_ProcessIdentity c.

Lemma acquired_own rnd t d l d' :
  AcquireScopeSyncLease rnd (cc_Scope c) (cc_HolderRef c) (cc_ProcessIdentity c) (UTC t) (ttl b) d = (Ok (Some l), d') →
  s_Scope l = cc_Scope c ∧ s_HolderRef l = cc_HolderRef c ∧ s_ProcessIdentity l = cc_ProcessIdentity c.
Proof.
  unfold AcquireScopeSyncLease. destruct (_ ← validScopeSyncLeaseInput _ _ _ _; _); [|done]. cbv zeta.
  destruct (negb _); [done|]. destruct (token_taken _ _ _); [done|]. by intros [= <- _].
Qed.

Lemma own_lease_app tr tr' l : own_lease tr l → own_lease (tr ++ tr') l.
Proof. intros [Ha ?]. split; [|done]. apply elem_of_app. by left. Qed.

Lemma ctl_own tr s e s' :
  ctl_step c b s e s' → (∀ l, phase_lease (pc s) = Some l → own_lease tr l) →
  ∀ l, phase_lease (pc s') = Some l → own_lease (tr ++ option_list e) l.
Proof.
  intros Hs. step_cases Hs; intros Ho l0 Hl; rewrite E in Ho; cbn in Ho, Hl; try discriminate Hl;
    try (apply own_lease_app, Ho; try destruct (renewed r); try destruct (lease_lost_by r); try destruct lost; exact Hl).
  - injection Hl as <-. destruct Hst as [[Hst _]|[[er Hst] _]]; [|done]. split; [|by eapply acquired_own].
    apply elem_of_app. right. by left.
  - by destruct (negb owned || cancelled s).
Qed.

Lemma runs_own d0 tr s : runs c b (idle d0) tr s → ∀ l, phase_lease (pc s) = Some l → own_lease tr l.
Proof.
  remember (idle d0) as s0 eqn:E0. induction 1 as [|s0 tr s e s' _ IH Hs|s0 tr s s' _ IH Hs|s0 tr s s' _ IH Hs].
  - by subst.
  - intros l. by eapply ctl_own; [|apply IH].
  - specialize (IH E0). by destruct Hs.
  - specialize (IH E0). by destruct Hs.
Qed.

(** What the controller may do to the leases of the store. The row of its scope can be
    - a row of its own that was there, released;
    - a row of its own that was there, renewed before its expiry column;
    - a new row of the controller, where there was none or one whose expiry column was not
      after the instant of the acquisition, which the new row shows. *)
Definition only_leases (d d' : sync_db) : Prop :=
  records d' = records d ∧ scope_freshness d' = scope_freshness d ∧ authority_snapshots d' = authority_snapshots d.
Inductive lease_change (mine : ScopeSyncLease → Prop) (d : sync_db) : option sync_lease_row → Prop :=
  | lease_kept : lease_change mine d (scope_sync_leases d !! cc_Scope c)
  | lease_released l row : mine l → fenced_row d l = Some row → lease_change mine d None
  | lease_renewed l row renewed expires :
      mine l → fenced_row d l = Some row → text_lt renewed (sl_expires row) = true →
      lease_change mine d
        (Some (mkSyncLeaseRow (sl_holder row) (sl_process row) (sl_token row) (sl_acquired row) renewed expires))
  | lease_acquired token t :
      (∀ old, scope_sync_leases d !! cc_Scope c = Some old → text_le (sl_expires old) (column_time t) = true) →
      lease_change mine d
        (Some (mkSyncLeaseRow (cc_HolderRef c) (cc_ProcessIdentity c) token (column_time t) (column_time t)
                 (column_time (Add (UTC t) (ttl b))))).
Definition minds_leases (mine : ScopeSyncLease → Prop) (d d' : sync_db) : Prop :=
  only_leases d d' ∧
  (∀ scope, scope ≠ cc_Scope c → scope_sync_leases d' !! scope = scope_sync_leases d !! scope) ∧
  lease_change mine d (scope_sync_leases d' !! cc_Scope c).

Lemma minds_same mine d : minds_leases mine d d.
Proof. split_and!; [done|done|constructor]. Qed.

Lemma minds_set mine d row' :
  lease_change mine d row' →
  minds_leases mine d (set_leases d (partial_alter (λ _, row') (cc_Scope c) (scope_sync_leases d))).
Proof.
  intros Hrow. split_and!; [done| |].
  - intros scope Hne. cbn. by rewrite lookup_partial_alter_ne.
  - cbn. by rewrite lookup_partial_alter_eq.
Qed.

Lemma minds_acquire mine rnd t d :
  minds_leases mine d
    (AcquireScopeSyncLease rnd (cc_Scope c) (cc_HolderRef c) (cc_ProcessIdentity c) (UTC t) (ttl b) d).2.
Proof.
  unfold AcquireScopeSyncLease. case_match; [|apply minds_same]. cbv zeta.
  destruct (scope_sync_leases d !! cc_Scope c) as [old|] eqn:Eo.
  - destruct (text_le (sl_expires old) (RFC3339Nano (UTC (UTC t)))) eqn:Et; cbn [negb]; [|apply minds_same].
    destruct (token_taken _ _ _); [apply minds_same|]. apply minds_set, lease_acquired. intros row Hr. simplify_eq. exact Et.
  - cbn [negb]. destruct (token_taken _ _ _); [apply minds_same|]. apply minds_set, lease_acquired. congruence.
Qed.

Lemma fenced_row_lookup d l row : fenced_row d l = Some row → scope_sync_leases d !! s_Scope l = Some row.
Proof. unfold fenced_row. repeat case_match; congruence. Qed.

Lemma minds_renew (mine : ScopeSyncLease → Prop) l t d :
  mine l → s_Scope l = cc_Scope c → minds_leases mine d (RenewScopeSyncLease l (UTC t) (ttl b) d).2.
Proof.
  intros Hm Hs. unfold RenewScopeSyncLease. case_match; [apply minds_same|]. cbv zeta.
  destruct (fenced_row d l) as [row|] eqn:Ef; [|apply minds_same]. case_match; [|apply minds_same].
  cbn [snd]. rewrite Hs. apply minds_set. by eapply lease_renewed.
Qed.

Lemma minds_release (mine : ScopeSyncLease → Prop) l d :
  mine l → s_Scope l = cc_Scope c → minds_leases mine d (ReleaseScopeSyncLease l d).2.
Proof.
  intros Hm Hs. unfold ReleaseScopeSyncLease. case_match; [apply minds_same|].
  destruct (fenced_row d l) as [row|] eqn:Ef; [|apply minds_same]. cbn [snd]. rewrite Hs. apply (minds_set _ _ None).
  by eapply lease_released.
Qed.

Lemma minds_call {A} mine done (f : sync_db → res A * sync_db) d r d' :
  store_call done f d r d' → minds_leases mine d (f d).2 → minds_leases mine d d'.
Proof. intros [[E _]|[_ [-> | ->]]] Hm; [by rewrite <- E in Hm|apply minds_same|done]. Qed.

Lemma ctl_minds s e s' (mine : ScopeSyncLease → Prop) :
  ctl_step c b s e s' → (∀ l, phase_lease (pc s) = Some l → mine l ∧ s_Scope l = cc_Scope c) →
  minds_leases mine (db s) (db s').
Proof.
  intros Hs. step_cases Hs; intros Hm; rewrite E in Hm; cbn in Hm |- *; try apply minds_same;
    eapply minds_call; try exact Hst; first [apply minds_acquire|apply minds_renew|apply minds_release]; by apply Hm.
Qed.
End runs.

(** What a fetch wrote, it wrote while the row of its lease was in the store and its expiry
    in the future of the instant of the write, which the freshness row shows as the last
    attempt; leases it leaves alone. *)
Lemma fetch_write_fenced lease d d' :
  fetch_write lease d d' →
  d' = d ∨
  ((∃ row e t, fenced_row d lease = Some row ∧ ParseTime (sl_expires row) = Some e ∧ unix_ns t < unix_ns e ∧
      fr_attempt (fresh_row d' (s_Scope lease)) = column_time t) ∧
   scope_sync_leases d' = scope_sync_leases d ∧ authority_snapshots d' = authority_snapshots d ∧
   (∀ k, k.1 ≠ s_Scope lease → records d' !! k = records d !! k) ∧
   (∀ k row, local_row d k row ↔ local_row d' k row) ∧
   ∀ scope, scope ≠ s_Scope lease → scope_freshness d' !! scope = scope_freshness d !! scope).
Proof.
  destruct 1 as [t snapshot d Hg Hh|t source class retry d].
  - unfold ReconcileAuthoritativeSnapshotWithLease.
    destruct (reconcileAuthoritativeSnapshot t (s_Scope lease) snapshot (Some lease) d) as [r d'] eqn:E.
    destruct (reconcile_cases _ _ _ _ _ _ _ E Hg Hh) as [[_ ->]|(_ & _ & _ & [Hloc Hrec _ _ [Hl Ha] _ Hf] & Hcur)]; [by left|].
    right. destruct (Hcur lease eq_refl) as (row & e & Hrow & He & Ht). cbn [snd].
    split; [exists row, e, t; unfold fresh_row; by rewrite Hf, lookup_insert_eq|]. split_and!; try done. intros scope Hne. by rewrite Hf, lookup_insert_ne.
  - unfold RecordSnapshotFailureWithLease, recordSnapshotFailure. case_match; [by left|]. cbv zeta. unfold in_tx.
    destruct (leaseCurrentTx lease (UTC t) d) as [[]|e] eqn:E; cbn; [|by left].
    right. apply leaseCurrentTx_ok in E as (row & e & Hrow & He & Ht). split.
    { exists row, e, (UTC t). split_and!; [done|done|done|]. unfold fresh_row. cbn. by rewrite lookup_insert_eq. }
    split_and!; try done. intros scope Hne. by rewrite lookup_insert_ne.
Qed.

(** ** Cancellation *)
Definition rank (p : phase) : nat :=
  match p with
  | Ended => 0 | Contend | Release _ _ => 1 | Backoff _ | Own _ _ => 2 | Observe | Enter _ | Woken _ _ | Reschedule _ => 3
  | Sleep _ _ _ | Drain _ _ _ => 4 | Attempting _ _ => 5
  end.

Lemma renewed_cancelled {f} {d : sync_db} {r d'} : store_call true f d r d' → renewed r = false.
Proof. by intros [[_ ?]|[[e ->] _]]. Qed.

Lemma ctl_cancelled c b s e s' :
  ctl_step c b s e s' → cancelled s = true → (∀ l, pc s ≠ Release l true) → cancelled s' = true ∧ (rank (pc s') < rank (pc s))%nat.
Proof.
  intros Hs Hx Hrel. step_cases Hs; rewrite E in *; try congruence; cbn; split; try done; try lia.
  - rewrite Hx in Hst. rewrite (renewed_cancelled Hst). cbn. lia.
  - destruct (lease_lost_by r); cbn; lia.
  - rewrite Hx in Hst. rewrite (renewed_cancelled Hst). cbn. lia.
  - destruct lost; cbn; lia.
  - rewrite Hx, orb_true_r. cbn. lia.
Qed.

Lemma ctl_progress c b s :
  cancelled s = true → pc s ≠ Ended → calls s = ∅ → calls_ok s → ∃ e s', ctl_step c b s e s'.
Proof.
  intros Hc Hp Hcalls Hok. destruct (pc s) as [| |dl|l|l due|l due dl|l due|l i|l i lost|l|l owned|] eqn:E; try done.
  - eexists _, _. by eapply run_cancelled.
  - eexists _, _. eapply (run_observed c b s zero_time zero_time _ None); [done|]. by left.
  - eexists _, _. by eapply run_waited.
  - eexists _, _. by eapply (owner_enter c b s l zero_time).
  - eexists _, _. by eapply owner_cancelled.
  - eexists _, _. by eapply owner_waited.
  - destruct (Before (UTC zero_time) due) eqn:Hb.
    + eexists _, _. eapply (owner_renew c b s l due zero_time zero_time (Fail (errorf "context canceled"))); [done|done|].
      right. split; [by eexists|by left].
    + eexists _, _. by eapply (owner_due c b s l due zero_time).
  - eexists _, _. by eapply attempt_cancelled.
  - destruct (co_known _ Hok i) as [[x Hx]|[r Hr]].
    { apply (co_pc _ Hok i l). by rewrite E. }
    { by rewrite Hcalls, lookup_empty in Hx. }
    eexists _, _. by eapply attempt_drained.
  - eexists _, _. eapply (owner_next c b s l zero_time None); [done|]. by left.
  - eexists _, _. eapply (run_release c b s l owned (ReleaseScopeSyncLease l (db s)).1 (ReleaseScopeSyncLease l (db s)).2); [done|].
    left. split; [by destruct (ReleaseScopeSyncLease l (db s))|done].
Qed.

(** A cancelled controller with whatever goes on around it: [n] steps of its own. *)
Inductive continues (c : SyncController) (b : bounds) : nat → sys → sys → Prop :=
  | cont_refl s : continues c b 0 s s
  | cont_ctl n s e s1 s' : ctl_step c b s e s1 → continues c b n s1 s' → continues c b (S n) s s'
  | cont_call n s s1 s' : call_step s s1 → continues c b n s1 s' → continues c b n s s'
  | cont_env n s s1 s' : env_step s s1 → continues c b n s1 s' → continues c b n s s'.

Lemma ctl_disowned c b s e s' :
  ctl_step c b s e s' → (∀ l, pc s ≠ Release l true) → ∀ l, pc s' ≠ Release l true.
Proof.
  intros Hs Hn l0. step_cases Hs; cbn; try done; try destruct (renewed r); try destruct (lease_lost_by r);
    try destruct lost; try done; by destruct (negb owned || cancelled s).
Qed.

Lemma continues_bounded c b n s s' :
  continues c b n s s' → cancelled s = true → (∀ l, pc s ≠ Release l true) → (n + rank (pc s') ≤ rank (pc s))%nat.
Proof.
  induction 1 as [s|n s e s1 s' Hs _ IH|n s s1 s' Hs _ IH|n s s1 s' Hs _ IH]; intros Hc Hr.
  - lia.
  - destruct (ctl_cancelled _ _ _ _ _ Hs Hc Hr) as [Hc1 Hlt]. specialize (IH Hc1 (ctl_disowned _ _ _ _ _ Hs Hr)). lia.
  - destruct Hs; by apply IH.
  - destruct Hs; by apply IH.
Qed.

(** ** Fetching under a lease *)
Section fetch.
Context `{Ed25519} {N : Type} (net : network N) (clock : nat → time) (rnd : nat → entropy) (load : string → res PrivateKey).
(** The counters of a response are unsigned. *)
Hypothesis Hunsigned : ∀ q n resp n', call_snapshot net q n = (Ok resp, n') → 0 ≤ sr_Generation resp ∧ 0 ≤ sr_HighWater resp.
Context (l : ScopeSyncLease).

Definition writes (w w' : member N) : Prop := rtc (fetch_write l) (m_sync w) (m_sync w').
#[local] Instance writes_preorder : PreOrder writes.
Proof. split; [intros w; apply rtc_refl|]. intros w1 w2 w3. unfold writes. by etrans. Qed.

Lemma writes_same {A} (m : M (member N) A) : within same_store m → within writes m.
Proof. apply within_impl. intros w w' [E _]. unfold writes. rewrite E. apply rtc_refl. Qed.

Lemma snapshot_unsigned scope :
  returns (authoritySnapshotRequest net rnd load scope) (λ r, 0 ≤ sr_Generation r ∧ 0 ≤ sr_HighWater r).
Proof.
  intros w a w' E. unfold authoritySnapshotRequest in E. apply retry_run in E as (w1 & _ & E); [|apply store_once].
  unfold authoritySnapshotRequestOnce in E. run_inv.
  match goal with H : online (call_snapshot net _) _ = (Ok _, _) |- _ => rename H into Hcall end.
  unfold online, op in Hcall. destruct (call_snapshot net _ _) as [r n] eqn:Ec. injection Hcall as -> _.
  apply Hunsigned in Ec. case_match; [|done]. by simplify_eq.
Qed.

Lemma writes_now : within writes (time_now (N := N) clock).
Proof. apply writes_same, store_now. Qed.

Lemma fetch_writes scope force :
  s_Scope l = scope → within writes (FetchRecordsWithOptions net clock rnd load scope force (Some l)).
Proof.
  intros Hl. unfold FetchRecordsWithOptions.
  apply within_bind; [apply _|apply writes_now|]. intros t. apply within_bind; [apply _|apply writes_same; by intros w|]. intros f.
  apply within_bind; [apply _|apply within_pure, _|]. intros _. apply within_bind; [apply _| |].
  - apply within_attempt. unfold refresh.
    apply within_bind; [apply _|apply writes_same, store_membership|]. intros m.
    apply within_bind; [apply _|apply within_pure, _|]. intros p. apply within_bind; [apply _|apply within_pure, _|]. intros q.
    apply within_bind; [apply _|apply writes_same, store_online|]. intros _.
    eapply within_bind_returns; [apply _|apply snapshot_unsigned| |].
    { apply writes_same. unfold authoritySnapshotRequest. apply store_retry, store_once. }
    intros resp [Hg Hh]. cbv beta. apply within_bind; [apply _|apply writes_now|]. intros t'.
    unfold reconcileAuthorityResponseWithLease.
    apply within_bind; [apply _|apply within_guard, _|]. intros _. apply within_bind; [apply _|apply within_pure, _|]. intros vs.
    cbv zeta. apply within_bind; [apply _|apply writes_now|]. intros t2.
    apply within_bind; [apply _| |intros; apply within_ret, _].
    intros w. unfold in_sync, op, writes. pose proof (write_snapshot l t2 (mkSnapshot SnapshotSourcePinnedAuthority true
      (sr_Generation resp) (sr_HighWater resp) (snapshot_digest (map snd vs)) (map snd vs)) (m_sync w) Hg Hh) as Hw.
    destruct (ReconcileAuthoritativeSnapshotWithLease t2 l _ (m_sync w)). by apply rtc_once.
  - intros [result|cause]; [apply within_ret, _|]. unfold refresh_failed.
    apply within_bind; [apply _|apply writes_now|]. intros t1. cbv zeta. apply within_bind; [apply _|apply writes_now|]. intros t2.
    apply within_bind; [apply _| |intros; apply within_fail, _]. unfold said. apply within_wrapped.
    intros w. unfold in_sync, op, writes. pose proof (write_failure l t2 SnapshotSourcePinnedAuthority (discoveryErrorClass cause)
      (Some (Add (UTC t1) snapshotRetryDelay)) (m_sync w)) as Hw.
    destruct (RecordSnapshotFailureWithLease t2 l _ _ _ (m_sync w)). by apply rtc_once.
Qed.
End fetch.

(** C14: every run of a sync controller, whatever other processes do to the store and
    whenever timers fire, is one term of ownership. Its events are accepted by the monitor:
    it acquires the lease at most once; an attempt starts only under the acquired lease,
    before its loss is noticed, when the previous attempt is over and not before its due
    time; the due time is at least the cadence after the end of the previous attempt; once
    the loss is noticed or the lease given back nothing starts any more, also if the lease
    becomes free. At most one fetch runs at a time. It never waits longer than the renewal
    interval while it owns the lease, and never longer than a quarter more while it contends. *)
Theorem sync_refines_monitor c b d0 tr s :
  settings c = Ok b → cadence b + cadence b / 10 ≤ max_duration → renew b + renew b / 4 ≤ max_duration →
  runs c b (idle d0) tr s →
  (∃ m, watch (cadence b) tr = Some m) ∧
  (∀ i j, is_Some (calls s !! i) → is_Some (calls s !! j) → i = j) ∧
  match pc s with
  | Backoff delay => 0 < delay ≤ renew b + renew b / 4
  | Sleep _ _ delay => 0 < delay ≤ renew b
  | _ => True
  end.
Proof.
  intros Hset Hc Hr Hruns. split_and!.
  - destruct (runs_watched c b Hset (conj Hc Hr) _ _ _ Hruns) as (m & Hm & _). by exists m.
  - pose proof (runs_calls c b _ _ _ Hruns) as Hok. intros i j [l Hi] [l' Hj].
    pose proof (co_one _ Hok i l Hi). pose proof (co_one _ Hok j l' Hj). congruence.
  - exact (runs_waits c b Hset (conj Hc Hr) _ _ _ Hruns).
Qed.

(** A cancelled sync controller ends. From the moment its context is cancelled it takes
    at most five more steps of its own, whatever happens around it, and as long as it has
    not ended it can take one, except that it waits for a fetch that still runs. *)
Lemma sync_cancel_ends c b d0 tr s :
  settings c = Ok b → cadence b + cadence b / 10 ≤ max_duration → renew b + renew b / 4 ≤ max_duration →
  runs c b (idle d0) tr s → cancelled s = true →
  (∀ n s', continues c b n s s' → (n ≤ 5)%nat) ∧
  (pc s ≠ Ended → calls s = ∅ → ∃ e s', ctl_step c b s e s').
Proof.
  intros Hset Hc Hr Hruns Hx. split.
  - intros n s' Hn. destruct (runs_watched c b Hset (conj Hc Hr) _ _ _ Hruns) as (m & _ & Hm).
    apply continues_bounded in Hn; [|done|].
    + assert (rank (pc s) ≤ 5)%nat by (destruct (pc s); cbn; lia). lia.
    + intros l E. rewrite E in Hm. by destruct Hm.
  - intros Hp Hcalls. by apply ctl_progress; [..|eapply runs_calls].
Qed.

(** C39: a sync controller never disturbs a successor. Whatever it does itself leaves all
    tables but the leases alone, and of the leases all rows but that of its scope. That row
    it releases or renews only while it is its own, with the token it acquired in this run,
    and renews only at an instant, shown in the row, before its expiry column; a new row of
    its own it writes only where there was none or where the expiry column does not read as
    after the instant of the acquisition, which the new row shows. A fetch that it runs
    changes the store only while the row of the acquired lease is there and its expiry is in
    the future of the instant of the write, the one that the freshness row then shows as the
    last attempt, and then only discovered records and freshness of the scope; and the
    writes it can do are all that fetching the records of the scope under that lease does.
    And a cancelled controller ends: from the moment its context is cancelled it takes at
    most five more steps of its own, whatever happens around it, and as long as it has not
    ended it can take one, except that it waits for a fetch that still runs. *)
Theorem sync_controller_fenced c b d0 tr s :
  settings c = Ok b → runs c b (idle d0) tr s →
  (∀ e s', ctl_step c b s e s' → minds_leases c b (own_lease c tr) (db s) (db s')) ∧
  (∀ s', call_step s s' → db s' = db s ∨
     ∃ l row e t, own_lease c tr l ∧ fenced_row (db s) l = Some row ∧ ParseTime (sl_expires row) = Some e ∧
       unix_ns t < unix_ns e ∧ fr_attempt (fresh_row (db s') (cc_Scope c)) = column_time t ∧
       scope_sync_leases (db s') = scope_sync_leases (db s) ∧ authority_snapshots (db s') = authority_snapshots (db s) ∧
       (∀ k, k.1 ≠ cc_Scope c → records (db s') !! k = records (db s) !! k) ∧
       (∀ k row, local_row (db s) k row ↔ local_row (db s') k row) ∧
       ∀ scope, scope ≠ cc_Scope c → scope_freshness (db s') !! scope = scope_freshness (db s) !! scope) ∧
  (∀ `{Ed25519} (N : Type) (net : network N) clock rnd load force l w,
     (∀ q n resp n', call_snapshot net q n = (Ok resp, n') → 0 ≤ sr_Generation resp ∧ 0 ≤ sr_HighWater resp) →
     own_lease c tr l →
     rtc (fetch_write l) (m_sync w) (m_sync (FetchRecordsWithOptions net clock rnd load (cc_Scope c) force (Some l) w).2)) ∧
  (cadence b + cadence b / 10 ≤ max_duration → renew b + renew b / 4 ≤ max_duration → cancelled s = true →
   (∀ n s', continues c b n s s' → (n ≤ 5)%nat) ∧
   (pc s ≠ Ended → calls s = ∅ → ∃ e s', ctl_step c b s e s')).
Proof.
  intros Hset Hruns. split_and!.
  - intros e s' Hs. apply (ctl_minds _ _ _ _ _ _ Hs). intros l Hl.
    pose proof (runs_own c b d0 tr s Hruns l Hl) as Ho. split; [done|apply Ho].
  - intros s' Hs. destruct Hs as [s i l d' Hi Hw|s i l r Hi]; [|by left]. apply fetch_write_fenced in Hw as [->|Hw]; [by left|].
    right. pose proof (runs_calls c b _ _ _ Hruns) as Hok. pose proof (co_one _ Hok i l Hi) as Hin.
    assert (Ho : own_lease c tr l).
    { by eapply (runs_own c b d0 tr s Hruns), in_call_lease. }
    destruct Hw as ((row & e & t & Hrow & He & Ht & Hat) & Hl & Ha & Hrec & Hloc & Hf). exists l, row, e, t.
    pose proof Ho as (_ & Hsc & _). rewrite Hsc in *. done.
  - intros H N net clock rnd load force l w Hu Ho. apply fetch_writes; [done|apply Ho].
  - intros Hc Hr Hx. by eapply sync_cancel_ends.
Qed.

(** ** A run *)
Module SyncSample.
Definition noon (n : Z) : time := mkTime ((1700000000 + n) * Second) 0.
Definition lab_members : scope_tables :=
  (PutMembership (mkMembership "home/lab" "member" "token" "public" "/p2p/authority" "member.key") no_scopes).2.
Definition lab_runs : runs_table :=
  (PutRun (λ _, Ok "4711:start") (noon 0) (mkRun "pipe/web" "pipe" 4711 "" "" "ready" "" "" zero_time zero_time) ∅).2.
Definition lab_sync : SyncController := mkController true "home/lab" "pipe/web" "4711:start" 0 0 0 0.
Definition lab_bounds : bounds := mkBounds Minute (45 * Second) (10 * Second) (20 * Second).
Definition token_bytes : res string := Ok "aaaaaaaaaaaaaaaaaaaaaaaaaaaaaaaa".
Definition lab_lease : ScopeSyncLease :=
  mkSyncLease "home/lab" "pipe/web" "4711:start" (base64_encode "aaaaaaaaaaaaaaaaaaaaaaaaaaaaaaaa") (noon 0) (noon 0) (noon 45) true.

Lemma lab_started : StartScopeSync lab_members lab_runs "home/lab" "pipe/web" = Ok (Some lab_sync).
Proof. vm_compute. reflexivity. Qed.
Lemma lab_settings : settings lab_sync = Ok lab_bounds.
Proof. reflexivity. Qed.

Definition held : sync_db :=
  (AcquireScopeSyncLease token_bytes "home/lab" "pipe/web" "4711:start" (UTC (noon 0)) (45 * Second) empty_sync).2.
Definition running : sys := start_call lab_lease (go (Own lab_lease (UTC (noon 0))) (with_db held (idle empty_sync))).
Definition failed_db : sync_db :=
  (RecordSnapshotFailureWithLease (noon 5) lab_lease SnapshotSourcePinnedAuthority "authority_unreachable" (Some (noon 95)) held).2.
Definition rested : sys :=
  go (Own lab_lease (noon 95)) (go (Reschedule lab_lease) (end_call 0 (Some (errorf "authority_unreachable")) (with_db failed_db running))).

(** The lease is acquired and a fetch starts. *)
Lemma lab_running : runs lab_sync lab_bounds (idle empty_sync) [Acquired lab_lease; Started lab_lease (UTC (noon 1))] running.
Proof.
  eapply (runs_ctl _ _ _ [Acquired lab_lease] _ (Some (Started lab_lease (UTC (noon 1)))));
    [|by eapply (owner_attempt _ _ _ lab_lease (UTC (noon 0)))].
  eapply (runs_ctl _ _ _ [Acquired lab_lease] _ None);
    [|exact (owner_enter _ _ (go (Enter lab_lease) (with_db held (idle empty_sync))) lab_lease (noon 0) eq_refl)].
  eapply (runs_ctl _ _ _ [] _ (Some (Acquired lab_lease))); [apply runs_refl|].
  eapply (run_acquired _ _ _ token_bytes (noon 0)); [done|done|]. left. split; [vm_compute; reflexivity|done].
Qed.

(** It fails, says so in the store, and the next one is due when the store allows it. *)
Lemma lab_rested :
  runs lab_sync lab_bounds (idle empty_sync)
    [Acquired lab_lease; Started lab_lease (UTC (noon 1)); Finished lab_lease (UTC (noon 6)) (noon 95)] rested.
Proof.
  eapply (runs_ctl _ _ _ [Acquired lab_lease; Started lab_lease (UTC (noon 1))] _ (Some (Finished lab_lease (UTC (noon 6)) (noon 95)))).
  2: { pose proof (owner_next lab_sync lab_bounds (go (Reschedule lab_lease) (end_call 0 (Some (errorf "authority_unreachable"))
         (with_db failed_db running))) lab_lease (noon 6) None
         (ScopeFreshnessOf failed_db "home/lab") eq_refl (or_introl eq_refl)) as Hn. cbv zeta in Hn.
       assert (Ed : nextDue (ScopeFreshnessOf failed_db "home/lab")
         (Add (UTC (noon 6)) (dur_add (cadence lab_bounds) (boundedScopeSyncJitter None (cadence lab_bounds ÷ 10)))) = noon 95)
         by (vm_compute; reflexivity).
       rewrite Ed in Hn. exact Hn. }
  eapply (runs_ctl _ _ _ [Acquired lab_lease; Started lab_lease (UTC (noon 1))] _ None);
    [|by eapply (attempt_done _ _ _ lab_lease 0 (Some (errorf "authority_unreachable")))].
  eapply runs_call; [|by eapply (call_return _ 0 lab_lease)].
  eapply runs_call; [exact lab_running|]. eapply (call_write _ 0 lab_lease); [done|]. apply write_failure.
Qed.
End SyncSample.
Import SyncSample.

Lemma sync_refines_monitor_witness :
  watch Minute [Acquired lab_lease; Started lab_lease (UTC (noon 1)); Finished lab_lease (UTC (noon 6)) (noon 95)]
    = Some (Holding lab_lease (Some (noon 95))) ∧
  (∃ m, watch (cadence lab_bounds)
     [Acquired lab_lease; Started lab_lease (UTC (noon 1)); Finished lab_lease (UTC (noon 6)) (noon 95)] = Some m).
Proof.
  split; [vm_compute; reflexivity|].
  apply (sync_refines_monitor lab_sync lab_bounds empty_sync _ rested lab_settings); [discriminate|discriminate|exact lab_rested].
Defined.

Lemma sync_controller_fenced_witness :
  minds_leases lab_sync lab_bounds (own_lease lab_sync [Acquired lab_lease; Started lab_lease (UTC (noon 1))]) (db running) (db running) ∧
  (∃ l row e t, fenced_row (db running) l = Some row ∧ ParseTime (sl_expires row) = Some e ∧ unix_ns t < unix_ns e ∧
     fr_attempt (fresh_row failed_db "home/lab") = column_time t) ∧
  ∃ e s', ctl_step lab_sync lab_bounds (cancel_ctx rested) e s'.
Proof.
  destruct (sync_controller_fenced lab_sync lab_bounds empty_sync _ running lab_settings lab_running) as (H & Hw & _).
  destruct (sync_controller_fenced lab_sync lab_bounds empty_sync _ (cancel_ctx rested) lab_settings
    (runs_env _ _ _ _ _ _ lab_rested (env_cancel rested))) as (_ & _ & _ & Hend).
  split_and!.
  - exact (H None _ (attempt_deadline lab_sync lab_bounds running lab_lease 0 eq_refl)).
  - destruct (Hw (with_db failed_db running)) as [E|(l & row & e & t & _ & Hrow & He & Ht & Ha & _)].
    + eapply (call_write _ 0 lab_lease); [reflexivity|apply write_failure].
    + exfalso. assert (E' := f_equal (λ d, scope_freshness d !! "home/lab") E). vm_compute in E'. discriminate E'.
    + exists l, row, e, t. exact (conj Hrow (conj He (conj Ht Ha))).
  - apply (proj2 (Hend ltac:(discriminate) ltac:(discriminate) eq_refl)); [discriminate|vm_compute; reflexivity].
Defined.

