(* ===== verification/Downstream.v ===== *)
(** * Opening a remote Pipe

    The opening side of the tunnel: [internal/runtime/exact_access.go] (access material from
    the accepted binding, behind the contract of [internal/openauth]),
    [internal/runtime/exact_downstream.go] (the handshake with the receiving boundary) and
    the part of [runLocalPipeExact] in [internal/runtime/pipe.go] that handles one local
    connection. The receiving side: [internal/runtime/serve.go] from the hello to the row
    of the session, with [servebookkeeping.go]. The status of a run follows the opens
    ([setRunStatus] of [relay_recovery.go]).

    The opening side works over a world [V] with a record of operations on the carrier. *)
From S2P Require Import Prelude GoStrings GoTime Encoding Json JsonRoundTrip JsonTree Sha256.
From S2P Require Import Credentials CredentialFacts StoreRelations StoreRelationFacts ExactAuthority.
From S2P Require Import Domain Engine StoreSync StoreObjects OpenBoundary Handlers Frames Effects UseCases ScopeSync.
Open Scope Z_scope.

(** ** Access material *)
Record AcquiredAccess := mkAcquired {
  qa_PipeID : string; qa_Locator : string; qa_AccessLease : string; qa_ExpiresAt : time }.

Section acquirer.
Context `{Ed25519} {W C : Type}.

Definition with_reach (uc : UseCases W C) (reach : option (ReachabilityAcquirer W C)) : UseCases W C :=
  mkUseCases (u_Services uc) (u_Pipes uc) (u_Secrets uc) (u_Now uc) (u_OwnerLocator uc) (u_ExactEpoch uc)
    (u_RedemptionProtocol uc) (u_Redemption uc) (u_Renewal uc) reach (u_Starter uc) (u_Bindings uc) (u_LeaseCache uc)
    (u_Platform uc).

(** [useCaseAccessAcquirer]: reachability is wired on the first use and kept. The first
    component of the state is its field [uc.Reach]. *)
Definition wire_reach (makeReach : option (M W (ReachabilityAcquirer W C)))
    : M (option (ReachabilityAcquirer W C) * W) unit := λ '(reach, w),
  match reach, makeReach with
  | Some _, _ => (Ok tt, (reach, w))
  | None, None => (Fail (errorf "reachability_unavailable: exact access reachability is not wired"), (None, w))
  | None, Some make =>
      match make w with
      | (Ok r, w) => (Ok tt, (Some r, w))
      | (Fail e, w) => (Fail e, (None, w))
      end
  end.

Definition AcquireAccess (uc : UseCases W C) (makeReach : option (M W (ReachabilityAcquirer W C))) (remotePipeID : string)
    : M (option (ReachabilityAcquirer W C) * W) AcquiredAccess :=
  _ ← wire_reach makeReach;
  access ← op (λ '(reach, w), let '(r, w) := AcquireAcceptedPipeAccess (with_reach uc reach) remotePipeID w in (r, (reach, w)));
  encoded ← lift (Lease.Encode (aa_AccessLease access));
  mret (mkAcquired (aa_RemotePipeID access) (aa_Locator access) encoded (UTC (Lease.ExpiresAt (aa_AccessLease access)))).
End acquirer.

(** ** The opening side *)
Definition baseSessionCapabilities : list string := ["raw-duplex"; "half-close"].

Section opener.
Context `{Ed25519} {V : Type}.

(** What the opener does outside: the clock, dialling a locator, opening and closing the
    stream, the two exchanges of the handshake, and reading a key file. *)
Record tunnel := mkTunnel {
  tn_now : M V time;
  tn_dial : string → M V string;
  tn_stream : string → M V unit;
  tn_close : M V unit;
  tn_hello : ClientHello → M V ServerHello;
  tn_open : OpenPipe → M V OpenResult;
  tn_load : string → M V PrivateKey }.

(** [defer] that closes the stream unless it was handed over. *)
Definition or_close {A} (close : M V unit) (m : M V A) : M V A := λ v,
  match m v with (Ok a, v) => (Ok a, v) | (Fail e, v) => (Fail e, (close v).2) end.

Context (tn : tunnel).

Definition decode_access (text : string) (access : AcquiredAccess) : M V Lease.AccessLease :=
  lift (relabel (Lease.Decode (qa_AccessLease access)) (errorf text)).

(** Material that expired on the way is acquired once more. *)
Definition current_access (acquire : string → M V AcquiredAccess) (pipeID : string)
    : M V (AcquiredAccess * Lease.AccessLease) :=
  access ← acquire pipeID;
  _ ← guard (qa_PipeID access <>s pipeID) (errorf "exact_connection: acquired access for wrong pipe");
  now ← tn_now tn;
  lease ← decode_access "exact_connection: invalid acquired access lease" access;
  if negb (After (qa_ExpiresAt access) (UTC now)) || negb (After (Lease.ExpiresAt lease) (UTC now)) then
    access ← acquire pipeID;
    lease ← decode_access "exact_connection: invalid reacquired access lease" access;
    _ ← guard (qa_PipeID access <>s pipeID) (errorf "exact_connection: reacquired access lease expired");
    now ← tn_now tn;
    _ ← guard (negb (After (qa_ExpiresAt access) (UTC now))) (errorf "exact_connection: reacquired access lease expired");
    mret (access, lease)
  else mret (access, lease).

(** The handshake on the open stream. *)
Definition handshake (secrets pipeID : string) (access : AcquiredAccess) (lease : Lease.AccessLease)
    (traversal : TraversalState) : M V string :=
  server ← tn_hello tn (mkClientHello "2.0" (Lease.Subject lease) baseSessionCapabilities);
  _ ← guard ((sh_PipeID server <>s pipeID) || (sh_Version server <>s "2.0"))
        (errorf "tunnel_handshake_failed: pipe or version mismatch");
  recipientPrivate ← wrapped (λ _, errorf "exact_connection: accepted recipient key unavailable")
                       (tn_load tn (connect_key_file secrets pipeID));
  let challengeProof := SignProof recipientPrivate OpenProofPurpose [sh_Challenge server; pipeID] in
  result ← tn_open tn (downstream_open pipeID challengeProof (qa_AccessLease access) traversal);
  _ ← guard (negb (or_OK result)) (errorf (or_ErrorCode result +:+ ": " +:+ or_Message result));
  mret (or_SessionID result).

(** [newExactDownstreamPipeOpener]; the carrier is the stream. *)
Definition exactDownstreamOpen (acquirer : option (string → M V AcquiredAccess)) (secrets pipeID : string)
    (traversal : TraversalState) : M V string :=
  acquire ← wired acquirer (errorf "exact_connection: access acquirer not injected");
  '(access, lease) ← current_access acquire pipeID;
  peer ← tn_dial tn (qa_Locator access);
  _ ← tn_stream tn peer;
  or_close (tn_close tn) (handshake secrets pipeID access lease traversal).

(** [setRunStatus]: whether the status of the run changed. *)
Definition setRunStatus (identity : Z → res string) (now : time) (ref status : string) (d : runs_table) : bool * runs_table :=
  match RunNamed d ref with
  | Fail _ => (false, d)
  | Ok run =>
      if ru_Status run =s status then (false, d)
      else
        match PutRun identity now
                (mkRun (ru_PrimaryRef run) (ru_Kind run) (ru_PID run) (ru_ProcessIdentity run) (ru_Source run) status
                   (ru_PeerID run) (ru_Address run) (ru_StartedAt run) (ru_UpdatedAt run)) d with
        | (Ok _, d) => (true, d)
        | (Fail _, d) => (false, d)
        end
  end.

(** One local connection of [runLocalPipeExact], up to the start of its session: [status]
    sets the status of the run, [put_session] stores the row of the session. *)
Definition local_connection (acquirer : option (string → M V AcquiredAccess)) (secrets : string) (spec : PipeSpec)
    (status : string → M V unit) (put_session : Session_ → M V unit) : M V string :=
  opened ← attempt (exactDownstreamOpen acquirer secrets (Name (p_Target spec))
                      (mkTraversal [p_PipeID spec] 0 DefaultMaxPipeHops));
  match opened with
  | Fail e => _ ← attempt (status "degraded"); fail e
  | Ok sessionID =>
      now ← tn_now tn;
      _ ← attempt (put_session (mkSession sessionID (RefString (p_Ref spec)) "relayed" "relayed" (UTC now) 0 0));
      _ ← attempt (status "ready");
      mret sessionID
  end.
End opener.
Arguments tunnel {_} V.
Arguments tn_now {_ _}. Arguments tn_dial {_ _}. Arguments tn_stream {_ _}. Arguments tn_close {_ _}.
Arguments tn_hello {_ _}. Arguments tn_open {_ _}. Arguments tn_load {_ _}. Arguments mkTunnel {_ _}.

(** ** The receiving side *)
Definition pipeScopeString (pipe : PipeSpec) : string :=
  match p_Scope pipe with Some s => ScopeString s | None => "" end.

Definition randomSessionID (rnd : entropy) : res string := value ← rnd; Ok ("ses_" +:+ base32_encode value).

Definition sessionAllowed (d : relations) (spec : PipeSpec) (sessionID : string) : res bool :=
  revoked ← IsRevoked d (pipeScopeString spec) "session" sessionID; Ok (negb revoked).

Definition authorizedOpenResult (sessionID : string) : OpenResult := mkOpenResult true sessionID "2.0" "" "" "".

(** The frame of [openError]: its text is the code, a colon, a blank and the message. *)
Definition refused_open (e : error) : OpenResult :=
  match Cut (err_text e) ":"%char with
  | Some (code, message) => mkOpenResult false "" "" code (of_bytes (drop 1 (bytes_of message))) "terminal"
  | None => mkOpenResult false "" "" "" (err_text e) "terminal"
  end.

Definition recordSession (now : time) (spec : PipeSpec) (sessionID : string) (rx tx : Z) (d : objects) : objects :=
  (PutSession (mkSession sessionID (RefString (p_Ref spec)) "relayed" "relayed" (UTC now) rx tx) d).2.

Definition server_hello (spec : PipeSpec) (challenge : string) (hello : ClientHello) : res ServerHello :=
  _ ← hello_checks hello;
  Ok (mkServerHello "2.0" (p_PipeID spec) challenge baseSessionCapabilities).

Section receiver.
Context `{NetParsers} {Conn Carrier : Type}.

(** From the open frame to the session identifier: the target is selected, the session is
    minted and checked, and its row is stored when the result is sent. *)
Definition serve_open (spec : PipeSpec) (service : ServiceSpec) (authorizer : option OpenAuthorizer)
    (dial : ServiceSpec → res Conn) (engine : Engine Conn) (opener : option (DownstreamOpener Carrier))
    (hello : ClientHello) (challenge : string) (open : OpenPipe) (now : time) (rnd : entropy) (t : time)
    (rel : relations) (d : objects) : res OpenResult * objects :=
  match hello_checks hello with
  | Fail e => (Fail e, d)
  | Ok _ =>
      match (serve spec service authorizer dial engine opener hello challenge open now).1 with
      | Fail e => (Ok (refused_open e), d)
      | Ok _ =>
          match randomSessionID rnd with
          | Fail e => (Fail e, d)
          | Ok sessionID =>
              match sessionAllowed rel spec sessionID with
              | Ok true => (Ok (authorizedOpenResult sessionID), recordSession t spec sessionID 0 0 d)
              | _ => (Ok (refused_open (openError "authorization_denied" "session revoked")), d)
              end
          end
      end
  end.
End receiver.
