(* ===== verification/DownstreamProps.v ===== *)
(** * From an invite to an open session

    The opening side against the receiving side, over the two nodes of [Nodes]: a Pipe that
    was shared and connected to carries a session when a local connection comes in. *)
From S2P Require Import Prelude GoStrings GoTime Encoding Json JsonRoundTrip JsonTree Sha256.
From S2P Require Import Credentials CredentialFacts CredentialVerify CredentialProps StoreRelations StoreRelationFacts.
From S2P Require Import ExactAuthority ExactAuthorityFacts Domain DomainFacts Engine StoreSync StoreObjects StoreObjectFacts.
From S2P Require Import OpenBoundary AccessProps Handlers HandlerProps Frames FrameFacts Effects UseCases UseCaseProps Nodes NodeProps.
From S2P Require Import ScopeSync Downstream.
Open Scope Z_scope.

Section tunnelling.
Context `{Ed25519Laws} `{NetParsers} (clock : nat → time) (random : nat → nat → string) (generate : string → PrivateKey).
Context {Conn Carrier : Type}.

(** The two nodes, the reachability that the opener wired, the handshake on the stream, and
    the runs of the opening node. *)
Record links := mkLinks {
  k_reach : option (ReachabilityAcquirer world unit); k_nodes : world;
  k_stream : option (ClientHello * string); k_runs : runs_table }.
Implicit Types (v : links).

Definition on_nodes {A} (m : M world A) : M links A := λ v,
  let '(r, w) := m (k_nodes v) in (r, mkLinks (k_reach v) w (k_stream v) (k_runs v)).
Definition on_reach {A} (m : M (option (ReachabilityAcquirer world unit) * world) A) : M links A := λ v,
  let '(r, (reach, w)) := m (k_reach v, k_nodes v) in (r, mkLinks reach w (k_stream v) (k_runs v)).
Definition set_stream (s : option (ClientHello * string)) : M links unit := λ v,
  (Ok tt, mkLinks (k_reach v) (k_nodes v) s (k_runs v)).

(** ** The shared Pipe at work *)
Section served.
Context (secrets address : string) (spec : PipeSpec) (service : ServiceSpec) (dial : ServiceSpec → res Conn)
        (engine : Engine Conn) (opener : option (DownstreamOpener Carrier)).

(** The authorizer of the shared Pipe: its key is read from the owner's files. *)
Definition owner_authorizer (wall : time) (w : world) : OpenAuthorizer := λ req,
  (LazyAuthorizeOpen (parts ← KeyPath secrets (p_PipeID spec); owner_load at_owner w (path_of parts)) wall (p_PipeID spec)
     None (n_relations (w_owner w)) req).1.

Definition answer_hello (hello : ClientHello) : M links ServerHello :=
  nonce ← on_nodes (read_random random 24);
  server ← lift (server_hello spec (base64_encode nonce) hello);
  _ ← set_stream (Some (hello, base64_encode nonce));
  mret server.

Definition answer_open (open : OpenPipe) : M links OpenResult :=
  stream ← (λ v, (Ok (k_stream v), v));
  '(hello, challenge) ← wired stream (errorf "stream closed");
  now ← on_nodes (read_clock clock); wall ← on_nodes (read_clock clock);
  rnd ← attempt (on_nodes (read_random random 16)); t ← on_nodes (read_clock clock);
  on_nodes (λ w,
    let n := w_owner w in
    let '(r, d) := serve_open spec service (Some (owner_authorizer wall w)) dial engine opener hello challenge open
                     (UTC now) rnd t (n_relations n) (n_objects n) in
    (r, mkWorld (mkNode d (n_relations n) (n_keys n)) (w_peer w) (w_reads w))).

(** The tunnel of the connecting node to the shared Pipe. *)
Definition tunnel_to_owner : tunnel links :=
  mkTunnel (on_nodes (read_clock clock))
    (λ locator, if locator =s address then mret "owner" else fail (errorf "dial failed"))
    (λ _, set_stream None) (set_stream None) answer_hello answer_open
    (λ path, on_nodes (load_key at_peer path)).

(** Its ports: reachability is wired on the first use. *)
Definition acquire_access (secrets' : string) (h : handler) (id : string) : M links AcquiredAccess :=
  on_reach (AcquireAccess (peer_ports clock random generate secrets' address h)
              (Some (mret (reach_peer address))) id).

Definition peer_status (identity : Z → res string) (ref status : string) : M links unit := λ v,
  (Ok tt, mkLinks (k_reach v) (k_nodes v) (k_stream v)
            (setRunStatus identity (clock (w_reads (k_nodes v))) ref status (k_runs v)).2).

Definition peer_connection (secrets' : string) (h : handler) (identity : Z → res string) (lspec : PipeSpec)
    : M links string :=
  local_connection tunnel_to_owner (Some (acquire_access secrets' h)) secrets' lspec
    (peer_status identity (RefString (p_Ref lspec))) (λ s, on_nodes (writes at_peer (PutSession s))).
End served.

(** ** Rows *)

(** The row of an open session; an earlier row of that identifier keeps its reference. *)
Definition opened_session (d d' : objects) (sid ref : string) : Prop :=
  ∃ s, Session d' sid = Ok s ∧ ss_Current s = "relayed" ∧ ss_In s = 0 ∧ ss_Out s = 0 ∧
    (sessions d !! sid = None → ss_PipeRef s = ref ∧ ss_Initial s = "relayed").

Lemma put_opened sid ref t d : opened_session d (PutSession (mkSession sid ref "relayed" "relayed" t 0 0) d).2 sid ref.
Proof.
  unfold opened_session, Session, PutSession. cbn [snd sessions set_sessions ss_ID]. rewrite lookup_insert_eq.
  cbn [need mbind res_bind]. eexists. split; [reflexivity|]. cbn [ss_Current ss_In ss_Out ss_PipeRef ss_Initial].
  destruct (sessions d !! sid) as [r|]; by split_and!.
Qed.

(** A row that [PutRun] can write again. *)
Definition live_run (r : run_row) : Prop :=
  mem_str (rn_source r) ["foreground"; "detached"; "launchd"; "systemd"] = true ∧ (rn_process r ≠ "" ∨ rn_pid r ≤ 0).

Lemma status_set identity now ref status d row :
  d !! ref = Some row → live_run row →
  ∃ row', (setRunStatus identity now ref status d).2 !! ref = Some row' ∧ rn_status row' = status.
Proof.
  intros Hr [Hs Hp]. unfold setRunStatus, RunNamed. rewrite Hr. cbn [need mbind res_bind run_of ru_Status].
  destruct (rn_status row =s status) eqn:E; [exists row; by apply seqb_true in E|].
  unfold PutRun. cbn [ru_Source ru_PID ru_ProcessIdentity ru_PrimaryRef run_of].
  assert (Hne : (rn_source row =s "") = false).
  { apply seqb_false. intros E'. rewrite E' in Hs. by vm_compute in Hs. }
  rewrite Hne, Hs. cbn [negb].
  assert (Hid : (0 <? rn_pid row) && (rn_process row =s "") = false).
  { destruct Hp as [Hp|Hp]; [rewrite (proj2 (seqb_false _ _) Hp); apply andb_false_r|].
    by rewrite (proj2 (Z.ltb_ge 0 (rn_pid row)) Hp). }
  rewrite Hid. cbn [snd]. eexists. split; [apply lookup_insert_eq|done].
Qed.

(** ** Access that opens the Pipe *)
Lemma nodes_gives {A} (m : M world A) v (Q : A → links → Prop) :
  gives m (k_nodes v) (λ a w, Q a (mkLinks (k_reach v) w (k_stream v) (k_runs v))) → gives (on_nodes m) v Q.
Proof. intros (a & w & Hm & HQ). eexists a, _. unfold on_nodes. by rewrite Hm. Qed.

(** What an open needs: current access at the peer and the authority's key at the owner. *)
Record opens_with (secrets secrets' address pipeID : string) (h : handler) (k k_auth : PrivateKey)
    (lease : Lease.AccessLease) (text : string) (w : world) : Prop := {
  ow_acquire : ∀ w', w_owner w' = w_owner w → w_peer w' = w_peer w →
    gives (AcquireAcceptedPipeAccess (peer_ports clock random generate secrets' address h) pipeID) w' (λ a w3,
      a = mkAccess pipeID address (PublicString (Public k_auth)) lease ∧ w_owner w3 = w_owner w' ∧ w_peer w3 = w_peer w');
  ow_text : Lease.Encode lease = Ok text ∧ Lease.Decode text = Ok lease;
  ow_verifies : ∀ wall t, Lease.Verify wall lease (Public k_auth) (PublicString (Public k)) pipeID (UTC (clock t)) = Ok tt;
  ow_subject : Lease.Subject lease = PublicString (Public k);
  ow_after : ∀ t, After (Lease.ExpiresAt lease) (clock t) = true;
  ow_key : n_keys (w_peer w) !! connect_key_file secrets' pipeID = Some k;
  ow_authority : ∃ parts, KeyPath secrets pipeID = Ok parts ∧ n_keys (w_owner w) !! path_of parts = Some k_auth;
  ow_current : IsRevoked (n_relations (w_owner w)) pipeID "access-lease" (Lease.JTI lease) = Ok false ∧
               ∃ e, RevocationEpoch (n_relations (w_owner w)) pipeID "pipe-access" pipeID = Ok e ∧ e ≤ Lease.AccessEpoch lease;
  ow_pipe : ∃ owner, pipeID = PipeIDFromOwner owner }.

Section opened.
Context (Hck : steady_clock clock) (Hrnd : ∀ size n, slen (random size n) = Z.of_nat size).
Context (secrets secrets' address pipeID : string) (h : handler) (k k_auth : PrivateKey) (lease : Lease.AccessLease)
        (text : string) (w : world).
Context (How : opens_with secrets secrets' address pipeID h k k_auth lease text w).

(** The nodes are as they were, up to the clock. *)
Definition as_before v : Prop := w_owner (k_nodes v) = w_owner w ∧ w_peer (k_nodes v) = w_peer w.

Lemma access_gives v (Q : AcquiredAccess → links → Prop) :
  as_before v → (k_reach v = None ∨ k_reach v = Some (reach_peer address)) →
  (∀ v', as_before v' → k_runs v' = k_runs v →
     Q (mkAcquired pipeID address text (UTC (Lease.ExpiresAt lease))) v') →
  gives (acquire_access address secrets' h pipeID) v Q.
Proof.
  intros [Ho Hp] Hr HQ. destruct (ow_acquire _ _ _ _ _ _ _ _ _ _ How (k_nodes v) Ho Hp) as (a & w' & Ha & -> & Ho' & Hp').
  destruct (ow_text _ _ _ _ _ _ _ _ _ _ How) as [Ht _].
  eexists _, (mkLinks (Some (reach_peer address)) w' (k_stream v) (k_runs v)). split.
  - unfold acquire_access, on_reach, AcquireAccess, wire_reach. unfold mbind, M_bind, op, lift.
    assert (Hu : with_reach (peer_ports clock random generate secrets' address h) (Some (reach_peer address))
                 = peer_ports clock random generate secrets' address h) by reflexivity.
    destruct Hr as [-> | ->]; cbn [mret M_ret]; rewrite Hu, Ha; cbn [aa_AccessLease aa_RemotePipeID aa_Locator];
      rewrite Ht; reflexivity.
  - apply HQ; [|done]. split; cbn [k_nodes]; congruence.
Qed.

Lemma current_gives tn v (Q : AcquiredAccess * Lease.AccessLease → links → Prop) :
  tn_now tn = on_nodes (read_clock clock) →
  as_before v → (k_reach v = None ∨ k_reach v = Some (reach_peer address)) →
  (∀ v', as_before v' → k_runs v' = k_runs v →
     Q (mkAcquired pipeID address text (UTC (Lease.ExpiresAt lease)), lease) v') →
  gives (current_access tn (acquire_access address secrets' h) pipeID) v Q.
Proof.
  intros Hn Hb Hr HQ. unfold current_access. apply gives_bind, access_gives; [done|done|]. intros v1 Hb1 Hk1.
  apply gives_bind, gives_guard; [by rewrite seqb_refl|]. rewrite Hn. apply gives_bind, nodes_gives.
  eapply gives_run; [reflexivity|]. apply gives_bind. unfold decode_access. cbn [qa_AccessLease qa_ExpiresAt].
  eapply (gives_lift _ lease); [by rewrite (proj2 (ow_text _ _ _ _ _ _ _ _ _ _ How))|].
  assert (Ha : ∀ n, After (Lease.ExpiresAt lease) (UTC (clock n)) = true) by apply (ow_after _ _ _ _ _ _ _ _ _ _ How).
  change (After (UTC (Lease.ExpiresAt lease))) with (After (Lease.ExpiresAt lease)). rewrite Ha. apply gives_ret, HQ; done.
Qed.

(** ** The receiving side accepts *)
Context (spec : PipeSpec) (service : ServiceSpec) (dial : ServiceSpec → res Conn) (conn : Conn) (engine : Engine Conn)
        (opener : option (DownstreamOpener Carrier)).
Context (Hid : p_PipeID spec = pipeID) (Hkind : Kind (p_Target spec) ≠ KindPipe) (Hdial : dial service = Ok conn).

Lemma authorizer_accepts wall t w' challenge visited limit :
  w_owner w' = w_owner w →
  let open := mkOpenPipe pipeID (SignProof k OpenProofPurpose [challenge; pipeID]) text visited limit in
  let req := open_request (PublicString (Public k)) challenge open (UTC (clock t)) in
  owner_authorizer secrets spec wall w' req = Ok (authorization_of req lease).
Proof.
  intros Ho open req. destruct How as [_ [_ Hdec] Hver _ _ _ (parts & Hparts & Hkey) (Hrv & e & He & Hle) _].
  unfold owner_authorizer, LazyAuthorizeOpen, owner_load. cbn [look at_owner]. rewrite Hid, Hparts, Ho. cbn [mbind res_bind].
  rewrite Hkey. cbn [need NewExactOpenAuthorizer fst]. apply AuthorizeOpen_spec. exists lease. split; [|done].
  constructor; cbn [or_AccessLease or_ClientPublic or_PipeID or_Challenge or_ChallengeProof or_Now ea_leasePublic req
    open_request open op_PipeID op_ChallengeProof op_AccessLease].
  - exact Hdec.
  - apply lease_verify_spec, Hver.
  - exists (Public k). split; [done|]. split; [apply Public_size|apply VerifyProof_SignProof].
  - exact Hrv.
  - exists e. split; [exact He|done].
Qed.

Context (lid : string) (Hlid : lid ≠ pipeID) (Hlen : slen lid ≤ 8192).
Context (Hses : ∀ n sid, randomSessionID (Ok (random 16 n)) = Ok sid →
           IsRevoked (n_relations (w_owner w)) (pipeScopeString spec) "session" sid = Ok false).

Definition the_hello : ClientHello := mkClientHello "2.0" (PublicString (Public k)) baseSessionCapabilities.
Definition the_open (challenge : string) : OpenPipe :=
  downstream_open pipeID (SignProof k OpenProofPurpose [challenge; pipeID]) text (mkTraversal [lid] 0 DefaultMaxPipeHops).
Definition session_id (n : nat) : string := "ses_" +:+ base32_encode (random 16 n).

Lemma hello_accepted : hello_checks the_hello = Ok tt.
Proof.
  unfold hello_checks, the_hello, boundedStrings. cbn [ch_Version ch_Capabilities ch_ClientPublic baseSessionCapabilities forallb].
  unfold PublicString. rewrite slen_base64, Public_size. reflexivity.
Qed.

Lemma open_accepted challenge : open_checks pipeID (the_open challenge) = Ok tt.
Proof.
  destruct (ow_pipe _ _ _ _ _ _ _ _ _ _ How) as [owner Hpid]. pose proof (slen_PipeID owner) as Hp. rewrite <- Hpid in Hp.
  destruct (ow_text _ _ _ _ _ _ _ _ _ _ How) as [Ht _]. apply encoded_safe in Ht as [_ Ht].
  unfold open_checks, the_open, downstream_open, boundedStrings.
  cbn [op_PipeID op_ChallengeProof op_AccessLease op_VisitedPipeIDs op_HopLimit VisitedIDs MaxHops forallb].
  assert (Hs : slen (SignProof k OpenProofPurpose [challenge; pipeID]) = 86).
  { unfold SignProof. by rewrite slen_base64, SignMsg_size. }
  rewrite Hs, Hp, (proj2 (Z.leb_le _ _) Hlen), (proj2 (Z.ltb_ge MaxLeaseBytes _)) by (unfold MaxLeaseBytes, MaxBytes in *; lia).
  cbn [mbind res_bind refuse negb orb andb]. rewrite seqb_refl. cbn [negb refuse mbind res_bind].
  cbn [visited_loop mem_str existsb]. rewrite (proj2 (seqb_false _ _) Hlid). reflexivity.
Qed.

Lemma serve_opens wall t n t' w' challenge d :
  w_owner w' = w_owner w →
  serve_open spec service (Some (owner_authorizer secrets spec wall w')) dial engine opener the_hello challenge
    (the_open challenge) (UTC (clock t)) (Ok (random 16 n)) t' (n_relations (w_owner w)) d
  = (Ok (authorizedOpenResult (session_id n)), recordSession t' spec (session_id n) 0 0 d).
Proof.
  intros Ho. unfold serve_open, serve. rewrite hello_accepted, Hid. cbn [mbind res_bind]. rewrite open_accepted.
  assert (Ha : authorizeOpenOnly (Some (owner_authorizer secrets spec wall w')) (PublicString (Public k)) challenge
                 (the_open challenge) (UTC (clock t))
               = Ok (authorization_of (open_request (PublicString (Public k)) challenge (the_open challenge) (UTC (clock t))) lease)).
  { unfold authorizeOpenOnly. cbn [need mbind res_bind].
    rewrite (authorizer_accepts wall t w' challenge [lid] DefaultMaxPipeHops Ho : owner_authorizer secrets spec wall w'
      (open_request (PublicString (Public k)) challenge (the_open challenge) (UTC (clock t))) = _).
    cbn [relabel mbind res_bind authorization_of au_PipeID au_Subject au_ExpiresAt open_request or_PipeID or_ClientPublic].
    cbn [the_open downstream_open op_PipeID]. rewrite !seqb_refl.
    pose proof (ow_after _ _ _ _ _ _ _ _ _ _ How t) as Haft.
    change (After (Lease.ExpiresAt lease) (UTC (clock t))) with (After (Lease.ExpiresAt lease) (clock t)). rewrite Haft.
    assert (Hz : IsZero (Lease.ExpiresAt lease) = false).
    { unfold IsZero, After in *. pose proof (ck_after clock Hck t). lia. }
    by rewrite Hz. }
  cbn [ch_ClientPublic the_hello]. rewrite Ha, (proj2 (seqb_false _ _) Hkind), Hdial. cbn [fst].
  unfold randomSessionID. cbn [mbind res_bind]. fold (session_id n). unfold sessionAllowed. rewrite (Hses n) by reflexivity.
  reflexivity.
Qed.

(** ** The opening side gets its session *)
Let tn : tunnel links := tunnel_to_owner secrets address spec service dial engine opener.

(** What the open leaves: the session at the owner, nothing else changed. *)
Definition opened_at v sid v' : Prop :=
  opened_session (n_objects (w_owner w)) (n_objects (w_owner (k_nodes v'))) sid (RefString (p_Ref spec)) ∧
  n_relations (w_owner (k_nodes v')) = n_relations (w_owner w) ∧ n_keys (w_owner (k_nodes v')) = n_keys (w_owner w) ∧
  w_peer (k_nodes v') = w_peer w ∧ k_runs v' = k_runs v.

Lemma open_gives v (Q : string → links → Prop) :
  as_before v → (k_reach v = None ∨ k_reach v = Some (reach_peer address)) →
  (∀ sid v', opened_at v sid v' → Q sid v') →
  gives (exactDownstreamOpen tn (Some (acquire_access address secrets' h)) secrets' pipeID
           (mkTraversal [lid] 0 DefaultMaxPipeHops)) v Q.
Proof.
  intros Hb Hr HQ. unfold exactDownstreamOpen. apply gives_bind. eapply gives_wired; [reflexivity|].
  apply gives_bind, current_gives; [done|done|done|]. intros v1 [Ho1 Hp1] Hk1. cbn [qa_Locator].
  apply gives_bind. eapply gives_run; [cbn [tn tunnel_to_owner tn_dial]; rewrite seqb_refl; reflexivity|].
  apply gives_bind. eapply gives_run; [reflexivity|]. cbn [tn tunnel_to_owner tn_close].
  enough (gives (handshake tn secrets' pipeID (mkAcquired pipeID address text (UTC (Lease.ExpiresAt lease))) lease
            (mkTraversal [lid] 0 DefaultMaxPipeHops)) (mkLinks (k_reach v1) (k_nodes v1) None (k_runs v1)) Q) as (a & v2 & Hh & Ha).
  { exists a, v2. unfold or_close. change (tunnel_to_owner secrets address spec service dial engine opener) with tn.
    by rewrite Hh. }
  unfold handshake. apply gives_bind. rewrite (ow_subject _ _ _ _ _ _ _ _ _ _ How). fold the_hello.
  cbn [tn tunnel_to_owner tn_hello tn_open tn_load]. unfold answer_hello.
  apply gives_bind, nodes_gives. eapply gives_run; [reflexivity|]. apply gives_bind.
  eapply gives_lift; [unfold server_hello; rewrite hello_accepted; reflexivity|].
  apply gives_bind. eapply gives_run; [reflexivity|]. apply gives_ret.
  cbn [sh_PipeID sh_Version sh_Challenge k_nodes k_runs k_reach k_stream]. rewrite Hid. set (challenge := base64_encode _).
  apply gives_bind, gives_guard; [by rewrite seqb_refl|]. apply gives_bind, gives_wrapped, nodes_gives.
  eapply gives_run.
  { unfold load_key. cbn [k_nodes look at_peer w_peer]. rewrite Hp1, (ow_key _ _ _ _ _ _ _ _ _ _ How). reflexivity. }
  cbv zeta. cbn [qa_AccessLease k_reach k_stream k_runs]. fold (the_open challenge). apply gives_bind. unfold answer_open.
  apply gives_bind. eapply gives_run; [reflexivity|]. cbn [k_stream]. apply gives_bind. eapply gives_wired; [reflexivity|].
  do 2 (apply gives_bind, nodes_gives; eapply gives_run; [reflexivity|]).
  apply gives_bind. eapply gives_attempt; [reflexivity|]. apply gives_bind, nodes_gives. eapply gives_run; [reflexivity|].
  apply nodes_gives. eapply gives_run.
  { cbv zeta. cbn [k_nodes k_reach k_stream k_runs w_owner w_peer w_reads]. rewrite Ho1, serve_opens by done. reflexivity. }
  apply gives_bind, gives_guard; [done|]. apply gives_ret, HQ. unfold opened_at.
  cbn [k_nodes k_runs w_owner w_peer n_objects n_relations n_keys or_SessionID authorizedOpenResult].
  split_and!; [apply put_opened|done|done|done|exact Hk1].
Qed.

Lemma connection_gives identity lspec v (Q : string → links → Prop) :
  p_PipeID lspec = lid → Name (p_Target lspec) = pipeID →
  as_before v → (k_reach v = None ∨ k_reach v = Some (reach_peer address)) →
  (∀ sid v' now,
     opened_session (n_objects (w_owner w)) (n_objects (w_owner (k_nodes v'))) sid (RefString (p_Ref spec)) →
     opened_session (n_objects (w_peer w)) (n_objects (w_peer (k_nodes v'))) sid (RefString (p_Ref lspec)) →
     n_relations (w_owner (k_nodes v')) = n_relations (w_owner w) →
     k_runs v' = (setRunStatus identity now (RefString (p_Ref lspec)) "ready" (k_runs v)).2 → Q sid v') →
  gives (peer_connection secrets address spec service dial engine opener secrets' h identity lspec) v Q.
Proof.
  intros Hl Hn Hb Hr HQ. unfold peer_connection, local_connection. rewrite Hl, Hn. fold tn.
  destruct (open_gives v (opened_at v) Hb Hr (λ _ _ Ho, Ho)) as (sid & v1 & Hopen & Hs & Hrel & _ & Hp & Hk).
  apply gives_bind. eapply gives_attempt; [exact Hopen|]. cbv beta iota.
  apply gives_bind. cbn [tn tunnel_to_owner tn_now]. apply nodes_gives. eapply gives_run; [reflexivity|].
  apply gives_bind. eapply gives_attempt; [unfold on_nodes, writes; cbn [k_nodes look at_peer w_peer put PutSession]; reflexivity|].
  apply gives_bind. eapply gives_attempt; [reflexivity|]. apply gives_ret.
  eapply HQ; cbn [k_nodes k_runs w_owner w_peer n_objects]; [exact Hs| |exact Hrel|by rewrite Hk].
  rewrite Hp. apply put_opened.
Qed.
End opened.

(** ** From an invite to an open session *)

(** What the owner's side brings: its Pipe leads to a service that answers, and neither the
    lease to come nor the session is revoked. *)
Record serving (r : ShareExactResult) (spec : PipeSpec) (service : ServiceSpec) (dial : ServiceSpec → res Conn)
    (d : relations) : Prop := {
  sv_id : p_PipeID spec = sr_PipeID r;
  sv_target : Kind (p_Target spec) ≠ KindPipe;
  sv_dial : ∃ conn, dial service = Ok conn;
  sv_lease : ∀ n jti, NewJTI (Ok (random 16 n)) = Ok jti → IsRevoked d (sr_PipeID r) "access-lease" jti = Ok false;
  sv_session : ∀ n sid, randomSessionID (Ok (random 16 n)) = Ok sid → IsRevoked d (pipeScopeString spec) "session" sid = Ok false }.

Lemma access_at_same address w w1 pipeID k_auth i epoch secrets' k lease w3 w4 :
  access_at clock random address w w1 pipeID k_auth i epoch secrets' k lease w3 →
  w_owner w4 = w_owner w3 → w_peer w4 = w_peer w3 →
  access_at clock random address w w1 pipeID k_auth i epoch secrets' k lease w4.
Proof. intros [Hl Hb Hc Hh Ht Hf Ho Hk] Eo Ep. constructor; rewrite ?Eo, ?Ep; done. Qed.

Lemma access_opens secrets secrets' address protocol w w1 pipeID enc k_auth b i epoch m n name lref life k lease w3 :
  steady_clock clock → (∀ size n, slen (random size n) = Z.of_nat size) →
  shared_by clock random secrets address protocol w w1 pipeID enc k_auth b i epoch m n →
  sharing random address protocol life pipeID (n_relations (w_owner w)) → 0 ≤ epoch < 2 ^ 63 →
  recipientRefFor pipeID name = Ok lref → lref ≠ mkRef KindPipe pipeID →
  (∀ n jti, NewJTI (Ok (random 16 n)) = Ok jti → IsRevoked (n_relations (w_owner w)) pipeID "access-lease" jti = Ok false) →
  access_at clock random address w w1 pipeID k_auth i epoch secrets' k lease w3 →
  ∃ text, opens_with secrets secrets' address pipeID (newHandler secrets pipeID life) k k_auth lease text w3.
Proof.
  intros Hck Hrnd Hby [Ha Hp Hlife He Hf] Hep Hr Hne Hrv Hacc.
  pose proof Hacc as [[Hver Hsub] _ _ _ (text & Ht & Hd) (Hle & (nj & Hj) & Haft) [Hko Hrel] Hk]. exists text.
  destruct (sb_owner _ _ _ _ _ _ _ _ _ _ _ _ _ _ _ Hby) as (k_owner & Hpid & _).
  constructor; [|by split|exact Hver|exact Hsub|exact Haft|exact Hk| | |by eexists].
  - intros w' Eo Ep. eapply (acquire_gives clock random generate Hck Hrnd secrets address protocol w w1 pipeID enc k_auth b i epoch m n
      Hby Ha Hp Hep secrets' life Hf name lref Hr Hne k lease w'). by eapply access_at_same.
  - eexists. split; [rewrite Hpid; apply KeyPath_total; by eapply sb_secrets|].
    rewrite Hko, <- Hpid. by eapply sb_key.
  - unfold IsRevoked, RevocationEpoch, select_epoch in *. rewrite Hrel. split; [by eapply Hrv|].
    pose proof (sb_epoch _ _ _ _ _ _ _ _ _ _ _ _ _ _ _ Hby) as Hs. unfold RevocationEpoch, select_epoch in Hs. exists epoch.
    split; [exact Hs|lia].
Qed.

(** C1: a shared Pipe can be used. Whenever [ShareExact] returns an invite that the owner's
    handler can read, a node with room for the connection that passes this invite to
    [ConnectExact] gets a local Pipe of its own identity that listens where it was asked to
    and targets the shared Pipe, and the owner's store names its key as the holder. A local
    connection to this Pipe then opens the shared Pipe: access is acquired, the tunnel
    handshake and the authorization at the owner succeed, both nodes store the row of one
    session, and the status of the run of the local Pipe is ready. *)
Theorem share_then_open secrets secrets' address protocol life ref w r w1 listen name lref spec service
    (dial : ServiceSpec → res Conn) (engine : Engine Conn) (opener : option (DownstreamOpener Carrier)) identity runs :
  steady_clock clock → (∀ size n, slen (random size n) = Z.of_nat size) →
  ShareExact (owner_ports clock random generate secrets address protocol) ref w = (Ok r, w1) → slen (sr_Invite r) ≤ 8192 →
  sharing random address protocol life (sr_PipeID r) (n_relations (w_owner w)) →
  connecting generate secrets' listen name (sr_PipeID r) lref (w_peer w) →
  serving r spec service dial (n_relations (w_owner w)) →
  (∀ k, k = default (generate (connect_key_file secrets' (sr_PipeID r)))
              (n_keys (w_peer w) !! connect_key_file secrets' (sr_PipeID r)) → PipeIDFromOwner (Public k) ≠ sr_PipeID r) →
  let h := newHandler secrets (sr_PipeID r) life in
  ∃ k w3 lspec sid v,
    ConnectExact (peer_ports clock random generate secrets' address h) (mkConnect (sr_Invite r) "" listen name) w1
      = (Ok (mkConnected lref (PipeIDFromOwner (Public k)) (sr_PipeID r) listen), w3) ∧
    (∃ jti, holder (n_relations (w_owner w3)) jti (sr_PipeID r) = Some (PublicString (Public k))) ∧
    Pipe (n_objects (w_peer w3)) (RefString lref) = Ok (lspec, connect_key_file secrets' (sr_PipeID r), "") ∧
    in_Listen (p_Ingress lspec) = listen ∧
    peer_connection secrets address spec service dial engine opener secrets' h identity lspec (mkLinks None w3 None runs)
      = (Ok sid, v) ∧
    opened_session (n_objects (w_owner w3)) (n_objects (w_owner (k_nodes v))) sid (RefString (p_Ref spec)) ∧
    opened_session (n_objects (w_peer w3)) (n_objects (w_peer (k_nodes v))) sid (RefString lref) ∧
    (∀ row, runs !! RefString lref = Some row → live_run row →
       ∃ row', k_runs v !! RefString lref = Some row' ∧ rn_status row' = "ready").
Proof.
  intros Hck Hrnd Hsh Hsz Hshare [Hl Hs [Hr Hne] Hfree Hid] [Hpid Htg [conn Hdial] Hrv Hses] Hself h.
  destruct (share_run _ _ _ _ _ _ _ _ _ _ Hsh) as (k_auth & b & i & epoch & m & n & Hby).
  pose proof Hshare as [Ha Hp Hlife He Hf].
  pose proof (He _ (sb_epoch _ _ _ _ _ _ _ _ _ _ _ _ _ _ _ Hby)) as Hep.
  assert (Hpe : w_peer w1 = w_peer w) by apply (sb_peer _ _ _ _ _ _ _ _ _ _ _ _ _ _ _ Hby).
  destruct (connect_gives clock random generate Hck Hrnd secrets address protocol w w1 (sr_PipeID r) (sr_Invite r) k_auth b i
    epoch m n Hby Ha Hp Hep secrets' life Hlife Hsz Hf listen name lref Hl Hs Hr Hne w1)
    as (c & w3 & Hc & k & lease & t & Hk & Hacc & -> & Hpipe).
  - done.
  - split; [by rewrite Hpe|]. rewrite Hpe. apply Hid. unfold peer_key. by rewrite Hpe.
  - destruct (access_opens _ _ _ _ _ _ _ _ _ _ _ _ _ _ _ _ _ _ _ _ Hck Hrnd Hby Hshare Hep Hr Hne Hrv Hacc) as [text How].
    assert (Hk' : PipeIDFromOwner (Public k) ≠ sr_PipeID r) by (apply Hself; rewrite Hk; unfold peer_key; by rewrite Hpe).
    pose proof (proj2 (aw_owner _ _ _ _ _ _ _ _ _ _ _ _ _ Hacc)) as Hrel.
    destruct (connection_gives Hck secrets secrets' address (sr_PipeID r) h k k_auth lease text w3 How spec service dial
      conn engine opener Hpid Htg Hdial (PipeIDFromOwner (Public k)) Hk') with (identity := identity)
      (lspec := local_pipe (sr_PipeID r) listen lref k (UTC (clock t))) (v := mkLinks None w3 None runs)
      (Q := λ sid v, opened_session (n_objects (w_owner w3)) (n_objects (w_owner (k_nodes v))) sid (RefString (p_Ref spec)) ∧
        opened_session (n_objects (w_peer w3)) (n_objects (w_peer (k_nodes v))) sid (RefString lref) ∧
        ∀ row, runs !! RefString lref = Some row → live_run row →
          ∃ row', k_runs v !! RefString lref = Some row' ∧ rn_status row' = "ready") as (sid & v & Hrun & Hso & Hsp & Hst).
    + rewrite slen_PipeID. lia.
    + unfold IsRevoked in *. rewrite Hrel. exact Hses.
    + done.
    + done.
    + done.
    + by left.
    + intros sid v' now Ho1 Hp1 _ Hk1. split; [exact Ho1|]. split; [exact Hp1|]. intros row Hrow Hlive. rewrite Hk1.
      by eapply status_set.
    + eexists k, w3, _, sid, v. split_and!; [exact Hc| |exact Hpipe|done|exact Hrun|exact Hso|exact Hsp|exact Hst].
      exists (Invite.JTI i). by destruct Hacc.
Qed.
End tunnelling.

(** ** Samples *)
Import SampleKeys.
#[local] Existing Instance sample_parsers.
#[local] Abbreviation shop_share :=
  (ShareExact (H := keys) (owner_ports (H := keys) day_clock letters make_key owner_dir "peer-a" "/tubo/redeem/1")
     "pipe/shop" shop_world).
Definition shop_dial (_ : ServiceSpec) : res unit := Ok tt.
Definition shop_engine : Engine unit :=
  mkEngine (λ _, Ok sample_service) (λ _, Fail (errorf "no such pipe")) shop_dial.
Definition shop_opener : option (DownstreamOpener unit) := None.
Definition shop_run : run_row :=
  mkRunRow "pipe" 1 "boot:1" "foreground" "degraded" "" "" (RFC3339Nano (UTC noon)) (RFC3339Nano (UTC noon)).
Definition shop_runs : runs_table := {[ "pipe/shop-copy" := shop_run ]}.
#[local] Abbreviation shop_connection w :=
  (peer_connection (H := keys) day_clock letters make_key owner_dir "peer-a" shop_pipe sample_service shop_dial shop_engine
     shop_opener client_dir (newHandler owner_dir (sr_PipeID shop_shared) (5 * Minute)) (λ _, Fail (errorf "no process")) w).

Lemma nothing_revoked scope kind jti : IsRevoked no_relations scope kind jti = Ok false.
Proof.
  unfold IsRevoked. cbn [revocations no_relations]. rewrite lookup_empty. by rewrite bool_decide_eq_false_2 by (by intros [? ?]).
Qed.

Lemma shop_serving : serving letters shop_shared shop_pipe sample_service shop_dial no_relations.
Proof.
  constructor; [by vm_compute|discriminate|by exists tt| |]; intros; apply nothing_revoked.
Qed.

Lemma share_then_open_witness :
  ∃ lspec w3 sid v,
    shop_connection lspec (mkLinks None w3 None shop_runs) = (Ok sid, v) ∧
    opened_session (n_objects (w_owner w3)) (n_objects (w_owner (k_nodes v))) sid "pipe/shop" ∧
    ∃ row, k_runs v !! "pipe/shop-copy" = Some row ∧ rn_status row = "ready".
Proof.
  assert (Hs : slen (sr_Invite shop_shared) ≤ 8192) by (vm_compute; discriminate).
  assert (Hk : PipeIDFromOwner (@Public keys "recipient") ≠ pipe) by (vm_compute; discriminate).
  assert (Hself : ∀ k, k = default (make_key (connect_key_file client_dir pipe))
                             (n_keys (w_peer shop_world) !! connect_key_file client_dir pipe) →
                       PipeIDFromOwner (@Public keys k) ≠ pipe).
  { intros k Ek. cbn [w_peer shop_world n_keys] in Ek. rewrite lookup_singleton_eq in Ek. cbn [default from_option] in Ek. by rewrite Ek. }
  destruct (share_then_open (H := keys) day_clock letters make_key owner_dir client_dir "peer-a" "/tubo/redeem/1"
    (5 * Minute) "pipe/shop" shop_world shop_shared shop_share.2 "127.0.0.1:8080" "shop-copy" (mkRef KindPipe "shop-copy")
    shop_pipe sample_service shop_dial shop_engine shop_opener (λ _, Fail (errorf "no process")) shop_runs
    day_clock_steady letters_size shop_share_ok Hs shop_sharing shop_connecting shop_serving Hself)
    as (k & w3 & lspec & sid & v & _ & _ & _ & _ & Hrun & Ho & _ & Hst).
  exists lspec, w3, sid, v. split; [exact Hrun|]. split; [exact Ho|].
  apply (Hst shop_run); [vm_compute; reflexivity|]. split; [vm_compute; reflexivity|left; discriminate].
Defined.
