(* ===== verification/CommandLine.v ===== *)
(** * The command line

    [internal/cli]: the declarative tree of commands ([spec.go]), the parser of the arguments
    of one command ([parse.go]), the global flags ([operations.go]), and [App.Run] and
    [dispatch] of [app.go] up to the call of a handler. The longer help texts of the
    commands are left out. *)
From S2P Require Import Prelude GoStrings.
Open Scope Z_scope.

(** ** The tree of commands *)
Record flagSpec := mkFlag {
  fl_name : string; fl_short : string; fl_value : bool; fl_required : bool; fl_obsolete : string; fl_help : string }.
Record commandSpec := mkCommand {
  c_path : list string; c_summary : string; c_usage : string; c_args : list string; c_minArgs : Z; c_maxArgs : Z;
  c_flags : list flagSpec; c_hidden : bool }.

Definition longFlag (s : commandSpec) (name : string) : option flagSpec :=
  List.find (λ f, fl_name f =s name) (c_flags s).
Definition shortFlag (s : commandSpec) (ch : string) : option flagSpec :=
  List.find (λ f, (fl_short f <>s "") && (fl_short f =s ch)) (c_flags s).

Definition joinPath (path : list string) : string := Join path " ".
Definition spec_id (s : commandSpec) : string := joinPath (c_path s).

Definition json_flag : flagSpec := mkFlag "json" "" false false "" "emit one JSON object on stdout".

Definition group_commands : list commandSpec :=
  [ mkCommand ["get"] "list resources" "" [] 0 0 [] false;
    mkCommand ["watch"] "watch resource events" "" [] 0 0 [] false;
    mkCommand ["peers"] "manage peer aliases" "" [] 0 0 [] false;
    mkCommand ["config"] "validate or print configuration" "" [] 0 0 [] false;
    mkCommand ["supervise"] "install, inspect, or remove launchd supervision" "" [] 0 0 [] false;
    mkCommand ["scope"] "create, invite, join, or use Scopes" "" [] 0 0 [] false;
    mkCommand ["authority"] "scope authority administration" "" [] 0 0 [] false;
    mkCommand ["service"] "define local Services" "" [] 0 0 [] false;
    mkCommand ["pipe"] "define Pipes" "" [] 0 0 [] false;
    mkCommand ["join"] "configure overlay reachability" "" [] 0 0 [] false;
    mkCommand ["keygen"] "generate keys" "" [] 0 0 [] false].

Definition workflow_commands : list commandSpec :=
  [ mkCommand ["attach"] "create or reuse a Service and its Pipe, then run it"
      "tubo attach <target> --name <name> [-d] [--json]"
      ["<target>"] 1 1
      [mkFlag "name" "" true true "" "friendly name for the Service and Pipe";
       mkFlag "detach" "d" false false "" "run the Pipe detached; print readiness";
       json_flag] false;
    mkCommand ["accept"] "accept an exact invite and persist the durable access relationship"
      "tubo accept --token <invite> [--json]"
      [] 0 0
      [mkFlag "token" "" true true "" "exact invite produced by tubo share";
       json_flag] false;
    mkCommand ["connect"] "redeem an exact invite (or reuse an accepted binding) and run a local Pipe"
      "tubo connect (--token <invite>|--remote <pipe-id>) --local <host:port> [--name <name>] [-d] [--json]"
      [] 0 0
      [mkFlag "token" "" true false "" "exact invite produced by tubo share (one-time bootstrap)";
       mkFlag "remote" "" true false "" "already-accepted remote Pipe ID; renews through the durable binding, no invite needed";
       mkFlag "local" "" true true "" "local listen address (host:port)";
       mkFlag "name" "" true false "" "friendly name for the local Pipe (default: deterministic name from the remote Pipe ID)";
       mkFlag "detach" "d" false false "" "run the Pipe detached; print readiness";
       json_flag] false;
    mkCommand ["share"] "mint a one-time invite for an owned Pipe"
      "tubo share <pipe-ref> [--json]"
      ["<pipe-ref>"] 1 1
      [json_flag] false].

Definition definition_commands : list commandSpec :=
  [ mkCommand ["service"; "create"] "define a local Service"
      "tubo service create <name> --target <url> [--json]"
      ["<name>"] 1 1
      [mkFlag "target" "" true true "" "http://…, tcp://host:port, or unix path";
       json_flag] false;
    mkCommand ["pipe"; "create"] "define a Pipe"
      "tubo pipe create <name> --ingress <tubo|local://host:port> --target <ref> [--scope cluster/namespace] [--visibility <policy>] [--access <policy>] [--json]"
      ["<name>"] 1 1
      [mkFlag "ingress" "" true true "" "tubo (network ingress) or local://host:port";
       mkFlag "target" "" true true "" "service/<name> or pipe/<ref>";
       mkFlag "scope" "" true false "" "scope for a tubo ingress (required for tubo)";
       mkFlag "visibility" "" true false "" "visibility policy for a tubo ingress";
       mkFlag "access" "" true false "" "access policy for a tubo ingress";
       json_flag] false].

Definition runtime_commands : list commandSpec :=
  [ mkCommand ["start"] "start a Pipe runtime"
      "tubo start <pipe-ref> [-d] [--json]"
      ["<pipe-ref>"] 1 1
      [mkFlag "detach" "d" false false "" "run detached; print readiness";
       json_flag] false;
    mkCommand ["stop"] "stop a running Pipe or infrastructure runtime"
      "tubo stop <ref> [--json]"
      ["<ref>"] 1 1
      [json_flag] false;
    mkCommand ["restart"] "restart a Pipe runtime"
      "tubo restart <pipe-ref> [--json]"
      ["<pipe-ref>"] 1 1
      [json_flag] false;
    mkCommand ["rm"] "remove a resource or stale runs"
      "tubo rm <ref> [--force] [--json] | tubo rm --stale [--json]"
      ["<service/name|pipe/name>"] 0 1
      [mkFlag "force" "" false false "" "stop and remove a running Pipe";
       mkFlag "stale" "" false false "" "remove stale runtime records instead of a resource";
       json_flag] false;
    mkCommand ["logs"] "show runtime logs"
      "tubo logs <ref> [--tail N] [-f] [--json]"
      ["<ref>"] 1 1
      [mkFlag "tail" "" true false "" "number of trailing lines (default 200)";
       mkFlag "follow" "f" false false "" "follow the log";
       json_flag] false;
    mkCommand ["inspect"] "inspect one resource in detail"
      "tubo inspect <resource> [--json]"
      ["<resource>"] 1 1
      [mkFlag "json" "" false false "" "emit full structured JSON on stdout"] false].

Definition view_commands : list commandSpec :=
  [ mkCommand ["get"; "pipes"] "list Pipes (local definitions and verified network records)"
      "tubo get pipes [--scope cluster/namespace] [--refresh|--cached-only] [--wide] [--json]"
      [] 0 0
      [mkFlag "scope" "" true false "" "filter to one scope";
       mkFlag "refresh" "" false false "" "force refreshing discovery caches";
       mkFlag "cached-only" "" false false "" "never refresh or open discovery sockets";
       mkFlag "wide" "" false false "" "show the full-width table";
       json_flag;
       mkFlag "live" "" false false "use --refresh" ""] false;
    mkCommand ["get"; "services"] "list local Services"
      "tubo get services [--json]"
      [] 0 0
      [json_flag] false;
    mkCommand ["get"; "scopes"] "list Scopes and memberships"
      "tubo get scopes [--json]"
      [] 0 0
      [json_flag] false;
    mkCommand ["get"; "peers"] "list peers (observed and aliased)"
      "tubo get peers [--json]"
      [] 0 0
      [json_flag] false;
    mkCommand ["get"; "overlays"] "show overlay configuration"
      "tubo get overlays [--json]"
      [] 0 0
      [json_flag] false;
    mkCommand ["watch"; "pipes"] "watch verified Pipe projection events"
      "tubo watch pipes [--scope cluster/namespace] [--interval 2s] [--json]"
      [] 0 0
      [mkFlag "scope" "" true false "" "watch one scope only";
       mkFlag "interval" "" true false "" "poll interval (at least 500ms)";
       mkFlag "json" "" false false "" "emit NDJSON events"] false;
    mkCommand ["ps"] "show a compact runtime overview"
      "tubo ps [--json]"
      [] 0 0
      [json_flag] false;
    mkCommand ["top"] "show live runtime and network metrics"
      "tubo top [--interval 1s] [--once] [--json]"
      [] 0 0
      [mkFlag "interval" "" true false "" "refresh interval (at least 100ms)";
       mkFlag "once" "" false false "" "refresh once and exit";
       json_flag] false].

Definition host_commands : list commandSpec :=
  [ mkCommand ["peers"; "alias"] "label a peer with a friendly name"
      "tubo peers alias <peer-id> --name <label> [--note <text>] [--json]"
      ["<peer-id>"] 1 1
      [mkFlag "name" "" true true "" "label";
       mkFlag "note" "" true false "" "optional note";
       json_flag] false;
    mkCommand ["config"; "validate"] "validate overlay configuration"
      "tubo config validate [--json]"
      [] 0 0
      [json_flag] false;
    mkCommand ["config"; "print"] "print masked overlay configuration"
      "tubo config print [--json]"
      [] 0 0
      [json_flag] false;
    mkCommand ["doctor"] "run local health checks"
      "tubo doctor [--json]"
      [] 0 0
      [json_flag] false;
    mkCommand ["supervise"; "install"] "install launchd supervision for a resource"
      "tubo supervise install <pipe/name|authority/cluster> [--scope cluster/namespace] [--json]"
      ["<pipe/name|authority/cluster>"] 1 1
      [mkFlag "scope" "" true false "" "scope for authority supervision";
       json_flag] false;
    mkCommand ["supervise"; "status"] "show supervision status"
      "tubo supervise status <ref> [--json]"
      ["<ref>"] 1 1
      [json_flag] false;
    mkCommand ["supervise"; "uninstall"] "remove launchd supervision"
      "tubo supervise uninstall <ref> [--json]"
      ["<ref>"] 1 1
      [json_flag] false].

Definition scope_commands : list commandSpec :=
  [ mkCommand ["scope"; "create"] "create a Scope"
      "tubo scope create <cluster/namespace> [--json]"
      ["<cluster/namespace>"] 1 1
      [json_flag] false;
    mkCommand ["scope"; "invite"] "mint a membership invite"
      "tubo scope invite <cluster/namespace> --role <member|viewer|publisher|forwarder> [--expires <duration>] [--json]"
      ["<cluster/namespace>"] 1 1
      [mkFlag "role" "" true true "" "member, viewer, publisher, or forwarder";
       mkFlag "expires" "" true false "" "invite lifetime (default 24h)";
       json_flag] false;
    mkCommand ["scope"; "join"] "redeem a membership invite"
      "tubo scope join --token <invite> [--json]"
      [] 0 0
      [mkFlag "token" "" true true "" "membership invite";
       json_flag] false;
    mkCommand ["scope"; "use"] "set the current Scope"
      "tubo scope use <cluster/namespace> [--json]"
      ["<cluster/namespace>"] 1 1
      [json_flag] false;
    mkCommand ["authority"; "start"] "start a Scope authority"
      "tubo authority start <cluster> --scope <cluster/namespace> [--json]"
      ["<cluster>"] 1 1
      [mkFlag "scope" "" true true "" "authority scope";
       mkFlag "detach" "d" false false "" "unused; use tubo supervise install authority/<cluster>";
       json_flag] false].

Definition infrastructure_commands : list commandSpec :=
  [ mkCommand ["relay"] "run a relay in the foreground"
      "tubo relay --listen <multiaddr> --public-addr <addr> [--swarm-key <file>] [--json]"
      [] 0 0
      [mkFlag "listen" "" true true "" "listen multiaddr";
       mkFlag "public-addr" "" true true "" "publicly reachable address";
       mkFlag "swarm-key" "" true false "" "optional swarm key file";
       json_flag] false;
    mkCommand ["join"; "overlay"] "configure overlay reachability"
      "tubo join overlay --relay <multiaddr> --swarm-key <file> [--force-reachability private|public] [--json]"
      [] 0 0
      [mkFlag "relay" "" true true "" "relay multiaddr";
       mkFlag "swarm-key" "" true true "" "swarm key file";
       mkFlag "force-reachability" "" true false "" "private or public (default private)";
       json_flag] false;
    mkCommand ["revoke"] "revoke an invite, session, access, or publish grant"
      "tubo revoke <invite|session|pipe-access|pipe-publish> <id> [--json]"
      ["<type>"; "<id>"] 2 2
      [json_flag] false;
    mkCommand ["keygen"; "swarm"] "generate a swarm key file"
      "tubo keygen swarm --out <file> [--json]"
      [] 0 0
      [mkFlag "out" "" true true "" "output file path";
       json_flag] false;
    mkCommand ["version"] "print version information"
      "tubo version [--json]"
      [] 0 0
      [json_flag] false;
    mkCommand ["_run-pipe"] "internal Pipe runner (do not call directly)"
      "tubo _run-pipe <pipe-ref>"
      ["<pipe-ref>"] 1 1
      [] true].

Definition commands : list commandSpec :=
  group_commands ++ workflow_commands ++ definition_commands ++ runtime_commands ++ view_commands ++ host_commands
  ++ scope_commands ++ infrastructure_commands.

Section tree.
Context (commands : list commandSpec).

Definition specFor (path : string) : option commandSpec := List.find (λ s, spec_id s =s path) commands.

(** [buildGroups] hangs a command with a longer path below the one its path extends. *)
Definition parentID (s : commandSpec) : string :=
  if 1 <? llen (c_path s) then joinPath (take (pred (length (c_path s))) (c_path s)) else "".
Definition children (s : commandSpec) : list commandSpec := List.filter (λ c, parentID c =s spec_id s) commands.
Definition isGroup (s : commandSpec) : bool := 0 <? llen (children s).

(** ** Resolving a command *)
Definition unknown_command (base : string) : error :=
  errorf ("invalid_input: unknown command " +:+ base +:+ "; run `tubo help`").

(** The longest declared path that starts with [base]. *)
Definition longest_from (base : string) : option commandSpec :=
  foldl (λ matched s,
    if (hd "" (c_path s) =s base) &&
       match matched with None => true | Some m => llen (c_path m) <? llen (c_path s) end
    then Some s else matched) None commands.

(** The next command on the path of [matched], when [arg] extends it. *)
Definition next_command (base : string) (matched : commandSpec) (arg : string) : option commandSpec :=
  foldl (λ next s,
    if (hd "" (c_path s) =s base) && (llen (c_path matched) <? llen (c_path s)) &&
       match nth_error (c_path s) (length (c_path matched)) with Some w => w =s arg | None => false end &&
       match next with None => true | Some n => llen (c_path n) <? llen (c_path s) end
    then Some s else next) None commands.

Definition is_help (arg : string) : bool := (arg =s "-h") || (arg =s "--help").
Definition hasHelpFlag (args : list string) : bool := existsb is_help args.

Fixpoint walk (base : string) (matched : commandSpec) (args : list string) : res (commandSpec * list string) :=
  match args with
  | [] => Ok (matched, [])
  | arg :: rest =>
      if HasPrefix arg "-" then
        if is_help arg then Ok (matched, args)
        else if isGroup matched then
          Fail (errorf ("invalid_input: " +:+ spec_id matched +:+ ": flag " +:+ arg +:+ " before subcommand"))
        else Ok (matched, args)
      else
        match next_command base matched arg with
        | None => Ok (matched, args)
        | Some next => walk base next rest
        end
  end.

Definition resolveCommand (args : list string) : res (commandSpec * list string) :=
  match args with
  | [] => Fail (errorf "missing command; run `tubo help`")
  | base :: rest =>
      if HasPrefix base "-" then Fail (unknown_command base)
      else
        matched ← need (match specFor base with Some s => Some s | None => longest_from base end) (unknown_command base);
        walk base matched rest
  end.
End tree.

(** ** Parsing the arguments of a command *)
Record flags := mkFlags { f_values : gmap string string; f_bools : gmap string bool; f_args : list string }.
Definition no_flags : flags := mkFlags ∅ ∅ [].
Definition set_value (name v : string) (f : flags) : flags := mkFlags (<[name := v]> (f_values f)) (f_bools f) (f_args f).
Definition set_bool (name : string) (b : bool) (f : flags) : flags := mkFlags (f_values f) (<[name := b]> (f_bools f)) (f_args f).
Definition add_arg (a : string) (f : flags) : flags := mkFlags (f_values f) (f_bools f) (f_args f ++ [a]).

Definition required (f : flags) (name : string) : res string :=
  let value := default "" (f_values f !! name) in
  if value =s "" then Fail (errorf ("--" +:+ name +:+ " is required")) else Ok value.

Definition usage_error (s : commandSpec) (text : string) : error := errorf ("invalid_input: " +:+ spec_id s +:+ ": " +:+ text).
Definition unknownFlagError (s : commandSpec) (token : string) : error := usage_error s ("unknown flag " +:+ token).
Definition obsoleteFlagError (token hint : string) : error := errorf ("invalid_input: " +:+ token +:+ " is obsolete; " +:+ hint).
Definition duplicateFlagError (s : commandSpec) (token : string) : error := usage_error s ("duplicate flag " +:+ token).

(** What a flag token asks for: a value, inline or in the next token, or a boolean. *)
Inductive flag_use :=
  | UseValue (name token : string) (inline : option string)
  | UseBool (name token : string) (b : bool).

Definition tail_of (n : nat) (s : string) : string := of_bytes (drop n (bytes_of s)).

Definition long_use (s : commandSpec) (arg : string) : res flag_use :=
  let body := tail_of 2 arg in
  _ ← refuse (body =s "") (unknownFlagError s arg);
  let '(name, inline) := match Cut body "="%char with Some (n, v) => (n, Some v) | None => (body, None) end in
  _ ← refuse (name =s "") (unknownFlagError s arg);
  fs ← need (longFlag s name) (unknownFlagError s ("--" +:+ name));
  _ ← refuse (fl_obsolete fs <>s "") (obsoleteFlagError ("--" +:+ name) (fl_obsolete fs));
  if fl_value fs then Ok (UseValue (fl_name fs) ("--" +:+ name) inline)
  else
    match inline with
    | None => Ok (UseBool (fl_name fs) ("--" +:+ name) true)
    | Some v =>
        if v =s "true" then Ok (UseBool (fl_name fs) ("--" +:+ name) true)
        else if v =s "false" then Ok (UseBool (fl_name fs) ("--" +:+ name) false)
        else Fail (usage_error s ("--" +:+ fl_name fs +:+ " expects true or false"))
    end.

Definition short_use (s : commandSpec) (arg : string) : res flag_use :=
  let body := tail_of 1 arg in
  _ ← refuse (negb (slen body =? 1)) (unknownFlagError s arg);
  fs ← need (shortFlag s body) (unknownFlagError s arg);
  _ ← refuse (fl_obsolete fs <>s "") (obsoleteFlagError ("-" +:+ body) (fl_obsolete fs));
  _ ← refuse (fl_value fs) (usage_error s ("short flag -" +:+ body +:+ " does not take a value"));
  Ok (UseBool (fl_name fs) ("-" +:+ body) true).

Definition positional (arg : string) : bool := negb (HasPrefix arg "-") || (arg =s "-").

(** The loop over the tokens; [seen] are the boolean flags so far. *)
Fixpoint parse_loop (s : commandSpec) (f : flags) (seen args : list string) : res flags :=
  match args with
  | [] => Ok f
  | arg :: rest =>
      if positional arg then parse_loop s (add_arg arg f) seen rest
      else
        use ← (if HasPrefix arg "--" then long_use s arg else short_use s arg);
        match use with
        | UseValue name token (Some v) =>
            if bool_decide (is_Some (f_values f !! name)) then Fail (duplicateFlagError s token)
            else parse_loop s (set_value name v f) seen rest
        | UseValue name token None =>
            match rest with
            | v :: rest =>
                if HasPrefix v "-" then Fail (usage_error s ("--" +:+ name +:+ " requires a value"))
                else if bool_decide (is_Some (f_values f !! name)) then Fail (duplicateFlagError s token)
                else parse_loop s (set_value name v f) seen rest
            | [] => Fail (usage_error s ("--" +:+ name +:+ " requires a value"))
            end
        | UseBool name token b =>
            if mem_str name seen then Fail (duplicateFlagError s token)
            else parse_loop s (set_bool name b f) (name :: seen) rest
        end
  end.

Fixpoint enforceRequired (s : commandSpec) (fs : list flagSpec) (f : flags) : res unit :=
  match fs with
  | [] => Ok tt
  | x :: fs =>
      if fl_required x && (default "" (f_values f !! fl_name x) =s "")
      then Fail (usage_error s ("--" +:+ fl_name x +:+ " is required"))
      else enforceRequired s fs f
  end.

Definition positionalError (s : commandSpec) (got : list string) : error :=
  if llen got <? c_minArgs s then
    usage_error s ("missing " +:+ if negb (c_maxArgs s =? 0) && (0 <? llen (c_args s))
                                  then Join (drop (length got) (c_args s)) " " else "argument")
  else usage_error s ("unexpected argument " +:+ nth (Z.to_nat (c_maxArgs s)) got "").

Definition parseCommandGroup (s : commandSpec) (args : list string) : res flags :=
  match args with
  | [] => Fail (errorf ("invalid_input: " +:+ spec_id s +:+ " requires a subcommand"))
  | arg :: _ =>
      if HasPrefix arg "-" then Fail (usage_error s ("flag " +:+ arg +:+ " before subcommand"))
      else Fail (usage_error s ("unknown subcommand " +:+ arg))
  end.

Definition parseCommand (commands : list commandSpec) (s : commandSpec) (args : list string) : res flags :=
  if isGroup commands s then parseCommandGroup s args
  else
    f ← parse_loop s no_flags [] args;
    _ ← enforceRequired s (c_flags s) f;
    _ ← refuse ((llen (f_args f) <? c_minArgs s) || ((0 <=? c_maxArgs s) && (c_maxArgs s <? llen (f_args f))))
          (positionalError s (f_args f));
    Ok f.

(** ** Global flags *)
Record globals := mkGlobals { g_quiet : bool; g_verbosity : Z; g_level : string }.

(** [-v], [-vv] and so on: [strings.Trim(arg[1:], "v")] is empty. *)
Definition is_verbose (arg : string) : bool :=
  match bytes_of arg with
  | c :: d :: r => bool_decide (c = "-"%char) && forallb (λ x, bool_decide (x = "v"%char)) (d :: r)
  | _ => false
  end.
Definition level_prefix : string := "--log-level=".

Fixpoint global_loop (g : globals) (clean args : list string) : res (list string * globals) :=
  match args with
  | [] => Ok (clean, g)
  | arg :: rest =>
      if (arg =s "--quiet") || (arg =s "-q") then global_loop (mkGlobals true (g_verbosity g) (g_level g)) clean rest
      else if is_verbose arg then
        global_loop (mkGlobals (g_quiet g) (g_verbosity g + (slen arg - 1)) (g_level g)) clean rest
      else if HasPrefix arg level_prefix then
        global_loop (mkGlobals (g_quiet g) (g_verbosity g) (tail_of (String.length level_prefix) arg)) clean rest
      else if arg =s "--log-level" then
        match rest with
        | level :: rest => global_loop (mkGlobals (g_quiet g) (g_verbosity g) level) clean rest
        | [] => Fail (errorf "invalid_input: --log-level requires value")
        end
      else global_loop g (clean ++ [arg]) rest
  end.

Definition levels : list string := ["error"; "warn"; "info"; "debug"; "trace"].

Definition extractGlobalFlags (args : list string) : res (list string * globals) :=
  '(clean, g) ← global_loop (mkGlobals false 0 "") [] args;
  _ ← refuse ((g_level g <>s "") && negb (mem_str (g_level g) levels))
        (errorf "invalid_input: --log-level must be error, warn, info, debug, or trace");
  Ok (clean, g).

(** ** Running a command *)

(** What [Run] does before the store is opened: help, or a handler for parsed arguments. *)
Inductive plan :=
  | HelpTop
  | HelpFor (s : commandSpec)
  | Execute (s : commandSpec) (f : flags).

Definition Run_plan (commands : list commandSpec) (args : list string) : res (globals * plan) :=
  '(args, g) ← extractGlobalFlags args;
  match args with
  | [] => Ok (g, HelpTop)
  | a :: rest =>
      if a =s "help" then
        match rest with
        | [] => Ok (g, HelpTop)
        | _ =>
            '(s, rest) ← resolveCommand commands rest;
            _ ← refuse ((0 <? llen rest) && negb (hasHelpFlag rest)) (errorf "invalid_input: help: unexpected argument");
            Ok (g, HelpFor s)
        end
      else if (a =s "--help") || (a =s "-h") then Ok (g, HelpTop)
      else
        '(s, rest) ← resolveCommand commands args;
        if hasHelpFlag rest then Ok (g, HelpFor s)
        else f ← parseCommand commands s rest; Ok (g, Execute s f)
  end.

(** The handlers of [Run] and [dispatch]. *)
Inductive handler :=
  | h_version | h_keygenSwarm | h_attach | h_accept | h_connect | h_share | h_serviceCreate | h_pipeCreate | h_start | h_stop
  | h_restart | h_remove | h_logs | h_inspect | h_getPipes | h_getServices | h_getScopes | h_getPeers | h_getOverlays
  | h_watchPipesCmd | h_ps | h_top | h_peersAlias | h_configValidate | h_configPrint | h_doctor | h_superviseInstall
  | h_superviseStatus | h_superviseUninstall | h_scopeCreate | h_scopeInvite | h_scopeJoin | h_scopeUse | h_authorityStart
  | h_relay | h_joinOverlay | h_revoke | h_runPipeInternal.

Definition dispatch_table : list (string * handler) :=
  [ ("version", h_version); ("keygen swarm", h_keygenSwarm); ("attach", h_attach); ("accept", h_accept);
    ("connect", h_connect); ("share", h_share); ("service create", h_serviceCreate); ("pipe create", h_pipeCreate);
    ("start", h_start); ("stop", h_stop); ("restart", h_restart); ("rm", h_remove); ("logs", h_logs);
    ("inspect", h_inspect); ("get pipes", h_getPipes); ("get services", h_getServices); ("get scopes", h_getScopes);
    ("get peers", h_getPeers); ("get overlays", h_getOverlays); ("watch pipes", h_watchPipesCmd); ("ps", h_ps);
    ("top", h_top); ("peers alias", h_peersAlias); ("config validate", h_configValidate);
    ("config print", h_configPrint); ("doctor", h_doctor); ("supervise install", h_superviseInstall);
    ("supervise status", h_superviseStatus); ("supervise uninstall", h_superviseUninstall);
    ("scope create", h_scopeCreate); ("scope invite", h_scopeInvite); ("scope join", h_scopeJoin);
    ("scope use", h_scopeUse); ("authority start", h_authorityStart); ("relay", h_relay);
    ("join overlay", h_joinOverlay); ("revoke", h_revoke); ("_run-pipe", h_runPipeInternal) ].

Definition dispatch (s : commandSpec) : res handler :=
  match List.find (λ kv, kv.1 =s spec_id s) dispatch_table with
  | Some (_, h) => Ok h
  | None => Fail (errorf ("internal error: unhandled command " +:+ spec_id s))
  end.
