(* ===== verification/CommandLineProps.v ===== *)
(** * What the command line accepts

    A grammar for invocations and the theorem that the parser accepts exactly its sentences,
    for the tree of commands of the program. *)
From S2P Require Import Prelude GoStrings CommandLine.
Open Scope Z_scope.

(** ** The grammar of the arguments of a command *)
Inductive item :=
  | Positional (a : string)
  | ValueInline (name v : string)
  | ValueNext (name v : string)
  | BoolLong (name : string)
  | BoolInline (name : string) (b : bool)
  | BoolShort (ch : string).

Definition bool_text (b : bool) : string := if b then "true" else "false".

Definition item_tokens (i : item) : list string :=
  match i with
  | Positional a => [a]
  | ValueInline name v => ["--" +:+ name +:+ "=" +:+ v]
  | ValueNext name v => ["--" +:+ name; v]
  | BoolLong name => ["--" +:+ name]
  | BoolInline name b => ["--" +:+ name +:+ "=" +:+ bool_text b]
  | BoolShort ch => ["-" +:+ ch]
  end.

(** A declared flag that is in use, with or without a value. *)
Definition declared (found : option flagSpec) (value : bool) (name : string) : Prop :=
  ∃ fs, found = Some fs ∧ fl_obsolete fs = "" ∧ fl_value fs = value ∧ fl_name fs = name.

(** The name of a flag on the command line: not empty, and without an equals sign. *)
Definition flag_word (name : string) : Prop := name ≠ "" ∧ "="%char ∉ bytes_of name.

Definition item_ok (s : commandSpec) (i : item) : Prop :=
  match i with
  | Positional a => positional a = true
  | ValueInline name _ => flag_word name ∧ declared (longFlag s name) true name
  | ValueNext name v => flag_word name ∧ declared (longFlag s name) true name ∧ HasPrefix v "-" = false
  | BoolLong name | BoolInline name _ => flag_word name ∧ declared (longFlag s name) false name
  | BoolShort ch => slen ch = 1 ∧ ch ≠ "-" ∧ ∃ name, declared (shortFlag s ch) false name
  end.

(** The value and the boolean flag that an item sets. *)
Definition value_of (i : item) : option (string * string) :=
  match i with ValueInline name v | ValueNext name v => Some (name, v) | _ => None end.
Definition bool_of (s : commandSpec) (i : item) : option (string * bool) :=
  match i with
  | BoolLong name => Some (name, true)
  | BoolInline name b => Some (name, b)
  | BoolShort ch => (λ fs, (fl_name fs, true)) <$> shortFlag s ch
  | _ => None
  end.
Definition arg_of (i : item) : option string := match i with Positional a => Some a | _ => None end.

(** What a list of items means. *)
Definition meaning (s : commandSpec) (items : list item) : flags :=
  mkFlags (list_to_map (omap value_of items)) (list_to_map (omap (bool_of s) items)) (omap arg_of items).

(** Every flag at most once. *)
Definition once (s : commandSpec) (items : list item) : Prop :=
  NoDup (omap value_of items).*1 ∧ NoDup (omap (bool_of s) items).*1.

(** An invocation of a command: its required values are there, and it has the declared
    number of arguments. *)
Record invocation (s : commandSpec) (args : list string) (f : flags) : Prop := {
  iv_items : ∃ items, args = items ≫= item_tokens ∧ Forall (item_ok s) items ∧ once s items ∧ f = meaning s items;
  iv_required : ∀ x, x ∈ c_flags s → fl_required x = true → ∃ v, f_values f !! fl_name x = Some v ∧ v ≠ "";
  iv_args : c_minArgs s ≤ llen (f_args f) ∧ (0 ≤ c_maxArgs s → llen (f_args f) ≤ c_maxArgs s) }.

(** ** Tokens *)
Lemma tail_of_app p s : tail_of (String.length p) (p +:+ s) = s.
Proof.
  unfold tail_of. rewrite bytes_of_app, <- length_bytes_of, drop_app_length. apply of_bytes_of.
Qed.

(** A body is a name, and a value behind the first equals sign. *)
Definition body_of (name : string) (inline : option string) : string :=
  name +:+ match inline with Some v => "=" +:+ v | None => "" end.

Lemma string_app_nil_r s : s +:+ "" = s.
Proof. apply bytes_of_inj. by rewrite bytes_of_app, app_nil_r. Qed.

Lemma cut_body body name inline :
  match Cut body "="%char with Some (n, v) => (n, Some v) | None => (body, None) end = (name, inline) ↔
  body = body_of name inline ∧ "="%char ∉ bytes_of name.
Proof.
  unfold body_of. rewrite <- ContainsChar_false. split.
  - destruct (Cut body "="%char) as [[n v]|] eqn:E; intros [= <- <-].
    + by apply Cut_Some in E.
    + rewrite string_app_nil_r. split; [done|]. apply ContainsChar_false. intros Hin.
      apply list_elem_of_split in Hin as (a & b & Hab).
      unfold Cut in E. destruct (cut_bytes "="%char (bytes_of body)) as [[x y]|] eqn:Ec; [done|].
      apply (f_equal is_Some) in Ec. clear E.
      assert (Hn : ∀ l, "="%char ∈ l → ∃ p, cut_bytes "="%char l = Some p).
      { induction l as [|c l IH]; [set_solver|]. intros Hc. simpl. case_bool_decide; [eauto|].
        destruct IH as [[u w] ->]; [set_solver|eauto]. }
      destruct (Hn (bytes_of body)) as [p Hp]; [rewrite Hab; apply elem_of_app; right; by left|]. rewrite Hp in Ec.
      assert (is_Some (@None (list ascii * list ascii))) as [? ?]; [rewrite <- Ec; eauto|done].
  - intros [-> Hn]. destruct inline as [v|].
    + by rewrite (proj2 (Cut_Some _ _ name v)) by done.
    + rewrite string_app_nil_r. destruct (Cut name "="%char) as [[a b]|] eqn:E; [|done].
      apply Cut_Some in E as [E _]. apply ContainsChar_false in Hn. exfalso. apply Hn. rewrite E, bytes_of_app. set_solver.
Qed.

Lemma longFlag_name s name fs : longFlag s name = Some fs → fl_name fs = name.
Proof. unfold longFlag. intros Hf. apply find_some in Hf as [_ Hf]. by apply seqb_true. Qed.

(** What a long token asks for. *)
Definition long_meaning (name : string) (fs : flagSpec) (inline : option string) (u : flag_use) : Prop :=
  if fl_value fs then u = UseValue name ("--" +:+ name) inline
  else ∃ b, u = UseBool name ("--" +:+ name) b ∧ (inline = None ∧ b = true ∨ inline = Some (bool_text b)).

Lemma long_use_spec s body u :
  long_use s ("--" +:+ body) = Ok u ↔
  ∃ name inline fs, body = body_of name inline ∧ flag_word name ∧ longFlag s name = Some fs ∧ fl_obsolete fs = "" ∧
    long_meaning name fs inline u.
Proof.
  unfold long_use, long_meaning. change (tail_of 2 ("--" +:+ body)) with (tail_of (String.length "--") ("--" +:+ body)).
  rewrite tail_of_app. cbv zeta. split.
  - intros Hu. apply bind_ok in Hu as (_ & _ & Hu).
    destruct (match Cut body "="%char with Some (n, v) => (n, Some v) | None => (body, None) end) as [name inline] eqn:Ec.
    apply cut_body in Ec as [-> Hn]. apply bind_ok in Hu as ([] & Hne%refuse_ok%seqb_false & Hu).
    apply bind_ok in Hu as (fs & Hfs%need_ok & Hu). apply bind_ok in Hu as ([] & Ho%refuse_ok & Hu).
    apply negb_false_iff, seqb_true in Ho.
    exists name, inline, fs. split_and!; [done|done|done|done|]. rewrite (longFlag_name _ _ _ Hfs) in Hu.
    destruct (fl_value fs); [by apply Ok_inj in Hu|].
    destruct inline as [v|]; [|apply Ok_inj in Hu; exists true; auto].
    destruct (v =s "true") eqn:Et; [apply Ok_inj in Hu; apply seqb_true in Et; exists true; subst; auto|].
    destruct (v =s "false") eqn:Ef; [|done]. apply Ok_inj in Hu; apply seqb_true in Ef; exists false; subst; auto.
  - intros (name & inline & fs & -> & [Hne Hn] & Hfs & Ho & Hu).
    assert (Hb : (body_of name inline =s "") = false).
    { apply seqb_false. unfold body_of. intros E. by destruct name. }
    rewrite Hb. cbn [refuse mbind res_bind]. rewrite (proj2 (cut_body _ _ _) (conj eq_refl Hn)).
    rewrite (proj2 (seqb_false _ _) Hne). cbn [refuse mbind res_bind]. rewrite Hfs. cbn [need mbind res_bind].
    rewrite Ho. cbn [refuse mbind res_bind negb]. rewrite (longFlag_name _ _ _ Hfs).
    destruct (fl_value fs); [by rewrite Hu|]. destruct Hu as (b & -> & [[-> ->]| ->]); [done|]. by destruct b.
Qed.

Lemma short_use_spec s ch u :
  short_use s ("-" +:+ ch) = Ok u ↔
  slen ch = 1 ∧ ∃ fs, shortFlag s ch = Some fs ∧ fl_obsolete fs = "" ∧ fl_value fs = false ∧
    u = UseBool (fl_name fs) ("-" +:+ ch) true.
Proof.
  unfold short_use. change (tail_of 1 ("-" +:+ ch)) with (tail_of (String.length "-") ("-" +:+ ch)).
  rewrite tail_of_app. cbv zeta. split.
  - intros Hu. apply bind_ok in Hu as ([] & Hl%refuse_ok & Hu). apply bind_ok in Hu as (fs & Hfs%need_ok & Hu).
    apply bind_ok in Hu as ([] & Ho%refuse_ok & Hu). apply bind_ok in Hu as ([] & Hv%refuse_ok & Hu).
    apply Ok_inj in Hu. apply negb_false_iff in Hl, Ho. apply seqb_true in Ho. split; [lia|]. by exists fs.
  - intros (Hl & fs & Hfs & Ho & Hv & ->). rewrite Hl, Hfs. cbn [refuse mbind res_bind negb Z.eqb need]. 
    rewrite Ho, Hv. reflexivity.
Qed.

Lemma long_token body : positional ("--" +:+ body) = false ∧ HasPrefix ("--" +:+ body) "--" = true.
Proof. unfold positional. split; [|apply HasPrefix_spec; by eexists]. by destruct body. Qed.

Lemma short_token ch :
  slen ch = 1 → ch ≠ "-" → positional ("-" +:+ ch) = false ∧ HasPrefix ("-" +:+ ch) "--" = false.
Proof.
  intros Hl Hne. destruct ch as [|c [|d ch]]; [done| |unfold slen in Hl; simpl in Hl; lia].
  split.
  - unfold positional. rewrite (proj2 (HasPrefix_spec _ "-")) by (by eexists). cbn [negb orb].
    apply seqb_false. discriminate.
  - destruct (HasPrefix _ _) eqn:E; [|done]. apply HasPrefix_spec in E as [r E]. injection E as -> _. by destruct Hne.
Qed.

Lemma flag_token arg :
  positional arg = false →
  (∃ body, arg = "--" +:+ body) ∨ (HasPrefix arg "--" = false ∧ ∃ ch, arg = "-" +:+ ch ∧ ch ≠ "-").
Proof.
  unfold positional. intros Hp. apply orb_false_elim in Hp as [Hp%negb_false_iff Hne].
  apply HasPrefix_spec in Hp as [ch ->]. destruct (HasPrefix ("-" +:+ ch) "--") eqn:E.
  - left. by apply HasPrefix_spec in E.
  - right. split; [done|]. exists ch. split; [done|]. intros ->. by vm_compute in E.
Qed.

(** ** The loop *)
Definition extend (s : commandSpec) (f : flags) (items : list item) : flags :=
  mkFlags (list_to_map (omap value_of items) ∪ f_values f) (list_to_map (omap (bool_of s) items) ∪ f_bools f)
    (f_args f ++ omap arg_of items).

Definition fresh (s : commandSpec) (f : flags) (seen : list string) (items : list item) : Prop :=
  once s items ∧ (∀ n, n ∈ (omap value_of items).*1 → f_values f !! n = None) ∧
  (∀ n, n ∈ (omap (bool_of s) items).*1 → n ∉ seen).

Lemma extend_positional s f a items : extend s (add_arg a f) items = extend s f (Positional a :: items).
Proof. unfold extend. cbn. by rewrite <- app_assoc. Qed.

Lemma extend_value s f i n v items :
  value_of i = Some (n, v) → n ∉ (omap value_of items).*1 →
  extend s (set_value n v f) items = extend s f (i :: items).
Proof.
  intros Hi Hn. unfold extend. assert (Hb : bool_of s i = None ∧ arg_of i = None) by (by destruct i).
  destruct Hb as [Hb Ha]. cbn [omap list_omap f_values f_bools f_args set_value]. rewrite Hi, Hb, Ha, list_to_map_cons. f_equal.
  rewrite <- insert_union_l. symmetry. apply insert_union_r. by apply not_elem_of_list_to_map_1.
Qed.

Lemma extend_bool s f i n b items :
  bool_of s i = Some (n, b) → n ∉ (omap (bool_of s) items).*1 →
  extend s (set_bool n b f) items = extend s f (i :: items).
Proof.
  intros Hi Hn. unfold extend. assert (Hb : value_of i = None ∧ arg_of i = None) by (by destruct i).
  destruct Hb as [Hb Ha]. cbn [omap list_omap f_values f_bools f_args set_bool]. rewrite Hi, Hb, Ha, list_to_map_cons. f_equal.
  rewrite <- insert_union_l. symmetry. apply insert_union_r. by apply not_elem_of_list_to_map_1.
Qed.

Lemma fresh_value s f seen i n v items :
  value_of i = Some (n, v) →
  (fresh s f seen (i :: items) ↔
   f_values f !! n = None ∧ (n ∉ (omap value_of items).*1) ∧ fresh s (set_value n v f) seen items).
Proof.
  intros Hi. assert (Hb : bool_of s i = None) by (by destruct i). unfold fresh, once. cbn [omap list_omap].
  rewrite Hi, Hb. cbn [fmap list_fmap fst f_values set_value]. rewrite NoDup_cons. split.
  - intros ([[Hn Hd] Hd'] & Hv & Hs). split_and!; try done; [apply Hv; by left|].
    intros m Hm. rewrite lookup_insert_ne by (intros ->; done). apply Hv. by right.
  - intros (Hv & Hn & [Hd Hd'] & Hvs & Hs). split_and!; try done. intros m [->|Hm]%elem_of_cons; [done|].
    specialize (Hvs m Hm). rewrite lookup_insert_ne in Hvs by (intros ->; done). done.
Qed.

Lemma fresh_bool s f seen i n b items :
  bool_of s i = Some (n, b) →
  (fresh s f seen (i :: items) ↔
   (n ∉ seen) ∧ (n ∉ (omap (bool_of s) items).*1) ∧ fresh s (set_bool n b f) (n :: seen) items).
Proof.
  intros Hi. assert (Hb : value_of i = None) by (by destruct i). unfold fresh, once. cbn [omap list_omap].
  rewrite Hi, Hb. cbn [fmap list_fmap fst f_values set_bool]. rewrite NoDup_cons. split.
  - intros ([Hd [Hn Hd']] & Hv & Hs). split_and!; try done; [apply Hs; by left|].
    intros m Hm [->|Hin]%elem_of_cons; [done|]. apply (Hs m); [by right|done].
  - intros (Hs & Hn & [Hd Hd'] & Hv & Hss). split_and!; try done. intros m [->|Hm]%elem_of_cons; [done|].
    intros Hin. apply (Hss m Hm). by right.
Qed.

(** What a flag token asks for, by the item it belongs to. *)
Definition token_use (s : commandSpec) (arg : string) : res flag_use :=
  if HasPrefix arg "--" then long_use s arg else short_use s arg.

Lemma use_item s arg u :
  positional arg = false → token_use s arg = Ok u →
  (∃ i n v, u = UseValue n ("--" +:+ n) (Some v) ∧ item_tokens i = [arg] ∧ item_ok s i ∧ value_of i = Some (n, v)) ∨
  (∃ n, u = UseValue n ("--" +:+ n) None ∧ arg = "--" +:+ n ∧ flag_word n ∧ declared (longFlag s n) true n) ∨
  (∃ i n b token, u = UseBool n token b ∧ item_tokens i = [arg] ∧ item_ok s i ∧ bool_of s i = Some (n, b)).
Proof.
  intros Hp Hu. unfold token_use in Hu. destruct (flag_token arg Hp) as [[body ->]|(Hh & ch & -> & Hch)].
  - rewrite (proj2 (long_token body)) in Hu. apply long_use_spec in Hu as (n & inline & fs & -> & Hw & Hfs & Ho & Hm).
    pose proof (longFlag_name _ _ _ Hfs) as Hn. unfold long_meaning in Hm.
    assert (Hd : declared (longFlag s n) (fl_value fs) n) by (by exists fs).
    destruct (fl_value fs) eqn:Ev.
    + destruct inline as [v|]; subst u.
      * left. by exists (ValueInline n v), n, v.
      * right. left. exists n. unfold body_of. by rewrite string_app_nil_r.
    + destruct Hm as (b & -> & [[-> ->]| ->]); right; right.
      * exists (BoolLong n), n, true, ("--" +:+ n). unfold body_of. by rewrite string_app_nil_r.
      * by exists (BoolInline n b), n, b, ("--" +:+ n).
  - rewrite Hh in Hu. apply short_use_spec in Hu as (Hl & fs & Hfs & Ho & Hv & ->). right. right.
    exists (BoolShort ch), (fl_name fs), true, ("-" +:+ ch). split_and!; [done|done| |cbn; by rewrite Hfs].
    split; [done|]. split; [done|]. by exists (fl_name fs), fs.
Qed.

(** The token of an item that sets a value or a boolean asks for it. *)
Lemma long_item s name inline u :
  flag_word name → (∃ fs, longFlag s name = Some fs ∧ fl_obsolete fs = "" ∧ long_meaning name fs inline u) →
  let arg := "--" +:+ body_of name inline in positional arg = false ∧ token_use s arg = Ok u.
Proof.
  intros Hw (fs & Hfs & Ho & Hm) arg. destruct (long_token (body_of name inline)) as [Hp Hh]. split; [done|].
  unfold token_use, arg. rewrite Hh. apply long_use_spec. by exists name, inline, fs.
Qed.

Lemma bool_item s i n b arg :
  item_ok s i → bool_of s i = Some (n, b) → item_tokens i = [arg] →
  positional arg = false ∧ ∃ token, token_use s arg = Ok (UseBool n token b).
Proof.
  intros Hi Hb Ht. destruct i as [a|name v|name v|name|name b'|ch]; try done; cbn in Hb, Ht, Hi.
  - injection Hb as <- <-. injection Ht as <-. destruct Hi as (Hw & fs & Hfs & Ho & Hv & Hn).
    destruct (long_item s name None (UseBool name ("--" +:+ name) true) Hw) as [Hp Hu].
    { exists fs. unfold long_meaning. rewrite Hv. split_and!; [done|done|]. exists true. auto. }
    unfold body_of in *. rewrite string_app_nil_r in *. eauto.
  - injection Hb as <- <-. injection Ht as <-. destruct Hi as (Hw & fs & Hfs & Ho & Hv & Hn).
    destruct (long_item s name (Some (bool_text b')) (UseBool name ("--" +:+ name) b') Hw) as [Hp Hu]; [|eauto].
    exists fs. unfold long_meaning. rewrite Hv. split_and!; [done|done|]. exists b'. auto.
  - destruct Hi as (Hl & Hne & nm & fs & Hfs & Ho & Hv & Hn). rewrite Hfs in Hb. injection Hb as <- <-. injection Ht as <-.
    destruct (short_token ch Hl Hne) as [Hp Hh]. split; [done|]. eexists. unfold token_use. rewrite Hh.
    apply short_use_spec. split; [done|]. exists fs. split_and!; reflexivity || done.
Qed.

Lemma value_item s name inline :
  flag_word name → declared (longFlag s name) true name →
  let arg := "--" +:+ body_of name inline in
  positional arg = false ∧ token_use s arg = Ok (UseValue name ("--" +:+ name) inline).
Proof.
  intros Hw (fs & Hfs & Ho & Hv & Hn). apply long_item; [done|]. exists fs. unfold long_meaning. by rewrite Hv.
Qed.

Lemma not_set {A} (o : option A) : bool_decide (is_Some o) = false ↔ o = None.
Proof. rewrite bool_decide_eq_false. by destruct o; split; intros Hx; try (exfalso; apply Hx; eauto; fail); try done; intros [? ?]. Qed.

Lemma loop_sound s f seen args f' :
  parse_loop s f seen args = Ok f' →
  ∃ items, args = items ≫= item_tokens ∧ Forall (item_ok s) items ∧ fresh s f seen items ∧ f' = extend s f items.
Proof.
  assert (Hlt : (length args < S (length args))%nat) by lia. revert Hlt. generalize (S (length args)) as k. intros k.
  revert f seen args. induction k as [|k IH]; [lia|]. intros f seen [|arg rest] Hlen Hp.
  { apply Ok_inj in Hp as <-. exists []. split_and!; [done|by constructor| |].
    - split; [split; constructor|]. split; intros n Hn; by apply elem_of_nil in Hn.
    - unfold extend. cbn. rewrite !map_empty_union, app_nil_r. by destruct f. }
  cbn [parse_loop] in Hp. cbn [length] in Hlen. destruct (positional arg) eqn:Epos.
  { apply IH in Hp as (items & -> & Hok & Hfr & ->); [|lia]. exists (Positional arg :: items).
    split_and!; [done|by constructor|exact Hfr|apply extend_positional]. }
  apply bind_ok in Hp as (u & Hu & Hp). change (token_use s arg = Ok u) in Hu.
  destruct (use_item s arg u Epos Hu) as [(i & n & v & -> & Ht & Hi & Hv)|[(n & -> & -> & Hw & Hd)|(i & n & b & token & -> & Ht & Hi & Hb)]].
  - destruct (bool_decide _) eqn:Es in Hp; [done|]. apply not_set in Es.
    apply IH in Hp as (items & -> & Hok & Hfr & ->); [|lia].
    assert (Hn : n ∉ (omap value_of items).*1).
    { intros Hin. destruct Hfr as (_ & Hx & _). specialize (Hx n Hin). cbn in Hx. by rewrite lookup_insert_eq in Hx. }
    exists (i :: items). split_and!; [cbn; by rewrite Ht|by constructor| |by eapply extend_value].
    eapply fresh_value; [exact Hv|]. done.
  - destruct rest as [|v rest]; [done|]. destruct (HasPrefix v "-") eqn:Eh; [done|].
    destruct (bool_decide _) eqn:Es in Hp; [done|]. apply not_set in Es.
    apply IH in Hp as (items & -> & Hok & Hfr & ->); [|cbn [length] in Hlen; lia].
    assert (Hn : n ∉ (omap value_of items).*1).
    { intros Hin. destruct Hfr as (_ & Hx & _). specialize (Hx n Hin). cbn in Hx. by rewrite lookup_insert_eq in Hx. }
    exists (ValueNext n v :: items). split_and!; [done|by constructor| |by apply extend_value].
    by eapply (fresh_value s f seen (ValueNext n v)).
  - destruct (mem_str n seen) eqn:Es; [done|]. apply mem_str_false in Es.
    apply IH in Hp as (items & -> & Hok & Hfr & ->); [|lia].
    assert (Hn : n ∉ (omap (bool_of s) items).*1).
    { intros Hin. destruct Hfr as (_ & _ & Hx). apply (Hx n Hin). by left. }
    exists (i :: items). split_and!; [cbn; by rewrite Ht|by constructor| |by eapply extend_bool].
    eapply fresh_bool; [exact Hb|]. done.
Qed.

Lemma loop_complete s items f seen :
  Forall (item_ok s) items → fresh s f seen items → parse_loop s f seen (items ≫= item_tokens) = Ok (extend s f items).
Proof.
  revert f seen. induction items as [|i items IH]; intros f seen Hok Hfr.
  { unfold extend. cbn. rewrite !map_empty_union, app_nil_r. by destruct f. }
  apply Forall_cons in Hok as [Hi Hok]. destruct (value_of i) as [[n v]|] eqn:Ev.
  - destruct (proj1 (fresh_value s f seen i n v items Ev) Hfr) as (Hnone & Hn & Hfr').
    rewrite <- (extend_value _ _ _ _ _ _ Ev Hn), <- (IH _ _ Hok Hfr').
    apply not_set in Hnone.
    destruct i as [a|name w|name w|name|name b'|ch]; try done; injection Ev as En Ew; subst name w; cbn in Hi; cbn [mbind list_bind item_tokens app].
    + destruct Hi as [Hw Hd]. destruct (value_item s n (Some v) Hw Hd) as [Hp Hu]. cbn [parse_loop]. unfold body_of in *.
      rewrite Hp. unfold token_use in Hu. rewrite Hu. cbn [mbind res_bind]. by rewrite Hnone.
    + destruct Hi as (Hw & Hd & Hh). destruct (value_item s n None Hw Hd) as [Hp Hu]. cbn [parse_loop].
      unfold body_of, token_use in *. rewrite string_app_nil_r in *. rewrite Hp, Hu. cbn [mbind res_bind]. by rewrite Hh, Hnone.
  - destruct (bool_of s i) as [[n b]|] eqn:Eb.
    + destruct (proj1 (fresh_bool s f seen i n b items Eb) Hfr) as (Hns & Hn & Hfr').
      rewrite <- (extend_bool _ _ _ _ _ _ Eb Hn), <- (IH _ _ Hok Hfr').
      apply mem_str_false in Hns.
      assert (Ht : ∃ arg, item_tokens i = [arg]) by (destruct i; cbn; eauto; done). destruct Ht as [arg Ht].
      destruct (bool_item s i n b arg Hi Eb Ht) as (Hp & token & Hu). cbn [mbind list_bind]. rewrite Ht. cbn [app parse_loop].
      rewrite Hp. unfold token_use in Hu. rewrite Hu. cbn [mbind res_bind]. by rewrite Hns.
    + destruct i as [a|name w|name w|name|name b'|ch]; try done.
      * cbn [mbind list_bind item_tokens app parse_loop]. cbn in Hi. rewrite Hi, IH; [by rewrite extend_positional|done|exact Hfr].
      * exfalso. destruct Hi as (_ & _ & nm & fs & Hfs & _). cbn in Eb. by rewrite Hfs in Eb.
Qed.

(** ** The parser and its grammar *)
Lemma enforceRequired_ok s fs f :
  enforceRequired s fs f = Ok tt ↔
  ∀ x, x ∈ fs → fl_required x = true → ∃ v, f_values f !! fl_name x = Some v ∧ v ≠ "".
Proof.
  assert (HD : ∀ o : option string, (default "" o =s "") = false ↔ ∃ v, o = Some v ∧ v ≠ "").
  { intros [v|]; rewrite seqb_false; cbn; [|split; [done|by intros (? & ? & _)]].
    split; [intros Hv; by exists v|by intros (? & [= <-] & Hv)]. }
  induction fs as [|x fs IH]; cbn [enforceRequired].
  { split; [|done]. intros _ x Hx. by apply elem_of_nil in Hx. }
  destruct (fl_required x && _) eqn:E.
  - apply andb_true_iff in E as [Hr He]. split; [done|]. intros Hall. exfalso.
    assert (Hx : x ∈ x :: fs) by by left. apply (HD (f_values f !! fl_name x)) in Hall; [|done|done]. congruence.
  - rewrite IH. split; intros Hall y; [|intros Hy; apply Hall; by right].
    intros [->|Hy]%elem_of_cons Hr; [|by apply Hall]. rewrite Hr in E. by apply HD.
Qed.

Lemma parse_exact commands s args f :
  parseCommand commands s args = Ok f ↔ isGroup commands s = false ∧ invocation s args f.
Proof.
  assert (HE : ∀ items, extend s no_flags items = meaning s items).
  { intros items. unfold extend, meaning. cbn. by rewrite !map_union_empty. }
  assert (HF : ∀ items, fresh s no_flags [] items ↔ once s items).
  { intros items. split; [by intros [? _]|]. intros Ho. split; [done|]. split; intros n _; [apply lookup_empty|apply not_elem_of_nil]. }
  unfold parseCommand. destruct (isGroup commands s).
  { split; [|by intros [? _]]. unfold parseCommandGroup. by repeat case_match. }
  split.
  - intros Hp. split; [done|]. apply bind_ok in Hp as (f' & Hl & Hp). apply bind_ok in Hp as ([] & Hr & Hp).
    apply bind_ok in Hp as ([] & Ha%refuse_ok & Hp). apply Ok_inj in Hp as <-.
    apply loop_sound in Hl as (items & -> & Hok & Hfr & ->). constructor.
    + exists items. rewrite <- HF, <- HE. done.
    + exact (proj1 (enforceRequired_ok _ _ _) Hr).
    + lia.
  - intros [_ [(items & -> & Hok & Ho & ->) Hr Ha]]. rewrite loop_complete; [|done|by apply HF]. rewrite HE. cbn [mbind res_bind].
    rewrite (proj2 (enforceRequired_ok s _ _) Hr). cbn [mbind res_bind].
    assert (Hc : (llen (f_args (meaning s items)) <? c_minArgs s)
                 || (0 <=? c_maxArgs s) && (c_maxArgs s <? llen (f_args (meaning s items))) = false) by lia.
    by rewrite Hc.
Qed.

(** ** Well-formed trees *)

(** Words of a path, at most two of them, below a declared group, each path once; help is
    neither a command nor a flag. *)
Definition wordb (w : string) : bool :=
  negb (HasPrefix w "-") && negb (ContainsChar w " "%char) && (w <>s "help") && (w <>s "").
Definition pathb (commands : list commandSpec) (s : commandSpec) : bool :=
  match c_path s with
  | [w] => wordb w
  | [g; w] => wordb g && wordb w && existsb (λ p, bool_decide (c_path p = [g])) commands
  | _ => false
  end.
Definition no_help (s : commandSpec) : bool :=
  forallb (λ f, (fl_name f <>s "help") && (fl_short f <>s "h")) (c_flags s).
Definition well_formed (commands : list commandSpec) : bool :=
  forallb (pathb commands) commands && forallb no_help commands && bool_decide (NoDup (spec_id <$> commands)).

Section pick.
Context {A : Type} (p : A → bool) (q : option A → A → bool).
Let pick (acc : option A) (x : A) : option A := if p x && q acc x then Some x else acc.

Lemma pick_some l acc a : foldl pick acc l = Some a → acc = Some a ∨ (a ∈ l ∧ p a = true).
Proof.
  revert acc. induction l as [|x l IH]; intros acc; cbn [foldl]; [by left|]. intros Hf.
  apply IH in Hf as [Hf|[Hin Hp]]; [|right; split; [by right|done]]. unfold pick in Hf.
  destruct (p x && q acc x) eqn:E; [|by left]. injection Hf as ->. apply andb_true_iff in E as [Hp _]. right. split; [by left|done].
Qed.

Lemma pick_exists l acc x : (∀ y, q None y = true) → x ∈ l → p x = true → is_Some (foldl pick acc l).
Proof.
  intros Hq Hin Hp.
  assert (HS : ∀ r o, is_Some o → is_Some (foldl pick o r)).
  { induction r as [|y r IH]; [done|]. intros o Ho. cbn [foldl]. apply IH. unfold pick. destruct (p y && q o y); eauto. }
  revert acc. induction Hin as [x l|x y l Hin IH]; intros acc; cbn [foldl]; [|by apply IH].
  apply HS. unfold pick. rewrite Hp. destruct acc as [a|]; [destruct (q (Some a) x); cbn; eauto|]. rewrite Hq. cbn. eauto.
Qed.
End pick.

Section resolver.
Context (table : list commandSpec) (Hwf : well_formed table = true).

Definition word (w : string) : Prop :=
  HasPrefix w "-" = false ∧ ContainsChar w " "%char = false ∧ w ≠ "help" ∧ w ≠ "".

Lemma wordb_word w : wordb w = true → word w.
Proof.
  unfold wordb. intros [[[H1%negb_true_iff H2%negb_true_iff]%andb_true_iff H3%negb_true_iff]%andb_true_iff H4%negb_true_iff]%andb_true_iff.
  apply seqb_false in H3, H4. by split_and!.
Qed.

(** The two shapes of a path. *)
Lemma path_shape s :
  s ∈ table →
  (∃ w, c_path s = [w] ∧ word w ∧ spec_id s = w) ∨
  (∃ g w p, c_path s = [g; w] ∧ word g ∧ word w ∧ spec_id s = g +:+ " " +:+ w ∧ p ∈ table ∧ c_path p = [g]).
Proof.
  intros Hs. pose proof Hwf as Hf. apply andb_true_iff in Hf as [[Hf _]%andb_true_iff _].
  rewrite forallb_forall in Hf. apply list_elem_of_In in Hs. specialize (Hf s Hs). unfold pathb in Hf. unfold spec_id, joinPath.
  destruct (c_path s) as [|g [|w [|z l]]]; [done| | |done].
  - left. exists g. split; [done|]. split; [by apply wordb_word|done].
  - apply andb_true_iff in Hf as [[Hg Hw]%andb_true_iff He]. apply existsb_exists in He as (p & Hp & Hpp%bool_decide_eq_true).
    right. exists g, w, p. split_and!; [done|by apply wordb_word|by apply wordb_word|done|by apply list_elem_of_In|done].
Qed.

Lemma same_id s s' : s ∈ table → s' ∈ table → spec_id s = spec_id s' → s = s'.
Proof.
  pose proof Hwf as Hf. apply andb_true_iff in Hf as [_ Hd%bool_decide_eq_true].
  intros [i Hi]%list_elem_of_lookup [j Hj]%list_elem_of_lookup E.
  assert (i = j) as ->; [|congruence].
  eapply (NoDup_lookup _ i j (spec_id s)); [exact Hd| |]; rewrite list_lookup_fmap; [by rewrite Hi|by rewrite Hj, E].
Qed.

Lemma specFor_some path s : specFor table path = Some s → s ∈ table ∧ spec_id s = path.
Proof. unfold specFor. intros [Hs Hp%seqb_true]%find_some. split; [by apply list_elem_of_In|done]. Qed.

Lemma specFor_of s : s ∈ table → specFor table (spec_id s) = Some s.
Proof.
  intros Hs. destruct (specFor table (spec_id s)) as [s'|] eqn:E.
  - apply specFor_some in E as [Hs' E]. f_equal. by apply same_id.
  - unfold specFor in E. apply list_elem_of_In in Hs. pose proof (find_none _ _ E s Hs) as Hn. cbn in Hn. by rewrite seqb_refl in Hn.
Qed.

(** A command that may follow [m] on the way from [base]. *)
Definition follows (base : string) (m : commandSpec) (arg : string) (n : commandSpec) : Prop :=
  n ∈ table ∧ hd "" (c_path n) = base ∧ llen (c_path m) < llen (c_path n) ∧
  nth_error (c_path n) (length (c_path m)) = Some arg.

Definition followsb (base : string) (m : commandSpec) (arg : string) (n : commandSpec) : bool :=
  (hd "" (c_path n) =s base) && (llen (c_path m) <? llen (c_path n)) &&
  match nth_error (c_path n) (length (c_path m)) with Some w => w =s arg | None => false end.

Lemma followsb_true base m arg n : n ∈ table → (followsb base m arg n = true ↔ follows base m arg n).
Proof.
  intros Hn. unfold followsb, follows. rewrite !andb_true_iff, seqb_true, Z.ltb_lt.
  destruct (nth_error _ _) as [w|]; [|split; [by intros [_ ?]|by intros (_ & _ & _ & ?)]].
  rewrite seqb_true. split; [by intros [[? ?] ->]|by intros (_ & ? & ? & [= ->])].
Qed.

Lemma next_some base m arg n : next_command table base m arg = Some n → follows base m arg n.
Proof.
  intros Hn. apply (pick_some (followsb base m arg)
    (λ o s, match o with None => true | Some n => llen (c_path n) <? llen (c_path s) end)) in Hn as [Hn|[Hn Hf]]; [done|].
  by apply followsb_true.
Qed.

Lemma next_exists base m arg n : follows base m arg n → is_Some (next_command table base m arg).
Proof.
  intros Hf. apply (pick_exists (followsb base m arg)
    (λ o s, match o with None => true | Some n => llen (c_path n) <? llen (c_path s) end) table None n); [done|apply Hf|].
  apply followsb_true; [apply Hf|done].
Qed.

(** Only a word of the group itself is followed, by a command of that group. *)
Lemma follows_child base m arg n :
  m ∈ table → follows base m arg n → (base = spec_id m ∨ base = hd "" (c_path m)) →
  c_path m = [base] ∧ c_path n = [base; arg].
Proof.
  intros Hm (Hn & Hh & Hl & Hw) Hb.
  destruct (path_shape n Hn) as [(w & Hp & _)|(g & w & p & Hp & [_ [Hg _]] & _)]; rewrite Hp in *.
  { destruct (path_shape m Hm) as [(x & Hpm & _)|(x & y & z & Hpm & _)]; rewrite Hpm in Hl; unfold llen in Hl; cbn in Hl; lia. }
  cbn in Hh. subst g.
  destruct (path_shape m Hm) as [(x & Hpm & _ & Hid)|(x & y & z & Hpm & _)]; rewrite Hpm in *; [|unfold llen in Hl; cbn in Hl; lia].
  cbn in Hw, Hb. injection Hw as ->. split; [|done]. f_equal. destruct Hb; congruence.
Qed.

Lemma leaf_not_followed m arg n base :
  m ∈ table → isGroup table m = false → (base = spec_id m ∨ base = hd "" (c_path m)) → follows base m arg n → False.
Proof.
  intros Hm Hg Hb Hf. destruct (follows_child _ _ _ _ Hm Hf Hb) as [Hpm Hpn]. destruct Hf as (Hn & _).
  unfold isGroup, children in Hg.
  assert (Hin : n ∈ List.filter (λ c, parentID c =s spec_id m) table).
  { apply list_elem_of_In, filter_In. split; [by apply list_elem_of_In|]. apply seqb_true.
    unfold parentID, spec_id. rewrite Hpn, Hpm. reflexivity. }
  destruct (List.filter _ table) as [|c l]; [by apply elem_of_nil in Hin|].
  apply Z.ltb_ge in Hg. rewrite llen_cons in Hg. unfold llen in Hg. lia.
Qed.

Lemma walk_leaf base m rest :
  m ∈ table → isGroup table m = false → (base = spec_id m ∨ base = hd "" (c_path m)) → walk table base m rest = Ok (m, rest).
Proof.
  intros Hm Hg Hb. destruct rest as [|arg rest]; [done|]. cbn [walk]. destruct (HasPrefix arg "-").
  { rewrite Hg. by destruct (is_help arg). }
  destruct (next_command table base m arg) as [n|] eqn:E; [|done]. exfalso.
  eapply leaf_not_followed; [exact Hm|exact Hg|exact Hb|by eapply next_some].
Qed.

Lemma walk_sound base m args s rest :
  m ∈ table → (base = spec_id m ∨ base = hd "" (c_path m)) → walk table base m args = Ok (s, rest) →
  s ∈ table ∧ (s = m ∧ rest = args ∨ c_path m = [base] ∧ ∃ w, c_path s = [base; w] ∧ args = w :: rest).
Proof.
  revert m. induction args as [|arg args IH]; intros m Hm Hb Hw; cbn [walk] in Hw.
  { apply Ok_inj in Hw. injection Hw as -> ->. auto. }
  destruct (HasPrefix arg "-").
  { destruct (is_help arg); [|destruct (isGroup table m); [done|]]; apply Ok_inj in Hw; injection Hw as -> ->; auto. }
  destruct (next_command table base m arg) as [n|] eqn:E; [|apply Ok_inj in Hw; injection Hw as -> ->; auto].
  apply next_some in E. destruct (follows_child _ _ _ _ Hm E Hb) as [Hpm Hpn]. destruct E as (Hn & _).
  apply IH in Hw as [Hs [[-> ->]|[Hbad _]]]; [|congruence|done|right; by rewrite Hpn]. split; [done|]. right. eauto.
Qed.

Lemma resolve_sound args s rest :
  resolveCommand table args = Ok (s, rest) → s ∈ table ∧ (args = c_path s ++ rest ∨ args = spec_id s :: rest).
Proof.
  unfold resolveCommand. destruct args as [|base args]; [done|]. destruct (HasPrefix base "-"); [done|].
  intros Hr. apply bind_ok in Hr as (m & Hm%need_ok & Hw).
  assert (Hm' : m ∈ table ∧ spec_id m = base).
  { destruct (specFor table base) as [m'|] eqn:E; [injection Hm as ->; by apply specFor_some|]. exfalso.
    apply (pick_some (λ s, hd "" (c_path s) =s base)
      (λ o s, match o with None => true | Some m => llen (c_path m) <? llen (c_path s) end)) in Hm as [Hm|[Hm Hh%seqb_true]]; [done|].
    destruct (path_shape m Hm) as [(w & Hp & _ & Hid)|(g & w & p & Hp & _ & _ & _ & Hin & Hpp)]; rewrite Hp in Hh; cbn in Hh.
    - rewrite <- Hh, <- Hid, specFor_of in E by done. done.
    - assert (Hid : spec_id p = base) by (unfold spec_id; rewrite Hpp; done). rewrite <- Hid, specFor_of in E by done. done. }
  destruct Hm' as [Hin Hid]. apply walk_sound in Hw as [Hs [[-> ->]|(Hp & w & Hps & ->)]]; [| |done|by left].
  - split; [done|]. right. by rewrite Hid.
  - split; [done|]. left. by rewrite Hps.
Qed.

Lemma resolve_complete s rest args :
  s ∈ table → isGroup table s = false → (args = c_path s ++ rest ∨ args = spec_id s :: rest) →
  resolveCommand table args = Ok (s, rest).
Proof.
  intros Hs Hg Ha.
  assert (HB : ∀ m args', m ∈ table → HasPrefix (spec_id m) "-" = false →
             resolveCommand table (spec_id m :: args') = walk table (spec_id m) m args').
  { intros m args' Hm Hh. unfold resolveCommand. by rewrite Hh, specFor_of. }
  assert (HI : HasPrefix (spec_id s) "-" = false).
  { destruct (path_shape s Hs) as [(w & _ & [Hw _] & ->)|(g & w & p & _ & [Hw [_ [_ Hne]]] & _ & -> & _)]; [done|].
    destruct g as [|c g]; [done|]. destruct (HasPrefix (String c g +:+ " " +:+ w) "-") eqn:E; [|done].
    apply HasPrefix_spec in E as [r E]. injection E as -> _. exfalso.
    assert (Ht : HasPrefix (String "-" g) "-" = true) by (apply HasPrefix_spec; by exists g). congruence. }
  assert (H1 : resolveCommand table (spec_id s :: rest) = Ok (s, rest)).
  { rewrite HB by done. apply walk_leaf; [done|done|by left]. }
  destruct Ha as [-> | ->]; [|done].
  destruct (path_shape s Hs) as [(w & Hp & _ & Hid)|(g & w & p & Hp & Hg' & [Hw _] & _ & Hin & Hpp)].
  { rewrite Hp. cbn [app]. by rewrite <- Hid. }
  rewrite Hp. cbn [app]. assert (Hid : spec_id p = g) by (unfold spec_id; rewrite Hpp; done).
  rewrite <- Hid, HB by (rewrite ?Hid; by try apply Hg'). cbn [walk]. rewrite Hw, Hid.
  assert (Hf : follows g p w s) by (split_and!; [done|by rewrite Hp|rewrite Hp, Hpp; done|rewrite Hp, Hpp; done]).
  destruct (next_exists _ _ _ _ Hf) as [n Hn]. rewrite Hn.
  apply next_some in Hn. destruct (follows_child _ _ _ _ Hin Hn ltac:(by left)) as [_ Hpn]. destruct Hn as (Hnin & _).
  assert (n = s) as -> by (apply same_id; [done|done|]; unfold spec_id; by rewrite Hpn, Hp).
  apply walk_leaf; [done|done|right; by rewrite Hp].
Qed.
End resolver.

(** ** Help is no argument *)
Lemma is_help_long body : is_help ("--" +:+ body) = true → body = "help".
Proof.
  unfold is_help. intros [H|H]%orb_true_iff; apply seqb_true in H; [discriminate H|].
  change "--help" with ("--" +:+ "help") in H. by apply string_app_inj_l in H.
Qed.

Lemma flag_declared s found value name :
  no_help s = true → (∀ fs, found = Some fs → fs ∈ c_flags s) → declared found value name →
  name ≠ "help" ∧ ∃ fs, found = Some fs ∧ fl_short fs ≠ "h".
Proof.
  unfold no_help. intros Hn Hin (fs & Hf & _ & _ & <-). rewrite forallb_forall in Hn.
  specialize (Hn fs). rewrite <- list_elem_of_In in Hn. specialize (Hn (Hin fs Hf)).
  apply andb_true_iff in Hn as [H1%negb_true_iff%seqb_false H2%negb_true_iff%seqb_false]. split; [done|]. by exists fs.
Qed.

Lemma inline_not_help name v : flag_word name → is_help ("--" +:+ name +:+ "=" +:+ v) = false.
Proof.
  intros [_ Hn]. destruct (is_help _) eqn:E; [|done]. apply is_help_long in E.
  apply (f_equal bytes_of) in E. rewrite !bytes_of_app in E. exfalso.
  assert (Hin : "="%char ∈ bytes_of "help") by (rewrite <- E; apply elem_of_app; right; cbn; by left).
  cbn in Hin. repeat (apply elem_of_cons in Hin as [Hin|Hin]; [discriminate Hin|]). by apply elem_of_nil in Hin.
Qed.

Lemma item_not_help s i : no_help s = true → item_ok s i → hasHelpFlag (item_tokens i) = false.
Proof.
  intros Hn Hi.
  assert (HL : ∀ name fs, longFlag s name = Some fs → fs ∈ c_flags s).
  { intros name fs [Hin _]%find_some. by apply list_elem_of_In. }
  assert (HW : ∀ name value, declared (longFlag s name) value name → is_help ("--" +:+ name) = false).
  { intros name value Hd. destruct (is_help _) eqn:E; [|done]. apply is_help_long in E.
    by destruct (flag_declared s _ _ _ Hn (HL name) Hd). }
  assert (HV : ∀ v, HasPrefix v "-" = false → is_help v = false).
  { intros v Hv. destruct (is_help v) eqn:E; [|done]. unfold is_help in E.
    by apply orb_true_iff in E as [E%seqb_true|E%seqb_true]; subst. }
  destruct i as [a|name v|name v|name|name b|ch]; cbn [item_tokens hasHelpFlag existsb]; cbn in Hi; rewrite ?orb_false_r.
  - unfold positional in Hi. apply orb_true_iff in Hi as [Hi%negb_true_iff|Hi%seqb_true]; [by apply HV|by subst].
  - destruct Hi as [Hw _]. by apply inline_not_help.
  - destruct Hi as (Hw & Hd & Hv). by rewrite (HW _ _ Hd), (HV _ Hv).
  - destruct Hi as [_ Hd]. by apply (HW _ _ Hd).
  - destruct Hi as [Hw _]. by apply inline_not_help.
  - destruct Hi as (Hl & Hne & name & Hd). destruct (is_help _) eqn:E; [|done].
    destruct (flag_declared s _ _ _ Hn ltac:(intros fs [Hin _]%find_some; by apply list_elem_of_In) Hd) as (_ & fs & Hf & Hs).
    apply find_some in Hf as [_ [_ Hf%seqb_true]%andb_true_iff]. unfold is_help in E.
    apply orb_true_iff in E as [E|E]; apply seqb_true in E.
    + change "-h" with ("-" +:+ "h") in E. apply string_app_inj_l in E. congruence.
    + change "--help" with ("-" +:+ "-help") in E. apply string_app_inj_l in E. by subst.
Qed.

Lemma invocation_not_help s args f : no_help s = true → invocation s args f → hasHelpFlag args = false.
Proof.
  intros Hn [(items & -> & Hok & _) _ _]. induction Hok as [|i items Hi Hok IH]; [done|].
  cbn [mbind list_bind]. unfold hasHelpFlag. rewrite existsb_app.
  apply orb_false_iff. split; [by apply (item_not_help s)|exact IH].
Qed.

(** ** Global flags *)
Inductive global_item :=
  | Quiet (long : bool)
  | Verbose (more : nat)
  | LevelInline (l : string)
  | LevelNext (l : string)
  | Word (w : string).

Definition global_tokens (i : global_item) : list string :=
  match i with
  | Quiet long => [if long then "--quiet" else "-q"]
  | Verbose more => [of_bytes ("-"%char :: replicate (S more) "v"%char)]
  | LevelInline l => [level_prefix +:+ l]
  | LevelNext l => ["--log-level"; l]
  | Word w => [w]
  end.

(** A word that is no global flag. *)
Definition plain_word (w : string) : Prop :=
  w ≠ "--quiet" ∧ w ≠ "-q" ∧ is_verbose w = false ∧ HasPrefix w level_prefix = false ∧ w ≠ "--log-level".
Definition global_ok (i : global_item) : Prop := match i with Word w => plain_word w | _ => True end.
Definition global_word (i : global_item) : option string := match i with Word w => Some w | _ => None end.

Definition add_global (g : globals) (i : global_item) : globals :=
  match i with
  | Quiet _ => mkGlobals true (g_verbosity g) (g_level g)
  | Verbose more => mkGlobals (g_quiet g) (g_verbosity g + (1 + Z.of_nat more)) (g_level g)
  | LevelInline l | LevelNext l => mkGlobals (g_quiet g) (g_verbosity g) l
  | Word _ => g
  end.
Definition no_globals : globals := mkGlobals false 0 "".

Lemma verbose_shape arg : is_verbose arg = true ↔ ∃ more, arg = of_bytes ("-"%char :: replicate (S more) "v"%char).
Proof.
  unfold is_verbose. split.
  - destruct (bytes_of arg) as [|c [|d r]] eqn:E; [done|done|]. intros [->%bool_decide_eq_true Hv]%andb_true_iff.
    exists (length r). apply bytes_of_inj. rewrite bytes_of_of, E. f_equal.
    symmetry. apply replicate_as_elem_of.
    split; [done|]. intros x Hx. rewrite forallb_forall in Hv. apply list_elem_of_In in Hx. by apply Hv, bool_decide_eq_true in Hx.
  - intros [more ->]. rewrite bytes_of_of. cbn [replicate]. apply andb_true_iff. split; [done|].
    apply (forallb_forall _ (replicate (S more) "v"%char)). intros x Hx. apply list_elem_of_In, elem_of_replicate in Hx as [-> _]. done.
Qed.

Lemma loop_word g clean w rest : plain_word w → global_loop g clean (w :: rest) = global_loop g (clean ++ [w]) rest.
Proof.
  intros (H1 & H2 & H3 & H4 & H5). cbn [global_loop].
  by rewrite (proj2 (seqb_false _ _) H1), (proj2 (seqb_false _ _) H2), H3, H4, (proj2 (seqb_false _ _) H5).
Qed.

Lemma loop_quiet g clean long rest :
  global_loop g clean (global_tokens (Quiet long) ++ rest) = global_loop (add_global g (Quiet long)) clean rest.
Proof. by destruct long. Qed.

Lemma loop_verbose g clean more rest :
  global_loop g clean (global_tokens (Verbose more) ++ rest) = global_loop (add_global g (Verbose more)) clean rest.
Proof.
  cbn [global_tokens app global_loop]. rewrite (proj2 (verbose_shape _)) by eauto.
  assert (Hl : slen (of_bytes ("-"%char :: replicate (S more) "v"%char)) - 1 = 1 + Z.of_nat more).
  { rewrite slen_of_bytes, llen_cons. unfold llen. rewrite length_replicate. lia. }
  rewrite Hl. by rewrite (proj2 (seqb_false _ "--quiet")), (proj2 (seqb_false _ "-q")) by (cbn; discriminate).
Qed.

Lemma loop_level g clean l rest :
  global_loop g clean (global_tokens (LevelInline l) ++ rest) = global_loop (add_global g (LevelInline l)) clean rest.
Proof.
  cbn [global_tokens app global_loop].
  rewrite (proj2 (seqb_false _ "--quiet")), (proj2 (seqb_false _ "-q")) by (cbn; discriminate).
  rewrite (proj2 (HasPrefix_spec (level_prefix +:+ l) _)) by (by eexists). rewrite tail_of_app. reflexivity.
Qed.

Lemma global_complete gs g clean :
  Forall global_ok gs →
  global_loop g clean (gs ≫= global_tokens) = Ok (clean ++ omap global_word gs, foldl add_global g gs).
Proof.
  revert g clean. induction gs as [|i gs IH]; intros g clean Hok; [by rewrite app_nil_r|].
  apply Forall_cons in Hok as [Hi Hok]. cbn [mbind list_bind foldl].
  destruct i as [long|more|l|l|w]; cbn [omap list_omap global_word].
  - by rewrite loop_quiet, IH.
  - by rewrite loop_verbose, IH.
  - by rewrite loop_level, IH.
  - change (global_tokens (LevelNext l) ++ mbind global_tokens gs) with ("--log-level" :: l :: mbind global_tokens gs).
    change (global_loop g clean ("--log-level" :: l :: mbind global_tokens gs))
      with (global_loop (add_global g (LevelNext l)) clean (mbind global_tokens gs)). by rewrite IH.
  - cbn [global_tokens app]. rewrite loop_word by done. rewrite IH by done. by rewrite <- app_assoc.
Qed.

(** Every token is a global flag of its own, starts one, or is a word. *)
Lemma token_shape arg :
  (∃ i, global_tokens i = [arg] ∧ global_ok i ∧ ∀ g clean rest,
        global_loop g clean (arg :: rest) =
        global_loop (add_global g i) (clean ++ match global_word i with Some w => [w] | None => [] end) rest) ∨
  arg = "--log-level".
Proof.
  destruct (decide (arg = "--quiet")) as [->|H1]; [left; exists (Quiet true); split_and!; [done..|intros; by rewrite app_nil_r]|].
  destruct (decide (arg = "-q")) as [->|H2]; [left; exists (Quiet false); split_and!; [done..|intros; by rewrite app_nil_r]|].
  destruct (is_verbose arg) eqn:Ev.
  { left. apply verbose_shape in Ev as [more ->]. exists (Verbose more). split_and!; [done..|].
    intros. rewrite app_nil_r. apply loop_verbose. }
  destruct (HasPrefix arg level_prefix) eqn:El.
  { left. apply HasPrefix_spec in El as [l ->]. exists (LevelInline l). split_and!; [done..|].
    intros. rewrite app_nil_r. apply loop_level. }
  destruct (decide (arg = "--log-level")) as [->|H3]; [by right|left].
  assert (Hw : plain_word arg) by (by split_and!).
  exists (Word arg). split_and!; [done..|]. intros. by apply loop_word.
Qed.

Lemma global_sound args g clean clean' g' :
  global_loop g clean args = Ok (clean', g') →
  ∃ gs, args = gs ≫= global_tokens ∧ Forall global_ok gs ∧ clean' = clean ++ omap global_word gs ∧ g' = foldl add_global g gs.
Proof.
  assert (Hlt : (length args < S (length args))%nat) by lia. revert Hlt. generalize (S (length args)) as k. intros k.
  revert g clean args. induction k as [|k IH]; [lia|]. intros g clean [|arg rest] Hlen Hp.
  { apply Ok_inj in Hp. injection Hp as <- <-. exists []. rewrite app_nil_r. split_and!; [done|by constructor|done|done]. }
  cbn [length] in Hlen. destruct (token_shape arg) as [(i & Ht & Hi & Hl)| ->].
  - rewrite Hl in Hp. apply IH in Hp as (gs & -> & Hok & -> & ->); [|lia]. exists (i :: gs).
    split_and!; [cbn; by rewrite Ht|by constructor| |done]. rewrite <- app_assoc. cbn [omap list_omap].
    by destruct (global_word i).
  - destruct rest as [|l rest]; [done|]. change (global_loop g clean ("--log-level" :: l :: rest))
      with (global_loop (add_global g (LevelNext l)) clean rest) in Hp.
    apply IH in Hp as (gs & -> & Hok & -> & ->); [|cbn [length] in Hlen; lia]. exists (LevelNext l :: gs).
    split_and!; [done|by constructor|done|done].
Qed.

Lemma extract_exact args line g :
  extractGlobalFlags args = Ok (line, g) ↔
  ∃ gs, args = gs ≫= global_tokens ∧ Forall global_ok gs ∧ line = omap global_word gs ∧ g = foldl add_global no_globals gs ∧
    (g_level g = "" ∨ g_level g ∈ levels).
Proof.
  assert (HL : ∀ l, (l <>s "") && negb (mem_str l levels) = false ↔ l = "" ∨ l ∈ levels).
  { intros l. rewrite andb_false_iff, !negb_false_iff, seqb_true, mem_str_true. done. }
  unfold extractGlobalFlags. split.
  - intros He. apply bind_ok in He as ([c g'] & Hl & He). apply bind_ok in He as ([] & Hv%refuse_ok & He).
    apply Ok_inj in He. injection He as -> ->. apply global_sound in Hl as (gs & -> & Hok & -> & ->). exists gs.
    split_and!; [done|done|done|done|by apply HL].
  - intros (gs & -> & Hok & -> & -> & Hlev). change (mkGlobals false 0 "") with no_globals. rewrite global_complete by done.
    cbn [mbind res_bind app]. by rewrite (proj2 (HL _) Hlev).
Qed.

(** ** The whole command line *)
Lemma commands_well_formed : well_formed commands = true.
Proof. vm_compute. reflexivity. Qed.

(** A command line: global flags anywhere between the words of a command and its
    invocation. The path of a command may also be quoted as one word. *)
Record command_line (args : list string) (g : globals) (s : commandSpec) (f : flags) : Prop := {
  cl_globals : ∃ gs rest, args = gs ≫= global_tokens ∧ Forall global_ok gs ∧ g = foldl add_global no_globals gs ∧
                 (omap global_word gs = c_path s ++ rest ∨ omap global_word gs = spec_id s :: rest) ∧ invocation s rest f;
  cl_level : g_level g = "" ∨ g_level g ∈ levels;
  cl_leaf : s ∈ commands ∧ isGroup commands s = false }.

Lemma first_word s rest a line :
  s ∈ commands → (a :: line = c_path s ++ rest ∨ a :: line = spec_id s :: rest) →
  a ≠ "help" ∧ is_help a = false.
Proof.
  intros Hs Ha.
  assert (HH : ∀ x, HasPrefix x "-" = false → is_help x = false).
  { intros x Hx. destruct (is_help x) eqn:E; [|done]. unfold is_help in E.
    by apply orb_true_iff in E as [E%seqb_true|E%seqb_true]; subst. }
  destruct (path_shape commands commands_well_formed s Hs) as [(w & Hp & (H1 & _ & H3 & _) & Hid)|(g & w & p & Hp & (H1 & H2 & H3 & H4) & _ & Hid & _)];
    rewrite Hp, Hid in Ha.
  - destruct Ha as [[= -> _]|[= -> _]]; auto.
  - destruct Ha as [[= -> _]|[= -> _]]; [auto|]. destruct g as [|c g]; [done|]. split.
    + intros E. apply (f_equal (λ x, ContainsChar x " "%char)) in E. change (ContainsChar "help" " "%char) with false in E.
      apply ContainsChar_false in E. apply E. rewrite !bytes_of_app. apply elem_of_app. right. by left.
    + apply HH. destruct (HasPrefix (String c g +:+ " " +:+ w) "-") eqn:E; [|done].
      apply HasPrefix_spec in E as [r E]. injection E as -> _. exfalso.
      assert (Ht : HasPrefix (String "-" g) "-" = true) by (apply HasPrefix_spec; by exists g). congruence.
Qed.

Lemma plan_exact args g s f : Run_plan commands args = Ok (g, Execute s f) ↔ command_line args g s f.
Proof.
  unfold Run_plan. split.
  - intros Hr. apply bind_ok in Hr as ([line g'] & Hx & Hr). apply extract_exact in Hx as (gs & -> & Hok & -> & -> & Hl).
    destruct (omap global_word gs) as [|a line] eqn:El; [done|].
    destruct (a =s "help"); [destruct line; [done|]; apply bind_ok in Hr as ([s' r] & _ & Hr); by apply bind_ok in Hr as ([] & _ & Hr)|].
    destruct ((a =s "--help") || (a =s "-h")); [done|]. apply bind_ok in Hr as ([s' rest] & Hres & Hr).
    destruct (hasHelpFlag rest); [done|]. apply bind_ok in Hr as (f' & Hp & Hr). apply Ok_inj in Hr. injection Hr as <- <- <-.
    apply parse_exact in Hp as [Hg Hinv]. apply (resolve_sound commands commands_well_formed) in Hres as [Hs Hw].
    constructor; [|done|done]. exists gs, rest. rewrite El. done.
  - intros [(gs & rest & -> & Hok & -> & Hw & Hinv) Hl [Hs Hg]].
    rewrite (proj2 (extract_exact _ (omap global_word gs) (foldl add_global no_globals gs))) by (by exists gs).
    cbn [mbind res_bind].
    pose proof (resolve_complete commands commands_well_formed s rest _ Hs Hg Hw) as Hres.
    destruct (omap global_word gs) as [|a line] eqn:El; [done|].
    destruct (first_word s rest a line Hs Hw) as [Hh Hi]. rewrite (proj2 (seqb_false _ _) Hh).
    unfold is_help in Hi. rewrite orb_comm in Hi. rewrite Hi, Hres. cbn [mbind res_bind].
    assert (Hn : no_help s = true).
    { pose proof commands_well_formed as Hf. apply andb_true_iff in Hf as [[_ Hf]%andb_true_iff _].
      rewrite forallb_forall in Hf. apply Hf. by apply list_elem_of_In. }
    rewrite (invocation_not_help s rest f Hn Hinv), (proj2 (parse_exact commands s rest f)) by done. reflexivity.
Qed.

Lemma leaf_dispatched s : s ∈ commands → isGroup commands s = false → ∃ h, dispatch s = Ok h.
Proof.
  assert (HD : forallb (λ s, isGroup commands s || match dispatch s with Ok _ => true | Fail _ => false end) commands = true)
    by (vm_compute; reflexivity).
  intros Hs Hg. rewrite forallb_forall in HD. specialize (HD s). rewrite <- list_elem_of_In, Hg in HD. specialize (HD Hs).
  cbn [orb] in HD. destruct (dispatch s) as [h|]; [by exists h|done].
Qed.

(** C15: the command line accepts exactly the sentences of its grammar. [Run] reaches a
    handler with parsed arguments if and only if the tokens are global flags and the words
    of a declared command, followed by an invocation of it: declared flags, each at most
    once and in one of its forms, the required ones with a value, and the declared number of
    arguments, and it then passes on what the tokens say. Every command that is reached
    this way has a handler, and the required values are there for it. *)
Theorem command_line_exact :
  (∀ args g s f, Run_plan commands args = Ok (g, Execute s f) ↔ command_line args g s f) ∧
  (∀ args g s f, Run_plan commands args = Ok (g, Execute s f) →
     (∃ h, dispatch s = Ok h) ∧
     ∀ x, x ∈ c_flags s → fl_required x = true → ∃ v, required f (fl_name x) = Ok v ∧ f_values f !! fl_name x = Some v).
Proof.
  split; [exact plan_exact|]. intros args g s f Hr. apply plan_exact in Hr as [(gs & rest & _ & _ & _ & _ & [_ Hreq _]) _ [Hs Hg]].
  split; [by apply leaf_dispatched|]. intros x Hx Hq. destruct (Hreq x Hx Hq) as (v & Hv & Hne). exists v. split; [|done].
  unfold required. rewrite Hv. cbn. by rewrite (proj2 (seqb_false _ _) Hne).
Qed.

(** ** Samples *)
Definition sample_line : list string := ["-v"; "attach"; "http://127.0.0.1:80"; "--name=web"; "--quiet"; "-d"].
Definition attach_spec : commandSpec := hd (mkCommand [] "" "" [] 0 0 [] true) workflow_commands.
Definition sample_flags : flags := mkFlags {[ "name" := "web" ]} {[ "detach" := true ]} ["http://127.0.0.1:80"].

Lemma command_line_exact_witness :
  command_line sample_line (mkGlobals true 1 "") attach_spec sample_flags ∧ ∃ v, required sample_flags "name" = Ok v.
Proof.
  assert (Hr : Run_plan commands sample_line = Ok (mkGlobals true 1 "", Execute attach_spec sample_flags))
    by (vm_compute; reflexivity).
  destruct command_line_exact as [Hex Hreq]. split; [by apply Hex|].
  destruct (Hreq _ _ _ _ Hr) as [_ Hv].
  destruct (Hv (mkFlag "name" "" true true "" "friendly name for the Service and Pipe")) as (v & Hn & _);
    [by left|done|]. exists v. exact Hn.
Defined.
