(* ===== verification/Bundle.v ===== *)
(** * Bootstrap bundles

    [internal/reachability/bundle/bundle.go]: the signed binary description of a bootstrap
    node, its canonical bytes, signing, and the decoder that verifies it against pinned
    roots, with the bundle and the roots that the program embeds.

    Multiaddresses and peer identities are parsed by libraries: the class [Multiformats]
    has the two parsers, a parsed address is the list of its components. *)
From S2P Require Import Prelude GoStrings GoTime Credentials.
Open Scope Z_scope.

Record component := mkComponent { cp_Code : Z; cp_Value : string }.
Class Multiformats := {
  PeerIdentity : Type;
  peer_Decode : string → res PeerIdentity;
  NewMultiaddr : string → res (list component) }.

(** The protocol codes of the multiaddr table. *)
Definition P_P2P : Z := 421.
Definition P_CIRCUIT : Z := 290.

Definition KindBootstrap : string := "bootstrap".
Definition RoleBootstrap : string := "tubo.bootstrap.v1".
Definition Magic : string := "TUBN".
Definition MinVersion : Z := 1.
Definition MaxVersion : Z := 1.
Definition SignatureLen : Z := SignatureSize.
Definition MaxBundleSize : Z := Z.shiftl 16 10.
Definition MaxKindLen : Z := 64.
Definition MaxKeyIDLen : Z := 128.
Definition MaxPeerIDLen : Z := 128.
Definition MaxAddrLen : Z := 4096.
Definition MaxAddrs : Z := 64.

Definition malformed : error := wrapf ErrMalformed "malformed bootstrap bundle".
Definition malformed_at (what : string) : error := wrapf ErrMalformed ("malformed bootstrap bundle: " +:+ what).
Definition oversized : error := wrapf ErrOversized "bootstrap bundle exceeds size bound".
Definition duplicate_addrs : error := wrapf ErrDuplicateAddrs "bootstrap bundle repeats an address".
Definition invalid_validity : error := wrapf ErrInvalidValidity "bootstrap bundle validity window is invalid".

Record Root := mkRoot { rt_KeyID : string; rt_Role : string; rt_Public : string }.
Record Bundle := mkBundle {
  b_Version : Z; b_Kind : string; b_RootKeyID : string; b_PeerID : string; b_Addresses : list string;
  b_NotBefore : time; b_NotAfter : time }.

(** ** Fields on the wire *)

(** [binary.BigEndian] with [k] bytes: the low bits of [n]. *)
Fixpoint PutUint (k : nat) (n : Z) : list ascii :=
  match k with
  | O => []
  | S k => chr (Z.shiftr n (8 * Z.of_nat k)) :: PutUint k n
  end.
Definition Uint (l : list ascii) : Z := fold_left (λ acc c, acc * 256 + code c) l 0.

(** [int64] of a 64-bit pattern. *)
Definition Int64 (n : Z) : Z := if n <? 2 ^ 63 then n else n - 2 ^ 64.

Definition writeLen8 (value : string) : list ascii := PutUint 1 (slen value) ++ bytes_of value.
Definition writeLen16 (value : string) : list ascii := PutUint 2 (slen value) ++ bytes_of value.
Definition writeTime (t : time) : list ascii := PutUint 8 (unix_ns t).

(** The first [n] bytes of the rest. *)
Definition take_bytes (n : Z) (rest : list ascii) : res (list ascii * list ascii) :=
  if llen rest <? n then Fail malformed else Ok (take (Z.to_nat n) rest, drop (Z.to_nat n) rest).

Definition readLen (k : Z) (max : Z) (rest : list ascii) : res (string * list ascii) :=
  '(size, rest) ← take_bytes k rest;
  let n := Uint size in
  _ ← refuse (max <? n) oversized;
  '(value, rest) ← take_bytes n rest;
  Ok (of_bytes value, rest).
Definition readLen8 : Z → list ascii → res (string * list ascii) := readLen 1.
Definition readLen16 : Z → list ascii → res (string * list ascii) := readLen 2.

Definition readTime (rest : list ascii) : res (time * list ascii) :=
  '(value, rest) ← take_bytes 8 rest;
  Ok (mkTime (Int64 (Uint value)) 0, rest).

Section bundle.
Context `{Ed25519} `{Multiformats}.

(** The value of the last component for a peer. *)
Definition terminalP2P (value : list component) : res string :=
  let last := fold_left (λ last c, if cp_Code c =? P_P2P then cp_Value c else last) value "" in
  _ ← refuse (last =s "") (errorf "missing p2p component");
  _ ← peer_Decode last;
  Ok last.

Definition validateAddress (addr peerID : string) : res unit :=
  value ← relabel (NewMultiaddr addr) (malformed_at "address");
  embedded ← relabel (terminalP2P value) (malformed_at "address");
  refuse (embedded <>s peerID) (wrapf ErrIdentityMismatch "bootstrap bundle address does not match its peer identity").

(** ** Canonical bytes *)
Fixpoint write_addresses (peerID : string) (seen addrs : list string) : res (list ascii) :=
  match addrs with
  | [] => Ok []
  | addr :: addrs =>
      _ ← refuse (MaxAddrLen <? slen addr) (malformed_at "address length");
      _ ← refuse (mem_str addr seen) duplicate_addrs;
      _ ← validateAddress addr peerID;
      out ← write_addresses peerID (addr :: seen) addrs;
      Ok (writeLen16 addr ++ out)
  end.

Definition canonical (b : Bundle) : res (list ascii) :=
  _ ← refuse (b_Kind b <>s KindBootstrap) (malformed_at "kind");
  _ ← refuse ((b_Version b <? MinVersion) || (MaxVersion <? b_Version b)) (malformed_at "version");
  _ ← refuse ((b_RootKeyID b =s "") || (MaxKeyIDLen <? slen (b_RootKeyID b))) (malformed_at "root key id");
  _ ← refuse ((slen (b_PeerID b) =? 0) || (MaxPeerIDLen <? slen (b_PeerID b))) (malformed_at "peer id");
  _ ← relabel (peer_Decode (b_PeerID b)) (malformed_at "peer id");
  _ ← refuse (llen (b_Addresses b) =? 0) (wrapf ErrEmptyAddress "bootstrap bundle has no addresses");
  _ ← refuse (MaxAddrs <? llen (b_Addresses b)) (malformed_at "addresses");
  _ ← refuse (negb (After (b_NotAfter b) (b_NotBefore b))) invalid_validity;
  addrs ← write_addresses (b_PeerID b) [] (b_Addresses b);
  Ok (bytes_of Magic ++ PutUint 4 (b_Version b) ++ writeLen8 (b_Kind b) ++ writeLen8 (b_RootKeyID b)
      ++ writeLen8 (b_PeerID b) ++ PutUint 2 (llen (b_Addresses b)) ++ addrs
      ++ writeTime (b_NotBefore b) ++ writeTime (b_NotAfter b)).

Definition Sign (b : Bundle) (private : PrivateKey) : res (list ascii) :=
  unsigned ← canonical b;
  let sig := SignMsg private (of_bytes unsigned) in
  Ok (unsigned ++ PutUint 1 (slen sig) ++ bytes_of sig).

(** ** Decoding and verifying *)
Fixpoint read_addresses (peerID : string) (seen : list string) (count : nat) (rest : list ascii)
    : res (list string * list ascii) :=
  match count with
  | O => Ok ([], rest)
  | S count =>
      '(addr, rest) ← readLen16 MaxAddrLen rest;
      _ ← refuse (mem_str addr seen) duplicate_addrs;
      _ ← validateAddress addr peerID;
      '(addrs, rest) ← read_addresses peerID (addr :: seen) count rest;
      Ok (addr :: addrs, rest)
  end.

Definition parseUnsigned (rest : list ascii) : res (Bundle * list ascii) :=
  '(version, rest) ← take_bytes 4 rest;
  '(kind, rest) ← readLen8 MaxKindLen rest;
  '(root, rest) ← readLen8 MaxKeyIDLen rest;
  '(peerID, rest) ← readLen8 MaxPeerIDLen rest;
  _ ← refuse (kind <>s KindBootstrap) (malformed_at "kind");
  _ ← relabel (peer_Decode peerID) (malformed_at "peer id");
  '(count, rest) ← take_bytes 2 rest;
  _ ← refuse ((Uint count =? 0) || (MaxAddrs <? Uint count)) (malformed_at "address count");
  '(addrs, rest) ← read_addresses peerID [] (Z.to_nat (Uint count)) rest;
  '(then_, rest) ← readTime rest;
  '(after, rest) ← readTime rest;
  _ ← refuse (negb (After after then_)) invalid_validity;
  Ok (mkBundle (Uint version) kind root peerID addrs then_ after, rest).

Definition pinnedRoot (roots : list Root) (keyID : string) : option Root := List.find (λ r, rt_KeyID r =s keyID) roots.

Definition unpinned : error := wrapf ErrUnpinnedRoot "bootstrap bundle references an unpinned or wrong-role trust root".

Definition ParseVerify (raw : list ascii) (roots : list Root) (now : time) : res Bundle :=
  _ ← refuse (MaxBundleSize <? llen raw) oversized;
  _ ← refuse ((llen raw <? slen Magic) || negb (bool_decide (take (String.length Magic) raw = bytes_of Magic))) malformed;
  '(b, rest) ← parseUnsigned (drop (String.length Magic) raw);
  _ ← refuse (b_Version b <? MinVersion) (wrapf ErrDowngrade "bootstrap bundle version is below the minimum supported");
  _ ← refuse (MaxVersion <? b_Version b) (wrapf ErrUnknownVersion "bootstrap bundle version not supported");
  '(size, rest) ← take_bytes 1 rest;
  _ ← refuse (negb (Uint size =? SignatureLen)) malformed;
  '(sig, rest) ← take_bytes (Uint size) rest;
  _ ← refuse (negb (llen rest =? 0)) malformed;
  root ← need (pinnedRoot roots (b_RootKeyID b)) unpinned;
  _ ← refuse (rt_Role root <>s RoleBootstrap) unpinned;
  unsigned ← canonical b;
  _ ← refuse (negb (VerifyMsg (rt_Public root) (of_bytes unsigned) (of_bytes sig)))
        (wrapf ErrInvalidSignature "bootstrap bundle signature is invalid");
  _ ← refuse (Before now (b_NotBefore b)) (wrapf ErrNotYetValid "bootstrap bundle is not yet within its validity window");
  _ ← refuse (negb (Before now (b_NotAfter b))) (wrapf ErrExpired "bootstrap bundle validity window has expired");
  Ok b.
End bundle.

(** ** The embedded bundle

    [bootstrap_production.go] with the bytes of [production_bundle.bin]. *)
Definition MustProductionBundle : list ascii := map chr
  [84; 85; 66; 78; 0; 0; 0; 1; 9; 98; 111; 111; 116; 115; 116; 114; 97; 112; 27; 116; 117; 98;
   111; 45; 98; 111; 111; 116; 115; 116; 114; 97; 112; 45; 114; 111; 111; 116; 45; 50; 48; 50; 54; 45;
   48; 49; 52; 49; 50; 68; 51; 75; 111; 111; 87; 77; 50; 104; 71; 119; 122; 114; 74; 89; 71; 121;
   106; 85; 119; 116; 122; 114; 122; 76; 90; 117; 80; 87; 65; 109; 106; 105; 71; 56; 74; 101; 78; 77;
   53; 89; 89; 74; 78; 80; 101; 72; 76; 77; 69; 0; 2; 0; 88; 47; 100; 110; 115; 52; 47; 114;
   101; 108; 97; 121; 46; 116; 117; 98; 111; 46; 99; 108; 105; 99; 107; 47; 116; 99; 112; 47; 52; 48;
   48; 49; 47; 112; 50; 112; 47; 49; 50; 68; 51; 75; 111; 111; 87; 77; 50; 104; 71; 119; 122; 114;
   74; 89; 71; 121; 106; 85; 119; 116; 122; 114; 122; 76; 90; 117; 80; 87; 65; 109; 106; 105; 71; 56;
   74; 101; 78; 77; 53; 89; 89; 74; 78; 80; 101; 72; 76; 77; 69; 0; 86; 47; 105; 112; 52; 47;
   49; 55; 50; 46; 50; 51; 50; 46; 49; 56; 57; 46; 49; 54; 48; 47; 116; 99; 112; 47; 52; 48;
   48; 49; 47; 112; 50; 112; 47; 49; 50; 68; 51; 75; 111; 111; 87; 77; 50; 104; 71; 119; 122; 114;
   74; 89; 71; 121; 106; 85; 119; 116; 122; 114; 122; 76; 90; 117; 80; 87; 65; 109; 106; 105; 71; 56;
   74; 101; 78; 77; 53; 89; 89; 74; 78; 80; 101; 72; 76; 77; 69; 24; 207; 128; 113; 5; 108; 0;
   0; 25; 6; 192; 231; 48; 248; 0; 0; 64; 41; 219; 134; 92; 212; 157; 34; 20; 60; 207; 121; 162;
   237; 180; 155; 131; 230; 173; 0; 76; 155; 105; 180; 95; 64; 125; 13; 94; 42; 245; 190; 92; 224; 88;
   113; 211; 177; 55; 166; 120; 148; 200; 147; 239; 135; 97; 66; 97; 210; 118; 118; 255; 54; 121; 116; 122;
   53; 69; 244; 3; 81; 0; 166; 3].

Definition ProductionRoots : list Root :=
  [ mkRoot "tubo-bootstrap-root-2026-01" RoleBootstrap (of_bytes (map chr
      [42; 76; 88; 139; 124; 115; 70; 70; 199; 195; 17; 104; 133; 62; 42; 187;
   51; 59; 170; 18; 77; 28; 147; 155; 16; 242; 241; 238; 141; 177; 210; 42])) ].
