(* ===== verification/BundleProps.v ===== *)
(** * What a bootstrap bundle can say

    Readers and writers of the fields as formats: what is written is read back, and what was
    read is the writing of its value. The decoder of bundles accepts exactly the signed
    canonical bytes. *)
From S2P Require Import Prelude GoStrings GoTime Credentials CredentialFacts Bundle.
Open Scope Z_scope.

(** ** Formats *)
Class Format {A} (valid : A → Prop) (write : A → list ascii) (read : list ascii → res (A * list ascii)) : Prop := {
  read_write v rest : valid v → read (write v ++ rest) = Ok (v, rest);
  read_sound l v rest : read l = Ok (v, rest) → valid v ∧ l = write v ++ rest }.
#[export] Hint Mode Format - - - ! : typeclass_instances.

(** ** Integers *)
Lemma length_PutUint k n : length (PutUint k n) = k.
Proof. induction k as [|k IH]; [done|]. cbn. by rewrite IH. Qed.

Lemma Uint_cons c l : Uint (c :: l) = code c * 256 ^ llen l + Uint l.
Proof.
  assert (HF : ∀ m acc, fold_left (λ acc c, acc * 256 + code c) m acc = acc * 256 ^ llen m + Uint m).
  { induction m as [|d m IH] using rev_ind; intros acc; [change (acc = acc * 1 + 0); lia|].
    unfold Uint. rewrite !fold_left_app. cbn [fold_left]. rewrite IH, (IH 0). rewrite llen_app, llen_cons.
    change (llen (@nil ascii)) with 0. rewrite Z.pow_add_r by (unfold llen; lia). unfold Uint. lia. }
  unfold Uint at 1. cbn [fold_left]. rewrite HF. lia.
Qed.

Lemma Uint_range l : 0 ≤ Uint l < 256 ^ llen l.
Proof.
  induction l as [|c l IH]; [by vm_compute|]. rewrite Uint_cons, llen_cons, Z.pow_add_r by (unfold llen; lia).
  pose proof (code_range c). nia.
Qed.

Lemma Uint_PutUint k n : Uint (PutUint k n) = n mod 256 ^ Z.of_nat k.
Proof.
  induction k as [|k IH]; [cbn; by rewrite Z.mod_1_r|]. cbn [PutUint]. rewrite Uint_cons, IH. unfold llen. rewrite length_PutUint.
  rewrite code_chr, Z.shiftr_div_pow2 by lia. rewrite Z.pow_mul_r by lia. change (2 ^ 8) with 256.
  rewrite Nat2Z.inj_succ, Z.pow_succ_r, (Z.mul_comm 256 (256 ^ _)) by lia.
  assert (Hp : 0 < 256 ^ Z.of_nat k) by (apply Z.pow_pos_nonneg; lia).
  rewrite (Z.rem_mul_r n (256 ^ Z.of_nat k) 256) by lia. lia.
Qed.

Lemma PutUint_add k m a n : Z.of_nat k ≤ m → PutUint k (a * 256 ^ m + n) = PutUint k n.
Proof.
  induction k as [|k IH]; intros Hm; [done|]. cbn [PutUint]. rewrite IH by lia. f_equal. unfold chr.
  rewrite !Z.shiftr_div_pow2 by lia. rewrite Z.pow_mul_r by lia. change (2 ^ 8) with 256.
  replace m with ((m - Z.of_nat k - 1) + 1 + Z.of_nat k) by lia. rewrite !Z.pow_add_r by lia.
  rewrite Z.mul_assoc, Z.div_add_l by (apply Z.pow_nonzero; lia).
  do 2 f_equal. replace (a * (256 ^ (m - Z.of_nat k - 1) * 256 ^ 1)) with (a * 256 ^ (m - Z.of_nat k - 1) * 256) by lia.
  by rewrite Z.add_comm, Z.mod_add.
Qed.

Lemma PutUint_Uint l : PutUint (length l) (Uint l) = l.
Proof.
  induction l as [|c l IH]; [done|]. cbn [length PutUint]. rewrite Uint_cons. change (llen l) with (Z.of_nat (length l)).
  rewrite PutUint_add, IH by lia. f_equal. rewrite Z.shiftr_div_pow2, Z.pow_mul_r by lia. change (2 ^ 8) with 256.
  pose proof (Uint_range l) as Hr. change (llen l) with (Z.of_nat (length l)) in Hr.
  rewrite Z.div_add_l, Z.div_small, Z.add_0_r by (try apply Z.pow_nonzero; lia). apply chr_code.
Qed.

Lemma take_bytes_ok n rest a b :
  0 ≤ n → (take_bytes n rest = Ok (a, b) ↔ rest = a ++ b ∧ llen a = n).
Proof.
  intros Hn. unfold take_bytes, llen. destruct (Z.ltb_spec (Z.of_nat (length rest)) n) as [Hl|Hl].
  - split; [done|]. intros [-> Ha]. rewrite length_app in Hl. lia.
  - split.
    + intros [= <- <-]. rewrite take_drop. split; [done|]. rewrite length_take. lia.
    + intros [-> Ha]. replace (Z.to_nat n) with (length a) by lia. by rewrite take_app_length, drop_app_length.
Qed.

(** An unsigned field of [k] bytes. *)
#[export] Instance Uint_format k :
  Format (λ n, 0 ≤ n < 256 ^ Z.of_nat k) (PutUint k)
    (λ l, '(v, rest) ← take_bytes (Z.of_nat k) l; Ok (Uint v, rest)).
Proof.
  split.
  - intros n rest Hn. cbv beta. rewrite (proj2 (take_bytes_ok _ _ (PutUint k n) rest (Nat2Z.is_nonneg k)))
      by (unfold llen; by rewrite length_PutUint).
    cbn [mbind res_bind]. by rewrite Uint_PutUint, Z.mod_small.
  - intros l n rest Hr. apply bind_ok in Hr as ([v r] & Ht & Hr). apply take_bytes_ok in Ht as [-> Hv]; [|lia].
    injection Hr as <- <-. pose proof (Uint_range v) as Hx. rewrite Hv in Hx. split; [done|].
    unfold llen in Hv. apply Nat2Z.inj in Hv as <-. by rewrite PutUint_Uint.
Qed.

Lemma read_uint k l v rest : take_bytes (Z.of_nat k) l = Ok (v, rest) → 0 ≤ Uint v < 256 ^ Z.of_nat k ∧ l = PutUint k (Uint v) ++ rest.
Proof.
  intros Ht. apply (read_sound (Format := Uint_format k)). by rewrite Ht.
Qed.

(** A text behind its length. *)
Definition writeLen (k : nat) (value : string) : list ascii := PutUint k (slen value) ++ bytes_of value.
#[export] Instance Len_format k max :
  (0 ≤ max < 256 ^ Z.of_nat k) → Format (λ s, slen s ≤ max) (writeLen k) (readLen (Z.of_nat k) max).
Proof.
  intros Hmax. split.
  - intros s rest Hs. unfold readLen, writeLen. rewrite <- app_assoc.
    rewrite (proj2 (take_bytes_ok _ _ (PutUint k (slen s)) (bytes_of s ++ rest) (Nat2Z.is_nonneg k)))
      by (unfold llen; by rewrite length_PutUint).
    cbn [mbind res_bind]. cbv zeta. rewrite Uint_PutUint, Z.mod_small by (pose proof (slen_nonneg s); lia).
    rewrite (proj2 (Z.ltb_ge max (slen s)) Hs). cbn [refuse mbind res_bind].
    rewrite (proj2 (take_bytes_ok _ _ (bytes_of s) rest (slen_nonneg s))) by (by rewrite slen_bytes).
    cbn [mbind res_bind]. by rewrite of_bytes_of.
  - intros l s rest Hr. unfold readLen in Hr. apply bind_ok in Hr as ([size r] & Ht & Hr). cbv zeta in Hr.
    apply read_uint in Ht as [Hn ->]. apply bind_ok in Hr as ([] & Hm%refuse_ok%Z.ltb_ge & Hr).
    apply bind_ok in Hr as ([v r'] & Hv & Hr). apply take_bytes_ok in Hv as [-> Hv]; [|lia]. injection Hr as <- <-.
    unfold writeLen. rewrite slen_of_bytes, Hv, bytes_of_of, app_assoc. split; [lia|done].
Qed.

(** An instant in UTC whose nanoseconds have 64 bits. *)
Definition wire_time (t : time) : Prop := zone t = 0 ∧ - 2 ^ 63 ≤ unix_ns t < 2 ^ 63.

#[export] Instance Time_format : Format wire_time writeTime readTime.
Proof.
  assert (HI : ∀ n, - 2 ^ 63 ≤ n < 2 ^ 63 → Int64 (n mod 2 ^ 64) = n).
  { intros n Hn. unfold Int64. destruct (Z.lt_ge_cases n 0) as [Hneg|Hpos].
    - replace (n mod 2 ^ 64) with (n + 2 ^ 64); [destruct (Z.ltb_spec (n + 2 ^ 64) (2 ^ 63)); lia|].
      apply (Z.mod_unique _ _ (-1)); lia.
    - rewrite Z.mod_small by lia. destruct (Z.ltb_spec n (2 ^ 63)); lia. }
  split.
  - intros t rest [Hz Hn]. unfold readTime, writeTime.
    rewrite (proj2 (take_bytes_ok 8 _ (PutUint 8 (unix_ns t)) rest ltac:(lia))) by (split; [done|by vm_compute]).
    cbn [mbind res_bind]. rewrite Uint_PutUint. change (256 ^ Z.of_nat 8) with (2 ^ 64). rewrite HI by done.
    by destruct t; cbn in Hz; subst.
  - intros l t rest Hr. apply bind_ok in Hr as ([v r] & Ht & Hr). injection Hr as <- <-.
    apply (read_uint 8) in Ht as [Hn ->]. change (256 ^ Z.of_nat 8) with (2 ^ 64) in Hn. unfold writeTime, wire_time.
    cbn [unix_ns zone]. unfold Int64. destruct (Z.ltb_spec (Uint v) (2 ^ 63)) as [Hl|Hl]; (split; [lia|]); [done|].
    f_equal. replace (Uint v) with (1 * 256 ^ 8 + (Uint v - 2 ^ 64)) at 1 by (change (256 ^ 8) with (2 ^ 64); lia).
    apply PutUint_add. lia.
Qed.

Definition Len8 : ∀ max, 0 ≤ max < 256 → Format (λ s, slen s ≤ max) writeLen8 (readLen8 max) := Len_format 1.
Definition Len16 : ∀ max, 0 ≤ max < 65536 → Format (λ s, slen s ≤ max) writeLen16 (readLen16 max) := Len_format 2.

Section bundle.
Context `{Ed25519} `{Multiformats}.

(** ** Addresses *)
Lemma read_addresses_exact peerID seen n l addrs rest :
  read_addresses peerID seen n l = Ok (addrs, rest) ↔
  ∃ out, write_addresses peerID seen addrs = Ok out ∧ l = out ++ rest ∧ length addrs = n.
Proof.
  pose proof (Len16 MaxAddrLen ltac:(by vm_compute)) as HF.
  revert seen l addrs rest. induction n as [|n IH]; intros seen l addrs rest; cbn [read_addresses].
  { split; [intros [= <- <-]; by exists []|]. intros (out & Hw & -> & Hl%nil_length_inv). subst addrs.
    by injection Hw as <-. }
  split.
  - intros Hr. apply bind_ok in Hr as ([addr r] & Ha & Hr). apply (read_sound (Format := HF)) in Ha as [Hl ->].
    apply bind_ok in Hr as ([] & Hd%refuse_ok & Hr). apply bind_ok in Hr as ([] & Hv & Hr).
    apply bind_ok in Hr as ([as_ r'] & Hrest & Hr). injection Hr as <- <-.
    apply IH in Hrest as (out & Hw & -> & Hn). exists (writeLen16 addr ++ out). cbn [write_addresses length].
    rewrite (proj2 (Z.ltb_ge _ _) Hl), Hd, Hv. cbn [refuse mbind res_bind]. rewrite Hw. split_and!; [done| |by rewrite Hn].
    by rewrite <- app_assoc.
  - intros (out & Hw & -> & Hn). destruct addrs as [|addr addrs]; [done|]. cbn [write_addresses] in Hw.
    apply bind_ok in Hw as ([] & Hl%refuse_ok%Z.ltb_ge & Hw). apply bind_ok in Hw as ([] & Hd%refuse_ok & Hw).
    apply bind_ok in Hw as ([] & Hv & Hw). apply bind_ok in Hw as (o & Hw & E). apply Ok_inj in E as <-.
    rewrite <- app_assoc, (read_write (Format := HF)) by done. cbn [mbind res_bind]. rewrite Hd, Hv. cbn [refuse mbind res_bind].
    rewrite (proj2 (IH (addr :: seen) (o ++ rest) addrs rest)); [done|]. exists o. cbn in Hn. split_and!; [done|done|lia].
Qed.

(** ** The unsigned bytes *)
Record canonical_as (b : Bundle) (u addrs : list ascii) : Prop := {
  ca_kind : b_Kind b = KindBootstrap;
  ca_version : b_Version b = 1;
  ca_root : 0 < slen (b_RootKeyID b) ≤ MaxKeyIDLen;
  ca_peer : 0 < slen (b_PeerID b) ≤ MaxPeerIDLen ∧ ∃ id, peer_Decode (b_PeerID b) = Ok id;
  ca_count : 0 < llen (b_Addresses b) ≤ MaxAddrs;
  ca_window : unix_ns (b_NotBefore b) < unix_ns (b_NotAfter b);
  ca_addrs : write_addresses (b_PeerID b) [] (b_Addresses b) = Ok addrs;
  ca_bytes : u = bytes_of Magic ++ PutUint 4 (b_Version b) ++ writeLen8 (b_Kind b) ++ writeLen8 (b_RootKeyID b)
      ++ writeLen8 (b_PeerID b) ++ PutUint 2 (llen (b_Addresses b)) ++ addrs
      ++ writeTime (b_NotBefore b) ++ writeTime (b_NotAfter b) }.

Lemma canonical_exact b u : canonical b = Ok u ↔ ∃ addrs, canonical_as b u addrs.
Proof.
  unfold canonical. split.
  - intros Hc. apply bind_ok in Hc as ([] & Hk%refuse_ok%negb_false_iff%seqb_true & Hc).
    apply bind_ok in Hc as ([] & Hv%refuse_ok & Hc). apply bind_ok in Hc as ([] & Hr%refuse_ok & Hc).
    apply bind_ok in Hc as ([] & Hp%refuse_ok & Hc). apply bind_ok in Hc as (id & Hd%relabel_ok & Hc).
    apply bind_ok in Hc as ([] & Hn%refuse_ok & Hc). apply bind_ok in Hc as ([] & Hm%refuse_ok & Hc).
    apply bind_ok in Hc as ([] & Hw%refuse_ok%negb_false_iff & Hc). apply bind_ok in Hc as (addrs & Ha & Hc).
    apply Ok_inj in Hc as <-. apply orb_false_elim in Hr as [Hr0%seqb_false Hr]. unfold After in Hw.
    rewrite <- slen_zero in Hr0. pose proof (slen_nonneg (b_RootKeyID b)). pose proof (slen_nonneg (b_PeerID b)).
    assert (0 ≤ llen (b_Addresses b)) by (unfold llen; lia).
    exists addrs. constructor; try done; unfold MinVersion, MaxVersion in *; try lia. split; [lia|by exists id].
  - intros (addrs & [Hk Hv [Hr0 Hr] [[Hp0 Hp] [id Hd]] [Hc0 Hc] Hw Ha ->]).
    rewrite Hk, Hv. cbn [refuse mbind res_bind negb]. rewrite seqb_refl. cbn [refuse mbind res_bind negb].
    rewrite (proj2 (seqb_false _ "")) by (intros E; rewrite E in Hr0; by vm_compute in Hr0).
    rewrite (proj2 (Z.ltb_ge _ _) Hr), (proj2 (Z.eqb_neq (slen (b_PeerID b)) 0)), (proj2 (Z.ltb_ge _ _) Hp) by lia.
    cbn [refuse mbind res_bind orb]. rewrite Hd. cbn [relabel mbind res_bind].
    rewrite (proj2 (Z.eqb_neq (llen (b_Addresses b)) 0)), (proj2 (Z.ltb_ge _ _) Hc) by lia. cbn [refuse mbind res_bind].
    unfold After. rewrite (proj2 (Z.ltb_lt _ _) Hw). cbn [refuse mbind res_bind negb]. by rewrite Ha.
Qed.

Definition wire_window (b : Bundle) : Prop := wire_time (b_NotBefore b) ∧ wire_time (b_NotAfter b).

(** What is parsed is the canonical text. *)
Lemma parse_canonical b u rest :
  canonical b = Ok u → wire_window b →
  ∃ l, u = bytes_of Magic ++ l ∧ parseUnsigned (l ++ rest) = Ok (b, rest).
Proof.
  intros (addrs & [Hk Hv Hr [Hp [id Hd]] Hc Hw Ha ->])%canonical_exact [Ht1 Ht2]. eexists. split; [reflexivity|].
  unfold parseUnsigned. rewrite <- !app_assoc.
  rewrite (proj2 (take_bytes_ok 4 _ (PutUint 4 (b_Version b)) _ ltac:(lia))) by (split; [reflexivity|by vm_compute]).
  cbn [mbind res_bind].
  rewrite (read_write (Format := Len8 MaxKindLen ltac:(by vm_compute))) by (rewrite Hk; by vm_compute). cbn [mbind res_bind].
  rewrite (read_write (Format := Len8 MaxKeyIDLen ltac:(by vm_compute))) by apply Hr. cbn [mbind res_bind].
  rewrite (read_write (Format := Len8 MaxPeerIDLen ltac:(by vm_compute))) by apply Hp. cbn [mbind res_bind].
  rewrite Hk, seqb_refl, Hd. cbn [negb refuse relabel mbind res_bind].
  rewrite (proj2 (take_bytes_ok 2 _ (PutUint 2 (llen (b_Addresses b))) _ ltac:(lia))) by (split; [reflexivity|by vm_compute]).
  cbn [mbind res_bind]. rewrite (Uint_PutUint 2), Z.mod_small by (unfold MaxAddrs in Hc; change (256 ^ Z.of_nat 2) with 65536; lia).
  rewrite (proj2 (Z.eqb_neq (llen (b_Addresses b)) 0)), (proj2 (Z.ltb_ge _ _) (proj2 Hc)) by lia. cbn [orb refuse mbind res_bind].
  rewrite (proj2 (read_addresses_exact (b_PeerID b) [] _ _ (b_Addresses b) _))
    by (exists addrs; split_and!; [exact Ha|reflexivity|unfold llen; lia]). cbn [mbind res_bind].
  do 2 (rewrite (read_write (Format := Time_format)) by done; cbn [mbind res_bind]).
  unfold After. rewrite (proj2 (Z.ltb_lt _ _) Hw). cbn [negb refuse mbind res_bind].
  rewrite Uint_PutUint, Hv. change (1 mod 256 ^ Z.of_nat 4) with 1. by destruct b; cbn in *; subst.
Qed.

(** The canonical text of what was parsed is what was parsed from. *)
Lemma canonical_parse l b u rest :
  parseUnsigned l = Ok (b, rest) → canonical b = Ok u → bytes_of Magic ++ l = u ++ rest ∧ wire_window b.
Proof.
  intros Hp (addrs & [_ _ _ _ _ _ Ha ->])%canonical_exact. unfold parseUnsigned in Hp.
  apply bind_ok in Hp as ([v r1] & Hv & Hp). apply (read_uint 4) in Hv as [_ ->].
  apply bind_ok in Hp as ([kind r2] & Hk & Hp). apply (read_sound (Format := Len8 MaxKindLen ltac:(by vm_compute))) in Hk as [_ ->].
  apply bind_ok in Hp as ([root r3] & Hr & Hp). apply (read_sound (Format := Len8 MaxKeyIDLen ltac:(by vm_compute))) in Hr as [_ ->].
  apply bind_ok in Hp as ([peer r4] & Hr & Hp). apply (read_sound (Format := Len8 MaxPeerIDLen ltac:(by vm_compute))) in Hr as [_ ->].
  apply bind_ok in Hp as ([] & _ & Hp). apply bind_ok in Hp as (id & _ & Hp).
  apply bind_ok in Hp as ([c r5] & Hc & Hp). apply (read_uint 2) in Hc as [Hc ->].
  apply bind_ok in Hp as ([] & _ & Hp). apply bind_ok in Hp as ([as_ r6] & Has & Hp).
  apply read_addresses_exact in Has as (out & Hout & -> & Hn).
  apply bind_ok in Hp as ([t1 r7] & Ht1 & Hp). apply (read_sound (Format := Time_format)) in Ht1 as [Hw1 ->].
  apply bind_ok in Hp as ([t2 r8] & Ht2 & Hp). apply (read_sound (Format := Time_format)) in Ht2 as [Hw2 ->].
  apply bind_ok in Hp as ([] & _ & Hp). injection Hp as <- <-. cbn [b_PeerID b_Addresses b_Version b_Kind b_RootKeyID b_NotBefore b_NotAfter] in *.
  rewrite Hout in Ha. injection Ha as ->. replace (llen as_) with (Uint c) by (unfold llen; lia).
  split; [by rewrite <- !app_assoc|done].
Qed.

(** ** Verification *)
Record verified (raw : list ascii) (roots : list Root) (now : time) (b : Bundle) : Prop := {
  vb_bytes : ∃ unsigned sig root, canonical b = Ok unsigned ∧
    raw = unsigned ++ PutUint 1 SignatureLen ++ bytes_of sig ∧ slen sig = SignatureLen ∧
    pinnedRoot roots (b_RootKeyID b) = Some root ∧ rt_Role root = RoleBootstrap ∧
    VerifyMsg (rt_Public root) (of_bytes unsigned) sig = true;
  vb_size : llen raw ≤ MaxBundleSize;
  vb_window : unix_ns (b_NotBefore b) ≤ unix_ns now < unix_ns (b_NotAfter b);
  vb_wire : wire_window b }.

Lemma verify_sound raw roots now b : ParseVerify raw roots now = Ok b → verified raw roots now b.
Proof.
  unfold ParseVerify. intros Hv. apply bind_ok in Hv as ([] & Hs%refuse_ok%Z.ltb_ge & Hv).
  apply bind_ok in Hv as ([] & Hm%refuse_ok & Hv). apply orb_false_elim in Hm as [_ Hm%negb_false_iff%bool_decide_eq_true].
  apply bind_ok in Hv as ([b' rest] & Hp & Hv). apply bind_ok in Hv as ([] & _ & Hv). apply bind_ok in Hv as ([] & _ & Hv).
  apply bind_ok in Hv as ([size r1] & Hz & Hv). apply (read_uint 1) in Hz as [_ ->].
  apply bind_ok in Hv as ([] & Hl%refuse_ok%negb_false_iff%Z.eqb_eq & Hv). rewrite Hl in *.
  apply bind_ok in Hv as ([sig r2] & Hsig & Hv). apply take_bytes_ok in Hsig as [-> Hsig]; [|by vm_compute].
  apply bind_ok in Hv as ([] & Hr%refuse_ok%negb_false_iff%Z.eqb_eq & Hv).
  apply bind_ok in Hv as (root & Hroot%need_ok & Hv). apply bind_ok in Hv as ([] & Hrole%refuse_ok%negb_false_iff%seqb_true & Hv).
  apply bind_ok in Hv as (u & Hu & Hv). apply bind_ok in Hv as ([] & Hver%refuse_ok%negb_false_iff & Hv).
  apply bind_ok in Hv as ([] & Hb%refuse_ok & Hv). apply bind_ok in Hv as ([] & Ha%refuse_ok%negb_false_iff & Hv).
  apply Ok_inj in Hv as <-. destruct (canonical_parse _ _ _ _ Hp Hu) as [Hraw Hw]. unfold Before in *.
  constructor; [|done|lia|done]. exists u, (of_bytes sig), root. rewrite slen_of_bytes, bytes_of_of.
  split_and!; [done| |done|done|done|done].
  destruct r2 as [|c r2]; [|rewrite llen_cons in Hr; unfold llen in Hr; lia]. rewrite app_nil_r in Hraw.
  rewrite <- Hraw, <- Hm. symmetry. apply take_drop.
Qed.

Lemma verify_complete raw roots now b : verified raw roots now b → ParseVerify raw roots now = Ok b.
Proof.
  intros [(u & sig & root & Hu & -> & Hl & Hroot & Hrole & Hver) Hs Hwin Hw].
  destruct (parse_canonical b u (PutUint 1 SignatureLen ++ bytes_of sig) Hu Hw) as (l & -> & Hp).
  pose proof Hu as Hu'. apply canonical_exact in Hu' as (addrs & [_ Hversion _ _ _ _ _ _]).
  unfold ParseVerify. rewrite (proj2 (Z.ltb_ge _ _) Hs). cbn [refuse mbind res_bind]. rewrite <- !app_assoc.
  change (String.length Magic) with (length (bytes_of Magic)). rewrite take_app_length, drop_app_length.
  rewrite bool_decide_eq_true_2 by done.
  rewrite (proj2 (Z.ltb_ge _ (slen Magic))) by (rewrite llen_app, slen_bytes; unfold llen; lia).
  cbn [orb negb refuse mbind res_bind]. rewrite Hp. cbn [mbind res_bind]. rewrite Hversion.
  change (1 <? MinVersion) with false. change (MaxVersion <? 1) with false. cbn [refuse mbind res_bind].
  rewrite (proj2 (take_bytes_ok 1 _ (PutUint 1 SignatureLen) (bytes_of sig) ltac:(lia))) by (split; [done|by vm_compute]).
  cbn [mbind res_bind]. change (Uint (PutUint 1 SignatureLen)) with SignatureLen. rewrite Z.eqb_refl.
  cbn [negb refuse mbind res_bind].
  rewrite (proj2 (take_bytes_ok SignatureLen _ (bytes_of sig) [] ltac:(by vm_compute))) by (by rewrite app_nil_r, <- slen_bytes).
  cbn [mbind res_bind]. change (llen (@nil ascii) =? 0) with true. cbn [negb refuse mbind res_bind].
  rewrite Hroot. cbn [need mbind res_bind]. rewrite Hrole, seqb_refl. cbn [negb refuse mbind res_bind].
  rewrite Hu. cbn [mbind res_bind]. rewrite of_bytes_of, Hver. cbn [negb refuse mbind res_bind].
  unfold Before. rewrite (proj2 (Z.ltb_ge _ _) (proj1 Hwin)), (proj2 (Z.ltb_lt _ _) (proj2 Hwin)). reflexivity.
Qed.
End bundle.

(** ** The embedded bundle *)
Definition production_peer : string := "12D3KooWM2hGwzrJYGyjUwtzrzLZuPWAmjiG8JeNM5YYJNPeHLME".
(** From 2026-08-27 to 2027-02-23. *)
Definition production_bundle : Bundle :=
  mkBundle 1 KindBootstrap "tubo-bootstrap-root-2026-01" production_peer
    ["/dns4/relay.tubo.click/tcp/4001/p2p/" +:+ production_peer; "/ip4/172.232.189.160/tcp/4001/p2p/" +:+ production_peer]
    (mkTime 1787788800000000000 0) (mkTime 1803340800000000000 0).

(** One step of a decoder on known bytes. *)
Ltac decode_step H :=
  let x := fresh in let r := fresh in let E := fresh in
  apply bind_ok in H as ([x r] & E & H); vm_compute in E; injection E as <- <-.
Ltac pass H := let x := fresh in apply bind_ok in H as (x & _ & H).

Lemma production_parse `{Multiformats} b rest :
  parseUnsigned (drop (String.length Magic) MustProductionBundle) = Ok (b, rest) → b = production_bundle.
Proof.
  intros Hp. unfold parseUnsigned in Hp. do 4 decode_step Hp. do 2 pass Hp. decode_step Hp. pass Hp.
  apply bind_ok in Hp as ([addrs r] & Ha & Hp). change (Z.to_nat _) with 2%nat in Ha. cbn [read_addresses] in Ha.
  decode_step Ha. do 2 pass Ha. apply bind_ok in Ha as ([addrs' r'] & Ha' & Ha). decode_step Ha'. do 2 pass Ha'.
  cbn [mbind res_bind] in Ha'. injection Ha' as <- <-. injection Ha as <- <-.
  do 2 decode_step Hp. pass Hp. by injection Hp as <- _.
Qed.

Lemma production_verified `{Ed25519} `{Multiformats} now b :
  ParseVerify MustProductionBundle ProductionRoots now = Ok b →
  b = production_bundle ∧ unix_ns (b_NotBefore production_bundle) ≤ unix_ns now < unix_ns (b_NotAfter production_bundle).
Proof.
  intros Hv. pose proof (vb_window _ _ _ _ (verify_sound _ _ _ _ Hv)) as Hw. unfold ParseVerify in Hv.
  do 2 pass Hv. apply bind_ok in Hv as ([b' rest] & Hp & Hv). apply production_parse in Hp as ->.
  do 2 pass Hv. apply bind_ok in Hv as ([x1 r1] & _ & Hv). pass Hv. apply bind_ok in Hv as ([x2 r2] & _ & Hv). do 7 pass Hv.
  apply Ok_inj in Hv as <-. done.
Qed.

(** C16: a bootstrap bundle is accepted exactly when its bytes, at most 16 KiB of them, are the
    canonical bytes of the returned bundle followed by a signature over them that verifies
    under the pinned root which the bundle names, a root of the bootstrap role, inside the
    window of the bundle, so that no second text stands for a bundle and nothing is left
    unread; and what [Sign] produced with the key of such a root, within the size and with
    instants of 64 bits, is accepted through its whole window as the bundle that was signed;
    and the bytes that the program embeds are accepted, if at all, as the one bundle for the
    relay [relay.tubo.click], and at no time outside the 180 days of its window. *)
Theorem bundle_exact :
  (∀ `{Ed25519} `{Multiformats} raw roots now b, ParseVerify raw roots now = Ok b ↔ verified raw roots now b) ∧
  (∀ `{Ed25519Laws} `{Multiformats} b k raw roots root now,
     Sign b k = Ok raw → wire_window b → llen raw ≤ MaxBundleSize →
     pinnedRoot roots (b_RootKeyID b) = Some root → rt_Role root = RoleBootstrap → rt_Public root = Public k →
     unix_ns (b_NotBefore b) ≤ unix_ns now < unix_ns (b_NotAfter b) →
     ParseVerify raw roots now = Ok b) ∧
  (∀ `{Ed25519} `{Multiformats} now b, ParseVerify MustProductionBundle ProductionRoots now = Ok b →
     b = production_bundle ∧ 1787788800 * Second ≤ unix_ns now < (1787788800 + 180 * 86400) * Second).
Proof.
  split; [intros; split; [apply verify_sound|apply verify_complete]|].
  split; [|intros E MF now b [-> Hw]%production_verified; by split].
  intros E L MF b k raw roots root now Hs Hw Hsz Hroot Hrole Hk Hwin. unfold Sign in Hs. apply bind_ok in Hs as (u & Hu & Hs).
  apply Ok_inj in Hs as <-. apply verify_complete. constructor; [|done|done|done].
  exists u, (SignMsg k (of_bytes u)), root. rewrite SignMsg_size. split_and!; try done.
  rewrite Hk. apply VerifyMsg_SignMsg.
Qed.
