(* ===== verification/Reachability.v ===== *)
(** * Reachability

    Relay addresses and connections of [internal/node/host.go] and the providers of
    [internal/reachability/reachability.go].

    A parsed address is the list of its components ([Multiformats]); the class [Addressing]
    adds what the code asks of the address library. The libp2p host is a record of
    operations over a world. *)
From S2P Require Import Prelude GoStrings GoTime Credentials Effects Bundle.
Open Scope Z_scope.

Abbreviation Multiaddr := (list component).

Class Addressing `{Multiformats} := {
  peer_Validate : PeerIdentity → res unit;
  peer_String : PeerIdentity → string;
  same_peer : EqDecision PeerIdentity;
  AddrInfoFromP2pAddr : Multiaddr → res (PeerIdentity * list Multiaddr);
  NewComponent : string → string → res component;
  Multiaddr_String : Multiaddr → string }.
#[export] Existing Instance same_peer.

(** [peer.AddrInfo]. *)
Record AddrInfo `{Multiformats} := mkAddrInfo { ai_ID : PeerIdentity; ai_Addrs : list Multiaddr }.
Arguments mkAddrInfo {_}.

Section addresses.
Context `{Addressing}.

(** ** Relay addresses ([node/host.go]) *)
Definition p2pCount (value : Multiaddr) : nat := length (filter (λ c, cp_Code c = P_P2P) value).
Definition hasCircuit (value : Multiaddr) : bool := existsb (λ c, cp_Code c =? P_CIRCUIT) value.

Definition addr_info (value : Multiaddr) : res AddrInfo :=
  '(id, addrs) ← AddrInfoFromP2pAddr value; Ok (mkAddrInfo id addrs).

Definition RelayInfo (address : string) : res AddrInfo :=
  value ← with_prefix "invalid relay address: " (NewMultiaddr address);
  _ ← refuse (negb (bool_decide (p2pCount value = 1%nat)) || hasCircuit value)
        (errorf "invalid relay address: require one terminal relay peer and no circuit");
  info ← with_prefix "invalid relay address: " (addr_info value);
  _ ← refuse (negb (llen (ai_Addrs info) =? 1)) (errorf "invalid relay address: missing relay transport");
  Ok info.

Definition relayBase (address : Multiaddr) (expected : PeerIdentity) : res (option Multiaddr) :=
  if hasCircuit address then Ok None else
  match p2pCount address with
  | O => Ok (Some address)
  | 1%nat =>
      parsed ← with_prefix "invalid relay address: " (addr_info address);
      match ai_Addrs parsed with
      | [transport] =>
          if decide (ai_ID parsed = expected) then Ok (Some transport)
          else Fail (errorf "invalid relay address: relay identity mismatch")
      | _ => Fail (errorf "invalid relay address: relay identity mismatch")
      end
  | _ => Fail (errorf "invalid relay address: duplicate peer components")
  end.

Fixpoint first_base (addrs : list Multiaddr) (expected : PeerIdentity) : res Multiaddr :=
  match addrs with
  | [] => Fail (errorf "relay has no address")
  | address :: addrs =>
      base ← relayBase address expected;
      match base with
      | None => first_base addrs expected
      | Some base => Ok base
      end
  end.

Definition RelayAddress (info : AddrInfo) : res string :=
  _ ← with_prefix "invalid relay peer: " (peer_Validate (ai_ID info));
  base ← first_base (ai_Addrs info) (ai_ID info);
  relayPeer ← with_prefix "invalid relay peer component: " (NewComponent "p2p" (peer_String (ai_ID info)));
  Ok (Multiaddr_String (base ++ [relayPeer])).

Definition CircuitAddress (relay : string) (target : PeerIdentity) : res string :=
  _ ← with_prefix "invalid circuit target peer: " (peer_Validate target);
  info ← RelayInfo relay;
  canonicalRelay ← RelayAddress info;
  value ← with_prefix "invalid canonical relay address: " (NewMultiaddr canonicalRelay);
  circuit ← with_prefix "build circuit component: " (NewComponent "p2p-circuit" "");
  targetPeer ← with_prefix "build circuit target component: " (NewComponent "p2p" (peer_String target));
  Ok (Multiaddr_String ((value ++ [circuit]) ++ [targetPeer])).

(** ** Connections

    The libp2p host. *)
Record Host (W Stream : Type) := mkHost {
  Connected : PeerIdentity → W → bool;
  ClearBackoff : PeerIdentity → W → W;
  AddAddrs : AddrInfo → W → W;
  Connect : AddrInfo → W → res unit * W;
  Reserve : AddrInfo → W → res time * W;
  NewStream : PeerIdentity → string → W → res Stream * W }.
Arguments mkHost {_ _}.
Arguments Connected {_ _}.
Arguments ClearBackoff {_ _}.
Arguments AddAddrs {_ _}.
Arguments Connect {_ _}.
Arguments Reserve {_ _}.
Arguments NewStream {_ _}.

Context {W Stream : Type} (h : Host W Stream).

Definition PeerConnected (id : PeerIdentity) : M W bool := λ w, (Ok (Connected h id w), w).
Definition clearDialBackoff (id : PeerIdentity) : M W unit := λ w, (Ok tt, ClearBackoff h id w).

Definition ensure_connected (info : AddrInfo) : M W unit :=
  up ← PeerConnected (ai_ID info);
  if up : bool then mret tt else
    _ ← clearDialBackoff (ai_ID info);
    wrapped (prefixed "connect relay: ") (Connect h info).

(** [ReserveRelay] gives the expiration of the reservation. *)
Definition ReserveRelay (info : AddrInfo) : M W time :=
  up ← PeerConnected (ai_ID info);
  _ ← (if up : bool then mret tt else ensure_connected info);
  wrapped (prefixed "reserve relay circuit: ") (Reserve h info).

Definition EnsureRelay (info : AddrInfo) (reserve : bool) : M W unit :=
  _ ← ensure_connected info;
  if reserve then _ ← ReserveRelay info; mret tt else mret tt.

Definition ConnectRelay (address : string) (reserve : bool) : M W AddrInfo :=
  info ← lift (RelayInfo address);
  _ ← EnsureRelay info reserve;
  mret info.

Definition DialPeer (address : string) : M W PeerIdentity :=
  value ← lift (NewMultiaddr address);
  info ← lift (addr_info value);
  _ ← (λ w, (Ok tt, AddAddrs h info w));
  _ ← clearDialBackoff (ai_ID info);
  _ ← Connect h info;
  mret (ai_ID info).

(** ** Providers ([reachability/reachability.go]) *)
Record Provider := mkProvider { pv_id : PeerIdentity; pv_addrs : list Multiaddr }.
Definition provider_info (p : Provider) : AddrInfo := mkAddrInfo (pv_id p) (pv_addrs p).
Definition New (info : AddrInfo) : Provider := mkProvider (ai_ID info) (ai_Addrs info).

Definition FromAddress (address : string) : res Provider :=
  value ← NewMultiaddr address;
  info ← addr_info value;
  Ok (New info).

Definition PrimaryAddress (p : Provider) : res string :=
  with_prefix "reachability: no primary address: " (RelayAddress (provider_info p)).

Definition no_address : error := wrapf ErrNoReachableAddress "reachability: no reachable address".

Definition relay_fallback (p : Provider) (relayed : list Multiaddr) : M W AddrInfo :=
  match relayed with
  | [] => fail no_address
  | _ => _ ← Connect h (mkAddrInfo (pv_id p) relayed); mret (provider_info p)
  end.

Definition Dial (p : Provider) : M W AddrInfo :=
  match pv_addrs p with
  | [] => fail no_address
  | addrs =>
      let direct := List.filter (λ a, negb (hasCircuit a)) addrs in
      let relayed := List.filter hasCircuit addrs in
      match direct with
      | [] => relay_fallback p relayed
      | _ =>
          err ← attempt (Connect h (mkAddrInfo (pv_id p) direct));
          if is_ok err then mret (provider_info p) else relay_fallback p relayed
      end
  end.

Definition Open (p : Provider) (proto : string) : M W Stream :=
  info ← Dial p;
  wrapped (prefixed "reachability: open carrier: ") (NewStream h (ai_ID info) proto).
End addresses.
Arguments mkHost {_ _ _}.
Arguments Connected {_ _ _}.
Arguments ClearBackoff {_ _ _}.
Arguments AddAddrs {_ _ _}.
Arguments Connect {_ _ _}.
Arguments Reserve {_ _ _}.
Arguments NewStream {_ _ _}.

Section bootstrap.
Context `{Ed25519} `{Addressing}.

Fixpoint parse_addresses (addrs : list string) : res (list Multiaddr) :=
  match addrs with
  | [] => Ok []
  | a :: addrs =>
      m ← with_prefix "reachability: invalid address in bundle: " (NewMultiaddr a);
      ms ← parse_addresses addrs;
      Ok (m :: ms)
  end.

(** [defaultBootstrap] at the time [now]. *)
Definition defaultBootstrap (now : time) : res Provider :=
  b ← with_prefix "reachability: production bundle: " (ParseVerify MustProductionBundle ProductionRoots now);
  addrs ← parse_addresses (b_Addresses b);
  peerID ← with_prefix "reachability: invalid peer ID in bundle: " (peer_Decode (b_PeerID b));
  Ok (New (mkAddrInfo peerID addrs)).
End bootstrap.
