(* ===== verification/ReachabilityProps.v ===== *)
(** * Addresses and connections of a relay

    What [RelayInfo] accepts, what [RelayAddress] and [CircuitAddress] print, and in which
    order [Dial] tries the addresses of a provider. *)
From S2P Require Import Prelude GoStrings GoTime Credentials CredentialFacts CredentialVerify Effects Bundle BundleProps Reachability.
Open Scope Z_scope.

(** What go-multiaddr and go-libp2p document, of
    - [peer_of], the identity in the bytes of a peer component;
    - [key_identity], the identities of keys: the sha2-256 or identity multihash of a key,
      whose text is base58 and decodes again;
    - [printable], the components that end where their text does, so that the text gives the
      same bytes again: not those of path protocols such as /unix, which take in all that
      follows.

    A list of printable components prints and parses back; the component built for a key
    identity holds it, shows its text and is printable; [AddrInfoFromP2pAddr] splits off the
    last component, which must be a peer. Nothing is said of other texts of a peer (a CID is
    shown in base58) or of other protocols. *)
Class AddressingLaws `{Addressing} := {
  peer_of : component → PeerIdentity;
  key_identity : PeerIdentity → Prop;
  printable : component → Prop;
  parse_String l : l ≠ [] → Forall printable l → NewMultiaddr (Multiaddr_String l) = Ok l;
  peer_component v c : NewComponent "p2p" v = Ok c → cp_Code c = P_P2P;
  key_component id c : key_identity id → NewComponent "p2p" (peer_String id) = Ok c →
    peer_of c = id ∧ cp_Value c = peer_String id ∧ printable c;
  circuit_component c : NewComponent "p2p-circuit" "" = Ok c → cp_Code c = P_CIRCUIT ∧ printable c;
  split_peer l c : cp_Code c = P_P2P →
    AddrInfoFromP2pAddr (l ++ [c]) = Ok (peer_of c, match l with [] => [] | _ => [l] end);
  split_other l c : cp_Code c ≠ P_P2P → is_ok (AddrInfoFromP2pAddr (l ++ [c])) = false;
  split_empty : is_ok (AddrInfoFromP2pAddr []) = false;
  decode_String id : key_identity id → peer_Decode (peer_String id) = Ok id;
  String_nonempty id : key_identity id → peer_String id ≠ "" }.

Section facts.
Context `{AddressingLaws}.

(** A transport address: something, and neither a peer nor a circuit in it. *)
Definition transport (t : list component) : Prop :=
  t ≠ [] ∧ Forall (λ c, cp_Code c ≠ P_P2P ∧ cp_Code c ≠ P_CIRCUIT) t.

Lemma p2pCount_app l m : p2pCount (l ++ m) = (p2pCount l + p2pCount m)%nat.
Proof. unfold p2pCount. by rewrite filter_app, length_app. Qed.
Lemma hasCircuit_app l m : hasCircuit (l ++ m) = hasCircuit l || hasCircuit m.
Proof. unfold hasCircuit. by rewrite existsb_app. Qed.

Lemma p2pCount_peer c : cp_Code c = P_P2P → p2pCount [c] = 1%nat.
Proof. intros Hc. unfold p2pCount. by rewrite filter_cons, decide_True. Qed.
Lemma hasCircuit_peer c : cp_Code c = P_P2P → hasCircuit [c] = false.
Proof. intros Hc. cbn. by rewrite Hc. Qed.

Lemma transport_exact t : transport t ↔ t ≠ [] ∧ p2pCount t = 0%nat ∧ hasCircuit t = false.
Proof.
  unfold transport. apply and_iff_compat_l. induction t as [|c t IH]; [naive_solver|].
  rewrite Forall_cons, IH. unfold p2pCount. rewrite filter_cons. cbn [hasCircuit existsb].
  destruct (decide (cp_Code c = P_P2P)) as [E|E]; [naive_solver|].
  destruct (Z.eqb_spec (cp_Code c) P_CIRCUIT) as [E'|E']; naive_solver.
Qed.

(** [AddrInfoFromP2pAddr] on an address with one peer and no circuit. *)
Lemma addr_info_exact l info :
  p2pCount l = 1%nat → hasCircuit l = false → addr_info l = Ok info →
  ∃ t c, l = t ++ [c] ∧ cp_Code c = P_P2P ∧ p2pCount t = 0%nat ∧ hasCircuit t = false ∧
    info = mkAddrInfo (peer_of c) match t with [] => [] | _ => [t] end.
Proof.
  intros Hn Hc Hi. unfold addr_info in Hi. apply bind_ok in Hi as ([id addrs] & Hs & [= <-]).
  destruct l as [|c t _] using rev_ind; [pose proof split_empty as He; by rewrite Hs in He|].
  destruct (decide (cp_Code c = P_P2P)) as [E|E]; [|by pose proof (split_other t c E) as He; rewrite Hs in He].
  rewrite split_peer in Hs by done. injection Hs as <- <-.
  rewrite p2pCount_app, p2pCount_peer in Hn by done. rewrite hasCircuit_app in Hc. apply orb_false_elim in Hc as [Hc _].
  exists t, c. split_and!; [done|done|lia|done|done].
Qed.

(** [RelayInfo] accepts a transport address followed by one peer. *)
Lemma relay_info_exact s info :
  RelayInfo s = Ok info ↔
  ∃ t c, NewMultiaddr s = Ok (t ++ [c]) ∧ cp_Code c = P_P2P ∧ transport t ∧
    peer_of c = ai_ID info ∧ ai_Addrs info = [t].
Proof.
  unfold RelayInfo. split.
  - intros Hr. apply bind_ok in Hr as (l & Hl & Hr). unfold with_prefix in Hl. destruct (NewMultiaddr s) as [l'|e]; [|done].
    injection Hl as ->. apply bind_ok in Hr as ([] & Hg%refuse_ok & Hr). apply orb_false_elim in Hg as [Hn%negb_false_iff%bool_decide_eq_true Hc].
    apply bind_ok in Hr as (info' & Hi & Hr). unfold with_prefix in Hi. destruct (addr_info l) as [i|e] eqn:Ei; [|done]. injection Hi as ->.
    apply bind_ok in Hr as ([] & Ha%refuse_ok%negb_false_iff%Z.eqb_eq & [= <-]).
    destruct (addr_info_exact _ _ Hn Hc Ei) as (t & c & -> & Hcode & Hp & Hc' & ->). cbn [ai_ID ai_Addrs] in *.
    exists t, c. rewrite transport_exact. destruct t; [by vm_compute in Ha|]. by split_and!.
  - intros (t & c & Hs & Hcode & Ht & Hd & Ha). rewrite Hs. cbn [with_prefix mbind res_bind]. pose proof Ht as (Hne & Hp & Hc)%transport_exact.
    rewrite p2pCount_app, p2pCount_peer, Hp, hasCircuit_app, Hc, hasCircuit_peer by done.
    rewrite bool_decide_eq_true_2 by done. cbn [negb orb refuse mbind res_bind]. unfold addr_info.
    rewrite split_peer by done. cbn [mbind res_bind with_prefix].
    destruct t as [|c' t]; [done|]. destruct info as [id addrs]. cbn in *. by subst.
Qed.

(** Addresses that can be printed: not empty, of printable components. *)
Definition usable (addrs : list Multiaddr) : Prop := Forall (λ a, a ≠ [] ∧ Forall printable a) addrs.

Lemma first_base_transport addrs id base :
  usable addrs → first_base addrs id = Ok base →
  transport base ∧ Forall printable base ∧
  (base ∈ addrs ∨ ∃ c, base ++ [c] ∈ addrs ∧ cp_Code c = P_P2P ∧ peer_of c = id).
Proof.
  induction 1 as [|a addrs [Hne Hok] Hall IH]; [done|]. cbn [first_base]. intros Hb. apply bind_ok in Hb as (o & Ho & Hb).
  destruct o as [b|]; [|destruct (IH Hb) as (? & ? & Hin); split_and!; [done|done|];
    destruct Hin as [Hin|(c & Hin & Hd)]; [left|right; exists c; split; [|done]]; by apply list_elem_of_further].
  injection Hb as ->. unfold relayBase in Ho. destruct (hasCircuit a) eqn:Hc; [done|].
  destruct (p2pCount a) as [|[|n]] eqn:Hp; [..|done].
  - injection Ho as ->. rewrite transport_exact. split_and!; [done|done|done|done|left; apply list_elem_of_here].
  - apply bind_ok in Ho as (info & Hi & Ho). unfold with_prefix in Hi. destruct (addr_info a) as [i|e] eqn:Ei; [|done].
    injection Hi as ->. destruct (addr_info_exact _ _ Hp Hc Ei) as (t & c & -> & Hcode & Hp' & Hc' & ->).
    cbn [ai_Addrs ai_ID] in Ho. destruct t as [|c' t]; [done|]. destruct (decide (peer_of c = id)) as [Hid|]; [|done].
    injection Ho as <-. rewrite transport_exact. apply Forall_app in Hok as [Hok _].
    split_and!; try done. right. exists c. split; [apply list_elem_of_here|done].
Qed.

(** What [RelayAddress] prints is read back by [RelayInfo] as the peer and the transport. *)
Lemma relay_roundtrip info s :
  usable (ai_Addrs info) → key_identity (ai_ID info) → RelayAddress info = Ok s →
  ∃ base c, RelayInfo s = Ok (mkAddrInfo (ai_ID info) [base]) ∧ first_base (ai_Addrs info) (ai_ID info) = Ok base ∧
    NewMultiaddr s = Ok (base ++ [c]) ∧ cp_Code c = P_P2P ∧ cp_Value c = peer_String (ai_ID info) ∧ printable c.
Proof.
  intros Hu Hk Hr. unfold RelayAddress in Hr. apply bind_ok in Hr as ([] & _ & Hr).
  apply bind_ok in Hr as (base & Hb & Hr). apply bind_ok in Hr as (c & Hc & Hr). unfold with_prefix in Hc.
  destruct (NewComponent "p2p" (peer_String (ai_ID info))) as [c'|e] eqn:Ec; [|done]. injection Hc as ->. injection Hr as <-.
  pose proof (peer_component _ _ Ec) as Hcode. destruct (key_component _ _ Hk Ec) as (Hid & Hval & Hok).
  destruct (first_base_transport _ _ _ Hu Hb) as (Ht & Hb' & _). exists base, c.
  assert (Hp : NewMultiaddr (Multiaddr_String (base ++ [c])) = Ok (base ++ [c])).
  { apply parse_String; [by destruct base|]. apply Forall_app; split; [done|by apply Forall_singleton]. }
  split_and!; try done. apply relay_info_exact. by exists base, c.
Qed.

(** An address that [RelayInfo] read has one transport, which is the base. *)
Lemma relay_info_base s info t :
  RelayInfo s = Ok info → ai_Addrs info = [t] → transport t ∧ first_base (ai_Addrs info) (ai_ID info) = Ok t.
Proof.
  intros (t' & c & Hs & _ & Ht & _ & Ha)%relay_info_exact Ha'. rewrite Ha in *. injection Ha' as ->. split; [done|].
  pose proof Ht as (Hne & Hp & Hc)%transport_exact. cbn [first_base]. unfold relayBase. by rewrite Hc, Hp.
Qed.

(** The address through the relay [info] to the target: the transport, the relay, a circuit
    and the target. *)
Record circuit_form (info : AddrInfo) (t : Multiaddr) (target : PeerIdentity) (l : Multiaddr) : Prop := mkCircuitForm {
  cf_parts : ∃ relay circuit last, l = t ++ [relay; circuit; last] ∧
    cp_Code relay = P_P2P ∧ cp_Value relay = peer_String (ai_ID info) ∧
    cp_Code circuit = P_CIRCUIT ∧ cp_Code last = P_P2P ∧ cp_Value last = peer_String target }.

Lemma circuit_exact relay target s info t :
  CircuitAddress relay target = Ok s → RelayInfo relay = Ok info → ai_Addrs info = [t] →
  Forall printable t → key_identity (ai_ID info) → key_identity target →
  ∃ l, NewMultiaddr s = Ok l ∧ circuit_form info t target l.
Proof.
  intros Hc Hi Ha Hpt Hk Hkt. unfold CircuitAddress in Hc. apply bind_ok in Hc as ([] & _ & Hc).
  rewrite Hi in Hc. cbn [mbind res_bind] in Hc.
  apply bind_ok in Hc as (r & Hr & Hc). destruct (relay_info_base _ _ _ Hi Ha) as [Ht Hf].
  assert (Hu : usable (ai_Addrs info)) by (rewrite Ha; apply Forall_singleton; split; [apply Ht|done]).
  destruct (relay_roundtrip _ _ Hu Hk Hr) as (base & cr & _ & Hb & Hp & Hcr & Hvr & Hokr). rewrite Hf in Hb. injection Hb as <-.
  rewrite Hp in Hc. cbn [with_prefix mbind res_bind] in Hc.
  apply bind_ok in Hc as (c & Hcc & Hc). unfold with_prefix in Hcc. destruct (NewComponent "p2p-circuit" "") as [c'|e] eqn:Ec; [|done].
  injection Hcc as ->. apply bind_ok in Hc as (q & Hpp & Hc). unfold with_prefix in Hpp.
  destruct (NewComponent "p2p" (peer_String target)) as [q'|e] eqn:Ep; [|done]. injection Hpp as ->. injection Hc as <-.
  apply circuit_component in Ec as [Hcode Hcok]. pose proof (peer_component _ _ Ep) as Hq.
  destruct (key_component _ _ Hkt Ep) as (_ & Hvq & Hokq). rewrite <- !app_assoc. cbn [app].
  exists (t ++ [cr; c; q]). split; [|constructor; by exists cr, c, q].
  apply parse_String; [by destruct t|]. apply Forall_app. split; [done|]. by repeat constructor.
Qed.

Lemma circuit_terminal info t target l :
  key_identity target → circuit_form info t target l →
  hasCircuit l = true ∧ terminalP2P l = Ok (peer_String target).
Proof.
  intros Hv [(relay & circuit & last & -> & Hr & _ & Hc & Hl & Hlv)].
  destruct relay as [rc rv], circuit as [cc cv], last as [lc lv]. cbn in Hr, Hc, Hl, Hlv. subst. split.
  - rewrite hasCircuit_app. apply orb_true_r.
  - unfold terminalP2P. rewrite fold_left_app. cbn [fold_left cp_Code cp_Value Z.eqb P_P2P P_CIRCUIT Pos.eqb].
    rewrite (proj2 (seqb_false _ _) (String_nonempty target Hv)). cbn [refuse mbind res_bind]. by rewrite decode_String.
Qed.

(** ** The order of dialling *)
Definition direct_addrs (p : Provider) : list (list component) := List.filter (λ a, negb (hasCircuit a)) (pv_addrs p).
Definition relayed_addrs (p : Provider) : list (list component) := List.filter hasCircuit (pv_addrs p).

Lemma relay_fallback_exact {W S} (h : Host W S) p l w info w' :
  relay_fallback h p l w = (Ok info, w') ↔
  info = provider_info p ∧ l ≠ [] ∧ Connect h (mkAddrInfo (pv_id p) l) w = (Ok tt, w').
Proof.
  destruct l as [|a l]; [cbn; naive_solver|]. unfold relay_fallback. rewrite bind_run. split.
  - intros ([] & w1 & Hc & [= <- <-]). by split_and!.
  - intros (-> & _ & Hc). by exists tt, w'.
Qed.

Lemma dial_exact {W S} (h : Host W S) p w info w' :
  Dial h p w = (Ok info, w') ↔ info = provider_info p ∧
  (direct_addrs p ≠ [] ∧ Connect h (mkAddrInfo (pv_id p) (direct_addrs p)) w = (Ok tt, w') ∨
   relayed_addrs p ≠ [] ∧ ∃ w1,
     (direct_addrs p = [] ∧ w1 = w ∨ ∃ e, direct_addrs p ≠ [] ∧ Connect h (mkAddrInfo (pv_id p) (direct_addrs p)) w = (Fail e, w1)) ∧
     Connect h (mkAddrInfo (pv_id p) (relayed_addrs p)) w1 = (Ok tt, w')).
Proof.
  assert (Hd : Dial h p = match direct_addrs p with [] => relay_fallback h p (relayed_addrs p) | _ =>
    err ← attempt (Connect h (mkAddrInfo (pv_id p) (direct_addrs p)));
    if is_ok err then mret (provider_info p) else relay_fallback h p (relayed_addrs p) end).
  { unfold Dial, direct_addrs, relayed_addrs. by destruct (pv_addrs p). }
  rewrite Hd. destruct (direct_addrs p) as [|a l].
  - rewrite relay_fallback_exact. naive_solver.
  - unfold attempt, mbind, M_bind. destruct (Connect h _ w) as [[[]|e] w1]; cbn [is_ok].
    + split; [intros [= <- <-]; naive_solver|]. intros [-> [[_ [= ->]]|(_ & w2 & [[? _]|(e & _ & ?)] & _)]]; done.
    + rewrite relay_fallback_exact. naive_solver.
Qed.
End facts.

(** C23: a relay address is accepted exactly when it is a transport address without peers and
    circuits followed by one peer, which is then the relay; the address printed for a relay,
    the identity of a key with addresses of printable components, is read back as that peer
    with the first transport of the relay that is not a circuit; a circuit address over such
    a relay to the identity of a key is the transport and the peer of the relay, a circuit
    and the target, so that its terminal peer is the target and it does not pass for a relay
    address; and dialling a provider tries its direct addresses first, those through a
    circuit only when there is no direct one or the direct attempt failed, always for the
    identity of the provider, and succeeds exactly when one of the two attempts does. *)
Theorem relay_addresses `{AddressingLaws} :
  (∀ s info, RelayInfo s = Ok info ↔
     ∃ t c, NewMultiaddr s = Ok (t ++ [c]) ∧ cp_Code c = P_P2P ∧ transport t ∧
       peer_of c = ai_ID info ∧ ai_Addrs info = [t]) ∧
  (∀ info s, usable (ai_Addrs info) → key_identity (ai_ID info) → RelayAddress info = Ok s →
     ∃ base, first_base (ai_Addrs info) (ai_ID info) = Ok base ∧ RelayInfo s = Ok (mkAddrInfo (ai_ID info) [base])) ∧
  (∀ relay target s info t, CircuitAddress relay target = Ok s → RelayInfo relay = Ok info → ai_Addrs info = [t] →
     Forall printable t → key_identity (ai_ID info) → key_identity target →
     ∃ l, NewMultiaddr s = Ok l ∧ circuit_form info t target l ∧
       hasCircuit l = true ∧ terminalP2P l = Ok (peer_String target) ∧ is_ok (RelayInfo s) = false) ∧
  (∀ W S (h : Host W S) p w info w', Dial h p w = (Ok info, w') ↔ info = provider_info p ∧
     (direct_addrs p ≠ [] ∧ Connect h (mkAddrInfo (pv_id p) (direct_addrs p)) w = (Ok tt, w') ∨
      relayed_addrs p ≠ [] ∧ ∃ w1,
        (direct_addrs p = [] ∧ w1 = w ∨ ∃ e, direct_addrs p ≠ [] ∧ Connect h (mkAddrInfo (pv_id p) (direct_addrs p)) w = (Fail e, w1)) ∧
        Connect h (mkAddrInfo (pv_id p) (relayed_addrs p)) w1 = (Ok tt, w'))).
Proof.
  split_and!.
  - apply relay_info_exact.
  - intros info s Hu Hk Hr. destruct (relay_roundtrip info s Hu Hk Hr) as (base & c & Hi & Hb & _). by exists base.
  - intros relay target s info t Hc Hi Ha Hpt Hk Hkt.
    destruct (circuit_exact relay target s info t Hc Hi Ha Hpt Hk Hkt) as (l & Hl & Hf). exists l.
    destruct (circuit_terminal info t target l Hkt Hf) as (Hl1 & Hl2).
    split_and!; try done. unfold RelayInfo. rewrite Hl. cbn [with_prefix mbind res_bind]. rewrite Hl1, orb_true_r. done.
  - intros. apply dial_exact.
Qed.

(** ** An address library for concrete runs

    Every component has a letter. *)
Module SampleAddresses.
Definition letters : list (ascii * component) :=
  [("t"%char, mkComponent 6 "4001"); ("c"%char, mkComponent P_CIRCUIT ""); ("R"%char, mkComponent P_P2P "R"); ("T"%char, mkComponent P_P2P "T")].
#[export] Instance component_eq_dec : EqDecision component.
Proof. solve_decision. Defined.

Definition read_letter (x : ascii) : res component := need (snd <$> List.find (λ kv, bool_decide (kv.1 = x)) letters) (errorf "unknown protocol").
Definition letter (c : component) : ascii := default "?"%char (fst <$> List.find (λ kv, bool_decide (kv.2 = c)) letters).
Fixpoint read_letters (l : list ascii) : res (list component) :=
  match l with [] => Ok [] | x :: l => c ← read_letter x; cs ← read_letters l; Ok (c :: cs) end.
Definition peer_name (s : string) : res string := _ ← refuse (negb (mem_str s ["R"; "T"])) (errorf "invalid peer"); Ok s.

#[export] Instance multiformats : Multiformats := {
  PeerIdentity := string;
  peer_Decode := peer_name;
  NewMultiaddr s := _ ← refuse (s =s "") (errorf "empty multiaddr"); read_letters (bytes_of s) }.
Definition split_last (l : list component) : res (string * list (list component)) :=
  match reverse l with
  | c :: r => if cp_Code c =? P_P2P then Ok (cp_Value c, match reverse r with [] => [] | t => [t] end)
              else Fail (errorf "no peer")
  | [] => Fail (errorf "no peer")
  end.
#[export] Instance addressing : Addressing := {
  peer_Validate s := _ ← peer_name s; Ok tt;
  peer_String s := s;
  same_peer := String.string_dec;
  AddrInfoFromP2pAddr := split_last;
  NewComponent name v :=
    if name =s "p2p" then id ← peer_name v; Ok (mkComponent P_P2P id)
    else if name =s "p2p-circuit" then Ok (mkComponent P_CIRCUIT "") else Fail (errorf "unknown protocol");
  Multiaddr_String l := of_bytes (map letter l) }.

Lemma peer_name_ok v u : peer_name v = Ok u ↔ u = v ∧ (v = "R" ∨ v = "T").
Proof.
  unfold peer_name. destruct (mem_str v ["R"; "T"]) eqn:E; cbn.
  - apply mem_str_true in E. set_solver.
  - split; [done|]. intros [_ [->| ->]]; by vm_compute in E.
Qed.

Definition lettered (c : component) : Prop := c ∈ map snd letters.
Lemma lettered_letter c : lettered c → read_letter (letter c) = Ok c.
Proof. unfold lettered. cbn. intros Hc. repeat (apply elem_of_cons in Hc as [->|Hc]; [reflexivity|]). by apply not_elem_of_nil in Hc. Qed.
Lemma lettered_by_letter c : bool_decide (c ∈ map snd letters) = true → lettered c.
Proof. apply bool_decide_eq_true. Qed.

#[export] Instance addressing_laws : AddressingLaws.
Proof.
  refine {| peer_of := λ c, (cp_Value c : @PeerIdentity multiformats); key_identity := λ id, id = "R" ∨ id = "T"; printable := lettered |}.
  - intros l Hne Hl. cbn [NewMultiaddr multiformats Multiaddr_String addressing]. rewrite bytes_of_of.
    rewrite (proj2 (seqb_false _ _)) by (destruct l; [done|]; cbn; by intros [=]). cbn [refuse mbind res_bind].
    clear Hne. induction Hl as [|c l Hc _ IH]; [done|]. cbn [map read_letters]. rewrite lettered_letter by done. cbn [mbind res_bind]. by rewrite IH.
  - intros v c Hc. cbn in Hc. by apply bind_ok in Hc as (id & _ & [= <-]).
  - intros id c Hid Hc. cbn in Hc. apply bind_ok in Hc as (id' & [-> _]%peer_name_ok & [= <-]). split_and!; [done|done|].
    apply lettered_by_letter. by destruct Hid as [->| ->].
  - intros c [= <-]. split; [done|]. by apply lettered_by_letter.
  - intros l c Hc. cbn [AddrInfoFromP2pAddr addressing]. unfold split_last. rewrite reverse_app, reverse_singleton. cbn [app].
    rewrite Hc, Z.eqb_refl, reverse_involutive. by destruct l.
  - intros l c Hc. cbn [AddrInfoFromP2pAddr addressing]. unfold split_last. rewrite reverse_app, reverse_singleton. cbn [app].
    by rewrite (proj2 (Z.eqb_neq _ _) Hc).
  - done.
  - intros id Hid. apply peer_name_ok. by split.
  - intros id [->| ->]; done.
Defined.
Definition relay_peer : @PeerIdentity multiformats := "R".
Definition target_peer : @PeerIdentity multiformats := "T".
End SampleAddresses.

Import SampleAddresses.
(** A host that refuses direct addresses. *)
Definition circuit_only : Host nat unit :=
  mkHost (λ _ _, false) (λ _ w, w) (λ _ w, w)
    (λ info w, (if forallb hasCircuit (ai_Addrs info) then Ok tt else Fail (errorf "unreachable"), S w))
    (λ _ w, (Fail (errorf "no slot"), w)) (λ _ _ w, (Ok tt, w)).

Lemma relay_addresses_witness :
  (∃ base, RelayInfo "tR" = Ok (mkAddrInfo relay_peer [base])) ∧
  (∃ l, NewMultiaddr "tRcT" = Ok l ∧ terminalP2P l = Ok "T" ∧ is_ok (RelayInfo "tRcT") = false) ∧
  (let p := mkProvider relay_peer [[mkComponent 6 "4001"]; [mkComponent 6 "4001"; mkComponent P_CIRCUIT ""]] in
   direct_addrs p ≠ [] ∧ ∃ e w, Connect circuit_only (mkAddrInfo relay_peer (direct_addrs p)) 0%nat = (Fail e, w)).
Proof.
  destruct relay_addresses as (_ & Hr & Hc & Hd). split_and!.
  - destruct (Hr (mkAddrInfo relay_peer [[mkComponent 6 "4001"; mkComponent P_P2P "R"]]) "tR") as (base & _ & Hi);
      [|by left|reflexivity|by exists base].
    apply Forall_singleton. split; [done|]. repeat (constructor; [by apply lettered_by_letter|]). constructor.
  - destruct (Hc "tR" target_peer "tRcT" (mkAddrInfo relay_peer [[mkComponent 6 "4001"]]) [mkComponent 6 "4001"]
      eq_refl eq_refl eq_refl) as (l & Hl & _ & _ & Ht & Hf); [|by left|by right|eauto].
    apply Forall_singleton. by apply lettered_by_letter.
  - intros p. destruct (proj1 (Hd nat unit circuit_only p 0%nat (provider_info p) 2%nat) eq_refl)
      as [_ [[_ He]|(_ & w1 & [[He _]|(e & Hne & He)] & _)]]; [by vm_compute in He|by vm_compute in He|]. split; [done|]. by exists e, w1.
Defined.

Import SampleKeys.
Definition sample_bundle : Bundle := mkBundle 1 KindBootstrap "root" "R" ["tR"] noon (Add noon Minute).
Definition sample_roots : list Root := [mkRoot "root" RoleBootstrap (fixed32 "root-key")].
Definition sample_raw : list ascii := Eval vm_compute in
  match Sign (H := keys) sample_bundle ("root-key" : @PrivateKey keys) with Ok raw => raw | Fail _ => [] end.

Lemma bundle_exact_witness :
  ParseVerify (H := keys) sample_raw sample_roots noon = Ok sample_bundle ∧
  verified (H := keys) sample_raw sample_roots noon sample_bundle.
Proof.
  destruct bundle_exact as (Hx & Hs & _).
  assert (Hv : ParseVerify (H := keys) sample_raw sample_roots noon = Ok sample_bundle).
  { apply (Hs keys keys_laws multiformats sample_bundle ("root-key" : @PrivateKey keys) sample_raw sample_roots
             (mkRoot "root" RoleBootstrap (fixed32 "root-key")) noon); vm_compute; done. }
  split; [exact Hv|]. apply Hx, Hv.
Defined.
