(* ===== verification/Published.v ===== *)
(** * Published Pipes

    A Pipe that is reachable through a relay ([runPublishedPipe] and
    [runScopeLessPublishedPipe] of [internal/runtime/pipe.go]): the maintenance of its relay
    reservation ([internal/reachability/relay_reservation.go]), the publication of its
    discovery record under a publish grant, and the status of its run. *)
From S2P Require Import Prelude GoStrings GoTime Encoding Credentials Domain Effects StoreSync ScopeTokens ScopeSync.
Open Scope Z_scope.

(** ** Relay reservations *)
Definition DefaultReservationMargin : duration := 1 * Minute.
Definition minimumRenewDelay : duration := 30 * Second.
Definition DefaultMaintenanceTick : duration := 5 * Second.

Record RelayReservation := mkReservation {
  rs_margin : duration; rs_minDelay : duration; rs_expires : time; rs_lastMaintained : time; rs_ready : bool }.

Definition NewRelayReservation (margin : duration) : RelayReservation :=
  mkReservation (if margin <=? 0 then DefaultReservationMargin else margin) minimumRenewDelay zero_time zero_time false.

Definition setReady (ready : bool) (r : RelayReservation) : RelayReservation :=
  mkReservation (rs_margin r) (rs_minDelay r) (rs_expires r) (rs_lastMaintained r) ready.

Definition nextRenewLocked (r : RelayReservation) : time :=
  let base := Add (rs_expires r) (- rs_margin r) in
  let floor := Add (rs_lastMaintained r) (rs_minDelay r) in
  if After base floor then base else floor.

Definition record (expiresAt now : time) (r : RelayReservation) : res unit * RelayReservation :=
  let r := mkReservation (rs_margin r) (rs_minDelay r) expiresAt now (rs_ready r) in
  (refuse (negb (Before (nextRenewLocked r) expiresAt))
     (wrapf ErrReservationTooShort "reachability: reservation expires before a renewal can be scheduled"), r).

Definition due (connected : bool) (now : time) (r : RelayReservation) : bool :=
  if negb connected then true else negb (Before now (nextRenewLocked r)).

(** [maintain] returned the expiration of a reservation or an error; [now] is the clock of
    [record]. The body of [Acquire], and of [Serve] when a pass is due. *)
Definition Acquire (maintained : res time) (now : time) (r : RelayReservation) : res unit * RelayReservation :=
  match maintained with
  | Fail e => (Fail e, setReady false r)
  | Ok expiresAt =>
      match record expiresAt now r with
      | (Fail e, r) => (Fail e, setReady false r)
      | (Ok _, r) => (Ok tt, setReady true r)
      end
  end.

(** What one tick of [Serve] meets: the connection and the clock when it decides, the answer
    of the relay, the clock when that is recorded and the clock when a record is published. *)
Record tick := mkTick {
  tk_connected : bool; tk_at : time; tk_maintain : res time; tk_recorded : time; tk_publish : time }.
Inductive outcome := Idle | OnReady | OnFailure (e : error).

Definition serve_tick (t : tick) (r : RelayReservation) : outcome * RelayReservation :=
  if negb (due (tk_connected t) (tk_at t) r) then (Idle, r) else
  match Acquire (tk_maintain t) (tk_recorded t) r with
  | (Ok _, r) => (OnReady, r)
  | (Fail e, r) => (OnFailure e, r)
  end.

(** [Serve] until its context is cancelled after these ticks. *)
Fixpoint Serve (ticks : list tick) (r : RelayReservation) : list outcome * RelayReservation :=
  match ticks with
  | [] => ([], r)
  | t :: ticks =>
      let '(o, r) := serve_tick t r in
      let '(os, r) := Serve ticks r in (o :: os, r)
  end.

(** ** Publication

    The closures [refreshGrant] and [publish]. What they capture is [publication]; what they
    change is [grant_state]. *)
Section publication.
Context `{Ed25519} {W : Type}.

Record publication := mkPublication {
  pu_spec : PipeSpec; pu_scope : Scope; pu_peer : string; pu_address : string; pu_owner : PrivateKey;
  pu_authority : string; pu_remote : bool }.
Record grant_state := mkGrant { gs_text : string; gs_grant : Tokens.Token; gs_sequence : Z }.

Record PublishPorts := mkPublishPorts {
  pp_epoch : M W Z;                              (* the revocation epoch of the Pipe *)
  pp_request : M W string;                       (* RequestPublishGrant *)
  pp_authority_key : M W PrivateKey;
  pp_token : M W (entropy * time);               (* the random source and the clock of NewToken *)
  pp_set_grant : string → M W unit;
  pp_put : Record_ → M W unit;
  pp_announce : Records.PipeRecord → M W unit;
  pp_put_authoritative : Record_ → M W unit }.

Context (io : PublishPorts) (pu : publication).

(** The conditions on a grant, at its start and after a refresh. *)
Definition accept_grant (text : string) (now : time) (e : error) : res Tokens.Token :=
  value ← relabel (Tokens.Decode text) e;
  _ ← relabel (Tokens.Verify now value (pu_authority pu) now) e;
  _ ← refuse ((Tokens.Type_ value <>s "pipe.publish") || (Tokens.Audience value <>s p_PipeID (pu_spec pu))
              || negb (same_scope (Tokens.InScope value) (pu_scope pu))) e;
  Ok value.

Definition start_grant (text : string) (sequence : Z) (now : time) : M W grant_state :=
  grant ← lift (accept_grant text now (errorf "authorization_denied: invalid publish grant"));
  publishEpoch ← wrapped (prefixed "persistence_failed: publish epoch: ") (pp_epoch io);
  _ ← guard (Tokens.PublishEpoch grant <? publishEpoch) (errorf "authorization_denied: publish epoch revoked");
  mret (mkGrant text grant sequence).

Definition local_grant : M W string :=
  private ← pp_authority_key io;
  '(rnd, now) ← pp_token io;
  value ← lift (Tokens.NewToken rnd now "pipe.publish" (pu_scope pu) (Tokens.PublicString (Public (pu_owner pu)))
                  (p_PipeID (pu_spec pu)) (30 * (24 * (60 * Minute))));
  epoch ← pp_epoch io;
  value ← lift (Tokens.Sign (Tokens.set_publish_epoch epoch value) private);
  lift (Tokens.Encode value).

Definition refreshGrant (now : time) (gs : grant_state) : M W grant_state :=
  if After (Tokens.ExpiresAt (gs_grant gs)) (Add now (24 * (60 * Minute))) then mret gs else
  encoded ← (if pu_remote pu then pp_request io else local_grant);
  value ← lift (accept_grant encoded now (errorf "authorization_denied: invalid refreshed publish grant"));
  _ ← pp_set_grant io encoded;
  mret (mkGrant encoded value (gs_sequence gs)).

Definition uint64 (n : Z) : Z := n mod 2 ^ 64.

Definition next_record (now : time) (gs : grant_state) : res Records.PipeRecord :=
  let hour := Add now (60 * Minute) in
  let expires := if Before (Tokens.ExpiresAt (gs_grant gs)) hour then Tokens.ExpiresAt (gs_grant gs) else hour in
  _ ← refuse (negb (After expires now)) (errorf "authorization_denied: publish grant expired");
  let next := uint64 (unix_ns now) in
  let next := if next <=? gs_sequence gs then uint64 (gs_sequence gs + 1) else next in
  Records.Sign (Records.mkPipeRecord 2 (p_PipeID (pu_spec pu)) (Name (p_Ref (pu_spec pu))) "" (pu_peer pu) (pu_scope pu)
                  "/tubo/tunnel/2.0" (Some ["raw-duplex"; "half-close"]) (Some [pu_address pu]) (p_Visibility (pu_spec pu))
                  (p_Access (pu_spec pu)) (gs_text gs) now expires next "") (pu_owner pu).

Definition deliver (record : Records.PipeRecord) (payload : string) : M W unit :=
  let stored := mkRecord (ScopeString (pu_scope pu)) (p_PipeID (pu_spec pu)) (Name (p_Ref (pu_spec pu))) payload
                  (Records.ExpiresAt record) (Records.Sequence record) false in
  if pu_remote pu then _ ← pp_put io stored; pp_announce io record else pp_put_authoritative io stored.

Definition publish (now : time) (gs : grant_state) : M W (Records.PipeRecord * grant_state) :=
  record ← lift (next_record now gs);
  payload ← lift (Records.Marshal record);
  _ ← deliver record payload;
  mret (record, mkGrant (gs_text gs) (gs_grant gs) (Records.Sequence record)).

(** [refreshGrant] and [publish] in the callback: a refreshed grant stays when the
    publication fails. *)
Definition publish_pass (now : time) (gs : grant_state) (w : W) : res Records.PipeRecord * grant_state * W :=
  match refreshGrant now gs w with
  | (Fail e, w) => (Fail e, gs, w)
  | (Ok gs, w) =>
      match publish now gs w with
      | (Fail e, w) => (Fail e, gs, w)
      | (Ok (record, gs), w) => (Ok record, gs, w)
      end
  end.
End publication.
Arguments publication {_}.
Arguments PublishPorts {_}.

(** ** The run of a published Pipe *)
Definition with_status (status : string) (r : Run) : Run :=
  mkRun (ru_PrimaryRef r) (ru_Kind r) (ru_PID r) (ru_ProcessIdentity r) (ru_Source r) status (ru_PeerID r) (ru_Address r)
    (ru_StartedAt r) (ru_UpdatedAt r).

Section lifecycle.
Context {W G A : Type} (put : Run → W → W).

(** [publishedPipeLifecycle]: [put] is [PutRun] with its error dropped; a publication may
    change a state [G] of its own and gives what it published. *)
Definition onFailure (run : Run) (w : W) : Run * W :=
  let run := with_status "degraded" run in (run, put run w).

Definition onReady (publish : option (G → W → res A * G * W)) (run : Run) (g : G) (w : W) : option A * Run * G * W :=
  let ready (run : Run) (w : W) := let run := with_status "ready" run in (run, put run w) in
  match publish with
  | None => let '(run, w) := ready run w in (None, run, g, w)
  | Some publish =>
      match publish g w with
      | (Fail _, g, w) => let '(run, w) := onFailure run w in (None, run, g, w)
      | (Ok a, g, w) => let '(run, w) := ready run w in (Some a, run, g, w)
      end
  end.

Record serving := mkServing { sv_reservation : RelayReservation; sv_run : Run; sv_grant : G }.

(** One tick of [reservation.Serve(ctx, onReady, onFailure)]. *)
Definition serving_tick (publish : option (time → G → W → res A * G * W)) (t : tick) (s : serving) (w : W)
    : option A * serving * W :=
  match serve_tick t (sv_reservation s) with
  | (Idle, r) => (None, mkServing r (sv_run s) (sv_grant s), w)
  | (OnFailure _, r) => let '(run, w) := onFailure (sv_run s) w in (None, mkServing r run (sv_grant s), w)
  | (OnReady, r) =>
      let '(a, run, g, w) := onReady ((λ p, p (tk_publish t)) <$> publish) (sv_run s) (sv_grant s) w in
      (a, mkServing r run g, w)
  end.

Fixpoint serving_ticks (publish : option (time → G → W → res A * G * W)) (ticks : list tick) (s : serving) (w : W)
    : list A * serving * W :=
  match ticks with
  | [] => ([], s, w)
  | t :: ticks =>
      let '(a, s, w) := serving_tick publish t s w in
      let '(l, s, w) := serving_ticks publish ticks s w in
      (option_list a ++ l, s, w)
  end.
End lifecycle.

(** The start of a published Pipe of a scope: the initial reservation, the checks on the
    stored grant, the first publication; [sequence] is that of the stored record. The clock is
    read to record the reservation, to check the grant and to publish. *)
Definition start_published `{Ed25519} {W} (io : PublishPorts W) (pu : publication) (text : string) (maintained : res time)
    (recorded checked now : time) (sequence : Z) (run : Run) : M W (Records.PipeRecord * serving (G := grant_state)) :=
  let '(acquired, reservation) := Acquire maintained recorded (NewRelayReservation 0) in
  _ ← lift acquired;
  gs ← start_grant io pu text sequence checked;
  '(record, gs) ← publish io pu now gs;
  mret (record, mkServing reservation (with_status "ready" run) gs).
