(* ===== verification/PublishedProps.v ===== *)
(** * What holds while a Pipe is published

    A reservation that counts as ready is renewed before it expires, the status of the run
    follows the reservation, and the records that are published verify and grow in sequence. *)
From S2P Require Import Prelude GoStrings GoTime Encoding Credentials CredentialFacts CredentialVerify Domain Effects StoreSync ScopeTokens ScopeTokenFacts ScopeSync Published.
Open Scope Z_scope.

(** ** Reservations *)
Definition held (r : RelayReservation) : Prop :=
  rs_ready r = true → unix_ns (nextRenewLocked r) < unix_ns (rs_expires r).

Lemma next_renew_max r :
  unix_ns (nextRenewLocked r) = Z.max (unix_ns (rs_expires r) - rs_margin r) (unix_ns (rs_lastMaintained r) + rs_minDelay r).
Proof.
  unfold nextRenewLocked, After. cbn [Add unix_ns].
  destruct (Z.ltb_spec (unix_ns (rs_lastMaintained r) + rs_minDelay r) (unix_ns (rs_expires r) + - rs_margin r)); cbn [Add unix_ns]; lia.
Qed.

Definition same_policy (r r' : RelayReservation) : Prop := rs_margin r' = rs_margin r ∧ rs_minDelay r' = rs_minDelay r.

(** A pass succeeds exactly when the relay granted a reservation that outlives the earliest renewal. *)
Lemma acquire_exact m now r u r' :
  Acquire m now r = (u, r') →
  same_policy r r' ∧ held r' ∧
  match u with
  | Ok _ => rs_ready r' = true ∧ m = Ok (rs_expires r') ∧ rs_lastMaintained r' = now ∧ 0 < rs_margin r
            ∧ unix_ns now + rs_minDelay r < unix_ns (rs_expires r')
  | Fail _ => rs_ready r' = false
  end.
Proof.
  unfold Acquire, held. destruct m as [e|e]; [|by intros [= <- <-]].
  unfold record. cbv zeta. set (r1 := mkReservation _ _ _ _ _). unfold refuse. destruct (negb _) eqn:E; [by intros [= <- <-]|].
  intros [= <- <-]. apply negb_false_iff, Z.ltb_lt in E.
  assert (Hn : nextRenewLocked (setReady true r1) = nextRenewLocked r1) by done. rewrite Hn.
  split_and!; try done; rewrite next_renew_max in E; cbn in *; lia.
Qed.

Definition renews (r : RelayReservation) (t : tick) : Prop :=
  tk_connected t = true → unix_ns (nextRenewLocked r) ≤ unix_ns (tk_at t).

Lemma serve_tick_exact t r o r' :
  serve_tick t r = (o, r') →
  match o with
  | Idle => r' = r ∧ tk_connected t = true ∧ unix_ns (tk_at t) < unix_ns (nextRenewLocked r)
  | OnReady => renews r t ∧ Acquire (tk_maintain t) (tk_recorded t) r = (Ok tt, r')
  | OnFailure e => renews r t ∧ Acquire (tk_maintain t) (tk_recorded t) r = (Fail e, r')
  end.
Proof.
  unfold serve_tick, due, renews, Before. destruct (tk_connected t); cbn [negb].
  - rewrite negb_involutive. destruct (Z.ltb_spec (unix_ns (tk_at t)) (unix_ns (nextRenewLocked r))); [intros [= <- <-]; done|].
    destruct (Acquire _ _ _) as [[[]|e] r1]; intros [= <- <-]; (split; [lia|done]).
  - destruct (Acquire _ _ _) as [[[]|e] r1]; intros [= <- <-]; done.
Qed.

Lemma serve_tick_held t r o r' : serve_tick t r = (o, r') → held r → held r' ∧ same_policy r r'.
Proof.
  intros Ht Hh. apply serve_tick_exact in Ht. destruct o as [| |e].
  - by destruct Ht as [-> _].
  - destruct Ht as [_ (? & ? & _)%acquire_exact]. done.
  - destruct Ht as [_ (? & ? & _)%acquire_exact]. done.
Qed.

Lemma serve_held ticks r os r' : Serve ticks r = (os, r') → held r → held r' ∧ same_policy r r'.
Proof.
  revert r os. induction ticks as [|t ticks IH]; intros r os Hs Hh; [by injection Hs as _ <-|].
  cbn in Hs. destruct (serve_tick t r) as [o r1] eqn:Et. destruct (Serve ticks r1) as [os' r2] eqn:Es. injection Hs as _ <-.
  destruct (serve_tick_held _ _ _ _ Et Hh) as [Hh1 [H1 H2]]. destruct (IH _ _ Es Hh1) as [Hh2 [H3 H4]]. split; [done|]. split; congruence.
Qed.

(** Every tick comes at most [g] after the one before it. *)
Fixpoint paced (g last : Z) (ticks : list tick) : Prop :=
  match ticks with
  | [] => True
  | t :: ticks => last ≤ unix_ns (tk_at t) ≤ last + g ∧ paced g (unix_ns (tk_at t)) ticks
  end.

Lemma pass_in_time g last skipped t r :
  last < unix_ns (nextRenewLocked r) → paced g last (skipped ++ [t]) →
  Forall (λ o, o = Idle) (Serve skipped r).1 → unix_ns (tk_at t) < unix_ns (nextRenewLocked r) + g.
Proof.
  revert last. induction skipped as [|s skipped IH]; intros last Hl Hp Hi; [cbn in Hp; lia|].
  destruct Hp as [_ Hp]. cbn in Hi. destruct (serve_tick s r) as [o r1] eqn:Et.
  destruct (Serve skipped r1) as [os r2] eqn:Es. apply Forall_cons in Hi as [-> Hi].
  destruct (serve_tick_exact _ _ _ _ Et) as (-> & _ & Hlt). apply (IH (unix_ns (tk_at s))); [done|done|]. by rewrite Es.
Qed.

(** C19: a relay reservation counts as ready only while the latest pass succeeded, and then its
    renewal is due strictly before it expires, at the later of the expiration less the margin
    and the minimal delay after the pass; a tick does nothing exactly while the relay is
    connected and that instant lies ahead, otherwise it makes one pass, which succeeds exactly
    when the relay grants a reservation that outlives the minimal delay; and when ticks are at
    most [g] apart and the reservation lasts [g] beyond its renewal instant, the next pass
    starts before it expires; the default margin, delay and period give that to every
    reservation of at least 35 seconds. *)
Theorem reservation_maintained :
  (∀ margin ticks os r, Serve ticks (NewRelayReservation margin) = (os, r) → held r) ∧
  (∀ m now r u r', Acquire m now r = (u, r') → 0 < rs_margin r →
     (u = Ok tt ↔ ∃ e, m = Ok e ∧ unix_ns now + rs_minDelay r < unix_ns e) ∧ (rs_ready r' = true ↔ u = Ok tt)) ∧
  (∀ t r o r', serve_tick t r = (o, r') →
     (o = Idle ↔ tk_connected t = true ∧
        unix_ns (tk_at t) < Z.max (unix_ns (rs_expires r) - rs_margin r) (unix_ns (rs_lastMaintained r) + rs_minDelay r)) ∧
     (o = Idle → r' = r) ∧ (o = OnReady → rs_ready r' = true ∧ rs_lastMaintained r' = tk_recorded t) ∧
     (∀ e, o = OnFailure e → rs_ready r' = false)) ∧
  (∀ g r skipped t, 0 < rs_minDelay r → paced g (unix_ns (rs_lastMaintained r)) (skipped ++ [t]) →
     g ≤ unix_ns (rs_expires r) - unix_ns (nextRenewLocked r) → Forall (λ o, o = Idle) (Serve skipped r).1 →
     unix_ns (tk_at t) < unix_ns (rs_expires r)) ∧
  (∀ m now e r, Acquire m now (NewRelayReservation 0) = (Ok tt, r) → rs_expires r = e → 35 * Second ≤ unix_ns e - unix_ns now →
     DefaultMaintenanceTick ≤ unix_ns (rs_expires r) - unix_ns (nextRenewLocked r)).
Proof.
  split_and!.
  - intros margin ticks os r Hs. by apply (serve_held _ _ _ _ Hs).
  - intros m now r u r' Ha Hm. pose proof (acquire_exact _ _ _ _ _ Ha) as (_ & _ & Hu). split.
    + split; [intros ->; destruct Hu as (_ & -> & _ & _ & Hl); by exists (rs_expires r')|]. intros (e & -> & Hl).
      unfold Acquire, record in Ha. cbv zeta in Ha. unfold Before in Ha. rewrite next_renew_max in Ha. cbn in Ha.
      destruct (Z.ltb_spec (Z.max (unix_ns e - rs_margin r) (unix_ns now + rs_minDelay r)) (unix_ns e)); [by injection Ha as <- _|lia].
    + destruct u as [[]|e]; [by destruct Hu as [-> _]|by rewrite Hu].
  - intros t r o r' Ht. pose proof (serve_tick_exact _ _ _ _ Ht) as He. rewrite <- next_renew_max. split_and!.
    + split; [by intros ->; destruct He as (_ & Hc & Hlt)|]. intros [Hc Hlt]. destruct o as [| |e]; [done|..]; destruct He as [He _]; specialize (He Hc); lia.
    + by intros ->; destruct He as (-> & _).
    + intros ->. destruct He as [_ (_ & _ & Hr & _ & Hl & _)%acquire_exact]. done.
    + intros e ->. by destruct He as [_ (_ & _ & Hr)%acquire_exact].
  - intros g r skipped t Hd Hp Hg Hi.
    pose proof (pass_in_time g (unix_ns (rs_lastMaintained r)) skipped t r) as Hx. rewrite next_renew_max in *. specialize (Hx ltac:(lia) Hp Hi). lia.
  - intros m now e r (Hsp & _ & _ & _ & Hl & _ & Ht)%acquire_exact He Hlen. rewrite next_renew_max, Hl. destruct Hsp as [-> ->].
    cbn in *. subst e. unfold DefaultMaintenanceTick, DefaultReservationMargin, minimumRenewDelay, Minute, Second in *. lia.
Qed.

(** ** A reservation between the minimal delay and one period more *)
Definition quiet (s : Z) : tick := mkTick true (mkTime (s * Second) 0) (Fail (errorf "unused")) zero_time zero_time.

Lemma reservation_maintained_witness :
  held (Serve [quiet 4; quiet 9] (Acquire (Ok (mkTime (40 * Second) 0)) (mkTime 0 0) (NewRelayReservation 0)).2).2 ∧
  unix_ns (tk_at (quiet 34)) < 40 * Second.
Proof.
  destruct reservation_maintained as (_ & _ & _ & Ht & Hd). split; [by vm_compute|].
  apply (Ht DefaultMaintenanceTick (Acquire (Ok (mkTime (40 * Second) 0)) (mkTime 0 0) (NewRelayReservation 0)).2
           [quiet 4; quiet 9; quiet 14; quiet 19; quiet 24; quiet 29] (quiet 34)); [by vm_compute|by vm_compute| |repeat constructor].
  apply (Hd (Ok (mkTime (40 * Second) 0)) (mkTime 0 0) (mkTime (40 * Second) 0)); by vm_compute.
Defined.

(** A reservation of 31 seconds counts as ready, but with ticks five seconds apart its
    renewal can start three seconds after it expired. *)
Lemma short_reservation_lapses :
  ∃ r skipped t, Acquire (Ok (mkTime (31 * Second) 0)) (mkTime 0 0) (NewRelayReservation 0) = (Ok tt, r) ∧
    paced DefaultMaintenanceTick 0 (skipped ++ [t]) ∧ Forall (λ o, o = Idle) (Serve skipped r).1 ∧
    rs_ready (Serve skipped r).2 = true ∧ unix_ns (tk_at t) = unix_ns (rs_expires r) + 3 * Second.
Proof.
  eexists _, [quiet 4; quiet 9; quiet 14; quiet 19; quiet 24; quiet 29], (quiet 34).
  split; [reflexivity|]. split; [by vm_compute|]. split; [repeat constructor|]. by vm_compute.
Qed.

(** ** Records *)
Section publishing.
Context `{Ed25519Laws} {W : Type} (io : PublishPorts W) (pu : publication).
Import TokenFacts RecordFacts.

(** The Pipe of the owner's key, with settings that a published Pipe may have. *)
Record publishable : Prop := {
  pb_scope : ScopeValidate (pu_scope pu) = Ok tt;
  pb_pipe : p_PipeID (pu_spec pu) = Tokens.PipeID (Public (pu_owner pu));
  pb_visibility : Records.published_visibility (p_Visibility (pu_spec pu)) = true;
  pb_access : Records.access_hint (p_Access (pu_spec pu)) = true;
  pb_address : slen (pu_address pu) ≤ 8192 }.

Record granted (now : Z) (gs : grant_state) : Prop := {
  gr_decodes : Tokens.Decode (gs_text gs) = Ok (gs_grant gs);
  gr_form : token_form (gs_grant gs) (pu_authority pu);
  gr_type : Tokens.Type_ (gs_grant gs) = "pipe.publish";
  gr_audience : Tokens.Audience (gs_grant gs) = p_PipeID (pu_spec pu);
  gr_scope : Tokens.InScope (gs_grant gs) = pu_scope pu;
  gr_issued : unix_ns (Tokens.IssuedAt (gs_grant gs)) ≤ now + 30 * Second;
  gr_sequence : 0 ≤ gs_sequence gs }.

Lemma granted_later now now' gs : granted now gs → now ≤ now' → granted now' gs.
Proof. intros [] ?. constructor; try done. lia. Qed.

Lemma accept_grant_ok text now e value sequence :
  accept_grant pu text now e = Ok value → 0 ≤ sequence → granted (unix_ns now) (mkGrant text value sequence).
Proof.
  intros Ha Hs. unfold accept_grant in Ha. apply bind_ok in Ha as (v & Hd%relabel_ok & Ha).
  apply bind_ok in Ha as ([] & Hv%relabel_ok & Ha). apply bind_ok in Ha as ([] & Hg%refuse_ok & [= ->]).
  apply Token_Verify_spec in Hv as [Hf [Hl _]]; [|unfold steady; by destruct (IsZero now)].
  apply orb_false_elim in Hg as [Hg Hsc]. apply orb_false_elim in Hg as [Ht Hau].
  apply negb_false_iff, seqb_true in Ht, Hau. apply negb_false_iff, bool_decide_eq_true in Hsc. by constructor.
Qed.

Lemma refresh_granted now gs w gs' w' :
  granted (unix_ns now) gs → refreshGrant io pu now gs w = (Ok gs', w') →
  granted (unix_ns now) gs' ∧ gs_sequence gs' = gs_sequence gs.
Proof.
  intros Hg Hr. unfold refreshGrant in Hr. destruct (After _ _); [by injection Hr as <- _|].
  apply bind_run in Hr as (text & w1 & _ & Hr). apply bind_run in Hr as (v & w2 & [Hv _]%lift_run & Hr).
  apply bind_run in Hr as ([] & w3 & _ & [= <- _]). split; [|done]. by eapply accept_grant_ok; [|apply Hg].
Qed.

(** A record that was accepted, with the next sequence and within the grant. *)
Record sound_record (now : time) (sequence : Z) (r : Records.PipeRecord) : Prop := {
  so_verifies : ∀ wall now', steady wall now' → unix_ns now ≤ unix_ns now' < unix_ns (Records.ExpiresAt r) →
    Records.Verify wall r (pu_authority pu) (pu_scope pu) now' = Ok tt;
  so_issued : Records.IssuedAt r = now;
  so_expires : unix_ns now < unix_ns (Records.ExpiresAt r) ≤ unix_ns now + 60 * Minute;
  so_sequence : Records.Sequence r = Z.max (unix_ns now) (sequence + 1) }.

Lemma record_sign_inv r k r' :
  Records.Sign r k = Ok r' → ∃ m, Records.signingBytes r' = Ok m ∧
  r' = Records.set_signature (base64_encode (SignMsg k m)) (Records.set_owner (base64_encode (Public k)) r).
Proof.
  unfold Records.Sign. cbv zeta. intros Hs. apply bind_ok in Hs as (m & Hm & [= <-]). exists m. split; [|done].
  rewrite <- Hm. by destruct r.
Qed.

Lemma next_record_sound now gs r :
  publishable → granted (unix_ns now) gs → 0 ≤ unix_ns now < 2 ^ 63 → gs_sequence gs < 2 ^ 64 - 1 →
  next_record pu now gs = Ok r → sound_record now (gs_sequence gs) r.
Proof.
  intros Hp Hg Hnow Hseq Hn. unfold next_record in Hn. cbv zeta in Hn. apply bind_ok in Hn as ([] & Hx%refuse_ok & Hn).
  apply negb_false_iff, Z.ltb_lt in Hx. apply record_sign_inv in Hn as (m & Hm & Hr).
  pose proof (gr_sequence _ _ Hg) as Hs0.
  assert (Hsq : Records.Sequence r = Z.max (unix_ns now) (gs_sequence gs + 1)).
  { rewrite Hr. cbn [Records.Sequence Records.set_signature Records.set_owner]. unfold uint64. rewrite (Z.mod_small (unix_ns now)) by lia.
    destruct (Z.leb_spec (unix_ns now) (gs_sequence gs)); [rewrite Z.mod_small by lia|]; lia. }
  assert (Hex : unix_ns (Records.ExpiresAt r) = Z.min (unix_ns (Tokens.ExpiresAt (gs_grant gs))) (unix_ns now + 60 * Minute)).
  { rewrite Hr. cbn [Records.ExpiresAt Records.set_signature Records.set_owner]. unfold Before. cbn [Add unix_ns].
    destruct (Z.ltb_spec (unix_ns (Tokens.ExpiresAt (gs_grant gs))) (unix_ns now + 60 * Minute)); cbn [Add unix_ns]; lia. }
  assert (Hlt : unix_ns now < unix_ns (Records.ExpiresAt r)) by (rewrite Hr; exact Hx).
  assert (Hi : Records.IssuedAt r = now) by (by rewrite Hr). constructor; [|done|lia|done].
  intros wall now' Hst [H1 H2]. apply (Record_Verify_spec _ _ _ _ _ Hst). exists (gs_grant gs).
  split; [|unfold record_live; pose proof (gr_issued _ _ Hg); rewrite Hi; unfold Minute in *; unfold Second in *; lia].
  destruct Hp, Hg. constructor; try (by rewrite Hr); [by rewrite Hsq; lia|by rewrite Hr; apply Forall_singleton| |].
  - exists (Public (pu_owner pu)), (SignMsg (pu_owner pu) m), m.
    replace (Records.OwnerPublicKey r) with (base64_encode (Public (pu_owner pu))) by (by rewrite Hr).
    replace (Records.Signature r) with (base64_encode (SignMsg (pu_owner pu) m)) by (by rewrite Hr).
    replace (Records.PipeID r) with (p_PipeID (pu_spec pu)) by (by rewrite Hr).
    split_and!; [|done|apply base64_decode_encode|done|apply VerifyMsg_SignMsg].
    unfold Tokens.PublicFromString. rewrite base64_decode_encode. cbn [need mbind res_bind]. by rewrite Public_size.
  - constructor; [by rewrite Hr|done|done|by rewrite Hr|by rewrite Hr|lia].
Qed.

Lemma publish_sound now gs w r gs' w' :
  publishable → granted (unix_ns now) gs → 0 ≤ unix_ns now < 2 ^ 63 → gs_sequence gs < 2 ^ 64 - 1 →
  publish io pu now gs w = (Ok (r, gs'), w') →
  sound_record now (gs_sequence gs) r ∧ granted (unix_ns now) gs' ∧ gs_sequence gs' = Records.Sequence r.
Proof.
  intros Hp Hg Hn Hs Hr. unfold publish in Hr. apply bind_run in Hr as (r1 & w1 & [Hr1 _]%lift_run & Hr).
  apply bind_run in Hr as (t & w2 & _ & Hr). apply bind_run in Hr as ([] & w3 & _ & [= <- <- _]).
  pose proof (next_record_sound _ _ _ Hp Hg Hn Hs Hr1) as Hso. split; [done|]. split; [|done].
  pose proof (so_sequence _ _ _ Hso) as Hq. destruct Hg. constructor; try done. cbn. lia.
Qed.

Lemma pass_sound now gs w u gs' w' :
  publishable → granted (unix_ns now) gs → 0 ≤ unix_ns now < 2 ^ 63 → gs_sequence gs < 2 ^ 64 - 1 →
  publish_pass io pu now gs w = (u, gs', w') →
  granted (unix_ns now) gs' ∧
  match u with
  | Ok r => sound_record now (gs_sequence gs) r ∧ gs_sequence gs' = Records.Sequence r
  | Fail _ => gs_sequence gs' = gs_sequence gs
  end.
Proof.
  intros Hp Hg Hn Hs Hr. unfold publish_pass in Hr. destruct (refreshGrant io pu now gs w) as [[gs1|e] w1] eqn:Ef.
  - destruct (refresh_granted _ _ _ _ _ Hg Ef) as [Hg1 Hq]. rewrite <- Hq in *.
    destruct (publish io pu now gs1 w1) as [[[r gs2]|e] w2] eqn:Ep; injection Hr as <- <- _; [|done].
    destruct (publish_sound _ _ _ _ _ _ Hp Hg1 Hn Hs Ep) as (? & ? & ?). done.
  - by injection Hr as <- <- _.
Qed.

(** ** Serving *)
(** The clock of publications does not go back and has 63 bits. *)
Fixpoint clocked (last : Z) (ticks : list tick) : Prop :=
  match ticks with
  | [] => True
  | t :: ticks => last ≤ unix_ns (tk_publish t) < 2 ^ 63 ∧ clocked (unix_ns (tk_publish t)) ticks
  end.
Fixpoint increasing (sequence : Z) (l : list Records.PipeRecord) : Prop :=
  match l with
  | [] => True
  | r :: l => sequence < Records.Sequence r ∧ increasing (Records.Sequence r) l
  end.

Definition accepted_record (r : Records.PipeRecord) : Prop :=
  (∀ wall now, steady wall now → unix_ns (Records.IssuedAt r) ≤ unix_ns now < unix_ns (Records.ExpiresAt r) →
     Records.Verify wall r (pu_authority pu) (pu_scope pu) now = Ok tt) ∧
  unix_ns (Records.IssuedAt r) < unix_ns (Records.ExpiresAt r) ≤ unix_ns (Records.IssuedAt r) + 60 * Minute.

Lemma sound_accepted now sequence r : sound_record now sequence r → accepted_record r.
Proof. intros [Hv Hi He _]. unfold accepted_record. rewrite Hi. done. Qed.

Record well_served (last bound : Z) (s : serving) : Prop := {
  ws_granted : granted last (sv_grant s);
  ws_bound : gs_sequence (sv_grant s) < bound;
  ws_held : held (sv_reservation s);
  ws_status : ru_Status (sv_run s) = "ready" → rs_ready (sv_reservation s) = true }.

Context (put : Run → W → W).

Lemma serving_tick_sound t s w a s' w' last bound :
  publishable → well_served last bound s → 0 ≤ last → 2 ^ 63 ≤ bound < 2 ^ 64 - 1 → last ≤ unix_ns (tk_publish t) < 2 ^ 63 →
  serving_tick put (Some (publish_pass io pu)) t s w = (a, s', w') →
  well_served (unix_ns (tk_publish t)) (bound + 1) s' ∧
  match a with
  | Some r => accepted_record r ∧ gs_sequence (sv_grant s) < Records.Sequence r ∧ gs_sequence (sv_grant s') = Records.Sequence r
  | None => gs_sequence (sv_grant s') = gs_sequence (sv_grant s)
  end.
Proof.
  intros Hp [Hg Hb Hh Hst] Hl Hbd Ht Hs. pose proof (granted_later _ _ _ Hg (proj1 Ht)) as Hg'. unfold serving_tick in Hs.
  destruct (serve_tick t (sv_reservation s)) as [o r] eqn:Eo. pose proof (serve_tick_held _ _ _ _ Eo Hh) as [Hh' _].
  apply serve_tick_exact in Eo. destruct o as [| |e].
  - destruct Eo as (-> & _). injection Hs as <- <- _. split; [|done]. constructor; cbn; [done|lia|done|done].
  - destruct Eo as [_ (_ & _ & Hr & _)%acquire_exact]. cbn [fmap option_fmap option_map onReady] in Hs.
    destruct (publish_pass io pu (tk_publish t) (sv_grant s) w) as [[u g] w1] eqn:Ep.
    destruct (pass_sound _ _ _ _ _ _ Hp Hg' ltac:(lia) ltac:(lia) Ep) as [Hg1 Hu].
    destruct u as [rec|e]; injection Hs as <- <- _; cbn [sv_grant].
    + destruct Hu as [Hso Hq]. pose proof (so_sequence _ _ _ Hso). split; [constructor; cbn; [done|lia|done|done]|].
      split; [by eapply sound_accepted|]. split; [lia|done].
    + split; [|done]. constructor; cbn; [done|lia|done|done].
  - cbn in Hs. injection Hs as <- <- _. split; [|done]. constructor; cbn; [done|lia|done|done].
Qed.

Lemma serving_sound ticks s w l s' w' last bound :
  publishable → well_served last bound s → 0 ≤ last → 2 ^ 63 ≤ bound → bound + llen ticks < 2 ^ 64 - 1 → clocked last ticks →
  serving_ticks put (Some (publish_pass io pu)) ticks s w = (l, s', w') →
  Forall accepted_record l ∧ increasing (gs_sequence (sv_grant s)) l ∧ held (sv_reservation s') ∧
  (ru_Status (sv_run s') = "ready" → rs_ready (sv_reservation s') = true).
Proof.
  intros Hp. revert s w l last bound. induction ticks as [|t ticks IH]; intros s w l last bound Hw Hl Hb Hbd Hc Hs.
  - injection Hs as <- <- _. by destruct Hw.
  - destruct Hc as [Hc1 Hc2]. rewrite llen_cons in Hbd. pose proof (llen_nonneg ticks). cbn [serving_ticks] in Hs.
    destruct (serving_tick put (Some (publish_pass io pu)) t s w) as [[a s1] w1] eqn:Et.
    destruct (serving_ticks put (Some (publish_pass io pu)) ticks s1 w1) as [[l1 s2] w2] eqn:El. injection Hs as <- <- <-.
    destruct (serving_tick_sound _ _ _ _ _ _ _ _ Hp Hw Hl ltac:(lia) Hc1 Et) as [Hw1 Ha].
    destruct (IH _ _ _ _ _ Hw1 ltac:(lia) ltac:(lia) ltac:(lia) Hc2 El) as (Hf & Hi & Hh & Hst).
    destruct a as [r|].
    + destruct Ha as (Hr & Hlt & Hq). rewrite Hq in Hi. split; [by constructor|]. done.
    + rewrite Ha in Hi. done.
Qed.

(** The grant that a publisher starts with: it is the stored text, verifies at the instant of
    the check under the key of the scope's authority, is a publish grant for this Pipe and
    scope, and is not below the revocation epoch that the store has at the start. *)
Record starts_with (text : string) (checked : time) (w : W) (g : Tokens.Token) : Prop := {
  sw_decodes : Tokens.Decode text = Ok g;
  sw_verifies : Tokens.Verify checked g (pu_authority pu) checked = Ok tt;
  sw_type : Tokens.Type_ g = "pipe.publish";
  sw_audience : Tokens.Audience g = p_PipeID (pu_spec pu);
  sw_scope : Tokens.InScope g = pu_scope pu;
  sw_epoch : ∃ epoch w0, pp_epoch io w = (Ok epoch, w0) ∧ epoch ≤ Tokens.PublishEpoch g;
}.

Lemma start_granted text sequence checked w gs w' :
  0 ≤ sequence → start_grant io pu text sequence checked w = (Ok gs, w') →
  granted (unix_ns checked) gs ∧ gs_sequence gs = sequence ∧ gs_text gs = text ∧ starts_with text checked w (gs_grant gs).
Proof.
  intros Hs Hg. unfold start_grant in Hg. apply bind_run in Hg as (g & w1 & [Ha <-]%lift_run & Hg).
  apply bind_run in Hg as (epoch & w2 & He%wrapped_run & Hg). apply bind_run in Hg as ([] & w3 & [Hlt _]%guard_run & [= <- _]).
  split; [by eapply accept_grant_ok|]. split; [done|]. split; [done|].
  unfold accept_grant in Ha. apply bind_ok in Ha as (v & Hd%relabel_ok & Ha).
  apply bind_ok in Ha as ([] & Hv%relabel_ok & Ha). apply bind_ok in Ha as ([] & Hc%refuse_ok & [= ->]).
  apply orb_false_elim in Hc as [Hc Hsc]. apply orb_false_elim in Hc as [Ht Hau].
  apply negb_false_iff, seqb_true in Ht, Hau. apply negb_false_iff, bool_decide_eq_true in Hsc. apply Z.ltb_ge in Hlt.
  constructor; try done. by exists epoch, w2.
Qed.

Lemma publish_grant now gs w r gs' w' : publish io pu now gs w = (Ok (r, gs'), w') → Records.PublishGrant r = gs_text gs.
Proof.
  intros Hr. unfold publish in Hr. apply bind_run in Hr as (r1 & w1 & [Hr1 _]%lift_run & Hr).
  apply bind_run in Hr as (t & w2 & _ & Hr). apply bind_run in Hr as ([] & w3 & _ & [= <- _ _]).
  unfold next_record in Hr1. cbv zeta in Hr1. apply bind_ok in Hr1 as ([] & _ & Hr1).
  apply record_sign_inv in Hr1 as (m & _ & ->). reflexivity.
Qed.

Lemma started_sound text maintained recorded checked now sequence run w r s w' :
  publishable → unix_ns checked ≤ unix_ns now → 0 ≤ unix_ns now < 2 ^ 63 → 0 ≤ sequence < 2 ^ 63 →
  start_published io pu text maintained recorded checked now sequence run w = (Ok (r, s), w') →
  (∃ expires, maintained = Ok expires) ∧ (∃ g, starts_with text checked w g) ∧ Records.PublishGrant r = text ∧
  accepted_record r ∧ sequence < Records.Sequence r ∧ Records.Sequence r = gs_sequence (sv_grant s) ∧
  rs_ready (sv_reservation s) = true ∧ well_served (unix_ns now) (2 ^ 63 + 1) s.
Proof.
  intros Hp Hck Hn Hs Hr. unfold start_published in Hr. destruct (Acquire maintained recorded (NewRelayReservation 0)) as [u rv] eqn:Ea.
  assert (Hm : u = Ok tt → ∃ expires, maintained = Ok expires).
  { intros ->. unfold Acquire in Ea. destruct maintained; [by eauto|]. cbn in Ea. by simplify_eq. }
  apply acquire_exact in Ea as (_ & Hh & Hu). apply bind_run in Hr as ([] & w1 & [-> <-]%lift_run & Hr).
  apply bind_run in Hr as (gs & w2 & Hg & Hr). destruct (start_granted _ _ _ _ _ _ (proj1 Hs) Hg) as (Hg1 & <- & <- & Hsw).
  apply (granted_later _ (unix_ns now)) in Hg1; [|done].
  apply bind_run in Hr as ([r1 gs1] & w3 & Hpb & [= <- <- _]).
  destruct (publish_sound _ _ _ _ _ _ Hp Hg1 Hn ltac:(lia) Hpb) as (Hso & Hg2 & Hq). pose proof (so_sequence _ _ _ Hso).
  destruct Hu as [Hu _]. split; [by apply Hm|]. split; [by eauto|]. split; [by eapply publish_grant|].
  split_and!; [by eapply sound_accepted|lia|done|done|]. constructor; cbn; [done|lia|done|done].
Qed.
End publishing.

(** C18: a published Pipe starts only once the relay granted its reservation, and with a
    publish grant that is current: the stored text decodes to a grant that verifies, at the
    instant of the check, under the key of the scope's authority, for this Pipe and scope, and
    whose publish epoch is not below the one the store has then; the first record carries that
    grant. From then on every record that it publishes, at the start and after each pass of
    maintenance, with refreshed grants as well, passes the verification of discovery records
    from its issue to its expiry, at most an hour later, and has a higher sequence than all
    before it, the stored one included; and the run reads ready only while the reservation
    does, which is then due for renewal strictly before it expires. *)
Theorem published_sound `{Ed25519Laws} {W} (io : PublishPorts W) (pu : publication) (put : Run → W → W)
    text maintained recorded checked now sequence run w r s w1 ticks l s' w2 :
  publishable pu → unix_ns checked ≤ unix_ns now → 0 ≤ unix_ns now < 2 ^ 63 → 0 ≤ sequence < 2 ^ 63 →
  llen ticks < 2 ^ 62 → clocked (unix_ns now) ticks →
  start_published io pu text maintained recorded checked now sequence run w = (Ok (r, s), w1) →
  serving_ticks put (Some (publish_pass io pu)) ticks s w1 = (l, s', w2) →
  (∃ expires, maintained = Ok expires) ∧ rs_ready (sv_reservation s) = true ∧
  (∃ g, starts_with io pu text checked w g) ∧ Records.PublishGrant r = text ∧
  Forall (accepted_record pu) (r :: l) ∧ increasing sequence (r :: l) ∧
  (ru_Status (sv_run s') = "ready" →
     rs_ready (sv_reservation s') = true ∧
     unix_ns (nextRenewLocked (sv_reservation s')) < unix_ns (rs_expires (sv_reservation s'))).
Proof.
  intros Hp Hck Hn Hs Hl Hc Hst Hsv.
  destruct (started_sound io pu put text maintained recorded checked now sequence run w r s w1 Hp Hck Hn Hs Hst)
    as (Hm & Hsw & Hgr & Hr & Hlt & Hq & Hready & Hw).
  destruct (serving_sound io pu put ticks s w1 l s' w2 (unix_ns now) (2 ^ 63 + 1) Hp Hw ltac:(lia) ltac:(lia) ltac:(lia) Hc Hsv)
    as (Hf & Hi & Hh & Hrd).
  split; [done|]. split; [done|]. split; [done|]. split; [done|].
  split; [by constructor|]. split; [split; [done|]; by rewrite Hq|]. intros Hx. specialize (Hrd Hx). split; [done|by apply Hh].
Qed.

(** ** A local publisher *)
Module PublishSample.
Import SampleKeys.
Definition web : PipeSpec := Eval vm_compute in
  mkPipe (mkRef KindPipe "web") (Tokens.PipeID (fixed32 owner_key)) (Some (mkScope "home" "lab"))
    (mkIngress IngressTubo "" "" "" "raw") (mkRef KindService "web") VisibilityUnlisted AccessMembers false noon noon.
Definition web_publication : publication (H := keys) :=
  mkPublication (H := keys) web (mkScope "home" "lab") "peer" "/ip4/10.0.0.1/tcp/4001" (owner_key : @PrivateKey keys)
    (fixed32 authority_key) false.
Definition web_ports : PublishPorts (H := keys) nat :=
  mkPublishPorts (H := keys) (mret 0) (fail (errorf "offline")) (mret (authority_key : @PrivateKey keys)) (mret (rnd16, noon)) (λ _, mret tt)
    (λ _, mret tt) (λ _, fail (errorf "offline")) (λ _ w, (Ok tt, S w)).
Definition web_grant : string := Eval vm_compute in
  match (t ← Tokens.NewToken rnd16 noon "pipe.publish" (mkScope "home" "lab") "owner" (p_PipeID web) (20 * (60 * Minute));
         t ← Tokens.Sign (H := keys) t (authority_key : @PrivateKey keys); Tokens.Encode t) with Ok text => text | Fail _ => "" end.
Definition web_run : Run := mkRun "pipe/web" "pipe" 4711 "4711:start" "foreground" "starting" "peer" "" noon noon.
Definition web_started := Eval vm_compute in
  start_published (H := keys) web_ports web_publication web_grant (Ok (Add noon (60 * Minute))) noon noon noon 5 web_run 0%nat.
(** The relay is lost a minute later and found again; the grant is refreshed. *)
Definition web_ticks : list tick :=
  [mkTick false (Add noon Minute) (Fail (errorf "unreachable")) (Add noon Minute) (Add noon Minute);
   mkTick false (Add noon (2 * Minute)) (Ok (Add noon (90 * Minute))) (Add noon (2 * Minute)) (Add noon (2 * Minute))].
Definition web_first : Records.PipeRecord := Eval vm_compute in
  match web_started.1 with Ok (r, _) => r | Fail _ => Records.no_record end.
Definition web_serving : serving (G := grant_state) := Eval vm_compute in
  match web_started.1 with Ok (_, s) => s | Fail _ => mkServing (NewRelayReservation 0) web_run (mkGrant "" Tokens.no_token 0) end.
Definition web_served := Eval vm_compute in
  serving_ticks (λ _ w, w) (Some (publish_pass (H := keys) web_ports web_publication)) web_ticks web_serving 1%nat.
End PublishSample.
Import SampleKeys PublishSample.

Lemma published_sound_witness :
  length web_served.1.1 = 1%nat ∧ (∃ g, starts_with (H := keys) web_ports web_publication web_grant noon 0%nat g) ∧
  Forall (accepted_record (H := keys) web_publication) (web_first :: web_served.1.1) ∧
  increasing 5 (web_first :: web_served.1.1) ∧ rs_ready (sv_reservation web_served.1.2) = true.
Proof.
  destruct (published_sound (H := keys) web_ports web_publication (λ _ w, w) web_grant (Ok (Add noon (60 * Minute))) noon noon noon 5
              web_run 0%nat web_first web_serving 1%nat web_ticks web_served.1.1 web_served.1.2 web_served.2)
    as (_ & _ & Hg & _ & Hf & Hi & Hr).
  - constructor; [reflexivity..|]. by vm_compute.
  - by vm_compute.
  - split; by vm_compute.
  - by split.
  - by vm_compute.
  - repeat split; by vm_compute.
  - vm_compute. reflexivity.
  - vm_compute. reflexivity.
  - split; [reflexivity|]. split; [exact Hg|]. split; [exact Hf|]. split; [exact Hi|]. by apply Hr.
Defined.
