(* ===== verification/RunControl.v ===== *)
(** * Control of running Pipes

    Starting, stopping, restarting and removing Pipes: [internal/cli/operations.go]
    ([stopRunAndWait], [restart], [staleRuns], [remove], [stop]), [internal/cli/app.go]
    ([startDetached], [reserveForeground], [cleanupStarting], [runPipeForeground]),
    [internal/cli/supervisor.go] ([supervisorAllowsCurrentSource] and the health of runs) and
    the registry of supervisors of [internal/store/store.go].

    A handler runs beside other processes. The class [Machine] says what it meets at each
    instant: the clock, the process table that [ps] prints, whether its context is cancelled,
    whether signals and programs start, and what the others do to the registry of runs. Every
    operation on that machine takes one instant and is written to a log, so that the
    theorems can say what had been seen before a process was signalled. *)
From S2P Require Import Prelude GoStrings GoTime Encoding Json Domain StoreSync StoreObjects Effects ScopeSync.
Open Scope Z_scope.

(** ** Supervisors ([store.go]) *)
Record Supervisor := mkSupervisor {
  su_PrimaryRef : string; su_Manager : string; su_Label : string; su_UnitPath : string;
  su_InstalledAt : time; su_UpdatedAt : time }.
Record supervisor_row := mkSupervisorRow {
  sp_manager : string; sp_label : string; sp_unit : string; sp_installed : string; sp_updated : string }.
Definition supervisors_table := gmap string supervisor_row.

Definition PutSupervisor (now : time) (v : Supervisor) (d : supervisors_table) : res unit * supervisors_table :=
  if (su_PrimaryRef v =s "") || (su_Manager v =s "") || (su_Label v =s "") || (su_UnitPath v =s "")
  then (Fail (errorf "supervisor fields are required"), d)
  else if negb (mem_str (su_Manager v) ["launchd"; "systemd"]) then (Fail (errorf "unsupported supervisor manager"), d)
  else
    let installed := if IsZero (su_InstalledAt v) then UTC now else su_InstalledAt v in
    let installed := match d !! su_PrimaryRef v with Some row => sp_installed row | None => RFC3339Nano installed end in
    (Ok tt, <[su_PrimaryRef v := mkSupervisorRow (su_Manager v) (su_Label v) (su_UnitPath v) installed (column_time now)]> d).

Definition SupervisorOf (d : supervisors_table) (ref : string) : res Supervisor :=
  row ← need (d !! ref) (wrapf ErrNotFound "resource not found: supervisor");
  Ok (mkSupervisor ref (sp_manager row) (sp_label row) (sp_unit row) (parse_or_zero (sp_installed row)) (parse_or_zero (sp_updated row))).

Definition DeleteSupervisor (ref : string) (d : supervisors_table) : res unit * supervisors_table := (Ok tt, delete ref d).

(** ** The machine *)
Class Machine := {
  clock : nat → time;
  process_table : nat → Z → res string;     (* the trimmed output of ps *)
  ctx_cancelled : nat → bool;
  delivers : nat → Z → res unit;            (* FindProcess and Signal *)
  starts : nat → string → res Z;            (* the executable, its log file and Start: a pid *)
  removes_file : nat → string → res unit;
  others : nat → runs_table → runs_table;
  run_source : string }.                    (* TUBO_RUN_SOURCE *)

Inductive event :=
  | Read (ref : string) (run : option Run)
  | Saw (pid : Z) (identity : res string)
  | Signalled (pid : Z)
  | Spawned (ref : string) (pid : Z)
  | Killed (pid : Z)
  | RunRemoved (ref : string)
  | RunReserved (ref : string)
  | PipeRemoved (ref : string).

Record control := mkControl {
  k_now : nat; k_runs : runs_table; k_supervisors : supervisors_table; k_objects : objects; k_log : list event }.

Section control.
Context `{Machine}.
Local Abbreviation MC := (M control).

(** One instant passes: others work on the registry of runs. *)
Definition advance (w : control) : control :=
  mkControl (S (k_now w)) (others (k_now w) (k_runs w)) (k_supervisors w) (k_objects w) (k_log w).
Definition logged (e : event) (w : control) : control :=
  mkControl (k_now w) (k_runs w) (k_supervisors w) (k_objects w) (k_log w ++ [e]).
Definition on_runs (f : runs_table → runs_table) (w : control) : control :=
  mkControl (k_now w) (f (k_runs w)) (k_supervisors w) (k_objects w) (k_log w).
Definition on_objects (d : objects) (w : control) : control :=
  mkControl (k_now w) (k_runs w) (k_supervisors w) d (k_log w).

Definition time_now : MC time := λ w, let w := advance w in (Ok (clock (k_now w)), w).
Definition cancelled : MC bool := λ w, let w := advance w in (Ok (ctx_cancelled (k_now w)), w).

(** [store.ProcessIdentity]. *)
Definition identity_at (n : nat) (pid : Z) : res string :=
  _ ← refuse (pid <=? 0) (errorf "invalid pid");
  identity ← process_table n pid;
  _ ← refuse (identity =s "") (errorf "process not found");
  Ok (of_bytes (json_int pid) +:+ ":" +:+ identity).
(** The error is a value: the callers decide what it means. *)
Definition ProcessIdentity (pid : Z) : MC (res string) := λ w,
  let w := advance w in let r := identity_at (k_now w) pid in (Ok r, logged (Saw pid r) w).

(** [state.Run], with its error as a value. *)
Definition read_run (ref : string) : MC (option Run) := λ w,
  let w := advance w in
  let run := match RunNamed (k_runs w) ref with Ok run => Some run | Fail _ => None end in (Ok run, logged (Read ref run) w).
Definition delete_run (ref : string) : MC unit := λ w,
  let w := advance w in let '(r, d) := DeleteRun ref (k_runs w) in (r, logged (RunRemoved ref) (on_runs (λ _, d) w)).
Definition reserve_run (ref kind : string) : MC unit := λ w,
  let w := advance w in
  match ReserveRun (clock (k_now w)) ref kind (k_runs w) with
  | (Ok _, d) => (Ok tt, logged (RunReserved ref) (on_runs (λ _, d) w))
  | (Fail e, _) => (Fail e, w)
  end.
Definition signal (pid : Z) : MC unit := λ w,
  let w := advance w in (delivers (k_now w) pid, logged (Signalled pid) w).
Definition supervisor (ref : string) : MC (res Supervisor) := λ w, (Ok (SupervisorOf (k_supervisors w) ref), w).

(** ** Supervision ([supervisor.go]) *)
Definition supervisorAllowsCurrentSource (ref : string) : MC unit :=
  value ← supervisor ref;
  match value with
  | Fail e => if errors_Is e ErrNotFound then mret tt else fail e
  | Ok v => guard (negb (run_source =s su_Manager v)) (errorf "conflict: is supervised; use tubo supervise uninstall")
  end.

Definition is_process (run : Run) (identity : res string) : bool :=
  match identity with Ok id => id =s ru_ProcessIdentity run | Fail _ => false end.

Definition runProcessLive (run : Run) : MC bool :=
  identity ← ProcessIdentity (ru_PID run);
  mret (is_process run identity && (ru_ProcessIdentity run <>s "")).

Definition supervisorRunHealthy (run : Run) (source : string) : MC bool :=
  live ← runProcessLive run;
  mret (live && (ru_Source run =s source) && ((ru_Status run =s "ready") || (ru_Status run =s "degraded"))).

(** [localPipeStatus] of [pipe_views.go]; [None] for a run that is not found. *)
Definition localPipeStatus (run : option Run) : MC string :=
  match run with
  | None => mret "defined"
  | Some run =>
      if (ru_Status run =s "ready") || (ru_Status run =s "starting") || (ru_Status run =s "degraded") then
        identity ← ProcessIdentity (ru_PID run);
        mret (if is_process run identity then ru_Status run else "stale")
      else mret (ru_Status run)
  end.

(** ** Stopping ([operations.go]) *)

(** The polls fit in the fifteen seconds: a pass waits at least 100 milliseconds. *)
Definition polls : nat := 151.
Definition did_not_stop : error := errorf "readiness_failed: process did not stop".

Fixpoint await_end (fuel : nat) (deadline : time) (ref : string) (run : Run) : MC unit :=
  match fuel with
  | O => fail did_not_stop
  | S fuel =>
      t ← time_now;
      if negb (Before t deadline) then fail did_not_stop else
      current ← ProcessIdentity (ru_PID run);
      if negb (is_process run current) then delete_run ref else
      stop ← cancelled;
      if stop : bool then fail (wrapf ErrCanceled "context canceled") else await_end fuel deadline ref run
  end.

Definition stale_identity : error := errorf "conflict: stale process identity; refusing to signal PID".
(** The part that [stopRunAndWait] and [stop] share: an interrupt for the recorded process. *)
Definition interrupt (run : Run) : MC unit :=
  identity ← ProcessIdentity (ru_PID run);
  match identity with
  | Fail _ => fail (errorf "not_found: process is not running")
  | Ok id =>
      _ ← guard ((ru_ProcessIdentity run =s "") || (id <>s ru_ProcessIdentity run)) stale_identity;
      signal (ru_PID run)
  end.

Definition run_not_found : error := wrapf ErrNotFound "resource not found: run".

(** The recorded run is read and its process interrupted. *)
Definition interrupt_run (ref : string) (missing : error) : MC Run :=
  found ← read_run ref;
  run ← wired found missing;
  _ ← interrupt run;
  mret run.

Definition stopRunAndWait (ref : string) : MC unit :=
  run ← interrupt_run ref run_not_found;
  t ← time_now;
  await_end polls (Add t (15 * Second)) ref run.

Definition stop (ref : string) : MC unit :=
  _ ← supervisorAllowsCurrentSource ref;
  _ ← interrupt_run ref (errorf "not_found: is not running");
  mret tt.

(** ** Starting ([app.go]) *)
Fixpoint await_ready (fuel : nat) (deadline : time) (ref : string) (pid : Z) : MC Run :=
  let gone := errorf "readiness_failed: child did not become ready" in
  match fuel with
  | O => fail gone
  | S fuel =>
      t ← time_now;
      if negb (Before t deadline) then fail gone else
      found ← read_run ref;
      match found with
      | Some run => if (ru_Status run =s "ready") && (ru_PID run =? pid) then mret run else await_ready fuel deadline ref pid
      | None => await_ready fuel deadline ref pid
      end
  end.

Definition spawn (ref : string) : MC Z := λ w,
  let w := advance w in
  match starts (k_now w) ref with
  | Ok pid => (Ok pid, logged (Spawned ref pid) w)
  | Fail e => (Fail e, w)
  end.
Definition kill (pid : Z) : MC unit := λ w, (Ok tt, logged (Killed pid) (advance w)).

(** A run in the way of a new one: a live ready one is given to [live]; one that is starting
    is a conflict; any other row is removed. *)
Definition clear_run {A} (ref : string) (live : Run → MC (option A)) : MC (option A) :=
  existing ← read_run ref;
  match existing with
  | None => mret None
  | Some existing =>
      alive ← (if ru_Status existing =s "ready" then
                 identity ← ProcessIdentity (ru_PID existing); mret (is_process existing identity)
               else mret false);
      if alive : bool then live existing
      else if ru_Status existing =s "starting" then fail (errorf "conflict: is already starting")
      else _ ← delete_run ref; mret None
  end.

(** On a failure the reservation is removed; a child that did not become ready is killed
    before. [command.ProcessState] stays nil until [Wait], so that the loop does not notice
    a child that exited. *)
Definition launch (ref : string) : MC Run :=
  pid ← spawn ref;
  t ← time_now;
  ready ← attempt (await_ready polls (Add t (15 * Second)) ref pid);
  match ready with
  | Ok run => mret run
  | Fail e => _ ← kill pid; fail e
  end.

Definition startDetached (ref : string) : MC Run :=
  _ ← supervisorAllowsCurrentSource ref;
  running ← clear_run ref (λ existing, mret (Some existing));
  match running with
  | Some existing => mret existing
  | None =>
      _ ← reserve_run ref "pipe";
      started ← attempt (launch ref);
      match started with
      | Ok run => mret run
      | Fail e => _ ← delete_run ref; fail e
      end
  end.

Definition reserveForeground (ref kind : string) : MC unit :=
  _ ← supervisorAllowsCurrentSource ref;
  _ ← clear_run (A := unit) ref (λ _, fail (errorf "conflict: is already running"));
  reserve_run ref kind.

Definition cleanupStarting (ref : string) : MC unit :=
  run ← read_run ref;
  match run with
  | Some run => if ru_Status run =s "starting" then delete_run ref else mret tt
  | None => mret tt
  end.

(** [run] is [RunPipe] in this process. *)
Definition runPipeForeground (ref : string) (run : MC unit) : MC unit :=
  _ ← reserveForeground ref "pipe";
  err ← attempt run;
  _ ← cleanupStarting ref;
  lift err.

(** ** Restarting and removing ([operations.go]) *)
(** A recorded run in the way of a restart, which forces, or of a removal. *)
Definition settle_run (ref : string) (force : bool) : MC unit :=
  existing ← read_run ref;
  match existing with
  | None => mret tt
  | Some run =>
      identity ← ProcessIdentity (ru_PID run);
      if is_process run identity then
        if negb force then fail (errorf "conflict: is running") else stopRunAndWait ref
      else delete_run ref
  end.

Definition pipe_defined (ref : string) : MC unit := λ w, (_ ← Pipe (k_objects w) ref; Ok tt, w).

Definition restart (ref : string) : MC Run :=
  _ ← guard (match ParseRef ref with Ok parsed => Kind parsed <>s KindPipe | Fail _ => true end)
        (errorf "invalid_input: restart requires a pipe ref like pipe/<name>");
  _ ← pipe_defined ref;
  _ ← supervisorAllowsCurrentSource ref;
  _ ← settle_run ref true;
  startDetached ref.

Definition stale (run : Run) : MC bool :=
  if ru_PID run <=? 0 then
    t ← time_now;
    mret ((ru_Status run =s "stopped") || (30 * Second <? Sub t (ru_UpdatedAt run)))
  else
    identity ← ProcessIdentity (ru_PID run);
    mret (negb (is_process run identity)).

Fixpoint remove_stale (runs : list Run) : MC (list string) :=
  match runs with
  | [] => mret []
  | run :: runs =>
      supervised ← supervisor (ru_PrimaryRef run);
      match supervised with
      | Ok _ => remove_stale runs
      | Fail e =>
          _ ← guard (negb (errors_Is e ErrNotFound)) e;
          old ← stale run;
          if old : bool then
            _ ← delete_run (ru_PrimaryRef run);
            removed ← remove_stale runs;
            mret (ru_PrimaryRef run :: removed)
          else remove_stale runs
      end
  end.

Definition staleRuns : MC (list string) :=
  runs ← (λ w, let w := advance w in (Runs (k_runs w), w));
  remove_stale runs.

Definition delete_pipe (ref : string) : MC string := λ w,
  match DeletePipe ref (k_objects w) with
  | (Ok key, d) => (Ok key, logged (PipeRemoved ref) (on_objects d w))
  | (Fail e, _) => (Fail e, w)
  end.
Definition delete_service (ref : string) : MC unit := λ w,
  let '(r, d) := DeleteService ref (k_objects w) in (r, on_objects d w).
Definition remove_file (path : string) : MC unit := λ w, let w := advance w in (removes_file (k_now w) path, w).

Definition remove_secret (key : string) : MC unit :=
  if key =s "" then mret tt else
  removed ← attempt (remove_file key);
  match removed with
  | Ok _ => mret tt
  | Fail e => if errors_Is e ErrNotExist then mret tt
              else fail (prefixed "persistence_failed: pipe removed but secret cleanup failed: " e)
  end.

Definition remove_pipe (ref : string) (force : bool) : MC unit :=
  _ ← supervisorAllowsCurrentSource ref;
  _ ← settle_run ref force;
  key ← delete_pipe ref;
  remove_secret key.

(** What [remove] did: the references of stale runs, or one resource. *)
Definition remove (args : list string) (stale_ force : bool) : MC (list string) :=
  match args with
  | [] => fail (errorf "invalid_input: rm requires a resource ref or --stale")
  | arg :: _ =>
      if stale_ then staleRuns else
      ref ← lift (ParseRef arg);
      if Kind ref =s KindPipe then _ ← remove_pipe (RefString ref) force; mret [RefString ref]
      else if Kind ref =s KindService then _ ← delete_service (RefString ref); mret [RefString ref]
      else fail (errorf "invalid_input: rm supports service/<name> or pipe/<name>")
  end.
End control.
