(* ===== verification/RunControlProps.v ===== *)
(** * What run control does to processes

    A small logic of traces: [emits m P] says which events [m] writes and what it returns.
    The theorems are about traces, so they hold whatever the machine and other processes do. *)
From S2P Require Import Prelude GoStrings GoTime Encoding Json Domain StoreSync StoreObjects Effects ScopeClient ScopeSync CommandLine RunControl.
Open Scope Z_scope.

Create HintDb trace.

Section traces.
Context `{Machine}.
Local Abbreviation MC := (M control).

Definition pipe_removal (e : event) : bool := match e with PipeRemoved _ => true | _ => false end.

Definition emits {A} (m : MC A) (P : res A → list event → Prop) : Prop := ∀ w, ∃ new,
  k_log (m w).2 = k_log w ++ new ∧ k_supervisors (m w).2 = k_supervisors w ∧ P (m w).1 new ∧
  (existsb pipe_removal new = false → k_objects (m w).2 = k_objects w).

Lemma emits_impl {A} (m : MC A) (P Q : res A → list event → Prop) : emits m P → (∀ r l, P r l → Q r l) → emits m Q.
Proof. intros Hm HPQ w. destruct (Hm w) as (new & ? & ? & ? & ?). exists new. auto. Qed.

(** A trace of two steps, or of a first one that failed. *)
Definition then_ {A B} (P : res A → list event → Prop) (Q : A → res B → list event → Prop) (r : res B) (l : list event) : Prop :=
  (∃ e, r = Fail e ∧ P (Fail e) l) ∨ ∃ a l1 l2, l = l1 ++ l2 ∧ P (Ok a) l1 ∧ Q a r l2.

Lemma emits_bind {A B} (m : MC A) (f : A → MC B) P Q :
  emits m P → (∀ a, emits (f a) (Q a)) → emits (m ≫= f) (then_ P Q).
Proof.
  intros Hm Hf w. unfold mbind, M_bind. destruct (Hm w) as (l1 & H1 & S1 & P1 & O1). destruct (m w) as [[a|e] w1]; cbn [fst snd] in *.
  - destruct (Hf a w1) as (l2 & H2 & S2 & P2 & O2). exists (l1 ++ l2). rewrite H2, H1, app_assoc, S2, S1, existsb_app.
    split_and!; [done|done|right; eauto 10|]. intros [E1 E2]%orb_false_iff. rewrite O2, O1; done.
  - exists l1. split_and!; [done|done|left; eauto|done].
Qed.

(** ** Primitive operations *)
Definition silent {A} (r : res A) (l : list event) : Prop := l = [].

Ltac primitive := intros w; refine (ex_intro _ _ (conj _ (conj _ (conj _ _))));
  [first [symmetry; apply app_nil_r|reflexivity]|reflexivity|unfold silent; eauto|reflexivity].

Lemma emits_lift {A} (r : res A) : emits (lift r) (λ r' l, r' = r ∧ l = []).
Proof. primitive. Qed.
Lemma emits_ret {A} (a : A) : emits (mret a) (λ r l, r = Ok a ∧ l = []).
Proof. primitive. Qed.
Lemma emits_guard c e : emits (guard c e) (λ r l, r = refuse c e ∧ l = []).
Proof. primitive. Qed.
Lemma emits_wired {A} (o : option A) e : emits (wired o e) (λ r l, r = need o e ∧ l = []).
Proof. primitive. Qed.
Lemma emits_fail {A} e : emits (fail (A := A) e) (λ r l, r = Fail e ∧ l = []).
Proof. primitive. Qed.
Lemma emits_now : emits time_now silent.
Proof. primitive. Qed.
Lemma emits_cancelled : emits cancelled silent.
Proof. primitive. Qed.
Lemma emits_supervisor ref : emits (supervisor ref) silent.
Proof. primitive. Qed.
Lemma emits_defined ref : emits (pipe_defined ref) silent.
Proof. primitive. Qed.
Lemma emits_remove_file key : emits (remove_file key) silent.
Proof. primitive. Qed.
Lemma emits_read ref : emits (read_run ref) (λ r l, ∃ run, r = Ok run ∧ l = [Read ref run]).
Proof. primitive. Qed.
Lemma emits_identity pid : emits (ProcessIdentity pid) (λ r l, ∃ i, r = Ok i ∧ l = [Saw pid i]).
Proof. primitive. Qed.
Lemma emits_signal pid : emits (signal pid) (λ r l, l = [Signalled pid]).
Proof. primitive. Qed.
Lemma emits_delete ref : emits (delete_run ref) (λ r l, r = Ok tt ∧ l = [RunRemoved ref]).
Proof. primitive. Qed.
Lemma emits_kill pid : emits (kill pid) (λ r l, r = Ok tt ∧ l = [Killed pid]).
Proof. primitive. Qed.
Lemma emits_reserve ref kind : emits (reserve_run ref kind)
  (λ r l, r = Ok tt ∧ l = [RunReserved ref] ∨ ∃ e, r = Fail e ∧ l = []).
Proof.
  intros w. unfold reserve_run. destruct (ReserveRun _ _ _ _) as [[[]|e] d].
  - exists [RunReserved ref]. by split_and!; [..|left|].
  - exists []. split_and!; [symmetry; apply app_nil_r|done|right; by eexists|done].
Qed.
Lemma emits_spawn ref : emits (spawn ref) (λ r l, (∃ pid, r = Ok pid ∧ l = [Spawned ref pid]) ∨ ∃ e, r = Fail e ∧ l = []).
Proof.
  intros w. unfold spawn. destruct (starts _ _) as [pid|e].
  - exists [Spawned ref pid]. split_and!; [done|done|left; by eexists|done].
  - exists []. split_and!; [symmetry; apply app_nil_r|done|right; by eexists|done].
Qed.
Lemma emits_delete_pipe ref :
  emits (delete_pipe ref) (λ r l, (∃ key, r = Ok key ∧ l = [PipeRemoved ref]) ∨ ∃ e, r = Fail e ∧ l = []).
Proof.
  intros w. unfold delete_pipe. destruct (DeletePipe _ _) as [[key|e] d].
  - exists [PipeRemoved ref]. split_and!; [done|done|left; by eexists|done].
  - exists []. split_and!; [symmetry; apply app_nil_r|done|right; by eexists|done].
Qed.
Lemma emits_attempt {A} (m : MC A) P : emits m P → emits (attempt m) (λ r l, ∃ r', r = Ok r' ∧ P r' l).
Proof. intros Hm w. destruct (Hm w) as (l & ? & ? & ? & ?). exists l. unfold attempt. destruct (m w) as [r w1]. cbn in *. eauto 10. Qed.

(** ** Signals only for recorded processes *)
Inductive guarded : list event → Prop :=
  | guarded_nil : guarded []
  | guarded_other e l : (∀ pid, e ≠ Signalled pid) → guarded l → guarded (e :: l)
  | guarded_signal ref run l : ru_ProcessIdentity run ≠ "" → guarded l →
      guarded (Read ref (Some run) :: Saw (ru_PID run) (Ok (ru_ProcessIdentity run)) :: Signalled (ru_PID run) :: l).
Hint Constructors guarded : trace.
Hint Extern 1 (_ ≠ Signalled _) => discriminate : trace.

Lemma guarded_app l1 l2 : guarded l1 → guarded l2 → guarded (l1 ++ l2).
Proof. induction 1; cbn; eauto with trace. Qed.

Definition no_removal (l : list event) : Prop := Forall (λ e, pipe_removal e = false) l.
Lemma no_removal_exists l : no_removal l → existsb pipe_removal l = false.
Proof. induction 1 as [|e l He _ IH]; [done|]. cbn. by rewrite He. Qed.
Hint Extern 1 (no_removal _) => (repeat constructor) : trace.

Definition quiet (l : list event) : Prop := Forall (λ e, ∀ pid, e ≠ Signalled pid) l.
Lemma quiet_guarded l : quiet l → guarded l.
Proof. induction 1; eauto with trace. Qed.

Definition is_guarded {A} (r : res A) (l : list event) : Prop := guarded l.
Lemma guarded_bind {A B} (m : MC A) (f : A → MC B) :
  emits m is_guarded → (∀ a, emits (f a) is_guarded) → emits (m ≫= f) is_guarded.
Proof.
  intros Hm Hf. eapply emits_impl; [apply (emits_bind m f is_guarded (λ _, is_guarded) Hm Hf)|]. intros r l [(e & _ & Hl)|(a & l1 & l2 & -> & H1 & H2)]; [done|].
  by apply guarded_app.
Qed.

(** The processes interrupted are the recorded ones. *)
Definition interrupted (ref : string) (r : res Run) (l : list event) : Prop :=
  (∃ run, l = [Read ref (Some run); Saw (ru_PID run) (Ok (ru_ProcessIdentity run)); Signalled (ru_PID run)] ∧
          ru_ProcessIdentity run ≠ "" ∧ (r = Ok run ∨ ∃ e, r = Fail e)) ∨
  (∃ e, r = Fail e ∧ (l = [Read ref None] ∨ ∃ run i, l = [Read ref (Some run); Saw (ru_PID run) i])).

Lemma emits_interrupt_run ref missing : emits (interrupt_run ref missing) (interrupted ref).
Proof.
  intros w. unfold interrupt_run, interrupt, mbind, M_bind, read_run, ProcessIdentity. cbv zeta.
  destruct (match RunNamed _ _ with Ok run => Some run | Fail _ => None end) as [run|]; cbn [wired lift need].
  2:{ exists [Read ref None]. split_and!; [done|done|right; eauto|done]. }
  destruct (identity_at _ _) as [id|e].
  2:{ exists [Read ref (Some run); Saw (ru_PID run) (Fail e)]. cbn. rewrite <- app_assoc. split_and!; [done|done|right; eauto 10|done]. }
  unfold guard, lift, refuse. destruct ((ru_ProcessIdentity run =s "") || (id <>s ru_ProcessIdentity run)) eqn:E.
  - exists [Read ref (Some run); Saw (ru_PID run) (Ok id)]. cbn. rewrite <- app_assoc. split_and!; [done|done|right; eauto 10|done].
  - apply orb_false_elim in E as [Hn%seqb_false Hi%negb_false_iff%seqb_true]. subst id.
    exists [Read ref (Some run); Saw (ru_PID run) (Ok (ru_ProcessIdentity run)); Signalled (ru_PID run)].
    unfold signal. cbv zeta. destruct (delivers _ _) as [[]|e]; cbn; rewrite <- !app_assoc;
      (split_and!; [done|done|left; exists run; split_and!; eauto|done]).
Qed.

(** Waiting for the end of a process: it was seen, and when that succeeds seen to be gone. *)
Definition ended (ref : string) (run : Run) (r : res unit) (l : list event) : Prop :=
  ∃ seen, (∃ e, r = Fail e ∧ l = map (Saw (ru_PID run)) seen) ∨
          (∃ i, r = Ok tt ∧ l = map (Saw (ru_PID run)) seen ++ [Saw (ru_PID run) i; RunRemoved ref] ∧ is_process run i = false).

Lemma emits_await_end fuel deadline ref run : emits (await_end fuel deadline ref run) (ended ref run).
Proof.
  induction fuel as [|fuel IH].
  - intros w. exists []. split_and!; [symmetry; apply app_nil_r|done|exists []; left; eauto|done].
  - intros w. cbn [await_end]. unfold mbind, M_bind, time_now. cbv zeta. destruct (Before _ _); cbn [negb].
    2:{ exists []. split_and!; [symmetry; apply app_nil_r|done|exists []; left; eauto|done]. }
    unfold ProcessIdentity. cbv zeta. set (i := identity_at _ _). destruct (is_process run i) eqn:Ei; cbn [negb].
    + unfold cancelled. cbv zeta. destruct (ctx_cancelled _).
      * exists [Saw (ru_PID run) i]. split_and!; [done|done|exists [i]; left; eauto|done].
      * match goal with |- context [await_end fuel deadline ref run ?w1] => destruct (IH w1) as (l & Hl & Hs & (seen & He) & Ho) end.
        exists (Saw (ru_PID run) i :: l). rewrite Hl. cbn. rewrite <- app_assoc. split_and!; [done|done| |done].
        exists (i :: seen). destruct He as [(e & -> & ->)|(j & -> & -> & Hj)]; [left; eauto|right; eauto].
    + exists [Saw (ru_PID run) i; RunRemoved ref]. cbn. rewrite <- app_assoc. split_and!; [done|done|exists []; right; eauto|done].
Qed.

Lemma emits_stop_wait ref : emits (stopRunAndWait ref) (λ r l, guarded l ∧ no_removal l ∧
  (r = Ok tt → ∃ run i l0, l = l0 ++ [Saw (ru_PID run) i; RunRemoved ref] ∧ Read ref (Some run) ∈ l0 ∧ is_process run i = false)).
Proof.
  eapply emits_impl; [eapply (emits_bind _ _ _ (λ run, then_ (λ _ l, l = []) (λ _, ended ref run))); [apply emits_interrupt_run|intros run;
    apply emits_bind; [apply emits_now|intros t; apply emits_await_end]]|].
  intros r l [(e & -> & Hi)|(run & l1 & l2 & -> & Hi & [(e & -> & ->)|(t & l3 & l4 & -> & -> & (seen & He))])].
  - destruct Hi as [(run & -> & Hn & _)|(e' & _ & [->|(run & i & ->)])]; split_and!; eauto with trace; done.
  - rewrite app_nil_r. destruct Hi as [(run' & -> & Hn & _)|(e' & [=] & _)]. split_and!; eauto with trace; done.
  - destruct Hi as [(run' & -> & Hn & [[= <-]|(e' & [=])])|(e' & [=] & _)]. cbn [app].
    assert (Hseen : quiet (map (Saw (ru_PID run)) seen)) by (apply Forall_map, Forall_true; done).
    assert (Hno : no_removal (map (Saw (ru_PID run)) seen)) by (apply Forall_map, Forall_true; done).
    destruct He as [(e' & -> & ->)|(i & -> & -> & Hi)]; split_and!.
    + apply guarded_signal; [done|]. by apply quiet_guarded.
    + by repeat constructor.
    + done.
    + apply guarded_signal; [done|]. apply guarded_app; [by apply quiet_guarded|eauto with trace].
    + do 3 (constructor; [done|]). apply Forall_app; split; [done|by repeat constructor].
    + intros _. eexists run, i, (_ :: _ :: _ :: map _ seen). split; [reflexivity|]. split; [apply list_elem_of_here|done].
Qed.

(** ** Removal *)
Definition unsupervised (ref : string) (d : supervisors_table) : Prop :=
  ∀ v, SupervisorOf d ref = Ok v → run_source = su_Manager v.

Lemma allows_exact ref w : ∃ r, supervisorAllowsCurrentSource ref w = (r, w) ∧ (r = Ok tt ↔ unsupervised ref (k_supervisors w)).
Proof.
  unfold supervisorAllowsCurrentSource, supervisor, mbind, M_bind, unsupervised, guard, lift. cbv beta iota.
  destruct (SupervisorOf (k_supervisors w) ref) as [v|e] eqn:E.
  - eexists. split; [reflexivity|]. rewrite refuse_ok, negb_false_iff, seqb_true. naive_solver.
  - unfold SupervisorOf in E. destruct (k_supervisors w !! ref); [done|]. injection E as <-. eexists. split; [reflexivity|]. naive_solver.
Qed.

(** The recorded process, if there is one, was seen to be gone. *)
Definition gone (ref : string) (l : list event) : Prop :=
  l = [Read ref None] ∨
  ∃ run i l0, l = l0 ++ [Saw (ru_PID run) i; RunRemoved ref] ∧ Read ref (Some run) ∈ l0 ∧ is_process run i = false.

Lemma emits_settle ref force :
  emits (settle_run ref force) (λ r l, guarded l ∧ no_removal l ∧ (force = false → quiet l) ∧ (r = Ok tt → gone ref l)).
Proof.
  intros w. unfold settle_run, mbind, M_bind, read_run, ProcessIdentity. cbv zeta.
  destruct (match RunNamed _ _ with Ok run => Some run | Fail _ => None end) as [run|].
  2:{ exists [Read ref None]. split_and!; [done|done|eauto with trace|by repeat constructor|by repeat constructor|by left|done]. }
  set (i := identity_at _ _). destruct (is_process run i) eqn:Ei; [destruct force; cbn [negb]|].
  - match goal with |- context [stopRunAndWait ref ?w1] => destruct (emits_stop_wait ref w1) as (l & Hl & Hs & (Hg & Hn & Hr) & Ho) end.
    exists (Read ref (Some run) :: Saw (ru_PID run) i :: l). rewrite Hl. cbn. rewrite <- !app_assoc.
    split_and!; [done|done|eauto with trace|by repeat constructor|done| |done].
    intros Hok. destruct (Hr Hok) as (run' & j & l0 & -> & Hin & Hj). right.
    exists run', j, (Read ref (Some run) :: Saw (ru_PID run) i :: l0). split_and!; [done| |done]. by do 2 apply list_elem_of_further.
  - exists [Read ref (Some run); Saw (ru_PID run) i]. cbn. rewrite <- app_assoc.
    split_and!; [done|done|eauto with trace|by repeat constructor|by repeat constructor|done|done].
  - exists [Read ref (Some run); Saw (ru_PID run) i; RunRemoved ref]. cbn. rewrite <- !app_assoc.
    split_and!; [done|done|eauto 6 with trace|by repeat constructor|by repeat constructor| |done].
    intros _. right. exists run, i, [Read ref (Some run)]. split_and!; [done|apply list_elem_of_here|done].
Qed.

Lemma emits_secret key : emits (remove_secret key) (λ _ l, l = []).
Proof.
  unfold remove_secret. destruct (key =s ""); [by eapply emits_impl; [apply emits_ret|intros r l [_ ->]]|].
  intros w. exists []. unfold mbind, M_bind, attempt, remove_file. cbv zeta.
  destruct (removes_file _ _) as [[]|e]; [|destruct (errors_Is e ErrNotExist)]; (split_and!; [symmetry; apply app_nil_r|done..]).
Qed.

Lemma remove_pipe_sound ref force w :
  ∃ l, k_log (remove_pipe ref force w).2 = k_log w ++ l ∧ guarded l ∧ (force = false → quiet l) ∧
    (k_objects (remove_pipe ref force w).2 ≠ k_objects w →
     unsupervised ref (k_supervisors w) ∧ ∃ l1 l2, l = l1 ++ PipeRemoved ref :: l2 ∧ gone ref l1).
Proof.
  destruct (allows_exact ref w) as (a & Ea & Ha).
  assert (Hrun : remove_pipe ref force w =
    match a with Ok _ => (_ ← settle_run ref force; key ← delete_pipe ref; remove_secret key) w | Fail e => (Fail e, w) end).
  { unfold remove_pipe. unfold mbind at 1, M_bind at 1. by rewrite Ea. }
  rewrite Hrun. destruct a as [[]|e]; [|exists []; cbn; rewrite app_nil_r; split_and!; [done|eauto with trace|intros _; apply Forall_nil_2|intros Hne; by destruct (Hne eq_refl)]].
  destruct (emits_bind _ (λ _, key ← delete_pipe ref; remove_secret key) _ (λ _ _ l, l = [] ∨ l = [PipeRemoved ref])
              (emits_settle ref force)) with (w := w) as (l & Hl & _ & Hr & Ho).
  { intros []. eapply emits_impl; [eapply (emits_bind _ _ _ (λ _ _ l, l = [])); [apply emits_delete_pipe|apply emits_secret]|].
    intros r l [(e & -> & [(key & [=] & _)|(e' & _ & ->)])|(key & l1 & l2 & -> & [(k & _ & ->)|(e & [=] & _)] & ->)]; auto. }
  exists l. split; [exact Hl|].
  destruct Hr as [(e & _ & Hg & Hn & Hq & _)|([] & l1 & l2 & -> & (Hg & Hn & Hq & Hok) & [->| ->])].
  - split_and!; [done|done|]. intros Hne. destruct Hne. apply Ho. by apply no_removal_exists.
  - rewrite app_nil_r in *. split_and!; [done|done|]. intros Hne. destruct Hne. apply Ho. by apply no_removal_exists.
  - split_and!; [apply guarded_app; eauto with trace| |].
    + intros Hf. apply Forall_app. split; [by apply Hq|by repeat constructor].
    + intros _. split; [by apply Ha|]. exists l1, []. split; [done|]. by apply Hok.
Qed.

(** ** Starting *)

(** No run is in the way: none is recorded, a ready one was seen to be gone, or one that is
    neither ready nor starting was removed. *)
Definition cleared (ref : string) (l : list event) : Prop :=
  l = [Read ref None] ∨ ∃ run,
    (l = [Read ref (Some run); RunRemoved ref] ∧ ru_Status run ≠ "ready" ∧ ru_Status run ≠ "starting") ∨
    (∃ i, l = [Read ref (Some run); Saw (ru_PID run) i; RunRemoved ref] ∧ ru_Status run = "ready" ∧ is_process run i = false).
(** A ready run whose process is the recorded one. *)
Definition adopted (ref : string) (run : Run) (l : list event) : Prop :=
  l = [Read ref (Some run); Saw (ru_PID run) (Ok (ru_ProcessIdentity run))] ∧ ru_Status run = "ready".

(** Nothing but looking. *)
Definition looks (e : event) : Prop := match e with Read _ _ | Saw _ _ => True | _ => False end.

Lemma emits_clear {A} ref (live : Run → MC (option A)) (Q : Run → res (option A) → Prop) :
  (∀ run, emits (live run) (λ r l, Q run r ∧ l = [])) →
  emits (clear_run ref live) (λ r l,
    (r = Ok None ∧ cleared ref l) ∨ (∃ run, Q run r ∧ adopted ref run l) ∨ (∃ e, r = Fail e ∧ Forall looks l)).
Proof.
  intros Hlive w. unfold clear_run, mbind, M_bind, read_run, ProcessIdentity. cbv zeta.
  destruct (match RunNamed _ _ with Ok run => Some run | Fail _ => None end) as [run|].
  2:{ exists [Read ref None]. split_and!; [done|done|left; split; [done|by left]|done]. }
  destruct (ru_Status run =s "ready") eqn:Er.
  - apply seqb_true in Er. set (i := identity_at _ _). cbn [mret M_ret]. destruct (is_process run i) eqn:Ei.
    + match goal with |- context [live run ?w1] => destruct (Hlive run w1) as (l & Hl & Hs & [HQ ->] & Ho) end.
      exists [Read ref (Some run); Saw (ru_PID run) i]. rewrite Hl. cbn. rewrite app_nil_r, <- app_assoc.
      split_and!; [done|done| |intros _; by apply Ho]. right; left. exists run. split; [done|]. split; [|done].
      clear -Ei. unfold is_process in Ei. destruct i as [id|e]; [|done]. by apply seqb_true in Ei as ->.
    + rewrite (proj2 (seqb_false (ru_Status run) "starting")) by (rewrite Er; done).
      exists [Read ref (Some run); Saw (ru_PID run) i; RunRemoved ref]. cbn. rewrite <- !app_assoc.
      split_and!; [done|done|left; split; [done|]; right; exists run; right; eauto|done].
  - apply seqb_false in Er. cbn [mret M_ret]. destruct (ru_Status run =s "starting") eqn:Es.
    + exists [Read ref (Some run)]. split_and!; [done|done|right; right; eexists; split; [reflexivity|by repeat constructor]|done].
    + apply seqb_false in Es. exists [Read ref (Some run); RunRemoved ref]. cbn. rewrite <- !app_assoc.
      split_and!; [done|done|left; split; [done|]; right; exists run; left; eauto|done].
Qed.

Definition ready_child (ref : string) (pid : Z) (r : res Run) (l : list event) : Prop := ∃ reads,
  (∃ run, r = Ok run ∧ l = map (Read ref) reads ++ [Read ref (Some run)] ∧ ru_Status run = "ready" ∧ ru_PID run = pid) ∨
  (∃ e, r = Fail e ∧ l = map (Read ref) reads).

Lemma emits_await_ready fuel deadline ref pid : emits (await_ready fuel deadline ref pid) (ready_child ref pid).
Proof.
  induction fuel as [|fuel IH].
  - intros w. exists []. split_and!; [symmetry; apply app_nil_r|done|exists []; right; eauto|done].
  - intros w. cbn [await_ready]. unfold mbind, M_bind, time_now. cbv zeta. destruct (Before _ _); cbn [negb].
    2:{ exists []. split_and!; [symmetry; apply app_nil_r|done|exists []; right; eauto|done]. }
    unfold read_run. cbv zeta. set (found := match RunNamed _ _ with Ok run => Some run | Fail _ => None end).
    assert (Hagain : ∀ w1, k_log w1 = k_log w ++ [Read ref found] → k_supervisors w1 = k_supervisors w → k_objects w1 = k_objects w →
      ∃ new, k_log (await_ready fuel deadline ref pid w1).2 = k_log w ++ new ∧
        k_supervisors (await_ready fuel deadline ref pid w1).2 = k_supervisors w ∧
        ready_child ref pid (await_ready fuel deadline ref pid w1).1 new ∧
        (existsb pipe_removal new = false → k_objects (await_ready fuel deadline ref pid w1).2 = k_objects w)).
    { intros w1 Hl Hs Ho. destruct (IH w1) as (l & Hl1 & Hs1 & (reads & He) & Ho1). exists (Read ref found :: l).
      rewrite Hl1, Hl, <- app_assoc, Hs1, <- Ho. split_and!; [done|done| |done].
      exists (found :: reads). destruct He as [(run & -> & -> & ? & ?)|(e & -> & ->)]; [left; eauto 10|right; eauto]. }
    destruct found as [run|] eqn:Ef; [|by apply Hagain].
    destruct ((ru_Status run =s "ready") && (ru_PID run =? pid)) eqn:E; [|by apply Hagain].
    apply andb_prop in E as [E1%seqb_true E2%Z.eqb_eq]. exists [Read ref (Some run)].
    split_and!; [done|done|exists []; left; eauto 10|done].
Qed.

(** What a start does: it adopts a live run, or a child became ready, or it is undone. *)
Definition start_trace (ref : string) (r : res Run) (l : list event) : Prop :=
  match r with
  | Ok run => ru_Status run = "ready" ∧ (adopted ref run l ∨ ∃ l1 reads, cleared ref l1 ∧
      l = l1 ++ RunReserved ref :: Spawned ref (ru_PID run) :: map (Read ref) reads ++ [Read ref (Some run)])
  | Fail _ => Forall looks l ∨ cleared ref l ∨ ∃ l1, cleared ref l1 ∧
      (l = l1 ++ [RunReserved ref; RunRemoved ref] ∨
       ∃ pid reads, l = l1 ++ RunReserved ref :: Spawned ref pid :: map (Read ref) reads ++ [Killed pid; RunRemoved ref])
  end.

Lemma emits_launch ref : emits (launch ref) (λ r l,
  (∃ run reads, r = Ok run ∧ ru_Status run = "ready" ∧ l = Spawned ref (ru_PID run) :: map (Read ref) reads ++ [Read ref (Some run)]) ∨
  (∃ e, r = Fail e ∧ (l = [] ∨ ∃ pid reads, l = Spawned ref pid :: map (Read ref) reads ++ [Killed pid]))).
Proof.
  eapply emits_impl; [eapply (emits_bind _ _ _ (λ pid r l,
    (∃ run reads, r = Ok run ∧ ru_Status run = "ready" ∧ ru_PID run = pid ∧ l = map (Read ref) reads ++ [Read ref (Some run)]) ∨
    (∃ e reads, r = Fail e ∧ l = map (Read ref) reads ++ [Killed pid]))); [apply emits_spawn|]|].
  - intros pid w. unfold mbind, M_bind, time_now, attempt. cbv zeta.
    match goal with |- context [await_ready ?f ?d ref pid ?w2] => destruct (emits_await_ready f d ref pid w2) as (l & Hl1 & Hs1 & (reads & He) & Ho1);
      destruct (await_ready f d ref pid w2) as [r w3] end. cbn [fst snd] in *.
    destruct He as [(run & -> & -> & Hst & <-)|(e & -> & ->)]; cbn [fst snd].
    + exists (map (Read ref) reads ++ [Read ref (Some run)]). split_and!; [done|done|left; eauto 10|done].
    + exists (map (Read ref) reads ++ [Killed pid]). unfold kill. cbn. rewrite Hl1, <- app_assoc.
      split_and!; [done|done|right; eauto 10|]. rewrite existsb_app. intros [Hp _]%orb_false_iff. by apply Ho1.
  - intros r l [(e & -> & [(pid & [=] & _)|(e' & _ & ->)])|(pid & l1 & l2 & -> & [(pid' & [= <-] & ->)|(e & [=] & _)] & Hl)]; [right; eauto|].
    destruct Hl as [(run & reads & -> & Hst & <- & ->)|(e & reads & -> & ->)]; [left; eauto 10|right; eauto 10].
Qed.

Lemma emits_allows ref : emits (supervisorAllowsCurrentSource ref) (λ _ l, l = []).
Proof. intros w. destruct (allows_exact ref w) as (r & -> & _). exists []. split_and!; [symmetry; apply app_nil_r|done..]. Qed.

Lemma emits_start ref : emits (startDetached ref) (start_trace ref).
Proof.
  eapply emits_impl; [eapply (emits_bind _ _ _ (λ _, start_trace ref)); [apply emits_allows|]|].
  2:{ intros r l [(e & -> & ->)|([] & l1 & l2 & -> & -> & Hl)]; [by left|done]. }
  intros _. eapply emits_impl; [eapply (emits_bind _ _ _ (λ running r l, match running with
    | Some existing => r = Ok existing ∧ l = []
    | None =>
        (∃ run reads, r = Ok run ∧ ru_Status run = "ready" ∧
           l = RunReserved ref :: Spawned ref (ru_PID run) :: map (Read ref) reads ++ [Read ref (Some run)]) ∨
        (∃ e, r = Fail e ∧ (l = [] ∨ l = [RunReserved ref; RunRemoved ref] ∨
           ∃ pid reads, l = RunReserved ref :: Spawned ref pid :: map (Read ref) reads ++ [Killed pid; RunRemoved ref]))
    end)); [apply (emits_clear ref _ (λ run r, r = Ok (Some run))); intros run; apply emits_ret|]|].
  - intros [existing|]; [apply emits_ret|].
    eapply emits_impl; [eapply (emits_bind _ _ _ (λ _ r l,
      (∃ run reads, r = Ok run ∧ ru_Status run = "ready" ∧ l = Spawned ref (ru_PID run) :: map (Read ref) reads ++ [Read ref (Some run)]) ∨
      (∃ e, r = Fail e ∧ (l = [RunRemoved ref] ∨ ∃ pid reads, l = Spawned ref pid :: map (Read ref) reads ++ [Killed pid; RunRemoved ref]))));
      [apply emits_reserve|]|].
    + intros _ w. destruct (emits_launch ref w) as (l & Hl & Hs & Hr & Ho). unfold mbind, M_bind, attempt.
      destruct (launch ref w) as [r w1]. cbn [fst snd] in *.
      destruct Hr as [(run & reads & -> & Hst & ->)|(e & -> & Hr)].
      * exists (Spawned ref (ru_PID run) :: map (Read ref) reads ++ [Read ref (Some run)]). split_and!; [done|done|left; eauto|done].
      * exists (l ++ [RunRemoved ref]). cbn. rewrite Hl, <- app_assoc. split_and!; [done|done| |].
        -- right. exists e. split; [done|]. destruct Hr as [->|(pid & reads & ->)]; [by left|right; exists pid, reads].
           cbn. by rewrite <- app_assoc.
        -- rewrite existsb_app. intros [Hp _]%orb_false_iff. by apply Ho.
    + intros r l [(e & -> & [[[=] _]|(e' & _ & ->)])|([] & l1 & l2 & -> & [[_ ->]|(e & [=] & _)] & Hl)]; [right; eauto|].
      destruct Hl as [(run & reads & -> & Hst & ->)|(e & -> & [->|(pid & reads & ->)])]; [left; eauto|right; eauto 10|right; eauto 10].
  - intros r l [(e & -> & [[[=] _]|[(run & [=] & _)|(e' & _ & Hl)]])|(running & l1 & l2 & -> & Hc & Hl)]; [by left|].
    destruct Hc as [[[= ->] Hc]|[(run & [= ->] & Ha)|(e & [=] & _)]].
    + destruct Hl as [(run & reads & -> & Hst & ->)|(e & -> & [->|[->|(pid & reads & ->)]])].
      * split; [done|]. right. eauto.
      * right; left. by rewrite app_nil_r.
      * right; right. eauto.
      * right; right. eauto 10.
    + destruct Hl as [-> ->]. rewrite app_nil_r. split; [by destruct Ha|by left].
Qed.

Lemma emits_foreground ref kind :
  emits (reserveForeground ref kind) (λ r l, r = Ok tt → ∃ l1, l = l1 ++ [RunReserved ref] ∧ cleared ref l1).
Proof.
  eapply emits_impl; [eapply (emits_bind _ _ _ (λ _ r l, r = Ok tt → ∃ l1, l = l1 ++ [RunReserved ref] ∧ cleared ref l1)); [apply emits_allows|]|].
  2:{ intros r l [(e & -> & _)|([] & l1 & l2 & -> & -> & Hl)]; [done|exact Hl]. }
  intros _. eapply emits_impl; [eapply (emits_bind _ _ _ (λ _ r l, r = Ok tt → l = [RunReserved ref]))|].
  - apply (emits_clear ref _ (λ _ r, ∃ e, r = Fail e)). intros run. eapply emits_impl; [apply emits_fail|]. intros r l [-> ->]. eauto.
  - intros _. eapply emits_impl; [apply emits_reserve|]. intros r l [[_ ->]|(e & -> & _)]; done.
  - intros r l [(e & -> & _)|(a & l1 & l2 & -> & [[_ Hc]|[(run & (e & [=]) & _)|(e & [=] & _)]] & Hl)]; [done|].
    intros Hok. exists l1. by rewrite (Hl Hok).
Qed.

Lemma looks_quiet l : Forall looks l → quiet l.
Proof. intros Hl. eapply Forall_impl; [exact Hl|]. intros [] He p0; done. Qed.
Lemma cleared_quiet ref l : cleared ref l → quiet l.
Proof. intros [->|(run & [[-> _]|(i & -> & _)])]; by repeat constructor. Qed.
Lemma quiet_app l1 l2 : quiet (l1 ++ l2) ↔ quiet l1 ∧ quiet l2.
Proof. apply Forall_app. Qed.
Lemma quiet_reads ref reads : quiet (map (Read ref) reads).
Proof. apply Forall_map, Forall_true. done. Qed.

Lemma start_quiet ref r l : start_trace ref r l → quiet l.
Proof.
  pose proof (quiet_reads ref) as Hr. destruct r as [run|e]; cbn [start_trace].
  - intros [_ [[-> _]|(l1 & reads & Hc%cleared_quiet & ->)]]; [by repeat constructor|].
    apply quiet_app. split; [done|]. do 2 (constructor; [done|]). apply quiet_app. split; [done|by repeat constructor].
  - intros [Hl|[Hl|(l1 & Hc%cleared_quiet & [->|(pid & reads & ->)])]]; [by apply looks_quiet|by eapply cleared_quiet|..].
    + apply quiet_app. split; [done|by repeat constructor].
    + apply quiet_app. split; [done|]. do 2 (constructor; [done|]). apply quiet_app. split; [done|by repeat constructor].
Qed.

Lemma emits_stop ref : emits (stop ref) is_guarded.
Proof.
  apply guarded_bind; [eapply emits_impl; [apply emits_allows|]; intros r l ->; apply guarded_nil|]. intros _.
  apply guarded_bind; [|intros _; eapply emits_impl; [apply emits_ret|]; intros r l [_ ->]; apply guarded_nil].
  eapply emits_impl; [apply emits_interrupt_run|].
  intros r l [(run & -> & Hn & _)|(e' & _ & [->|(run & i & ->)])]; unfold is_guarded; eauto with trace.
Qed.

Lemma emits_restart ref : emits (restart ref) is_guarded.
Proof.
  apply guarded_bind; [eapply emits_impl; [apply emits_guard|]; intros r l [_ ->]; apply guarded_nil|]. intros _.
  apply guarded_bind; [eapply emits_impl; [apply emits_defined|]; intros r l ->; apply guarded_nil|]. intros _.
  apply guarded_bind; [eapply emits_impl; [apply emits_allows|]; intros r l ->; apply guarded_nil|]. intros _.
  apply guarded_bind; [eapply emits_impl; [apply emits_settle|]; by intros r l [Hg _]|]. intros _.
  eapply emits_impl; [apply emits_start|]. intros r l Hl. by apply quiet_guarded, (start_quiet ref r).
Qed.

(** ** Stale runs *)
Definition stale_evidence (run : Run) (l : list event) : Prop :=
  if ru_PID run <=? 0 then ru_Status run = "stopped" ∨ ∃ n, 30 * Second < Sub (clock n) (ru_UpdatedAt run)
  else ∃ i, Saw (ru_PID run) i ∈ l ∧ is_process run i = false.

Lemma stale_evidence_app run l1 l2 l3 : stale_evidence run l2 → stale_evidence run (l1 ++ l2 ++ l3).
Proof.
  unfold stale_evidence. destruct (ru_PID run <=? 0); [done|]. intros (i & Hi & Hp). exists i. split; [|done].
  apply elem_of_app. right. apply elem_of_app. by left.
Qed.

Lemma emits_stale run : emits (stale run) (λ r l, Forall looks l ∧ ∃ old, r = Ok old ∧ (old = true → stale_evidence run l)).
Proof.
  intros w. unfold stale, stale_evidence, mbind, M_bind, time_now, ProcessIdentity. cbv zeta. destruct (ru_PID run <=? 0).
  - exists []. split_and!; [symmetry; apply app_nil_r|done|by constructor| |done]. eexists. split; [reflexivity|].
    intros [Hs%seqb_true|Ht%Z.ltb_lt]%orb_prop; [by left|right; by eexists].
  - set (i := identity_at _ _). exists [Saw (ru_PID run) i]. split_and!; [done|done|by repeat constructor| |done].
    eexists. split; [reflexivity|]. intros Hn%negb_true_iff. exists i. split; [apply list_elem_of_here|done].
Qed.

Definition stale_sound (runs : list Run) (w w' : control) : Prop := ∃ l,
  k_log w' = k_log w ++ l ∧ k_supervisors w' = k_supervisors w ∧ quiet l ∧
  (∀ ref, RunRemoved ref ∈ l → is_ok (SupervisorOf (k_supervisors w) ref) = false ∧
     ∃ run, run ∈ runs ∧ ru_PrimaryRef run = ref ∧ stale_evidence run l).

(** What a first part without removals looked at can be put in front. *)
Lemma stale_sound_after runs l0 w w1 w' :
  k_log w1 = k_log w ++ l0 → k_supervisors w1 = k_supervisors w → Forall looks l0 → stale_sound runs w1 w' → stale_sound runs w w'.
Proof.
  intros Hl Hs Hq (l & Hl' & Hs' & Hq' & Hr). exists (l0 ++ l). rewrite Hl', Hl, Hs', Hs, app_assoc. split_and!; [done|done| |].
  - apply quiet_app. split; [by apply looks_quiet|done].
  - rewrite Hs in Hr. intros ref [Hin|Hin]%elem_of_app.
    + by pose proof (proj1 (Forall_forall _ _) Hq _ Hin).
    + destruct (Hr ref Hin) as (? & run & ? & ? & He). split; [done|]. exists run. split_and!; [done|done|].
      rewrite <- (app_nil_r l). by apply stale_evidence_app.
Qed.
Lemma stale_sound_cons run runs w w' : stale_sound runs w w' → stale_sound (run :: runs) w w'.
Proof.
  intros (l & Hl & Hs & Hq & Hr). exists l. split_and!; [done..|]. intros ref Hin. destruct (Hr ref Hin) as (? & r' & ? & ? & ?).
  split; [done|]. exists r'. split_and!; [by apply list_elem_of_further|done|done].
Qed.

Lemma remove_stale_sound runs w : stale_sound runs w (remove_stale runs w).2.
Proof.
  revert w. induction runs as [|run runs IH]; intros w.
  { exists []. split_and!; [symmetry; apply app_nil_r|done|by constructor|]. intros ref Hin. by apply elem_of_nil in Hin. }
  cbn [remove_stale]. unfold mbind at 1, M_bind at 1. unfold supervisor at 1.
  destruct (SupervisorOf (k_supervisors w) (ru_PrimaryRef run)) as [v|e] eqn:Es; [apply stale_sound_cons, IH|].
  assert (He : errors_Is e ErrNotFound = true).
  { unfold SupervisorOf in Es. destruct (k_supervisors w !! ru_PrimaryRef run); [done|]. by injection Es as <-. }
  unfold mbind, M_bind. unfold guard, lift. rewrite He. cbn [negb refuse].
  destruct (emits_stale run w) as (l0 & Hl0 & Hs0 & [Hq0 (old & Ho & Hev)] & _). destruct (stale run w) as [r w1]. cbn [fst snd] in *.
  subst r. destruct old; [|eapply stale_sound_after; [done|done|done|apply stale_sound_cons, IH]].
  specialize (Hev eq_refl). unfold delete_run. cbn [DeleteRun].
  match goal with |- context [remove_stale runs ?w2] => pose proof (IH w2) as (l & Hl & Hs & Hq & Hr); set (w3 := w2) in * end.
  destruct (remove_stale runs w3) as [r w4]. cbn [fst snd] in *. assert (H4 : stale_sound (run :: runs) w w4).
  { exists (l0 ++ [RunRemoved (ru_PrimaryRef run)] ++ l). rewrite Hl, Hs. cbn. rewrite Hl0, Hs0, <- !app_assoc. split_and!; [done|done| |].
    - apply quiet_app. split; [by apply looks_quiet|]. constructor; [done|done].
    - cbn in Hr. rewrite Hs0 in Hr. intros ref [Hin|[Hin|Hin]%elem_of_cons]%elem_of_app.
      + by pose proof (proj1 (Forall_forall _ _) Hq0 _ Hin).
      + injection Hin as ->. rewrite Es. split; [done|]. exists run.
        split_and!; [apply list_elem_of_here|done|apply (stale_evidence_app run [] l0), Hev].
      + destruct (Hr ref Hin) as (? & run' & ? & ? & Hx). split; [done|]. exists run'. split_and!; [by apply list_elem_of_further|done|].
        rewrite <- (app_nil_r l). change (RunRemoved (ru_PrimaryRef run) :: l ++ []) with ([RunRemoved (ru_PrimaryRef run)] ++ l ++ []).
        rewrite app_assoc. by apply stale_evidence_app. }
  by destruct r.
Qed.

(** ** The polls are enough

    Every pass of a waiting loop takes at least 100 milliseconds. *)
Definition pauses : Prop := ∀ n, unix_ns (clock n) + Second / 10 ≤ unix_ns (clock (S (S n))) ∧ unix_ns (clock n) ≤ unix_ns (clock (S n)).

Lemma await_end_polls fuel more deadline ref run w :
  pauses → unix_ns deadline ≤ unix_ns (clock (S (k_now w))) + Second / 10 * Z.of_nat fuel →
  await_end (S fuel + more) deadline ref run w = await_end (S fuel) deadline ref run w.
Proof.
  intros Hp. revert w. induction fuel as [|fuel IH]; intros w Hd.
  - cbn [Nat.add await_end]. unfold mbind, M_bind, time_now. cbv zeta. unfold Before.
    change (k_now (advance w)) with (S (k_now w)). rewrite (proj2 (Z.ltb_ge _ _)) by lia. reflexivity.
  - change (S (S fuel) + more)%nat with (S (S fuel + more)). cbn [await_end]. unfold mbind, M_bind, time_now, ProcessIdentity, cancelled. cbv zeta.
    destruct (Before _ _); [|reflexivity]. cbn [negb]. destruct (is_process _ _); [|reflexivity]. cbn [negb]. destruct (ctx_cancelled _); [reflexivity|].
    apply IH. cbn [k_now advance logged]. pose proof (Hp (S (k_now w))) as [H1 _]. pose proof (Hp (S (S (S (k_now w))))) as [_ H2]. lia.
Qed.

Lemma await_ready_polls fuel more deadline ref pid w :
  pauses → unix_ns deadline ≤ unix_ns (clock (S (k_now w))) + Second / 10 * Z.of_nat fuel →
  await_ready (S fuel + more) deadline ref pid w = await_ready (S fuel) deadline ref pid w.
Proof.
  intros Hp. revert w. induction fuel as [|fuel IH]; intros w Hd.
  - cbn [Nat.add await_ready]. unfold mbind, M_bind, time_now. cbv zeta. unfold Before.
    change (k_now (advance w)) with (S (k_now w)). rewrite (proj2 (Z.ltb_ge _ _)) by lia. reflexivity.
  - change (S (S fuel) + more)%nat with (S (S fuel + more)). cbn [await_ready]. unfold mbind, M_bind, time_now, read_run. cbv zeta.
    destruct (Before _ _); [|reflexivity]. cbn [negb].
    assert (Hd2 : unix_ns deadline ≤ unix_ns (clock (S (S (S (k_now w))))) + Second / 10 * Z.of_nat fuel).
    { pose proof (Hp (S (k_now w))) as [H1 _]. lia. }
    destruct (match RunNamed _ _ with Ok run => Some run | Fail _ => None end) as [run|]; [destruct (_ && _); [reflexivity|]|]; apply IH; exact Hd2.
Qed.

(** Both loops of fifteen seconds end by their deadline, not by running out of polls. *)
Lemma polls_suffice more deadline ref run pid w t w1 :
  pauses → time_now w = (Ok t, w1) → deadline = Add t (15 * Second) →
  await_end (polls + more) deadline ref run w1 = await_end polls deadline ref run w1 ∧
  await_ready (polls + more) deadline ref pid w1 = await_ready polls deadline ref pid w1.
Proof.
  intros Hp [= <- <-] ->. pose proof (Hp (S (k_now w))) as [_ Hn].
  split; [apply (await_end_polls 150)|apply (await_ready_polls 150)]; try done; cbn [Add unix_ns k_now advance];
    change (Second / 10 * Z.of_nat 150) with (15 * Second); lia.
Qed.

Lemma emits_remove args stale_ force w : ∃ l,
  k_log (remove args stale_ force w).2 = k_log w ++ l ∧ guarded l ∧ (force = false → quiet l).
Proof.
  assert (Hnone : ∃ l, k_log w = k_log w ++ l ∧ guarded l ∧ (force = false → quiet l)).
  { exists []. rewrite app_nil_r. split_and!; [done|apply guarded_nil|intros _; apply Forall_nil_2]. }
  destruct args as [|arg args]; [exact Hnone|]. cbn [remove]. destruct stale_.
  - unfold staleRuns, mbind, M_bind. cbv zeta. destruct (remove_stale_sound (map (λ kv, run_of kv.1 kv.2) (ordered (k_runs (advance w)))) (advance w))
      as (l & Hl & _ & Hq & _). exists l. split_and!; [exact Hl|by apply quiet_guarded|done].
  - unfold mbind at 1, M_bind at 1, lift. destruct (ParseRef arg) as [ref|e]; [|exact Hnone].
    destruct (Kind ref =s KindPipe); [|destruct (Kind ref =s KindService); [|exact Hnone]].
    + destruct (remove_pipe_sound (RefString ref) force w) as (l & Hl & Hg & Hq & _). exists l. split_and!; [|done|done].
      rewrite <- Hl. unfold mbind, M_bind. by destruct (remove_pipe _ _ w) as [[[]|e] w1].
    + unfold mbind, M_bind, delete_service. by destruct (DeleteService _ _) as [[[]|e] d].
Qed.
End traces.

(** C20: whatever the machine and other processes do, [stop], [restart] and [rm] signal a process
    only right after its run was read and the process table showed, for the recorded pid, the
    recorded identity; [rm] without force signals nothing; a Pipe is removed only when no other
    manager supervises it and either no run is recorded or the recorded process was seen to be
    gone and its run removed before; and the removal of stale runs touches no supervised run and
    only those whose process was seen to be gone, or which have none and are stopped or older
    than thirty seconds. *)
Theorem process_control_safe `{Machine} :
  (∀ ref w, ∃ l, k_log (stop ref w).2 = k_log w ++ l ∧ guarded l) ∧
  (∀ ref w, ∃ l, k_log (restart ref w).2 = k_log w ++ l ∧ guarded l) ∧
  (∀ args stale_ force w, ∃ l, k_log (remove args stale_ force w).2 = k_log w ++ l ∧ guarded l ∧ (force = false → quiet l)) ∧
  (∀ arg args force ref w, ParseRef arg = Ok ref → Kind ref = KindPipe →
     k_objects (remove (arg :: args) false force w).2 ≠ k_objects w →
     unsupervised (RefString ref) (k_supervisors w) ∧
     ∃ l1 l2, k_log (remove (arg :: args) false force w).2 = k_log w ++ l1 ++ PipeRemoved (RefString ref) :: l2 ∧ gone (RefString ref) l1) ∧
  (∀ arg args force w, stale_sound (map (λ kv, run_of kv.1 kv.2) (ordered (k_runs (advance w)))) w (remove (arg :: args) true force w).2).
Proof.
  split_and!.
  - intros ref w. destruct (emits_stop ref w) as (l & ? & _ & ? & _). by exists l.
  - intros ref w. destruct (emits_restart ref w) as (l & ? & _ & ? & _). by exists l.
  - apply emits_remove.
  - intros arg args force ref w Hp Hk.
    assert (Hr : (remove (arg :: args) false force w).2 = (remove_pipe (RefString ref) force w).2).
    { cbn [remove]. unfold mbind, M_bind, lift. rewrite Hp, Hk. change (KindPipe =s KindPipe) with true. cbv beta iota.
      destruct (remove_pipe (RefString ref) force w) as [[[]|e] w1]; reflexivity. }
    rewrite Hr. intros Hne.
    destruct (remove_pipe_sound (RefString ref) force w) as (l & Hl & _ & _ & Hx). destruct (Hx Hne) as (Hu & l1 & l2 & -> & Hg).
    split; [done|]. by exists l1, l2.
  - intros arg args force w. apply (remove_stale_sound _ (advance w)).
Qed.

(** C21: starting a Pipe in the background gives a run that is ready: the recorded one, if the
    process table shows its process, or that of the child that was started after the way was
    clear, a reservation was made and no other manager supervises the Pipe; a start that fails
    started nothing, or killed its child and removed its reservation; a start in the foreground
    reserves the run under the same conditions; and both loops that wait fifteen seconds end by
    their deadline within 151 polls when a poll takes at least 100 milliseconds. *)
Theorem start_sound `{Machine} :
  (∀ ref w, ∃ l, k_log (startDetached ref w).2 = k_log w ++ l ∧ start_trace ref (startDetached ref w).1 l ∧
     (is_ok (startDetached ref w).1 = true → unsupervised ref (k_supervisors w))) ∧
  (∀ ref kind w, ∃ l, k_log (reserveForeground ref kind w).2 = k_log w ++ l ∧
     ((reserveForeground ref kind w).1 = Ok tt →
        unsupervised ref (k_supervisors w) ∧ ∃ l1, l = l1 ++ [RunReserved ref] ∧ cleared ref l1)) ∧
  (∀ more deadline ref run pid w t w1, pauses → time_now w = (Ok t, w1) → deadline = Add t (15 * Second) →
     await_end (polls + more) deadline ref run w1 = await_end polls deadline ref run w1 ∧
     await_ready (polls + more) deadline ref pid w1 = await_ready polls deadline ref pid w1).
Proof.
  split_and!.
  - intros ref w. destruct (emits_start ref w) as (l & ? & _ & ? & _). exists l. split_and!; [done|done|].
    destruct (allows_exact ref w) as ([[]|e] & Ea & Ha); [by intros _; apply Ha|]. unfold startDetached, mbind, M_bind. by rewrite Ea.
  - intros ref kind w. destruct (emits_foreground ref kind w) as (l & ? & _ & Hr & _). exists l. split; [done|]. intros Hok.
    split; [|by apply Hr]. destruct (allows_exact ref w) as ([[]|e] & Ea & Ha); [by apply Ha|].
    unfold reserveForeground, mbind, M_bind in Hok. by rewrite Ea in Hok.
  - apply polls_suffice.
Qed.

(** ** A machine with one process

    Process 1 lives for ever; a child gets pid 2 and records itself as ready at instant 5. *)
Module ControlSample.
Definition row (pid : Z) (status : string) : run_row :=
  mkRunRow "pipe" pid (of_bytes (json_int pid) +:+ ":tubo") "detached" status "" "" "" "".
#[export] Instance box : Machine := {|
  clock n := mkTime (Z.of_nat n * Second) 0;
  process_table _ pid := if (pid =? 1) || (pid =? 2) then Ok "tubo" else Fail (errorf "exit status 1");
  ctx_cancelled _ := false;
  delivers _ _ := Ok tt;
  starts _ _ := Ok 2;
  removes_file _ _ := Fail (wrapf ErrNotExist "no such file");
  others n d := if (n =? 5)%nat then <["pipe/web" := row 2 "ready"]> d else d;
  run_source := "" |}.
Definition shelf : objects := mkObjects ∅ {[ "pipe/web" := mkPipeRow "web" "pip_web" "" "key" "" ]} ∅ ∅ ∅ ∅.
Definition at_rest (d : runs_table) : control := mkControl 0 d ∅ shelf [].
End ControlSample.
Import ControlSample.

Lemma process_control_safe_witness :
  let w := at_rest {[ "pipe/web" := row 7 "ready" ]} in
  ∃ l1 l2, k_log (remove ["pipe/web"] false false w).2 = [] ++ l1 ++ PipeRemoved "pipe/web" :: l2 ∧ gone "pipe/web" l1.
Proof.
  destruct process_control_safe as (_ & _ & _ & Hr & _). intros w.
  destruct (Hr "pipe/web" [] false (mkRef KindPipe "web") w) as (_ & l1 & l2 & Hl & Hg).
  - vm_compute. reflexivity.
  - reflexivity.
  - intros E. apply (f_equal (λ d, size (pipes d))) in E. by vm_compute in E.
  - exists l1, l2. exact (conj Hl Hg).
Defined.

Lemma start_sound_witness :
  (∃ l, k_log (startDetached "pipe/web" (at_rest ∅)).2 = [] ++ l ∧ start_trace "pipe/web" (startDetached "pipe/web" (at_rest ∅)).1 l) ∧
  (let w1 := advance (at_rest ∅) in
   await_end (polls + 1) (mkTime (16 * Second) 0) "pipe/web" (run_of "pipe/web" (row 1 "ready")) w1
   = await_end polls (mkTime (16 * Second) 0) "pipe/web" (run_of "pipe/web" (row 1 "ready")) w1).
Proof.
  destruct start_sound as (Hs & _ & Hp). split.
  - destruct (Hs "pipe/web" (at_rest ∅)) as (l & Hl & Ht & _). exists l. exact (conj Hl Ht).
  - intros w1. destruct (Hp 1%nat (mkTime (16 * Second) 0) "pipe/web" (run_of "pipe/web" (row 1 "ready")) 1 (at_rest ∅) (mkTime Second 0) w1)
      as [He _]; [|reflexivity|reflexivity|exact He].
    intros n. cbn [clock box unix_ns]. unfold Second. split; [change (1000000000 / 10) with 100000000|]; lia.
Defined.

(** A run that is degraded, with its process alive, is not in the way of a second one. *)
Lemma degraded_run_replaced :
  let w := at_rest {[ "pipe/web" := row 1 "degraded" ]} in
  (∀ n, identity_at n 1 = Ok (ru_ProcessIdentity (run_of "pipe/web" (row 1 "degraded")))) ∧
  ∃ run, (startDetached "pipe/web" w).1 = Ok run ∧ ru_PID run = 2 ∧
    k_log (startDetached "pipe/web" w).2 !! 1%nat = Some (RunRemoved "pipe/web") ∧
    k_log (startDetached "pipe/web" w).2 !! 3%nat = Some (Spawned "pipe/web" 2).
Proof.
  split; [done|]. eexists. split; [vm_compute; reflexivity|]. split; [reflexivity|].
  split; vm_compute; reflexivity.
Qed.

(** The documented [tubo rm --stale] reaches the handler without arguments and is refused. *)
Lemma rm_stale_refused :
  ∃ g s f, Run_plan commands ["rm"; "--stale"] = Ok (g, Execute s f) ∧ f_bools f !! "stale" = Some true ∧
    ∀ `{Machine} force w, remove (f_args f) true force w = (Fail (errorf "invalid_input: rm requires a resource ref or --stale"), w).
Proof.
  eexists _, _, (mkFlags ∅ {["stale" := true]} []). split; [vm_compute; reflexivity|]. split; [reflexivity|]. intros. reflexivity.
Qed.
