(* ===== verification/PipeViews.v ===== *)
(** * The inventory of Pipes

    [internal/cli/pipe_views.go]: the list of local Pipes and verified network records with
    the freshness of their scopes ([getPipes], [buildPipeViews]) and the events of
    [tubo watch pipes] ([watchPipes], [diffPipeViews]).

    The code is written against an interface, the record [Inventory] of the reads that it
    makes, each a computation over a world; [store_inventory] is the one of the store. *)
From stdpp Require Import sorting.
From S2P Require Import Prelude GoStrings GoTime Encoding Json Credentials Domain StoreSync StoreObjects Effects ScopeTokens ScopeClient ScopeSync.
Open Scope Z_scope.

Record pipeView := mkView {
  v_Ref : string; v_ID : string; v_Name : string; v_Source : string; v_Freshness : string; v_Scope : string;
  v_Ingress : string; v_Target : string; v_Visibility : string; v_Access : string; v_Status : string; v_Path : string;
  v_PathSource : string; v_Sessions : Z; v_PeerID : string; v_Capabilities : list string; v_ExpiresAt : option time;
  v_RecordAge : string }.

(** ** Fields *)

(** [time.Duration.String] of a whole number of seconds, not negative. *)
Definition seconds_String (s : Z) : string :=
  let text n := of_bytes (json_int n) in
  if s <? 60 then text s +:+ "s"
  else if s <? 3600 then text (s / 60) +:+ "m" +:+ text (s mod 60) +:+ "s"
  else text (s / 3600) +:+ "h" +:+ text (s mod 3600 / 60) +:+ "m" +:+ text (s mod 60) +:+ "s".

Definition recordAge (record : Records.PipeRecord) (now : time) : string :=
  let age := Sub (UTC now) (Records.IssuedAt record) in
  let age := if age <? 0 then 0 else age in
  seconds_String ((age + Second / 2) / Second).

Definition advertisedPath (addresses : list string) : string * (Z * Z) :=
  let relayed := llen (List.filter (λ a, Contains a "/p2p-circuit") addresses) in
  let direct := llen (List.filter (λ a, negb (Contains a "/p2p-circuit")) addresses) in
  (if (0 <? direct) && (0 <? relayed) then "mixed" else if 0 <? direct then "direct"
   else if 0 <? relayed then "relayed" else "unknown", (direct, relayed)).

Definition sessionPath (sessions : list Session_) : string :=
  match sessions with [] => "" | s :: _ => ss_Initial s end.

Definition scope_of (spec : PipeSpec) : string := match p_Scope spec with Some s => ScopeString s | None => "" end.
Definition view_key (scope id : string) : string := scope +:+ String (chr 0) id.
Definition pipeWatchKey (item : pipeView) : string := view_key (v_Scope item) (v_ID item).

(** ** Freshness *)
Definition pipeCacheFreshTTL : duration := 5 * Minute.
Record pipeScopeStatus := mkScopeStatus {
  ps_Scope : string; ps_CacheState : string; ps_Source : string; ps_LastSuccess : option time;
  ps_RefreshAttempted : bool; ps_RefreshError : option string }.

Definition is_fresh (value : ScopeFreshness) (now : time) : bool :=
  f_Complete value && (f_Source value =s SnapshotSourcePinnedAuthority)
  && match f_LastSuccess value with
     | Some t => negb (After t now) && (Sub now t <? pipeCacheFreshTTL)
     | None => false
     end.

(** [None] for a scope without a row of freshness. *)
Definition pipeCacheStatus (scope : string) (value : option ScopeFreshness) (now : time) : pipeScopeStatus :=
  match value with
  | None => mkScopeStatus scope "missing" "" None false None
  | Some value =>
      mkScopeStatus (f_Scope value) (if is_fresh value now then "fresh" else "stale") (f_Source value) (f_LastSuccess value) false None
  end.

Definition error_classes : list string :=
  ["invalid_input"; "not_found"; "authorization_denied"; "authority_unreachable"; "discovery_unreachable";
   "discovery_retry_after"; "persistence_failed"; "partial_snapshot"; "invalid_snapshot"].
Definition pipeRefreshErrorClass (e : error) : string :=
  default "discovery_unreachable" (List.find (λ class, Contains (err_text e) class) error_classes).

(** ** Building *)
Record Inventory (W : Type) := mkInventory {
  iv_Pipes : M W (list PipeSpec);
  iv_Run : string → M W (option Run);
  iv_Status : option Run → M W string;                   (* localPipeStatus *)
  iv_Sessions : string → M W (list Session_);
  iv_RecordInScope : string → string → M W Record_;
  iv_Record : string → M W Record_;
  iv_ParseVerified : Record_ → M W Records.PipeRecord;
  iv_Memberships : M W (list Membership);
  iv_Records : string → M W (list Record_);
  iv_Freshness : string → M W ScopeFreshness;
  iv_Refresh : string → bool → M W unit;                 (* refreshPipeRecords *)
  iv_Now : M W time }.
Arguments mkInventory {_}.
Arguments iv_Pipes {_}.
Arguments iv_Run {_}.
Arguments iv_Status {_}.
Arguments iv_Sessions {_}.
Arguments iv_RecordInScope {_}.
Arguments iv_Record {_}.
Arguments iv_ParseVerified {_}.
Arguments iv_Memberships {_}.
Arguments iv_Records {_}.
Arguments iv_Freshness {_}.
Arguments iv_Refresh {_}.
Arguments iv_Now {_}.

Section views.
Context {W : Type} (iv : Inventory W).

(** A record that is found and verifies. *)
Definition found_verified (found : M W Record_) : M W (option Records.PipeRecord) :=
  stored ← attempt found;
  match stored with
  | Fail _ => mret None
  | Ok stored =>
      record ← attempt (iv_ParseVerified iv stored);
      mret (match record with Ok record => Some record | Fail _ => None end)
  end.

Definition localAdvertisedRecord (spec : PipeSpec) : M W (option Records.PipeRecord) :=
  own ← match p_Scope spec with
        | Some scope => found_verified (iv_RecordInScope iv (ScopeString scope) (p_PipeID spec))
        | None => mret None
        end;
  match own with
  | Some record => mret (Some record)
  | None => if Kind (p_Target spec) =s KindPipe then found_verified (iv_Record iv (Name (p_Target spec))) else mret None
  end.

Definition hidden (scopeFilter scope : string) : bool := (scopeFilter <>s "") && (scope <>s "") && (scope <>s scopeFilter).

Definition local_view (freshness : gmap string string) (spec : PipeSpec) : M W pipeView :=
  run ← iv_Run iv (RefString (p_Ref spec));
  sessions ← iv_Sessions iv (RefString (p_Ref spec));
  record ← localAdvertisedRecord spec;
  let '(path, source) :=
    match sessionPath sessions, record with
    | "", Some record => ((advertisedPath (elems (Records.Addresses record))).1, "advertised")
    | path, _ => (path, "last_session")
    end in
  let '(path, source) := if path =s "" then ("unknown", "") else (path, source) in
  status ← iv_Status iv run;
  mret (mkView (RefString (p_Ref spec)) (p_PipeID spec) (Name (p_Ref spec)) "local" (default "" (freshness !! scope_of spec))
          (scope_of spec) (in_Kind (p_Ingress spec)) (RefString (p_Target spec)) (p_Visibility spec) (p_Access spec) status path source
          (llen sessions) "" [] None "").

Fixpoint local_views (freshness : gmap string string) (scopeFilter : string) (specs : list PipeSpec) : M W (list pipeView) :=
  match specs with
  | [] => mret []
  | spec :: specs =>
      if hidden scopeFilter (scope_of spec) then local_views freshness scopeFilter specs else
      item ← local_view freshness spec;
      items ← local_views freshness scopeFilter specs;
      mret (item :: items)
  end.

(** The index of the last item with each key. *)
Definition index_items (items : list pipeView) : gmap string nat :=
  list_to_map (reverse (imap (λ i item, (pipeWatchKey item, i)) items)).

Definition merge_network (record : Records.PipeRecord) (now : time) (item : pipeView) : pipeView :=
  let path := (advertisedPath (elems (Records.Addresses record))).1 in
  mkView (v_Ref item) (v_ID item) (v_Name item) "local+network" (v_Freshness item) (v_Scope item) (v_Ingress item) (v_Target item)
    (v_Visibility item) (v_Access item) (v_Status item) (if v_Path item =s "unknown" then path else v_Path item)
    (if v_Path item =s "unknown" then "advertised" else v_PathSource item) (v_Sessions item)
    (Records.RuntimePeerID record) (elems (Records.Capabilities record)) (Some (Records.ExpiresAt record)) (recordAge record now).

Definition network_view (freshness : gmap string string) (record : Records.PipeRecord) (now : time) : pipeView :=
  let scope := ScopeString (Records.InScope record) in
  mkView ("pipe/" +:+ Records.PipeID record) (Records.PipeID record) (Records.DisplayName record) "network"
    (default "" (freshness !! scope)) scope "" "" (Records.Visibility record) (Records.Access record) "available"
    (advertisedPath (elems (Records.Addresses record))).1 "advertised" 0 (Records.RuntimePeerID record)
    (elems (Records.Capabilities record)) (Some (Records.ExpiresAt record)) (recordAge record now).

(** The items and the keys that were met. *)
Fixpoint add_records (freshness : gmap string string) (indexes : gmap string nat) (scope : string) (stored : list Record_)
    (items : list pipeView) (seen : gset string) : M W (list pipeView * gset string) :=
  match stored with
  | [] => mret (items, seen)
  | v :: stored =>
      let key := view_key scope (r_PipeID v) in
      if bool_decide (key ∈ seen) then add_records freshness indexes scope stored items seen else
      let seen := {[key]} ∪ seen in
      record ← attempt (iv_ParseVerified iv v);
      match record with
      | Fail _ => add_records freshness indexes scope stored items seen
      | Ok record =>
          now ← iv_Now iv;
          let items := match indexes !! key with
                       | Some i => alter (merge_network record now) i items
                       | None => items ++ [network_view freshness record now]
                       end in
          add_records freshness indexes scope stored items seen
      end
  end.

Fixpoint add_memberships (freshness : gmap string string) (indexes : gmap string nat) (scopeFilter : string)
    (memberships : list Membership) (items : list pipeView) (seen : gset string) : M W (list pipeView) :=
  match memberships with
  | [] => mret items
  | m :: memberships =>
      if (scopeFilter <>s "") && (mb_Scope m <>s scopeFilter)
      then add_memberships freshness indexes scopeFilter memberships items seen else
      stored ← iv_Records iv (mb_Scope m);
      '(items, seen) ← add_records freshness indexes (mb_Scope m) stored items seen;
      add_memberships freshness indexes scopeFilter memberships items seen
  end.

(** By name, scope and identifier. *)
Definition view_order (a b : pipeView) : Prop :=
  (text_lt (v_Name a) (v_Name b) || ((v_Name a) =s (v_Name b)) &&
   (text_lt (v_Scope a) (v_Scope b) || ((v_Scope a) =s (v_Scope b)) && text_le (v_ID a) (v_ID b))) = true.
#[local] Instance view_order_dec a b : Decision (view_order a b).
Proof. unfold view_order. apply _. Defined.

Definition buildPipeViews (scopeFilter : string) (freshness : gmap string string) : M W (list pipeView) :=
  specs ← iv_Pipes iv;
  items ← local_views freshness scopeFilter specs;
  memberships ← iv_Memberships iv;
  items ← add_memberships freshness (index_items items) scopeFilter memberships items ∅;
  mret (merge_sort view_order items).

(** ** [tubo get pipes] *)
Definition freshness_of (scope : string) : M W (option ScopeFreshness) :=
  value ← attempt (iv_Freshness iv scope);
  match value with
  | Ok value => mret (Some value)
  | Fail e => if errors_Is e ErrNotFound then mret None else fail (prefixed "persistence_failed: discovery freshness: " e)
  end.

Definition attempted (e : option string) (s : pipeScopeStatus) : pipeScopeStatus :=
  mkScopeStatus (ps_Scope s) (ps_CacheState s) (ps_Source s) (ps_LastSuccess s) true e.

Definition refreshed_status (refresh cachedOnly : bool) (scope : string) (now : time) : M W pipeScopeStatus :=
  value ← freshness_of scope;
  let status := pipeCacheStatus scope value now in
  if negb cachedOnly && (refresh || (ps_CacheState status <>s "fresh")) then
    done_ ← attempt (iv_Refresh iv scope refresh);
    let e := match done_ with Ok _ => None | Fail e => Some (pipeRefreshErrorClass e) end in
    updated ← attempt (iv_Freshness iv scope);
    match updated with
    | Ok updated => t ← iv_Now iv; mret (attempted e (pipeCacheStatus scope (Some updated) t))
    | Fail _ => mret (attempted e status)
    end
  else mret status.

Fixpoint scope_statuses (refresh cachedOnly : bool) (scope : string) (now : time) (memberships : list Membership)
    : M W (list (string * pipeScopeStatus)) :=
  match memberships with
  | [] => mret []
  | m :: memberships =>
      if (scope <>s "") && (mb_Scope m <>s scope) then scope_statuses refresh cachedOnly scope now memberships else
      status ← refreshed_status refresh cachedOnly (mb_Scope m) now;
      rest ← scope_statuses refresh cachedOnly scope now memberships;
      mret ((mb_Scope m, status) :: rest)
  end.

Definition getPipes (refresh cachedOnly : bool) (scope : string) : M W (list pipeView * list pipeScopeStatus) :=
  _ ← guard (refresh && cachedOnly) (errorf "invalid_input: --refresh and --cached-only cannot be used together");
  memberships ← iv_Memberships iv;
  now ← iv_Now iv;
  statuses ← scope_statuses refresh cachedOnly scope now memberships;
  items ← buildPipeViews scope (list_to_map (reverse (map (λ s, (s.1, ps_CacheState s.2)) statuses)));
  mret (items, map snd statuses).

(** ** [tubo watch pipes] *)
Inductive watch_type := Added | Removed | Expired | Degraded | Recovered | Updated.
Record pipeWatchEvent := mkWatchEvent {
  we_Type : watch_type; we_Scope : string; we_PipeID : string; we_Name : string; we_Changed : list string;
  we_Item : option pipeView; we_Previous : option pipeView; we_ObservedAt : time }.

Fixpoint watch_freshness (scopeFilter : string) (memberships : list Membership) (acc : gmap string string) : M W (gmap string string) :=
  match memberships with
  | [] => mret acc
  | m :: memberships =>
      if (scopeFilter <>s "") && (mb_Scope m <>s scopeFilter) then watch_freshness scopeFilter memberships acc else
      value ← freshness_of (mb_Scope m);
      now ← iv_Now iv;
      watch_freshness scopeFilter memberships (<[mb_Scope m := ps_CacheState (pipeCacheStatus (mb_Scope m) value now)]> acc)
  end.
Definition watchPipeFreshness (scopeFilter : string) : M W (gmap string string) :=
  memberships ← iv_Memberships iv; watch_freshness scopeFilter memberships ∅.

Definition pipeViewHasNetworkSource (item : pipeView) : bool := (v_Source item =s "network") || (v_Source item =s "local+network").

Definition lapsed (item : pipeView) (observedAt : time) : bool :=
  match v_ExpiresAt item with Some t => negb (After t observedAt) | None => false end.

Definition pipeWatchChangeType (before after : pipeView) (observedAt : time) : watch_type :=
  if lapsed before observedAt && pipeViewHasNetworkSource before && negb (pipeViewHasNetworkSource after) then Expired
  else if (v_Status before <>s "degraded") && (v_Status after =s "degraded") then Degraded
  else if (v_Status before =s "degraded") && (v_Status after <>s "degraded") then Recovered
  else Updated.

Definition changedPipeViewFields (before after : pipeView) : list string :=
  (if v_Status before <>s v_Status after then ["status"] else [])
  ++ (if v_Source before <>s v_Source after then ["source"] else [])
  ++ (if v_Freshness before <>s v_Freshness after then ["freshness"] else []).

Definition diff_key (previous current : gmap string pipeView) (observedAt : time) (key : string) : option pipeWatchEvent :=
  match previous !! key, current !! key with
  | None, Some after => Some (mkWatchEvent Added (v_Scope after) (v_ID after) (v_Name after) [] (Some after) None observedAt)
  | Some before, None =>
      Some (mkWatchEvent (if lapsed before observedAt then Expired else Removed) (v_Scope before) (v_ID before) (v_Name before) []
              None (Some before) observedAt)
  | Some before, Some after =>
      match changedPipeViewFields before after with
      | [] => None
      | changed => Some (mkWatchEvent (pipeWatchChangeType before after observedAt) (v_Scope after) (v_ID after) (v_Name after) changed
                           (Some after) (Some before) observedAt)
      end
  | None, None => None
  end.

Definition diffPipeViews (previous current : gmap string pipeView) (observedAt : time) : list pipeWatchEvent :=
  let keys := map fst (map_to_list previous) ++ List.filter (λ k, bool_decide (previous !! k = None)) (map fst (map_to_list current)) in
  omap (diff_key previous current observedAt) (sort_strings keys).

Definition views_map (items : list pipeView) : gmap string pipeView :=
  list_to_map (reverse (map (λ item, (pipeWatchKey item, item)) items)).

(** One poll: the events and what the next poll compares with. *)
Definition poll (scope : string) (previous : gmap string pipeView) : M W (list pipeWatchEvent * gmap string pipeView) :=
  freshness ← watchPipeFreshness scope;
  items ← buildPipeViews scope freshness;
  let current := views_map items in
  now ← iv_Now iv;
  mret (diffPipeViews previous current now, current).

(** [watchPipes] for a number of ticks after its first poll; the events of each poll. *)
Fixpoint watch_polls (n : nat) (scope : string) (previous : gmap string pipeView) : M W (list (list pipeWatchEvent)) :=
  '(events, current) ← poll scope previous;
  match n with
  | O => mret [events]
  | S n => rest ← watch_polls n scope current; mret (events :: rest)
  end.
Definition watchPipes (ticks : nat) (scope : string) : M W (list (list pipeWatchEvent)) := watch_polls ticks scope ∅.
End views.

(** ** The reads of the store *)

(** [localPipeStatus]: [identity] is what the process table says of a pid. *)
Definition localPipeStatus (identity : Z → res string) (run : option Run) : string :=
  match run with
  | None => "defined"
  | Some run =>
      if mem_str (ru_Status run) ["ready"; "starting"; "degraded"] then
        match identity (ru_PID run) with
        | Ok id => if id =s ru_ProcessIdentity run then ru_Status run else "stale"
        | Fail _ => "stale"
        end
      else ru_Status run
  end.

(** The tables of the store beside those of a member. *)
Record local_state := mkLocal { lc_objects : objects; lc_runs : runs_table }.

Section store_inventory.
Context `{Ed25519} (net : network local_state) (clock : nat → time) (rnd : nat → entropy) (load : string → res PrivateKey).
Context (identity : nat → Z → res string).

(** What other processes did to the store before an access. *)
Context (others : member local_state → member local_state).
Definition shared {A} (m : M (member local_state) A) : M (member local_state) A := λ w, m (others w).

Definition store_inventory : Inventory (member local_state) :=
  mkInventory
    (shared (op (λ w, (Pipes (lc_objects (m_net w)), w))))
    (λ ref, shared (op (λ w, (Ok (match RunNamed (lc_runs (m_net w)) ref with Ok r => Some r | Fail _ => None end), w))))
    (λ run, op (λ w, (Ok (localPipeStatus (identity (m_ticks w)) run), w)))
    (λ ref, shared (op (λ w, (Sessions (lc_objects (m_net w)) ref, w))))
    (λ scope pipeID, t ← time_now clock; t' ← time_now clock; shared (in_sync (RecordInScope t t' scope pipeID)))
    (λ pipeID, t ← time_now clock; t' ← time_now clock; shared (in_sync (Record t t' pipeID)))
    (λ stored, shared (ParseVerifiedRecord clock stored))
    (shared (op (λ w, (Memberships (m_scopes w), w))))
    (λ scope, t ← time_now clock; t' ← time_now clock; shared (in_sync (Records t t' scope)))
    (λ scope, shared (op (λ w, (ScopeFreshnessOf (m_sync w) scope, w))))
    (λ scope force, shared (_ ← FetchRecordsWithOptions net clock rnd load scope force None; mret tt))
    (time_now clock).
End store_inventory.
