(* ===== verification/PipeViewsProps.v ===== *)
(** * What the inventory shows and what its watcher reports *)
From stdpp Require Import sorting.
From S2P Require Import Prelude GoStrings GoTime Encoding Json Credentials CredentialVerify Domain DomainFacts StoreSync StoreObjects StoreObjectFacts.
From S2P Require Import Effects ScopeTokens ScopeAuthority ScopeAuthorityProps ScopeClient ScopeClientProps ScopeSync PipeViews.
Open Scope Z_scope.

(** ** Keys *)
Definition no_nul (s : string) : Prop := chr 0 ∉ bytes_of s.

Lemma bytes_view_key scope id : bytes_of (view_key scope id) = bytes_of scope ++ chr 0 :: bytes_of id.
Proof. unfold view_key. by rewrite bytes_of_app. Qed.

Lemma cut_unique (c : ascii) a b x y : c ∉ a → c ∉ b → a ++ c :: x = b ++ c :: y → a = b ∧ x = y.
Proof.
  revert b. induction a as [|d a IH]; intros [|e b] Ha Hb E; cbn in E.
  - by injection E as ->.
  - injection E as -> _. destruct Hb. apply list_elem_of_here.
  - injection E as -> _. destruct Ha. apply list_elem_of_here.
  - injection E as -> E. rewrite not_elem_of_cons in Ha, Hb. destruct (IH b) as [-> ->]; [apply Ha|apply Hb|done|done].
Qed.

Lemma view_key_inj scope scope' id id' :
  no_nul scope → no_nul scope' → view_key scope id = view_key scope' id' → scope = scope' ∧ id = id'.
Proof.
  intros H1 H2 E. apply (f_equal bytes_of) in E. rewrite !bytes_view_key in E.
  destruct (cut_unique _ _ _ _ _ H1 H2 E) as [E1 E2]. split; by apply bytes_of_inj.
Qed.

(** ** The watcher *)

(** Two lists of views that agree on what is watched. *)
Definition same_state (a b : pipeView) : Prop :=
  v_Status a = v_Status b ∧ v_Source a = v_Source b ∧ v_Freshness a = v_Freshness b.
Definition alike (m m' : gmap string pipeView) : Prop := ∀ k, option_Forall2 same_state (m !! k) (m' !! k).
Definition keyed (m : gmap string pipeView) : Prop := ∀ k v, m !! k = Some v → k = pipeWatchKey v.

#[local] Instance same_state_equiv : Equivalence same_state.
Proof.
  unfold same_state. split; [by intros a|intros a b (? & ? & ?); split_and!; congruence|].
  intros a b c (? & ? & ?) (? & ? & ?). split_and!; congruence.
Qed.
#[local] Instance alike_equiv : Equivalence alike.
Proof.
  split; [intros m k; reflexivity|intros m m' E k; symmetry; apply E|intros a b c E1 E2 k; etrans; [apply E1|apply E2]].
Qed.

Lemma changed_none before after : changedPipeViewFields before after = [] ↔ same_state before after.
Proof.
  unfold changedPipeViewFields, same_state. destruct (v_Status before =s v_Status after) eqn:E1; [apply seqb_true in E1|apply seqb_false in E1];
    (destruct (v_Source before =s v_Source after) eqn:E2; [apply seqb_true in E2|apply seqb_false in E2]);
    (destruct (v_Freshness before =s v_Freshness after) eqn:E3; [apply seqb_true in E3|apply seqb_false in E3]); cbn; naive_solver.
Qed.

(** What a reader of the events makes of one: it keeps the item, or drops the key. *)
Definition apply_event (m : gmap string pipeView) (e : pipeWatchEvent) : gmap string pipeView :=
  let key := view_key (we_Scope e) (we_PipeID e) in
  match we_Item e with Some item => <[key := item]> m | None => delete key m end.
Definition replay (events : list pipeWatchEvent) (m : gmap string pipeView) : gmap string pipeView := foldl apply_event m events.

Lemma diff_key_effect previous current now key e m :
  keyed previous → keyed current → diff_key previous current now key = Some e →
  view_key (we_Scope e) (we_PipeID e) = key ∧ apply_event m e = partial_alter (λ _, current !! key) key m.
Proof.
  intros Hp Hc He. unfold diff_key in He. unfold apply_event.
  destruct (previous !! key) as [before|] eqn:Eb, (current !! key) as [after|] eqn:Ea; [|..|done].
  - destruct (changedPipeViewFields before after); [done|]. injection He as <-. cbn. apply Hc in Ea. by subst key.
  - injection He as <-. cbn. apply Hp in Eb. by subst key.
  - injection He as <-. cbn. apply Hc in Ea. by subst key.
Qed.

Lemma replay_lookup previous current now keys m k :
  keyed previous → keyed current → NoDup keys →
  replay (omap (diff_key previous current now) keys) m !! k =
  if decide (k ∈ keys) then match diff_key previous current now k with Some _ => current !! k | None => m !! k end else m !! k.
Proof.
  intros Hp Hc Hn. revert m. induction Hn as [|key keys Hnot Hn IH]; intros m; [done|]. cbn [omap list_omap].
  assert (Hrest : ∀ m', replay (omap (diff_key previous current now) keys) m' !! k =
    if decide (k ∈ keys) then match diff_key previous current now k with Some _ => current !! k | None => m' !! k end else m' !! k) by apply IH.
  destruct (diff_key previous current now key) as [e|] eqn:Ee.
  - unfold replay. cbn [foldl]. fold (replay (omap (diff_key previous current now) keys) (apply_event m e)). rewrite Hrest.
    destruct (diff_key_effect _ _ _ _ _ m Hp Hc Ee) as [_ ->].
    destruct (decide (k = key)) as [->|Hk].
    + rewrite decide_False by done. rewrite decide_True by (apply list_elem_of_here). rewrite Ee. apply lookup_partial_alter_eq.
    + rewrite lookup_partial_alter_ne by done. destruct (decide (k ∈ keys)).
      * by rewrite decide_True by (by apply list_elem_of_further).
      * rewrite decide_False; [done|]. by rewrite elem_of_cons; intros [|].
  - rewrite Hrest. destruct (decide (k = key)) as [->|Hk].
    + rewrite decide_False by done. by rewrite decide_True, Ee by (apply list_elem_of_here).
    + destruct (decide (k ∈ keys)).
      * by rewrite decide_True by (by apply list_elem_of_further).
      * rewrite decide_False; [done|]. by rewrite elem_of_cons; intros [|].
Qed.

Definition diff_keys (previous current : gmap string pipeView) : list string := sort_strings
  (map fst (map_to_list previous) ++ List.filter (λ k, bool_decide (previous !! k = None)) (map fst (map_to_list current))).

Lemma keys_of_map (m : gmap string pipeView) k : k ∈ map fst (map_to_list m) ↔ is_Some (m !! k).
Proof.
  split.
  - intros ([k' v] & -> & Hin)%list_elem_of_fmap. apply elem_of_map_to_list in Hin. by exists v.
  - intros [v Hv]. apply list_elem_of_fmap. exists (k, v). split; [done|]. by apply elem_of_map_to_list.
Qed.

Lemma elem_of_diff_keys previous current k : k ∈ diff_keys previous current ↔ is_Some (previous !! k) ∨ is_Some (current !! k).
Proof.
  unfold diff_keys, sort_strings. rewrite merge_sort_Permutation, elem_of_app, keys_of_map, list_elem_of_In, filter_In, <- list_elem_of_In, keys_of_map.
  rewrite bool_decide_eq_true. destruct (previous !! k); naive_solver.
Qed.

Lemma diff_keys_NoDup previous current : NoDup (diff_keys previous current).
Proof.
  unfold diff_keys, sort_strings. rewrite merge_sort_Permutation. apply NoDup_app. split_and!.
  - apply (NoDup_fst_map_to_list previous).
  - intros k Hk. rewrite keys_of_map in Hk. rewrite list_elem_of_In, filter_In, bool_decide_eq_true. intros [_ E]. rewrite E in Hk. by destruct Hk.
  - apply NoDup_ListNoDup, List.NoDup_filter, NoDup_ListNoDup. apply (NoDup_fst_map_to_list current).
Qed.

Lemma diff_key_none previous current now k :
  diff_key previous current now k = None ↔ option_Forall2 same_state (previous !! k) (current !! k).
Proof.
  unfold diff_key. destruct (previous !! k) as [before|], (current !! k) as [after|].
  - pose proof (changed_none before after) as Hc. destruct (changedPipeViewFields before after).
    + split; [|done]. intros _. constructor. by apply Hc.
    + split; [done|]. intros Hx. inversion Hx; subst. naive_solver.
  - split; [done|]. intros Hx. inversion Hx.
  - split; [done|]. intros Hx. inversion Hx.
  - split; [constructor|done].
Qed.

(** A replica of what was shown before becomes one of what is shown now. *)
Lemma replay_diff previous current now m :
  keyed previous → keyed current → alike m previous → alike (replay (diffPipeViews previous current now) m) current.
Proof.
  intros Hp Hc Ha k. unfold diffPipeViews. fold (diff_keys previous current).
  rewrite (replay_lookup previous current now _ m k Hp Hc (diff_keys_NoDup previous current)).
  destruct (diff_key previous current now k) as [e|] eqn:Ee.
  - destruct (decide (k ∈ diff_keys previous current)) as [Hk|Hk]; [reflexivity|].
    rewrite elem_of_diff_keys in Hk. unfold diff_key in Ee. destruct (previous !! k), (current !! k); naive_solver.
  - apply diff_key_none in Ee. assert (option_Forall2 same_state (m !! k) (current !! k)) by (etrans; [apply Ha|done]).
    by destruct (decide _).
Qed.

(** An event for a key exactly when what is watched of it changed. *)
Lemma diff_exact previous current now k :
  keyed previous → keyed current →
  (∃ e, e ∈ diffPipeViews previous current now ∧ view_key (we_Scope e) (we_PipeID e) = k) ↔
  ¬ option_Forall2 same_state (previous !! k) (current !! k).
Proof.
  intros Hp Hc. rewrite <- (diff_key_none _ _ now). unfold diffPipeViews. fold (diff_keys previous current). split.
  - intros (e & (key & Hk & He)%list_elem_of_omap & <-) Hn. destruct (diff_key_effect _ _ _ _ _ ∅ Hp Hc He) as [Hkey _].
    rewrite Hkey in Hn. congruence.
  - intros Hn. destruct (diff_key previous current now k) as [e|] eqn:Ee; [|done].
    exists e. split; [|by apply (diff_key_effect _ _ _ _ _ ∅ Hp Hc Ee)]. apply list_elem_of_omap. exists k. split; [|done].
    apply elem_of_diff_keys. unfold diff_key in Ee. destruct (previous !! k), (current !! k); naive_solver.
Qed.

Lemma views_map_keyed items : keyed (views_map items).
Proof.
  intros k v Hv. apply elem_of_list_to_map_2, elem_of_reverse, list_elem_of_fmap in Hv as (item & [= -> ->] & _). done.
Qed.

(** Replaying the events of each poll keeps a replica of what each poll showed. *)
Fixpoint tracks (m : gmap string pipeView) (events : list (list pipeWatchEvent)) (shown : list (list pipeView)) : Prop :=
  match events, shown with
  | [], [] => True
  | e :: events, items :: shown => alike (replay e m) (views_map items) ∧ tracks (replay e m) events shown
  | _, _ => False
  end.

Lemma Forall2_flip_elem {A B} (P : A → B → Prop) l k : Forall2 P l k → ∀ y, y ∈ k → ∃ x, x ∈ l ∧ P x y.
Proof.
  induction 1 as [|x y l k HP _ IH]; intros z Hz; [by apply elem_of_nil in Hz|]. apply elem_of_cons in Hz as [->|Hz].
  - exists x. split; [apply list_elem_of_here|done].
  - destruct (IH z Hz) as (x' & ? & ?). exists x'. split; [by apply list_elem_of_further|done].
Qed.

Lemma map_alter {A B} (g : A → B) (f : A → A) (i : nat) (l : list A) : (∀ x, g (f x) = g x) → map g (alter f i l) = map g l.
Proof. intros Hf. revert i. induction l as [|x l IH]; intros [|i]; cbn; [done|done|by rewrite Hf|]. f_equal. apply IH. Qed.

Lemma elem_of_alter {A} (f : A → A) (i : nat) (l : list A) y : y ∈ alter f i l → y ∈ l ∨ ∃ x, l !! i = Some x ∧ y = f x.
Proof.
  intros (j & Hj)%list_elem_of_lookup. destruct (decide (i = j)) as [->|Hne].
  - rewrite list_lookup_alter_eq in Hj. apply fmap_Some in Hj as (x & Hx & ->). right. eauto.
  - rewrite list_lookup_alter_ne in Hj by done. left. by apply list_elem_of_lookup_2 in Hj.
Qed.
Lemma elem_of_altered {A} (f : A → A) (i : nat) (l : list A) x : x ∈ l → x ∈ alter f i l ∨ f x ∈ alter f i l.
Proof.
  intros (j & Hj)%list_elem_of_lookup. destruct (decide (i = j)) as [->|Hne].
  - right. apply (list_elem_of_lookup_2 _ j). by rewrite list_lookup_alter_eq, Hj.
  - left. apply (list_elem_of_lookup_2 _ j). by rewrite list_lookup_alter_ne.
Qed.

Lemma index_items_some items k i : index_items items !! k = Some i → ∃ item, items !! i = Some item ∧ pipeWatchKey item = k.
Proof.
  intros Hi. apply elem_of_list_to_map_2, elem_of_reverse, elem_of_lookup_imap in Hi as (j & item & [= -> ->] & Hj). eauto.
Qed.
Lemma index_items_known items item : item ∈ items → is_Some (index_items items !! pipeWatchKey item).
Proof.
  intros (i & Hi)%list_elem_of_lookup. apply not_eq_None_Some. intros Hn. apply not_elem_of_list_to_map_2 in Hn. apply Hn.
  apply list_elem_of_fmap. exists (pipeWatchKey item, i). split; [done|]. apply elem_of_reverse, elem_of_lookup_imap. eauto.
Qed.

Section watching.
Context {W : Type} (iv : Inventory W).

(** ** What the store promises

    In the worlds of [Inv], which the reads keep: the definitions have different identifiers
    and scopes without a NUL byte, the records of a scope are of that scope, and a cached
    record that parses is [verified] and the one of its row. *)
Context (Inv : W → Prop).
Definition keeps (w w' : W) : Prop := Inv w → Inv w'.
#[export] Instance keeps_preorder : PreOrder keeps.
Proof. unfold keeps. split; [by intros w|]. intros a b c; auto. Qed.

Class inventory_laws (verified : Records.PipeRecord → Prop) : Prop := {
  ik_pipes : within keeps (iv_Pipes iv);
  ik_run ref : within keeps (iv_Run iv ref);
  ik_status run : within keeps (iv_Status iv run);
  ik_sessions ref : within keeps (iv_Sessions iv ref);
  ik_record_in_scope scope id : within keeps (iv_RecordInScope iv scope id);
  ik_record id : within keeps (iv_Record iv id);
  ik_parse v : within keeps (iv_ParseVerified iv v);
  ik_memberships : within keeps (iv_Memberships iv);
  ik_records scope : within keeps (iv_Records iv scope);
  ik_freshness scope : within keeps (iv_Freshness iv scope);
  ik_now : within keeps (iv_Now iv);
  il_pipes w l w' : Inv w → iv_Pipes iv w = (Ok l, w') → NoDup (map p_PipeID l) ∧ Forall (λ s, no_nul (scope_of s)) l;
  il_records scope w l w' : Inv w → iv_Records iv scope w = (Ok l, w') → Forall (λ v, r_Scope v = scope) l;
  il_parse v w r w' : Inv w → iv_ParseVerified iv v w = (Ok r, w') →
    Records.PipeID r = r_PipeID v ∧ ScopeString (Records.InScope r) = r_Scope v ∧ verified r }.

Context (verified : Records.PipeRecord → Prop) `{laws : !inventory_laws verified}.
#[local] Hint Resolve keeps_preorder ik_pipes ik_run ik_status ik_sessions ik_record_in_scope ik_record ik_parse ik_memberships
  ik_records ik_freshness ik_now : effects.

Lemma run_kept {A} (m : M W A) w r w' : within keeps m → m w = (r, w') → Inv w → Inv w'.
Proof. intros Hm E. specialize (Hm w). by rewrite E in Hm. Qed.

Lemma keeps_local_views freshness filter_ specs : within keeps (local_views iv freshness filter_ specs).
Proof.
  induction specs as [|spec specs IH]; cbn [local_views];
    [|unfold local_view, localAdvertisedRecord, found_verified]; solve_within.
Qed.
Lemma keeps_watch_freshness filter_ ms acc : within keeps (watch_freshness iv filter_ ms acc).
Proof. revert acc. induction ms as [|m ms IH]; intros acc; cbn [watch_freshness]; [|unfold freshness_of]; solve_within. Qed.
Lemma keeps_watchPipeFreshness filter_ : within keeps (watchPipeFreshness iv filter_).
Proof. pose proof (keeps_watch_freshness filter_). unfold watchPipeFreshness. solve_within. Qed.
Lemma keeps_add_records freshness indexes scope stored items seen :
  within keeps (add_records iv freshness indexes scope stored items seen).
Proof. revert items seen. induction stored as [|v stored IH]; intros items seen; cbn [add_records]; solve_within. Qed.
Lemma keeps_add_memberships freshness indexes filter_ ms items seen :
  within keeps (add_memberships iv freshness indexes filter_ ms items seen).
Proof.
  pose proof keeps_add_records. revert items seen. induction ms as [|m ms IH]; intros items seen; cbn [add_memberships]; solve_within.
Qed.
Lemma keeps_build filter_ freshness : within keeps (buildPipeViews iv filter_ freshness).
Proof. pose proof keeps_local_views. pose proof keeps_add_memberships. unfold buildPipeViews. solve_within. Qed.

(** ** What is watched *)

(** One poll in the world [w]: it reads the freshness, builds the items in the world that
    leaves, which is one of [Inv], and reports how they differ from the previous ones. *)
Definition polled (scope : string) (previous : gmap string pipeView) (w : W) (events : list pipeWatchEvent)
    (items : list pipeView) (w' : W) : Prop :=
  ∃ freshness w1 w2 now,
    watchPipeFreshness iv scope w = (Ok freshness, w1) ∧ Inv w1 ∧
    buildPipeViews iv scope freshness w1 = (Ok items, w2) ∧ iv_Now iv w2 = (Ok now, w') ∧
    events = diffPipeViews previous (views_map items) now.

(** Polls one after the other, each in the world that the one before left. *)
Inductive watched (scope : string) : gmap string pipeView → W → list (list pipeWatchEvent) → list (list pipeView) → W → Prop :=
  | watched_last previous w events items w' :
      polled scope previous w events items w' → watched scope previous w [events] [items] w'
  | watched_next previous w events items w1 evs shown w' :
      polled scope previous w events items w1 → watched scope (views_map items) w1 evs shown w' →
      watched scope previous w (events :: evs) (items :: shown) w'.

Lemma poll_run scope previous w events current w' :
  Inv w → poll iv scope previous w = (Ok (events, current), w') →
  Inv w' ∧ ∃ items, current = views_map items ∧ polled scope previous w events items w'.
Proof.
  intros HI Hp. unfold poll in Hp. apply bind_run in Hp as (fr & w1 & Hf & Hp). apply bind_run in Hp as (items & w2 & Hb & Hp).
  apply bind_run in Hp as (now & w3 & Hn & [= <- <- <-]).
  pose proof (run_kept _ _ _ _ (keeps_watchPipeFreshness scope) Hf HI) as I1.
  pose proof (run_kept _ _ _ _ (keeps_build scope fr) Hb I1) as I2.
  split; [exact (run_kept _ _ _ _ ik_now Hn I2)|]. exists items. split; [done|]. by exists fr, w1, w2, now.
Qed.

Lemma watch_run n scope previous w evs w' :
  Inv w → watch_polls iv n scope previous w = (Ok evs, w') →
  ∃ shown, length shown = S n ∧ watched scope previous w evs shown w'.
Proof.
  revert previous w evs. induction n as [|n IH]; intros previous w evs HI Hp; cbn [watch_polls] in Hp;
    apply bind_run in Hp as ([events current] & w1 & He & Hp); apply poll_run in He as (I1 & items & -> & He); try done.
  - injection Hp as <- <-. exists [items]. split; [done|]. by constructor.
  - apply bind_run in Hp as (rest & w2 & Hr & [= <- <-]).
    destruct (IH _ _ _ I1 Hr) as (shown & Hl & Hw). exists (items :: shown). split; [by cbn; rewrite Hl|]. by econstructor.
Qed.

(** Replaying what was reported keeps a replica of what was shown. *)
Lemma watched_tracks scope previous m w evs shown w' :
  keyed previous → alike m previous → watched scope previous w evs shown w' → tracks m evs shown.
Proof.
  intros Hk Ha Hw. revert m Ha. induction Hw as [previous w events items w' Hp|previous w events items w1 evs shown w' Hp _ IH];
    intros m Ha; destruct Hp as (fr & wa & wb & now & _ & _ & _ & _ & ->); cbn [tracks].
  - split; [|done]. apply replay_diff; [done|apply views_map_keyed|done].
  - assert (Hr : alike (replay (diffPipeViews previous (views_map items) now) m) (views_map items))
      by (apply replay_diff; [done|apply views_map_keyed|done]).
    split; [done|]. apply IH; [apply views_map_keyed|done].
Qed.

(** ** What is shown *)

(** An item shows a definition, a verified record for its key, or both. *)
Definition of_spec (spec : PipeSpec) (item : pipeView) : Prop :=
  v_Ref item = RefString (p_Ref spec) ∧ v_ID item = p_PipeID spec ∧ v_Scope item = scope_of spec ∧
  (v_Source item = "local" ∨ v_Source item = "local+network").
Definition of_record (item : pipeView) : Prop :=
  ∃ r, verified r ∧ view_key (ScopeString (Records.InScope r)) (Records.PipeID r) = pipeWatchKey item ∧
    v_PeerID item = Records.RuntimePeerID r ∧ v_ExpiresAt item = Some (Records.ExpiresAt r).
Definition sourced (item : pipeView) : Prop :=
  v_Source item = "local" ∧ v_ExpiresAt item = None ∨
  (v_Source item = "local+network" ∨ v_Source item = "network") ∧ of_record item.

(** The freshness of an item is that of its scope. *)
Definition fresh_as (freshness : gmap string string) (item : pipeView) : Prop :=
  v_Freshness item = default "" (freshness !! v_Scope item).

Lemma local_view_ok freshness spec w item w' :
  local_view iv freshness spec w = (Ok item, w') →
  of_spec spec item ∧ sourced item ∧ v_Source item = "local" ∧ fresh_as freshness item.
Proof.
  intros Hv. unfold local_view in Hv. apply bind_run in Hv as (run & w1 & _ & Hv). apply bind_run in Hv as (ss & w2 & _ & Hv).
  apply bind_run in Hv as (rec & w3 & _ & Hv).
  destruct (match sessionPath ss with EmptyString => _ | _ => _ end) as [path source].
  destruct (if path =s "" then _ else _) as [path' source']. apply bind_run in Hv as (st & w4 & _ & [= <- _]).
  unfold of_spec, sourced, fresh_as. cbn. by split_and!; [..|left|left| |].
Qed.

Lemma local_views_ok freshness filter_ specs w items w' :
  local_views iv freshness filter_ specs w = (Ok items, w') →
  Forall2 (λ spec item, of_spec spec item ∧ sourced item ∧ v_Source item = "local" ∧ fresh_as freshness item) (List.filter (λ s, negb (hidden filter_ (scope_of s))) specs) items.
Proof.
  revert w items. induction specs as [|spec specs IH]; intros w items Hv; [injection Hv as <- _; constructor|].
  cbn [local_views] in Hv. cbn [List.filter]. destruct (hidden filter_ (scope_of spec)); cbn [negb]; [by eapply IH|].
  apply bind_run in Hv as (item & w1 & Hi & Hv). apply bind_run in Hv as (rest & w2 & Hr & [= <- <-]).
  constructor; [by eapply local_view_ok|by eapply IH].
Qed.

Lemma local_keys freshness specs items :
  NoDup (map p_PipeID specs) → Forall (λ s, no_nul (scope_of s)) specs →
  Forall2 (λ spec item, of_spec spec item ∧ sourced item ∧ v_Source item = "local" ∧ fresh_as freshness item) specs items → NoDup (map pipeWatchKey items).
Proof.
  intros Hn Hs Hf. induction Hf as [|spec item specs items ((_ & Hid & Hsc & _) & _) Hf IH]; [constructor|].
  apply NoDup_cons in Hn as [Hnot Hn]. apply Forall_cons in Hs as [Hs1 Hs]. constructor; [|by apply IH].
  intros (item' & Hk & Hin)%list_elem_of_fmap. apply Hnot. apply list_elem_of_fmap.
  destruct (Forall2_flip_elem _ _ _ Hf item' Hin) as (spec' & Hin' & (_ & Hid' & Hsc' & _) & _).
  exists spec'. split; [|done]. unfold pipeWatchKey in Hk. rewrite Hid, Hsc, Hid', Hsc' in Hk.
  apply view_key_inj in Hk as [_ ->]; [done|done|]. by apply (proj1 (Forall_forall _ _) Hs).
Qed.

Record shows (freshness : gmap string string) (specs : list PipeSpec) (indexes : gmap string nat) (seen : gset string)
    (items : list pipeView) : Prop := {
  sh_fresh : Forall (fresh_as freshness) items;
  sh_locals : ∀ spec, spec ∈ specs → ∃ item, item ∈ items ∧ of_spec spec item;
  sh_origin : Forall (λ item, v_Source item = "network" ∨ ∃ spec, spec ∈ specs ∧ of_spec spec item) items;
  sh_sourced : Forall sourced items;
  sh_keys : NoDup (map pipeWatchKey items);
  sh_index : ∀ k i, indexes !! k = Some i → ∃ item, items !! i = Some item ∧ pipeWatchKey item = k ∧
    (v_Source item = "local" ∨ v_Source item = "local+network");
  sh_known : ∀ item, item ∈ items → is_Some (indexes !! pipeWatchKey item) ∨ pipeWatchKey item ∈ seen }.

Lemma shows_seen freshness specs indexes seen seen' items : shows freshness specs indexes seen items → seen ⊆ seen' → shows freshness specs indexes seen' items.
Proof. intros [? ? ? ? ? ? Hk] Hs. constructor; try done. intros item Hin. destruct (Hk item Hin); [by left|right; set_solver]. Qed.

Lemma shows_merge freshness specs indexes seen items r now i :
  shows freshness specs indexes seen items → verified r →
  indexes !! view_key (ScopeString (Records.InScope r)) (Records.PipeID r) = Some i →
  shows freshness specs indexes seen (alter (merge_network r now) i items).
Proof.
  intros [Hfr Hl Ho Hs Hk Hi Hn] Hv Hx. destruct (Hi _ _ Hx) as (item & Hit & Hkey & Hsrc).
  assert (Hspec : ∀ spec x, of_spec spec x → of_spec spec (merge_network r now x)).
  { intros spec x (? & ? & ? & _). by split_and!; [..|right]. }
  constructor.
  - apply Forall_alter; [done|]. intros x Hx1 Hx2. exact Hx2.
  - intros spec Hin. destruct (Hl spec Hin) as (x & Hx1 & Hx2).
    destruct (elem_of_altered (merge_network r now) i items x Hx1) as [Hy|Hy]; eauto.
  - apply Forall_alter; [done|]. intros x Hx1 Hx2. rewrite Hit in Hx1. injection Hx1 as <-. right.
    destruct Hx2 as [E|(spec & ? & ?)]; [destruct Hsrc; congruence|]. eauto.
  - apply Forall_alter; [done|]. intros x Hx1 _. rewrite Hit in Hx1. injection Hx1 as <-. right. split; [by left|].
    exists r. by split_and!.
  - by rewrite map_alter.
  - intros k j Hj. destruct (Hi k j Hj) as (x & Hx1 & Hx2 & Hx3). destruct (decide (i = j)) as [->|Hne].
    + exists (merge_network r now x). rewrite list_lookup_alter_eq, Hx1. split_and!; [done|done|by right].
    + exists x. by rewrite list_lookup_alter_ne.
  - intros y [Hy|(x & Hx1 & ->)]%elem_of_alter; [by apply Hn|]. apply (Hn x). by apply list_elem_of_lookup_2 in Hx1.
Qed.

Lemma shows_append freshness specs indexes seen items r now :
  shows freshness specs indexes seen items → verified r →
  let key := view_key (ScopeString (Records.InScope r)) (Records.PipeID r) in
  indexes !! key = None → (key ∉ seen) → shows freshness specs indexes ({[key]} ∪ seen) (items ++ [network_view freshness r now]).
Proof.
  intros [Hfr Hl Ho Hs Hk Hi Hn] Hv key Hx Hf. constructor.
  - apply Forall_app. split; [done|]. by apply Forall_singleton.
  - intros spec Hin. destruct (Hl spec Hin) as (x & ? & ?). exists x. split; [apply elem_of_app; by left|done].
  - apply Forall_app. split; [done|]. apply Forall_singleton. by left.
  - apply Forall_app. split; [done|]. apply Forall_singleton. right. split; [by right|]. exists r. by split_and!.
  - rewrite map_app. apply NoDup_app. split_and!; [done| |apply NoDup_singleton].
    intros k (x & -> & Hin)%list_elem_of_fmap Hk'. apply list_elem_of_singleton in Hk'. change (pipeWatchKey (network_view freshness r now)) with key in Hk'.
    destruct (Hn x Hin) as [[i Hi']|Hin']; congruence.
  - intros k i Hj. destruct (Hi k i Hj) as (x & Hx1 & Hx2). exists x. split; [|done]. by apply lookup_app_l_Some.
  - intros x [Hin|Hin]%elem_of_app; [destruct (Hn x Hin); [by left|right; set_solver]|].
    apply list_elem_of_singleton in Hin as ->. right. change (key ∈ {[key]} ∪ seen). set_solver.
Qed.

Lemma add_records_ok specs freshness indexes scope stored items seen w items' seen' w' :
  Inv w → Forall (λ v, r_Scope v = scope) stored → shows freshness specs indexes seen items →
  add_records iv freshness indexes scope stored items seen w = (Ok (items', seen'), w') → shows freshness specs indexes seen' items'.
Proof.
  intros HI Hst. revert items seen w HI. induction Hst as [|v stored Hv _ IH]; intros items seen w HI Hs Ha; [by injection Ha as <- <- _|].
  cbn [add_records] in Ha. destruct (bool_decide (view_key scope (r_PipeID v) ∈ seen)) eqn:Es; [by eapply IH|].
  apply bool_decide_eq_false in Es. apply bind_run in Ha as (rec & w1 & Hr & Ha).
  apply attempt_run in Hr. pose proof (run_kept _ _ _ _ (ik_parse v) Hr HI) as I1.
  destruct rec as [r|e]; [|eapply IH; [exact I1| |exact Ha]; eapply shows_seen; [exact Hs|set_solver]].
  apply bind_run in Ha as (now & w2 & Hnow & Ha). pose proof (run_kept _ _ _ _ ik_now Hnow I1) as I2.
  destruct (il_parse v _ _ _ HI Hr) as (Hid & Hsc & Hver).
  assert (Hkey : view_key scope (r_PipeID v) = view_key (ScopeString (Records.InScope r)) (Records.PipeID r)) by (rewrite Hid, Hsc, Hv; done).
  rewrite Hkey in *. destruct (indexes !! view_key (ScopeString (Records.InScope r)) (Records.PipeID r)) as [i|] eqn:Ei; (eapply IH; [exact I2| |exact Ha]).
  - eapply shows_seen; [by apply shows_merge|set_solver].
  - by apply shows_append.
Qed.

Lemma add_memberships_ok specs freshness indexes filter_ ms items seen w items' w' :
  Inv w → shows freshness specs indexes seen items →
  add_memberships iv freshness indexes filter_ ms items seen w = (Ok items', w') → ∃ seen', shows freshness specs indexes seen' items'.
Proof.
  revert items seen w. induction ms as [|m ms IH]; intros items seen w HI Hs Ha; [injection Ha as <- _; by exists seen|].
  cbn [add_memberships] in Ha. destruct (_ && _); [by eapply IH|]. apply bind_run in Ha as (stored & w1 & Hst & Ha).
  apply bind_run in Ha as ([items1 seen1] & w2 & Har & Ha). pose proof (run_kept _ _ _ _ (ik_records _) Hst HI) as I1.
  eapply IH; [exact (run_kept _ _ _ _ (keeps_add_records _ _ _ _ _ _) Har I1)| |exact Ha].
  eapply add_records_ok; [exact I1| |exact Hs|exact Har]. by apply (il_records _ _ _ _ HI Hst).
Qed.

(** The local definitions that pass the filter, and verified records. *)
Lemma built_shows scopeFilter freshness w items w' :
  Inv w → buildPipeViews iv scopeFilter freshness w = (Ok items, w') →
  ∃ specs w1, iv_Pipes iv w = (Ok specs, w1) ∧
    let visible := List.filter (λ s, negb (hidden scopeFilter (scope_of s))) specs in
    (∀ spec, spec ∈ visible → ∃ item, item ∈ items ∧ of_spec spec item) ∧
    Forall (λ item, v_Source item = "network" ∨ ∃ spec, spec ∈ visible ∧ of_spec spec item) items ∧
    Forall sourced items ∧ Forall (fresh_as freshness) items ∧ NoDup (map pipeWatchKey items).
Proof.
  intros HI Hb. unfold buildPipeViews in Hb. apply bind_run in Hb as (specs & w1 & Hp & Hb). exists specs, w1. split; [done|]. intros visible.
  apply bind_run in Hb as (locals & w2 & Hl & Hb). apply bind_run in Hb as (ms & w3 & Hms & Hb).
  apply bind_run in Hb as (all & w4 & Ha & [= <- _]).
  assert (I3 : Inv w3).
  { pose proof (run_kept _ _ _ _ ik_pipes Hp HI) as I1. pose proof (run_kept _ _ _ _ (keeps_local_views _ _ _) Hl I1) as I2.
    exact (run_kept _ _ _ _ ik_memberships Hms I2). }
  apply local_views_ok in Hl. fold visible in Hl.
  destruct (il_pipes _ _ _ HI Hp) as [Hn Hs].
  assert (Hnd : NoDup (map p_PipeID visible) ∧ Forall (λ s, no_nul (scope_of s)) visible).
  { split.
    - clear -Hn. unfold visible. induction specs as [|s specs IH]; [constructor|]. apply NoDup_cons in Hn as [Hnot Hn]. cbn [List.filter].
      destruct (negb _); [|by apply IH]. constructor; [|by apply IH]. intros (s' & E & Hin)%list_elem_of_fmap. apply Hnot.
      apply list_elem_of_fmap. exists s'. split; [done|]. apply list_elem_of_In, filter_In in Hin as [Hin _]. by apply list_elem_of_In.
    - apply Forall_forall. intros s Hin. apply list_elem_of_In, filter_In in Hin as [Hin _].
      apply (proj1 (Forall_forall _ _) Hs). by apply list_elem_of_In. }
  destruct (add_memberships_ok visible freshness (index_items locals) scopeFilter ms locals ∅ w3 all w4) as (seen & [Hfr Hloc Hor Hso Hk _ _]);
    [done| |done|].
  - constructor.
    + apply Forall_forall. intros item Hin. by destruct (Forall2_flip_elem _ _ _ Hl item Hin) as (spec & _ & _ & _ & _ & ?).
    + intros spec Hin. destruct (Forall2_flip_elem (λ i s, of_spec s i) locals visible) with (y := spec) as (item & ? & ?); [|done|eauto].
      apply Forall2_flip. eapply Forall2_impl; [exact Hl|]. by intros s i (? & _).
    + apply Forall_forall. intros item Hin. right. destruct (Forall2_flip_elem _ _ _ Hl item Hin) as (spec & ? & ? & _). eauto.
    + apply Forall_forall. intros item Hin. by destruct (Forall2_flip_elem _ _ _ Hl item Hin) as (spec & _ & _ & ? & _).
    + eapply local_keys; [apply Hnd|apply Hnd|exact Hl].
    + intros k i (item & Hi & Hk)%index_items_some. exists item. split_and!; [done|done|left].
      by destruct (Forall2_flip_elem _ _ _ Hl item (list_elem_of_lookup_2 _ _ _ Hi)) as (spec & _ & _ & _ & ? & _).
    + intros item Hin. left. by apply index_items_known.
  - split_and!.
    + intros spec Hin. destruct (Hloc spec Hin) as (item & ? & ?). exists item. by rewrite merge_sort_Permutation.
    + by rewrite merge_sort_Permutation.
    + by rewrite merge_sort_Permutation.
    + by rewrite merge_sort_Permutation.
    + by rewrite (merge_sort_Permutation view_order all).
Qed.
End watching.

(** ** The store keeps the promises *)
Section store.
Context `{Ed25519} (net : network local_state) (clock : nat → time) (rnd : nat → entropy) (load : string → res PrivateKey).
Context (identity : nat → Z → res string) (others : member local_state → member local_state).

(** The Pipes are as [PutPipe] stores them, the clock was read [n0] times and the memberships
    name authority keys that are [trusted] for their scope. *)
Record store_ok (n0 : nat) (trusted : string → string → Prop) (w : member local_state) : Prop := {
  so_pipes : stored_pipes (lc_objects (m_net w));
  so_ticks : (n0 ≤ m_ticks w)%nat;
  so_members : ∀ scope mb, memberships (m_scopes w) !! scope = Some mb → trusted scope (mb_AuthorityPublic mb) }.

(** The record verifies, at a later reading of the clock, under a trusted key of its scope. *)
Definition store_verified (n0 : nat) (trusted : string → string → Prop) (r : Records.PipeRecord) : Prop :=
  ∃ n text pub, (n0 ≤ n)%nat ∧ trusted (ScopeString (Records.InScope r)) text ∧ Tokens.PublicFromString text = Ok pub ∧
    Records.Verify (clock n) r pub (Records.InScope r) (UTC (clock n)) = Ok tt.

Context (n0 : nat) (trusted : string → string → Prop) (Hothers : ∀ w, store_ok n0 trusted w → store_ok n0 trusted (others w)).
Abbreviation kept := (keeps (store_ok n0 trusted)).

Lemma kept_same (f : member local_state → member local_state) :
  (∀ w, m_net (f w) = m_net w ∧ m_scopes (f w) = m_scopes w ∧ (m_ticks w ≤ m_ticks (f w))%nat) → ∀ w, kept w (f w).
Proof.
  intros Hf w [H1 H2 H3]. destruct (Hf w) as (E1 & E2 & E3). constructor; [by rewrite E1|lia|by rewrite E2].
Qed.
Lemma kept_shared {A} (m : M (member local_state) A) : within kept m → within kept (shared others m).
Proof. intros Hm w Hw. by apply Hm, Hothers. Qed.
Lemma kept_now : within kept (time_now clock).
Proof. intros w. apply (kept_same (λ w, (time_now clock w).2)). intros x. cbn. split_and!; [done..|lia]. Qed.
Lemma kept_sync {A} (f : sync_db → res A * sync_db) : within kept (in_sync f).
Proof.
  intros w. apply (kept_same (λ w, (in_sync f w).2)). intros x. unfold in_sync, op. by destruct (f (m_sync x)).
Qed.
Lemma kept_read {A} (f : member local_state → res A) : within kept (op (λ w, (f w, w))).
Proof. by intros w. Qed.
Lemma kept_membership scope : within kept (get_membership scope).
Proof. by intros w. Qed.
#[local] Hint Resolve keeps_preorder kept_shared kept_now kept_sync kept_read kept_membership : effects.
Lemma kept_parse v : within kept (ParseVerifiedRecord clock v).
Proof. unfold ParseVerifiedRecord, said. solve_within. Qed.
#[local] Hint Resolve kept_parse : effects.

Lemma parse_verified v w r w' :
  store_ok n0 trusted w → ParseVerifiedRecord clock v w = (Ok r, w') →
  Records.PipeID r = r_PipeID v ∧ ScopeString (Records.InScope r) = r_Scope v ∧ store_verified n0 trusted r.
Proof.
  intros [_ Ht Hm]. unfold ParseVerifiedRecord, said. intros E.
  apply bind_run in E as (r1 & w1 & [_ <-]%lift_run & E). apply bind_run in E as (u & w1 & [Hb <-]%guard_run & E).
  apply bind_run in E as (mb & w1 & Hmb & E). unfold get_membership, op in Hmb. injection Hmb as Hmb <-.
  apply need_ok in Hmb. apply bind_run in E as (pub & w1 & [Hp <-]%lift_run & E).
  apply bind_run in E as (t & w2 & Hn & E). unfold time_now, op in Hn. injection Hn as <- <-.
  apply bind_run in E as ([] & w3 & Hv & E). apply wrapped_run, lift_run in Hv as [Hv <-]. injection E as <- _.
  repeat bool_step. split_and!; [done|done|]. exists (m_ticks w), (mb_AuthorityPublic mb), pub. split_and!; [done|by apply Hm|done|done].
Qed.

Lemma scanned_scope scope rows l :
  Forall (λ kv, kv.1.1 = scope) rows → scan_records rows = Ok l → Forall (λ v, r_Scope v = scope) l.
Proof.
  intros Hr Hl%scan_records_rows. apply Forall_forall. intros v (i & Hi)%list_elem_of_lookup.
  destruct (Forall2_lookup_r _ _ _ _ _ Hl Hi) as (kv & Hk & Hs & _). rewrite Hs.
  by apply (proj1 (Forall_forall _ _) Hr), (list_elem_of_lookup_2 _ i).
Qed.

Lemma records_scoped t t' scope d l d' : Records t t' scope d = (Ok l, d') → Forall (λ v, r_Scope v = scope) l.
Proof.
  unfold Records. intros [= Hl _]. apply (scanned_scope scope) in Hl; [done|]. apply Forall_forall. intros kv [_ Hk]%select_elem.
  by apply andb_true_iff in Hk as [Hk%seqb_true _].
Qed.

Lemma valid_scope_plain spec :
  (∀ s, p_Scope spec = Some s → ScopeValidate s = Ok tt) → no_nul (scope_of spec).
Proof.
  intros Hv. unfold scope_of. destruct (p_Scope spec) as [s|]; [|by apply not_elem_of_nil].
  specialize (Hv s eq_refl). unfold ScopeValidate in Hv. apply bind_ok in Hv as (u & H1%refuse_ok & H2%refuse_ok).
  apply negb_false_iff, pattern_chars in H1 as [_ H1], H2 as [_ H2]. unfold no_nul, ScopeString. rewrite bytes_of_app.
  assert (Hn : ∀ l, Forall (λ c, name_tail c = true) l → chr 0 ∉ l).
  { intros l Hl Hin. apply (proj1 (Forall_forall _ _) Hl), name_tail_plain in Hin. vm_compute in Hin. by destruct Hin. }
  intros [Hin|Hin]%elem_of_app; [by apply (Hn _ H1)|]. cbn [bytes_of] in Hin. apply elem_of_cons in Hin as [Hin|Hin]; [|by apply (Hn _ H2)].
  vm_compute in Hin. discriminate Hin.
Qed.

#[export] Instance store_inventory_laws :
  inventory_laws (store_inventory net clock rnd load identity others) (store_ok n0 trusted) (store_verified n0 trusted).
Proof.
  constructor; cbn [store_inventory iv_Pipes iv_Run iv_Status iv_Sessions iv_RecordInScope iv_Record iv_ParseVerified
    iv_Memberships iv_Records iv_Freshness iv_Refresh iv_Now]; intros; try solve_within.
  - match goal with E : shared _ _ _ = _ |- _ => injection E as E _; apply Pipes_listed in E as (Hn & Hs & _) end;
      [|apply Hothers; done]. split; [done|]. apply Forall_forall. intros spec Hin. by apply valid_scope_plain, Hs.
  - run_inv. match goal with E : shared _ _ _ = _ |- _ => unfold shared, in_sync, op in E end.
    match goal with E : context [Records ?a ?b ?c ?d] |- _ => destruct (Records a b c d) as [r d'] eqn:Er end. simplify_eq.
    by eapply records_scoped.
  - match goal with E : shared _ _ _ = _ |- _ => unfold shared in E; apply parse_verified in E; [done|by apply Hothers] end.
Qed.
End store.

(** C22: the inventory of the store shows every local Pipe that the scope filter keeps, once,
    and beside them only records that passed the verification of cached records, under an
    authority key of the memberships and at a reading of the clock of this command, in the
    scope and with the identifier of the record; what it says of the network, the peer and
    the expiry, is that record's; the freshness of an item is that of its scope; and no two
    items have the same scope and identifier, so that the watcher compares all of them. A
    watcher reports a key exactly when its status, source or freshness changed or it came or
    went. Its polls follow each other: each reads the freshness of the scopes and builds the
    inventory in the world as the poll before left it, and reports the difference from what
    that one showed; and whoever replays the events of each poll has, after each, the keys
    with the statuses, sources and freshness that this poll showed. Other processes may do to
    the store what they like before each read, as long as its Pipes are as [PutPipe] stores
    them (seven-bit definitions, see [run_stored]) and its authority keys are the trusted ones. *)
Theorem inventory_tracked `{Ed25519} net clock rnd load identity others n0 trusted :
  (∀ w, store_ok n0 trusted w → store_ok n0 trusted (others w)) →
  let iv := store_inventory net clock rnd load identity others in
  (∀ scopeFilter freshness w items w', store_ok n0 trusted w →
     buildPipeViews iv scopeFilter freshness w = (Ok items, w') →
     ∃ specs, Pipes (lc_objects (m_net (others w))) = Ok specs ∧
       let visible := List.filter (λ s, negb (hidden scopeFilter (scope_of s))) specs in
       (∀ spec, spec ∈ visible → ∃ item, item ∈ items ∧ of_spec spec item) ∧
       Forall (λ item, v_Source item = "network" ∨ ∃ spec, spec ∈ visible ∧ of_spec spec item) items ∧
       Forall (sourced (store_verified clock n0 trusted)) items ∧ Forall (fresh_as freshness) items ∧
       NoDup (map pipeWatchKey items)) ∧
  (∀ previous current now k, keyed previous → keyed current →
     (∃ e, e ∈ diffPipeViews previous current now ∧ view_key (we_Scope e) (we_PipeID e) = k) ↔
     ¬ option_Forall2 same_state (previous !! k) (current !! k)) ∧
  (∀ ticks scope w evs w', store_ok n0 trusted w → watchPipes iv ticks scope w = (Ok evs, w') →
     ∃ shown, length shown = S ticks ∧ watched iv (store_ok n0 trusted) scope ∅ w evs shown w' ∧ tracks ∅ evs shown).
Proof.
  intros Hothers iv. pose proof (store_inventory_laws net clock rnd load identity others n0 trusted Hothers) as laws.
  split_and!.
  - intros scopeFilter freshness w items w' Hw Hb.
    destruct (built_shows iv (store_ok n0 trusted) (store_verified clock n0 trusted) _ _ _ _ _ Hw Hb) as (specs & w1 & Hp & Hrest).
    exists specs. split; [by injection Hp|done].
  - intros. by apply diff_exact.
  - intros ticks scope w evs w' Hw He. destruct (watch_run iv (store_ok n0 trusted) (store_verified clock n0 trusted) _ _ _ _ _ _ Hw He)
      as (shown & Hl & Hwt). exists shown. split_and!; [done|done|].
    eapply watched_tracks; [intros k v Hv; by rewrite lookup_empty in Hv|reflexivity|exact Hwt].
Qed.

(** ** A small inventory: a local Pipe and the record that a member has fetched *)
Module InventorySample.
Import SampleKeys ScopeSample MemberSample.
Definition lab_home : member local_state := Eval vm_compute in
  mkMember (m_scopes fetched.2) (m_sync fetched.2) (m_ticks fetched.2) 0
    (mkLocal (PutPipe web_pipe "web.key" "" no_objects).2 ∅).
Definition no_network : network local_state :=
  mkNetwork local_state (λ n, (Fail (errorf "offline"), n)) (λ _ n, (Fail (errorf "offline"), n)) (λ _ n, (Fail (errorf "offline"), n))
    (λ _ n, (Fail (errorf "offline"), n)) (λ _ n, (Fail (errorf "offline"), n)) (λ n, (Ok tt, n)).
Definition lab_inventory : Inventory (member local_state) :=
  store_inventory (H := keys) no_network clk dice member_keys (λ _ _, Fail (errorf "no process")) (λ w, w).
Definition lab_key (scope public : string) : Prop := scope = "home/lab" ∧ public = mb_AuthorityPublic lab_membership.
Definition lab_items : list pipeView := Eval vm_compute in
  match (buildPipeViews lab_inventory "" ∅ lab_home).1 with Ok l => l | Fail _ => [] end.
Definition lab_events : list (list pipeWatchEvent) := Eval vm_compute in
  match (watchPipes lab_inventory 1 "" lab_home).1 with Ok l => l | Fail _ => [] end.
End InventorySample.
Import SampleKeys ScopeSample MemberSample InventorySample.

Lemma lab_home_ok : store_ok (m_ticks lab_home) lab_key lab_home.
Proof.
  constructor.
  - assert (E : lc_objects (m_net lab_home) = run (H := sample_parsers) [OPutPipe web_pipe "web.key" ""] no_objects)
      by (vm_compute; reflexivity).
    rewrite E. apply run_stored.
    + apply Forall_singleton. exact web_pipe_wire.
    + split; [exact no_objects_unique|]. intros r x Hr. cbn in Hr. by rewrite lookup_empty in Hr.
  - done.
  - intros scope mb Hm. assert (E : memberships (m_scopes lab_home) = {["home/lab" := lab_membership]}) by (vm_compute; reflexivity).
    rewrite E in Hm. apply lookup_singleton_Some in Hm as [<- <-]. by split.
Qed.

Lemma inventory_tracked_witness :
  (length lab_items = 2%nat ∧ Forall (sourced (store_verified (H := keys) clk (m_ticks lab_home) lab_key)) lab_items ∧
     NoDup (map pipeWatchKey lab_items)) ∧
  (∃ w' shown, watched lab_inventory (store_ok (m_ticks lab_home) lab_key) "" ∅ lab_home lab_events shown w' ∧
     map length lab_events = [2%nat; 0%nat] ∧ tracks ∅ lab_events shown).
Proof.
  destruct (inventory_tracked (H := keys) no_network clk dice member_keys (λ _ _, Fail (errorf "no process")) (λ w, w)
    (m_ticks lab_home) lab_key (λ w Hw, Hw)) as (Hb & _ & Hw). split.
  - split; [vm_compute; reflexivity|].
    destruct (Hb "" ∅ lab_home lab_items (buildPipeViews lab_inventory "" ∅ lab_home).2 lab_home_ok) as (specs & _ & _ & _ & Hs & _ & Hk).
    + vm_compute. reflexivity.
    + exact (conj Hs Hk).
  - destruct (Hw 1%nat "" lab_home lab_events (watchPipes lab_inventory 1 "" lab_home).2 lab_home_ok) as (shown & _ & Hc & Ht).
    + vm_compute. reflexivity.
    + eexists _, shown. refine (conj Hc (conj _ Ht)). vm_compute. reflexivity.
Defined.
