(* ===== verification/PipeClient.v ===== *)
(** * Local Pipes to scoped remote Pipes

    The client side of [internal/runtime/pipe.go] for a remote Pipe that is found through
    discovery: the resolver of the remote endpoint ([localPipeRecordResolver]), the cache of
    access leases ([localLeaseCache]), the opening of one local connection with its one
    retry ([serveLocalConnectionWithOpener], [openLocalConnection]), the opening of a
    downstream hop ([openRemotePipeCarrier]) and [newDownstreamPipeOpener] of
    [internal/runtime/engine_adapter.go].

    The class [Remote] says what the network, the store and the clock answer at each instant,
    and what the other goroutines of the Pipe ([periodicallyResolve], the refresher of leases
    and other connections) did until then to what they share with a connection: the record
    and the recovery time of the resolver and the leases. What is sent and done for the
    connection is written to a log. *)
From S2P Require Import Prelude GoStrings GoTime Encoding Credentials Domain Engine StoreSync StoreObjects OpenBoundary Frames Effects.
From S2P Require Import ScopeTokens Downstream.
Open Scope Z_scope.

Definition localPipeReresolveInterval : duration := 5 * Minute.
Definition localPipeRecoveryCooldown : duration := 30 * Second.

Section client.
Context `{Ed25519}.

(** [localLeaseCache]. *)
Record lease_cache := mkLeases { lc_access : string; lc_refresh : string; lc_expires : time; lc_refreshStarted : bool }.

Class Remote := {
  r_others : nat → Records.PipeRecord * time * lease_cache → Records.PipeRecord * time * lease_cache;
  r_clock : nat → time;
  r_fetch : nat → string → res (list Records.PipeRecord);        (* FetchRecordsWithOptions *)
  r_lease_pair : nat → string → string → res (string * string);  (* RequestLeasePair *)
  r_refresh_pair : nat → string → string → res (string * string);(* RequestRefreshLease *)
  r_put_lease : nat → res unit;                                  (* PutConnectLease *)
  r_dial : nat → string → res string;                            (* DialPeer *)
  r_stream : nat → string → res unit;                            (* NewStream *)
  r_key : nat → string → res PrivateKey;                         (* Membership and ReadPrivate *)
  r_write : nat → res unit;                                      (* WriteFrame *)
  r_hello : nat → res ServerHello;
  r_result : nat → res OpenResult;
  r_session : nat → res unit;                                    (* NewSession *)
  r_carrier : nat → bool;                                        (* SetActiveCarrier *)
  r_bytes : nat → Z * Z }.

Inductive wire_event :=
  | Fetched (records : list Records.PipeRecord)
  | RequestedLease (scope pipeID : string)
  | StoredLease (pipeID scope access refresh : string) (expires : time)
  | Dialed (address : string)
  | StreamOpened
  | SentHello (hello : ClientHello)
  | GotHello (hello : ServerHello)
  | SentOpen (open : OpenPipe)
  | GotResult (result : OpenResult)
  | StreamClosed
  | SessionStarted
  | SessionRow (row : Session_)
  | RunStatus (status : string)
  | LocalClosed.

Record client := mkClient {
  c_now : nat; c_record : Records.PipeRecord; c_lastRecovery : time; c_leases : lease_cache; c_log : list wire_event }.

Context `{Remote}.
Local Abbreviation MC := (M client).

Definition emit (e : wire_event) : MC unit := λ c,
  (Ok tt, mkClient (c_now c) (c_record c) (c_lastRecovery c) (c_leases c) (c_log c ++ [e])).
(** A question to the outside at the next instant; other goroutines ran in between. *)
Definition ask {A} (f : nat → res A) : MC A := λ c,
  let n := S (c_now c) in
  let '(record, lastRecovery, leases) := r_others n (c_record c, c_lastRecovery c, c_leases c) in
  (f n, mkClient n record lastRecovery leases (c_log c)).
Definition clock_now : MC time := ask (λ n, Ok (r_clock n)).
Definition get {A} (f : client → A) : MC A := λ c, (Ok (f c), c).
Definition set_record (r : Records.PipeRecord) : MC unit := λ c,
  (Ok tt, mkClient (c_now c) r (c_lastRecovery c) (c_leases c) (c_log c)).
Definition set_lastRecovery (t : time) : MC unit := λ c,
  (Ok tt, mkClient (c_now c) (c_record c) t (c_leases c) (c_log c)).
Definition set_leases (l : lease_cache) : MC unit := λ c,
  (Ok tt, mkClient (c_now c) (c_record c) (c_lastRecovery c) l (c_log c)).

(** ** The resolver *)
Definition sameEndpoint (a b : Records.PipeRecord) : bool :=
  (Records.RuntimePeerID a =s Records.RuntimePeerID b) && bool_decide (elems (Records.Addresses a) = elems (Records.Addresses b)).

Definition scope_text (r : Records.PipeRecord) : string := ScopeString (Records.InScope r).

Definition resolve (recovery : bool) : MC bool :=
  now ← clock_now;
  last ← get c_lastRecovery;
  if recovery && (Sub (UTC now) last <? localPipeRecoveryCooldown) then mret false else
  _ ← (if recovery : bool then set_lastRecovery (UTC now) else mret tt);
  current ← get c_record;
  records ← ask (λ n, r_fetch n (scope_text current));
  _ ← emit (Fetched records);
  candidate ← wired (List.find (λ r, Records.PipeID r =s Records.PipeID current) records)
                (errorf "pipe_unreachable: record absent from authoritative snapshot");
  _ ← guard (negb (same_scope (Records.InScope candidate) (Records.InScope current))
             || (Records.Sequence candidate <? Records.Sequence current))
        (errorf "invalid discovered record: replayed remote pipe record");
  if Records.Sequence candidate =? Records.Sequence current then
    _ ← guard (negb (sameEndpoint candidate current)) (errorf "invalid discovered record: conflicting remote pipe record sequence");
    mret false
  else
    held ← get c_record;
    if Records.Sequence held <? Records.Sequence candidate then _ ← set_record candidate; mret true else mret false.

(** ** Leases *)
Definition current_lease : MC (string * string * bool) :=
  now ← clock_now;
  l ← get c_leases;
  mret (lc_access l, lc_refresh l,
        (lc_access l <>s "") && (lc_refresh l <>s "") && (Minute <? Sub (lc_expires l) now)).

Definition set_lease (access refresh : string) : MC unit :=
  lease ← lift (Tokens.Decode access);
  l ← get c_leases;
  set_leases (mkLeases access refresh (Tokens.ExpiresAt lease) (lc_refreshStarted l)).

Definition put_lease (pipeID scope access refresh : string) : MC unit :=
  l ← get c_leases;
  _ ← emit (StoredLease pipeID scope access refresh (lc_expires l));
  ask r_put_lease.

(** [startRefresh] marks the one refresher; its ticks are [refresh_tick]. *)
Definition startRefresh : MC unit :=
  l ← get c_leases; set_leases (mkLeases (lc_access l) (lc_refresh l) (lc_expires l) true).

Definition refresh_tick (scope pipeID : string) : MC unit :=
  '(access, refresh, ok) ← current_lease;
  if negb ok then mret tt else
  fresh ← attempt ('(newAccess, newRefresh) ← ask (λ n, r_refresh_pair n access refresh);
                   _ ← set_lease newAccess newRefresh; mret (newAccess, newRefresh));
  match fresh with
  | Ok (newAccess, newRefresh) => _ ← attempt (put_lease pipeID scope newAccess newRefresh); mret tt
  | Fail _ => mret tt
  end.

(** A cached lease, or a requested one that is stored. *)
Definition acquire_lease (record : Records.PipeRecord) : MC string :=
  '(lease, refresh, cached) ← current_lease;
  if cached : bool then mret lease else
  _ ← emit (RequestedLease (scope_text record) (Records.PipeID record));
  '(lease, refresh) ← ask (λ n, r_lease_pair n (scope_text record) (Records.PipeID record));
  _ ← set_lease lease refresh;
  _ ← put_lease (Records.PipeID record) (scope_text record) lease refresh;
  mret lease.

(** ** Opening

    [openLocalConnection] and [openRemotePipeCarrier] make the same steps and differ in how
    they report a failure: [at_ reason transient] is the report of a step. *)
Section opening.
Context (at_ : string → bool → error → error).

Definition step {A} (reason : string) (transient : bool) (m : MC A) : MC A := wrapped (at_ reason transient) m.

Definition close_stream : MC unit := emit StreamClosed.

Definition tunnel_handshake (record : Records.PipeRecord) (lease : string) (traversal : TraversalState) : MC string :=
  let handshake_ := "tunnel_handshake_failed" in
  private ← step "local_authorization_state" false (ask (λ n, r_key n (scope_text record)));
  let hello := mkClientHello "2.0" (Tokens.PublicString (Public private)) baseSessionCapabilities in
  _ ← emit (SentHello hello);
  _ ← step handshake_ true (ask r_write);
  server ← step handshake_ true (ask r_hello);
  _ ← emit (GotHello server);
  _ ← step handshake_ false (guard ((sh_PipeID server <>s Records.PipeID record) || (sh_Version server <>s "2.0"))
        (errorf "tunnel_handshake_failed: pipe or version mismatch"));
  let proof := Tokens.SignProof private "tubo-open-v2" [sh_Challenge server; Records.PipeID record] in
  _ ← emit (SentOpen (downstream_open (Records.PipeID record) proof lease traversal));
  _ ← step handshake_ true (ask r_write);
  result ← step handshake_ true (ask r_result);
  _ ← emit (GotResult result);
  _ ← step handshake_ false (guard (negb (or_OK result)) (errorf (or_ErrorCode result +:+ ": " +:+ or_Message result)));
  mret (or_SessionID result).

(** Up to the accepted open; after a failure on the stream the stream is closed. *)
Definition open_tunnel (record : Records.PipeRecord) (traversal : TraversalState) : MC string :=
  lease ← step "authority_unreachable" false (acquire_lease record);
  _ ← startRefresh;
  address ← step "pipe_unreachable" false (wired (head (elems (Records.Addresses record)))
              (errorf "pipe_unreachable: no record addresses"));
  _ ← emit (Dialed address);
  peer ← step "pipe_unreachable" true (ask (λ n, r_dial n address));
  _ ← step "pipe_unreachable" true (ask (λ n, r_stream n peer));
  _ ← emit StreamOpened;
  or_close close_stream (tunnel_handshake record lease traversal).
End opening.

(** [transient]: the cause stays visible. *)
Definition transient (e : error) : error := mkErr (ErrTransientSetup :: err_is e) (err_text e).
Definition isTransientSetupError (e : error) : bool := errors_Is e ErrTransientSetup.

Definition openRemotePipeCarrier (record : Records.PipeRecord) (traversal : TraversalState) : MC string :=
  open_tunnel (λ _ t e, if t : bool then transient e else e) record traversal.

(** [localConnectionResult]. *)
Record localConnectionResult := mkResult { lr_opened : bool; lr_transient : bool; lr_reason : string }.

Definition result_error (reason : string) (t : bool) (_ : error) : error := mkErr (if t then [ErrTransientSetup] else []) reason.

(** The session of an accepted open. *)
Definition run_session (spec : PipeSpec) (sessionID : string) : MC localConnectionResult :=
  let failed := mkResult false false "tunnel_handshake_failed" in
  _ ← emit (RunStatus "ready");
  now ← clock_now;
  let row := mkSession sessionID (RefString (p_Ref spec)) "relayed" "relayed" (UTC now) in
  _ ← emit (SessionRow (row 0 0));
  session ← attempt (ask r_session);
  match session with
  | Fail _ => _ ← close_stream; mret failed
  | Ok _ =>
      active ← ask (λ n, Ok (r_carrier n));
      if negb active then _ ← close_stream; mret failed else
      _ ← emit SessionStarted;
      bytes ← ask (λ n, Ok (r_bytes n));
      _ ← emit (SessionRow (row bytes.1 bytes.2));
      mret (mkResult true false "tunnel_handshake_failed")
  end.

Definition openLocalConnection (spec : PipeSpec) (record : Records.PipeRecord) : MC localConnectionResult :=
  opened ← attempt (open_tunnel result_error record (mkTraversal [p_PipeID spec] 0 DefaultMaxPipeHops));
  match opened with
  | Fail e => mret (mkResult false (isTransientSetupError e) (err_text e))
  | Ok sessionID => run_session spec sessionID
  end.

(** ** One local connection *)

(** [resolver.current()]. *)
Definition current : MC Records.PipeRecord := _ ← ask (λ _, Ok tt); get c_record.

(** The attempts: the records that were opened and whether one succeeded. *)
Fixpoint attempts (more : nat) (open : Records.PipeRecord → MC localConnectionResult) : MC (list Records.PipeRecord * bool) :=
  match more with
  | O => mret ([], false)
  | S more =>
      record ← current;
      result ← open record;
      if lr_opened result then mret ([record], true)
      else if negb (lr_transient result) || bool_decide (more = O) then mret ([record], false)
      else
        changed ← attempt (resolve true);
        match changed with
        | Ok true => '(records, opened) ← attempts more open; mret (record :: records, opened)
        | _ => mret ([record], false)
        end
  end.

Definition serveLocalConnectionWithOpener (open : Records.PipeRecord → MC localConnectionResult) : MC (list Records.PipeRecord * bool) :=
  '(records, opened) ← attempts 2 open;
  _ ← (if opened : bool then mret tt else emit (RunStatus "degraded"));
  _ ← emit LocalClosed;
  mret (records, opened).

Definition serveLocalConnection (spec : PipeSpec) : MC (list Records.PipeRecord * bool) :=
  serveLocalConnectionWithOpener (openLocalConnection spec).

(** [newDownstreamPipeOpener]: [lookup] is [state.Record] and [parse] is [ParseVerifiedRecord]. *)
Definition newDownstreamPipeOpener (lookup : string → res Record_) (parse : Record_ → res Records.PipeRecord)
    (nextSpec : PipeSpec) (traversal : TraversalState) : MC string :=
  stored ← lift (lookup (Name (p_Ref nextSpec)));
  record ← lift (parse stored);
  openRemotePipeCarrier record traversal.
End client.
