(* ===== verification/PipeClientProps.v ===== *)
(** * What a local Pipe does to reach a scoped remote Pipe *)
From S2P Require Import Prelude GoStrings GoTime Encoding Credentials CredentialFacts CredentialVerify Domain Engine StoreSync StoreObjects OpenBoundary Frames Effects.
From S2P Require Import ScopeTokens Downstream PipeClient.
Open Scope Z_scope.

Section client.
Context `{Ed25519} `{!Remote}.
Local Abbreviation MC := (M client).

(** ** The resolver *)

(** A record of the same Pipe with a higher sequence. *)
Definition newer (old new : Records.PipeRecord) : Prop :=
  Records.PipeID new = Records.PipeID old ∧ Records.InScope new = Records.InScope old ∧ Records.Sequence old < Records.Sequence new.
Definition at_least (old new : Records.PipeRecord) : Prop := new = old ∨ newer old new.

#[global] Instance at_least_preorder : PreOrder at_least.
Proof.
  split; [by left|]. intros a b c [->|(? & ? & ?)] [->|(? & ? & ?)]; [by left|by right|by right|].
  right. split_and!; [congruence|congruence|lia].
Qed.
Lemma at_least_newer a b c : at_least a b → newer b c → newer a c.
Proof. intros [->|(? & ? & ?)] (? & ? & ?); [done|]. split_and!; [congruence|congruence|lia]. Qed.

(** Other goroutines replace the record of the resolver only by a newer one, as [resolve]
    does; [quiet]: they leave it alone. *)
Definition others_newer : Prop := ∀ n s, at_least s.1.1 (r_others n s).1.1.
Definition quiet : Prop := ∀ n s, (r_others n s).1.1 = s.1.1.
Context (Hothers : others_newer).

(** What [old] has become when only other goroutines may have replaced it. *)
Definition becomes (old new : Records.PipeRecord) : Prop := at_least old new ∧ (quiet → new = old).
#[global] Instance becomes_preorder : PreOrder becomes.
Proof.
  split; [intros a; by split|]. intros a b c [H1 Q1] [H2 Q2]. split; [by etrans|]. intros Hq. rewrite Q2, Q1; done.
Qed.

Lemma others_become n s : becomes s.1.1 (r_others n s).1.1.
Proof. split; [apply Hothers|]. intros Hq. apply Hq. Qed.

(** A question leaves the log and lets the record become a newer one. *)
Lemma ask_run {A} (f : nat → res A) c :
  (ask f c).1 = f (S (c_now c)) ∧ c_now (ask f c).2 = S (c_now c) ∧ c_log (ask f c).2 = c_log c ∧
  becomes (c_record c) (c_record (ask f c).2) ∧
  c_lastRecovery (ask f c).2 = (r_others (S (c_now c)) (c_record c, c_lastRecovery c, c_leases c)).1.2.
Proof.
  unfold ask. pose proof (others_become (S (c_now c)) (c_record c, c_lastRecovery c, c_leases c)) as Hb.
  destruct (r_others _ _) as [[r t] l]. cbn in *. done.
Qed.

Definition is_fetched (e : wire_event) : Prop := ∃ records, e = Fetched records.

(** The result of a resolution: [true] only when the record was replaced by a fetched one of
    the same Pipe and scope with a higher sequence; within the cooldown a recovery asks
    nothing. *)
Definition resolved (recovery : bool) (c : client) (r : res bool) (c' : client) : Prop :=
  at_least (c_record c) (c_record c') ∧
  (r ≠ Ok true → becomes (c_record c) (c_record c')) ∧
  (r = Ok true → newer (c_record c) (c_record c') ∧
     ∃ records, c_log c' = c_log c ++ [Fetched records] ∧ c_record c' ∈ records) ∧
  (recovery = true →
   Sub (UTC (r_clock (S (c_now c)))) (r_others (S (c_now c)) (c_record c, c_lastRecovery c, c_leases c)).1.2
     < localPipeRecoveryCooldown → r = Ok false ∧ c_log c' = c_log c) ∧
  (∃ l, c_log c' = c_log c ++ l ∧ Forall is_fetched l).

Lemma resolved_kept recovery c r c' l :
  becomes (c_record c) (c_record c') → r ≠ Ok true → c_log c' = c_log c ++ l → Forall is_fetched l →
  (recovery = true →
   Sub (UTC (r_clock (S (c_now c)))) (r_others (S (c_now c)) (c_record c, c_lastRecovery c, c_leases c)).1.2
     < localPipeRecoveryCooldown → r = Ok false ∧ c_log c' = c_log c) →
  resolved recovery c r c'.
Proof. intros Hb Hr Hl Hf Hc. split_and!; [apply Hb|done|done|done|by exists l]. Qed.

Lemma bind_inv {A B} (m : MC A) (k : A → MC B) c r c' : (m ≫= k) c = (r, c') →
  (∃ e, m c = (Fail e, c') ∧ r = Fail e) ∨ (∃ x c1, m c = (Ok x, c1) ∧ k x c1 = (r, c')).
Proof. unfold mbind, M_bind. destruct (m c) as [[x|e] c1]; [right; eauto|intros [= <- <-]; left; eauto]. Qed.

Lemma ask_inv {A} (f : nat → res A) c r c' : ask f c = (r, c') →
  r = f (S (c_now c)) ∧ c_log c' = c_log c ∧ becomes (c_record c) (c_record c') ∧
  c_lastRecovery c' = (r_others (S (c_now c)) (c_record c, c_lastRecovery c, c_leases c)).1.2.
Proof. intros E. destruct (ask_run f c) as (H1 & _ & H2 & H3 & H4). rewrite E in *. done. Qed.

(** After the fetch. *)
Lemma candidate_sound current records c r c' :
  (candidate ← wired (List.find (λ r, Records.PipeID r =s Records.PipeID current) records)
                 (errorf "pipe_unreachable: record absent from authoritative snapshot");
   _ ← guard (negb (same_scope (Records.InScope candidate) (Records.InScope current))
              || (Records.Sequence candidate <? Records.Sequence current))
         (errorf "invalid discovered record: replayed remote pipe record");
   if Records.Sequence candidate =? Records.Sequence current then
     _ ← guard (negb (sameEndpoint candidate current)) (errorf "invalid discovered record: conflicting remote pipe record sequence");
     mret false
   else
     held ← get c_record;
     if Records.Sequence held <? Records.Sequence candidate then _ ← set_record candidate; mret true else mret false) c = (r, c') →
  c_log c' = c_log c ∧
  ((r ≠ Ok true ∧ c_record c' = c_record c) ∨ (r = Ok true ∧ newer current (c_record c') ∧ c_record c' ∈ records)).
Proof.
  intros Hk. apply bind_inv in Hk as [(e & [= _ <-] & ->)|(candidate & c1 & [Hf <-]%wired_run & Hk)]; [split; [done|by left]|].
  apply List.find_some in Hf as [Hin Hid%seqb_true].
  apply bind_inv in Hk as [(e & [= _ <-] & ->)|([] & c1 & [Hg <-]%guard_run & Hk)]; [split; [done|by left]|].
  apply orb_false_elim in Hg as [Es%negb_false_iff%bool_decide_eq_true Eq%Z.ltb_ge].
  destruct (Z.eqb_spec (Records.Sequence candidate) (Records.Sequence current)) as [E|E].
  { apply bind_inv in Hk as [(e & [= _ <-] & ->)|([] & c1 & [_ <-]%guard_run & [= <- <-])]; (split; [done|by left]). }
  apply bind_inv in Hk as [(e & Hk & _)|(held & c1 & [= <- <-] & Hk)]; [done|].
  destruct (Records.Sequence (c_record c) <? Records.Sequence candidate); [|injection Hk as <- <-; split; [done|by left]].
  apply bind_inv in Hk as [(e & Hk & _)|([] & c1 & [= <-] & [= <- <-])]; [done|]. cbn. split; [done|]. right.
  split; [done|]. split; [split_and!; [done|done|lia]|by apply list_elem_of_In].
Qed.

Lemma resolve_run recovery c r c' : resolve recovery c = (r, c') → resolved recovery c r c'.
Proof.
  unfold resolve, clock_now. intros Hk.
  apply bind_inv in Hk as [(e & Hk & ->)|(now & c1 & Ha & Hk)]; [by apply ask_inv in Hk as [? _]|].
  apply ask_inv in Ha as ([= ->] & L1 & B1 & T1).
  apply bind_inv in Hk as [(e & Hk & _)|(last & c0 & [= <- <-] & Hk)]; [done|].
  destruct (recovery && _) eqn:Ec.
  { injection Hk as <- <-. eapply (resolved_kept _ _ _ _ []); [done|done|by rewrite L1, app_nil_r|constructor|by intros]. }
  assert (Hcool : ∀ P : Prop, recovery = true → Sub (UTC (r_clock (S (c_now c))))
    (r_others (S (c_now c)) (c_record c, c_lastRecovery c, c_leases c)).1.2 < localPipeRecoveryCooldown → P).
  { rewrite <- T1. intros P -> Ht%Z.ltb_lt. by rewrite Ht in Ec. }
  apply bind_inv in Hk as [(e & Hk & _)|([] & c2 & Hset & Hk)]; [by destruct recovery|].
  assert (R2 : c_record c2 = c_record c1 ∧ c_log c2 = c_log c1) by (destruct recovery; by injection Hset as <-).
  destruct R2 as [R2 L2]. clear Hset Ec.
  apply bind_inv in Hk as [(e & Hk & _)|(current & c0 & [= <- <-] & Hk)]; [done|].
  apply bind_inv in Hk as [(e & Hk & ->)|(records & c3 & Ha & Hk)].
  { apply ask_inv in Hk as (_ & L3 & B3 & _). rewrite R2 in B3.
    eapply (resolved_kept _ _ _ _ []); [by etrans|done|by rewrite L3, L2, L1, app_nil_r|constructor|apply Hcool]. }
  apply ask_inv in Ha as (_ & L3 & B3 & _). rewrite R2 in B3.
  apply bind_inv in Hk as [(e & Hk & _)|([] & c4 & [= <-] & Hk)]; [done|].
  apply candidate_sound in Hk as [L5 Hk]. cbn [c_log c_record] in L5, Hk. rewrite L3, L2, L1 in L5.
  assert (Hf : Forall is_fetched [Fetched records]) by (repeat constructor; by eexists).
  destruct Hk as [[Hr R5]|(-> & Hnew & Hin)].
  - eapply (resolved_kept _ _ _ _ [Fetched records]); [rewrite R5; by etrans|done|done|done|apply Hcool].
  - rewrite R2 in Hnew. assert (Hn : newer (c_record c) (c_record c')) by (by apply (at_least_newer _ (c_record c1)); [apply B1|]).
    split_and!; [by right|done| |apply Hcool|by exists [Fetched records]]. intros _. split; [done|]. by exists records.
Qed.

Lemma resolver_sound recovery c : resolved recovery c (resolve recovery c).1 (resolve recovery c).2.
Proof. apply resolve_run, surjective_pairing. Qed.

(** ** Opening *)
Definition is_open (e : wire_event) : bool := match e with SentOpen _ => true | _ => false end.
Definition is_result (e : wire_event) : bool := match e with GotResult _ => true | _ => false end.
(** Of the connection as a whole, not of one tunnel. *)
Definition is_run (e : wire_event) : bool :=
  match e with SessionStarted | SessionRow _ | RunStatus _ | LocalClosed | Fetched _ => true | _ => false end.

(** Every open frame was sent to one of [records], right after its greeting and with a proof
    over its challenge. *)
Definition proper_open (records : list Records.PipeRecord) (traversal : TraversalState) (l : list wire_event) : Prop :=
  ∀ o, SentOpen o ∈ l → ∃ record lease server private l1 l2, record ∈ records ∧ l = l1 ++ GotHello server :: SentOpen o :: l2 ∧
    sh_PipeID server = Records.PipeID record ∧ sh_Version server = "2.0" ∧
    o = downstream_open (Records.PipeID record)
          (Tokens.SignProof private "tubo-open-v2" [sh_Challenge server; Records.PipeID record]) lease traversal.

Lemma proper_app rs1 rs2 traversal l1 l2 :
  proper_open rs1 traversal l1 → proper_open rs2 traversal l2 → proper_open (rs1 ++ rs2) traversal (l1 ++ l2).
Proof.
  intros Hp1 Hp2 o [Ho|Ho]%elem_of_app.
  - destruct (Hp1 o Ho) as (record & lease & server & private & a & b & Hin & -> & Hr). exists record, lease, server, private, a, (b ++ l2).
    split; [apply elem_of_app; by left|]. split; [by rewrite <- app_assoc|done].
  - destruct (Hp2 o Ho) as (record & lease & server & private & a & b & Hin & -> & Hr). exists record, lease, server, private, (l1 ++ a), b.
    split; [apply elem_of_app; by right|]. split; [by rewrite <- app_assoc|done].
Qed.

(** ** Streams

    Events of streams in order: one is opened only while none is open and closed only while
    one is; the result says whether the last one is still open. *)
Fixpoint streams (open : bool) (l : list wire_event) : option bool :=
  match l with
  | [] => Some open
  | StreamOpened :: l => if open then None else streams true l
  | StreamClosed :: l => if open then streams false l else None
  | _ :: l => streams open l
  end.
Definition is_stream (e : wire_event) : bool := match e with StreamOpened | StreamClosed => true | _ => false end.

Lemma streams_app open l l' : streams open (l ++ l') = streams open l ≫= λ o, streams o l'.
Proof.
  revert open. induction l as [|e l IH]; intros open; [done|]. cbn [app streams]. destruct e; try apply IH; destruct open; try apply IH; done.
Qed.
Lemma streams_none open l : existsb is_stream l = false → streams open l = Some open.
Proof. induction l as [|e l IH]; [done|]. cbn. intros [He Hl%IH]%orb_false_elim. by destruct e. Qed.

Definition handshake_trace (at_ : string → bool → error → error) (record : Records.PipeRecord)
    (traversal : TraversalState) (r : res string) (l : list wire_event) : Prop :=
  proper_open [record] traversal l ∧ existsb is_run l = false ∧ existsb is_stream l = false ∧
  match r with
  | Ok sid => ∃ l1 result, l = l1 ++ [GotResult result] ∧ or_OK result = true ∧ or_SessionID result = sid
  | Fail e => existsb is_result l = false ∨ ∃ reason cause, e = at_ reason false cause
  end.

Lemma no_open records traversal l : existsb is_open l = false → proper_open records traversal l.
Proof.
  intros Hl o Ho. assert (existsb is_open l = true); [|congruence]. apply existsb_exists. exists (SentOpen o). split; [by apply list_elem_of_In|done].
Qed.

(** The client has only logged [l] since [c]; others may have replaced the record. *)
Definition logged (c : client) (l : list wire_event) (c' : client) : Prop :=
  c_log c' = c_log c ++ l ∧ becomes (c_record c) (c_record c').

Lemma logged_nil c : logged c [] c.
Proof. split; [symmetry; apply app_nil_r|done]. Qed.

Lemma logged_ask {A} (f : nat → res A) c l c1 r c' : logged c l c1 → ask f c1 = (r, c') → logged c l c'.
Proof.
  intros [Hl Hs] Ha. pose proof (ask_run f c1) as (_ & _ & L & B & _). rewrite Ha in L, B. cbn [snd] in L, B.
  split; [congruence|by etrans].
Qed.

Lemma ask_total {A} (f : nat → A) c e c' : ask (λ n, Ok (f n)) c ≠ (Fail e, c').
Proof. intros E. pose proof (ask_run (λ n, Ok (f n)) c) as (Ha & _). rewrite E in Ha. done. Qed.

Lemma logged_emit e c l c1 r c' : logged c l c1 → emit e c1 = (r, c') → logged c (l ++ [e]) c' ∧ r = Ok tt.
Proof. intros [Hl Hs] [= <- <-]. split; [|done]. split; [cbn; by rewrite Hl, app_assoc|done]. Qed.

Lemma wrapped_inv {A} f (m : MC A) c r c' : wrapped f m c = (r, c') →
  ∃ r1, m c = (r1, c') ∧ match r1 with Ok x => r = Ok x | Fail e => r = Fail (f e) end.
Proof. unfold wrapped. destruct (m c) as [[x|e] c1]; intros [= <- <-]; (eexists; split; [reflexivity|done]). Qed.

Lemma asked_inv {A} at_ reason t (f : nat → res A) c l c1 r c' : logged c l c1 → step at_ reason t (ask f) c1 = (r, c') →
  logged c l c' ∧ ∀ e, r = Fail e → ∃ cause, e = at_ reason t cause.
Proof.
  intros Hl (r1 & Ha & Hr)%wrapped_inv. split; [by eapply logged_ask|]. intros e ->. destruct r1; [done|]. injection Hr as ->. eauto.
Qed.

Lemma guarded_inv at_ reason t b e0 c r c' : step at_ reason t (guard b e0) c = (r, c') →
  c' = c ∧ ((b = false ∧ r = Ok tt) ∨ (b = true ∧ r = Fail (at_ reason t e0))).
Proof. intros (r1 & Ha & Hr)%wrapped_inv. unfold guard, lift, refuse in Ha. destruct b; injection Ha as <- <-; subst r; eauto. Qed.

(** One step of a run that is only asked and logged: [H] becomes the rest of the run and [L]
    the log so far; the step that fails is its own goal. *)
Ltac moved L L' := clear L; rename L' into L.
Ltac hear H x L :=
  let Hm := fresh in let L' := fresh in let c1 := fresh "c" in
  apply bind_inv in H as [(? & H & ->)|(x & c1 & Hm & H)];
  [destruct (asked_inv _ _ _ _ _ _ _ _ _ L H) as [L' _]; moved L L'|destruct (asked_inv _ _ _ _ _ _ _ _ _ L Hm) as [L' _]; moved L L'; clear Hm].
Ltac say H L :=
  let Hm := fresh in let L' := fresh in let c1 := fresh "c" in let Hx := fresh in
  apply bind_inv in H as [(? & H & ->)|([] & c1 & Hm & H)];
  [destruct (logged_emit _ _ _ _ _ _ L H) as [_ ?]; discriminate|destruct (logged_emit _ _ _ _ _ _ L Hm) as [L' Hx]; moved L L'; clear Hm Hx].
Ltac learn H x L :=
  let Hm := fresh in let L' := fresh in let c1 := fresh "c" in
  apply bind_inv in H as [(? & H & ->)|(x & c1 & Hm & H)]; [by apply ask_total in H|];
  pose proof (logged_ask _ _ _ _ _ _ L Hm) as L'; moved L L'; clear Hm.
Ltac check H Hb :=
  let Hm := fresh in let c1 := fresh "c" in let Hg := fresh in
  apply bind_inv in H as [(? & Hm & ->)|([] & c1 & Hm & H)]; apply guarded_inv in Hm as [-> [[Hb Hg]|[Hb Hg]]];
  try discriminate Hg; [injection Hg as ->|clear Hg].

(** The open frame right after the greeting, and no other. *)
Lemma one_open record lease traversal l1 l2 server private :
  sh_PipeID server = Records.PipeID record → sh_Version server = "2.0" → existsb is_open l1 = false → existsb is_open l2 = false →
  proper_open [record] traversal (l1 ++ GotHello server :: SentOpen (downstream_open (Records.PipeID record)
    (Tokens.SignProof private "tubo-open-v2" [sh_Challenge server; Records.PipeID record]) lease traversal) :: l2).
Proof.
  intros Hp Hv Hbefore Hafter o Ho.
  assert (Hno : ∀ l, existsb is_open l = false → SentOpen o ∉ l).
  { intros l Hl Hin. destruct (no_open [record] traversal l Hl o Hin) as (? & ? & ? & ? & ? & ? & _ & -> & _).
    rewrite existsb_app in Hl. cbn in Hl. by rewrite orb_true_r in Hl. }
  apply elem_of_app in Ho as [Ho|[Ho|[Ho|Ho]%elem_of_cons]%elem_of_cons]; [by apply Hno in Ho|done| |by apply Hno in Ho].
  injection Ho as ->. exists record, lease, server, private, l1, l2. split; [set_solver|done].
Qed.

Lemma handshake_sound at_ record lease traversal c r c' :
  tunnel_handshake at_ record lease traversal c = (r, c') →
  ∃ l, logged c l c' ∧ handshake_trace at_ record traversal r l.
Proof.
  unfold tunnel_handshake. cbv zeta. intros Hk. pose proof (logged_nil c) as L. cbn [app] in *.
  assert (Hstop : ∀ e l, existsb is_open l = false → existsb is_run l = false → existsb is_stream l = false →
    existsb is_result l = false → handshake_trace at_ record traversal (Fail e) l).
  { intros. split_and!; [by apply no_open|done|done|by left]. }
  hear Hk private L; [eauto|]. say Hk L. hear Hk u L; [eauto|]. hear Hk server L; [eauto|]. say Hk L. check Hk Hb; [eauto|].
  apply orb_false_elim in Hb as [Hpipe%negb_false_iff%seqb_true Hversion%negb_false_iff%seqb_true].
  pose proof (λ l2, one_open record lease traversal
    [SentHello (mkClientHello "2.0" (Tokens.PublicString (Public private)) baseSessionCapabilities)] l2 server private
    Hpipe Hversion eq_refl) as Hopen.
  say Hk L. hear Hk u' L; [|hear Hk answer L; [|say Hk L; check Hk Hb]].
  1-2: eexists; (split; [exact L|]); (split_and!; [by apply Hopen|done|done|by left]).
  - eexists; (split; [exact L|]). split_and!; [by apply (Hopen [GotResult answer])|done|done|right; by eexists _, _].
  - injection Hk as <- <-. eexists; (split; [exact L|]). split_and!; [by apply (Hopen [GotResult answer])|done|done|].
    eexists _, answer. split; [reflexivity|]. split; [by apply negb_false_iff|done].
Qed.

(** Only events of [P] were logged. *)
Definition did (P : wire_event → bool) (c c' : client) : Prop :=
  becomes (c_record c) (c_record c') ∧ ∃ l, c_log c' = c_log c ++ l ∧ forallb P l = true.

#[global] Instance did_preorder P : PreOrder (did P).
Proof.
  split.
  - intros c. split; [done|]. exists []. split; [symmetry; apply app_nil_r|done].
  - intros c1 c2 c3 (R1 & l1 & L1 & F1) (R2 & l2 & L2 & F2). split; [by etrans|].
    exists (l1 ++ l2). rewrite L2, L1, app_assoc, forallb_app, F1, F2. done.
Qed.

Definition is_lease (e : wire_event) : bool := match e with RequestedLease _ _ | StoredLease _ _ _ _ _ => true | _ => false end.

Lemma ask_did {A} P (f : nat → res A) : within (did P) (ask f).
Proof.
  intros c. destruct (ask_run f c) as (_ & _ & L & B & _). split; [done|]. exists []. split; [by rewrite L, app_nil_r|done].
Qed.
Lemma get_did {A} P (f : client → A) : within (did P) (get f).
Proof. intros c. cbn. reflexivity. Qed.
Lemma emit_did (P : wire_event → bool) e : P e = true → within (did P) (emit e).
Proof. intros He c. split; [done|]. exists [e]. split; [done|]. cbn. by rewrite He. Qed.
Lemma set_leases_did P l : within (did P) (set_leases l).
Proof. intros c. split; [done|]. exists []. split; [symmetry; apply app_nil_r|done]. Qed.

#[local] Hint Resolve did_preorder ask_did get_did set_leases_did : effects.
#[local] Hint Extern 2 (within _ (emit _)) => (apply emit_did; reflexivity) : effects.

Lemma set_lease_did P access refresh : within (did P) (set_lease access refresh).
Proof. unfold set_lease. solve_within. Qed.
#[local] Hint Resolve set_lease_did : effects.

Lemma acquire_did record : within (did is_lease) (acquire_lease record).
Proof. unfold acquire_lease, put_lease, current_lease, clock_now. solve_within. Qed.

(** What the opening of a tunnel leaves in the log, for its result. *)
Definition tunnel_trace (at_ : string → bool → error → error) (record : Records.PipeRecord)
    (traversal : TraversalState) (r : res string) (l : list wire_event) : Prop :=
  proper_open [record] traversal l ∧ existsb is_run l = false ∧ streams false l = Some (is_ok r) ∧
  match r with
  | Ok sid => ∃ l1 result, l = l1 ++ [GotResult result] ∧ or_OK result = true ∧ or_SessionID result = sid
  | Fail e => existsb is_result l = false ∨ ∃ reason cause, e = at_ reason false cause
  end.

Definition before_stream (l : list wire_event) : Prop :=
  existsb is_open l = false ∧ existsb is_result l = false ∧ existsb is_run l = false ∧ existsb is_stream l = false.

Lemma before_app l l' : before_stream l → before_stream l' → before_stream (l ++ l').
Proof.
  intros (Ho & Hr & Hu & Hs) (Ho' & Hr' & Hu' & Hs'). unfold before_stream.
  rewrite !existsb_app, Ho, Ho', Hr, Hr', Hu, Hu', Hs, Hs'. done.
Qed.

Lemma before_one e : is_open e = false → is_result e = false → is_run e = false → is_stream e = false → before_stream [e].
Proof. unfold before_stream. cbn. by intros -> -> -> ->. Qed.

Lemma lease_events l : forallb is_lease l = true → before_stream l.
Proof.
  induction l as [|e l IH]; cbn; [done|].
  intros [He Hl%IH]%andb_prop. apply (before_app [e]); [|done]. by destruct e; try discriminate He; apply before_one.
Qed.

Lemma logged_trans c l c1 l' c' : logged c l c1 → logged c1 l' c' → logged c (l ++ l') c'.
Proof. intros (L1 & R1) (L2 & R2). split; [by rewrite L2, L1, app_assoc|]. by etrans. Qed.

Lemma acquired_inv at_ reason t record c r c1 : step at_ reason t (acquire_lease record) c = (r, c1) →
  ∃ l, logged c l c1 ∧ forallb is_lease l = true.
Proof.
  intros (r1 & Hm & _)%wrapped_inv. destruct (acquire_did record c) as (R & l & L & F). rewrite Hm in *. exists l. done.
Qed.

Lemma refresh_inv c l c1 r c' : logged c l c1 → startRefresh c1 = (r, c') → logged c l c' ∧ r = Ok tt.
Proof. intros (L & R) [= <- <-]. done. Qed.

Lemma tunnel_sound at_ record traversal c r c' : open_tunnel at_ record traversal c = (r, c') →
  ∃ l, logged c l c' ∧ tunnel_trace at_ record traversal r l.
Proof.
  unfold open_tunnel. intros Hk.
  assert (Hstop : ∀ e l, before_stream l → tunnel_trace at_ record traversal (Fail e) l).
  { intros e l (Ho & Hr & Hu & Hs). split_and!; [by apply no_open|done|by apply streams_none|by left]. }
  apply bind_inv in Hk as [(e & Hk & ->)|(lease & c1 & Hm & Hk)].
  { apply acquired_inv in Hk as (l & L & F%lease_events). eauto. }
  apply acquired_inv in Hm as (l & L & F%lease_events).
  apply bind_inv in Hk as [(e & Hk & ->)|([] & c2 & Hm & Hk)]; [by destruct (refresh_inv _ _ _ _ _ L Hk)|].
  destruct (refresh_inv _ _ _ _ _ L Hm) as [L2 _]. moved L L2.
  apply bind_inv in Hk as [(e & Hk & ->)|(address & c3 & Hm' & Hk)].
  { apply wrapped_inv in Hk as (r1 & Hm' & _). injection Hm' as _ <-. eauto. }
  apply wrapped_inv in Hm' as (r1 & Hm' & _). injection Hm' as _ <-.
  assert (F' : before_stream (l ++ [Dialed address])) by (apply before_app; [done|by apply before_one]).
  say Hk L. hear Hk peer L; [eauto|]. hear Hk u L; [eauto|]. say Hk L. unfold or_close in Hk.
  destruct (tunnel_handshake _ _ _ _ _) as [rh ch] eqn:Eh. apply handshake_sound in Eh as (lh & Lh & Hopen & Hrun & Hst & Hend).
  pose proof (logged_trans _ _ _ _ _ L Lh) as L'. destruct F' as (Ho & Hr & Hu & Hns).
  assert (Hup : streams false (((l ++ [Dialed address]) ++ [StreamOpened]) ++ lh) = Some true).
  { rewrite !streams_app, <- streams_app, (streams_none false _ Hns). cbn. by apply streams_none. }
  assert (Hpre : proper_open [] traversal ((l ++ [Dialed address]) ++ [StreamOpened])).
  { apply no_open. by rewrite existsb_app, Ho. }
  destruct rh as [sid|e]; injection Hk as <- <-.
  - eexists. split; [exact L'|]. split; [exact (proper_app [] [record] _ _ _ Hpre Hopen)|]. split; [by rewrite existsb_app, (existsb_app _ (_ ++ _) [_]), Hu, Hrun|].
    split; [exact Hup|]. destruct Hend as (l1 & answer & -> & Hok & Hsid). exists (((l ++ [Dialed address]) ++ [StreamOpened]) ++ l1), answer. by rewrite app_assoc.
  - eexists. split; [exact (proj1 (logged_emit StreamClosed _ _ _ _ _ L' eq_refl))|]. split; [|split; [|split]].
    + rewrite <- (app_nil_r [record]). apply proper_app; [exact (proper_app [] [record] _ _ _ Hpre Hopen)|by apply no_open].
    + by rewrite existsb_app, (existsb_app _ _ lh), (existsb_app _ (_ ++ _) [_]), Hu, Hrun.
    + rewrite streams_app, Hup. done.
    + destruct Hend as [Hnone|?]; [left|by right]. by rewrite existsb_app, (existsb_app _ _ lh), (existsb_app _ (_ ++ _) [_]), Hr, Hnone.
Qed.

(** ** A local connection *)
Definition is_started (e : wire_event) : bool := match e with SessionStarted => true | _ => false end.
Definition is_degraded (e : wire_event) : bool := match e with RunStatus s => s =s "degraded" | _ => false end.

(** One attempt: a session was started exactly when it opened, the stream is open then and
    closed otherwise, and a failure that may be retried was not answered by the remote Pipe. *)
Definition attempted (traversal : TraversalState) (record : Records.PipeRecord) (r : localConnectionResult) (l : list wire_event) : Prop :=
  proper_open [record] traversal l ∧ existsb is_started l = lr_opened r ∧ existsb is_degraded l = false ∧
  streams false l = Some (lr_opened r) ∧
  (lr_transient r = true → lr_opened r = false ∧ existsb is_result l = false).

Lemma run_session_sound spec sid c r c' : run_session spec sid c = (r, c') →
  ∃ result l, r = Ok result ∧ logged c l c' ∧ existsb is_open l = false ∧ existsb is_started l = lr_opened result ∧
    existsb is_degraded l = false ∧ streams true l = Some (lr_opened result) ∧ lr_transient result = false.
Proof.
  unfold run_session. cbv zeta. intros Hk. pose proof (logged_nil c) as L. say Hk L. learn Hk now L. say Hk L.
  unfold mbind at 1, M_bind at 1, attempt at 1 in Hk. destruct (ask r_session _) as [started cs] eqn:Es.
  pose proof (logged_ask _ _ _ _ _ _ L Es) as Ls. moved L Ls. destruct started as [u|e].
  2:{ say Hk L. injection Hk as <- <-. by eexists _, _. }
  learn Hk active L. destruct active; cbn [negb] in Hk.
  2:{ say Hk L. injection Hk as <- <-. by eexists _, _. }
  say Hk L. learn Hk bytes L. say Hk L. injection Hk as <- <-. by eexists _, _.
Qed.

Definition an_opener (traversal : TraversalState) (open : Records.PipeRecord → MC localConnectionResult) : Prop :=
  ∀ record c r c', open record c = (r, c') → ∃ result l, r = Ok result ∧ logged c l c' ∧ attempted traversal record result l.

Lemma runs_none l : existsb is_run l = false → existsb is_started l = false ∧ existsb is_degraded l = false.
Proof.
  induction l as [|e l IH]; cbn; [done|]. intros [He Hl%IH]%orb_false_elim. by destruct e; cbn in *.
Qed.

Lemma open_local_sound spec : an_opener (mkTraversal [p_PipeID spec] 0 DefaultMaxPipeHops) (openLocalConnection spec).
Proof.
  intros record c r c'. unfold openLocalConnection, mbind, M_bind, attempt. destruct (open_tunnel _ _ _ _) as [ro c1] eqn:Eo.
  apply tunnel_sound in Eo as (l & L & Hopen & [Hs Hd]%runs_none & Hst & Hend). destruct ro as [sid|e].
  - intros (result & l2 & -> & L2 & Ho2 & Hs2 & Hd2 & Hst2 & Ht2)%run_session_sound. exists result, (l ++ l2). split; [done|].
    split; [by eapply logged_trans|]. split; [by apply (proper_app [record] []); [|apply no_open]|].
    rewrite !existsb_app, Hs, Hd, streams_app, Hst. split_and!; [done|done|done|]. congruence.
  - intros [= <- <-]. eexists _, l. split; [done|]. split; [done|]. split; [done|]. split; [done|]. split; [done|]. split; [done|].
    cbn [lr_transient lr_opened]. intros Ht. split; [done|]. destruct Hend as [?|(reason & cause & ->)]; [done|].
    by unfold isTransientSetupError, errors_Is, result_error in Ht; apply bool_decide_eq_true, not_elem_of_nil in Ht.
Qed.

(** The records that were tried, whether one opened, and what was logged. The first is the
    one that [held] has become; the second one that a just fetched newer record has become. *)
Definition connected (traversal : TraversalState) (held final : Records.PipeRecord)
    (out : list Records.PipeRecord * bool) (l : list wire_event) : Prop :=
  proper_open out.1 traversal l ∧ existsb is_started l = out.2 ∧ existsb is_degraded l = false ∧
  streams false l = Some out.2 ∧
  ((∃ first, out.1 = [first] ∧ becomes held first ∧ becomes first final) ∨
   (∃ first second found l1 fetched l2, out.1 = [first; second] ∧ becomes held first ∧
      newer first found ∧ becomes found second ∧ becomes second final ∧
      l = l1 ++ Fetched fetched :: l2 ∧ found ∈ fetched ∧ existsb is_started l1 = false ∧ existsb is_result l1 = false)).

Lemma fetched_silent l : Forall is_fetched l →
  existsb is_open l = false ∧ existsb is_started l = false ∧ existsb is_degraded l = false ∧ existsb is_stream l = false.
Proof. induction 1 as [|e l (records & ->) _ IH]; [done|exact IH]. Qed.

Lemma current_run c r c' : current c = (r, c') → r = Ok (c_record c') ∧ logged c [] c'.
Proof.
  unfold current. intros Hc. apply bind_inv in Hc as [(e & Hc & ->)|([] & c1 & Ha & [= <- <-])]; [by apply ask_total in Hc|].
  split; [done|]. exact (logged_ask _ _ _ _ _ _ (logged_nil c) Ha).
Qed.

(** One attempt, with the record that the resolver has then. *)
Lemma attempt_once traversal open c (k : Records.PipeRecord → localConnectionResult → MC (list Records.PipeRecord * bool)) r c' :
  an_opener traversal open → (record ← current; result ← open record; k record result) c = (r, c') →
  ∃ record result l c1, becomes (c_record c) record ∧ c_log c1 = c_log c ++ l ∧ becomes record (c_record c1) ∧
    attempted traversal record result l ∧ k record result c1 = (r, c').
Proof.
  intros Hopen Hk. apply bind_inv in Hk as [(e & Hk & ->)|(record & c0 & Hc & Hk)]; [by apply current_run in Hk as [? _]|].
  apply current_run in Hc as [[= ->] [L0 B0]].
  apply bind_inv in Hk as [(e & Hk & ->)|(result & c1 & Hk1 & Hk)]; [by apply Hopen in Hk as (? & ? & ? & _)|].
  apply Hopen in Hk1 as (? & l1 & [= <-] & (L1 & B1) & Ha). exists (c_record c0), result, l1, c1.
  split_and!; [done|by rewrite L1, L0, app_nil_r|done|done|done].
Qed.

Lemma last_attempt traversal open c r c' : an_opener traversal open → attempts 1 open c = (r, c') →
  ∃ record result l, r = Ok ([record], lr_opened result) ∧ becomes (c_record c) record ∧ becomes record (c_record c') ∧
    c_log c' = c_log c ++ l ∧ attempted traversal record result l.
Proof.
  intros Hopen. cbn [attempts]. intros Hk. apply (attempt_once traversal open) in Hk as (record & result & l & c1 & B1 & L1 & B2 & Ha & Hk); [|done].
  exists record, result, l. rewrite bool_decide_eq_true_2, orb_true_r in Hk by done.
  destruct (lr_opened result); injection Hk as <- <-; done.
Qed.

Lemma attempts_sound traversal open c r c' : an_opener traversal open → attempts 2 open c = (r, c') →
  ∃ out l, r = Ok out ∧ c_log c' = c_log c ++ l ∧ connected traversal (c_record c) (c_record c') out l.
Proof.
  intros Hopen. pose proof (last_attempt traversal open) as Hlast. remember (attempts 1 open) as again eqn:Eagain.
  change (attempts 2 open) with (record ← current; result ← open record;
    if lr_opened result then mret ([record], true) else if negb (lr_transient result) || bool_decide (1%nat = O) then mret ([record], false)
    else changed ← attempt (resolve true);
         match changed with Ok true => '(records, opened) ← attempts 1 open; mret (record :: records, opened) | _ => mret ([record], false) end).
  rewrite <- Eagain. clear Eagain. intros Hk.
  apply (attempt_once traversal open) in Hk as (first & result & l1 & c1 & B0 & L1 & B1 & (Hp1 & Hs1 & Hd1 & Hst1 & Ht1) & Hk); [|done].
  assert (Hone : ∀ b, b = lr_opened result → ∀ l c2, c_log c2 = c_log c1 ++ l → becomes (c_record c1) (c_record c2) →
    Forall is_fetched l →
    c_log c2 = c_log c ++ l1 ++ l ∧ connected traversal (c_record c) (c_record c2) ([first], b) (l1 ++ l)).
  { intros b -> l c2 L R (Ho & Hs & Hd & Hn)%fetched_silent. split; [by rewrite L, L1, app_assoc|].
    split; [by apply (proper_app [_] []); [|apply no_open]|]. cbn [fst snd].
    rewrite !existsb_app, Hs1, Hs, Hd1, Hd, orb_false_r, streams_app, Hst1. cbn. rewrite (streams_none _ _ Hn).
    split_and!; [done|done|done|]. left. exists first. split_and!; [done|done|by etrans]. }
  destruct (lr_opened result) eqn:Eopened.
  { injection Hk as <- <-. eexists _, _. split; [done|]. apply (Hone true eq_refl []); [symmetry; apply app_nil_r|done|constructor]. }
  destruct (lr_transient result) eqn:Etr; cbn [negb orb] in Hk.
  2:{ injection Hk as <- <-. eexists _, _. split; [done|]. apply (Hone false eq_refl []); [symmetry; apply app_nil_r|done|constructor]. }
  rewrite bool_decide_eq_false_2 in Hk by done. destruct (Ht1 eq_refl) as [_ Hnone]. unfold mbind at 1, M_bind at 1, attempt in Hk.
  pose proof (resolver_sound true c1) as (_ & Hkeep & Hres & _ & lr & Lr & Flr). destruct (resolve true c1) as [changed c2]. cbn [fst snd] in *.
  assert (changed = Ok true ∨ changed ≠ Ok true) as [->|Hch] by (destruct changed as [[]|]; [by left|by right|by right]).
  2:{ assert (Hk' : (r, c') = (Ok ([first], false), c2)) by (by destruct changed as [[]|]). injection Hk' as -> ->.
      eexists _, _. split; [done|]. apply (Hone false eq_refl lr); [done|by apply Hkeep|done]. }
  destruct (Hres eq_refl) as (Hnew & fetched & Lf & Hin).
  apply bind_inv in Hk as [(e & Hk & ->)|([records b] & c3 & Hk2 & Hk)]; [by apply Hlast in Hk as (? & ? & ? & ? & _)|].
  injection Hk as <- <-. apply Hlast in Hk2 as (second & result2 & l2 & [= -> ->] & B2 & B3 & L2 & Hp2 & Hs2 & Hd2 & Hst2 & _); [|done].
  eexists _, (l1 ++ [Fetched fetched] ++ l2). split; [done|]. split; [by rewrite L2, Lf, L1, <- !app_assoc|]. unfold connected. cbn [fst snd].
  split; [apply (proper_app [_] [_]); [done|apply (proper_app [] [_]); [by apply no_open|done]]|].
  rewrite !existsb_app, Hs1, Hs2, Hd1, Hd2, !streams_app, Hst1. split_and!; [done|done|exact Hst2|].
  right. exists first, second, (c_record c2), l1, fetched, l2. split_and!; try done. by apply (at_least_newer _ (c_record c1)); [apply B1|].
Qed.

(** C17: serving a local connection always returns, whatever other goroutines do meanwhile to
    the shared resolver and leases, as long as they replace the record only by newer ones, as
    every resolution does. It tries the record that the resolver has and, only when that
    attempt failed before the remote Pipe answered the open, one other record: one that was
    just fetched, of the same Pipe and scope and with a higher sequence, or a newer one that
    another goroutine has put in its place; the resolver keeps it, or a newer one. A session
    starts exactly when the connection is reported open; otherwise the run is marked degraded;
    the local connection is closed last. Every stream that was opened is closed again, before
    any other is opened, except the one of the session: also after a failed handshake, after
    a refusal and after the failures of the session. Every open frame goes to one of those
    Pipes right after its greeting, with a proof over its challenge. A re-resolution for
    recovery within the cooldown asks nothing. A downstream carrier is returned, with its
    stream open, only after an accepting result, and otherwise no stream stays open. *)
Theorem client_reaches_newer spec c :
  (let c' := (serveLocalConnection spec c).2 in
   ∃ out l, (serveLocalConnection spec c).1 = Ok out ∧
     c_log c' = c_log c ++ l ++ (if out.2 : bool then [] else [RunStatus "degraded"]) ++ [LocalClosed] ∧
     connected (mkTraversal [p_PipeID spec] 0 DefaultMaxPipeHops) (c_record c) (c_record c') out l) ∧
  (∀ recovery, resolved recovery c (resolve recovery c).1 (resolve recovery c).2) ∧
  (∀ record traversal, ∃ l, logged c l (openRemotePipeCarrier record traversal c).2 ∧
     tunnel_trace (λ _ t e, if t : bool then transient e else e) record traversal (openRemotePipeCarrier record traversal c).1 l).
Proof.
  split_and!.
  - cbv zeta. unfold serveLocalConnection, serveLocalConnectionWithOpener. unfold mbind, M_bind.
    destruct (attempts 2 _ c) as [r c1] eqn:Ea. apply (attempts_sound _ _ _ _ _ (open_local_sound spec)) in Ea as ([records opened] & l & -> & L & HC).
    exists (records, opened), l. destruct opened; cbn; (split; [done|]); (split; [by rewrite L, <- !app_assoc|done]).
  - intros recovery. apply resolver_sound.
  - intros record traversal. unfold openRemotePipeCarrier. destruct (open_tunnel _ _ _ c) as [r c1] eqn:Eo. by apply tunnel_sound in Eo.
Qed.
End client.

(** ** A remote Pipe that moved *)
Module MovedPipe.
Import SampleKeys.
Definition instant : time := mkTime (1700000000 * Second) 0.
Definition moved_record (sequence : Z) (address : string) : Records.PipeRecord :=
  Records.mkPipeRecord 2 "pip_far" "far" "" "peer" (mkScope "home" "lab") "" None (Some [address]) VisibilityUnlisted AccessMembers ""
    zero_time (Add instant (60 * Minute)) sequence "".
Definition local_spec : PipeSpec :=
  mkPipe (mkRef KindPipe "near") "pip_near" None (mkIngress IngressTubo "" "" "" "raw") (mkRef KindPipe "far")
    VisibilityUnlisted AccessMembers false zero_time zero_time.
(** The old address does not answer; discovery knows the new one. *)
Definition moved : Remote (H := keys) := {|
  r_others _ s := s;
  r_clock _ := instant;
  r_fetch _ _ := Ok [moved_record 2 "/new"];
  r_lease_pair _ _ _ := Fail (errorf "authority_unreachable");
  r_refresh_pair _ _ _ := Fail (errorf "authority_unreachable");
  r_put_lease _ := Ok tt;
  r_dial _ address := if address =s "/new" then Ok "peer" else Fail (errorf "dial refused");
  r_stream _ _ := Ok tt;
  r_key _ _ := Ok ("recipient" : PrivateKey (Ed25519 := keys));
  r_write _ := Ok tt;
  r_hello _ := Ok (mkServerHello "2.0" "pip_far" "challenge" []);
  r_result _ := Ok (mkOpenResult true "ses_1" "raw" "" "" "");
  r_session _ := Ok tt;
  r_carrier _ := true;
  r_bytes _ := (10, 20) |}.
Definition holding (record : Records.PipeRecord) : client :=
  mkClient 0 record zero_time (mkLeases "lease" "refresh" (Add instant (60 * Minute)) false) [].
End MovedPipe.
Import MovedPipe.
Local Abbreviation serve := (serveLocalConnection (H := SampleKeys.keys) (H0 := moved) local_spec).

(** The old record is tried, the new one found and opened; the record that is already the
    newest is tried once, and the run is degraded when its address does not answer. *)
Example moved_pipe_reached :
  (serve (holding (moved_record 1 "/old"))).1 = Ok ([moved_record 1 "/old"; moved_record 2 "/new"], true) ∧
  c_record (serve (holding (moved_record 1 "/old"))).2 = moved_record 2 "/new" ∧
  (serve (holding (moved_record 2 "/old"))).1 = Ok ([moved_record 2 "/old"], false) ∧
  last (c_log (serve (holding (moved_record 2 "/old"))).2) = Some LocalClosed.
Proof. vm_compute. by split_and!. Qed.

(** A result that is known in place of the one that exists. *)
Lemma known_result {S A B L} (f : S → res A * S) (g : S → B) s (Q : A → L → Prop) (C : B → A → L → Prop) a b :
  (∃ out l, (f s).1 = Ok out ∧ Q out l ∧ C (g (f s).2) out l) → (f s).1 = Ok a → g (f s).2 = b → ∃ l, C b a l.
Proof. intros (out & l & Hr & _ & HC) E <-. rewrite Hr in E. injection E as <-. by exists l. Qed.

Lemma client_reaches_newer_witness :
  ∃ l, connected (H := SampleKeys.keys) (H0 := moved) (mkTraversal [p_PipeID local_spec] 0 DefaultMaxPipeHops)
         (c_record (holding (moved_record 1 "/old"))) (moved_record 2 "/new")
         ([moved_record 1 "/old"; moved_record 2 "/new"], true) l.
Proof.
  apply (known_result serve c_record (holding (moved_record 1 "/old")) _
    (λ final out l, connected (H := SampleKeys.keys) (H0 := moved) (mkTraversal [p_PipeID local_spec] 0 DefaultMaxPipeHops)
       (c_record (holding (moved_record 1 "/old"))) final out l) _ _
    (proj1 (client_reaches_newer (H := SampleKeys.keys) (H0 := moved) (λ n s, or_introl eq_refl) local_spec (holding (moved_record 1 "/old"))))
    (proj1 moved_pipe_reached) (proj1 (proj2 moved_pipe_reached))).
Defined.
