(* ===== verification/ScopeCommands.v ===== *)
(** * Commands on services, Pipes, scopes and revocations

    The handlers [serviceCreate], [pipeCreate], [scopeCreate], [scopeInvite], [scopeJoin] and
    [revoke] of [internal/cli/app.go] with [UseScope] and [CurrentScope] of
    [internal/store/store.go]: what they read, check, mint and store. What they print is
    their result.

    A node has its tables, its key files (which [localkey] loads and provisions), its other
    secret files, the current scope of its configuration and, as a member of scopes, the
    network of [ScopeClient]. A clock and a random source are read as there; a new key is a
    function of its path. *)
From S2P Require Import Prelude GoStrings GoTime Encoding Json JsonRoundTrip JsonTree Credentials Domain StoreRelations StoreSync StoreObjects.
From S2P Require Import Effects UseCases ScopeTokens ScopeAuthority ScopeClient ScopeSync.
Open Scope Z_scope.

(** [domain.Scope] of a command line: exactly two parts. *)
Definition parse_scope (raw : string) : res Scope :=
  match Split raw "/"%char with
  | [cluster; namespace] => let value := mkScope cluster namespace in _ ← ScopeValidate value; Ok value
  | _ => Fail (errorf "invalid_input: scope must be cluster/namespace")
  end.

(** [strings.ReplaceAll(scope, "/", "-")]. *)
Definition dashed (s : string) : string := of_bytes (map (λ c, if bool_decide (c = "/"%char) then "-"%char else c) (bytes_of s)).

(** The fields of a membership invite that [NewToken] leaves empty. *)
Definition set_membership (role address namespace : string) (t : Tokens.Token) : Tokens.Token :=
  Tokens.mkToken (Tokens.Version t) (Tokens.Type_ t) (Tokens.Issuer t) (Tokens.Subject t) (Tokens.Audience t) (Tokens.InScope t) role
    (Tokens.JTI t) (Tokens.IssuedAt t) (Tokens.ExpiresAt t) address namespace (Tokens.OneTime t) (Tokens.Endpoint t)
    (Tokens.DisplayNameHint t) (Tokens.AccessEpoch t) (Tokens.PublishEpoch t) (Tokens.Signature t).

Section commands.
Context `{Ed25519} `{NetParsers} {N : Type} (net : network N) (clock : nat → time) (rnd : nat → entropy)
  (generate : string → PrivateKey) (home : string).

Record local := mkLocal {
  lo_member : member N; lo_objects : objects; lo_rel : relations; lo_runs : runs_table;
  lo_keys : gmap string (res PrivateKey); lo_secrets : gmap string string; lo_config : res string }.
Local Abbreviation ML := (M local).

Definition with_member (m : member N) (w : local) : local :=
  mkLocal m (lo_objects w) (lo_rel w) (lo_runs w) (lo_keys w) (lo_secrets w) (lo_config w).
Definition with_objects (d : objects) (w : local) : local :=
  mkLocal (lo_member w) d (lo_rel w) (lo_runs w) (lo_keys w) (lo_secrets w) (lo_config w).
Definition with_rel (d : relations) (w : local) : local :=
  mkLocal (lo_member w) (lo_objects w) d (lo_runs w) (lo_keys w) (lo_secrets w) (lo_config w).
Definition with_keys (k : gmap string (res PrivateKey)) (w : local) : local :=
  mkLocal (lo_member w) (lo_objects w) (lo_rel w) (lo_runs w) k (lo_secrets w) (lo_config w).
Definition with_secrets (s : gmap string string) (w : local) : local :=
  mkLocal (lo_member w) (lo_objects w) (lo_rel w) (lo_runs w) (lo_keys w) s (lo_config w).

(** [authority.ReadPrivate] and [authority.GeneratePrivate], which are [localkey.Load] and
    [localkey.Provision]: of a key file, [lo_keys] has the key, or the error of loading it. *)
Definition key_at (keys : gmap string (res PrivateKey)) (path : string) : res PrivateKey :=
  default (Fail (wrapf ErrNotExist "open: no such file or directory")) (keys !! path).
Definition ReadPrivate (path : string) : ML PrivateKey := λ w, (key_at (lo_keys w) path, w).
Definition GeneratePrivate (path : string) : ML PrivateKey := λ w,
  match lo_keys w !! path with
  | Some found => (found, w)
  | None => (Ok (generate path), with_keys (<[path := Ok (generate path)]> (lo_keys w)) w)
  end.
(** [os.Stat] of a key file: whether it is there, in order or not. *)
Definition stat_key (path : string) : ML bool := λ w, (Ok (bool_decide (is_Some (lo_keys w !! path))), w).

(** What a member does, with its key files. *)
Definition as_member {A} (m : (string → res PrivateKey) → M (member N) A) : ML A := λ w,
  let '(r, n) := m (key_at (lo_keys w)) (lo_member w) in (r, with_member n w).
Definition local_now : ML time := as_member (λ _, time_now clock).
Definition local_draw : ML entropy := λ w,
  let m := lo_member w in
  (Ok (rnd (m_draws m)), with_member (mkMember (m_scopes m) (m_sync m) (m_ticks m) (S (m_draws m)) (m_net m)) w).
Definition in_scopes {A} (f : scope_tables → res A * scope_tables) : ML A := λ w,
  let m := lo_member w in
  let '(r, d) := f (m_scopes m) in (r, with_member (mkMember d (m_sync m) (m_ticks m) (m_draws m) (m_net m)) w).
Definition of_scopes {A} (f : scope_tables → res A) : ML A := λ w, (f (m_scopes (lo_member w)), w).
Definition of_rel {A} (f : relations → res A) : ML A := λ w, (f (lo_rel w), w).
Definition of_objects {A} (f : objects → res A) : ML A := λ w, (f (lo_objects w), w).
Definition in_objects {A} (f : objects → res A * objects) : ML A := λ w,
  let '(r, d) := f (lo_objects w) in (r, with_objects d w).
Definition in_rel {A} (f : relations → res A * relations) : ML A := λ w,
  let '(r, d) := f (lo_rel w) in (r, with_rel d w).

Definition of_runs {A} (f : runs_table → res A) : ML A := λ w, (f (lo_runs w), w).

Definition SecretPath (parts : list string) : string := filepath_Join (home :: "secrets" :: parts).

(** ** Services and Pipes *)
Definition serviceSpec (name target : string) : res ServiceSpec :=
  ref ← NewRef KindService name;
  let scheme := ToLower (default target (head (Split target ":"%char))) in
  let spec := mkService ref (if scheme =s "https" then ServiceHTTP else scheme) target "" [] in
  _ ← ServiceValidate spec;
  Ok spec.

(** [flags.required]: the flag is given and not empty. *)
Definition required (name value : string) : ML unit := guard (value =s "") (errorf ("--" +:+ name +:+ " is required")).

Definition serviceCreate (name target : string) : ML (string * bool) :=
  _ ← required "target" target;
  spec ← lift (serviceSpec name target);
  created ← in_objects (PutService spec);
  mret (RefString (svc_Ref spec), created).

Definition loadOrGeneratePrivate (path : string) : ML PrivateKey :=
  found ← attempt (ReadPrivate path);
  match found with
  | Ok private => mret private
  | Fail e => if errors_Is e ErrNotExist then GeneratePrivate path else fail e
  end.

(** A publish grant of the own authority. *)
Definition own_grant (scopeState : ScopeRow) (scope : Scope) (scopeRaw : string) (owner : PrivateKey) (pipeID : string) : ML string :=
  private ← ReadPrivate (sc_AuthorityKeyFile scopeState);
  r ← local_draw; t ← local_now;
  publish ← lift (Tokens.NewToken r t "pipe.publish" scope (Tokens.PublicString (Public owner)) pipeID (30 * (24 * (60 * Minute))));
  epoch ← of_rel (λ d, RevocationEpoch d scopeRaw "pipe-publish" pipeID);
  publish ← lift (Tokens.Sign (Tokens.set_publish_epoch epoch publish) private);
  lift (Tokens.Encode publish).

Definition publish_grant (scope : Scope) (scopeRaw : string) (owner : PrivateKey) (pipeID : string) : ML string :=
  found ← attempt (of_scopes (λ d, ScopeNamed d scopeRaw));
  match found with
  | Ok scopeState => own_grant scopeState scope scopeRaw owner pipeID
  | Fail e =>
      if errors_Is e ErrNotFound then
        _ ← as_member (λ _, online (open_host net));
        as_member (λ load, RequestPublishGrant net rnd load scopeRaw pipeID)
      else fail e
  end.

(** The flags of [tubo pipe create]. *)
Record pipe_flags := mkPipeFlags { pf_Target : string; pf_Ingress : string; pf_Scope : string; pf_Visibility : string; pf_Access : string }.

Definition or_default (value fallback : string) : string := if value =s "" then fallback else value.

(** The ingress of the new Pipe with its scope, visibility and access, and its grant. *)
Definition ingress_of (f : pipe_flags) (owner : PrivateKey) (pipeID : string)
    : ML (option Scope * PipeIngress * string * string * string) :=
  if pf_Ingress f =s "tubo" then
    _ ← required "scope" (pf_Scope f);
    scope ← lift (parse_scope (pf_Scope f));
    grant ← publish_grant scope (pf_Scope f) owner pipeID;
    mret (Some scope, mkIngress IngressTubo "" "" "" "raw", or_default (pf_Visibility f) VisibilityUnlisted,
          or_default (pf_Access f) AccessInviteOnly, grant)
  else if HasPrefix (pf_Ingress f) "local://" then
    mret (None, mkIngress IngressLocal (of_bytes (drop 8 (bytes_of (pf_Ingress f)))) "" "" "", VisibilityPrivate, AccessMembers, "")
  else fail (errorf "invalid_input: ingress must be tubo or local://host:port").

Definition pipeCreate (name : string) (f : pipe_flags) : ML (Ref * string * bool) :=
  _ ← required "target" (pf_Target f);
  target ← lift (ParseRef (pf_Target f));
  _ ← required "ingress" (pf_Ingress f);
  ref ← lift (NewRef KindPipe name);
  let ownerPath := SecretPath ["pipes"; Name ref +:+ ".key"] in
  owner ← loadOrGeneratePrivate ownerPath;
  t ← local_now;
  found ← attempt (of_objects (λ d, Pipe d (RefString ref)));
  '(pipeID, created, updated, ownerPath) ← match found with
    | Ok (existing, existingKey, _) => mret (p_PipeID existing, p_CreatedAt existing, p_UpdatedAt existing, existingKey)
    | Fail e => if errors_Is e ErrNotFound then mret (Tokens.PipeID (Public owner), UTC t, UTC t, ownerPath) else fail e
    end;
  '(scope, ingress, visibility, access, grant) ← ingress_of f owner pipeID;
  isNew ← in_objects (PutPipe (mkPipe ref pipeID scope ingress target visibility access false created updated) ownerPath grant);
  mret (ref, pipeID, isNew).

(** ** Scopes *)
Definition write_exclusive (path data : string) : ML unit := λ w,
  match lo_secrets w !! path with
  | Some _ => (Fail (wrapf ErrExist "open: file exists"), w)
  | None => (Ok tt, with_secrets (<[path := data]> (lo_secrets w)) w)
  end.
Definition write_secret (path data : string) : ML unit := λ w, (Ok tt, with_secrets (<[path := data]> (lo_secrets w)) w).
Definition read_secret (path : string) : ML string := λ w,
  (need (lo_secrets w !! path) (wrapf ErrNotExist "open: no such file or directory"), w).
Definition remove_files (secret key : string) : ML unit := λ w,
  (Ok tt, with_secrets (delete secret (lo_secrets w)) (with_keys (delete key (lo_keys w)) w)).

Definition scopeCreate (arg : string) : ML string :=
  scope ← lift (parse_scope arg);
  found ← attempt (of_scopes (λ d, ScopeNamed d (ScopeString scope)));
  _ ← match found with
      | Ok _ => fail (errorf "conflict: scope already exists")
      | Fail e => guard (negb (errors_Is e ErrNotFound)) e
      end;
  let authorityPath := SecretPath ["authorities"; Cluster scope +:+ ".key"] in
  private ← GeneratePrivate authorityPath;
  let namespacePath := SecretPath ["namespaces"; Cluster scope; Namespace scope; "current.secret"] in
  r ← local_draw;
  secret ← lift r;
  _ ← write_exclusive namespacePath (base64_encode secret);
  let value := mkScopeRow (ScopeString scope) (Tokens.PublicString (Public private)) authorityPath namespacePath in
  stored ← attempt (in_scopes (PutScope value));
  match stored with
  | Ok _ => mret ("scope/" +:+ ScopeString scope)
  | Fail e => _ ← remove_files namespacePath authorityPath; fail (prefixed "persistence_failed: create scope: " e)
  end.

Definition invite_roles : list string := ["member"; "viewer"; "publisher"; "forwarder"].

(** [duration] is the parsed flag, or a day. *)
Definition scopeInvite (arg role : string) (duration : duration) : ML string :=
  _ ← required "role" role;
  _ ← guard (negb (mem_str role invite_roles)) (errorf "invalid_input: role must be member, viewer, publisher, or forwarder");
  scopeValue ← of_scopes (λ d, ScopeNamed d arg);
  scope ← lift (parse_scope (sc_Name scopeValue));
  run ← wrapped (λ _, errorf "authority_unreachable: authority must be ready")
          (of_runs (λ d, RunNamed d ("authority/" +:+ Cluster scope)));
  _ ← guard (ru_Status run <>s "ready") (errorf "authority_unreachable: authority must be ready");
  _ ← guard (duration <=? 0) (errorf "invalid_input: expires must be positive");
  private ← ReadPrivate (sc_AuthorityKeyFile scopeValue);
  namespace ← read_secret (sc_NamespaceKeyFile scopeValue);
  r ← local_draw; t ← local_now;
  token ← lift (Tokens.NewToken r t "membership.invite" scope "invitee" "" duration);
  token ← lift (Tokens.Sign (set_membership role (ru_Address run) (TrimSpace namespace) token) private);
  lift (Tokens.Encode token).

Definition scopeJoin (tokenValue : string) : ML (string * string) :=
  _ ← required "token" tokenValue;
  token ← lift (Tokens.Decode tokenValue);
  public ← lift (Tokens.PublicFromString (Tokens.Issuer token));
  t ← local_now;
  _ ← lift (Tokens.Verify t token public (UTC t));
  _ ← guard ((Tokens.Type_ token <>s "membership.invite") || (Tokens.AuthorityAddress token =s "") || (Tokens.NamespaceKey token =s ""))
        (errorf "invalid membership invite");
  let scope := ScopeString (Tokens.InScope token) in
  let clientPath := SecretPath ["memberships"; dashed scope +:+ ".key"] in
  there ← stat_key clientPath;
  _ ← (if there : bool then mret tt else (_ ← GeneratePrivate clientPath; mret tt));
  _ ← write_secret (SecretPath ["namespaces"; Cluster (Tokens.InScope token); Namespace (Tokens.InScope token); "current.secret"])
        (Tokens.NamespaceKey token);
  _ ← in_scopes (PutMembership (mkMembership scope (Tokens.Role token) tokenValue (Tokens.Issuer token)
                                  (Tokens.AuthorityAddress token) clientPath));
  mret (scope, Tokens.Role token).

(** ** The current scope *)
Definition known_scope (d : scope_tables) (scope : string) : bool :=
  is_ok (ScopeNamed d scope) || is_ok (MembershipOf d scope).

Definition read_config : ML string := λ w, (lo_config w, w).
Definition write_config (scope : string) : ML unit := λ w,
  (Ok tt, mkLocal (lo_member w) (lo_objects w) (lo_rel w) (lo_runs w) (lo_keys w) (lo_secrets w) (Ok scope)).

Definition UseScope (scope : string) : ML unit :=
  known ← of_scopes (λ d, Ok (known_scope d scope));
  _ ← guard (negb known) (wrapf ErrNotFound "resource not found: scope");
  _ ← read_config;
  write_config scope.

Definition CurrentScope : ML string :=
  config ← read_config;
  if config <>s "" then
    known ← of_scopes (λ d, Ok (known_scope d config));
    _ ← guard (negb known) (wrapf ErrNotFound "resource not found: current scope");
    mret config
  else
    of_scopes (λ d, match FirstScope d with
                    | Ok scope => Ok (sc_Name scope)
                    | Fail _ => memberships ← Memberships d;
                                m ← need (head memberships) (wrapf ErrNotFound "resource not found: no scope");
                                Ok (mb_Scope m)
                    end).

(** ** Revocation *)
Definition revoke_types : list string := ["invite"; "session"; "pipe-access"; "pipe-publish"].

(** The subject that a revocation is recorded for: its type, its scope and its identifier. *)
Definition revoke_subject (rawType id : string) : ML (string * string * string) :=
  if rawType =s "invite" then
    let scoped :=
      kind ← wrapped (prefixed "persistence_failed: exact invite resolution: ") (of_rel (λ d, ResolveRevokeInvite d id));
      match kind with
      | FamilyExact exactScope => mret ("exact.invite", exactScope, id)
      | FamilyScoped => current ← CurrentScope; mret ("share.invite", current, id)
      end in
    match Invite.DecodeInvite id with
    | Ok invite => if Invite.OneTime invite then mret ("exact.invite", Invite.AudiencePipeID invite, Invite.JTI invite) else scoped
    | Fail _ => scoped
    end
  else if HasPrefix id "pipe/" then
    '(spec, _, _) ← of_objects (λ d, Pipe d id);
    mret (rawType, match p_Scope spec with Some s => ScopeString s | None => p_PipeID spec end, p_PipeID spec)
  else if HasPrefix id "pip_" then mret (rawType, id, id)
  else current ← CurrentScope; mret (rawType, current, id).

Definition is_epoch_type (typeName : string) : bool := (typeName =s "pipe-access") || (typeName =s "pipe-publish").

Definition revoke (rawType id : string) : ML (string * string * string) :=
  _ ← guard (negb (mem_str rawType revoke_types))
        (errorf "invalid_input: revoke type must be invite, session, pipe-access, or pipe-publish");
  '(typeName, scope, id) ← revoke_subject rawType id;
  epoch ← (if is_epoch_type typeName then
             current ← wrapped (prefixed "persistence_failed: revocation epoch: ") (of_rel (λ d, RevocationEpoch d scope typeName id));
             mret ((current + 1) mod 2 ^ 64)
           else mret 1);
  member ← of_scopes (λ d, Ok (is_ok (MembershipOf d scope)));
  _ ← (if member : bool then
         _ ← as_member (λ _, online (open_host net));
         as_member (λ load, RequestRevoke net rnd load scope typeName id epoch)
       else
         t ← local_now;
         wrapped (prefixed "persistence_failed: ") (in_rel (Revoke t scope typeName id epoch)));
  mret (scope, typeName, id).
End commands.
