(* ===== verification/ScopeCommandsProps.v ===== *)
(** * What the commands on scopes and revocations achieve *)
From S2P Require Import Prelude GoStrings GoTime Encoding Json JsonRoundTrip JsonTree Sha256.
From S2P Require Import Credentials CredentialFacts CredentialVerify CredentialProps StoreRelations StoreRelationFacts ExactAuthority ExactAuthorityFacts.
From S2P Require Import Domain DomainFacts Engine OpenBoundary AccessProps StoreSync StoreObjects.
From S2P Require Import Frames Effects UseCases ScopeTokens ScopeTokenFacts ScopeAuthority ScopeClient ScopeSync ScopeCommands Published.
Open Scope Z_scope.

Section commands.
Context `{Ed25519Laws} `{NetParsers} {N : Type} (net : network N) (clock : nat → time) (rnd : nat → entropy).
Local Abbreviation revoke := (revoke net clock rnd).
Local Abbreviation node := (local (N := N)).

(** ** Revocation *)

(** What only reads. *)
Lemma reads_scopes {A} (f : scope_tables → res A) : within (=) (of_scopes (N := N) f).
Proof. intros w. reflexivity. Qed.
Lemma reads_rel {A} (f : relations → res A) : within (=) (of_rel (N := N) f).
Proof. intros w. reflexivity. Qed.
Lemma reads_objects {A} (f : objects → res A) : within (=) (of_objects (N := N) f).
Proof. intros w. reflexivity. Qed.
Lemma reads_config : within (=) (read_config (N := N)).
Proof. intros w. reflexivity. Qed.
#[local] Hint Resolve reads_scopes reads_rel reads_objects reads_config : effects.
#[local] Hint Extern 0 (PreOrder eq) => (split; congruence) : effects.

Lemma revoke_subject_reads rawType id (w : node) : (revoke_subject rawType id w).2 = w.
Proof.
  symmetry. revert w. change (within (=) (revoke_subject (N := N) rawType id)).
  unfold revoke_subject, CurrentScope. cbv zeta. solve_within.
Qed.

(** The scope, type and identifier under which a revocation is recorded on a node that is not
    a member of that scope, and the row it leaves. *)
Lemma revoke_local rawType id (w w1 : node) scope typeName id' :
  revoke rawType id w = (Ok (scope, typeName, id'), w1) → memberships (m_scopes (lo_member w)) !! scope = None →
  ∃ now epoch, (revoke_subject rawType id w).1 = Ok (typeName, scope, id') ∧
    Revoke now scope typeName id' epoch (lo_rel w) = (Ok tt, lo_rel w1) ∧
    epoch = if is_epoch_type typeName then (default 0 (select_epoch (lo_rel w) scope typeName id') + 1) mod 2 ^ 64 else 1.
Proof.
  unfold revoke, ScopeCommands.revoke. intros Hr Hm. apply bind_run in Hr as ([] & w0 & Hg & Hr). apply guard_run in Hg as [_ <-].
  apply bind_run in Hr as ([[typeName' scope'] id2] & w0 & Hs & Hr).
  pose proof (revoke_subject_reads rawType id w) as Hw. rewrite Hs in Hw. cbn [snd] in Hw. subst w0.
  apply bind_run in Hr as (epoch & w0 & He & Hr).
  assert (w0 = w ∧ epoch = if is_epoch_type typeName' then (default 0 (select_epoch (lo_rel w) scope' typeName' id2) + 1) mod 2 ^ 64 else 1) as [-> Ee].
  { destruct (is_epoch_type typeName'); [|injection He as <- <-; done]. apply bind_run in He as (c & w2 & Hc & He).
    apply wrapped_run in Hc. injection Hc as <- <-. injection He as <- <-. done. }
  apply bind_run in Hr as (b & w0 & Hb & Hr). injection Hb as Hb <-.
  apply bind_run in Hr as ([] & w2 & Hd & Hr). injection Hr as <- <- <- <-.
  unfold MembershipOf in Hb. rewrite Hm in Hb. cbn in Hb. subst b.
  apply bind_run in Hd as (t & w3 & Ht & Hd). injection Ht as <- <-. apply wrapped_run in Hd.
  exists (clock (m_ticks (lo_member w))), epoch. rewrite Hs. split; [done|]. split; [|done].
  unfold in_rel in Hd. cbn [lo_rel with_member] in Hd. destruct (Revoke _ _ _ _ _ _) as [r d]. by injection Hd as -> <-.
Qed.

Lemma revoke_result rawType id (w w1 : node) scope typeName id' :
  revoke rawType id w = (Ok (scope, typeName, id'), w1) → (revoke_subject rawType id w).1 = Ok (typeName, scope, id').
Proof.
  unfold revoke, ScopeCommands.revoke. intros Hr. apply bind_run in Hr as ([] & w0 & Hg & Hr). apply guard_run in Hg as [_ <-].
  apply bind_run in Hr as ([[t s] i] & w0 & Hs & Hr). rewrite Hs. cbn [fst].
  apply bind_run in Hr as (epoch & w2 & _ & Hr). apply bind_run in Hr as (b & w3 & _ & Hr). apply bind_run in Hr as ([] & w4 & _ & Hr).
  by injection Hr as -> -> -> _.
Qed.

(** An exact invite that is named by its text or, once redeemed, by its identifier. *)
Definition exact_invite (w : node) (id pipe jti : string) : Prop :=
  (∃ invite, Invite.DecodeInvite id = Ok invite ∧ Invite.OneTime invite = true ∧
     pipe = Invite.AudiencePipeID invite ∧ jti = Invite.JTI invite) ∨
  (is_ok (Invite.DecodeInvite id) = false ∧ jti = id ∧ ResolveRevokeInvite (lo_rel w) id = Ok (FamilyExact pipe)).

(** A Pipe that is named by its identifier, or by the reference of one without a scope. *)
Definition exact_pipe (w : node) (id pipe : string) : Prop :=
  (HasPrefix id "pipe/" = false ∧ HasPrefix id "pip_" = true ∧ pipe = id) ∨
  (HasPrefix id "pipe/" = true ∧ ∃ spec file grant, Pipe (lo_objects w) id = Ok (spec, file, grant) ∧
     p_Scope spec = None ∧ pipe = p_PipeID spec).

Lemma invite_subject id pipe jti (w : node) : exact_invite w id pipe jti →
  (revoke_subject "invite" id w).1 = Ok ("exact.invite", pipe, jti).
Proof.
  unfold revoke_subject. cbn [seqb]. rewrite seqb_refl. cbv zeta. intros [(invite & Hd & Ho & -> & ->)|(Hd & -> & Hf)].
  - by rewrite Hd, Ho.
  - destruct (Invite.DecodeInvite id); [done|]. unfold mbind, M_bind, wrapped, of_rel. by rewrite Hf.
Qed.

Lemma pipe_subject kind id pipe (w : node) : kind ≠ "invite" → exact_pipe w id pipe → (revoke_subject kind id w).1 = Ok (kind, pipe, pipe).
Proof.
  intros Hk%seqb_false Hp. unfold revoke_subject. rewrite Hk. destruct Hp as [(-> & -> & ->)|(-> & spec & file & grant & Hpipe & Hs & ->)]; [done|].
  unfold mbind, M_bind, of_objects. rewrite Hpipe. by rewrite Hs.
Qed.

Lemma scoped_subject kind id spec file grant scope (w : node) : kind ≠ "invite" → HasPrefix id "pipe/" = true →
  Pipe (lo_objects w) id = Ok (spec, file, grant) → p_Scope spec = Some scope →
  (revoke_subject kind id w).1 = Ok (kind, ScopeString scope, p_PipeID spec).
Proof.
  intros Hk%seqb_false Hi Hpipe Hs. unfold revoke_subject. rewrite Hk, Hi. unfold mbind, M_bind, of_objects. rewrite Hpipe. by rewrite Hs.
Qed.

(** The row that a revocation leaves; no other changes. *)
Lemma Revoke_row now scope kind jti epoch d d' : Revoke now scope kind jti epoch d = (Ok tt, d') →
  select_epoch d' scope kind jti = Some epoch ∧ epoch < 2 ^ 63 ∧ (∀ e, select_epoch d scope kind jti = Some e → e ≤ epoch) ∧
  ∀ k, k ≠ (scope, kind, jti) → revocations d' !! k = revocations d !! k.
Proof.
  intros Hr. destruct (Revoke_cases now scope kind jti epoch d) as [[e E]|(E & _ & Hb & Hle)]; rewrite E in Hr; [done|].
  injection Hr as <-. split; [|split; [done|split; [done|]]]; unfold select_epoch; cbn [revocations set_revocations].
  - by rewrite lookup_insert_eq.
  - intros k Hk. by rewrite lookup_insert_ne.
Qed.

(** The epoch that [revoke] asks for, and a subject that the table can take. *)
Definition next_epoch (d : relations) (scope kind id : string) : Z :=
  if is_epoch_type kind then default 0 (select_epoch d scope kind id) + 1 else 1.
Record recordable (d : relations) (scope kind id : string) : Prop := {
  rc_named : blank scope = false ∧ blank kind = false ∧ blank id = false;
  rc_sized : slen scope ≤ 8192 ∧ slen kind ≤ 128 ∧ slen id ≤ 8192;
  rc_epoch : next_epoch d scope kind id < 2 ^ 63;
  rc_older : ∀ e, select_epoch d scope kind id = Some e → 0 ≤ e ≤ next_epoch d scope kind id }.

Lemma Revoke_stores now scope kind id epoch d : recordable d scope kind id → epoch = next_epoch d scope kind id →
  ∃ d', Revoke now scope kind id epoch d = (Ok tt, d').
Proof.
  intros [(Hb1 & Hb2 & Hb3) (Hl1 & Hl2 & Hl3) He Ho] ->. unfold Revoke. rewrite Hb1, Hb2, Hb3.
  apply Z.ltb_ge in Hl1, Hl2, Hl3. rewrite Hl1, Hl2, Hl3. cbn [orb].
  assert (Hpos : 0 < next_epoch d scope kind id).
  { unfold next_epoch. destruct (is_epoch_type kind); [|lia]. destruct (select_epoch d scope kind id) as [e|] eqn:E; cbn [default Datatypes.id]; [|lia].
    specialize (Ho _ eq_refl). lia. }
  destruct (Z.eqb_spec (next_epoch d scope kind id) 0) as [?|_]; [lia|].
  unfold in_tx, revoke_tx. set (n := next_epoch d scope kind id) in *. clearbody n.
  assert (Hf : match select_epoch d scope kind id with Some e => n <? e | None => false end = false).
  { destruct (select_epoch d scope kind id); [|done]. specialize (Ho _ eq_refl). apply Z.ltb_ge. lia. }
  rewrite Hf. cbn [refuse mbind res_bind]. apply Z.ltb_lt in He. unfold sql_uint. rewrite He.
  destruct (is_epoch_subject kind); cbn; eauto.
Qed.

Lemma revoke_succeeds rawType id (w : node) scope kind id' : mem_str rawType revoke_types = true →
  (revoke_subject rawType id w).1 = Ok (kind, scope, id') → memberships (m_scopes (lo_member w)) !! scope = None →
  recordable (lo_rel w) scope kind id' → ∃ w1, revoke rawType id w = (Ok (scope, kind, id'), w1).
Proof.
  intros Ht Hs Hm Hr. assert (gives (revoke rawType id) w (λ r _, r = (scope, kind, id'))) as (r & w1 & E & ->); [|by exists w1].
  unfold revoke, ScopeCommands.revoke. apply gives_bind, gives_guard; [by rewrite Ht|].
  apply gives_bind. eapply gives_run; [rewrite (surjective_pairing (revoke_subject rawType id w)), Hs, revoke_subject_reads; reflexivity|].
  apply gives_bind. apply (gives_run _ _ (next_epoch (lo_rel w) scope kind id') w).
  { unfold next_epoch. destruct Hr as [_ _ He Ho]. unfold next_epoch in He, Ho. destruct (is_epoch_type kind); [|done].
    unfold mbind, M_bind, wrapped, of_rel, RevocationEpoch. rewrite Z.mod_small; [done|].
    destruct (select_epoch (lo_rel w) scope kind id') as [e|]; cbn [default Datatypes.id] in *; [specialize (Ho _ eq_refl)|]; lia. }
  apply gives_bind. eapply gives_run; [reflexivity|]. unfold MembershipOf. rewrite Hm. cbn [need is_ok].
  apply gives_bind, gives_bind. eapply gives_run; [reflexivity|]. apply gives_wrapped.
  destruct (Revoke_stores (clock (m_ticks (lo_member w))) _ _ _ _ _ Hr eq_refl) as [d' Hd].
  eapply gives_run; [unfold in_rel; cbn [lo_rel with_member]; rewrite Hd; reflexivity|]. by apply gives_ret.
Qed.

(** The exact authorizer of a Pipe reads only the rows of that Pipe. *)
Lemma authorizer_reads_own pipe wall a d d' req :
  (∀ kind jti, revocations d' !! (pipe, kind, jti) = revocations d !! (pipe, kind, jti)) →
  @AuthorizeOpen _ _ (ExactAuthorityRevocationState pipe) wall a d' req = @AuthorizeOpen _ _ (ExactAuthorityRevocationState pipe) wall a d req.
Proof.
  intros Hd. unfold AuthorizeOpen. cbn [as_IsRevoked as_RevocationEpoch ExactAuthorityRevocationState].
  unfold IsRevoked, RevocationEpoch, select_epoch.
  destruct (relabel (Lease.Decode _) _) as [lease|e]; cbn [mbind res_bind]; [by rewrite !Hd|reflexivity].
Qed.

(** C4: [tubo revoke] is effective where access is checked, on a node that is not a member of
    the scope concerned. The command succeeds for every subject that it resolves and the table
    can take. Revoking an exact invite, given as its text or as the identifier of a
    redeemed one, makes every later redemption of it and every renewal of a relationship that
    came from it fail. Revoking the access to a Pipe, given by its identifier or as a Pipe
    without a scope, shuts out every lease of the epochs so far, for good. But for a Pipe of a
    scope the revocation is recorded for the scope only and changes no decision of the exact
    authorizer that serves the Pipe. *)
Theorem revoke_takes_effect (w w1 : node) id r :
  (∀ rawType kind scope id', mem_str rawType revoke_types = true → (revoke_subject rawType id w).1 = Ok (kind, scope, id') →
     memberships (m_scopes (lo_member w)) !! scope = None → recordable (lo_rel w) scope kind id' →
     ∃ w', revoke rawType id w = (Ok (scope, kind, id'), w')) ∧
  (∀ pipe jti, exact_invite w id pipe jti → memberships (m_scopes (lo_member w)) !! pipe = None →
     revoke "invite" id w = (Ok r, w1) →
     ∀ enc invite d2 load wall rs rj now rcp ch pf loader deps life,
       Invite.DecodeInvite enc = Ok invite → Invite.JTI invite = jti → rtc rel_step (lo_rel w1) d2 →
       let A := ExactAuthorityRevocationState pipe in
       (∃ e, @RedeemExactInvite _ _ A load wall rs rj now enc rcp ch pf loader deps life d2 = (Fail e, d2)) ∧
       (∀ epoch bnd, @as_AcceptedRelationship _ A d2 pipe rcp = Ok (Some (jti, epoch)) →
          ∃ e, @RenewAcceptedAccess _ _ A load rj now pipe rcp bnd ch pf loader deps life d2 = Fail e)) ∧
  (∀ pipe before, exact_pipe w id pipe → memberships (m_scopes (lo_member w)) !! pipe = None →
     rtc rel_step no_relations (lo_rel w) → RevocationEpoch (lo_rel w) pipe "pipe-access" pipe = Ok before →
     revoke "pipe-access" id w = (Ok r, w1) →
     ∀ d2 wall a req auth, rtc rel_step (lo_rel w1) d2 → or_PipeID req = pipe →
       @AuthorizeOpen _ _ (ExactAuthorityRevocationState pipe) wall a d2 req = Ok auth → before < au_AccessEpoch auth) ∧
  (∀ spec file grant scope, HasPrefix id "pipe/" = true → Pipe (lo_objects w) id = Ok (spec, file, grant) →
     p_Scope spec = Some scope → ScopeString scope ≠ p_PipeID spec → memberships (m_scopes (lo_member w)) !! ScopeString scope = None →
     revoke "pipe-access" id w = (Ok r, w1) →
     ∀ wall a req, @AuthorizeOpen _ _ (ExactAuthorityRevocationState (p_PipeID spec)) wall a (lo_rel w1) req =
                   @AuthorizeOpen _ _ (ExactAuthorityRevocationState (p_PipeID spec)) wall a (lo_rel w) req).
Proof.
  destruct r as [[scope kind] id']. split_and!.
  - intros rawType kind2 scope2 id2. apply revoke_succeeds.
  - intros pipe jti Hi Hm Hr enc invite d2 load wall rs rj now rcp ch pf loader deps life Hd Hj Hs A. subst A.
    pose proof (invite_subject _ _ _ _ Hi) as Hsub.
    assert (scope = pipe ∧ kind = "exact.invite" ∧ id' = jti) as (-> & -> & ->).
    { rewrite (revoke_result _ _ _ _ _ _ _ Hr) in Hsub. by injection Hsub as -> -> ->. }
    apply revoke_local in Hr as (t & epoch & _ & Hrev & _); [|done]. apply Revoke_row in Hrev as (Hrow & _).
    assert (HR : IsRevoked (lo_rel w1) pipe "exact.invite" (Invite.JTI invite) = Ok true).
    { unfold IsRevoked, select_epoch in *. rewrite Hj. destruct (revocations _ !! _) as [row|]; [|done]. by rewrite bool_decide_eq_true_2. }
    destruct (revoked_invite_dead (H1 := ExactAuthorityRevocationState pipe) (H2 := adapter_laws pipe) load wall rs rj now enc rcp ch pf loader deps life invite
                (lo_rel w1) d2 Hd HR Hs) as [Hred Hren].
    split; [exact Hred|]. intros epoch' bnd Ha. rewrite <- Hj in Ha. by eapply Hren.
  - intros pipe before Hp Hm Hreach Hb Hr d2 wall a req auth Hs Hreq Ha.
    pose proof (pipe_subject "pipe-access" _ _ _ ltac:(done) Hp) as Hsub.
    assert (scope = pipe ∧ kind = "pipe-access" ∧ id' = pipe) as (-> & -> & ->).
    { rewrite (revoke_result _ _ _ _ _ _ _ Hr) in Hsub. by injection Hsub as -> -> ->. }
    apply revoke_local in Hr as (t & epoch & _ & Hrev & Hep); [|done]. apply Ok_inj in Hb.
    pose proof (Revoke_row _ _ _ _ _ _ _ Hrev) as (_ & Hlt & Hold & _).
    assert (epoch = before + 1 ∧ 0 ≤ before) as [-> ?].
    { cbn [is_epoch_type seqb] in Hep. change (is_epoch_type "pipe-access") with true in Hep. rewrite Hb in Hep.
      apply reachable_positive in Hreach. unfold select_epoch in *. destruct (revocations (lo_rel w) !! _) as [row|] eqn:Erow; cbn in Hb; subst before.
      - specialize (Hold _ eq_refl). specialize (Hreach _ _ Erow). rewrite Z.mod_small in Hep by lia. lia.
      - rewrite Z.mod_small in Hep by lia. lia. }
    assert (He : 0 ≤ before + 1 < 2 ^ 64) by lia.
    apply (epoch_fence wall a t pipe (before + 1) (lo_rel w) (lo_rel w1) d2 req auth Hreach He Hreq Hrev Hs) in Ha as [Hle _]. lia.
  - intros spec file grant s Hid Hpipe Hs Hne Hm Hr wall a req.
    pose proof (scoped_subject "pipe-access" _ _ _ _ _ _ ltac:(done) Hid Hpipe Hs) as Hsub.
    assert (scope = ScopeString s ∧ kind = "pipe-access" ∧ id' = p_PipeID spec) as (-> & -> & ->).
    { rewrite (revoke_result _ _ _ _ _ _ _ Hr) in Hsub. by injection Hsub as -> -> ->. }
    apply revoke_local in Hr as (t & epoch & _ & Hrev & _); [|done]. apply Revoke_row in Hrev as (_ & _ & _ & Hkeep).
    apply authorizer_reads_own. intros kind jti. apply Hkeep. congruence.
Qed.

(** ** Tokens of an authority *)
Import TokenFacts.

Lemma signed_wire u k t : Tokens.Sign u k = Ok t → wire_token (unsigned u) → wire_token t.
Proof.
  intros (m & _ & ->)%Sign_inv [Hv Ht Hs Hi He Hp Ha Hu]. destruct u. cbn in *. rewrite !Forall_cons in Ht.
  destruct Ht as (? & ? & ? & ? & ? & ? & ? & ? & ? & ? & _).
  constructor; cbn; try done. rewrite !Forall_cons. split_and!; try done; apply ascii_base64.
Qed.

(** What an authority signed and encoded is decoded and verifies under its key. *)
Lemma signed_accepted u k t text : Tokens.Sign u k = Ok t → Tokens.Encode t = Ok text → token_shape u → wire_token (unsigned u) →
  Tokens.Decode text = Ok t ∧ unsigned t = unsigned u ∧ Tokens.Issuer t = Tokens.PublicString (Public k) ∧
  ∀ wall now, steady wall now → token_live u now → Tokens.Verify wall t (Public k) now = Ok tt.
Proof.
  intros Hs He Hsh Hw. pose proof (Sign_unsigned _ _ _ Hs) as Hu. pose proof (Sign_form _ _ _ Hs Hsh) as Hf.
  split; [eapply token_Decode_Encode; [by eapply signed_wire|done]|]. split; [done|]. split; [apply Hf|].
  intros wall now Hst Hl. apply (Token_Verify_spec _ _ _ _ Hst). split; [done|].
  destruct t, u. injection Hu as. unfold token_live in *. cbn in *. congruence.
Qed.

Definition dated (now : time) (lifetime : duration) : Prop :=
  IsZero (UTC now) = false ∧ in_years (UTC now) ∧ in_years (Add (UTC now) lifetime) ∧ 0 < lifetime.

Lemma jti_text r jti : randomID r "jti_" = Ok jti → good_entropy r → ascii_text jti ∧ 0 < slen jti ≤ 8192.
Proof. intros Hj Hr. destruct (jti_shape r jti Hj Hr) as (_ & _ & Hl & Ha). split; [done|lia]. Qed.

Lemma new_token_shape r now kind scope subject audience lifetime token :
  Tokens.NewToken r now kind scope subject audience lifetime = Ok token → good_entropy r → dated now lifetime →
  ScopeValidate scope = Ok tt → kind = "membership.invite" ∨ kind = "pipe.publish" →
  ascii_text subject → 0 < slen subject ≤ 8192 → ascii_text audience → slen audience ≤ 8192 →
  token_shape token ∧ wire_token (unsigned token) ∧
  Tokens.Type_ token = kind ∧ Tokens.InScope token = scope ∧ Tokens.Audience token = audience ∧
  Tokens.IssuedAt token = UTC now ∧ Tokens.ExpiresAt token = Add (UTC now) lifetime.
Proof.
  intros Hn Hr (Hz & Hy & Hy' & Hl) Hs Hk Hsub Hslen Haud Halen. unfold Tokens.NewToken in Hn.
  apply bind_ok in Hn as (jti & Hj & Hn). apply Ok_inj in Hn. subst token. destruct (jti_text _ _ Hj Hr) as [Hja Hjl].
  split_and!; try done.
  - constructor; cbn; try done; try lia.
    + intros ->. by destruct Hk.
    + intros ->. by destruct Hk.
  - constructor; cbn; try done; try lia; [|by apply valid_scope_wire].
    rewrite !Forall_cons. split_and!; try done; try constructor. by destruct Hk as [-> | ->]; apply ascii_textb_true.
Qed.

(** ** Inviting and joining *)

(** What [scopeInvite] found and signed. *)
Record invited_by (clock_a : nat → time) (rnd_a : nat → entropy) (wa : node) (arg role : string) (lifetime : duration) (text : string)
    (scope : Scope) (k : PrivateKey) (address namespace : string) : Prop := {
  ib_role : mem_str role invite_roles = true;
  ib_scope : ScopeValidate scope = Ok tt;
  ib_row : ∃ row, scopes (m_scopes (lo_member wa)) !! arg = Some row ∧ parse_scope (sc_Name row) = Ok scope ∧
             lo_keys wa !! sc_AuthorityKeyFile row = Some (Ok k) ∧
             ∃ secret, lo_secrets wa !! sc_NamespaceKeyFile row = Some secret ∧ namespace = TrimSpace secret;
  ib_run : ∃ run, RunNamed (lo_runs wa) ("authority/" +:+ Cluster scope) = Ok run ∧ ru_Status run = "ready" ∧ address = ru_Address run;
  ib_lifetime : 0 < lifetime;
  ib_token : ∃ token t,
    Tokens.NewToken (rnd_a (m_draws (lo_member wa))) (clock_a (m_ticks (lo_member wa))) "membership.invite" scope "invitee" "" lifetime = Ok token ∧
    Tokens.Sign (set_membership role address namespace token) k = Ok t ∧ Tokens.Encode t = Ok text }.

Lemma parse_scope_valid raw scope : parse_scope raw = Ok scope → ScopeValidate scope = Ok tt.
Proof.
  unfold parse_scope. destruct (Split raw _) as [|a [|b [|]]]; try done. intros E. apply bind_ok in E as ([] & Hv & [= <-]). done.
Qed.

Lemma key_at_ok keys path k : key_at keys path = Ok k → keys !! path = Some (Ok k).
Proof. unfold key_at. destruct (keys !! path); cbn; congruence. Qed.

Lemma scopeInvite_inv clock_a rnd_a arg role lifetime (wa wa' : node) text :
  scopeInvite clock_a rnd_a arg role lifetime wa = (Ok text, wa') →
  ∃ scope k address namespace, invited_by clock_a rnd_a wa arg role lifetime text scope k address namespace.
Proof.
  unfold scopeInvite. intros E. apply bind_run in E as ([] & w0 & Hg & E). apply guard_run in Hg as [_ <-].
  apply bind_run in E as ([] & w0 & Hg & E). apply guard_run in Hg as [Hrole%negb_false_iff <-].
  apply bind_run in E as (row & w0 & Hrow & E). injection Hrow as Hrow <-. unfold ScopeNamed in Hrow. apply need_ok in Hrow.
  apply bind_run in E as (scope & w0 & Hs & E). apply lift_run in Hs as [Hs <-].
  apply bind_run in E as (run & w0 & Hrun & E). apply wrapped_run in Hrun. injection Hrun as Hrun <-.
  apply bind_run in E as ([] & w0 & Hg & E). apply guard_run in Hg as [Hst%negb_false_iff%seqb_true <-].
  apply bind_run in E as ([] & w0 & Hg & E). apply guard_run in Hg as [Hl%Z.leb_gt <-].
  apply bind_run in E as (k & w0 & Hk & E). injection Hk as Hk <-. apply key_at_ok in Hk.
  apply bind_run in E as (secret & w0 & Hn & E). injection Hn as Hn <-. apply need_ok in Hn.
  apply bind_run in E as (r & w0 & Hr & E). injection Hr as <- <-.
  apply bind_run in E as (t & w0 & Ht & E). injection Ht as <- <-.
  apply bind_run in E as (token & w0 & Htok & E). apply lift_run in Htok as [Htok <-].
  apply bind_run in E as (signed & w0 & Hsig & E). apply lift_run in Hsig as [Hsig <-]. apply lift_run in E as [He <-].
  exists scope, k, (ru_Address run), (TrimSpace secret). constructor; try done.
  - by apply parse_scope_valid in Hs.
  - exists row. split_and!; try done. by exists secret.
  - by exists run.
  - by exists token, signed.
Qed.

(** The texts that the authority puts in an invite can be written and are there. *)
Definition inviting (clock_a : nat → time) (rnd_a : nat → entropy) (wa : node) (lifetime : duration) (address namespace : string) : Prop :=
  dated (clock_a (m_ticks (lo_member wa))) lifetime ∧ good_entropy (rnd_a (m_draws (lo_member wa))) ∧
  ascii_text address ∧ address ≠ "" ∧ ascii_text namespace ∧ namespace ≠ "".

Definition within_window (issued : time) (lifetime : duration) (now : time) : Prop :=
  unix_ns issued ≤ unix_ns now + 30 * Second ∧ unix_ns now < unix_ns issued + lifetime.

(** The invite as a token: its fields, and that it counts within its window. *)
Record invite_token (text : string) (token : Tokens.Token) (scope : Scope) (k : PrivateKey) (role address namespace : string)
    (issued : time) (lifetime : duration) : Prop := {
  it_decoded : Tokens.Decode text = Ok token;
  it_type : Tokens.Type_ token = "membership.invite";
  it_scope : Tokens.InScope token = scope;
  it_role : Tokens.Role token = role;
  it_issuer : Tokens.Issuer token = Tokens.PublicString (Public k);
  it_address : Tokens.AuthorityAddress token = address;
  it_namespace : Tokens.NamespaceKey token = namespace;
  it_verifies : ∀ n, within_window issued lifetime n → Tokens.Verify n token (Public k) (UTC n) = Ok tt }.

Lemma membership_shape role address namespace u : token_shape u → token_shape (set_membership role address namespace u).
Proof. intros []. by constructor; destruct u. Qed.

Lemma membership_wire role address namespace u : ascii_text role → ascii_text address → ascii_text namespace →
  wire_token (unsigned u) → wire_token (unsigned (set_membership role address namespace u)).
Proof.
  intros Hr Ha Hn [Hv Ht Hs Hi He Hp Hae Hpe]. destruct u. cbn in *. rewrite !Forall_cons in Ht.
  destruct Ht as (? & ? & ? & ? & ? & ? & ? & ? & ? & ? & _). constructor; cbn; try done. rewrite !Forall_cons. by split_and!.
Qed.

Lemma invited_token clock_a rnd_a (wa : node) arg role lifetime text scope k address namespace :
  invited_by clock_a rnd_a wa arg role lifetime text scope k address namespace →
  inviting clock_a rnd_a wa lifetime address namespace →
  ∃ token, invite_token text token scope k role address namespace (clock_a (m_ticks (lo_member wa))) lifetime.
Proof.
  intros [Hrole Hsc _ _ _ (u & t & Hu & Hs & He)] (Hd & Hr & Ha & Hane & Hn & Hnne).
  assert (ascii_text role).
  { apply mem_str_true in Hrole. unfold invite_roles in Hrole. rewrite !elem_of_cons in Hrole.
    destruct Hrole as [->|[->|[->|[->|?%not_elem_of_nil]]]]; try done; by apply ascii_textb_true. }
  assert (Hlen : 0 < slen "invitee" ≤ 8192) by (split; reflexivity || discriminate).
  assert (Hnil : slen "" ≤ 8192) by discriminate.
  destruct (new_token_shape _ _ _ _ _ _ _ _ Hu Hr Hd Hsc (or_introl eq_refl) ltac:(by apply ascii_textb_true) Hlen ltac:(by apply ascii_textb_true) Hnil)
    as (Hsh & Hw & Hty & Hin & _ & Hi & Hx).
  destruct (signed_accepted _ _ _ _ Hs He) as (Hdec & Hun & Hiss & Hver).
  - by apply membership_shape.
  - by apply membership_wire.
  - exists t. assert (Ht : Tokens.Type_ t = Tokens.Type_ u ∧ Tokens.InScope t = Tokens.InScope u ∧ Tokens.Role t = role ∧
      Tokens.AuthorityAddress t = address ∧ Tokens.NamespaceKey t = namespace) by (destruct t, u; cbn in Hun; injection Hun as; cbn; split_and!; congruence).
    destruct Ht as (Ht1 & Ht2 & Ht3 & Ht4 & Ht5). constructor; try congruence.
    intros n [Hw1 Hw2]. apply Hver; [apply steady_now|]. unfold token_live.
    change (Tokens.IssuedAt (set_membership role address namespace u)) with (Tokens.IssuedAt u).
    change (Tokens.ExpiresAt (set_membership role address namespace u)) with (Tokens.ExpiresAt u). rewrite Hi, Hx. cbn [UTC Add unix_ns]. lia.
Qed.

Lemma public_read k : Tokens.PublicFromString (Tokens.PublicString (Public k)) = Ok (Public k).
Proof. unfold Tokens.PublicFromString, Tokens.PublicString. pass; [apply base64_decode_encode|]. pass; [by rewrite Public_size|done]. Qed.

Context (generate : string → PrivateKey) (home : string).

(** The key file of a membership, if there is one, is in order. *)
Definition keyed (scope : Scope) (wm : node) : Prop :=
  ∀ e, lo_keys wm !! SecretPath home ["memberships"; dashed (ScopeString scope) +:+ ".key"] ≠ Some (Fail e).

(** What joining leaves on the new member. *)
Record joined (text : string) (scope : Scope) (k : PrivateKey) (role address namespace : string) (wm wm' : node) (kc : PrivateKey) : Prop := {
  jo_member : ∃ m, memberships (m_scopes (lo_member wm')) !! ScopeString scope = Some m ∧ mb_Scope m = ScopeString scope ∧
    mb_Token m = text ∧ mb_Role m = role ∧ mb_AuthorityPublic m = Tokens.PublicString (Public k) ∧ mb_AuthorityAddress m = address ∧
    key_at (lo_keys wm') (mb_ClientKeyFile m) = Ok kc;
  jo_secret : lo_secrets wm' !! SecretPath home ["namespaces"; Cluster scope; Namespace scope; "current.secret"] = Some namespace;
  jo_keys : ∀ path key, lo_keys wm !! path = Some key → lo_keys wm' !! path = Some key;
  jo_rest : lo_objects wm' = lo_objects wm ∧ lo_rel wm' = lo_rel wm ∧ lo_runs wm' = lo_runs wm ∧
    scopes (m_scopes (lo_member wm')) = scopes (m_scopes (lo_member wm)) ∧ m_sync (lo_member wm') = m_sync (lo_member wm) }.

Lemma decoded_some text token : Tokens.Decode text = Ok token → text ≠ "".
Proof. intros Hd ->. vm_compute in Hd. discriminate. Qed.

Lemma join_sound text token scope k role address namespace issued lifetime (wm : node) :
  invite_token text token scope k role address namespace issued lifetime → address ≠ "" → namespace ≠ "" →
  within_window issued lifetime (clock (m_ticks (lo_member wm))) → keyed scope wm →
  ∃ wm' kc, scopeJoin clock generate home text wm = (Ok (ScopeString scope, role), wm') ∧
    joined text scope k role address namespace wm wm' kc.
Proof.
  intros [Hdec Hty Hsc Hrole Hiss Haddr Hns Hver] Hane Hnne Hw Hkey.
  set (path := SecretPath home ["memberships"; dashed (ScopeString scope) +:+ ".key"]).
  set (kc := match lo_keys wm !! path with Some (Ok k0) => k0 | _ => generate path end).
  assert (HG : ∀ w : node, lo_keys w = lo_keys wm →
    (if bool_decide (is_Some (lo_keys w !! path)) then mret tt else (_ ← GeneratePrivate generate path; mret tt)) w =
    (Ok tt, with_keys (<[path := Ok kc]> (lo_keys w)) w)).
  { intros w Hk. unfold GeneratePrivate, kc, mbind, M_bind. rewrite Hk.
    destruct (lo_keys wm !! path) as [[k0|e]|] eqn:E; [|by destruct (Hkey e)|rewrite bool_decide_eq_false_2 by (by intros [? ?]); cbv beta iota; rewrite Hk, E; done].
    rewrite insert_id by done. rewrite <- Hk. by destruct w. }
  assert (gives (scopeJoin clock generate home text) wm (λ r wm', r = (ScopeString scope, role) ∧
            joined text scope k role address namespace wm wm' kc)) as (r & wm' & Hrun & -> & Hj); [|by exists wm', kc].
  unfold scopeJoin, required. apply gives_bind, gives_guard; [by apply seqb_false; eapply decoded_some|]. apply gives_bind. eapply gives_lift; [exact Hdec|]. apply gives_bind. eapply gives_lift; [rewrite Hiss; apply public_read|].
  apply gives_bind. eapply gives_run; [reflexivity|]. apply gives_bind. eapply gives_lift; [by apply Hver|].
  apply gives_bind, gives_guard; [rewrite Hty, Haddr, Hns; apply seqb_false in Hane, Hnne; by rewrite Hane, Hnne|].
  cbv zeta. rewrite Hsc. fold path. apply gives_bind. eapply gives_run; [reflexivity|].
  apply gives_bind. eapply gives_run; [by apply HG|].
  apply gives_bind. eapply gives_run; [reflexivity|]. apply gives_bind. eapply gives_run; [reflexivity|]. apply gives_ret.
  rewrite Hrole. split; [done|]. constructor; cbn.
  - eexists. split; [apply lookup_insert_eq|]. cbn. split_and!; try done. unfold key_at. by rewrite lookup_insert_eq.
  - rewrite lookup_insert_eq. by rewrite Hns.
  - intros p key Hp. destruct (decide (p = path)) as [->|]; [|by rewrite lookup_insert_ne]. rewrite lookup_insert_eq. unfold kc. rewrite Hp.
    destruct key as [key|e]; [done|]. by destruct (Hkey e).
  - by split_and!.
Qed.

(** ** The member at the authority *)
Definition short (s : string) : Prop := slen s ≤ 8192.

Lemma key_short k : short (Tokens.PublicString (Public k)).
Proof. unfold short, Tokens.PublicString. rewrite slen_base64, Public_size. discriminate. Qed.
Lemma proof_short k purpose parts : short (Tokens.SignProof k purpose parts).
Proof. unfold short, Tokens.SignProof. rewrite slen_base64, SignMsg_size. discriminate. Qed.
Lemma shorts l : Forall short l → boundedStrings 8192 l = true.
Proof. intros Hl. apply forallb_forall. intros x Hx%list_elem_of_In. rewrite Forall_forall in Hl. by apply Z.leb_le, Hl. Qed.

Lemma proof_verifies k purpose parts : Tokens.VerifyProof (Public k) (Tokens.SignProof k purpose parts) purpose parts = true.
Proof. unfold Tokens.VerifyProof, Tokens.SignProof. rewrite base64_decode_encode. apply VerifyMsg_SignMsg. Qed.

Section admitted.
Context (text : string) (token : Tokens.Token) (scope : Scope) (k kc : PrivateKey) (role address namespace : string)
  (issued : time) (lifetime : duration) (Ht : invite_token text token scope k role address namespace issued lifetime)
  (clock_h : nat → time) (wh : world) (Hw : within_window issued lifetime (clock_h (w_ticks wh))).

Lemma token_verified : gives (verify_token clock_h (mkAuthority scope k) token) wh (λ _ _, True).
Proof.
  unfold verify_token. apply gives_bind. eapply gives_run; [reflexivity|]. eapply gives_lift; [|done].
  by apply (it_verifies _ _ _ _ _ _ _ _ _ Ht).
Qed.

Lemma decoded_short : over Tokens.MaxTokenSize text = false.
Proof.
  pose proof (it_decoded _ _ _ _ _ _ _ _ _ Ht) as Hd. unfold Tokens.Decode in Hd. by apply bind_ok in Hd as (u & Hb%refuse_ok & _).
Qed.

(** A request that the member signs for [operation]. *)
Definition request_of (operation pipeID nonce record : string) : AuthorityRequest :=
  mkAuthorityRequest operation text pipeID (Tokens.PublicString (Public kc)) nonce
    (Tokens.SignProof kc authorityProof [operation; pipeID; nonce; Tokens.JTI token]) record [] "".
Definition snapshot_of (nonce : string) : AuthoritySnapshotRequest :=
  mkSnapshotRequest text (Tokens.PublicString (Public kc)) nonce
    (Tokens.SignProof kc authorityProof ["records.list"; ""; nonce; Tokens.JTI token]).

Lemma request_admitted operation pipeID nonce record :
  short operation → short pipeID → short nonce → over Records.MaxRecordSize record = false →
  (authenticate clock_h (mkAuthority scope k) (request_of operation pipeID nonce record) wh).1 = Ok token.
Proof.
  intros Ho Hp Hn Hr.
  assert (gives (authenticate clock_h (mkAuthority scope k) (request_of operation pipeID nonce record)) wh (λ r _, r = token))
    as (r & w' & -> & ->); [|done].
  unfold authenticate, check, under, instead.
  cbn [request_of aq_Operation aq_PipeID aq_ClientPublic aq_Nonce aq_Proof aq_AccessLease aq_Token aq_Record aq_Subjects].
  apply gives_bind, gives_guard.
  { rewrite shorts, decoded_short, Hr; [reflexivity|]. repeat (constructor; [first [assumption|apply key_short|apply proof_short|discriminate]|]). constructor. }
  apply gives_bind, gives_wrapped. eapply gives_lift; [apply (it_decoded _ _ _ _ _ _ _ _ _ Ht)|].
  apply gives_bind, gives_wrapped. eapply gives_mono; [apply token_verified|]. intros [] w1 _.
  apply gives_bind, gives_guard; [rewrite (it_scope _ _ _ _ _ _ _ _ _ Ht); unfold same_scope; by rewrite bool_decide_eq_true_2|].
  apply gives_bind, gives_wrapped. eapply gives_lift; [apply public_read|].
  apply gives_bind, gives_guard; [by rewrite proof_verifies|]. by apply gives_ret.
Qed.

Lemma snapshot_admitted nonce : short nonce → mem_str role discovering_roles = true →
  (snapshot_authenticate clock_h (mkAuthority scope k) (snapshot_of nonce) wh).1 = Ok tt.
Proof.
  intros Hn Hrole.
  assert (gives (snapshot_authenticate clock_h (mkAuthority scope k) (snapshot_of nonce)) wh (λ _ _, True)) as ([] & w' & -> & _); [|done].
  unfold snapshot_authenticate, check, under, instead. cbn [snapshot_of sq_Token sq_ClientPublic sq_Nonce sq_Proof].
  apply gives_bind, gives_guard.
  { rewrite shorts, decoded_short; [reflexivity|]. repeat (constructor; [first [assumption|apply key_short|apply proof_short]|]). constructor. }
  apply gives_bind, gives_wrapped. eapply gives_lift; [apply (it_decoded _ _ _ _ _ _ _ _ _ Ht)|].
  apply gives_bind, gives_wrapped. eapply gives_mono; [apply token_verified|]. intros [] w1 _.
  apply gives_bind, gives_guard.
  { rewrite (it_type _ _ _ _ _ _ _ _ _ Ht), (it_scope _ _ _ _ _ _ _ _ _ Ht). unfold same_scope. by rewrite bool_decide_eq_true_2. }
  apply gives_bind, gives_guard; [by rewrite (it_role _ _ _ _ _ _ _ _ _ Ht), Hrole|].
  apply gives_bind, gives_wrapped. eapply gives_lift; [apply public_read|]. apply gives_guard; [by rewrite proof_verifies|done].
Qed.
End admitted.

(** ** Publish grants *)
Definition month : duration := 30 * (24 * (60 * Minute)).

Lemma epoch_shape e u : token_shape u → token_shape (Tokens.set_publish_epoch e u).
Proof. destruct u. intros []. by constructor. Qed.
Lemma epoch_wire e u : 0 ≤ e < 2 ^ 64 → wire_token (unsigned u) → wire_token (unsigned (Tokens.set_publish_epoch e u)).
Proof. destruct u. intros He []. by constructor. Qed.

Lemma own_grant_accepted row scope raw owner pipeID (w w1 : node) text k :
  own_grant clock rnd row scope raw owner pipeID w = (Ok text, w1) → lo_keys w !! sc_AuthorityKeyFile row = Some (Ok k) →
  let issued := clock (m_ticks (lo_member w)) in
  let epoch := default 0 (select_epoch (lo_rel w) raw "pipe-publish" pipeID) in
  dated issued month → good_entropy (rnd (m_draws (lo_member w))) → ScopeValidate scope = Ok tt →
  ascii_text pipeID → short pipeID → 0 ≤ epoch < 2 ^ 64 →
  ∀ pu now e, pu_scope pu = scope → p_PipeID (pu_spec pu) = pipeID → pu_authority pu = Public k → within_window issued month now →
    ∃ grant, accept_grant pu text now e = Ok grant ∧ Tokens.PublishEpoch grant = epoch ∧
      Tokens.Subject grant = Tokens.PublicString (Public owner).
Proof.
  intros E Hk issued epoch Hd Hr Hsc Hp Hpl Hep pu now e Hps Hpi Hpa [Hw1 Hw2]. unfold own_grant in E.
  apply bind_run in E as (k' & w0 & Hk' & E). unfold ReadPrivate, key_at in Hk'. rewrite Hk in Hk'. injection Hk' as <- <-.
  apply bind_run in E as (r & w0 & Hr' & E). injection Hr' as <- <-. apply bind_run in E as (t & w0 & Ht & E). injection Ht as <- <-.
  apply bind_run in E as (u & w0 & Hu & E). apply lift_run in Hu as [Hu <-]. apply bind_run in E as (ep & w0 & He & E). injection He as <- <-.
  apply bind_run in E as (signed & w0 & Hs & E). apply lift_run in Hs as [Hs <-]. apply lift_run in E as [Hen <-].
  destruct (new_token_shape _ _ _ _ _ _ _ _ Hu Hr Hd Hsc (or_intror eq_refl)) as (Hsh & Hw & Hty & Hin & Hau & Hi & Hx).
  { apply ascii_base64. } { unfold Tokens.PublicString. rewrite slen_base64, Public_size. by split. } { done. } { done. }
  destruct (signed_accepted _ _ _ _ Hs Hen (epoch_shape _ _ Hsh) (epoch_wire _ _ Hep Hw)) as (Hdec & Hun & _ & Hver).
  assert (Hf : Tokens.Type_ signed = Tokens.Type_ u ∧ Tokens.InScope signed = Tokens.InScope u ∧ Tokens.Audience signed = Tokens.Audience u ∧
    Tokens.Subject signed = Tokens.Subject u ∧ Tokens.PublishEpoch signed = epoch).
  { subst epoch. cbn [lo_rel with_member] in Hun. revert Hun. generalize (default 0 (select_epoch (lo_rel w) raw "pipe-publish" pipeID)). intros ep Hun.
    destruct signed, u. cbn in Hun |- *. injection Hun as. split_and!; congruence. }
  destruct Hf as (Hf1 & Hf2 & Hf3 & Hf4 & Hf5). exists signed. split; [|split; [done|]].
  - unfold accept_grant. rewrite Hdec. cbn [relabel mbind res_bind]. rewrite Hpa, Hver; [|by unfold steady; destruct (IsZero now)|].
    + cbn [relabel mbind res_bind]. rewrite Hf1, Hf2, Hf3, Hty, Hin, Hau, Hps, Hpi, !seqb_refl. unfold same_scope.
      by rewrite bool_decide_eq_true_2.
    + unfold token_live. assert (Hiu : Tokens.IssuedAt (Tokens.set_publish_epoch (default 0 (select_epoch (lo_rel w) raw "pipe-publish" pipeID)) u) = Tokens.IssuedAt u ∧
        Tokens.ExpiresAt (Tokens.set_publish_epoch (default 0 (select_epoch (lo_rel w) raw "pipe-publish" pipeID)) u) = Tokens.ExpiresAt u) by (by destruct u).
      cbn [lo_rel with_member] in *. destruct Hiu as [-> ->]. rewrite Hi, Hx. cbn [UTC Add unix_ns]. unfold issued, month in *. lia.
  - rewrite Hf4. unfold Tokens.NewToken in Hu. apply bind_ok in Hu as (j & _ & Hu). apply Ok_inj in Hu. by subst u.
Qed.

(** C12: The credentials that an authority's node hands out work where they are presented. A
    membership invite of [tubo scope invite] is signed with the key of a stored scope, for one
    of the four roles, with the address of a ready authority. Until it expires any node whose
    key file for the membership is absent or in order can join with it, and has then exactly
    that membership; its requests at the authority, signed
    with the key it made, are authenticated as the invite's, and it may ask for snapshots. The
    grant that [tubo pipe create] signs for a Pipe in an own scope is accepted by the runtime
    that publishes the Pipe, for thirty days, with the publish epoch of the store. *)
Theorem scope_credentials_work (wa : node) (clock_a : nat → time) (rnd_a : nat → entropy) :
  (∀ arg role lifetime text wa', scopeInvite clock_a rnd_a arg role lifetime wa = (Ok text, wa') →
   ∃ scope k address namespace, invited_by clock_a rnd_a wa arg role lifetime text scope k address namespace ∧
     (inviting clock_a rnd_a wa lifetime address namespace →
      let issued := clock_a (m_ticks (lo_member wa)) in
      ∀ wm : node, within_window issued lifetime (clock (m_ticks (lo_member wm))) → keyed scope wm →
        ∃ token wm' kc, scopeJoin clock generate home text wm = (Ok (ScopeString scope, role), wm') ∧
          joined text scope k role address namespace wm wm' kc ∧
          ∀ clock_h wh, within_window issued lifetime (clock_h (w_ticks wh)) →
            (∀ operation pipeID nonce record, short operation → short pipeID → short nonce → over Records.MaxRecordSize record = false →
               (authenticate clock_h (mkAuthority scope k) (request_of text token kc operation pipeID nonce record) wh).1 = Ok token) ∧
            (∀ nonce, short nonce → (snapshot_authenticate clock_h (mkAuthority scope k) (snapshot_of text token kc nonce) wh).1 = Ok tt))) ∧
  (∀ row scope raw owner pipeID text k wa', own_grant clock rnd row scope raw owner pipeID wa = (Ok text, wa') →
     lo_keys wa !! sc_AuthorityKeyFile row = Some (Ok k) →
     let issued := clock (m_ticks (lo_member wa)) in
     let epoch := default 0 (select_epoch (lo_rel wa) raw "pipe-publish" pipeID) in
     dated issued month → good_entropy (rnd (m_draws (lo_member wa))) → ScopeValidate scope = Ok tt →
     ascii_text pipeID → short pipeID → 0 ≤ epoch < 2 ^ 64 →
     ∀ pu now e, pu_scope pu = scope → p_PipeID (pu_spec pu) = pipeID → pu_authority pu = Public k → within_window issued month now →
       ∃ grant, accept_grant pu text now e = Ok grant ∧ Tokens.PublishEpoch grant = epoch ∧
         Tokens.Subject grant = Tokens.PublicString (Public owner)).
Proof.
  split; [|intros row scope raw owner pipeID text k wa'; exact (own_grant_accepted row scope raw owner pipeID wa wa' text k)].
  intros arg role lifetime text wa' E. destruct (scopeInvite_inv _ _ _ _ _ _ _ _ E) as (scope & k & address & namespace & Hi).
  exists scope, k, address, namespace. split; [exact Hi|]. intros Hin issued wm Hw Hkey.
  destruct (invited_token _ _ _ _ _ _ _ _ _ _ _ Hi Hin) as [token Ht]. destruct Hin as (_ & _ & _ & Hane & _ & Hnne).
  destruct (join_sound _ _ _ _ _ _ _ _ _ wm Ht Hane Hnne Hw Hkey) as (wm' & kc & Hrun & Hj).
  exists token, wm', kc. split; [exact Hrun|]. split; [exact Hj|]. intros clock_h wh Hh. split.
  - intros operation pipeID nonce record. by eapply request_admitted.
  - intros nonce Hn. eapply snapshot_admitted; [exact Ht|exact Hh|exact Hn|]. exact (ib_role _ _ _ _ _ _ _ _ _ _ _ Hi).
Qed.
End commands.

(** ** Concrete nodes *)
Import SampleKeys.
Local Abbreviation sample := (local (H := keys) (N := unit)).

Definition silent : network unit :=
  mkNetwork unit (λ n, (Ok tt, n)) (λ _ n, (Ok tt, n)) (λ _ n, (Ok tt, n)) (λ _ n, (Fail (errorf "no peer"), n))
    (λ _ n, (Fail (errorf "no peer"), n)) (λ n, (Ok tt, n)).
Definition ready_run : run_row := mkRunRow "authority" 7 "p7" "foreground" "ready" "peer-a" "/ip4/10.0.0.1/tcp/4001" "" "".
Definition authority_node : sample :=
  mkLocal (mkMember (mkScopeTables {["demo/main" := mkScopeRow "demo/main" "" "auth.key" "ns.secret"]} ∅) empty_sync 0 0 tt)
    no_objects no_relations {["authority/demo" := ready_run]} {["auth.key" := Ok authority_key]} {["ns.secret" := "c2VjcmV0"]} (Ok "").
Definition new_node : sample :=
  mkLocal (mkMember no_scopes empty_sync 0 0 tt) no_objects no_relations ∅ ∅ ∅ (Ok "").
Definition at_noon (_ : nat) : time := noon.
Definition drawn (_ : nat) : entropy := rnd16.
Definition made (path : string) : @PrivateKey keys := path.

Definition hour : duration := 60 * Minute.
Lemma noon_in_hour : within_window noon hour noon.
Proof. split; vm_compute; [discriminate|reflexivity]. Qed.

Lemma noon_dated : dated noon hour.
Proof.
  refine (conj eq_refl (conj _ (conj _ eq_refl))); vm_compute; split; discriminate.
Qed.

Lemma sample_invited : is_ok (scopeInvite (H := keys) at_noon drawn "demo/main" "member" hour authority_node).1 = true.
Proof. vm_compute. reflexivity. Qed.

Lemma scope_credentials_work_witness :
  match scopeInvite (H := keys) at_noon drawn "demo/main" "member" hour authority_node with
  | (Ok text, _) => ∃ wm', scopeJoin (H := keys) at_noon made "/home/tubo" text new_node = (Ok ("demo/main", "member"), wm')
  | _ => False
  end.
Proof.
  destruct (scopeInvite (H := keys) at_noon drawn "demo/main" "member" hour authority_node) as [[text|e] wa'] eqn:E.
  - destruct (scope_credentials_work (H := keys) (H0 := keys_laws) at_noon drawn made "/home/tubo" authority_node at_noon drawn) as [Hinv _].
    destruct (Hinv _ _ _ _ _ E) as (scope & k & address & namespace & Hi & Hj).
    assert (scope = mkScope "demo" "main" ∧ namespace = "c2VjcmV0") as [-> ->].
    { destruct (ib_row _ _ _ _ _ _ _ _ _ _ _ Hi) as (row & Hrow & Hs & _ & secret & Hsec & ->).
      vm_compute in Hrow. injection Hrow as <-. vm_compute in Hs, Hsec. injection Hs as <-. injection Hsec as <-. by split. }
    assert (address = "/ip4/10.0.0.1/tcp/4001") as ->.
    { destruct (ib_run _ _ _ _ _ _ _ _ _ _ _ Hi) as (run & Hrun & _ & ->). vm_compute in Hrun. by injection Hrun as <-. }
    assert (Hin : inviting (H := keys) at_noon drawn authority_node hour "/ip4/10.0.0.1/tcp/4001" "c2VjcmV0").
    { refine (conj noon_dated (conj rnd16_good (conj (ascii_textb_true "/ip4/10.0.0.1/tcp/4001" eq_refl) (conj _ (conj (ascii_textb_true "c2VjcmV0" eq_refl) _))))); discriminate. }
    destruct (Hj Hin new_node noon_in_hour ltac:(done)) as (token & wm' & kc & Hrun & _). exists wm'. exact Hrun.
  - discriminate (eq_trans (eq_sym sample_invited) (f_equal (λ r, is_ok r.1) E)).
Defined.

Definition scoped_pipe : string := "pip_sample".
Lemma revoke_takes_effect_witness :
  ∃ w1, revoke (H := keys) silent at_noon drawn "pipe-access" scoped_pipe new_node = (Ok (scoped_pipe, "pipe-access", scoped_pipe), w1) ∧
  ∀ d2 wall a req auth, rtc rel_step (lo_rel w1) d2 → or_PipeID req = scoped_pipe →
    AuthorizeOpen (H := keys) (H0 := ExactAuthorityRevocationState scoped_pipe) wall a d2 req = Ok auth → 0 < au_AccessEpoch auth.
Proof.
  destruct (revoke_takes_effect (H := keys) silent at_noon drawn new_node new_node scoped_pipe ("", "", "")) as (Hrun & _).
  destruct (Hrun "pipe-access" "pipe-access" scoped_pipe scoped_pipe eq_refl eq_refl eq_refl) as [w1 E].
  { constructor; [by split_and!|split_and!; discriminate|reflexivity|discriminate]. }
  exists w1. split; [exact E|].
  destruct (revoke_takes_effect (H := keys) silent at_noon drawn new_node w1 scoped_pipe (scoped_pipe, "pipe-access", scoped_pipe)) as (_ & _ & Hcut & _).
  apply (Hcut scoped_pipe 0); [left; split_and!; reflexivity|reflexivity|apply rtc_refl|reflexivity|exact E].
Defined.
